(* ===== verification/_CoqProject ===== *)
-Q . S2P
Prelude.v
Float.v
Duration.v
Keys.v
Redis.v
Lua.v
MemRedis.v
Keyspace.v
Job.v
Scripts.v
Queue.v
ScriptSpecs.v
QueueSpecs.v
EnqueueSpecs.v
Inspector.v
FinishSpecs.v
SweepSpecs.v
Places.v
Liveness.v
Failures.v
Order.v
Board.v
Json.v
Winter.v
Client.v
Workflow.v
WorkflowSpecs.v
Cron.v
CronSpecs.v
RateLimit.v
RateLimitSpecs.v
RateLimitBounds.v
Moves.v
Texts.v
Lifecycle.v
Ticks.v
Unique.v
Refines.v
Tended.v
System.v
Programs.v
Races.v
MemText.v
Examples.v
WorkflowExamples.v
CronExamples.v
RateLimitExamples.v
RacesExamples.v
Config.v
Grpc.v
GrpcSpecs.v
Recovery.v
WinterTest.v
Handler.v
Server.v
ServerSpecs.v
SettleSpecs.v
ServerExamples.v
Cli.v
Connect.v
Commands.v
ServerPrograms.v
Typed.v
ExamplePrograms.v
Pool.v
Fairness.v
Process.v
Waiting.v
Standalone.v
SystemExamples.v
StandaloneExamples.v
TypedExamples.v
