(* ===== verification/Prelude.v ===== *)
(** * Winter: a verification development for the task queue

    Winter is a task queue on Redis.  Clients enqueue jobs; workers poll queues,
    run handlers and settle the jobs; sweepers take jobs back from workers that
    died; a schedule enqueues periodic jobs; workflows chain jobs; the same queue
    is served over gRPC and by two commands.  The processes share nothing but
    Redis and call it in Lua scripts, each of which is atomic.

    ** How the program is modelled

    A program is a function of the monad [M S E A] of this file: state passing
    with errors that keep what was done before.  [S] is the state of the server,
    an instance of the class [Redis] (Redis.v): the contents are a [gmap] from
    keys to typed values, next to it are expiries and the network.  A round trip
    ([Run], Queue.v) may execute a script any number of times and lose the reply;
    the commands of a pipeline make a round trip each.  A job is processed over a
    larger state, [world] of Server.v: the server, the in-flight table, the trace
    of what the hooks were told, and the turns that other processes take between
    its calls.  Handlers, middleware and hooks are arbitrary and may panic.
    Time is an argument in nanoseconds, readings of the clock and fresh ids are
    given by position.  Integers are [Z] with their wrap-around written out
    ([wrap64], [wrap32]); Lua numbers and Go floats are rationals rounded to
    binary64 (Float.v).  What is not in the repository is a parameter with its
    documented behaviour as laws: Redis ([RedisLaws]), encoding/json
    ([JsonLaws]), the cron library ([CronLaws]), the text of a double
    ([LuaFloatLaws]), sort ([SortFuncLaws]), the gRPC library ([GrpcLibLaws]),
    SHA-256, YAML.  MemRedis.v and
    MemText.v give executable instances, so that every law is satisfiable and
    the examples compute.

    ** The files and what they model

    - Keys.v: the key functions of [internal/queue/queue.go] and its neighbours;
      when names cannot collide.  Job.v: [internal/queue/job.go] and the parsers.
    - Redis.v, Lua.v, Keyspace.v: the server, scripts and their calculus [wp],
      the well-formed contents [wf_store].
    - Scripts.v, Queue.v: [internal/queue/scripts.go] and [queue.go], a definition
      per script and per method.  Inspector.v: [inspector.go].
    - Winter.v, Client.v, Duration.v: [winter.go], [client.go] and Go's durations.
    - Workflow.v: [internal/workflow/] and [workflow.go].  Cron.v:
      [internal/scheduler/cron.go].  RateLimit.v: [internal/ratelimit/limiter.go].
      Recovery.v: [internal/worker/recovery.go].
    - Handler.v, Server.v: [middleware.go] and [server.go], one definition per
      function and per round of a loop.  Pool.v and Process.v put the rounds
      together as step relations: the poller with its slots and goroutines, and a
      server from [Start] to its end, or to the panic that ends it, with its loops
      and its jobs at work while the schedule is still being set up.
    - Config.v, Grpc.v, Cli.v: [internal/config/], [internal/server/] and the two
      commands under [cmd/].  Connect.v: the constructors over an opaque
      connection, [context.go] and the start of the commands.  WinterTest.v:
      [wintertest/].
    - Commands.v: [cmd/winter/] from its arguments to its exit code.  Standalone.v:
      [cmd/server/] from its start to its exit, as a step relation around the
      service of Grpc.v, the sweeper and the schedule.
    - Typed.v: tasks as Go types, [TaskType], and [HandleFunc].  ExamplePrograms.v:
      the programs of [examples/], each the part of its client and its server.

    ** The groups of theorems

    - Functional behaviour.  ScriptSpecs.v computes the effect of each script;
      QueueSpecs, EnqueueSpecs, FinishSpecs and SweepSpecs.v state what the
      methods promise on every branch; WorkflowSpecs, CronSpecs, RateLimitSpecs,
      GrpcSpecs, ServerSpecs and SettleSpecs.v do so for their components.
      ServerSpecs.v says how processing a job can end whatever handler, hooks,
      network and other processes do, SettleSpecs.v that over a network that
      delivers once the job is settled, whether it belongs to a workflow or not.
      RateLimitBounds.v bounds what a bucket allows over any stretch of time.
    - The system.  Places.v has the invariant of the contents: a job is where its
      record says.  Lifecycle.v is the transition system of all requests of all
      processes over any network, and shows that every reachable state keeps the
      invariant.  System, Programs and ServerPrograms.v show that the entry points
      of the repository are sequences of its steps (the main function of the
      service up to the point where it serves, [winter server] up to [Start]), and
      Process.v that a whole server is.  Moves.v and Texts.v carry facts about keys and texts
      through programs.
    - The abstract specification.  Board.v says what a queue promises: a board
      with four places and the events that move jobs.  Refines.v shows that each
      request does exactly the events it promises, and reads safety off the board:
      jobs leave only when settled, a held job is nowhere else.  Tended.v puts
      workers around it that settle only what they have in hand and beat in time:
      no job is in two hands and nothing takes one away.  Unique.v shows that a
      unique key keeps other jobs out for its window, Liveness.v that ready jobs
      are handed out and that the job of a dead worker comes back, Failures.v that
      a job that fails whenever it is handed out dies after its attempts.  Order.v:
      enqueueing a batch and taking it out again sorts it.
    - Request by request.  Races.v lets completions of one workflow run at the same
      time, each stopping after every request: exactly one of them completes it,
      saves it as completed and enqueues the callback.  Ticks.v does so with the
      ticks of many servers: no two ask for the same activation of a schedule.
    - Control.  Pool.v and Process.v: the concurrency is bounded, a stopped server
      ends within a number of steps, and its deregistration comes last.  Fairness.v:
      every queue has its share of a weighted poller, and a strict one asks in
      order.  Waiting.v puts both together: the jobs ahead of a job bound how many
      questions a poller asks before it hands the job out.  Standalone.v: the
      standalone server promotes nothing, and once it stops gracefully it answers
      every call it accepted and ends.
    - End to end.  Typed.v follows a value of a task type from a client through its
      handler back to the client that waits for the result; Commands.v shows that
      the server [winter server] starts has no handler for any job;
      ExamplePrograms.v shows what the example programs do to each other.
    - Examples.v and the other files named so apply the theorems to concrete
      states, which the programs themselves produce.

    ** Assumptions that recur

    [wf_queue], [wf_id] and [wf_wfid] keep keys apart: the name of a queue has no
    colon and is no reserved word, an id does not end like a derived key
    ([keys_disjoint] and [keys_collide] in Keys.v).  [wf_time] and [safe_int] keep numbers within 52 and 53 bits,
    where Lua's doubles are exact.  [can_incr] says that a counter has not reached
    the end of 64 bits.  [Reliable] is a network that delivers once; theorems
    about reachable states do without it.  RacesExamples.v shows what a workflow
    suffers from one that does not: the theorem of Races.v needs [Reliable].

    ** Bounds and fuel

    [EnqueueMany_loop] has one unit of fuel more than there are jobs, and every
    round takes at least one ([EnqueueMany_each]).  The long poll runs on the
    rounds that fit into its timeout when each pauses for the least jitter
    ([Dequeue_answers] shows that it answers).  [WaitForResult] is given its
    ticks.  Termination of the loops of a server is a measure, not fuel
    ([stop_returns], [graceful_stop]).

    ** Not modelled

    What a connection is, logging but for the outcome a job is logged with and the
    lines of the interceptors, the durations of tickers (a tick may come at any
    time), generated protocol code, the options of the
    gRPC server (keepalive, reflection), the parsing of arguments by cobra, and in
    the examples the lines they print and their handler of SIGINT, which calls
    [Stop].  A call to the standalone server is one step in Standalone.v.
    A round of a loop of the upkeep is one step in Process.v, and so is a job, whose
    calls leave turns to the others; the requests themselves are separate steps in
    Lifecycle.v. *)
From stdpp Require Export base tactics option list gmap strings sorting.
From Stdlib Require Export Ascii ZArith Lia.
From Stdlib Require Import DecimalString DecimalZ DecimalFacts.

Open Scope Z_scope.

(** ** Results and the state-and-error monad *)

(** A Go [(value, error)] pair or a Lua call that may raise: one of the two. *)
Inductive result (E A : Type) : Type :=
  | Ok (a : A)
  | Err (e : E).
Arguments Ok {E A} a.
Arguments Err {E A} e.

#[export] Instance result_eq_dec {E A} `{EqDecision E, EqDecision A} : EqDecision (result E A).
Proof. solve_decision. Defined.

Definition is_Err {E A} (r : result E A) : Prop :=
  match r with Ok _ => False | Err _ => True end.

#[export] Instance is_Err_dec {E A} (r : result E A) : Decision (is_Err r).
Proof. destruct r; apply _. Defined.

(** Programs over a state [S] that may fail with an [E].  A failure keeps the
    state reached so far: neither a Lua script nor a Go function rolls back. *)
Definition M (S E A : Type) : Type := S → S * result E A.

#[export] Instance M_ret {S E} : MRet (M S E) := λ A a s, (s, Ok a).

#[export] Instance M_bind {S E} : MBind (M S E) := λ A B f c s,
  match c s with
  | (s', Ok a) => f a s'
  | (s', Err e) => (s', Err e)
  end.

Definition throw {S E A} (e : E) : M S E A := λ s, (s, Err e).

(** Runs [c] and hands its outcome, error included, to the continuation: the
    shape of [x, err := f()]. *)
Definition try {S E E' A} (c : M S E A) : M S E' (result E A) := λ s,
  let '(s', r) := c s in (s', Ok r).

(** [for _, x := range l { body }]. *)
Fixpoint for_each {S E A} (l : list A) (body : A → M S E unit) : M S E unit :=
  match l with
  | [] => mret tt
  | x :: l' => body x ;; for_each l' body
  end.

(** [for _, x := range l { acc = append(acc, body(x)) }]. *)
Fixpoint map_each {S E A B} (l : list A) (body : A → M S E B) : M S E (list B) :=
  match l with
  | [] => mret []
  | x :: l' => y ← body x; ys ← map_each l' body; mret (y :: ys)
  end.

(** [for i, x := range l { body }], the index starting at [i]. *)
Fixpoint for_each_i {S E A} (i : nat) (l : list A) (body : nat → A → M S E unit) : M S E unit :=
  match l with
  | [] => mret tt
  | x :: l' => body i x ;; for_each_i (Datatypes.S i) l' body
  end.

(** Closes a closed decidable goal by evaluating its decision procedure. *)
Ltac decide_now :=
  match goal with |- ?P => refine (bool_decide_eq_true_1 P _); vm_compute; reflexivity end.

(** Membership in a list, one element at a time. *)
Lemma decide_cons {A B} `{EqDecision A} (j x : A) l (a b : B) :
  (if decide (j ∈ x :: l) then a else b) =
  (if decide (j ∈ l) then a else if decide (x = j) then a else b).
Proof.
  destruct (decide (j ∈ l)); [by rewrite decide_True by (by right)|].
  destruct (decide (x = j)) as [->|]; [by rewrite decide_True by (by left)|].
  rewrite decide_False; [done|]. rewrite elem_of_cons. by intros [->|?].
Qed.

Lemma decide_nil {A B} `{EqDecision A} (j : A) (a b : B) :
  (if decide (j ∈ []) then a else b) = b.
Proof. apply decide_False, not_elem_of_nil. Qed.

(** Filters that agree on the elements of the list. *)
Lemma list_filter_iff' {A} (P Q : A → Prop) `{∀ x, Decision (P x), ∀ x, Decision (Q x)} (l : list A) :
  (∀ x, x ∈ l → P x ↔ Q x) → filter P l = filter Q l.
Proof.
  induction l as [|x l IH]; intros HPQ; [done|]. rewrite !filter_cons.
  rewrite IH by (intros y Hy; apply HPQ; by right).
  specialize (HPQ x ltac:(by left)). by do 2 case_decide; try tauto.
Qed.

Lemma StronglySorted_weaken {A} (R R' : A → A → Prop) l :
  StronglySorted R l → (∀ x y, R x y → R' x y) → StronglySorted R' l.
Proof.
  intros Hl HR. induction Hl as [|x l _ IH Hx]; constructor; [done|].
  eapply Forall_impl; [exact Hx|]. auto.
Qed.

(** ** Machine integers *)

Definition int64_min : Z := -9223372036854775808.
Definition int64_max : Z := 9223372036854775807.

(** Go's [int] and [int64]: the value of a 64-bit two's complement result. *)
Definition wrap64 (z : Z) : Z := (z + 2 ^ 63) `mod` 2 ^ 64 - 2 ^ 63.

(** Go's [int32(z)] conversion. *)
Definition wrap32 (z : Z) : Z := (z + 2 ^ 31) `mod` 2 ^ 32 - 2 ^ 31.

Definition in_int64 (z : Z) : Prop := int64_min ≤ z ≤ int64_max.
Definition in_int32 (z : Z) : Prop := - 2 ^ 31 ≤ z ≤ 2 ^ 31 - 1.

(** The integers a double represents without gaps. *)
Definition safe_int (z : Z) : Prop := - 2 ^ 53 ≤ z ≤ 2 ^ 53.

#[export] Instance in_int64_dec z : Decision (in_int64 z).
Proof. unfold in_int64. apply _. Defined.
#[export] Instance in_int32_dec z : Decision (in_int32 z).
Proof. unfold in_int32. apply _. Defined.
#[export] Instance safe_int_dec z : Decision (safe_int z).
Proof. unfold safe_int. apply _. Defined.

Lemma wrap64_id z : in_int64 z → wrap64 z = z.
Proof.
  unfold in_int64, int64_min, int64_max, wrap64. intros ?.
  rewrite Z.mod_small; lia.
Qed.

Lemma wrap64_range z : in_int64 (wrap64 z).
Proof.
  unfold in_int64, int64_min, int64_max, wrap64.
  pose proof (Z.mod_pos_bound (z + 2 ^ 63) (2 ^ 64)). lia.
Qed.

Lemma wrap32_id z : in_int32 z → wrap32 z = z.
Proof. unfold in_int32, wrap32. intros ?. rewrite Z.mod_small; lia. Qed.

Lemma safe_int_in_int64 z : safe_int z → in_int64 z.
Proof. unfold safe_int, in_int64, int64_min, int64_max. lia. Qed.

Create HintDb winter discriminated.
Create HintDb issues discriminated.
#[export] Hint Resolve safe_int_in_int64 wrap64_range : winter.

(** ** Decimal numerals: [fmt]'s %d and [strconv]'s parsers *)

(** [strconv.FormatInt(z, 10)], and what go-redis sends for an integer argument. *)
Definition dec (z : Z) : string := NilZero.string_of_int (Z.to_int z).

(** The sign and the rest of a numeral. *)
Definition split_sign (s : string) : bool * string :=
  match s with
  | String "-"%char s' => (true, s')
  | String "+"%char s' => (false, s')
  | _ => (false, s)
  end.

(** [strconv.ParseInt(s, 10, 64)]: the value and whether the error is nil.  A
    syntax error gives 0, a range error the nearest bound. *)
Definition ParseInt (s : string) : Z * bool :=
  let '(neg, body) := split_sign s in
  match NilZero.uint_of_string body with
  | None => (0, false)
  | Some d =>
      let un := Z.of_uint d in
      if neg then
        if 2 ^ 63 <? un then (int64_min, false) else (- un, true)
      else
        if 2 ^ 63 <=? un then (int64_max, false) else (un, true)
  end.

(** [strconv.Atoi(s)] on a 64-bit platform: same values as [ParseInt(s, 10, 0)]. *)
Definition Atoi (s : string) : Z * bool := ParseInt s.

(** [fmt]'s %q: a quoted Go string.  Bytes from 128 on are kept, as those of
    printable UTF-8 are. *)
Definition hex_digit (n : N) : Ascii.ascii :=
  Ascii.ascii_of_N (if decide (n < 10)%N then 48 + n else 87 + n)%N.

Definition quote_char (c : Ascii.ascii) (rest : string) : string :=
  let n := Ascii.N_of_ascii c in
  let escaped (c : Ascii.ascii) := String "092"%char (String c rest) in
  if decide (n = 34 \/ n = 92)%N then escaped c
  else if decide (n = 7)%N then escaped "a"%char
  else if decide (n = 8)%N then escaped "b"%char
  else if decide (n = 9)%N then escaped "t"%char
  else if decide (n = 10)%N then escaped "n"%char
  else if decide (n = 11)%N then escaped "v"%char
  else if decide (n = 12)%N then escaped "f"%char
  else if decide (n = 13)%N then escaped "r"%char
  else if decide (n < 32 \/ n = 127)%N then
    String "092"%char (String "x"%char (String (hex_digit (n / 16)) (String (hex_digit (n mod 16)) rest)))
  else String c rest.

Fixpoint quote_chars (s : string) : string :=
  match s with
  | EmptyString => String "034"%char EmptyString
  | String c s' => quote_char c (quote_chars s')
  end.

Definition quote (s : string) : string := String "034"%char (quote_chars s).

Lemma to_int_not_nil z : Z.to_int z ≠ Decimal.Pos Decimal.Nil ∧ Z.to_int z ≠ Decimal.Neg Decimal.Nil.
Proof.
  split; intros H; pose proof (of_to z) as E; rewrite H in E; cbn in E; subst z; discriminate H.
Qed.

(** The first character of an unsigned numeral is a digit, never a sign. *)
Lemma split_sign_uint d : d ≠ Decimal.Nil →
  split_sign (NilZero.string_of_uint d) = (false, NilZero.string_of_uint d).
Proof. destruct d; done. Qed.

Lemma ParseInt_dec z : in_int64 z → ParseInt (dec z) = (z, true).
Proof.
  unfold in_int64, int64_min, int64_max, dec. intros Hz.
  destruct (to_int_not_nil z) as [Hp Hn]. pose proof (of_to z) as E.
  destruct (Z.to_int z) as [d|d] eqn:Hd; cbn [NilZero.string_of_int].
  - unfold ParseInt. rewrite split_sign_uint by congruence.
    rewrite NilZero.usu by congruence. cbn in E. rewrite E.
    destruct (Z.leb_spec (2 ^ 63) z); [lia|done].
  - unfold ParseInt. cbn [split_sign].
    rewrite NilZero.usu by congruence. cbn in E.
    assert (Z.of_uint d = - z) as -> by lia.
    destruct (Z.ltb_spec (2 ^ 63) (- z)); [lia|]. f_equal. lia.
Qed.

Lemma ParseInt_range s : in_int64 (ParseInt s).1.
Proof.
  unfold ParseInt, in_int64, int64_min, int64_max.
  destruct (split_sign s) as [[] body]; destruct (NilZero.uint_of_string body) as [d|]; cbn; try lia.
  - destruct (Z.ltb_spec (2 ^ 63) (Z.of_uint d)); cbn; [lia|].
    assert (0 ≤ Z.of_uint d) by (unfold Z.of_uint; lia). lia.
  - destruct (Z.leb_spec (2 ^ 63) (Z.of_uint d)); cbn; [lia|].
    assert (0 ≤ Z.of_uint d) by (unfold Z.of_uint; lia). lia.
Qed.

(** The integer a numeral of [dec] stands for, of any size. *)
Definition undec (s : string) : Z :=
  match NilZero.int_of_string s with Some d => Z.of_int d | None => 0 end.

Lemma undec_dec z : undec (dec z) = z.
Proof.
  unfold undec, dec. destruct (to_int_not_nil z). rewrite NilZero.isi by done. apply of_to.
Qed.

Lemma dec_inj z1 z2 : dec z1 = dec z2 → z1 = z2.
Proof.
  unfold dec. intros H. apply (f_equal NilZero.int_of_string) in H.
  destruct (to_int_not_nil z1), (to_int_not_nil z2).
  rewrite !NilZero.isi in H by done. injection H as H.
  rewrite <- (of_to z1), <- (of_to z2). by rewrite H.
Qed.

Lemma dec_ne_empty z : dec z ≠ "".
Proof.
  unfold dec. destruct (to_int_not_nil z) as [Hp Hn].
  destruct (Z.to_int z) as [d|d]; [|done]. destruct d; done.
Qed.

#[export] Hint Resolve dec_ne_empty : winter.
