(* ===== verification/Float.v ===== *)
(** * Float: binary64 arithmetic on rationals

    Go's [float64] and Lua's numbers are binary64.  A float is the rational it
    denotes; an operation is the exact one followed by [rnd64], rounding to the
    nearest 53-bit significand, ties to even.  Subnormals, infinities and NaN
    are out of scope: the definitions that use this file say where they cannot
    arise. *)
From S2P Require Import Prelude.
From Stdlib Require Import QArith.

Open Scope Z_scope.

(** [n / d] to the nearest integer, ties to even. *)
Definition round_div (n d : Z) : Z :=
  let q := n / d in
  let r := n mod d in
  if 2 * r <? d then q
  else if d <? 2 * r then q + 1
  else if Z.even q then q else q + 1.

(** The exponent of the last place of [n / d], for positive [n] and [d]. *)
Definition ulp_exp (n d : Z) : Z :=
  let e := Z.log2 n - Z.log2 d - 53 in
  let '(N, D) := if 0 <=? e then (n, d * 2 ^ e) else (n * 2 ^ (- e), d) in
  if 2 ^ 53 * D <=? N then e + 1 else e.

(** The significand of [n / d] at exponent [e]. *)
Definition significand (n d e : Z) : Z :=
  if 0 <=? e then round_div n (d * 2 ^ e) else round_div (n * 2 ^ (- e)) d.

Definition dyadic (m e : Z) : Q :=
  if 0 <=? e then inject_Z (m * 2 ^ e) else Qmake m (Z.to_pos (2 ^ (- e))).

Definition rnd64 (q : Q) : Q :=
  let n := Z.abs (Qnum q) in
  let d := Zpos (Qden q) in
  if n =? 0 then inject_Z 0
  else
    let e := ulp_exp n d in
    dyadic (Z.sgn (Qnum q) * significand n d e) e.

(** Go's conversion of a float to an integer type, and C's: truncation. *)
Definition ftrunc (q : Q) : Z := Z.quot (Qnum q) (Zpos (Qden q)).

Lemma round_div_err n d : 0 < d → - d ≤ 2 * (round_div n d * d - n) ≤ d.
Proof.
  intros Hd. unfold round_div.
  pose proof (Z.div_mod n d ltac:(lia)) as E. pose proof (Z.mod_pos_bound n d Hd) as Hr.
  destruct (Z.ltb_spec (2 * (n mod d)) d); [nia|].
  destruct (Z.ltb_spec d (2 * (n mod d))); [nia|].
  destruct (Z.even (n / d)); nia.
Qed.

Lemma round_div_exact n d : 0 < d → round_div (n * d) d = n.
Proof.
  intros Hd. unfold round_div. rewrite Z.div_mul, Z.mod_mul by lia.
  destruct (Z.ltb_spec (2 * 0) d); lia.
Qed.

(** The scaled fraction of [ulp_exp] has at least 53 bits. *)
Lemma ulp_exp_scale n d : 0 < n → 0 < d →
  let e := ulp_exp n d in
  if 0 <=? e then 2 ^ 52 * (d * 2 ^ e) ≤ n else 2 ^ 52 * d ≤ n * 2 ^ (- e).
Proof.
  intros Hn Hd. unfold ulp_exp.
  pose proof (Z.log2_spec n Hn) as [Hn1 Hn2]. pose proof (Z.log2_spec d Hd) as [Hd1 Hd2].
  pose proof (Z.log2_nonneg n). pose proof (Z.log2_nonneg d).
  set (ln := Z.log2 n) in *. set (ld := Z.log2 d) in *. set (e := ln - ld - 53).
  rewrite Z.pow_succ_r in Hd2 by lia.
  destruct (Z.leb_spec 0 e) as [He|He].
  - assert (2 ^ ln = 2 ^ 53 * 2 ^ ld * 2 ^ e) as Hp.
    { rewrite <- !Z.pow_add_r by lia. f_equal. unfold e. lia. }
    assert (2 ^ 52 * (d * 2 ^ e) ≤ n) as Hlow.
    { assert (0 < 2 ^ e) by (apply Z.pow_pos_nonneg; lia). nia. }
    destruct (Z.leb_spec (2 ^ 53 * (d * 2 ^ e)) n) as [Hb|Hb]; cbv zeta.
    + rewrite (proj2 (Z.leb_le 0 (e + 1))) by lia. rewrite Z.pow_add_r by lia. lia.
    + by rewrite (proj2 (Z.leb_le 0 e)) by lia.
  - assert (2 ^ ln * 2 ^ (- e) = 2 ^ 53 * 2 ^ ld) as Hp.
    { rewrite <- !Z.pow_add_r by lia. f_equal. unfold e. lia. }
    assert (0 < 2 ^ (- e)) by (apply Z.pow_pos_nonneg; lia).
    assert (2 ^ 52 * d ≤ n * 2 ^ (- e)) as Hlow by nia.
    destruct (Z.leb_spec (2 ^ 53 * d) (n * 2 ^ (- e))) as [Hb|Hb]; cbv zeta.
    + destruct (Z.leb_spec 0 (e + 1)) as [He'|He'].
      * assert (e = -1) as -> by lia. cbn in Hb |- *. lia.
      * replace (- e) with (1 + - (e + 1)) in Hb by lia. rewrite Z.pow_add_r in Hb by lia. lia.
    + by rewrite (proj2 (Z.leb_gt 0 e)) by lia.
Qed.

(** Relative error at most [2 ^ -53]. *)
Lemma rnd64_error_pos n d : 0 < n →
  let r := rnd64 (Qmake n d) in
  (2 ^ 53 - 1) * n * Zpos (Qden r) ≤ 2 ^ 53 * Qnum r * Zpos d ≤ (2 ^ 53 + 1) * n * Zpos (Qden r).
Proof.
  intros Hn. unfold rnd64. cbn [Qnum Qden]. rewrite Z.abs_eq, Z.sgn_pos by lia.
  rewrite (proj2 (Z.eqb_neq n 0)) by lia. rewrite Z.mul_1_l.
  pose proof (ulp_exp_scale n (Zpos d) Hn ltac:(lia)) as Hs. cbv zeta in Hs |- *.
  set (e := ulp_exp n (Zpos d)) in *. unfold dyadic, significand.
  destruct (Z.leb_spec 0 e) as [He|He].
  - assert (0 < 2 ^ e) by (apply Z.pow_pos_nonneg; lia).
    pose proof (round_div_err n (Zpos d * 2 ^ e) ltac:(lia)). cbn [Qnum Qden inject_Z].
    set (m := round_div n (Zpos d * 2 ^ e)) in *. nia.
  - assert (0 < 2 ^ (- e)) by (apply Z.pow_pos_nonneg; lia).
    pose proof (round_div_err (n * 2 ^ (- e)) (Zpos d) ltac:(lia)). cbn [Qnum Qden].
    rewrite Z2Pos.id by lia. set (m := round_div (n * 2 ^ (- e)) (Zpos d)) in *. nia.
Qed.

Lemma rnd64_int z : 0 < z < 2 ^ 53 → ftrunc (rnd64 (inject_Z z)) = z.
Proof.
  intros Hz. unfold rnd64. cbn [Qnum Qden inject_Z].
  rewrite Z.abs_eq, Z.sgn_pos by lia. rewrite (proj2 (Z.eqb_neq z 0)) by lia. rewrite Z.mul_1_l.
  assert (ulp_exp z 1 ≤ 0) as He.
  { unfold ulp_exp. pose proof (Z.log2_lt_pow2 z 53 ltac:(lia)) as [Hl _].
    specialize (Hl ltac:(lia)). change (Z.log2 1) with 0. repeat case_match; lia. }
  set (e := ulp_exp z 1) in *. unfold significand, dyadic.
  destruct (Z.leb_spec 0 e) as [He'|He'].
  - assert (e = 0) as -> by lia. change (1 * 2 ^ 0) with 1.
    rewrite <- (Z.mul_1_r z) at 1. rewrite round_div_exact by lia.
    unfold ftrunc. cbn [Qnum Qden inject_Z]. rewrite Z.quot_1_r. lia.
  - assert (0 < 2 ^ (- e)) by (apply Z.pow_pos_nonneg; lia).
    rewrite <- (Z.mul_1_r (z * 2 ^ (- e))). rewrite round_div_exact by lia.
    unfold ftrunc. cbn [Qnum Qden]. rewrite Z2Pos.id by lia. apply Z.quot_mul. lia.
Qed.

(** ** Durations *)

Definition Second : Z := 1000000000.
Definition Millisecond : Z := 1000000.

(** [time.Duration.Seconds]: the float sum of whole seconds and the remainder.
    The whole seconds of a 64-bit count of nanoseconds are exact as a float. *)
Definition Seconds (d : Z) : Q :=
  rnd64 (inject_Z (Z.quot d Second) + rnd64 (Qmake (Z.rem d Second) 1000000000)).

(** [time.Duration.Milliseconds] *)
Definition Milliseconds (d : Z) : Z := Z.quot d Millisecond.

(** [int(d.Seconds())] is the number of whole seconds, for periods up to
    2^22 seconds (48 days); beyond, the float sum may round up to the next one. *)
Lemma Seconds_trunc d : 0 ≤ d < 2 ^ 22 * Second → ftrunc (Seconds d) = d / Second.
Proof.
  unfold Second. intros Hd. unfold Seconds, Second.
  rewrite Z.quot_div_nonneg, Z.rem_mod_nonneg by lia.
  pose proof (Z.div_mod d 1000000000 ltac:(lia)) as E.
  pose proof (Z.mod_pos_bound d 1000000000 ltac:(lia)) as Hr.
  set (s := d / 1000000000) in *. set (r := d mod 1000000000) in *.
  assert (0 ≤ s < 2 ^ 22) as Hs by lia.
  destruct (decide (r = 0)) as [->|Hr0].
  - change (rnd64 (Qmake 0 1000000000)) with (inject_Z 0).
    replace (inject_Z s + inject_Z 0)%Q with (inject_Z s)
      by (unfold Qplus, inject_Z; cbn [Qnum Qden]; f_equal; lia).
    destruct (decide (s = 0)) as [->|Hs0]; [done|]. apply rnd64_int. lia.
  - pose proof (rnd64_error_pos r 1000000000 ltac:(lia)) as Hf. cbv zeta in Hf.
    destruct (rnd64 (Qmake r 1000000000)) as [fn fd]. cbn [Qnum Qden] in Hf.
    assert (0 < fn) by nia.
    unfold Qplus, inject_Z. cbn [Qnum Qden].
    assert (0 < s * Zpos fd + fn * 1) as Hx by nia.
    pose proof (rnd64_error_pos (s * Zpos fd + fn * 1) (1 * fd) Hx) as Hg. cbv zeta in Hg.
    destruct (rnd64 _) as [gn gd]. cbn [Qnum Qden] in Hg.
    rewrite Pos2Z.inj_mul in Hg. unfold ftrunc. cbn [Qnum Qden].
    assert (s * Zpos gd ≤ gn) by nia. assert (gn < (s + 1) * Zpos gd) by nia.
    rewrite Z.quot_div_nonneg by nia. symmetry.
    apply (Z.div_unique _ _ _ (gn - s * Zpos gd)); lia.
Qed.
