(* ===== verification/Duration.v ===== *)
(** * Duration: [time.Duration] as text

    [time.ParseDuration] and [time.Duration.String] of Go's standard library,
    which the configuration and the reschedule error use.  Unsigned 64-bit
    arithmetic wraps; a fraction goes through floats, as in the library. *)
From S2P Require Import Prelude Float.
From Stdlib Require Import QArith DecimalString DecimalZ.

Open Scope string_scope.
Open Scope Z_scope.

Definition Microsecond : Z := 1000.
Definition Minute : Z := 60 * Second.
Definition Hour : Z := 60 * Minute.

(** [uint64] arithmetic. *)
Definition wrapu64 (z : Z) : Z := z `mod` 2 ^ 64.

(** ** Formatting *)

(** The last [prec] digits of [v] without trailing zeros, after a point if there
    are any left, and the rest of [v]. *)
Fixpoint fmtFrac (prec : nat) (printing : bool) (v : Z) (acc : string) : string * Z :=
  match prec with
  | O => (if printing then "." +:+ acc else acc, v)
  | Datatypes.S prec' =>
      let digit := v `mod` 10 in
      let printing := printing || negb (digit =? 0) in
      fmtFrac prec' printing (v / 10) (if printing then dec digit +:+ acc else acc)
  end.

(** [time.Duration.String] *)
Definition duration_string (d : Z) : string :=
  let u := Z.abs d in
  let text :=
    if decide (u < Second) then
      if decide (u = 0) then "0s"
      else
        let '(prec, unit) :=
          if decide (u < Microsecond) then (0%nat, "ns")
          else if decide (u < Millisecond) then (3%nat, "µs")
          else (6%nat, "ms") in
        let '(frac, u) := fmtFrac prec false u unit in
        dec u +:+ frac
    else
      let '(frac, u) := fmtFrac 9 false u "s" in
      let seconds := dec (u `mod` 60) +:+ frac in
      let u := u / 60 in
      if decide (u = 0) then seconds
      else
        let minutes := dec (u `mod` 60) +:+ "m" +:+ seconds in
        let u := u / 60 in
        if decide (u = 0) then minutes else dec u +:+ "h" +:+ minutes in
  if decide (d < 0) then "-" +:+ text else text.

(** ** Parsing *)

Definition digit_of (c : Ascii.ascii) : option Z :=
  let n := Z.of_N (Ascii.N_of_ascii c) in
  if decide (48 ≤ n ≤ 57) then Some (n - 48) else None.

(** [quote] of package [time]: only quotes, backslashes, control bytes and bytes
    that are not ASCII are escaped. *)
Fixpoint time_quote_chars (s : string) : string :=
  match s with
  | "" => String "034"%char ""
  | String c s' =>
      let n := Ascii.N_of_ascii c in
      let rest := time_quote_chars s' in
      if decide (n < 32 ∨ 128 ≤ n)%N then
        String "092"%char (String "x"%char (String (hex_digit (n / 16)) (String (hex_digit (n mod 16)) rest)))
      else if decide (n = 34 ∨ n = 92)%N then String "092"%char (String c rest)
      else String c rest
  end.

Definition time_quote (s : string) : string := String "034"%char (time_quote_chars s).

(** [leadingInt]: the number, if it is at most 2^63, and what follows it. *)
Fixpoint leadingInt (s : string) (x : Z) : option Z * string :=
  match s with
  | "" => (Some x, s)
  | String c s' =>
      match digit_of c with
      | None => (Some x, s)
      | Some d =>
          if decide (x > 2 ^ 63 / 10) then (None, s)
          else
            let x := x * 10 + d in
            if decide (x > 2 ^ 63) then (None, s) else leadingInt s' x
      end
  end.

(** [leadingFraction]: the digits that fit, the power of ten they are divided
    by, and what follows. *)
Fixpoint leadingFraction (s : string) (x scale : Z) (overflow : bool) : Z * Z * string :=
  match s with
  | "" => (x, scale, s)
  | String c s' =>
      match digit_of c with
      | None => (x, scale, s)
      | Some d =>
          if overflow then leadingFraction s' x scale true
          else if decide (x > (2 ^ 63 - 1) / 10) then leadingFraction s' x scale true
          else
            let y := x * 10 + d in
            if decide (y > 2 ^ 63) then leadingFraction s' x scale true
            else leadingFraction s' y (scale * 10) false
      end
  end.

(** The unit up to the next digit or point, and what follows. *)
Fixpoint take_unit (s : string) : string * string :=
  match s with
  | "" => ("", "")
  | String c s' =>
      if decide (c = "."%char ∨ is_Some (digit_of c)) then ("", s)
      else let '(u, rest) := take_unit s' in (String c u, rest)
  end.

Definition unit_ns (u : string) : option Z :=
  if decide (u = "ns") then Some 1
  else if decide (u = "us" ∨ u = "µs" ∨ u = "μs") then Some Microsecond
  else if decide (u = "ms") then Some Millisecond
  else if decide (u = "s") then Some Second
  else if decide (u = "m") then Some Minute
  else if decide (u = "h") then Some Hour
  else None.

(** [uint64(float64(f) * (float64(unit) / scale))]; the power of ten is exact. *)
Definition fraction_ns (f unit scale : Z) : Z :=
  ftrunc (rnd64 (rnd64 (inject_Z f) * rnd64 (inject_Z unit / inject_Z scale))).

(** The components one after the other, each at least one character long. *)
Fixpoint parse_components (fuel : nat) (orig s : string) (d : Z) : result string Z :=
  let invalid := "time: invalid duration " +:+ time_quote orig in
  match fuel, s with
  | _, "" => Ok d
  | O, _ => Err invalid
  | Datatypes.S fuel, String c _ =>
      if decide (c ≠ "."%char ∧ digit_of c = None) then Err invalid
      else
        match leadingInt s 0 with
        | (None, _) => Err invalid
        | (Some v, s1) =>
            let pre := bool_decide (s1 ≠ s) in
            let '(f, scale, s2, post) :=
              match s1 with
              | String "."%char s1' =>
                  let '(f, scale, s2) := leadingFraction s1' 0 1 false in
                  (f, scale, s2, bool_decide (s2 ≠ s1'))
              | _ => (0, 1, s1, false)
              end in
            if negb pre && negb post then Err invalid
            else
              let '(u, s3) := take_unit s2 in
              if decide (u = "") then Err ("time: missing unit in duration " +:+ time_quote orig)
              else
                match unit_ns u with
                | None => Err ("time: unknown unit " +:+ time_quote u +:+ " in duration " +:+ time_quote orig)
                | Some unit =>
                    if decide (v > 2 ^ 63 / unit) then Err invalid
                    else
                      let v := v * unit in
                      let v' := if decide (f > 0) then wrapu64 (v + fraction_ns f unit scale) else v in
                      if decide (f > 0 ∧ v' > 2 ^ 63) then Err invalid
                      else
                        let d := wrapu64 (d + v') in
                        if decide (d > 2 ^ 63) then Err invalid
                        else parse_components fuel orig s3 d
                end
        end
  end.

(** [time.ParseDuration] *)
Definition ParseDuration (orig : string) : result string Z :=
  let '(neg, s) := split_sign orig in
  let invalid := "time: invalid duration " +:+ time_quote orig in
  if decide (s = "0") then Ok 0
  else if decide (s = "") then Err invalid
  else
    match parse_components (String.length s) orig s 0 with
    | Err e => Err e
    | Ok d =>
        if neg then Ok (wrap64 (- d))
        else if decide (d > 2 ^ 63 - 1) then Err invalid
        else Ok d
    end.

Example parse_examples :
  ParseDuration <$> ["15s"; "1h2m3.5s"; "500ms"; "-1.5h"; "0"; ".5m"; "1µs"]
  = Ok <$> [15 * Second; Hour + 2 * Minute + 3500 * Millisecond; 500 * Millisecond; - (90 * Minute); 0;
            30 * Second; Microsecond].
Proof. by vm_compute. Qed.

Example parse_errors :
  ParseDuration <$> ["soon"; "15"; "3x"; ""; "9223372036854775808ns"]
  = Err <$> ["time: invalid duration " +:+ quote "soon"; "time: missing unit in duration " +:+ quote "15";
             "time: unknown unit " +:+ quote "x" +:+ " in duration " +:+ quote "3x";
             "time: invalid duration " +:+ quote "";
             "time: invalid duration " +:+ quote "9223372036854775808ns"].
Proof. by vm_compute. Qed.

Example string_examples :
  duration_string <$> [15 * Second; Hour + 2 * Minute + 3500 * Millisecond; 0; 1500; - (90 * Minute); 2500000]
  = ["15s"; "1h2m3.5s"; "0s"; "1.5µs"; "-1h30m0s"; "2.5ms"].
Proof. by vm_compute. Qed.

(** The result of a parse is a duration. *)
Lemma parse_components_range fuel orig s d r :
  0 ≤ d ≤ 2 ^ 63 → parse_components fuel orig s d = Ok r → 0 ≤ r ≤ 2 ^ 63.
Proof.
  revert s d. induction fuel as [|fuel IH]; intros s d Hd; destruct s as [|c s]; cbn [parse_components].
  - by intros [= <-].
  - done.
  - by intros [= <-].
  - repeat case_match; try done; intros Hr; eapply IH; try exact Hr;
      pose proof (Z.mod_pos_bound) as Hm; unfold wrapu64 in *;
      match goal with |- 0 ≤ ?x `mod` _ ≤ _ => pose proof (Hm x (2 ^ 64) ltac:(lia)) end; lia.
Qed.

Lemma ParseDuration_range s d : ParseDuration s = Ok d → in_int64 d.
Proof.
  unfold ParseDuration. destruct (split_sign s) as [neg s'].
  repeat case_decide; try done; [by intros [= <-]|].
  destruct (parse_components _ _ _ _) as [r|e] eqn:Hr; [|done].
  apply parse_components_range in Hr; [|lia].
  destruct neg; [intros [= <-]; apply wrap64_range|]. case_decide; [done|]. intros [= <-].
  unfold in_int64, int64_min, int64_max. lia.
Qed.

(** ** The fuel is enough *)

Lemma leadingInt_length s x r rest : leadingInt s x = (r, rest) → (String.length rest ≤ String.length s)%nat.
Proof.
  revert x. induction s as [|c s IH]; intros x; cbn [leadingInt]; [by intros [= _ <-]|].
  repeat case_match; try (by intros [= _ <-]).
  intros Hr. apply IH in Hr. cbn. lia.
Qed.

Lemma leadingFraction_length s x scale o f sc rest :
  leadingFraction s x scale o = (f, sc, rest) → (String.length rest ≤ String.length s)%nat.
Proof.
  revert x scale o. induction s as [|c s IH]; intros x scale o; cbn [leadingFraction]; [by intros [= _ _ <-]|].
  repeat case_match; try (by intros [= _ _ <-]);
    intros Hr; apply IH in Hr; cbn; lia.
Qed.

Lemma take_unit_length s u rest : take_unit s = (u, rest) →
  String.length s = (String.length u + String.length rest)%nat.
Proof.
  revert u. induction s as [|c s IH]; intros u; cbn [take_unit]; [by intros [= <- <-]|].
  case_decide; [by intros [= <- <-]|].
  destruct (take_unit s) as [u' rest'] eqn:Hu. intros [= <- <-]. cbn. f_equal. by apply IH.
Qed.

(** Every component is at least as long as its unit, so a round for each
    character is enough. *)
Lemma parse_components_fuel fuel orig s d : (String.length s ≤ fuel)%nat →
  parse_components fuel orig s d = parse_components (String.length s) orig s d.
Proof.
  remember (String.length s) as n eqn:Hn. revert fuel s Hn d.
  induction n as [n IH] using lt_wf_ind. intros fuel s Hn d Hf.
  destruct s as [|c s]; [by destruct fuel, n|]. cbn in Hn. subst n.
  destruct fuel as [|fuel]; [lia|]. cbn [parse_components].
  case_decide; [done|]. destruct (leadingInt (String c s) 0) as [[v|] s1] eqn:H1; [|done].
  apply leadingInt_length in H1. cbn [String.length] in H1.
  set (body := match s1 with String "."%char s1' => _ | _ => _ end).
  destruct body as [[[f sc] s2] post] eqn:Hb.
  assert (H2 : (String.length s2 ≤ String.length s1)%nat).
  { subst body. destruct s1 as [|[[] [] [] [] [] [] [] []] s1]; try (by injection Hb as _ _ <- _).
    destruct (leadingFraction s1 0 1 false) as [[f' sc'] s2'] eqn:Hl.
    apply leadingFraction_length in Hl. injection Hb as _ _ <- _. cbn. lia. }
  match goal with |- context [if ?b && ?c then _ else _] => destruct (b && c) end; [done|].
  destruct (take_unit s2) as [u s3] eqn:Hu. apply take_unit_length in Hu.
  case_decide as Hne; [done|]. assert (Hs3 : (String.length s3 < Datatypes.S (String.length s))%nat).
  { destruct u; [done|]. cbn in Hu. lia. }
  repeat case_match; try done.
  all: rewrite (IH _ Hs3 fuel s3 eq_refl) by lia; symmetry; apply (IH _ Hs3); [done|lia].
Qed.
