(* ===== verification/Keys.v ===== *)
(** * Keys: the Redis key names of the program

    The key functions of [internal/queue/queue.go], [internal/workflow/workflow.go],
    [internal/ratelimit/limiter.go] and [internal/scheduler/cron.go], and the
    fact that makes the rest of the development possible: under a syntactic
    condition on queue names and ids, no two of them collide.  The structured
    keys [rkey] name every key the program uses; [unrender] reads a key back. *)
From S2P Require Import Prelude.

Open Scope string_scope.
Open Scope Z_scope.

(** ** The key functions *)

Definition readyKey (queue : string) : string := "winter:" +:+ queue +:+ ":ready".
Definition delayedKey (queue : string) : string := "winter:" +:+ queue +:+ ":delayed".
Definition activeKey (queue : string) : string := "winter:" +:+ queue +:+ ":active".
Definition deadKey (queue : string) : string := "winter:" +:+ queue +:+ ":dead".
Definition pausedKey (queue : string) : string := "winter:" +:+ queue +:+ ":paused".
Definition statsKey (queue : string) : string := "winter:stats:" +:+ queue.
Definition jobKey (id : string) : string := "winter:job:" +:+ id.
Definition leaseKey (queue : string) : string := "winter:" +:+ queue +:+ ":lease".
Definition workerJobsKey (id : string) : string := "winter:worker:" +:+ id +:+ ":jobs".
Definition uniqueKey (key : string) : string := "winter:unique:" +:+ key.
Definition workersKey : string := "winter:workers".
Definition resultKey (jobID : string) : string := "winter:job:" +:+ jobID +:+ ":result".
Definition workflowKey (id : string) : string := "winter:workflow:" +:+ id.
Definition depsKey (id : string) : string := "winter:workflow:" +:+ id +:+ ":deps".
Definition counterKey (id : string) : string := "winter:workflow:" +:+ id +:+ ":counter".
Definition bucketKey (kind : string) : string := "winter:ratelimit:" +:+ kind.
Definition cronKey : string := "winter:cron".

(** ** Structured keys *)

Inductive rkey : Type :=
  | KReady (q : string)
  | KDelayed (q : string)
  | KActive (q : string)
  | KDead (q : string)
  | KPaused (q : string)
  | KLease (q : string)
  | KStats (q : string)
  | KJob (id : string)
  | KResult (id : string)
  | KWorkerJobs (w : string)
  | KUnique (u : string)
  | KWorkflow (id : string)
  | KDeps (id : string)
  | KCounter (id : string)
  | KRate (kind : string)
  | KWorkers
  | KCron.

#[export] Instance rkey_eq_dec : EqDecision rkey.
Proof. solve_decision. Defined.

Definition render (k : rkey) : string :=
  match k with
  | KReady q => readyKey q
  | KDelayed q => delayedKey q
  | KActive q => activeKey q
  | KDead q => deadKey q
  | KPaused q => pausedKey q
  | KLease q => leaseKey q
  | KStats q => statsKey q
  | KJob id => jobKey id
  | KResult id => resultKey id
  | KWorkerJobs w => workerJobsKey w
  | KUnique u => uniqueKey u
  | KWorkflow id => workflowKey id
  | KDeps id => depsKey id
  | KCounter id => counterKey id
  | KRate kind => bucketKey kind
  | KWorkers => workersKey
  | KCron => cronKey
  end.

(** ** Reading a key back *)

Fixpoint cut_prefix (p s : string) : option string :=
  match p, s with
  | "", _ => Some s
  | String c p', String d s' => if decide (c = d) then cut_prefix p' s' else None
  | _, "" => None
  end.

Fixpoint cut_suffix (suf s : string) : option string :=
  if decide (s = suf) then Some ""
  else match s with
       | "" => None
       | String c s' => String c <$> cut_suffix suf s'
       end.

(** The text before the first colon, and the text after it if there is one. *)
Fixpoint cut_colon (s : string) : string * option string :=
  match s with
  | "" => ("", None)
  | String c s' =>
      if decide (c = ":"%char) then ("", Some s')
      else let '(a, b) := cut_colon s' in (String c a, b)
  end.

(** No colon occurs in the string. *)
Definition no_colon (s : string) : Prop := cut_colon s = (s, None).

#[export] Instance no_colon_dec s : Decision (no_colon s).
Proof. unfold no_colon. apply _. Defined.

(** The words a queue must not be called: each is the second component of a
    key of another kind, so [readyKey "stats"] is [statsKey "ready"]. *)
Definition reserved : list string := ["job"; "stats"; "worker"; "unique"; "workflow"; "ratelimit"].

Definition wf_queue (q : string) : Prop := no_colon q ∧ q ∉ reserved.

(** A job id must not look like the key of another job's result, nor a
    workflow id like the key of another workflow's bookkeeping. *)
Definition wf_id (id : string) : Prop := cut_suffix ":result" id = None.
Definition wf_wfid (id : string) : Prop :=
  cut_suffix ":deps" id = None ∧ cut_suffix ":counter" id = None.

#[export] Instance wf_queue_dec q : Decision (wf_queue q).
Proof. unfold wf_queue. apply _. Defined.
#[export] Instance wf_id_dec id : Decision (wf_id id).
Proof. unfold wf_id. apply _. Defined.
#[export] Instance wf_wfid_dec id : Decision (wf_wfid id).
Proof. unfold wf_wfid. apply _. Defined.

Definition wf_key (k : rkey) : Prop :=
  match k with
  | KReady q | KDelayed q | KActive q | KDead q | KPaused q | KLease q | KStats q => wf_queue q
  | KJob id => wf_id id
  | KWorkflow id => wf_wfid id
  | _ => True
  end.

#[export] Instance wf_key_dec k : Decision (wf_key k).
Proof. destruct k; apply _. Defined.

Definition unrender (s : string) : option rkey :=
  match cut_prefix "winter:" s with
  | None => None
  | Some r =>
      match cut_colon r with
      | (h, None) =>
          if decide (h = "workers") then Some KWorkers
          else if decide (h = "cron") then Some KCron
          else None
      | (h, Some rest) =>
          if decide (h = "job") then
            Some (match cut_suffix ":result" rest with Some id => KResult id | None => KJob rest end)
          else if decide (h = "stats") then Some (KStats rest)
          else if decide (h = "worker") then KWorkerJobs <$> cut_suffix ":jobs" rest
          else if decide (h = "unique") then Some (KUnique rest)
          else if decide (h = "workflow") then
            Some (match cut_suffix ":deps" rest, cut_suffix ":counter" rest with
                  | Some id, _ => KDeps id
                  | None, Some id => KCounter id
                  | None, None => KWorkflow rest
                  end)
          else if decide (h = "ratelimit") then Some (KRate rest)
          else if decide (rest = "ready") then Some (KReady h)
          else if decide (rest = "delayed") then Some (KDelayed h)
          else if decide (rest = "active") then Some (KActive h)
          else if decide (rest = "dead") then Some (KDead h)
          else if decide (rest = "paused") then Some (KPaused h)
          else if decide (rest = "lease") then Some (KLease h)
          else None
      end
  end.

(** ** Lemmas *)

Lemma cut_colon_app q r : no_colon q → cut_colon (q +:+ String ":"%char r) = (q, Some r).
Proof.
  unfold no_colon. induction q as [|c q IH]; [done|].
  change (String c q +:+ String ":"%char r) with (String c (q +:+ String ":"%char r)).
  cbn [cut_colon]. case_decide as Hc; [done|]. intros Hq.
  destruct (cut_colon q) as [a b] eqn:E. injection Hq as -> ->. by rewrite IH.
Qed.

Lemma cut_prefix_app p s : cut_prefix p (p +:+ s) = Some s.
Proof.
  induction p as [|c p IH]; [done|].
  change (String c p +:+ s) with (String c (p +:+ s)). cbn [cut_prefix].
  by rewrite decide_True.
Qed.

Lemma length_append s t : String.length (s +:+ t) = (String.length s + String.length t)%nat.
Proof.
  induction s as [|c s IH]; [done|].
  change (String c s +:+ t) with (String c (s +:+ t)). cbn [String.length].
  by rewrite IH.
Qed.

Lemma cut_suffix_app suf s : cut_suffix suf (s +:+ suf) = Some s.
Proof.
  induction s as [|c s IH].
  - change ("" +:+ suf) with suf. destruct suf; cbn [cut_suffix]; by rewrite decide_True.
  - change (String c s +:+ suf) with (String c (s +:+ suf)). cbn [cut_suffix].
    rewrite decide_False; [by rewrite IH|].
    intros H. apply (f_equal String.length) in H. cbn [String.length] in H.
    rewrite length_append in H. lia.
Qed.

Lemma cut_suffix_Some suf s t : cut_suffix suf s = Some t → s = t +:+ suf.
Proof.
  revert t. induction s as [|c s IH]; intros t; cbn [cut_suffix]; case_decide as Hd.
  - intros [= <-]. done.
  - done.
  - intros [= <-]. done.
  - destruct (cut_suffix suf s) as [u|]; cbn; intros H; [|done].
    injection H as <-. cbn. by rewrite (IH u).
Qed.

Lemma cut_prefix_Some p s t : cut_prefix p s = Some t → s = p +:+ t.
Proof.
  revert s. induction p as [|c p IH]; intros s; cbn [cut_prefix]; [by intros [= ->]|].
  destruct s as [|d s]; [done|]. case_decide as Hd; [|done].
  intros Hs. subst d. by rewrite (IH s Hs).
Qed.

Lemma append_inj_r s t u : s +:+ u = t +:+ u → s = t.
Proof.
  revert t. induction s as [|c s IH]; intros [|d t] H; [done| | |].
  - apply (f_equal String.length) in H. rewrite !length_append in H. cbn in H. lia.
  - apply (f_equal String.length) in H. rewrite !length_append in H. cbn in H. lia.
  - injection H as -> H. f_equal. by apply IH.
Qed.

Fixpoint last_char (s : string) : option ascii :=
  match s with
  | "" => None
  | String c "" => Some c
  | String _ s' => last_char s'
  end.

Lemma last_char_app s c u : last_char (s +:+ String c u) = last_char (String c u).
Proof.
  induction s as [|d s IH]; [done|].
  change (String d s +:+ String c u) with (String d (s +:+ String c u)).
  rewrite <- IH. cbn [last_char]. destruct (s +:+ String c u) eqn:E; [|done].
  apply (f_equal String.length) in E. rewrite length_append in E. cbn in E. lia.
Qed.

(** A counter key never reads back as a deps key. *)
Lemma strip_deps_counter id : cut_suffix ":deps" (id +:+ ":counter") = None.
Proof.
  destruct (cut_suffix ":deps" (id +:+ ":counter")) as [t|] eqn:E; [|done].
  apply cut_suffix_Some, (f_equal last_char) in E. rewrite !last_char_app in E. done.
Qed.

Lemma wf_queue_reserved q w : wf_queue q → w ∈ reserved → q ≠ w.
Proof. intros [_ H] Hw ->. done. Qed.

Ltac skip_reserved :=
  repeat (rewrite decide_False
    by (first [eapply wf_queue_reserved; [eassumption|set_solver] | done])).

(** The keys whose second component is fixed read back by computation up to the
    suffix test. *)
Lemma unrender_job id :
  unrender (jobKey id) =
    Some (match cut_suffix ":result" id with Some id' => KResult id' | None => KJob id end).
Proof. reflexivity. Qed.

Lemma unrender_worker w :
  unrender ("winter:worker:" +:+ w) = KWorkerJobs <$> cut_suffix ":jobs" w.
Proof. reflexivity. Qed.

Lemma unrender_workflow id :
  unrender (workflowKey id) =
    Some (match cut_suffix ":deps" id, cut_suffix ":counter" id with
          | Some id', _ => KDeps id'
          | None, Some id' => KCounter id'
          | None, None => KWorkflow id
          end).
Proof. reflexivity. Qed.

(** Well-formed keys read back as themselves. *)
Lemma unrender_render k : wf_key k → unrender (render k) = Some k.
Proof.
  destruct k; intros Hk; cbn [render wf_key] in *; try done;
    try (unfold unrender, readyKey, delayedKey, activeKey, deadKey, pausedKey, leaseKey;
         rewrite cut_prefix_app, cut_colon_app by (by apply Hk); skip_reserved;
         rewrite ?decide_True by done; done).
  - rewrite unrender_job. by rewrite Hk.
  - change (resultKey id) with (jobKey (id +:+ ":result")).
    by rewrite unrender_job, cut_suffix_app.
  - change (workerJobsKey w) with ("winter:worker:" +:+ (w +:+ ":jobs")).
    by rewrite unrender_worker, cut_suffix_app.
  - rewrite unrender_workflow. destruct Hk as [-> ->]. done.
  - change (depsKey id) with (workflowKey (id +:+ ":deps")).
    by rewrite unrender_workflow, cut_suffix_app.
  - change (counterKey id) with (workflowKey (id +:+ ":counter")).
    by rewrite unrender_workflow, strip_deps_counter, cut_suffix_app.
Qed.

Lemma render_inj k1 k2 : wf_key k1 → wf_key k2 → render k1 = render k2 → k1 = k2.
Proof.
  intros H1 H2 E. apply (f_equal unrender) in E. rewrite !unrender_render in E by done.
  by injection E.
Qed.

Lemma render_ne k1 k2 : wf_key k1 → wf_key k2 → k1 ≠ k2 → render k1 ≠ render k2.
Proof. intros H1 H2 Hne E. by apply Hne, render_inj. Qed.

(** ** Properties *)

(** Two keys of the program with well-formed names are equal strings only
    if they are the same key of the same queue, job, worker or workflow. *)
Theorem keys_disjoint k1 k2 :
  wf_key k1 → wf_key k2 → render k1 = render k2 ↔ k1 = k2.
Proof. intros H1 H2. split; [by apply render_inj|by intros ->]. Qed.

Lemma keys_disjoint_witness :
  (wf_key (KReady "default") ∧ wf_key (KJob "7f3c")) ∧
  (render (KReady "default") = render (KJob "7f3c") ↔ KReady "default" = KJob "7f3c").
Proof.
  split; [decide_now|].
  apply (keys_disjoint (KReady "default") (KJob "7f3c")); decide_now.
Defined.

(** Without the condition on names the key space does alias: the ready set of
    the queue called [stats] is the counter hash of the queue called [ready], a
    queue called [job] shares keys with the job hashes, and the result of a job
    is the hash of the job whose id has [:result] appended. *)
Theorem keys_collide q id :
  readyKey "stats" = statsKey "ready" ∧
  activeKey "job" = jobKey "active" ∧
  statsKey (q +:+ ":ready") = readyKey ("stats:" +:+ q) ∧
  resultKey id = jobKey (id +:+ ":result").
Proof. repeat split. Qed.
