(* ===== verification/Redis.v ===== *)
(** * Redis: the server the program runs against, as an interface

    Redis, its Lua engine and the go-redis client are not part of the
    repository.  They are a parameter of the development: the class [Redis]
    holds the operations the source uses, the class [RedisLaws] what the
    documentation of those operations promises, and every model of this
    development takes an instance.  [MemRedis.v] gives one. *)
From S2P Require Import Prelude.
From stdpp Require Export sorting.

Open Scope string_scope.
Open Scope Z_scope.

(** ** The data model of the keyspace *)

Inductive rval : Type :=
  | RStr (s : string)
  | RHash (h : gmap string string)
  | RZset (z : gmap string Z)
  | RSet (x : gset string)
  | RList (l : list string).

Inductive rty : Type := TStr | THash | TZset | TSet | TList.

#[export] Instance rty_eq_dec : EqDecision rty.
Proof. solve_decision. Defined.
#[export] Instance rval_eq_dec : EqDecision rval.
Proof. solve_decision. Defined.

Definition type_of (v : rval) : rty :=
  match v with
  | RStr _ => TStr | RHash _ => THash | RZset _ => TZset | RSet _ => TSet | RList _ => TList
  end.

(** Aggregates without elements do not exist as keys. *)
Definition vacuous (v : rval) : bool :=
  match v with
  | RStr _ => false
  | RHash h => bool_decide (h = ∅)
  | RZset z => bool_decide (z = ∅)
  | RSet x => bool_decide (x = ∅)
  | RList l => bool_decide (l = [])
  end.

Abbreviation keyspace := (gmap string rval).

Definition put (k : string) (v : rval) (m : keyspace) : keyspace :=
  if vacuous v then delete k m else <[k := v]> m.

(** The value at a key, a missing key being an empty aggregate. *)
Definition hash_at (m : keyspace) (k : string) : gmap string string :=
  match m !! k with Some (RHash h) => h | _ => ∅ end.
Definition zset_at (m : keyspace) (k : string) : gmap string Z :=
  match m !! k with Some (RZset z) => z | _ => ∅ end.
Definition set_at (m : keyspace) (k : string) : gset string :=
  match m !! k with Some (RSet x) => x | _ => ∅ end.
Definition list_at (m : keyspace) (k : string) : list string :=
  match m !! k with Some (RList l) => l | _ => [] end.
Definition str_at (m : keyspace) (k : string) : option string :=
  match m !! k with Some (RStr s) => Some s | _ => None end.

(** The key is free or holds a value of the given type: no WRONGTYPE error. *)
Definition has_type (m : keyspace) (k : string) (t : rty) : Prop :=
  match m !! k with None => True | Some v => type_of v = t end.

#[export] Instance has_type_dec m k t : Decision (has_type m k t).
Proof. unfold has_type. destruct (m !! k); apply _. Defined.

(** ** Commands and replies *)

(** The commands the source sends, with the arguments it gives them. *)
Inductive command : Type :=
  | EXISTS (k : string)
  | GET (k : string)
  | SET (k v : string) (nx : bool) (px : option Z)   (** [px]: the EX or PX option in ms *)
  | DEL (k : string)
  | PEXPIRE (k : string) (ms : Z)
  | INCR (k : string)
  | HSET (k : string) (fvs : list (string * string))
  | HSETNX (k f v : string)
  | HGET (k f : string)
  | HGETALL (k : string)
  | HINCRBY (k f : string) (n : Z)
  | HDEL (k f : string)
  | ZADD (k score m : string)
  | ZADD_XX (k score m : string)
  | ZREM (k m : string)
  | ZPOPMIN (k : string)
  | ZRANGEBYSCORE (k lo hi : string) (offset count : Z)
  | ZCARD (k : string)
  | SADD (k m : string)
  | SREM (k m : string)
  | SCARD (k : string)
  | LPUSH (k v : string)
  | LREM (k : string) (count : Z) (v : string)
  | LRANGE (k : string) (start stop : Z)
  | LLEN (k : string).

Inductive reply : Type :=
  | RInt (n : Z)
  | RBulk (s : string)
  | RArr (l : list string)
  | ROk
  | RNil
  | RErr (msg : string).

#[export] Instance reply_eq_dec : EqDecision reply.
Proof. solve_decision. Defined.

(** Every command of the list works on one key. *)
Definition cmd_key (c : command) : string :=
  match c with
  | EXISTS k | GET k | SET k _ _ _ | DEL k | PEXPIRE k _ | INCR k | HSET k _ | HSETNX k _ _
  | HGET k _ | HGETALL k | HINCRBY k _ _ | HDEL k _ | ZADD k _ _ | ZADD_XX k _ _ | ZREM k _
  | ZPOPMIN k | ZRANGEBYSCORE k _ _ _ _ | ZCARD k | SADD k _ | SREM k _ | SCARD k | LPUSH k _
  | LREM k _ _ | LRANGE k _ _ | LLEN k => k
  end.

(** ** Vocabulary of the command documentation *)

(** Sorted sets are ordered by score, equal scores by member. *)
Definition zle (a b : string * Z) : Prop :=
  a.2 < b.2 ∨ (a.2 = b.2 ∧ String.le a.1 b.1).

#[export] Instance zle_dec : RelDecision zle.
Proof. intros a b. unfold zle. apply _. Defined.

Definition zsorted (z : gmap string Z) : list (string * Z) := merge_sort zle (map_to_list z).

(** The members whose score is at most [hi], in order. *)
Definition zupto (hi : Z) (z : gmap string Z) : list string :=
  (filter (λ p, p.2 ≤ hi) (zsorted z)).*1.

(** LIMIT 0 count: a negative count means no limit. *)
Definition limited {A} (count : Z) (l : list A) : list A :=
  if decide (count < 0) then l else take (Z.to_nat count) l.

(** LRANGE: negative positions count from the end, out of range ones are clipped. *)
Definition lrange (start stop : Z) (l : list string) : list string :=
  let n := Z.of_nat (length l) in
  let s := if decide (start < 0) then Z.max 0 (n + start) else start in
  let e := if decide (stop < 0) then n + stop else Z.min stop (n - 1) in
  if decide (s ≤ e) then take (Z.to_nat (e - s + 1)) (drop (Z.to_nat s) l) else [].

(** LREM with a positive count of 1: the first occurrence goes. *)
Fixpoint remove_first (v : string) (l : list string) : list string :=
  match l with
  | [] => []
  | x :: l' => if decide (x = v) then l' else x :: remove_first v l'
  end.

Definition hset_all (fvs : list (string * string)) (h : gmap string string) : gmap string string :=
  foldl (λ h fv, <[fv.1 := fv.2]> h) h fvs.

Definition flatten (fvs : list (string * string)) : list string :=
  fvs ≫= λ fv, [fv.1; fv.2].

(** [string2ll] of the server: it takes the numerals it would print, and neither a
    plus nor leading zeros. *)
Definition string2ll (s : string) : option Z :=
  let n := (ParseInt s).1 in
  if decide (dec n = s) then Some n else None.

Lemma string2ll_dec n : in_int64 n → string2ll (dec n) = Some n.
Proof. intros Hn. unfold string2ll. rewrite ParseInt_dec by done. by rewrite decide_True. Qed.

Lemma string2ll_Some s n : string2ll s = Some n → in_int64 n ∧ s = dec n.
Proof.
  unfold string2ll. pose proof (ParseInt_range s). case_decide as E; [|done]. by intros [= <-].
Qed.

(** The integer a counter field holds, a missing field being 0. *)
Definition counter_of (v : option string) : option Z :=
  match v with
  | None => Some 0
  | Some s => string2ll s
  end.

(** What one round trip to the server does: how often the request was
    executed without the client seeing a reply, then either one execution whose
    reply arrives or a network error.  The client library resends on some
    failures, so neither count is bounded by one. *)
Inductive delivery : Type :=
  | Replied (lost : nat)
  | Dropped (executed : nat) (msg : string).

(** ** The interface *)

Class Redis (S : Type) : Type := {
  (* one command, executed atomically *)
  exec : command → S → S * reply;
  (* the fate of the next request *)
  transport : S → S * delivery;
  (* the contents a reader would see, expired keys excluded *)
  ks : S → keyspace;
  (* absolute expiry times of the keys that have one, and the server's clock, in ms *)
  expires : S → gmap string Z;
  clock : S → Z;
  (* the passing of time *)
  advance : Z → S → S;
  (* Lua's numbers, of which the scripts use the integral ones *)
  tonumber : string → option Z;
  tostring : Z → string;
  ladd : Z → Z → Z
}.

(** What a command may write at its key. *)
Definition may_write (c : command) (v : rval) : Prop :=
  match c, v with
  | SET _ s' _ _, RStr s => s = s'
  | INCR _, RStr _ => True
  | (HSET _ _ | HSETNX _ _ _ | HINCRBY _ _ _ | HDEL _ _), RHash _ => True
  | (ZADD _ _ _ | ZADD_XX _ _ _ | ZREM _ _ | ZPOPMIN _), RZset _ => True
  | (SADD _ _ | SREM _ _), RSet _ => True
  | (LPUSH _ _ | LREM _ _ _), RList _ => True
  | _, _ => False
  end.

(** [c] on [s] leaves the contents [m] and replies [r]. *)
Definition runs {S} `{Redis S} (c : command) (s : S) (m : keyspace) (r : reply) : Prop :=
  ks (exec c s).1 = m ∧ (exec c s).2 = r.

(** The type of value the command requires at its key, if it requires one. *)
Definition cmd_type (c : command) : option rty :=
  match c with
  | GET _ | INCR _ => Some TStr
  | HSET _ _ | HSETNX _ _ _ | HGET _ _ | HGETALL _ | HINCRBY _ _ _ | HDEL _ _ => Some THash
  | ZADD _ _ _ | ZADD_XX _ _ _ | ZREM _ _ | ZPOPMIN _ | ZRANGEBYSCORE _ _ _ _ _ | ZCARD _ =>
      Some TZset
  | SADD _ _ | SREM _ _ | SCARD _ => Some TSet
  | LPUSH _ _ | LREM _ _ _ | LRANGE _ _ _ | LLEN _ => Some TList
  | EXISTS _ | SET _ _ _ _ | DEL _ | PEXPIRE _ _ => None
  end.

(** The command finds the type it needs at its key. *)
Definition typed_cmd (m : keyspace) (c : command) : Prop :=
  match cmd_type c with Some t => has_type m (cmd_key c) t | None => True end.

#[export] Instance typed_cmd_dec m c : Decision (typed_cmd m c).
Proof. unfold typed_cmd. destruct (cmd_type c); apply _. Defined.

Definition b2z (b : bool) : Z := if b then 1 else 0.
Definition bit (P : Prop) `{Decision P} : Z := b2z (bool_decide P).

Class RedisLaws (S : Type) `{Redis S} : Prop := {
  (* errors: a failing command changes nothing *)
  law_error s c msg : (exec c s).2 = RErr msg → ks (exec c s).1 = ks s;
  law_wrongtype s c : ¬ typed_cmd (ks s) c → ∃ msg, (exec c s).2 = RErr msg;
  (* a command works on its key only *)
  law_other s c k : k ≠ cmd_key c → ks (exec c s).1 !! k = ks s !! k;
  law_writes s c v : ks (exec c s).1 !! cmd_key c = Some v →
    ks s !! cmd_key c = Some v ∨ may_write c v;
  (* keys and strings *)
  law_EXISTS s k : runs (EXISTS k) s (ks s) (RInt (bit (is_Some (ks s !! k))));
  law_GET s k : has_type (ks s) k TStr →
    runs (GET k) s (ks s) (match str_at (ks s) k with Some v => RBulk v | None => RNil end);
  law_SET s k v px : (∀ t, px = Some t → 0 < t) →
    runs (SET k v false px) s (put k (RStr v) (ks s)) ROk;
  law_SETNX s k v px : (∀ t, px = Some t → 0 < t) →
    runs (SET k v true px) s (if decide (is_Some (ks s !! k)) then ks s else put k (RStr v) (ks s))
      (if decide (is_Some (ks s !! k)) then RNil else ROk);
  law_DEL s k : runs (DEL k) s (delete k (ks s)) (RInt (bit (is_Some (ks s !! k))));
  law_PEXPIRE s k ms : 0 < ms → runs (PEXPIRE k ms) s (ks s) (RInt (bit (is_Some (ks s !! k))));
  law_INCR s k n : has_type (ks s) k TStr → counter_of (str_at (ks s) k) = Some n → in_int64 (n + 1) →
    runs (INCR k) s (put k (RStr (dec (n + 1))) (ks s)) (RInt (n + 1));
  law_INCR_error s k :
    match counter_of (str_at (ks s) k) with Some n => ¬ in_int64 (n + 1) | None => True end →
    ∃ msg, (exec (INCR k) s).2 = RErr msg;
  (* hashes *)
  law_HSET s k fvs : has_type (ks s) k THash → fvs ≠ [] →
    ∃ n, runs (HSET k fvs) s (put k (RHash (hset_all fvs (hash_at (ks s) k))) (ks s)) (RInt n);
  law_HSETNX s k f v : has_type (ks s) k THash →
    runs (HSETNX k f v) s
      (if decide (is_Some (hash_at (ks s) k !! f)) then ks s
       else put k (RHash (<[f := v]> (hash_at (ks s) k))) (ks s))
      (RInt (bit (hash_at (ks s) k !! f = None)));
  law_HGET s k f : has_type (ks s) k THash →
    runs (HGET k f) s (ks s) (match hash_at (ks s) k !! f with Some v => RBulk v | None => RNil end);
  law_HGETALL s k : has_type (ks s) k THash →
    ∃ fvs, fvs ≡ₚ map_to_list (hash_at (ks s) k) ∧
      runs (HGETALL k) s (ks s) (RArr (flatten fvs));
  law_HINCRBY s k f d n : has_type (ks s) k THash →
    counter_of (hash_at (ks s) k !! f) = Some n → in_int64 (n + d) →
    runs (HINCRBY k f d) s (put k (RHash (<[f := dec (n + d)]> (hash_at (ks s) k))) (ks s))
      (RInt (n + d));
  law_HINCRBY_error s k f d :
    match counter_of (hash_at (ks s) k !! f) with Some n => ¬ in_int64 (n + d) | None => True end →
    ∃ msg, (exec (HINCRBY k f d) s).2 = RErr msg;
  law_HDEL s k f : has_type (ks s) k THash →
    runs (HDEL k f) s (put k (RHash (delete f (hash_at (ks s) k))) (ks s))
      (RInt (bit (is_Some (hash_at (ks s) k !! f))));
  (* sorted sets *)
  law_ZADD s k z m : has_type (ks s) k TZset → safe_int z →
    runs (ZADD k (dec z) m) s (put k (RZset (<[m := z]> (zset_at (ks s) k))) (ks s))
      (RInt (bit (zset_at (ks s) k !! m = None)));
  law_ZADD_XX s k z m : has_type (ks s) k TZset → safe_int z →
    runs (ZADD_XX k (dec z) m) s
      (if decide (is_Some (zset_at (ks s) k !! m))
       then put k (RZset (<[m := z]> (zset_at (ks s) k))) (ks s) else ks s) (RInt 0);
  law_ZREM s k m : has_type (ks s) k TZset →
    runs (ZREM k m) s (put k (RZset (delete m (zset_at (ks s) k))) (ks s))
      (RInt (bit (is_Some (zset_at (ks s) k !! m))));
  law_ZPOPMIN s k : has_type (ks s) k TZset →
    match zsorted (zset_at (ks s) k) with
    | [] => runs (ZPOPMIN k) s (ks s) (RArr [])
    | (m, _) :: _ =>
        ∃ score, runs (ZPOPMIN k) s (put k (RZset (delete m (zset_at (ks s) k))) (ks s))
          (RArr [m; score])
    end;
  law_ZRANGEBYSCORE s k hi count : has_type (ks s) k TZset → safe_int hi →
    runs (ZRANGEBYSCORE k "-inf" (dec hi) 0 count) s (ks s)
      (RArr (limited count (zupto hi (zset_at (ks s) k))));
  law_ZCARD s k : has_type (ks s) k TZset →
    runs (ZCARD k) s (ks s) (RInt (Z.of_nat (size (zset_at (ks s) k))));
  (* sets *)
  law_SADD s k m : has_type (ks s) k TSet →
    runs (SADD k m) s (put k (RSet ({[m]} ∪ set_at (ks s) k)) (ks s))
      (RInt (bit (m ∉ set_at (ks s) k)));
  law_SREM s k m : has_type (ks s) k TSet →
    runs (SREM k m) s (put k (RSet (set_at (ks s) k ∖ {[m]})) (ks s))
      (RInt (bit (m ∈ set_at (ks s) k)));
  law_SCARD s k : has_type (ks s) k TSet →
    runs (SCARD k) s (ks s) (RInt (Z.of_nat (size (set_at (ks s) k))));
  (* lists *)
  law_LPUSH s k v : has_type (ks s) k TList →
    runs (LPUSH k v) s (put k (RList (v :: list_at (ks s) k)) (ks s))
      (RInt (Z.of_nat (Datatypes.S (length (list_at (ks s) k)))));
  law_LREM1 s k v : has_type (ks s) k TList →
    runs (LREM k 1 v) s (put k (RList (remove_first v (list_at (ks s) k))) (ks s))
      (RInt (bit (v ∈ list_at (ks s) k)));
  law_LRANGE s k start stop : has_type (ks s) k TList →
    runs (LRANGE k start stop) s (ks s) (RArr (lrange start stop (list_at (ks s) k)));
  law_LLEN s k : has_type (ks s) k TList →
    runs (LLEN k) s (ks s) (RInt (Z.of_nat (length (list_at (ks s) k))));
  (* expiry *)
  law_clock s c : clock (exec c s).1 = clock s;
  law_ttl_SET s k v nx px : (exec (SET k v nx px) s).2 = ROk →
    expires (exec (SET k v nx px) s).1 =
      match px with Some t => <[k := clock s + t]> (expires s) | None => delete k (expires s) end;
  law_ttl_PEXPIRE s k ms : 0 < ms → is_Some (ks s !! k) →
    expires (exec (PEXPIRE k ms) s).1 = <[k := clock s + ms]> (expires s);
  law_ttl_other s c k : k ≠ cmd_key c →
    expires (exec c s).1 !! k = expires s !! k;
  law_ttl_keep s c : match c with SET _ _ _ _ | PEXPIRE _ _ => False | _ => True end →
    expires s !! cmd_key c = None → expires (exec c s).1 !! cmd_key c = None;
  (* only a command that deletes or overwrites a key touches its expiry *)
  law_ttl_alter s c : match c with SET _ _ false _ | PEXPIRE _ _ => False | _ => True end →
    is_Some (ks s !! cmd_key c) → is_Some (ks (exec c s).1 !! cmd_key c) →
    expires (exec c s).1 !! cmd_key c = expires s !! cmd_key c;
  law_advance_clock s d : 0 ≤ d → clock (advance d s) = clock s + d;
  law_advance s d k : 0 ≤ d →
    ks (advance d s) !! k =
      match expires s !! k with
      | Some t => if decide (t ≤ clock s + d) then None else ks s !! k
      | None => ks s !! k
      end;
  law_advance_ttl s d : 0 ≤ d →
    expires (advance d s) = filter (λ p, clock s + d < p.2) (expires s);
  (* the network *)
  law_transport s : ks (transport s).1 = ks s ∧ expires (transport s).1 = expires s
    ∧ clock (transport s).1 = clock s;
  (* Lua's numbers agree with the integers where a double is exact *)
  law_tonumber z : safe_int z → tonumber (dec z) = Some z;
  law_tostring z : safe_int z → tostring z = dec z;
  law_ladd a b : safe_int a → safe_int b → safe_int (a + b) → ladd a b = a + b
}.

(** The network of a quiet day: every request is executed once and answered. *)
Class Reliable (S : Type) `{Redis S} : Prop :=
  reliable s : (transport s).2 = Replied 0.
