(* ===== verification/Lua.v ===== *)
(** * Lua: scripts run by the server, and a calculus for them

    A script is a program over the server state that may raise.  [redis_call]
    is [redis.call]: an error reply raises and keeps what was written before.
    [wp] describes a program by the contents it leaves and its outcome; one rule
    per command, each a law of [RedisLaws], lets proofs execute a script
    symbolically on the contents alone. *)
From S2P Require Import Prelude Redis.

Open Scope string_scope.
Open Scope Z_scope.

Section Lua.
Context {S : Type} `{Redis S}.

(** [redis.call(...)] *)
Definition redis_call (c : command) : M S string reply := λ s,
  match exec c s with
  | (s', RErr msg) => (s', Err msg)
  | (s', r) => (s', Ok r)
  end.

(** A number where Lua has [nil] raises when it is used. *)
Definition num (x : option Z) : M S string Z :=
  match x with
  | Some z => mret z
  | None => throw "attempt to use a nil value as a number"
  end.

(** [tonumber(redis.call(...))]: a missing field is [false], whose number is nil. *)
Definition reply_number (r : reply) : option Z :=
  match r with
  | RInt n => Some n
  | RBulk s => tonumber s
  | _ => None
  end.

(** ** Weakest preconditions over the contents *)

Definition wp {E A} (c : M S E A) (Q : keyspace → result E A → Prop) (m : keyspace) : Prop :=
  ∀ s, ks s = m → Q (ks (c s).1) (c s).2.

Lemma wp_ret {E A} (a : A) (Q : keyspace → result E A → Prop) m :
  Q m (Ok a) → wp (mret a) Q m.
Proof. by intros HQ s <-. Qed.

Lemma wp_throw {E A} (e : E) (Q : keyspace → result E A → Prop) m :
  Q m (Err e) → wp (throw e) Q m.
Proof. by intros HQ s <-. Qed.

Lemma wp_bind {E A B} (c : M S E A) (f : A → M S E B) Q m :
  wp c (λ m1 r, match r with Ok a => wp (f a) Q m1 | Err e => Q m1 (Err e) end) m →
  wp (mbind f c) Q m.
Proof.
  intros Hc s Hs. specialize (Hc s Hs). unfold mbind, M_bind.
  destruct (c s) as [s1 [a|e]]; cbn in *; [by apply Hc|done].
Qed.

Lemma wp_try {E E' A} (c : M S E A) (Q : keyspace → result E' (result E A) → Prop) m :
  wp c (λ m1 r, Q m1 (Ok r)) m → wp (try c) Q m.
Proof. intros Hc s Hs. specialize (Hc s Hs). unfold try. by destruct (c s). Qed.

Lemma wp_mono {E A} (c : M S E A) (P Q : keyspace → result E A → Prop) m :
  wp c P m → (∀ m' r, P m' r → Q m' r) → wp c Q m.
Proof. intros Hc HPQ s Hs. by apply HPQ, Hc. Qed.

(** Running two programs with related continuations. *)
Lemma wp_apply {E A} (c : M S E A) (Q : keyspace → result E A → Prop) s :
  wp c Q (ks s) → Q (ks (c s).1) (c s).2.
Proof. intros Hc. by apply Hc. Qed.

(** A loop keeps an invariant its body keeps. *)
Lemma wp_for_each {E A} (l : list A) (body : A → M S E unit) (I : list A → keyspace → Prop) Q m :
  I l m →
  (∀ x l' m', I (x :: l') m' →
     wp (body x) (λ m1 r, match r with Ok _ => I l' m1 | Err e => Q m1 (Err e) end) m') →
  (∀ m', I [] m' → Q m' (Ok tt)) →
  wp (for_each l body) Q m.
Proof.
  intros HI Hbody Hend. revert m HI. induction l as [|x l IH]; intros m HI; cbn [for_each].
  - by apply wp_ret, Hend.
  - apply wp_bind. eapply wp_mono; [by apply Hbody|].
    intros m1 [[]|e] Hm1; [by apply IH|done].
Qed.

Lemma wp_num z Q m : Q m (Ok z) → wp (num (Some z)) Q m.
Proof. by apply wp_ret. Qed.

Section Commands.
Context `{!RedisLaws S}.

Lemma runs_call (c : command) (s : S) (m' : keyspace) (r : reply) Q :
  runs c s m' r → (∀ msg, r ≠ RErr msg) → Q m' (Ok r) →
  Q (ks (redis_call c s).1) (redis_call c s).2.
Proof.
  intros [H1 H2] Hr HQ. unfold redis_call. destruct (exec c s) as [s' r']; cbn in *.
  subst r' m'. destruct r; try done. by destruct (Hr msg).
Qed.

Ltac by_law law :=
  intros; match goal with |- wp _ _ _ => intros ?s <- end;
  eapply runs_call; [by apply law|try done|done].

Lemma wp_EXISTS k Q m :
  Q m (Ok (RInt (bit (is_Some (m !! k))))) → wp (redis_call (EXISTS k)) Q m.
Proof. by_law law_EXISTS. Qed.

Lemma wp_GET k Q m : has_type m k TStr →
  Q m (Ok (match str_at m k with Some v => RBulk v | None => RNil end)) →
  wp (redis_call (GET k)) Q m.
Proof. by_law law_GET; by destruct (str_at _ k). Qed.

Lemma wp_SET k v px Q m : (∀ t, px = Some t → 0 < t) →
  Q (put k (RStr v) m) (Ok ROk) → wp (redis_call (SET k v false px)) Q m.
Proof. by_law law_SET. Qed.

Lemma wp_SETNX k v px Q m : (∀ t, px = Some t → 0 < t) →
  (is_Some (m !! k) → Q m (Ok RNil)) →
  (m !! k = None → Q (put k (RStr v) m) (Ok ROk)) →
  wp (redis_call (SET k v true px)) Q m.
Proof.
  intros Hpx H1 H2 s <-. eapply runs_call; [by apply law_SETNX| |].
  - by case_decide.
  - destruct (ks s !! k) as [v'|] eqn:Hk.
    + rewrite !decide_True by eauto. apply H1. eauto.
    + rewrite !decide_False by (intros [? ?]; done). by apply H2.
Qed.

Lemma wp_DEL k Q m :
  Q (delete k m) (Ok (RInt (bit (is_Some (m !! k))))) → wp (redis_call (DEL k)) Q m.
Proof. by_law law_DEL. Qed.

Lemma wp_PEXPIRE k ms Q m : 0 < ms →
  Q m (Ok (RInt (bit (is_Some (m !! k))))) → wp (redis_call (PEXPIRE k ms)) Q m.
Proof. by_law law_PEXPIRE. Qed.

Lemma wp_INCR k n Q m : has_type m k TStr →
  counter_of (str_at m k) = Some n → in_int64 (n + 1) →
  Q (put k (RStr (dec (n + 1))) m) (Ok (RInt (n + 1))) → wp (redis_call (INCR k)) Q m.
Proof. by_law law_INCR. Qed.

Lemma wp_HSET k fvs Q m : has_type m k THash → fvs ≠ [] →
  (∀ n, Q (put k (RHash (hset_all fvs (hash_at m k))) m) (Ok (RInt n))) →
  wp (redis_call (HSET k fvs)) Q m.
Proof.
  intros Ht Hne HQ s <-. destruct (law_HSET s k fvs Ht Hne) as [n Hn].
  by eapply runs_call; [exact Hn|done|apply HQ].
Qed.

Lemma wp_HSETNX k f v Q m : has_type m k THash →
  Q (if decide (is_Some (hash_at m k !! f)) then m else put k (RHash (<[f := v]> (hash_at m k))) m)
    (Ok (RInt (bit (hash_at m k !! f = None)))) →
  wp (redis_call (HSETNX k f v)) Q m.
Proof. by_law law_HSETNX. Qed.

Lemma wp_HGET k f Q m : has_type m k THash →
  Q m (Ok (match hash_at m k !! f with Some v => RBulk v | None => RNil end)) →
  wp (redis_call (HGET k f)) Q m.
Proof. by_law law_HGET; by destruct (hash_at _ k !! f). Qed.

Lemma wp_HGETALL k Q m : has_type m k THash →
  (∀ fvs, fvs ≡ₚ map_to_list (hash_at m k) → Q m (Ok (RArr (flatten fvs)))) →
  wp (redis_call (HGETALL k)) Q m.
Proof.
  intros Ht HQ s <-. destruct (law_HGETALL s k Ht) as (fvs & Hp & Hr).
  eapply runs_call; [exact Hr|done|by apply HQ].
Qed.

Lemma wp_HINCRBY k f d n Q m : has_type m k THash →
  counter_of (hash_at m k !! f) = Some n → in_int64 (n + d) →
  Q (put k (RHash (<[f := dec (n + d)]> (hash_at m k))) m) (Ok (RInt (n + d))) →
  wp (redis_call (HINCRBY k f d)) Q m.
Proof. by_law law_HINCRBY. Qed.

Lemma wp_HDEL k f Q m : has_type m k THash →
  Q (put k (RHash (delete f (hash_at m k))) m) (Ok (RInt (bit (is_Some (hash_at m k !! f))))) →
  wp (redis_call (HDEL k f)) Q m.
Proof. by_law law_HDEL. Qed.

Lemma wp_ZADD k z x Q m : has_type m k TZset → safe_int z →
  Q (put k (RZset (<[x := z]> (zset_at m k))) m) (Ok (RInt (bit (zset_at m k !! x = None)))) →
  wp (redis_call (ZADD k (dec z) x)) Q m.
Proof. by_law law_ZADD. Qed.

Lemma wp_ZADD_XX k z x Q m : has_type m k TZset → safe_int z →
  Q (if decide (is_Some (zset_at m k !! x))
     then put k (RZset (<[x := z]> (zset_at m k))) m else m) (Ok (RInt 0)) →
  wp (redis_call (ZADD_XX k (dec z) x)) Q m.
Proof. by_law law_ZADD_XX. Qed.

Lemma wp_ZREM k x Q m : has_type m k TZset →
  Q (put k (RZset (delete x (zset_at m k))) m) (Ok (RInt (bit (is_Some (zset_at m k !! x))))) →
  wp (redis_call (ZREM k x)) Q m.
Proof. by_law law_ZREM. Qed.

Lemma wp_ZPOPMIN k Q m : has_type m k TZset →
  (zsorted (zset_at m k) = [] → Q m (Ok (RArr []))) →
  (∀ x z l score, zsorted (zset_at m k) = (x, z) :: l →
     Q (put k (RZset (delete x (zset_at m k))) m) (Ok (RArr [x; score]))) →
  wp (redis_call (ZPOPMIN k)) Q m.
Proof.
  intros Ht H1 H2 s <-. pose proof (law_ZPOPMIN s k Ht) as Hl.
  destruct (zsorted (zset_at (ks s) k)) as [|[x z] l].
  - eapply runs_call; [exact Hl|done|by apply H1].
  - destruct Hl as [score Hl]. eapply runs_call; [exact Hl|done|by eapply H2].
Qed.

Lemma wp_ZRANGEBYSCORE k hi count Q m : has_type m k TZset → safe_int hi →
  Q m (Ok (RArr (limited count (zupto hi (zset_at m k))))) →
  wp (redis_call (ZRANGEBYSCORE k "-inf" (dec hi) 0 count)) Q m.
Proof. by_law law_ZRANGEBYSCORE. Qed.

Lemma wp_ZCARD k Q m : has_type m k TZset →
  Q m (Ok (RInt (Z.of_nat (size (zset_at m k))))) → wp (redis_call (ZCARD k)) Q m.
Proof. by_law law_ZCARD. Qed.

Lemma wp_SADD k x Q m : has_type m k TSet →
  Q (put k (RSet ({[x]} ∪ set_at m k)) m) (Ok (RInt (bit (x ∉ set_at m k)))) →
  wp (redis_call (SADD k x)) Q m.
Proof. by_law law_SADD. Qed.

Lemma wp_SREM k x Q m : has_type m k TSet →
  Q (put k (RSet (set_at m k ∖ {[x]})) m) (Ok (RInt (bit (x ∈ set_at m k)))) →
  wp (redis_call (SREM k x)) Q m.
Proof. by_law law_SREM. Qed.

Lemma wp_SCARD k Q m : has_type m k TSet →
  Q m (Ok (RInt (Z.of_nat (size (set_at m k))))) → wp (redis_call (SCARD k)) Q m.
Proof. by_law law_SCARD. Qed.

Lemma wp_LPUSH k v Q m : has_type m k TList →
  Q (put k (RList (v :: list_at m k)) m)
    (Ok (RInt (Z.of_nat (Datatypes.S (length (list_at m k)))))) →
  wp (redis_call (LPUSH k v)) Q m.
Proof. by_law law_LPUSH. Qed.

Lemma wp_LREM1 k v Q m : has_type m k TList →
  Q (put k (RList (remove_first v (list_at m k))) m) (Ok (RInt (bit (v ∈ list_at m k)))) →
  wp (redis_call (LREM k 1 v)) Q m.
Proof. by_law law_LREM1. Qed.

Lemma wp_LRANGE k start stop Q m : has_type m k TList →
  Q m (Ok (RArr (lrange start stop (list_at m k)))) →
  wp (redis_call (LRANGE k start stop)) Q m.
Proof. by_law law_LRANGE. Qed.

Lemma wp_LLEN k Q m : has_type m k TList →
  Q m (Ok (RInt (Z.of_nat (length (list_at m k))))) → wp (redis_call (LLEN k)) Q m.
Proof. by_law law_LLEN. Qed.
End Commands.
End Lua.
