(* ===== verification/MemRedis.v ===== *)
(** * MemRedis: an instance of the interface

    An executable server that satisfies [RedisLaws], so that no theorem of the
    development is vacuous and every witness computes.  It stands in for the
    service in examples only; no theorem mentions it. *)
From S2P Require Import Prelude Redis.

Open Scope string_scope.
Open Scope Z_scope.

Record mem : Type := Mem {
  mks : keyspace;
  mexp : gmap string Z;
  mclk : Z;
  mreq : nat
}.

Definition empty_mem : mem := Mem ∅ ∅ 0 0.

(** The contents and reply of a command on keys of the right type. *)
Definition run_cmd (c : command) (m : keyspace) : keyspace * reply :=
  match c with
  | EXISTS k => (m, RInt (bit (is_Some (m !! k))))
  | GET k => (m, match str_at m k with Some v => RBulk v | None => RNil end)
  | SET k v nx px =>
      if match px with Some t => bool_decide (t ≤ 0) | None => false end
      then (m, RErr "ERR invalid expire time")
      else if nx && bool_decide (is_Some (m !! k)) then (m, RNil)
      else (put k (RStr v) m, ROk)
  | DEL k => (delete k m, RInt (bit (is_Some (m !! k))))
  | PEXPIRE k ms => (m, RInt (bit (is_Some (m !! k))))
  | INCR k =>
      match counter_of (str_at m k) with
      | Some n =>
          if decide (in_int64 (n + 1)) then (put k (RStr (dec (n + 1))) m, RInt (n + 1))
          else (m, RErr "ERR increment or decrement would overflow")
      | None => (m, RErr "ERR value is not an integer or out of range")
      end
  | HSET k fvs =>
      if decide (fvs = []) then (m, RErr "ERR wrong number of arguments")
      else (put k (RHash (hset_all fvs (hash_at m k))) m, RInt 0)
  | HSETNX k f v =>
      if decide (is_Some (hash_at m k !! f)) then (m, RInt 0)
      else (put k (RHash (<[f := v]> (hash_at m k))) m, RInt 1)
  | HGET k f => (m, match hash_at m k !! f with Some v => RBulk v | None => RNil end)
  | HGETALL k => (m, RArr (flatten (map_to_list (hash_at m k))))
  | HINCRBY k f d =>
      match counter_of (hash_at m k !! f) with
      | Some n =>
          if decide (in_int64 (n + d))
          then (put k (RHash (<[f := dec (n + d)]> (hash_at m k))) m, RInt (n + d))
          else (m, RErr "ERR increment or decrement would overflow")
      | None => (m, RErr "ERR hash value is not an integer")
      end
  | HDEL k f => (put k (RHash (delete f (hash_at m k))) m, RInt (bit (is_Some (hash_at m k !! f))))
  | ZADD k score x =>
      match ParseInt score with
      | (z, true) =>
          (put k (RZset (<[x := z]> (zset_at m k))) m, RInt (bit (zset_at m k !! x = None)))
      | _ => (m, RErr "ERR value is not a valid float")
      end
  | ZADD_XX k score x =>
      match ParseInt score with
      | (z, true) =>
          (if decide (is_Some (zset_at m k !! x))
           then put k (RZset (<[x := z]> (zset_at m k))) m else m, RInt 0)
      | _ => (m, RErr "ERR value is not a valid float")
      end
  | ZREM k x => (put k (RZset (delete x (zset_at m k))) m, RInt (bit (is_Some (zset_at m k !! x))))
  | ZPOPMIN k =>
      match zsorted (zset_at m k) with
      | [] => (m, RArr [])
      | (x, z) :: _ => (put k (RZset (delete x (zset_at m k))) m, RArr [x; dec z])
      end
  | ZRANGEBYSCORE k _ hi _ count =>
      match ParseInt hi with
      | (z, true) => (m, RArr (limited count (zupto z (zset_at m k))))
      | _ => (m, RErr "ERR min or max is not a float")
      end
  | ZCARD k => (m, RInt (Z.of_nat (size (zset_at m k))))
  | SADD k x => (put k (RSet ({[x]} ∪ set_at m k)) m, RInt (bit (x ∉ set_at m k)))
  | SREM k x => (put k (RSet (set_at m k ∖ {[x]})) m, RInt (bit (x ∈ set_at m k)))
  | SCARD k => (m, RInt (Z.of_nat (size (set_at m k))))
  | LPUSH k v =>
      (put k (RList (v :: list_at m k)) m, RInt (Z.of_nat (Datatypes.S (length (list_at m k)))))
  | LREM k _ v => (put k (RList (remove_first v (list_at m k))) m, RInt (bit (v ∈ list_at m k)))
  | LRANGE k start stop => (m, RArr (lrange start stop (list_at m k)))
  | LLEN k => (m, RInt (Z.of_nat (length (list_at m k))))
  end.

(** The expiry table after a command that left [m'] and replied [r]. *)
Definition run_exp (c : command) (r : reply) (m' : keyspace) (s : mem) : gmap string Z :=
  match c, r with
  | SET k _ _ (Some t), ROk => <[k := mclk s + t]> (mexp s)
  | SET k _ _ None, ROk => delete k (mexp s)
  | PEXPIRE k ms, _ => if decide (is_Some (mks s !! k)) then <[k := mclk s + ms]> (mexp s) else mexp s
  | _, _ => if decide (m' !! cmd_key c = None) then delete (cmd_key c) (mexp s) else mexp s
  end.

Definition mem_exec (c : command) (s : mem) : mem * reply :=
  if decide (typed_cmd (mks s) c) then
    let '(m', r) := run_cmd c (mks s) in
    match r with
    | RErr _ => (s, r)
    | _ => (Mem m' (run_exp c r m' s) (mclk s) (mreq s), r)
    end
  else (s, RErr "WRONGTYPE Operation against a key holding the wrong kind of value").

Definition mem_advance (d : Z) (s : mem) : mem :=
  Mem (filter (λ p, mclk s + d < default (mclk s + d + 1) (mexp s !! p.1)) (mks s))
    (filter (λ p, mclk s + d < p.2) (mexp s)) (mclk s + d) (mreq s).

(** [net n] is the fate of the [n]th request. *)
Definition mem_redis (net : nat → delivery) : Redis mem := {|
  exec := mem_exec;
  transport s := (Mem (mks s) (mexp s) (mclk s) (Datatypes.S (mreq s)), net (mreq s));
  ks := mks;
  expires := mexp;
  clock := mclk;
  advance := mem_advance;
  tonumber s := match ParseInt s with (z, true) => Some z | _ => None end;
  tostring := dec;
  ladd := Z.add
|}.

(** A server behind a network that never fails. *)
#[export] Instance quiet_redis : Redis mem := mem_redis (λ _, Replied 0).

#[export] Instance quiet_reliable : Reliable mem.
Proof. done. Qed.

Section Laws.
Context (net : nat → delivery).
#[local] Instance here : Redis mem := mem_redis net.

(** A command on a key of the right type that does not fail. *)
Lemma mem_runs c (s : mem) m' r :
  typed_cmd (mks s) c → run_cmd c (mks s) = (m', r) → (∀ msg, r ≠ RErr msg) → runs c s m' r.
Proof.
  intros Ht Hr Hne. unfold runs. cbn. unfold mem_exec. rewrite decide_True, Hr by done.
  by destruct r as [| | | | |msg]; try done; destruct (Hne msg).
Qed.

Lemma mem_error c (s : mem) msg : (mem_exec c s).2 = RErr msg → (mem_exec c s).1 = s.
Proof.
  unfold mem_exec. case_decide; [|done]. destruct (run_cmd c (mks s)) as [m' []]; done.
Qed.

Lemma ParseInt_safe z : safe_int z → ParseInt (dec z) = (z, true).
Proof. intros. apply ParseInt_dec. eauto with winter. Qed.

Ltac by_run :=
  intros; apply mem_runs; [done|cbn [run_cmd]; rewrite ?ParseInt_safe by done; try done|try done].

Lemma mem_SET s k v (nx : bool) px : (∀ t, px = Some t → 0 < t) →
  runs (SET k v nx px) s
    (if nx && bool_decide (is_Some (mks s !! k)) then mks s else put k (RStr v) (mks s))
    (if nx && bool_decide (is_Some (mks s !! k)) then RNil else ROk).
Proof.
  intros Hpx. apply mem_runs; [done| |by case_match]. cbn [run_cmd].
  assert (match px with Some t => bool_decide (t ≤ 0) | None => false end = false) as ->.
  { destruct px as [t|]; [|done]. specialize (Hpx t eq_refl). apply bool_decide_eq_false. lia. }
  by destruct (nx && bool_decide (is_Some (mks s !! k))).
Qed.

Lemma mem_laws_error s c msg : (exec c s).2 = RErr msg → ks (exec c s).1 = ks s.
Proof. intros Hm. cbn. by rewrite (mem_error c s msg Hm). Qed.

Lemma lookup_put_other (m : keyspace) k k' v : k' ≠ k → put k v m !! k' = m !! k'.
Proof. intros. unfold put. case_match; by rewrite ?lookup_delete_ne, ?lookup_insert_ne. Qed.

Lemma run_cmd_other c m k : k ≠ cmd_key c → (run_cmd c m).1 !! k = m !! k.
Proof.
  intros Hk. destruct c; cbn [run_cmd cmd_key] in *; repeat case_match; cbn [fst];
    rewrite ?lookup_put_other, ?lookup_delete_ne by done; done.
Qed.

Lemma mem_other s c k : k ≠ cmd_key c → mks (mem_exec c s).1 !! k = mks s !! k.
Proof.
  intros Hk. unfold mem_exec. case_decide; [|done].
  pose proof (run_cmd_other c (mks s) k Hk) as Ho. by destruct (run_cmd c (mks s)) as [m' []].
Qed.

Lemma lookup_put_same (m : keyspace) k v v' : put k v m !! k = Some v' → v' = v.
Proof. unfold put. case_match; [by rewrite lookup_delete_eq|]. rewrite lookup_insert_eq. by intros [= <-]. Qed.

Lemma run_cmd_writes c m v : (run_cmd c m).1 !! cmd_key c = Some v → m !! cmd_key c = Some v ∨ may_write c v.
Proof.
  destruct c; cbn [run_cmd cmd_key]; repeat case_match; cbn [fst]; try (by left);
    try (intros ->%lookup_put_same; by right); by rewrite lookup_delete_eq.
Qed.

Lemma mem_writes s c v : mks (mem_exec c s).1 !! cmd_key c = Some v →
  mks s !! cmd_key c = Some v ∨ may_write c v.
Proof.
  unfold mem_exec. case_decide; [|by left]. pose proof (run_cmd_writes c (mks s) v) as Hw.
  destruct (run_cmd c (mks s)) as [m' []]; cbn in *; auto.
Qed.

Lemma mem_clock s c : clock (exec c s).1 = clock s.
Proof.
  cbn. unfold mem_exec. case_decide; [|done].
  destruct (run_cmd c (mks s)) as [m' []]; done.
Qed.

Lemma mem_ttl_other s c k : k ≠ cmd_key c → mexp (mem_exec c s).1 !! k = mexp s !! k.
Proof.
  intros Hk. unfold mem_exec. case_decide; [|done].
  destruct (run_cmd c (mks s)) as [m' r]. destruct r; try done; cbn;
    destruct c; cbn in *; repeat case_match; cbn in *;
    rewrite ?lookup_insert_ne, ?lookup_delete_ne by done; done.
Qed.

Lemma mem_ttl_keep s c : match c with SET _ _ _ _ | PEXPIRE _ _ => False | _ => True end →
  mexp s !! cmd_key c = None → mexp (mem_exec c s).1 !! cmd_key c = None.
Proof.
  intros Hc He. unfold mem_exec. case_decide; [|done].
  destruct (run_cmd c (mks s)) as [m' r]. destruct r; try done; cbn;
    destruct c; try done; cbn in *; repeat case_match; try done; apply lookup_delete_eq.
Qed.

Lemma mem_ttl_alter s c : match c with SET _ _ false _ | PEXPIRE _ _ => False | _ => True end →
  is_Some (mks s !! cmd_key c) → is_Some (mks (mem_exec c s).1 !! cmd_key c) →
  mexp (mem_exec c s).1 !! cmd_key c = mexp s !! cmd_key c.
Proof.
  intros Hc Hold. unfold mem_exec. case_decide; [|done].
  destruct (run_cmd c (mks s)) as [m' r] eqn:Hr. destruct r; try done; cbn; intros [v Hv];
    destruct c as [| |k x [] px| | | | | | | | | | | | | | | | | | | | | |]; try done; cbn in *;
    try by rewrite decide_False by congruence.
  all: rewrite (bool_decide_eq_true_2 _ Hold) in Hr; destruct px as [t|]; try by rewrite decide_False by congruence.
  all: by case_bool_decide || done.
Qed.

Lemma mem_advance_lookup s d k :
  mks (mem_advance d s) !! k =
    match mexp s !! k with
    | Some t => if decide (t ≤ mclk s + d) then None else mks s !! k
    | None => mks s !! k
    end.
Proof.
  cbn. destruct (mks s !! k) as [v|] eqn:Hv.
  - destruct (mexp s !! k) as [t|] eqn:Ht.
    + case_decide.
      * apply map_lookup_filter_None. right. intros v' _. cbn. rewrite Ht. cbn. lia.
      * apply map_lookup_filter_Some. split; [done|]. cbn. rewrite Ht. cbn. lia.
    + apply map_lookup_filter_Some. split; [done|]. cbn. rewrite Ht. cbn. lia.
  - assert (filter (λ p : string * rval, mclk s + d < default (mclk s + d + 1) (mexp s !! p.1))
              (mks s) !! k = None) as -> by (apply map_lookup_filter_None; by left).
    by repeat case_match.
Qed.

#[export] Instance mem_laws : RedisLaws mem.
Proof.
  split.
  - exact mem_laws_error.
  - intros s c Ht. cbn. unfold mem_exec. rewrite decide_False by done. eauto.
  - exact mem_other.
  - exact mem_writes.
  - by_run.
  - by_run. by destruct (str_at _ k).
  - intros. by apply (mem_SET s k v false px).
  - intros s k v px Hpx. pose proof (mem_SET s k v true px Hpx) as Hr. cbn in Hr |- *.
    by case_bool_decide; [rewrite !decide_True by done|rewrite !decide_False by done].
  - by_run.
  - by_run.
  - intros s k n Ht Hn Hr. apply mem_runs; [done| |done]. cbn [run_cmd].
    cbn in Hn. by rewrite Hn, decide_True by done.
  - intros s k Hc. cbn in *. unfold mem_exec. case_decide; [|eauto]. cbn [run_cmd].
    destruct (counter_of _) as [n|]; [rewrite decide_False by done|]; cbn; eauto.
  - intros s k fvs Ht Hne. exists 0. apply mem_runs; [done| |done]. cbn [run_cmd].
    by rewrite decide_False by done.
  - intros s k f v Ht. apply mem_runs; [done| |done]. cbn [run_cmd]. cbn.
    case_decide as Hd; unfold bit, b2z.
    + by rewrite bool_decide_eq_false_2 by (intros E; rewrite E in Hd; by destruct Hd).
    + by rewrite bool_decide_eq_true_2 by (by apply eq_None_not_Some).
  - by_run. by destruct (hash_at _ k !! f).
  - intros s k Ht. eexists. split; [reflexivity|]. by apply mem_runs.
  - intros s k f d n Ht Hn Hr. apply mem_runs; [done| |done]. cbn [run_cmd].
    cbn in Hn. by rewrite Hn, decide_True by done.
  - intros s k f d Hc. cbn in *. unfold mem_exec. case_decide; [|eauto]. cbn [run_cmd].
    destruct (counter_of _) as [n|]; [rewrite decide_False by done|]; cbn; eauto.
  - by_run.
  - by_run.
  - by_run.
  - by_run.
  - intros s k Ht. cbn. destruct (zsorted (zset_at (mks s) k)) as [|[x z] l] eqn:Hz.
    + apply mem_runs; [done| |done]. cbn [run_cmd]. by rewrite Hz.
    + exists (dec z). apply mem_runs; [done| |done]. cbn [run_cmd]. by rewrite Hz.
  - by_run.
  - by_run.
  - by_run.
  - by_run.
  - by_run.
  - by_run.
  - by_run.
  - by_run.
  - by_run.
  - exact mem_clock.
  - intros s k v nx px. cbn. unfold mem_exec. case_decide; [|done].
    destruct (run_cmd (SET k v nx px) (mks s)) as [m' r]. by destruct r, px.
  - intros s k ms Hms Hk. cbn. unfold mem_exec. rewrite decide_True by done. cbn.
    by rewrite decide_True by done.
  - exact mem_ttl_other.
  - exact mem_ttl_keep.
  - exact mem_ttl_alter.
  - done.
  - intros s d k _. apply mem_advance_lookup.
  - done.
  - done.
  - intros z Hz. cbn. by rewrite ParseInt_safe.
  - done.
  - done.
Qed.
End Laws.

#[export] Instance quiet_laws : RedisLaws mem := mem_laws _.
