(* ===== verification/Keyspace.v ===== *)
(** * Keyspace: reasoning about the contents

    How the accessors see through updates, the tactics [keys_ne] and [ks_simp]
    that decide which keys are which, the well-formedness invariant [wf_store]
    of the program's contents and its preservation by each elementary update. *)
From S2P Require Import Prelude Keys Redis Lua.

Open Scope string_scope.
Open Scope Z_scope.

(** ** Accessors and updates *)

Lemma lookup_put_ne m k k' v : k ≠ k' → put k v m !! k' = m !! k'.
Proof. intros. unfold put. destruct (vacuous v); [by rewrite lookup_delete_ne|by rewrite lookup_insert_ne]. Qed.

Lemma lookup_put_eq m k v : put k v m !! k = if vacuous v then None else Some v.
Proof. unfold put. destruct (vacuous v); [apply lookup_delete_eq|apply lookup_insert_eq]. Qed.

Lemma hash_at_put_eq m k h : hash_at (put k (RHash h) m) k = h.
Proof. unfold hash_at. rewrite lookup_put_eq. cbn. by case_bool_decide. Qed.
Lemma zset_at_put_eq m k z : zset_at (put k (RZset z) m) k = z.
Proof. unfold zset_at. rewrite lookup_put_eq. cbn. by case_bool_decide. Qed.
Lemma set_at_put_eq m k x : set_at (put k (RSet x) m) k = x.
Proof. unfold set_at. rewrite lookup_put_eq. cbn. by case_bool_decide. Qed.
Lemma list_at_put_eq m k l : list_at (put k (RList l) m) k = l.
Proof. unfold list_at. rewrite lookup_put_eq. cbn. by case_bool_decide. Qed.
Lemma str_at_put_eq m k s : str_at (put k (RStr s) m) k = Some s.
Proof. unfold str_at. by rewrite lookup_put_eq. Qed.

Section Frame.
Context (m : keyspace) (k k' : string) (v : rval) (Hne : k ≠ k').
Lemma hash_at_put_ne : hash_at (put k v m) k' = hash_at m k'.
Proof. unfold hash_at. by rewrite lookup_put_ne. Qed.
Lemma zset_at_put_ne : zset_at (put k v m) k' = zset_at m k'.
Proof. unfold zset_at. by rewrite lookup_put_ne. Qed.
Lemma set_at_put_ne : set_at (put k v m) k' = set_at m k'.
Proof. unfold set_at. by rewrite lookup_put_ne. Qed.
Lemma list_at_put_ne : list_at (put k v m) k' = list_at m k'.
Proof. unfold list_at. by rewrite lookup_put_ne. Qed.
Lemma str_at_put_ne : str_at (put k v m) k' = str_at m k'.
Proof. unfold str_at. by rewrite lookup_put_ne. Qed.
Lemma hash_at_delete_ne : hash_at (delete k m) k' = hash_at m k'.
Proof. unfold hash_at. by rewrite lookup_delete_ne. Qed.
Lemma zset_at_delete_ne : zset_at (delete k m) k' = zset_at m k'.
Proof. unfold zset_at. by rewrite lookup_delete_ne. Qed.
Lemma set_at_delete_ne : set_at (delete k m) k' = set_at m k'.
Proof. unfold set_at. by rewrite lookup_delete_ne. Qed.
Lemma list_at_delete_ne : list_at (delete k m) k' = list_at m k'.
Proof. unfold list_at. by rewrite lookup_delete_ne. Qed.
Lemma str_at_delete_ne : str_at (delete k m) k' = str_at m k'.
Proof. unfold str_at. by rewrite lookup_delete_ne. Qed.
End Frame.

(** Accessors depend on the value at their key only. *)
Lemma hash_at_ext m m' k : m !! k = m' !! k → hash_at m k = hash_at m' k.
Proof. unfold hash_at. by intros ->. Qed.
Lemma zset_at_ext m m' k : m !! k = m' !! k → zset_at m k = zset_at m' k.
Proof. unfold zset_at. by intros ->. Qed.
Lemma set_at_ext m m' k : m !! k = m' !! k → set_at m k = set_at m' k.
Proof. unfold set_at. by intros ->. Qed.
Lemma list_at_ext m m' k : m !! k = m' !! k → list_at m k = list_at m' k.
Proof. unfold list_at. by intros ->. Qed.
Lemma str_at_ext m m' k : m !! k = m' !! k → str_at m k = str_at m' k.
Proof. unfold str_at. by intros ->. Qed.

Lemma hash_at_delete_eq m k : hash_at (delete k m) k = ∅.
Proof. unfold hash_at. by rewrite lookup_delete_eq. Qed.
Lemma list_at_delete_eq m k : list_at (delete k m) k = [].
Proof. unfold list_at. by rewrite lookup_delete_eq. Qed.
Lemma str_at_delete_eq m k : str_at (delete k m) k = None.
Proof. unfold str_at. by rewrite lookup_delete_eq. Qed.

Lemma has_type_put m k k' v t :
  has_type m k' t → (k = k' → type_of v = t) → has_type (put k v m) k' t.
Proof.
  intros Hm Hv. unfold has_type. destruct (decide (k = k')) as [->|Hne].
  - rewrite lookup_put_eq. destruct (vacuous v); [done|]. by apply Hv.
  - by rewrite lookup_put_ne.
Qed.

Lemma has_type_delete m k k' t : has_type m k' t → has_type (delete k m) k' t.
Proof.
  intros Hm. unfold has_type. destruct (decide (k = k')) as [->|Hne].
  - by rewrite lookup_delete_eq.
  - by rewrite lookup_delete_ne.
Qed.

(** ** Telling keys apart *)

Create HintDb wf discriminated.

Ltac reify_key k :=
  lazymatch k with
  | readyKey ?q => constr:(KReady q)
  | delayedKey ?q => constr:(KDelayed q)
  | activeKey ?q => constr:(KActive q)
  | deadKey ?q => constr:(KDead q)
  | pausedKey ?q => constr:(KPaused q)
  | leaseKey ?q => constr:(KLease q)
  | statsKey ?q => constr:(KStats q)
  | jobKey ?id => constr:(KJob id)
  | resultKey ?id => constr:(KResult id)
  | workerJobsKey ?w => constr:(KWorkerJobs w)
  | uniqueKey ?u => constr:(KUnique u)
  | workflowKey ?id => constr:(KWorkflow id)
  | depsKey ?id => constr:(KDeps id)
  | counterKey ?id => constr:(KCounter id)
  | bucketKey ?kind => constr:(KRate kind)
  | workersKey => constr:(KWorkers)
  | cronKey => constr:(KCron)
  | render ?k => k
  end.

Ltac wf_key_solve := first [assumption | exact I | solve [cbn [wf_key]; eauto with wf]].

(** Proves that two keys differ, from the shape of their names. *)
Ltac keys_ne :=
  lazymatch goal with
  | |- ?a ≠ ?b =>
      first
        [ assumption
        | apply not_eq_sym; assumption
        | let x := reify_key a in
          let y := reify_key b in
          change (render x ≠ render y);
          apply render_ne; [wf_key_solve|wf_key_solve|congruence] ]
  end.

(** Evaluates accessors on updated contents. *)
Ltac ks_step :=
  match goal with
  | |- context [hash_at (put ?k (RHash ?h) ?m) ?k] => rewrite (hash_at_put_eq m k h)
  | |- context [zset_at (put ?k (RZset ?z) ?m) ?k] => rewrite (zset_at_put_eq m k z)
  | |- context [set_at (put ?k (RSet ?x) ?m) ?k] => rewrite (set_at_put_eq m k x)
  | |- context [list_at (put ?k (RList ?l) ?m) ?k] => rewrite (list_at_put_eq m k l)
  | |- context [str_at (put ?k (RStr ?s) ?m) ?k] => rewrite (str_at_put_eq m k s)
  | |- context [hash_at (put ?k ?v ?m) ?k'] => rewrite (hash_at_put_ne m k k' v) by keys_ne
  | |- context [zset_at (put ?k ?v ?m) ?k'] => rewrite (zset_at_put_ne m k k' v) by keys_ne
  | |- context [set_at (put ?k ?v ?m) ?k'] => rewrite (set_at_put_ne m k k' v) by keys_ne
  | |- context [list_at (put ?k ?v ?m) ?k'] => rewrite (list_at_put_ne m k k' v) by keys_ne
  | |- context [str_at (put ?k ?v ?m) ?k'] => rewrite (str_at_put_ne m k k' v) by keys_ne
  | |- context [hash_at (delete ?k ?m) ?k] => rewrite (hash_at_delete_eq m k)
  | |- context [list_at (delete ?k ?m) ?k] => rewrite (list_at_delete_eq m k)
  | |- context [str_at (delete ?k ?m) ?k] => rewrite (str_at_delete_eq m k)
  | |- context [hash_at (delete ?k ?m) ?k'] => rewrite (hash_at_delete_ne m k k') by keys_ne
  | |- context [zset_at (delete ?k ?m) ?k'] => rewrite (zset_at_delete_ne m k k') by keys_ne
  | |- context [set_at (delete ?k ?m) ?k'] => rewrite (set_at_delete_ne m k k') by keys_ne
  | |- context [list_at (delete ?k ?m) ?k'] => rewrite (list_at_delete_ne m k k') by keys_ne
  | |- context [str_at (delete ?k ?m) ?k'] => rewrite (str_at_delete_ne m k k') by keys_ne
  | |- context [put ?k ?v ?m !! ?k'] => rewrite (lookup_put_ne m k k' v) by keys_ne
  | |- context [delete ?k ?m !! ?k'] => rewrite (lookup_delete_ne m k k') by keys_ne
  end.
Ltac ks_simp := repeat ks_step.

(** ** Well-formed contents *)

(** A canonical decimal numeral of a 64-bit integer; one a double holds exactly. *)
Definition numeral64 (v : string) : Prop := dec (ParseInt v).1 = v.
Definition numeral_safe (v : string) : Prop := numeral64 v ∧ safe_int (ParseInt v).1.

#[export] Instance numeral64_dec v : Decision (numeral64 v).
Proof. unfold numeral64. apply _. Defined.
#[export] Instance numeral_safe_dec v : Decision (numeral_safe v).
Proof. unfold numeral_safe. apply _. Defined.

Lemma numeral64_iff v : numeral64 v ↔ ∃ n, in_int64 n ∧ v = dec n.
Proof.
  split.
  - intros Hv. exists (ParseInt v).1. split; [apply ParseInt_range|by rewrite Hv].
  - intros (n & Hn & ->). unfold numeral64. by rewrite ParseInt_dec.
Qed.

Lemma numeral_safe_iff v : numeral_safe v ↔ ∃ n, safe_int n ∧ v = dec n.
Proof.
  split.
  - intros [Hv Hs]. exists (ParseInt v).1. by rewrite Hv.
  - intros (n & Hn & ->). unfold numeral_safe, numeral64.
    by rewrite ParseInt_dec by eauto with winter.
Qed.

Lemma numeral64_dec_z n : in_int64 n → numeral64 (dec n).
Proof. intros. apply numeral64_iff. eauto. Qed.
Lemma numeral_safe_dec_z n : safe_int n → numeral_safe (dec n).
Proof. intros. apply numeral_safe_iff. eauto. Qed.

(** What the fields the scripts compute with must look like in a job hash. *)
Definition field_ok (f v : string) : Prop :=
  if decide (f = "unique_key") then v = "" ∨ is_Some (cut_prefix "winter:unique:" v)
  else if decide (f ∈ ["priority"; "max_retries"]) then numeral_safe v
  else if decide (f = "attempt") then numeral64 v
  else if decide (f = "id") then wf_id v
  else if decide (f = "queue") then wf_queue v
  else if decide (f = "workflow_id") then wf_wfid v
  else True.

#[export] Instance field_ok_dec f v : Decision (field_ok f v).
Proof. unfold field_ok. repeat case_decide; apply _. Defined.

(** The type of value a key holds, and what its contents must satisfy. *)
Definition val_ok (k : rkey) (v : rval) : Prop :=
  match k, v with
  | (KReady _ | KDelayed _ | KLease _), RZset z => map_Forall (λ id _, wf_id id) z
  | KActive _, RSet x => set_Forall wf_id x
  | KDead _, RList l => Forall wf_id l
  | KJob _, RHash h => map_Forall field_ok h
  | KStats _, RHash h => map_Forall (λ _ v, numeral64 v) h
  | KCounter _, RStr v => numeral64 v
  | (KPaused _ | KResult _ | KUnique _ | KWorkflow _), RStr _ => True
  | (KWorkerJobs _ | KDeps _), RSet _ => True
  | (KRate _ | KWorkers | KCron), RHash _ => True
  | _, _ => False
  end.

#[export] Instance val_ok_dec k v : Decision (val_ok k v).
Proof. destruct k, v; cbn; apply _. Defined.

Definition key_type (k : rkey) : rty :=
  match k with
  | KReady _ | KDelayed _ | KLease _ => TZset
  | KActive _ | KWorkerJobs _ | KDeps _ => TSet
  | KDead _ => TList
  | KJob _ | KStats _ | KRate _ | KWorkers | KCron => THash
  | KPaused _ | KResult _ | KUnique _ | KWorkflow _ | KCounter _ => TStr
  end.

(** Every key of the program holds a value of its kind. *)
Definition wf_store (m : keyspace) : Prop :=
  ∀ k v, wf_key k → m !! render k = Some v → val_ok k v.

(** An executable sufficient condition. *)
Definition check_store (m : keyspace) : Prop :=
  map_Forall (λ s v, match unrender s with Some k => val_ok k v | None => True end) m.

#[export] Instance check_store_dec m : Decision (check_store m).
Proof.
  unfold check_store. apply map_Forall_dec. intros s v. destruct (unrender s); apply _.
Defined.

Lemma check_store_wf m : check_store m → wf_store m.
Proof.
  intros Hc k v Hk Hv. specialize (Hc _ _ Hv). cbn in Hc. by rewrite unrender_render in Hc.
Qed.

Lemma wf_store_empty : wf_store ∅.
Proof. intros k v _ Hv. by rewrite lookup_empty in Hv. Qed.

Lemma val_ok_type k v : val_ok k v → type_of v = key_type k.
Proof. by destruct k, v. Qed.

Lemma wf_has_type m k : wf_store m → wf_key k → has_type m (render k) (key_type k).
Proof.
  intros Hm Hk. unfold has_type. destruct (m !! render k) eqn:Hv; [|done].
  by apply val_ok_type, Hm.
Qed.

Lemma wf_store_put m k v : wf_store m → wf_key k → val_ok k v → wf_store (put (render k) v m).
Proof.
  intros Hm Hk Hv k' v' Hk' Hl. destruct (decide (k = k')) as [->|Hne].
  - rewrite lookup_put_eq in Hl. destruct (vacuous v); [done|]. by injection Hl as <-.
  - rewrite lookup_put_ne in Hl by (by apply render_ne). by apply Hm.
Qed.

Lemma wf_store_delete m s : wf_store m → wf_store (delete s m).
Proof.
  intros Hm k v Hk Hl. apply lookup_delete_Some in Hl as [_ Hl]. by apply Hm.
Qed.

(** What well-formedness says through the accessors. *)
Section Access.
Context (m : keyspace) (Hm : wf_store m).

Lemma wf_job id : wf_id id → map_Forall field_ok (hash_at m (jobKey id)).
Proof.
  intros Hid. unfold hash_at. destruct (m !! jobKey id) as [[]|] eqn:Hv; try done.
  by apply (Hm (KJob id)) in Hv.
Qed.

Lemma wf_stats q : wf_queue q → map_Forall (λ _ v, numeral64 v) (hash_at m (statsKey q)).
Proof.
  intros Hq. unfold hash_at. destruct (m !! statsKey q) as [[]|] eqn:Hv; try done.
  by apply (Hm (KStats q)) in Hv.
Qed.

Lemma wf_zset k : wf_key k →
  match k with KReady _ | KDelayed _ | KLease _ => True | _ => False end →
  map_Forall (λ id _, wf_id id) (zset_at m (render k)).
Proof.
  intros Hk Hz. unfold zset_at. destruct (m !! render k) as [[]|] eqn:Hv; try done.
  apply Hm in Hv; [|done]. by destruct k.
Qed.

Lemma wf_active q : wf_queue q → set_Forall wf_id (set_at m (activeKey q)).
Proof.
  intros Hq. unfold set_at. destruct (m !! activeKey q) as [[]|] eqn:Hv; try done.
  by apply (Hm (KActive q)) in Hv.
Qed.

Lemma wf_dead q : wf_queue q → Forall wf_id (list_at m (deadKey q)).
Proof.
  intros Hq. unfold list_at. destruct (m !! deadKey q) as [[]|] eqn:Hv; try done.
  by apply (Hm (KDead q)) in Hv.
Qed.
End Access.

(** ** The elementary updates of the scripts, as functions on contents *)

Definition zadd (k x : string) (z : Z) (m : keyspace) : keyspace :=
  put k (RZset (<[x := z]> (zset_at m k))) m.
Definition zrem (k x : string) (m : keyspace) : keyspace :=
  put k (RZset (delete x (zset_at m k))) m.
Definition sadd (k x : string) (m : keyspace) : keyspace :=
  put k (RSet ({[x]} ∪ set_at m k)) m.
Definition srem (k x : string) (m : keyspace) : keyspace :=
  put k (RSet (set_at m k ∖ {[x]})) m.
Definition hset (k : string) (fvs : list (string * string)) (m : keyspace) : keyspace :=
  put k (RHash (hset_all fvs (hash_at m k))) m.
Definition lpush (k x : string) (m : keyspace) : keyspace :=
  put k (RList (x :: list_at m k)) m.
Definition lrem (k x : string) (m : keyspace) : keyspace :=
  put k (RList (remove_first x (list_at m k))) m.

(** Named updates are compared by name first, unfolded last. *)
#[global] Strategy 1000 [zadd zrem sadd srem hset lpush lrem].
#[global] Strategy 2000 [put hash_at zset_at set_at list_at str_at hset_all has_type].

Ltac ks_unfold := unfold zadd, zrem, sadd, srem, hset, lpush, lrem.
Ltac ks_hook := fail.
Ltac ks_simp ::= ks_unfold; repeat first [ks_step | ks_hook].

Lemma hset_all_Forall (P : string → string → Prop) fvs h :
  Forall (λ fv, P fv.1 fv.2) fvs → map_Forall P h → map_Forall P (hset_all fvs h).
Proof.
  intros Hf. revert h. induction Hf as [|[f v] fvs Hv _ IH]; intros h Hh; [done|].
  cbn. apply IH. by apply map_Forall_insert_2.
Qed.

Definition is_zkey (k : rkey) : Prop :=
  match k with KReady _ | KDelayed _ | KLease _ => True | _ => False end.
Definition is_skey (k : rkey) : Prop :=
  match k with KWorkerJobs _ | KDeps _ => True | _ => False end.

Lemma remove_first_sub x l y : y ∈ remove_first x l → y ∈ l.
Proof.
  induction l as [|z l IH]; [done|]. cbn. case_decide; set_solver.
Qed.

Lemma remove_first_not x l : x ∉ l → remove_first x l = l.
Proof.
  induction l as [|z l IH]; [done|]. rewrite not_elem_of_cons. intros [Hx Hl]. cbn.
  rewrite decide_False by done. by rewrite IH.
Qed.

Lemma remove_first_elem (x i : string) l : i ≠ x → i ∈ remove_first x l ↔ i ∈ l.
Proof.
  intros Hne. induction l as [|y l IH]; [done|]. cbn. case_decide as Hy.
  - rewrite elem_of_cons. naive_solver.
  - rewrite !elem_of_cons. naive_solver.
Qed.

Lemma remove_first_NoDup x l : NoDup l → NoDup (remove_first x l) ∧ x ∉ remove_first x l.
Proof.
  intros Hl. induction Hl as [|y l Hy Hl [IH1 IH2]]; cbn; [by split; [constructor|apply not_elem_of_nil]|].
  case_decide as Hd; [by subst|]. split.
  - constructor; [|done]. intros Hin. by apply remove_first_sub in Hin.
  - rewrite not_elem_of_cons. split; [congruence|done].
Qed.

Section WfUpdates.
Context (m : keyspace) (Hm : wf_store m).

Lemma wf_zadd k x z : wf_key k → is_zkey k → wf_id x → wf_store (zadd (render k) x z m).
Proof.
  intros Hk Hz Hx. apply wf_store_put; [done|done|].
  pose proof (wf_zset m Hm k Hk Hz). by destruct k; try done; apply map_Forall_insert_2.
Qed.

Lemma wf_zrem k x : wf_key k → is_zkey k → wf_store (zrem (render k) x m).
Proof.
  intros Hk Hz. apply wf_store_put; [done|done|].
  pose proof (wf_zset m Hm k Hk Hz). by destruct k; try done; apply map_Forall_delete.
Qed.

Lemma wf_sadd_active q x : wf_queue q → wf_id x → wf_store (sadd (activeKey q) x m).
Proof.
  intros Hq Hx. apply (wf_store_put m (KActive q)); [done|done|].
  pose proof (wf_active m Hm q Hq). cbn.
  apply set_Forall_union; [by apply set_Forall_singleton|done].
Qed.

Lemma wf_srem_active q x : wf_queue q → wf_store (srem (activeKey q) x m).
Proof.
  intros Hq. apply (wf_store_put m (KActive q)); [done|done|].
  intros y Hy. apply (wf_active m Hm q Hq). set_solver.
Qed.

Lemma wf_sadd k x : wf_key k → is_skey k → wf_store (sadd (render k) x m).
Proof. intros Hk Hs. apply wf_store_put; [done|done|]. by destruct k. Qed.

Lemma wf_srem k x : wf_key k → is_skey k → wf_store (srem (render k) x m).
Proof. intros Hk Hs. apply wf_store_put; [done|done|]. by destruct k. Qed.

Lemma wf_hset_job id fvs : wf_id id → Forall (λ fv, field_ok fv.1 fv.2) fvs →
  wf_store (hset (jobKey id) fvs m).
Proof.
  intros Hid Hf. apply (wf_store_put m (KJob id)); [done|done|].
  apply hset_all_Forall; [done|by apply wf_job].
Qed.

Lemma wf_hset_stats q fvs : wf_queue q → Forall (λ fv, numeral64 fv.2) fvs →
  wf_store (hset (statsKey q) fvs m).
Proof.
  intros Hq Hf. apply (wf_store_put m (KStats q)); [done|done|].
  apply (hset_all_Forall (λ _ v, numeral64 v)); [done|by apply wf_stats].
Qed.

Lemma wf_lpush q x : wf_queue q → wf_id x → wf_store (lpush (deadKey q) x m).
Proof.
  intros Hq Hx. apply (wf_store_put m (KDead q)); [done|done|].
  apply Forall_cons. split; [done|by apply wf_dead].
Qed.

Lemma wf_lrem q x : wf_queue q → wf_store (lrem (deadKey q) x m).
Proof.
  intros Hq. apply (wf_store_put m (KDead q)); [done|done|].
  pose proof (wf_dead m Hm q Hq) as Hd. rewrite Forall_forall in Hd.
  apply Forall_forall. intros y Hy. by eapply Hd, remove_first_sub.
Qed.
End WfUpdates.

(** HINCRBY of a counter is an hset of its new numeral. *)
Lemma put_hset1 k f v m : put k (RHash (<[f := v]> (hash_at m k))) m = hset k [(f, v)] m.
Proof. done. Qed.

(** ** Executing scripts symbolically *)

Ltac safe_solve := first [assumption | unfold safe_int in *; lia].

Ltac typed :=
  ks_unfold;
  repeat first
    [ apply has_type_put; [|intros _; reflexivity]
    | apply has_type_put; [|let E := fresh in intros E; exfalso; apply (fun H : _ ≠ _ => H E); keys_ne]
    | apply has_type_delete ];
  lazymatch goal with
  | |- has_type _ ?k ?t =>
      let x := reify_key k in apply (wf_has_type _ x); [assumption|wf_key_solve]
  end.

Ltac fold_job_keys :=
  repeat match goal with
  | |- context ["winter:job:" +:+ ?id] => change ("winter:job:" +:+ id) with (jobKey id)
  end.

(** Proves that contents built by updates are well formed. *)
Ltac wf_chain :=
  repeat first
    [ assumption
    | lazymatch goal with
      | |- wf_store (zadd ?kk ?x ?z ?m) => let k' := reify_key kk in refine (wf_zadd m _ k' _ _ _ _ _)
      | |- wf_store (zrem ?kk ?x ?m) => let k' := reify_key kk in refine (wf_zrem m _ k' _ _ _)
      | |- wf_store (sadd (activeKey _) _ _) => apply wf_sadd_active
      | |- wf_store (srem (activeKey _) _ _) => apply wf_srem_active
      | |- wf_store (sadd ?kk ?x ?m) => let k' := reify_key kk in refine (wf_sadd m _ k' _ _ _)
      | |- wf_store (srem ?kk ?x ?m) => let k' := reify_key kk in refine (wf_srem m _ k' _ _ _)
      | |- wf_store (hset (jobKey _) _ _) => apply wf_hset_job
      | |- wf_store (hset (statsKey _) _ _) => apply wf_hset_stats
      | |- wf_store (lpush _ _ _) => apply wf_lpush
      | |- wf_store (lrem _ _ _) => apply wf_lrem
      | |- wf_store (delete _ _) => apply wf_store_delete
      | |- wf_key _ => wf_key_solve
      | |- is_zkey _ => exact I
      | |- is_skey _ => exact I
      end ].
