(* ===== verification/Job.v ===== *)
(** * Job: the flat job record and its Redis hash

    [internal/queue/job.go] and the two parsers at the end of
    [internal/queue/queue.go]. *)
From S2P Require Import Prelude Redis.

Open Scope string_scope.
Open Scope Z_scope.

(** [queue.JobRecord]; a payload is the string of its bytes. *)
Record JobRecord : Type := {
  ID : string;
  Kind : string;
  Queue : string;
  Priority : Z;
  State : string;
  Payload : string;
  Attempt : Z;
  MaxRetries : Z;
  CreatedAt : Z;
  ScheduledAt : Z;
  StartedAt : Z;
  CompletedAt : Z;
  LastError : string;
  UniqueKey : string;
  WorkflowID : string
}.

#[export] Instance JobRecord_eq_dec : EqDecision JobRecord.
Proof. solve_decision. Defined.

(** [m[field]] on a Go map of strings: a missing field is the empty string. *)
Definition field (m : gmap string string) (f : string) : string := default "" (m !! f).

Definition parseJobRecordFromMap (m : gmap string string) : JobRecord := {|
  ID := field m "id";
  Kind := field m "kind";
  Queue := field m "queue";
  Priority := (Atoi (field m "priority")).1;
  State := field m "state";
  Payload := field m "payload";
  Attempt := (Atoi (field m "attempt")).1;
  MaxRetries := (Atoi (field m "max_retries")).1;
  CreatedAt := (ParseInt (field m "created_at")).1;
  ScheduledAt := (ParseInt (field m "scheduled_at")).1;
  StartedAt := (ParseInt (field m "started_at")).1;
  CompletedAt := (ParseInt (field m "completed_at")).1;
  LastError := field m "last_error";
  UniqueKey := field m "unique_key";
  WorkflowID := field m "workflow_id"
|}.

(** [for i := 0; i < len(vals)-1; i += 2 { m[vals[i]] = vals[i+1] }]: an odd
    last element is ignored, a repeated field takes its last value. *)
Fixpoint pairs_map (vals : list string) (m : gmap string string) : gmap string string :=
  match vals with
  | key :: val :: vals' => pairs_map vals' (<[key := val]> m)
  | _ => m
  end.

Definition parseJobRecord (vals : list string) : JobRecord :=
  parseJobRecordFromMap (pairs_map vals ∅).

(** ** Lemmas *)

Lemma pairs_map_flatten fvs m : pairs_map (flatten fvs) m = hset_all fvs m.
Proof.
  revert m. induction fvs as [|[f v] fvs IH]; intros m; [done|]. cbn. apply IH.
Qed.

Lemma hset_all_lookup fvs m f : NoDup fvs.*1 →
  hset_all fvs m !! f =
    match (list_to_map fvs : gmap string string) !! f with Some v => Some v | None => m !! f end.
Proof.
  revert m. induction fvs as [|[g v] fvs IH]; intros m Hnd; [done|].
  cbn in Hnd. apply NoDup_cons in Hnd as [Hg Hnd]. cbn [hset_all foldl list_to_map fst snd].
  change (foldl _ ?m ?l) with (hset_all l m). rewrite IH by done.
  destruct (decide (g = f)) as [->|Hne]; cbn.
  - rewrite lookup_insert_eq. rewrite (not_elem_of_list_to_map_1 fvs f) by done.
    by rewrite lookup_insert_eq.
  - by rewrite !lookup_insert_ne by done.
Qed.

(** The order in which HGETALL lists the fields does not matter. *)
Lemma pairs_map_hgetall fvs h : fvs ≡ₚ map_to_list h → pairs_map (flatten fvs) ∅ = h.
Proof.
  intros Hp. rewrite pairs_map_flatten. apply map_eq. intros f.
  assert (NoDup fvs.*1) as Hnd by (rewrite Hp; apply NoDup_fst_map_to_list).
  rewrite hset_all_lookup by done.
  rewrite (list_to_map_proper fvs (map_to_list h)) by done.
  rewrite list_to_map_to_list. rewrite lookup_empty. by destruct (h !! f).
Qed.

Lemma parse_hgetall fvs h :
  fvs ≡ₚ map_to_list h → parseJobRecord (flatten fvs) = parseJobRecordFromMap h.
Proof. intros Hp. unfold parseJobRecord. by rewrite (pairs_map_hgetall fvs h). Qed.

Lemma Atoi_dec z : in_int64 z → (Atoi (dec z)).1 = z.
Proof. intros Hz. unfold Atoi. by rewrite ParseInt_dec. Qed.
