(* ===== verification/Scripts.v ===== *)
(** * Scripts: the Lua scripts of [internal/queue/scripts.go]

    One definition per script, its KEYS and ARGV as parameters in the order of
    the source, statement by statement.  Lua's [tonumber] may yield nil, which
    raises where the number is used. *)
From S2P Require Import Prelude Redis Lua.

Open Scope string_scope.
Open Scope Z_scope.

Section Scripts.
Context {S : Type} `{Redis S}.

(** [tonumber(redis.call("HGET", jobKey, "priority")) or 5] *)
Definition priority_or_5 (jobKey : string) : M S string Z :=
  r ← redis_call (HGET jobKey "priority");
  mret (default 5 (reply_number r)).

(** The tail ackScript, nackScript and cancelScript share: drop the unique key
    if this job still owns it. *)
Definition release_unique (jobKey id : string) : M S string unit :=
  uk ← redis_call (HGET jobKey "unique_key");
  match uk with
  | RBulk uk =>
      if decide (uk = "") then mret tt
      else
        owner ← redis_call (GET uk);
        if decide (owner = RBulk id) then redis_call (DEL uk) ;; mret tt else mret tt
  | _ => mret tt
  end.

Definition enqueueScript (jobKey readyKey delayedKey statsKey uniqueKey : string)
    (id kind queue priority state payload maxRetries createdAt scheduledAt uniqueTTL workflowID
      : string) : M S string reply :=
  let priority := tonumber priority in
  let maxRetries := tonumber maxRetries in
  let scheduledAt := tonumber scheduledAt in
  let uniqueTTL := tonumber uniqueTTL in
  (if decide (uniqueKey = "") then mret tt
   else
     ttl ← num uniqueTTL;
     if decide (ttl > 0) then
       set ← redis_call (SET uniqueKey id true (Some (1000 * ttl)));
       if decide (set = RNil) then throw "DUPLICATE" else mret tt
     else mret tt) ;;
  priority ← num priority;
  maxRetries ← num maxRetries;
  scheduled ← num scheduledAt;
  redis_call (HSET jobKey [
    ("id", id);
    ("kind", kind);
    ("queue", queue);
    ("priority", tostring priority);
    ("state", state);
    ("payload", payload);
    ("attempt", tostring 0);
    ("max_retries", tostring maxRetries);
    ("created_at", createdAt);
    ("scheduled_at", tostring scheduled);
    ("started_at", tostring 0);
    ("completed_at", tostring 0);
    ("last_error", "");
    ("unique_key", uniqueKey);
    ("workflow_id", workflowID)]) ;;
  (if decide (scheduled > 0)
   then redis_call (ZADD delayedKey (tostring scheduled) id)
   else redis_call (ZADD readyKey (tostring priority) id)) ;;
  redis_call (HINCRBY statsKey "enqueued" 1) ;;
  mret (RBulk id).

Definition dequeueScript (readyKey activeKey pausedKey workerJobsKey leaseKey : string)
    (workerID now leaseDurationMs : string) : M S string reply :=
  let now := tonumber now in
  let leaseDurationMs := tonumber leaseDurationMs in
  paused ← redis_call (EXISTS pausedKey);
  if decide (paused = RInt 1) then mret RNil
  else
    result ← redis_call (ZPOPMIN readyKey);
    match result with
    | RArr (id :: _) =>
        let jobKey := "winter:job:" +:+ id in
        redis_call (SADD activeKey id) ;;
        now ← num now;
        redis_call (HSET jobKey [("state", "active"); ("started_at", tostring now)]) ;;
        redis_call (SADD workerJobsKey id) ;;
        lease ← num leaseDurationMs;
        redis_call (ZADD leaseKey (tostring (ladd now lease)) id) ;;
        redis_call (HGETALL jobKey)
    | _ => mret RNil
    end.

Definition ackScript (jobKey activeKey statsKey workerJobsKey leaseKey : string)
    (id now : string) : M S string reply :=
  redis_call (SREM activeKey id) ;;
  redis_call (SREM workerJobsKey id) ;;
  redis_call (ZREM leaseKey id) ;;
  redis_call (HSET jobKey [("state", "completed"); ("completed_at", now)]) ;;
  redis_call (HINCRBY statsKey "completed" 1) ;;
  release_unique jobKey id ;;
  mret (RInt 1).

(** nackScript up to its branch: the failure is recorded; the attempt count. *)
Definition nack_record (jobKey activeKey statsKey workerJobsKey leaseKey : string)
    (id errorMsg : string) : M S string reply :=
  redis_call (SREM activeKey id) ;;
  redis_call (SREM workerJobsKey id) ;;
  redis_call (ZREM leaseKey id) ;;
  attempt ← redis_call (HINCRBY jobKey "attempt" 1);
  redis_call (HSET jobKey [("last_error", errorMsg)]) ;;
  redis_call (HINCRBY statsKey "failed" 1) ;;
  mret attempt.

(** [skipRetry == 1 or attempt >= maxRetries]: a missing limit raises unless
    [skipRetry] already decides. *)
Definition nack_choice (skipRetry attempt maxRetries : option Z) : M S string bool :=
  if decide (skipRetry = Some 1) then mret true
  else
    attempt ← num attempt;
    maxRetries ← num maxRetries;
    mret (bool_decide (attempt >= maxRetries)).

(** The branch that gives up. *)
Definition nack_dead (jobKey deadKey statsKey id : string) : M S string reply :=
  redis_call (LPUSH deadKey id) ;;
  redis_call (HSET jobKey [("state", "dead")]) ;;
  redis_call (HINCRBY statsKey "dead_total" 1) ;;
  release_unique jobKey id ;;
  mret (RBulk "dead").

(** The branch that schedules a retry. *)
Definition nack_retry (jobKey delayedKey id : string) (now backoffMs : option Z) : M S string reply :=
  now ← num now;
  backoffMs ← num backoffMs;
  redis_call (ZADD delayedKey (tostring (ladd now backoffMs)) id) ;;
  redis_call (HSET jobKey [("state", "retry")]) ;;
  mret (RBulk "retry").

Definition nackScript
    (jobKey activeKey delayedKey deadKey statsKey workerJobsKey leaseKey : string)
    (id errorMsg backoffMs now skipRetry : string) : M S string reply :=
  let backoffMs := tonumber backoffMs in
  let now := tonumber now in
  let skipRetry := tonumber skipRetry in
  attempt ← nack_record jobKey activeKey statsKey workerJobsKey leaseKey id errorMsg;
  max ← redis_call (HGET jobKey "max_retries");
  let maxRetries := reply_number max in
  dead ← nack_choice skipRetry (reply_number attempt) maxRetries;
  if (dead : bool) then nack_dead jobKey deadKey statsKey id
  else nack_retry jobKey delayedKey id now backoffMs.

Definition rescheduleScript (jobKey activeKey delayedKey workerJobsKey leaseKey : string)
    (id newTimestamp : string) : M S string reply :=
  redis_call (SREM activeKey id) ;;
  redis_call (SREM workerJobsKey id) ;;
  redis_call (ZREM leaseKey id) ;;
  redis_call (ZADD delayedKey newTimestamp id) ;;
  redis_call (HSET jobKey
    [("state", "pending"); ("scheduled_at", newTimestamp); ("started_at", tostring 0)]) ;;
  mret (RInt 1).

Definition cancelScript (jobKey activeKey workerJobsKey leaseKey : string)
    (id now reason : string) : M S string reply :=
  redis_call (SREM activeKey id) ;;
  redis_call (SREM workerJobsKey id) ;;
  redis_call (ZREM leaseKey id) ;;
  redis_call (HSET jobKey
    [("state", "cancelled"); ("completed_at", now); ("last_error", reason)]) ;;
  release_unique jobKey id ;;
  mret (RInt 1).

Definition extendLeaseScript (leaseKey : string) (id newExpiry : string) : M S string reply :=
  newExpiry ← num (tonumber newExpiry);
  redis_call (ZADD_XX leaseKey (tostring newExpiry) id).

(** The loop body of recoverLeasesScript: whether [id] joins [recovered]. *)
Definition recover_one (leaseKey activeKey readyKey id : string) : M S string (list string) :=
  removed ← redis_call (SREM activeKey id);
  if decide (removed = RInt 1) then
    redis_call (ZREM leaseKey id) ;;
    let jobKey := "winter:job:" +:+ id in
    priority ← priority_or_5 jobKey;
    redis_call (ZADD readyKey (tostring priority) id) ;;
    redis_call (HSET jobKey [("state", "pending"); ("started_at", tostring 0)]) ;;
    mret [id]
  else
    redis_call (ZREM leaseKey id) ;;
    mret [].

Definition recoverLeasesScript (leaseKey activeKey readyKey : string) (now limit : string)
    : M S string reply :=
  limit ← num (tonumber limit);
  expired ← redis_call (ZRANGEBYSCORE leaseKey "-inf" now 0 limit);
  match expired with
  | RArr ids =>
      recovered ← map_each ids (recover_one leaseKey activeKey readyKey);
      mret (RArr (concat recovered))
  | _ => mret (RArr [])
  end.

Definition promote_one (delayedKey readyKey id : string) : M S string unit :=
  redis_call (ZREM delayedKey id) ;;
  let jobKey := "winter:job:" +:+ id in
  priority ← priority_or_5 jobKey;
  redis_call (ZADD readyKey (tostring priority) id) ;;
  redis_call (HSET jobKey [("state", "pending")]) ;;
  mret tt.

Definition promoteScript (delayedKey readyKey : string) (now limit : string) : M S string reply :=
  limit ← num (tonumber limit);
  jobs ← redis_call (ZRANGEBYSCORE delayedKey "-inf" now 0 limit);
  match jobs with
  | RArr ids =>
      for_each ids (promote_one delayedKey readyKey) ;;
      mret (RInt (Z.of_nat (length ids)))
  | _ => mret (RInt 0)
  end.

Definition retryDeadScript (jobKey deadKey readyKey statsKey : string) (id : string)
    : M S string reply :=
  removed ← redis_call (LREM deadKey 1 id);
  if decide (removed = RInt 0) then mret (RInt 0)
  else
    priority ← priority_or_5 jobKey;
    redis_call (HSET jobKey
      [("state", "pending"); ("attempt", tostring 0); ("last_error", "");
       ("completed_at", tostring 0); ("started_at", tostring 0)]) ;;
    redis_call (ZADD readyKey (tostring priority) id) ;;
    redis_call (HINCRBY statsKey "retried" 1) ;;
    mret (RInt 1).

Definition purgeDeadScript (deadKey : string) : M S string reply :=
  ids ← redis_call (LRANGE deadKey 0 (-1));
  match ids with
  | RArr ids =>
      for_each ids (λ id, redis_call (DEL ("winter:job:" +:+ id)) ;; mret tt) ;;
      redis_call (DEL deadKey) ;;
      mret (RInt (Z.of_nat (length ids)))
  | _ => mret (RInt 0)
  end.
End Scripts.
