(* ===== verification/Queue.v ===== *)
(** * Queue: the Go side of the queue, [internal/queue/queue.go]

    Each method runs one script (or command) over the network and interprets
    its reply.  Times are nanoseconds since the epoch, as [time.Time] holds
    them; [now] is what [time.Now()] returns in that call. *)
From S2P Require Import Prelude Float Keys Redis Lua Job Scripts.

Open Scope string_scope.
Open Scope Z_scope.

(** The errors of the package: the sentinel, a wrapped cause, a plain text. *)
Inductive error : Type :=
  | ErrDuplicate
  | Errorf (context cause : string)
  | ErrText (msg : string).

#[export] Instance error_eq_dec : EqDecision error.
Proof. solve_decision. Defined.

(** The text of an error, what [%w] and [err.Error()] print. *)
Definition error_text (e : error) : string :=
  match e with
  | ErrDuplicate => "winter: duplicate job"
  | Errorf context cause => context +:+ ": " +:+ cause
  | ErrText msg => msg
  end.

(** [strings.Contains(s, sub)] *)
Fixpoint contains (sub s : string) : bool :=
  match cut_prefix sub s with
  | Some _ => true
  | None => match s with "" => false | String _ s' => contains sub s' end
  end.

(** [t.UnixMilli()] *)
Definition UnixMilli (t : Z) : Z := t / Millisecond.

Definition DefaultLeaseDuration : Z := 30 * Second.

(** The expiry option go-redis sends for a duration, in milliseconds; it rounds
    a positive duration below one up. *)
Definition expiration (ttl : Z) : option Z :=
  if decide (ttl > 0) then Some (Z.max 1 (Milliseconds ttl)) else None.

(** The unique key slot of enqueueScript and its TTL in seconds. *)
Definition unique_slot (uniqKey : string) (uniquePeriod : Z) : string * Z :=
  if decide (uniqKey ≠ "" ∧ uniquePeriod > 0)
  then (uniqueKey uniqKey, ftrunc (Seconds uniquePeriod))
  else ("", 0).

Section Queue.
Context {S : Type} `{Redis S}.

(** One round trip: the script runs as often as the network delivers it, and
    the caller sees the last outcome or a network error. *)
Definition Run {A} (script : M S string A) : M S string A := λ s,
  match transport s with
  | (s1, Replied lost) => script (Nat.iter lost (λ s, (script s).1) s1)
  | (s1, Dropped n msg) => (Nat.iter n (λ s, (script s).1) s1, Err msg)
  end.

(** [x, err := c; if err != nil { return fmt.Errorf("context: %w", err) }] *)
Definition wrap {A} (context : string) (c : M S string A) : M S error A :=
  r ← try c;
  match r with
  | Ok a => mret a
  | Err e => throw (Errorf context e)
  end.

(** A call whose error is returned as it is. *)
Definition plain {A} (c : M S string A) : M S error A :=
  r ← try c;
  match r with
  | Ok a => mret a
  | Err e => throw (ErrText e)
  end.

Definition run_enqueue (job : JobRecord) (uk : string) (uniqueTTL : Z) : M S string reply :=
  enqueueScript (jobKey (ID job)) (readyKey (Queue job)) (delayedKey (Queue job))
    (statsKey (Queue job)) uk
    (ID job) (Kind job) (Queue job) (dec (Priority job)) (State job) (Payload job)
    (dec (MaxRetries job)) (dec (CreatedAt job)) (dec (ScheduledAt job)) (dec uniqueTTL)
    (WorkflowID job).

Definition Enqueue (job : JobRecord) (uniqKey : string) (uniquePeriod : Z) : M S error unit :=
  let '(uk, uniqueTTL) := unique_slot uniqKey uniquePeriod in
  r ← try (Run (run_enqueue job uk uniqueTTL));
  match r with
  | Err e => if contains "DUPLICATE" e then throw ErrDuplicate else throw (Errorf "winter: enqueue" e)
  | Ok _ => mret tt
  end.

(** The first error of a pipeline that the loop over its commands returns. *)
Fixpoint batch_error (cmds : list (result string reply)) : option string :=
  match cmds with
  | [] => None
  | Ok _ :: cmds' => batch_error cmds'
  | Err e :: cmds' => if contains "DUPLICATE" e then batch_error cmds' else Some e
  end.

(** [pipe.Exec]: every queued command runs, whatever the others reply.  The server
    executes the commands one by one, so each has a fate of its own on the
    network: when the connection breaks, some have been executed and some not,
    and those without a reply get the error. *)
Definition exec_pipeline (cmds : list (M S string reply)) : M S error (list (result string reply)) :=
  map_each cmds (λ c, try (Run c)).

Definition enqueueBatch (jobs : list JobRecord) : M S error unit :=
  (* enqueueScript.Load *)
  wrap "winter: script load" (Run (mret ())) ;;
  cmds ← exec_pipeline ((λ job, run_enqueue job "" 0) <$> jobs);
  match batch_error cmds with
  | Some e => throw (Errorf "winter: batch enqueue" e)
  | None => mret tt
  end.

Definition chunkSize : nat := 100.

(** [for i := 0; i < len(jobs); i += chunkSize]: the loop with [fuel] rounds left. *)
Fixpoint EnqueueMany_loop (fuel : nat) (i : nat) (jobs : list JobRecord) : M S error unit :=
  match fuel with
  | O => mret tt
  | Datatypes.S fuel =>
      if decide (i < length jobs)%nat then
        let stop := (if decide (length jobs < i + chunkSize) then length jobs else i + chunkSize)%nat in
        enqueueBatch (take (stop - i) (drop i jobs)) ;;
        EnqueueMany_loop fuel (i + chunkSize) jobs
      else mret tt
  end.

Definition EnqueueMany (jobs : list JobRecord) : M S error unit :=
  EnqueueMany_loop (Datatypes.S (length jobs)) 0 jobs.

Definition Dequeue (now : Z) (queueName workerID : string) : M S error (option JobRecord) :=
  result ← wrap "winter: dequeue"
    (Run (dequeueScript (readyKey queueName) (activeKey queueName) (pausedKey queueName)
      (workerJobsKey workerID) (leaseKey queueName)
      workerID (dec (UnixMilli now)) (dec (Milliseconds DefaultLeaseDuration))));
  match result with
  | RArr vals => if decide (vals = []) then mret None else mret (Some (parseJobRecord vals))
  | _ => mret None
  end.

Definition Ack (now : Z) (queueName jobID workerID : string) : M S error unit :=
  wrap "winter: ack"
    (Run (ackScript (jobKey jobID) (activeKey queueName) (statsKey queueName)
      (workerJobsKey workerID) (leaseKey queueName) jobID (dec (UnixMilli now)))) ;;
  mret tt.

Definition Nack (now : Z) (queueName jobID workerID errMsg : string) (backoffMs : Z)
    (skipRetry : bool) : M S error string :=
  let skip := if skipRetry then 1 else 0 in
  result ← wrap "winter: nack"
    (Run (nackScript (jobKey jobID) (activeKey queueName) (delayedKey queueName)
      (deadKey queueName) (statsKey queueName) (workerJobsKey workerID) (leaseKey queueName)
      jobID errMsg (dec backoffMs) (dec (UnixMilli now)) (dec skip)));
  match result with
  | RBulk s => mret s
  | _ => throw (ErrText "winter: nack: unexpected result type")
  end.

Definition RescheduleJob (queueName jobID workerID : string) (newTime : Z) : M S error unit :=
  wrap "winter: reschedule"
    (Run (rescheduleScript (jobKey jobID) (activeKey queueName) (delayedKey queueName)
      (workerJobsKey workerID) (leaseKey queueName) jobID (dec (UnixMilli newTime)))) ;;
  mret tt.

Definition CancelJob (now : Z) (queueName jobID workerID reason : string) : M S error unit :=
  wrap "winter: cancel"
    (Run (cancelScript (jobKey jobID) (activeKey queueName) (workerJobsKey workerID)
      (leaseKey queueName) jobID (dec (UnixMilli now)) reason)) ;;
  mret tt.

Definition Promote (now : Z) (queueName : string) (limit : Z) : M S error Z :=
  result ← wrap "winter: promote"
    (Run (promoteScript (delayedKey queueName) (readyKey queueName)
      (dec (UnixMilli now)) (dec limit)));
  match result with
  | RInt n => mret n
  | _ => throw (ErrText "winter: promote: unexpected result type")
  end.

Definition ExtendLease (now : Z) (queueName jobID : string) (extension : Z) : M S error unit :=
  wrap "winter: extend lease"
    (Run (extendLeaseScript (leaseKey queueName) jobID (dec (UnixMilli (now + extension))))) ;;
  mret tt.

Definition RecoverExpiredLeasesAt (queueName : string) (limit nowMs : Z)
    : M S error (list string) :=
  result ← wrap "winter: recover leases"
    (Run (recoverLeasesScript (leaseKey queueName) (activeKey queueName) (readyKey queueName)
      (dec nowMs) (dec limit)));
  match result with
  | RArr vals => mret vals
  | _ => mret []
  end.

Definition RecoverExpiredLeases (now : Z) (queueName : string) (limit : Z)
    : M S error (list string) :=
  RecoverExpiredLeasesAt queueName limit (UnixMilli now).

Definition Heartbeat (now : Z) (workerID : string) : M S error unit :=
  plain (Run (redis_call (HSET workersKey [(workerID, dec (UnixMilli now))]))) ;;
  mret tt.

(** [pipe.Exec] of commands whose first error is returned. *)
Definition pipeline_err (cmds : list (result string reply)) : M S error unit :=
  for_each cmds (λ r, match r with Ok _ => mret tt | Err e => throw (ErrText e) end).

Definition DeregisterWorker (workerID : string) : M S error unit :=
  cmds ← exec_pipeline
    [redis_call (HDEL workersKey workerID); redis_call (DEL (workerJobsKey workerID))];
  pipeline_err cmds.

(** [cmd.Val()] of an integer and of a map command. *)
Definition int_val (r : result string reply) : Z :=
  match r with Ok (RInt n) => n | _ => 0 end.
Definition map_val (r : result string reply) : gmap string string :=
  match r with Ok (RArr l) => pairs_map l ∅ | _ => ∅ end.

Definition QueueStats (queueName : string) : M S error (gmap string Z) :=
  cmds ← exec_pipeline [
    redis_call (ZCARD (readyKey queueName));
    redis_call (SCARD (activeKey queueName));
    redis_call (ZCARD (delayedKey queueName));
    redis_call (LLEN (deadKey queueName));
    redis_call (HGETALL (statsKey queueName))];
  match list_find (λ r, is_Err r) cmds with
  | Some (_, Err e) => throw (Errorf "winter: queue stats" e)
  | _ =>
      match cmds with
      | [ready; active; delayed; dead; stats] =>
          let depths : gmap string Z :=
            list_to_map [("ready", int_val ready); ("active", int_val active);
                         ("delayed", int_val delayed); ("dead", int_val dead)] in
          mret (((λ v, (ParseInt v).1) <$> map_val stats) ∪ depths)
      | _ => mret ∅
      end
  end.

Definition Pause (queueName : string) : M S error unit :=
  plain (Run (redis_call (SET (pausedKey queueName) "1" false None))) ;; mret tt.

Definition Resume (queueName : string) : M S error unit :=
  plain (Run (redis_call (DEL (pausedKey queueName)))) ;; mret tt.

Definition GetJob (jobID : string) : M S error (option JobRecord) :=
  vals ← wrap "winter: get job" (Run (redis_call (HGETALL (jobKey jobID))));
  let vals := map_val (Ok vals) in
  if decide (vals = ∅) then mret None else mret (Some (parseJobRecordFromMap vals)).

(** The string list of an LRANGE reply. *)
Definition strings_val (r : reply) : list string :=
  match r with RArr l => l | _ => [] end.

Fixpoint get_jobs (ids : list string) : M S error (list JobRecord) :=
  match ids with
  | [] => mret []
  | id :: ids' =>
      rec ← GetJob id;
      records ← get_jobs ids';
      mret (match rec with Some r => r :: records | None => records end)
  end.

Definition ListDead (queueName : string) (offset limit : Z) : M S error (list JobRecord) :=
  ids ← wrap "winter: list dead"
    (Run (redis_call (LRANGE (deadKey queueName) offset (wrap64 (wrap64 (offset + limit) - 1)))));
  get_jobs (strings_val ids).

Definition PeekDead (queueName : string) : M S error (option JobRecord) :=
  ids ← wrap "winter: peek dead" (Run (redis_call (LRANGE (deadKey queueName) 0 0)));
  match strings_val ids with
  | [] => mret None
  | id :: _ => GetJob id
  end.

Definition RetryDead (queueName jobID : string) : M S error unit :=
  result ← wrap "winter: retry dead"
    (Run (retryDeadScript (jobKey jobID) (deadKey queueName) (readyKey queueName)
      (statsKey queueName) jobID));
  match result with
  | RInt n =>
      if decide (n = 0)
      then throw (ErrText ("winter: job " +:+ jobID +:+ " not found in dead queue"))
      else mret tt
  | _ => throw (ErrText "winter: retry dead: unexpected result type")
  end.

Definition PurgeDead (queueName : string) : M S error Z :=
  result ← wrap "winter: purge dead" (Run (purgeDeadScript (deadKey queueName)));
  match result with
  | RInt n => mret n
  | _ => throw (ErrText "winter: purge dead: unexpected result type")
  end.

Definition DeadCount (queueName : string) : M S error Z :=
  r ← plain (Run (redis_call (LLEN (deadKey queueName))));
  mret (int_val (Ok r)).

Definition SetResult (jobID data : string) (ttl : Z) : M S error unit :=
  plain (Run (redis_call (SET (resultKey jobID) data false (expiration ttl)))) ;; mret tt.

Definition GetResult (jobID : string) : M S error (option string) :=
  data ← wrap "winter: get result" (Run (redis_call (GET (resultKey jobID))));
  match data with
  | RBulk s => mret (Some s)
  | _ => mret None
  end.
End Queue.
