(* ===== verification/ScriptSpecs.v ===== *)
(** * ScriptSpecs: what each queue script does to the contents

    For every script of [Scripts.v] a pure function on contents ([ack_ks],
    [nack_ks], ...) and a rule saying that the script computes it, on every
    branch, errors included.  All theorems about the queue go through these. *)
From S2P Require Import Prelude Keys Redis Lua Keyspace Job Scripts.

Open Scope string_scope.
Open Scope Z_scope.

(** ** Effects *)

(** [DEL] of the unique key recorded in a job, if the job owns it. *)
Definition release_ks (jid : string) (m : keyspace) : keyspace :=
  match hash_at m (jobKey jid) !! "unique_key" with
  | Some uk =>
      if decide (uk ≠ "" ∧ str_at m uk = Some jid) then delete uk m else m
  | None => m
  end.

(** Leaving the active state: active set, worker set and lease. *)
Definition unlease_ks (q jid w : string) (m : keyspace) : keyspace :=
  zrem (leaseKey q) jid (srem (workerJobsKey w) jid (srem (activeKey q) jid m)).

(** The integer in a counter field. *)
Definition counter (m : keyspace) (k f : string) : option Z := counter_of (hash_at m k !! f).

Lemma counter_range m k f c : counter m k f = Some c → in_int64 c.
Proof.
  unfold counter, counter_of. destruct (_ !! f) as [v|]; [|by intros [= <-]].
  by intros [? _]%string2ll_Some.
Qed.

(** A counter that is a number and can be incremented. *)
Definition can_incr (m : keyspace) (k f : string) : Prop :=
  ∃ n, counter m k f = Some n ∧ in_int64 (n + 1).

#[export] Instance can_incr_dec m k f : Decision (can_incr m k f).
Proof.
  refine (match counter m k f as c return counter m k f = c → _ with
          | Some n => λ E, cast_if (decide (in_int64 (n + 1)))
          | None => λ E, right _
          end eq_refl); abstract (rewrite ?E; unfold can_incr; naive_solver).
Defined.

Definition hincr (k f : string) (m : keyspace) : keyspace :=
  match counter m k f with
  | Some n => hset k [(f, dec (n + 1))] m
  | None => m
  end.

#[global] Strategy 900 [hincr release_ks].

Lemma has_type_hincr m k f k' t :
  has_type m k' t → (k = k' → THash = t) → has_type (hincr k f m) k' t.
Proof.
  intros Hm Hk. unfold hincr. destruct (counter m k f); [|done].
  apply has_type_put; [done|]. intros E. by apply Hk.
Qed.

(** The priority a job hash records, 5 without one. *)
Definition job_priority (m : keyspace) (jid : string) : Z :=
  match hash_at m (jobKey jid) !! "priority" with
  | Some p => (ParseInt p).1
  | None => 5
  end.

(** ** The tactic that executes a script *)

Section Rules.
Context {S : Type} `{RedisLaws S}.

Lemma wp_HINCRBY_any k f Q m : has_type m k THash →
  (can_incr m k f → Q (hincr k f m)
    (Ok (RInt (default 0 (counter m k f) + 1)))) →
  (¬ can_incr m k f → ∀ msg, Q m (Err msg)) →
  wp (S := S) (redis_call (HINCRBY k f 1)) Q m.
Proof.
  intros Ht Hok Herr s <-.
  destruct (counter (ks s) k f) as [n|] eqn:Hc; [destruct (decide (in_int64 (n + 1))) as [Hr|Hr]|].
  - eapply wp_HINCRBY; [done|exact Hc|done| |done].
    rewrite put_hset1. unfold hincr in Hok. rewrite Hc in Hok. apply Hok. by exists n.
  - destruct (law_HINCRBY_error s k f 1) as [msg Hm]; [unfold counter in Hc; by rewrite Hc|].
    pose proof (law_error s _ _ Hm) as Hks. unfold redis_call.
    destruct (exec _ s) as [s' r']; cbn in *. subst r'. cbn. rewrite Hks.
    apply Herr. intros (n' & Hn' & Hr'). congruence.
  - destruct (law_HINCRBY_error s k f 1) as [msg Hm]; [unfold counter in Hc; by rewrite Hc|].
    pose proof (law_error s _ _ Hm) as Hks. unfold redis_call.
    destruct (exec _ s) as [s' r']; cbn in *. subst r'. cbn. rewrite Hks.
    apply Herr. intros (n' & Hn' & Hr'). congruence.
Qed.
End Rules.

Ltac typed ::=
  ks_unfold;
  repeat first
    [ apply has_type_put; [|intros _; reflexivity]
    | apply has_type_put; [|let E := fresh in intros E; exfalso; apply (fun H : _ ≠ _ => H E); keys_ne]
    | apply has_type_hincr; [|intros _; reflexivity]
    | apply has_type_hincr; [|let E := fresh in intros E; exfalso; apply (fun H : _ ≠ _ => H E); keys_ne]
    | apply has_type_delete ];
  lazymatch goal with
  | |- has_type _ ?k ?t =>
      let x := reify_key k in apply (wf_has_type _ x); [assumption|wf_key_solve]
  end.

(** Increments and unique keys leave other keys alone. *)
Lemma hincr_lookup k f m k' : k ≠ k' → hincr k f m !! k' = m !! k'.
Proof. intros Hk. unfold hincr. destruct (counter m k f); [by apply lookup_put_ne|done]. Qed.

Definition is_unique_key (uk : string) : Prop := uk = "" ∨ ∃ u, uk = uniqueKey u.

(** The dedup step of enqueueScript: [uk] is the unique key, empty for none. *)
Definition claim_ks (uk jid : string) (ttl : Z) (m : keyspace) : keyspace :=
  if decide (uk ≠ "" ∧ ttl > 0) then put uk (RStr jid) m else m.

Lemma claim_lookup uk jid ttl m k : is_unique_key uk → (∀ u, uniqueKey u ≠ k) →
  claim_ks uk jid ttl m !! k = m !! k.
Proof.
  intros Huk Hk. unfold claim_ks. case_decide as Hd; [|done].
  destruct Huk as [->|[u ->]]; [by destruct Hd|]. by apply lookup_put_ne.
Qed.

(** The keys a job's hash names as unique keys are of that kind. *)
Definition uk_shape (jid : string) (m : keyspace) : Prop :=
  ∀ uk, hash_at m (jobKey jid) !! "unique_key" = Some uk → is_unique_key uk.

Lemma release_lookup jid m k : uk_shape jid m → (∀ u, uniqueKey u ≠ k) →
  release_ks jid m !! k = m !! k.
Proof.
  intros Huk Hk. unfold release_ks. destruct (_ !! "unique_key") as [uk|] eqn:E; [|done].
  case_decide as Hd; [|done]. destruct (Huk uk E) as [->|[u ->]]; [by destruct Hd|].
  by apply lookup_delete_ne.
Qed.

Ltac ks_hook ::=
  let ext m' m k lem :=
    (let E := fresh in assert (m' !! k = m !! k) as E by lem;
     first [rewrite (hash_at_ext m' m k E) | rewrite (zset_at_ext m' m k E)
           | rewrite (set_at_ext m' m k E) | rewrite (list_at_ext m' m k E)
           | rewrite (str_at_ext m' m k E)]; clear E) in
  let go acc m' k :=
    lazymatch m' with
    | hincr ?k0 ?f ?m => ext m' m k ltac:(apply hincr_lookup; keys_ne)
    | claim_ks ?uk ?j ?t ?m => ext m' m k ltac:(apply claim_lookup; [assumption|intros ?; keys_ne])
    | release_ks ?j ?m => ext m' m k ltac:(apply release_lookup; [assumption|intros ?; keys_ne])
    end in
  match goal with
  | |- context [hash_at ?m' ?k] => go hash_at m' k
  | |- context [zset_at ?m' ?k] => go zset_at m' k
  | |- context [set_at ?m' ?k] => go set_at m' k
  | |- context [list_at ?m' ?k] => go list_at m' k
  | |- context [str_at ?m' ?k] => go str_at m' k
  end.

(** One statement of a script: the structural rules, then the command's. *)
Ltac wp_step :=
  cbv beta iota zeta;
  fold_job_keys;
  rewrite ?law_tostring by safe_solve;
  lazymatch goal with
  | |- wp (mbind _ _) _ _ => apply wp_bind
  | |- wp (mret _) _ _ => apply wp_ret
  | |- wp (throw _) _ _ => apply wp_throw
  | |- wp (num (Some _)) _ _ => apply wp_num
  | |- wp (num (tonumber (dec _))) _ _ => rewrite law_tonumber by safe_solve; apply wp_num
  | |- wp (redis_call (SREM _ _)) _ _ => apply wp_SREM; [typed|]
  | |- wp (redis_call (SADD _ _)) _ _ => apply wp_SADD; [typed|]
  | |- wp (redis_call (ZREM _ _)) _ _ => apply wp_ZREM; [typed|]
  | |- wp (redis_call (ZADD _ (dec _) _)) _ _ => apply wp_ZADD; [typed|safe_solve|]
  | |- wp (redis_call (ZADD_XX _ (dec _) _)) _ _ => apply wp_ZADD_XX; [typed|safe_solve|]
  | |- wp (redis_call (HSET _ _)) _ _ => apply wp_HSET; [typed|done|intros ?]
  | |- wp (redis_call (HGET _ _)) _ _ => apply wp_HGET; [typed|]
  | |- wp (redis_call (HINCRBY _ _ 1)) _ _ => apply wp_HINCRBY_any; [typed|let Hc := fresh "Hcan" in intros Hc|let Hc := fresh "Hcan" in intros Hc ?]
  | |- wp (redis_call (LPUSH _ _)) _ _ => apply wp_LPUSH; [typed|]
  | |- wp (redis_call (LREM _ 1 _)) _ _ => apply wp_LREM1; [typed|]
  | |- wp (redis_call (LRANGE _ _ _)) _ _ => apply wp_LRANGE; [typed|]
  | |- wp (redis_call (EXISTS _)) _ _ => apply wp_EXISTS
  | |- wp (redis_call (DEL _)) _ _ => apply wp_DEL
  | |- wp (redis_call (GET _)) _ _ => apply wp_GET; [typed|]
  end;
  cbv beta iota zeta.

(** Re-reads raw updates as the named ones. *)
Ltac ks_fold :=
  repeat match goal with
  | |- context [put ?k (RZset (<[?x := ?z]> (zset_at ?m ?k))) ?m] => change (put k (RZset (<[x := z]> (zset_at m k))) m) with (zadd k x z m)
  | |- context [put ?k (RZset (delete ?x (zset_at ?m ?k))) ?m] => change (put k (RZset (delete x (zset_at m k))) m) with (zrem k x m)
  | |- context [put ?k (RSet ({[?x]} ∪ set_at ?m ?k)) ?m] => change (put k (RSet ({[x]} ∪ set_at m k)) m) with (sadd k x m)
  | |- context [put ?k (RSet (set_at ?m ?k ∖ {[?x]})) ?m] => change (put k (RSet (set_at m k ∖ {[x]})) m) with (srem k x m)
  | |- context [put ?k (RHash (hset_all ?fvs (hash_at ?m ?k))) ?m] => change (put k (RHash (hset_all fvs (hash_at m k))) m) with (hset k fvs m)
  | |- context [put ?k (RList (?x :: list_at ?m ?k)) ?m] => change (put k (RList (x :: list_at m k)) m) with (lpush k x m)
  | |- context [put ?k (RList (remove_first ?x (list_at ?m ?k))) ?m] => change (put k (RList (remove_first x (list_at m k))) m) with (lrem k x m)
  end.

Ltac wp_run := repeat (wp_step; ks_fold).

Section Specs.
Context {S : Type} `{RedisLaws S}.

(** A recorded unique key is a key of the unique-key space. *)
Lemma unique_key_shape m jid uk : wf_store m → wf_id jid →
  hash_at m (jobKey jid) !! "unique_key" = Some uk → uk ≠ "" → ∃ u, uk = uniqueKey u.
Proof.
  intros Hm Hid Huk Hne. pose proof (wf_job m Hm jid Hid _ _ Huk) as Hf.
  unfold field_ok in Hf. rewrite decide_True in Hf by done.
  destruct Hf as [->|[u Hu]]; [done|]. exists u. by apply cut_prefix_Some.
Qed.

Lemma wp_release_unique jid m Q : wf_store m → wf_id jid →
  Q (release_ks jid m) (Ok tt) → wp (S := S) (release_unique (jobKey jid) jid) Q m.
Proof.
  intros Hm Hid HQ. unfold release_unique. do 2 wp_step. unfold release_ks in HQ.
  destruct (hash_at m (jobKey jid) !! "unique_key") as [uk|] eqn:Huk;
    cbv beta iota in HQ |- *; [|by wp_step].
  destruct (decide (uk = "")) as [Hempty|Hempty].
  - rewrite decide_False in HQ by tauto. by wp_step.
  - destruct (unique_key_shape m jid uk Hm Hid Huk Hempty) as [u ->].
    do 2 wp_step. destruct (str_at m (uniqueKey u)) as [o|] eqn:Ho; cbv beta iota.
    + destruct (decide (RBulk o = RBulk jid)) as [Hown|Hown].
      * injection Hown as ->. rewrite decide_True in HQ by done. by do 3 wp_step.
      * rewrite decide_False in HQ by (intros [_ E]; congruence). by wp_step.
    + rewrite decide_False by done. rewrite decide_False in HQ by (intros [_ E]; congruence).
      by wp_step.
Qed.

Definition ack_ks (q jid w : string) (now : Z) (m : keyspace) : keyspace :=
  release_ks jid
    (hincr (statsKey q) "completed"
      (hset (jobKey jid) [("state", "completed"); ("completed_at", dec now)]
        (unlease_ks q jid w m))).

Lemma wf_unlease q jid w m : wf_store m → wf_queue q → wf_store (unlease_ks q jid w m).
Proof. intros. unfold unlease_ks. wf_chain. Qed.

Lemma wf_release jid m : wf_store m → wf_store (release_ks jid m).
Proof.
  intros Hm. unfold release_ks. destruct (_ !! "unique_key"); [|done].
  case_decide; [by apply wf_store_delete|done].
Qed.

Lemma wf_hincr_stats q f m : wf_store m → wf_queue q → can_incr m (statsKey q) f →
  wf_store (hincr (statsKey q) f m).
Proof.
  intros Hm Hq (n & Hn & Hr). unfold hincr. rewrite Hn. apply wf_hset_stats; [done|done|].
  apply Forall_singleton. by apply numeral64_dec_z.
Qed.

Lemma wf_hincr_job jid m : wf_store m → wf_id jid → can_incr m (jobKey jid) "attempt" →
  wf_store (hincr (jobKey jid) "attempt" m).
Proof.
  intros Hm Hq (n & Hn & Hr). unfold hincr. rewrite Hn. apply wf_hset_job; [done|done|].
  apply Forall_singleton. cbn. by apply numeral64_dec_z.
Qed.

Lemma wp_ackScript q jid w now m Q : wf_store m → wf_queue q → wf_id jid →
  let m1 := hset (jobKey jid) [("state", "completed"); ("completed_at", dec now)]
              (unlease_ks q jid w m) in
  (can_incr m1 (statsKey q) "completed" → Q (ack_ks q jid w now m) (Ok (RInt 1))) →
  (¬ can_incr m1 (statsKey q) "completed" → ∀ msg, Q m1 (Err msg)) →
  wp (S := S) (ackScript (jobKey jid) (activeKey q) (statsKey q) (workerJobsKey w) (leaseKey q)
    jid (dec now)) Q m.
Proof.
  intros Hm Hq Hid m1 Hok Herr. unfold ackScript. wp_run.
  - fold (unlease_ks q jid w m). fold m1. apply wp_release_unique; [|done|].
    + apply wf_hincr_stats; [|done|done]. apply wf_hset_job; [by apply wf_unlease|done|].
      repeat constructor.
    + wp_step. by apply Hok.
  - by apply Herr.
Qed.

(** *** nack *)

Definition nack_failed_ks (q jid w errorMsg : string) (m : keyspace) : keyspace :=
  hset (jobKey jid) [("last_error", errorMsg)]
    (hincr (jobKey jid) "attempt" (unlease_ks q jid w m)).

Definition nack_counted_ks (q jid w errorMsg : string) (m : keyspace) : keyspace :=
  hincr (statsKey q) "failed" (nack_failed_ks q jid w errorMsg m).

Definition to_dead_ks (q jid : string) (m : keyspace) : keyspace :=
  hset (jobKey jid) [("state", "dead")] (lpush (deadKey q) jid m).

Definition nack_dead_ks (q jid w errorMsg : string) (m : keyspace) : keyspace :=
  release_ks jid (hincr (statsKey q) "dead_total"
    (to_dead_ks q jid (nack_counted_ks q jid w errorMsg m))).

Definition nack_retry_ks (q jid w errorMsg : string) (at_ms : Z) (m : keyspace) : keyspace :=
  hset (jobKey jid) [("state", "retry")]
    (zadd (delayedKey q) jid at_ms (nack_counted_ks q jid w errorMsg m)).

(** The attempt number a nack records. *)
Definition next_attempt (m : keyspace) (jid : string) : Z :=
  default 0 (counter m (jobKey jid) "attempt") + 1.

(** The number in the max_retries field. *)
Definition max_retries (m : keyspace) (jid : string) : option Z :=
  (λ v, (ParseInt v).1) <$> hash_at m (jobKey jid) !! "max_retries".

(** Which way a nack goes: [None] when the script raises for lack of a limit. *)
Definition nack_is_dead (skip : bool) (m : keyspace) (jid : string) : option bool :=
  if skip then Some true
  else mx ← max_retries m jid; Some (bool_decide (next_attempt m jid >= mx)).

Lemma unlease_hash q jid w m j : wf_queue q → wf_id j →
  hash_at (unlease_ks q jid w m) (jobKey j) = hash_at m (jobKey j).
Proof. intros. unfold unlease_ks. by ks_simp. Qed.

Lemma wf_numeral_field m jid f v : wf_store m → wf_id jid → f = "priority" ∨ f = "max_retries" →
  hash_at m (jobKey jid) !! f = Some v → numeral_safe v.
Proof.
  intros Hm Hid Hf Hv. pose proof (wf_job m Hm jid Hid _ _ Hv) as Hok.
  unfold field_ok in Hok.
  by destruct Hf as [-> | ->].
Qed.

Lemma tonumber_numeral v : numeral_safe v → tonumber (S := S) v = Some (ParseInt v).1.
Proof.
  intros (n & Hn & ->)%numeral_safe_iff.
  by rewrite law_tonumber, ParseInt_dec by eauto with winter.
Qed.

Lemma nack_counted_max q jid w e m : wf_queue q → wf_id jid →
  hash_at (nack_counted_ks q jid w e m) (jobKey jid) !! "max_retries" =
  hash_at m (jobKey jid) !! "max_retries".
Proof.
  intros Hq Hid. unfold nack_counted_ks, nack_failed_ks, hincr.
  repeat case_match; unfold unlease_ks; ks_simp; cbn;
    by rewrite ?lookup_insert_ne by done.
Qed.

Lemma wf_nack_failed q jid w e m : wf_store m → wf_queue q → wf_id jid →
  can_incr (unlease_ks q jid w m) (jobKey jid) "attempt" →
  wf_store (nack_failed_ks q jid w e m).
Proof.
  intros Hm Hq Hid Hc. apply wf_hset_job; [|done|by repeat constructor].
  by apply wf_hincr_job; [apply wf_unlease| |].
Qed.

Lemma wf_nack_counted q jid w e m : wf_store m → wf_queue q → wf_id jid →
  can_incr (unlease_ks q jid w m) (jobKey jid) "attempt" →
  can_incr (nack_failed_ks q jid w e m) (statsKey q) "failed" →
  wf_store (nack_counted_ks q jid w e m).
Proof. intros. apply wf_hincr_stats; [by apply wf_nack_failed|done|done]. Qed.

Lemma wp_nack_record q jid w e m Q : wf_store m → wf_queue q → wf_id jid →
  (¬ can_incr (unlease_ks q jid w m) (jobKey jid) "attempt" →
     ∀ msg, Q (unlease_ks q jid w m) (Err msg)) →
  (can_incr (unlease_ks q jid w m) (jobKey jid) "attempt" →
     ¬ can_incr (nack_failed_ks q jid w e m) (statsKey q) "failed" →
     ∀ msg, Q (nack_failed_ks q jid w e m) (Err msg)) →
  (can_incr (unlease_ks q jid w m) (jobKey jid) "attempt" →
     can_incr (nack_failed_ks q jid w e m) (statsKey q) "failed" →
     Q (nack_counted_ks q jid w e m) (Ok (RInt (next_attempt m jid)))) →
  wp (S := S) (nack_record (jobKey jid) (activeKey q) (statsKey q) (workerJobsKey w) (leaseKey q)
    jid e) Q m.
Proof.
  intros Hm Hq Hid He1 He2 Hok. unfold nack_record.
  assert (Hm1 : wf_store (unlease_ks q jid w m)) by (by apply wf_unlease).
  unfold nack_counted_ks, nack_failed_ks, next_attempt in *.
  assert (counter (unlease_ks q jid w m) (jobKey jid) "attempt" = counter m (jobKey jid) "attempt")
    as Hc by (unfold counter; by rewrite unlease_hash).
  do 6 (wp_step; ks_fold). change (zrem _ _ _) with (unlease_ks q jid w m).
  generalize dependent (unlease_ks q jid w m). intros m1 He1 He2 Hok Hm1 Hc.
  do 2 wp_step; [|by apply He1].
  do 4 (wp_step; ks_fold); [|by apply He2].
  wp_step. rewrite Hc. by apply Hok.
Qed.

Lemma wp_nack_choice m jid (skip : bool) Q m3 : wf_store m → wf_id jid →
  (∀ b, nack_is_dead skip m jid = Some b → Q m3 (Ok b)) →
  (nack_is_dead skip m jid = None → ∀ msg, Q m3 (Err msg)) →
  wp (S := S)
    (nack_choice (tonumber (dec (b2z skip))) (Some (next_attempt m jid))
       (reply_number (match hash_at m (jobKey jid) !! "max_retries" with
                      | Some v => RBulk v | None => RNil end))) Q m3.
Proof.
  intros Hm Hid Hok Herr. unfold nack_choice.
  rewrite (law_tonumber (b2z skip)) by (by destruct skip).
  unfold nack_is_dead, max_retries in *. destruct skip; cbn [b2z].
  - rewrite decide_True by done. wp_step. by apply Hok.
  - rewrite decide_False by done. do 3 wp_step.
    destruct (hash_at m (jobKey jid) !! "max_retries") as [v|] eqn:Hv; cbn in Hok, Herr |- *.
    + rewrite tonumber_numeral by (eapply wf_numeral_field; eauto).
      do 2 wp_step. by apply Hok.
    + wp_step. by apply Herr.
Qed.

Lemma wp_nack_dead q jid m Q : wf_store m → wf_queue q → wf_id jid →
  (¬ can_incr (to_dead_ks q jid m) (statsKey q) "dead_total" →
     ∀ msg, Q (to_dead_ks q jid m) (Err msg)) →
  (can_incr (to_dead_ks q jid m) (statsKey q) "dead_total" →
     Q (release_ks jid (hincr (statsKey q) "dead_total" (to_dead_ks q jid m)))
       (Ok (RBulk "dead"))) →
  wp (S := S) (nack_dead (jobKey jid) (deadKey q) (statsKey q) jid) Q m.
Proof.
  intros Hm Hq Hid Herr Hok. unfold nack_dead. unfold to_dead_ks in *.
  do 6 (wp_step; ks_fold); [|by apply Herr].
  wp_step. apply wp_release_unique; [|done|wp_step; by apply Hok].
  apply wf_hincr_stats; [|done|done]. wf_chain. by repeat constructor.
Qed.

Lemma wp_nack_retry q jid now backoff m Q : wf_store m → wf_queue q → wf_id jid →
  safe_int now → safe_int backoff → safe_int (now + backoff) →
  Q (hset (jobKey jid) [("state", "retry")] (zadd (delayedKey q) jid (now + backoff) m))
    (Ok (RBulk "retry")) →
  wp (S := S) (nack_retry (jobKey jid) (delayedKey q) jid (tonumber (dec now)) (tonumber (dec backoff)))
    Q m.
Proof.
  intros. unfold nack_retry. do 4 wp_step. rewrite law_ladd by done. by wp_run.
Qed.

Lemma wp_nackScript q jid w e backoff now (skip : bool) m Q :
  wf_store m → wf_queue q → wf_id jid →
  safe_int now → safe_int backoff → safe_int (now + backoff) →
  (* the four ways to raise *)
  (¬ can_incr (unlease_ks q jid w m) (jobKey jid) "attempt" →
     ∀ msg, Q (unlease_ks q jid w m) (Err msg)) →
  (can_incr (unlease_ks q jid w m) (jobKey jid) "attempt" →
     ¬ can_incr (nack_failed_ks q jid w e m) (statsKey q) "failed" →
     ∀ msg, Q (nack_failed_ks q jid w e m) (Err msg)) →
  (wf_store (nack_counted_ks q jid w e m) →
     nack_is_dead skip m jid = None → ∀ msg, Q (nack_counted_ks q jid w e m) (Err msg)) →
  (wf_store (nack_counted_ks q jid w e m) → nack_is_dead skip m jid = Some true →
     ¬ can_incr (to_dead_ks q jid (nack_counted_ks q jid w e m)) (statsKey q) "dead_total" →
     ∀ msg, Q (to_dead_ks q jid (nack_counted_ks q jid w e m)) (Err msg)) →
  (* the two outcomes *)
  (wf_store (nack_counted_ks q jid w e m) → nack_is_dead skip m jid = Some true →
     can_incr (to_dead_ks q jid (nack_counted_ks q jid w e m)) (statsKey q) "dead_total" →
     Q (nack_dead_ks q jid w e m) (Ok (RBulk "dead"))) →
  (wf_store (nack_counted_ks q jid w e m) → nack_is_dead skip m jid = Some false →
     Q (nack_retry_ks q jid w e (now + backoff) m) (Ok (RBulk "retry"))) →
  wp (S := S) (nackScript (jobKey jid) (activeKey q) (delayedKey q) (deadKey q) (statsKey q)
    (workerJobsKey w) (leaseKey q) jid e (dec backoff) (dec now) (dec (b2z skip))) Q m.
Proof.
  intros Hm Hq Hid Hnow Hb Hnb He1 He2 He3 He4 Hdead Hretry.
  unfold nackScript, nack_dead_ks, nack_retry_ks in *. wp_step.
  apply wp_nack_record; [done|done|done|exact He1|exact He2|]. intros Hc1 Hc2.
  assert (Hm3 : wf_store (nack_counted_ks q jid w e m)) by (by apply wf_nack_counted).
  pose proof (nack_counted_max q jid w e m Hq Hid) as Hmax.
  specialize (He3 Hm3). specialize (He4 Hm3). specialize (Hdead Hm3). specialize (Hretry Hm3).
  clear He1 He2 Hc1 Hc2. generalize dependent (nack_counted_ks q jid w e m).
  intros m3 He3 He4 Hdead Hretry Hm3 Hmax. do 2 wp_step. rewrite Hmax. wp_step.
  cbn [reply_number]. apply wp_nack_choice; [done|done| |done]. intros [] Hd.
  - apply wp_nack_dead; [done|done|done|by apply He4|by apply Hdead].
  - apply wp_nack_retry; [done..|by apply Hretry].
Qed.

(** *** reschedule, cancel, extend *)

Definition reschedule_ks (q jid w : string) (at_ms : Z) (m : keyspace) : keyspace :=
  hset (jobKey jid)
    [("state", "pending"); ("scheduled_at", dec at_ms); ("started_at", dec 0)]
    (zadd (delayedKey q) jid at_ms (unlease_ks q jid w m)).

Lemma wp_rescheduleScript q jid w at_ms m Q : wf_store m → wf_queue q → wf_id jid →
  safe_int at_ms →
  Q (reschedule_ks q jid w at_ms m) (Ok (RInt 1)) →
  wp (S := S) (rescheduleScript (jobKey jid) (activeKey q) (delayedKey q) (workerJobsKey w)
    (leaseKey q) jid (dec at_ms)) Q m.
Proof. intros. unfold rescheduleScript. by wp_run. Qed.

Definition cancel_ks (q jid w : string) (now : Z) (reason : string) (m : keyspace) : keyspace :=
  release_ks jid
    (hset (jobKey jid) [("state", "cancelled"); ("completed_at", dec now); ("last_error", reason)]
      (unlease_ks q jid w m)).

Lemma wp_cancelScript q jid w now reason m Q : wf_store m → wf_queue q → wf_id jid →
  Q (cancel_ks q jid w now reason m) (Ok (RInt 1)) →
  wp (S := S) (cancelScript (jobKey jid) (activeKey q) (workerJobsKey w) (leaseKey q)
    jid (dec now) reason) Q m.
Proof.
  intros Hm Hq Hid HQ. unfold cancelScript. wp_run. apply wp_release_unique; [|done|by wp_step].
  wf_chain. by repeat constructor.
Qed.

Lemma wf_zset_mem m k jid n : wf_store m → wf_key k → is_zkey k →
  zset_at m (render k) !! jid = Some n → wf_id jid.
Proof. intros Hm Hk Hz Hl. by apply (wf_zset m Hm k Hk Hz jid n). Qed.

Definition extend_ks (q jid : string) (expiry : Z) (m : keyspace) : keyspace :=
  if decide (is_Some (zset_at m (leaseKey q) !! jid)) then zadd (leaseKey q) jid expiry m else m.

Lemma wf_extend q jid expiry m : wf_store m → wf_queue q → wf_store (extend_ks q jid expiry m).
Proof.
  intros Hm Hq. unfold extend_ks. case_decide as Hd; [|done]. destruct Hd as [e He].
  apply (wf_zadd m Hm (KLease q)); [done|done|]. by eapply (wf_zset_mem m (KLease q)).
Qed.

Lemma wp_extendLeaseScript q jid expiry m Q : wf_store m → wf_queue q → safe_int expiry →
  Q (extend_ks q jid expiry m) (Ok (RInt 0)) →
  wp (S := S) (extendLeaseScript (leaseKey q) jid (dec expiry)) Q m.
Proof. intros. unfold extendLeaseScript. by do 3 wp_step. Qed.

(** *** dequeue *)

Definition dequeue_ks (q w jid : string) (now lease : Z) (m : keyspace) : keyspace :=
  zadd (leaseKey q) jid (now + lease)
    (sadd (workerJobsKey w) jid
      (hset (jobKey jid) [("state", "active"); ("started_at", dec now)]
        (sadd (activeKey q) jid (zrem (readyKey q) jid m)))).

Lemma zsorted_elem (z : gmap string Z) x n : (x, n) ∈ zsorted z ↔ z !! x = Some n.
Proof.
  unfold zsorted. rewrite merge_sort_Permutation. apply elem_of_map_to_list.
Qed.

Lemma zsorted_nil (z : gmap string Z) : zsorted z = [] ↔ z = ∅.
Proof.
  unfold zsorted. split; [|by intros ->].
  intros Hz. apply map_to_list_empty_iff. apply Permutation_nil_r.
  rewrite <- Hz. by rewrite merge_sort_Permutation.
Qed.

Lemma wp_dequeueScript q w now lease m Q : wf_store m → wf_queue q →
  safe_int now → safe_int lease → safe_int (now + lease) →
  (is_Some (m !! pausedKey q) → Q m (Ok RNil)) →
  (m !! pausedKey q = None → zsorted (zset_at m (readyKey q)) = [] → Q m (Ok RNil)) →
  (∀ jid p rest fvs, m !! pausedKey q = None →
     zsorted (zset_at m (readyKey q)) = (jid, p) :: rest → wf_id jid →
     fvs ≡ₚ map_to_list (hash_at (dequeue_ks q w jid now lease m) (jobKey jid)) →
     Q (dequeue_ks q w jid now lease m) (Ok (RArr (flatten fvs)))) →
  wp (S := S) (dequeueScript (readyKey q) (activeKey q) (pausedKey q) (workerJobsKey w) (leaseKey q)
    w (dec now) (dec lease)) Q m.
Proof.
  intros Hm Hq Hnow Hl Hnl Hp Hnil Hjob. unfold dequeueScript. do 2 wp_step.
  unfold bit, b2z. case_bool_decide as Hpaused.
  { rewrite decide_True by done. wp_step. by apply Hp. }
  rewrite decide_False by done. apply eq_None_not_Some in Hpaused. wp_step.
  apply wp_ZPOPMIN; [typed| |]; cbv beta iota.
  { intros Hz. wp_step. by apply Hnil. }
  intros jid p rest score Hz.
  assert (Hid : wf_id jid).
  { apply (wf_zset_mem m (KReady q) jid p); try done.
    apply (zsorted_elem (zset_at m (readyKey q))). rewrite Hz. by left. }
  ks_fold. do 11 (wp_step; ks_fold). rewrite law_ladd by done.
  wp_step; ks_fold. apply wp_HGETALL; [typed|]. intros fvs Hf. by eapply Hjob.
Qed.

(** *** enqueue *)

Definition enqueue_fields (job : JobRecord) (uk : string) : list (string * string) := [
  ("id", ID job); ("kind", Kind job); ("queue", Queue job); ("priority", dec (Priority job));
  ("state", State job); ("payload", Payload job); ("attempt", dec 0);
  ("max_retries", dec (MaxRetries job)); ("created_at", dec (CreatedAt job));
  ("scheduled_at", dec (ScheduledAt job)); ("started_at", dec 0); ("completed_at", dec 0);
  ("last_error", ""); ("unique_key", uk); ("workflow_id", WorkflowID job)].

Definition place_ks (job : JobRecord) (m : keyspace) : keyspace :=
  if decide (ScheduledAt job > 0)
  then zadd (delayedKey (Queue job)) (ID job) (ScheduledAt job) m
  else zadd (readyKey (Queue job)) (ID job) (Priority job) m.

Definition enqueued_ks (job : JobRecord) (uk : string) (ttl : Z) (m : keyspace) : keyspace :=
  place_ks job (hset (jobKey (ID job)) (enqueue_fields job uk) (claim_ks uk (ID job) ttl m)).

(** The record's names and numbers are within what the contents can hold. *)
Definition wf_record (job : JobRecord) : Prop :=
  wf_id (ID job) ∧ wf_queue (Queue job) ∧
  safe_int (Priority job) ∧ safe_int (MaxRetries job) ∧ safe_int (ScheduledAt job) ∧
  in_int64 (CreatedAt job) ∧ wf_wfid (WorkflowID job).

#[export] Instance wf_record_dec job : Decision (wf_record job).
Proof. unfold wf_record. apply _. Defined.

Lemma enqueue_fields_ok job uk : wf_record job → is_unique_key uk →
  Forall (λ fv, field_ok fv.1 fv.2) (enqueue_fields job uk).
Proof.
  intros (Hid & Hq & Hp & Hm & _ & _ & Hw) Huk.
  unfold enqueue_fields. repeat (apply Forall_cons; split); cbn -[dec]; try done;
    try (by apply numeral_safe_dec_z).
  destruct Huk as [->|[u ->]]; [by left|]. right. exists u. apply (cut_prefix_app "winter:unique:").
Qed.

Lemma wf_claim uk jid ttl m : wf_store m → is_unique_key uk → wf_store (claim_ks uk jid ttl m).
Proof.
  intros Hm Huk. unfold claim_ks. case_decide as Hd; [|done].
  destruct Huk as [->|[u ->]]; [by destruct Hd|].
  by apply (wf_store_put m (KUnique u)).
Qed.

Lemma wf_enqueued job uk ttl m : wf_store m → wf_record job → is_unique_key uk →
  wf_store (enqueued_ks job uk ttl m).
Proof.
  intros Hm Hj Huk. pose proof Hj as (Hid & Hq & _). unfold enqueued_ks, place_ks.
  case_decide; wf_chain; try (by apply wf_claim); by apply enqueue_fields_ok.
Qed.

Lemma wp_enqueueScript job uk ttl m Q :
  wf_store m → wf_record job → is_unique_key uk → safe_int ttl →
  (uk ≠ "" → ttl > 0 → is_Some (m !! uk) → Q m (Err "DUPLICATE")) →
  ((uk ≠ "" → ttl > 0 → m !! uk = None) →
     ¬ can_incr (enqueued_ks job uk ttl m) (statsKey (Queue job)) "enqueued" →
     ∀ msg, Q (enqueued_ks job uk ttl m) (Err msg)) →
  ((uk ≠ "" → ttl > 0 → m !! uk = None) →
     can_incr (enqueued_ks job uk ttl m) (statsKey (Queue job)) "enqueued" →
     Q (hincr (statsKey (Queue job)) "enqueued" (enqueued_ks job uk ttl m)) (Ok (RBulk (ID job)))) →
  wp (S := S)
    (enqueueScript (jobKey (ID job)) (readyKey (Queue job)) (delayedKey (Queue job))
      (statsKey (Queue job)) uk
      (ID job) (Kind job) (Queue job) (dec (Priority job)) (State job) (Payload job)
      (dec (MaxRetries job)) (dec (CreatedAt job)) (dec (ScheduledAt job)) (dec ttl)
      (WorkflowID job)) Q m.
Proof.
  intros Hm Hj Huk Httl Hdup Herr Hok. pose proof Hj as (Hid & Hq & Hp & Hmr & Hs & _).
  unfold enqueueScript. wp_step.
  apply wp_mono with (P := λ m' r,
    (r = Err "DUPLICATE" ∧ m' = m ∧ uk ≠ "" ∧ ttl > 0 ∧ is_Some (m !! uk)) ∨
    (r = Ok tt ∧ m' = claim_ks uk (ID job) ttl m ∧ (uk ≠ "" → ttl > 0 → m !! uk = None))).
  { unfold claim_ks. destruct (decide (uk = "")) as [->|Hne].
    { wp_step. right. by rewrite decide_False by tauto. }
    do 2 wp_step. destruct (decide (ttl > 0)) as [Hpos|Hpos].
    2: { wp_step. right. by rewrite decide_False by tauto. }
    wp_step. apply wp_SETNX; [intros ? [= <-]; lia| |]; intros Hl.
    - rewrite decide_True by done. wp_step. left. eauto.
    - rewrite decide_False by done. wp_step. right. rewrite decide_True by done. eauto. }
  intros m' r [(-> & -> & H1 & H2 & H3)|(-> & -> & Hfree)]; [by apply Hdup|].
  specialize (Herr Hfree). specialize (Hok Hfree).
  pose proof (wf_claim uk (ID job) ttl m Hm Huk) as Hm1. unfold enqueued_ks in *.
  generalize dependent (claim_ks uk (ID job) ttl m). intros m1 Herr Hok Hm1. clear Hdup Hfree.
  do 8 (wp_step; ks_fold). change (hset _ _ _) with (hset (jobKey (ID job)) (enqueue_fields job uk) m1).
  assert (Hm2 : wf_store (hset (jobKey (ID job)) (enqueue_fields job uk) m1))
    by (wf_chain; by apply enqueue_fields_ok).
  generalize dependent (hset (jobKey (ID job)) (enqueue_fields job uk) m1). intros m2 Herr Hok Hm2.
  unfold place_ks in *. destruct (decide (ScheduledAt job > 0)) as [Hd|Hd].
  - do 3 (wp_step; ks_fold); (wp_step; [|by apply Herr]); wp_step; by apply Hok.
  - do 3 (wp_step; ks_fold); (wp_step; [|by apply Herr]); wp_step; by apply Hok.
Qed.

(** *** Loops *)

Lemma wp_for_each_fold {A} (body : A → M S string unit) (step : keyspace → A → keyspace)
    (P : A → Prop) l m Q :
  (∀ x m Q, P x → wf_store m → Q (step m x) (Ok tt) → wp (body x) Q m) →
  (∀ x m, P x → wf_store m → wf_store (step m x)) →
  Forall P l → wf_store m → Q (foldl step m l) (Ok tt) → wp (for_each l body) Q m.
Proof.
  intros Hbody Hwf Hl. revert m. induction Hl as [|x l Hx _ IH]; intros m Hm HQ; cbn.
  - by wp_step.
  - wp_step. apply Hbody; [done|done|]. apply IH; [by apply Hwf|done].
Qed.

Fixpoint fold_out {A B} (step : keyspace → A → keyspace) (out : keyspace → A → B)
    (l : list A) (m : keyspace) : list B :=
  match l with
  | [] => []
  | x :: l' => out m x :: fold_out step out l' (step m x)
  end.

Lemma wp_map_each_fold {A B} (body : A → M S string B) (step : keyspace → A → keyspace)
    (out : keyspace → A → B) (P : A → Prop) l m Q :
  (∀ x m Q, P x → wf_store m → Q (step m x) (Ok (out m x)) → wp (body x) Q m) →
  (∀ x m, P x → wf_store m → wf_store (step m x)) →
  Forall P l → wf_store m → Q (foldl step m l) (Ok (fold_out step out l m)) →
  wp (map_each l body) Q m.
Proof.
  intros Hbody Hwf Hl. revert m Q. induction Hl as [|x l Hx _ IH]; intros m Q Hm HQ; cbn.
  - by wp_step.
  - wp_step. apply Hbody; [done|done|]. wp_step. apply IH; [by apply Hwf|]. by wp_step.
Qed.

(** *** promote *)

Lemma job_priority_safe m jid : wf_store m → wf_id jid → safe_int (job_priority m jid).
Proof.
  intros Hm Hid. unfold job_priority. destruct (_ !! "priority") as [v|] eqn:Hv; [|done].
  apply (wf_numeral_field m jid "priority" v); eauto.
Qed.

Lemma wp_priority_or_5 m jid Q : wf_store m → wf_id jid →
  Q m (Ok (job_priority m jid)) → wp (S := S) (priority_or_5 (jobKey jid)) Q m.
Proof.
  intros Hm Hid HQ. unfold priority_or_5, job_priority in *. do 2 wp_step.
  destruct (_ !! "priority") as [v|] eqn:Hv; cbn; [|by wp_step].
  rewrite tonumber_numeral by (apply (wf_numeral_field m jid "priority" v); eauto). by wp_step.
Qed.

Definition promote_one_ks (q : string) (m : keyspace) (jid : string) : keyspace :=
  hset (jobKey jid) [("state", "pending")]
    (zadd (readyKey q) jid (job_priority m jid) (zrem (delayedKey q) jid m)).

Lemma wf_promote_one q m jid : wf_store m → wf_queue q → wf_id jid →
  wf_store (promote_one_ks q m jid).
Proof. intros. unfold promote_one_ks. wf_chain. by repeat constructor. Qed.

Lemma job_priority_zrem m q jid j : wf_queue q → wf_id j →
  job_priority (zrem (delayedKey q) jid m) j = job_priority m j.
Proof. intros. unfold job_priority. by ks_simp. Qed.

Lemma wp_promote_one q jid m Q : wf_store m → wf_queue q → wf_id jid →
  Q (promote_one_ks q m jid) (Ok tt) →
  wp (S := S) (promote_one (delayedKey q) (readyKey q) jid) Q m.
Proof.
  intros Hm Hq Hid HQ. unfold promote_one, promote_one_ks in *. do 3 (wp_step; ks_fold).
  apply wp_priority_or_5; [wf_chain|done|]. rewrite job_priority_zrem by done.
  pose proof (job_priority_safe m jid Hm Hid). by wp_run.
Qed.

(** The ids that are due, at most [limit] of them. *)
Definition due (z : gmap string Z) (now limit : Z) : list string := limited limit (zupto now z).

Definition promote_ks (q : string) (now limit : Z) (m : keyspace) : keyspace :=
  foldl (promote_one_ks q) m (due (zset_at m (delayedKey q)) now limit).

Lemma due_elem z now limit jid : jid ∈ due z now limit → ∃ n, z !! jid = Some n ∧ n ≤ now.
Proof.
  intros Hd. assert (jid ∈ zupto now z) as Hu.
  { unfold due, limited in Hd. case_decide; [done|].
    by eapply elem_of_sublist; [|apply sublist_take]. }
  unfold zupto in Hu. apply list_elem_of_fmap in Hu as ([x n] & -> & Hx).
  apply list_elem_of_filter in Hx as [Hle Hx]. apply zsorted_elem in Hx. eauto.
Qed.

Lemma due_wf m k now limit : wf_store m → wf_key k → is_zkey k →
  Forall wf_id (due (zset_at m (render k)) now limit).
Proof.
  intros. apply Forall_forall. intros jid (n & Hn & _)%due_elem. by eapply wf_zset_mem.
Qed.

Lemma wp_promoteScript q now limit m Q : wf_store m → wf_queue q → safe_int now → safe_int limit →
  Q (promote_ks q now limit m)
    (Ok (RInt (Z.of_nat (length (due (zset_at m (delayedKey q)) now limit))))) →
  wp (S := S) (promoteScript (delayedKey q) (readyKey q) (dec now) (dec limit)) Q m.
Proof.
  intros Hm Hq Hnow Hl HQ. unfold promoteScript. do 3 wp_step.
  apply wp_ZRANGEBYSCORE; [typed|done|]. wp_step.
  apply wp_for_each_fold with (step := promote_one_ks q) (P := wf_id).
  - intros. by apply wp_promote_one.
  - intros. by apply wf_promote_one.
  - by apply (due_wf m (KDelayed q)).
  - done.
  - by wp_step.
Qed.

(** *** recover *)

Definition recover_one_ks (q : string) (m : keyspace) (jid : string) : keyspace :=
  let freed := zrem (leaseKey q) jid (srem (activeKey q) jid m) in
  if decide (jid ∈ set_at m (activeKey q)) then
    hset (jobKey jid) [("state", "pending"); ("started_at", dec 0)]
      (zadd (readyKey q) jid (job_priority m jid) freed)
  else freed.

Definition recover_out (q : string) (m : keyspace) (jid : string) : list string :=
  if decide (jid ∈ set_at m (activeKey q)) then [jid] else [].

Definition recover_ks (q : string) (now limit : Z) (m : keyspace) : keyspace :=
  foldl (recover_one_ks q) m (due (zset_at m (leaseKey q)) now limit).

Definition recovered (q : string) (now limit : Z) (m : keyspace) : list string :=
  concat (fold_out (recover_one_ks q) (recover_out q) (due (zset_at m (leaseKey q)) now limit) m).

Lemma wf_recover_one q m jid : wf_store m → wf_queue q → wf_id jid →
  wf_store (recover_one_ks q m jid).
Proof.
  intros. unfold recover_one_ks. case_decide; wf_chain. by repeat constructor.
Qed.

Lemma job_priority_freed m q jid j : wf_queue q → wf_id j →
  job_priority (zrem (leaseKey q) jid (srem (activeKey q) jid m)) j = job_priority m j.
Proof. intros. unfold job_priority. by ks_simp. Qed.

Lemma wp_recover_one q jid m Q : wf_store m → wf_queue q → wf_id jid →
  Q (recover_one_ks q m jid) (Ok (recover_out q m jid)) →
  wp (S := S) (recover_one (leaseKey q) (activeKey q) (readyKey q) jid) Q m.
Proof.
  intros Hm Hq Hid HQ. unfold recover_one, recover_one_ks, recover_out in *.
  do 2 (wp_step; ks_fold). unfold bit, b2z.
  destruct (decide (jid ∈ set_at m (activeKey q))) as [Hin|Hin].
  - rewrite bool_decide_eq_true_2, decide_True by done. do 3 (wp_step; ks_fold).
    apply wp_priority_or_5; [wf_chain|done|]. rewrite job_priority_freed by done.
    pose proof (job_priority_safe m jid Hm Hid). by wp_run.
  - rewrite bool_decide_eq_false_2, decide_False by done. by wp_run.
Qed.

Lemma wp_recoverLeasesScript q now limit m Q :
  wf_store m → wf_queue q → safe_int now → safe_int limit →
  Q (recover_ks q now limit m) (Ok (RArr (recovered q now limit m))) →
  wp (S := S) (recoverLeasesScript (leaseKey q) (activeKey q) (readyKey q) (dec now) (dec limit))
    Q m.
Proof.
  intros Hm Hq Hnow Hl HQ. unfold recoverLeasesScript. do 3 wp_step.
  apply wp_ZRANGEBYSCORE; [typed|done|]. wp_step.
  apply wp_map_each_fold with (step := recover_one_ks q) (out := recover_out q) (P := wf_id).
  - intros. by apply wp_recover_one.
  - intros. by apply wf_recover_one.
  - by apply (due_wf m (KLease q)).
  - done.
  - by wp_step.
Qed.

(** *** retry and purge of dead jobs *)

Definition revived_ks (q jid : string) (m : keyspace) : keyspace :=
  zadd (readyKey q) jid (job_priority m jid)
    (hset (jobKey jid)
      [("state", "pending"); ("attempt", dec 0); ("last_error", ""); ("completed_at", dec 0);
       ("started_at", dec 0)] (lrem (deadKey q) jid m)).

Lemma job_priority_lrem m q jid j : wf_queue q → wf_id j →
  job_priority (lrem (deadKey q) jid m) j = job_priority m j.
Proof. intros. unfold job_priority. by ks_simp. Qed.

Lemma wf_revived q jid m : wf_store m → wf_queue q → wf_id jid → wf_store (revived_ks q jid m).
Proof. intros. unfold revived_ks. wf_chain. by repeat constructor. Qed.

Lemma wp_retryDeadScript q jid m Q : wf_store m → wf_queue q → wf_id jid →
  (jid ∉ list_at m (deadKey q) → Q (lrem (deadKey q) jid m) (Ok (RInt 0))) →
  (jid ∈ list_at m (deadKey q) → ¬ can_incr (revived_ks q jid m) (statsKey q) "retried" →
     ∀ msg, Q (revived_ks q jid m) (Err msg)) →
  (jid ∈ list_at m (deadKey q) → can_incr (revived_ks q jid m) (statsKey q) "retried" →
     Q (hincr (statsKey q) "retried" (revived_ks q jid m)) (Ok (RInt 1))) →
  wp (S := S) (retryDeadScript (jobKey jid) (deadKey q) (readyKey q) (statsKey q) jid) Q m.
Proof.
  intros Hm Hq Hid Hno Herr Hok. unfold retryDeadScript. do 2 (wp_step; ks_fold).
  unfold bit, b2z. case_bool_decide as Hin.
  - specialize (Herr Hin). specialize (Hok Hin). unfold revived_ks in *.
    rewrite decide_False by done. wp_step.
    apply wp_priority_or_5; [wf_chain|done|]. rewrite job_priority_lrem by done.
    pose proof (job_priority_safe m jid Hm Hid).
    do 6 (wp_step; ks_fold); [|by apply Herr]. wp_step. by apply Hok.
  - rewrite decide_True by done. wp_step. by apply Hno.
Qed.

Definition purge_ks (q : string) (m : keyspace) : keyspace :=
  delete (deadKey q) (foldl (λ m jid, delete (jobKey jid) m) m (list_at m (deadKey q))).

Lemma lrange_all l : lrange 0 (-1) l = l.
Proof.
  unfold lrange. set (n := Z.of_nat (length l)).
  change (if decide (0 < 0) then Z.max 0 (n + 0) else 0) with 0.
  change (if decide (-1 < 0) then n + -1 else Z.min (-1) (n - 1)) with (n + -1).
  change (Z.to_nat 0) with 0%nat. rewrite drop_0. case_decide as Hd.
  - apply take_ge. unfold n. lia.
  - destruct l; [done|]. unfold n in Hd. cbn in Hd. lia.
Qed.

Lemma wp_purgeDeadScript q m Q : wf_store m → wf_queue q →
  Q (purge_ks q m) (Ok (RInt (Z.of_nat (length (list_at m (deadKey q)))))) →
  wp (S := S) (purgeDeadScript (deadKey q)) Q m.
Proof.
  intros Hm Hq HQ. unfold purgeDeadScript. do 2 wp_step. rewrite lrange_all. wp_step.
  apply wp_for_each_fold with (step := λ m jid, delete (jobKey jid) m) (P := wf_id).
  - intros x m' Q' _ _ HQ'. by do 3 wp_step.
  - intros. by apply wf_store_delete.
  - by apply wf_dead.
  - done.
  - by do 3 wp_step.
Qed.
End Specs.
