(* ===== verification/QueueSpecs.v ===== *)
(** * QueueSpecs: what the queue's methods guarantee

    Rules for the Go layer, then the functional theorems about each method of
    [Queue.v], on a server that satisfies [RedisLaws] behind a network that
    delivers ([Reliable]).  [Lifecycle.v] treats arbitrary networks. *)
From S2P Require Import Prelude Float Keys Redis Lua MemRedis Keyspace Job Scripts Queue ScriptSpecs.

Open Scope string_scope.
Open Scope Z_scope.

(** ** Rules *)

Section Rules.
Context {S : Type} `{RedisLaws S} `{!Reliable S}.

Lemma wp_Run {A} (script : M S string A) Q m : wp script Q m → wp (Run script) Q m.
Proof.
  intros Hs s <-. unfold Run. pose proof (reliable s) as Hr.
  destruct (law_transport s) as [Hk _].
  destruct (transport s) as [s1 d]. cbn in *. subst d. cbn. by apply Hs.
Qed.

Lemma wp_wrap {A} context (c : M S string A) (Q : keyspace → result error A → Prop) m :
  wp c (λ m' r, Q m' (match r with Ok a => Ok a | Err e => Err (Errorf context e) end)) m →
  wp (wrap context c) Q m.
Proof.
  intros Hc. unfold wrap. apply wp_bind, wp_try. eapply wp_mono; [exact Hc|].
  cbv beta. intros m' [a|e] HQ; [by apply wp_ret|by apply wp_throw].
Qed.

Lemma wp_plain {A} (c : M S string A) (Q : keyspace → result error A → Prop) m :
  wp c (λ m' r, Q m' (match r with Ok a => Ok a | Err e => Err (ErrText e) end)) m →
  wp (plain c) Q m.
Proof.
  intros Hc. unfold plain. apply wp_bind, wp_try. eapply wp_mono; [exact Hc|].
  cbv beta. intros m' [a|e] HQ; [by apply wp_ret|by apply wp_throw].
Qed.
End Rules.

(** Times of day that a double holds in milliseconds. *)
Definition wf_time (t : Z) : Prop := - 2 ^ 52 ≤ UnixMilli t ≤ 2 ^ 52.

#[export] Instance wf_time_dec t : Decision (wf_time t).
Proof. unfold wf_time. apply _. Defined.

Lemma wf_time_safe t : wf_time t → safe_int (UnixMilli t).
Proof. unfold wf_time, safe_int. lia. Qed.

Lemma wf_time_lease t : wf_time t → safe_int (UnixMilli t + 30000).
Proof. unfold wf_time, safe_int. lia. Qed.

#[export] Hint Resolve wf_time_safe wf_time_lease : winter.

Lemma can_incr_frame m m' k f : hash_at m' k = hash_at m k → can_incr m k f → can_incr m' k f.
Proof. intros Hh (n & Hn & Hr). exists n. unfold counter in *. by rewrite Hh. Qed.

(** ** Enqueue *)

(** The record a job hash holds right after enqueueing. *)
Definition fresh_record (job : JobRecord) (uk : string) : JobRecord := {|
  ID := ID job; Kind := Kind job; Queue := Queue job; Priority := Priority job;
  State := State job; Payload := Payload job; Attempt := 0; MaxRetries := MaxRetries job;
  CreatedAt := CreatedAt job; ScheduledAt := ScheduledAt job; StartedAt := 0; CompletedAt := 0;
  LastError := ""; UniqueKey := uk; WorkflowID := WorkflowID job |}.

Lemma parse_enqueue_fields job uk h : wf_record job →
  parseJobRecordFromMap (hset_all (enqueue_fields job uk) h) = fresh_record job uk.
Proof.
  intros (_ & _ & Hp & Hm & Hs & Hc & _). unfold parseJobRecordFromMap, fresh_record, field.
  cbn [hset_all foldl enqueue_fields fst snd]. simplify_map_eq. cbn [default from_option id].
  unfold Atoi. by rewrite !ParseInt_dec by eauto with winter.
Qed.

Lemma unique_slot_key u p : is_unique_key (unique_slot u p).1.
Proof. unfold unique_slot. case_decide; [right; eauto|by left]. Qed.

(** Every key outside the list keeps its value. *)
Definition untouched (keys : list string) (m m' : keyspace) : Prop :=
  ∀ k, k ∉ keys → m' !! k = m !! k.

Lemma untouched_put keys k v m : k ∈ keys → untouched keys m (put k v m).
Proof. intros Hk k' Hk'. apply lookup_put_ne. set_solver. Qed.

Lemma untouched_delete keys k m : k ∈ keys → untouched keys m (delete k m).
Proof. intros Hk k' Hk'. apply lookup_delete_ne. set_solver. Qed.

Lemma untouched_refl keys m : untouched keys m m.
Proof. done. Qed.

Lemma untouched_trans keys m1 m2 m3 :
  untouched keys m1 m2 → untouched keys m2 m3 → untouched keys m1 m3.
Proof. intros H1 H2 k Hk. by rewrite H2, H1. Qed.

Lemma untouched_hincr keys k f m : k ∈ keys → untouched keys m (hincr k f m).
Proof. intros Hk. unfold hincr. destruct (counter m k f); [by apply untouched_put|done]. Qed.

Lemma untouched_claim keys uk jid ttl m : uk ∈ keys → untouched keys m (claim_ks uk jid ttl m).
Proof. intros Hk. unfold claim_ks. case_decide; [by apply untouched_put|done]. Qed.

(** A counter after its increment. *)
Lemma counter_hincr m k f n : counter m k f = Some n → in_int64 (n + 1) →
  counter (hincr k f m) k f = Some (n + 1).
Proof.
  intros Hn Hr. unfold hincr. rewrite Hn. unfold counter, hset. rewrite hash_at_put_eq. cbn.
  rewrite lookup_insert_eq. cbn. by rewrite string2ll_dec.
Qed.

Lemma counter_hincr_ne m k f f' : f ≠ f' → counter (hincr k f m) k f' = counter m k f'.
Proof.
  intros Hf. unfold hincr. destruct (counter m k f); [|done]. unfold counter, hset.
  rewrite hash_at_put_eq. cbn. by rewrite lookup_insert_ne.
Qed.

(** Decides [untouched] of a chain of updates. *)
Ltac untouched_chain :=
  ks_unfold;
  repeat first
    [ apply untouched_refl
    | eapply untouched_trans; [|apply untouched_put; set_solver]
    | eapply untouched_trans; [|apply untouched_delete; set_solver]
    | eapply untouched_trans; [|apply untouched_hincr; set_solver]
    | eapply untouched_trans; [|apply untouched_claim; set_solver] ].

Section Enqueue.
Context {S : Type} `{RedisLaws S} `{!Reliable S}.

Lemma wp_Enqueue job u p m Q :
  wf_store m → wf_record job → safe_int (unique_slot u p).2 →
  let '(uk, ttl) := unique_slot u p in
  (uk ≠ "" → ttl > 0 → is_Some (m !! uk) → Q m (Err ErrDuplicate)) →
  ((uk ≠ "" → ttl > 0 → m !! uk = None) →
     ¬ can_incr (enqueued_ks job uk ttl m) (statsKey (Queue job)) "enqueued" →
     ∀ e, Q (enqueued_ks job uk ttl m) (Err e)) →
  ((uk ≠ "" → ttl > 0 → m !! uk = None) →
     can_incr (enqueued_ks job uk ttl m) (statsKey (Queue job)) "enqueued" →
     Q (hincr (statsKey (Queue job)) "enqueued" (enqueued_ks job uk ttl m)) (Ok tt)) →
  wp (S := S) (Enqueue job u p) Q m.
Proof.
  intros Hm Hj Httl. pose proof (unique_slot_key u p) as Huk. unfold Enqueue.
  destruct (unique_slot u p) as [uk ttl]. cbn [fst snd] in *. intros Hdup Herr Hok.
  apply wp_bind, wp_try, wp_Run. apply wp_enqueueScript; try done.
  - intros H1 H2 H3. cbv beta iota. apply wp_throw. by apply Hdup.
  - intros H1 H2 msg. cbv beta iota. destruct (contains _ _); apply wp_throw; by apply Herr.
  - intros H1 H2. cbv beta iota. apply wp_ret. by apply Hok.
Qed.

Lemma stats_of_enqueued job uk ttl m : wf_record job → is_unique_key uk →
  hash_at (enqueued_ks job uk ttl m) (statsKey (Queue job)) = hash_at m (statsKey (Queue job)).
Proof.
  intros (Hid & Hq & _) Huk. unfold enqueued_ks, place_ks. case_decide; by ks_simp.
Qed.

(** C24: a successful Enqueue writes the job's hash so that it reads back as the
    job with fresh counters, puts the id in exactly one of the ready set (under
    its priority) and the delayed set (under its due time), counts it, records
    the owner of the unique key, and touches nothing else. *)
Theorem Enqueue_stores job u p (m : keyspace) :
  wf_store m → wf_record job → safe_int (unique_slot u p).2 →
  (is_Some (m !! (unique_slot u p).1) → (unique_slot u p).1 = "" ∨ (unique_slot u p).2 ≤ 0) →
  can_incr m (statsKey (Queue job)) "enqueued" →
  wp (S := S) (Enqueue job u p) (λ m' r,
    let '(uk, ttl) := unique_slot u p in
    r = Ok tt ∧
    parseJobRecordFromMap (hash_at m' (jobKey (ID job))) = fresh_record job uk ∧
    zset_at m' (readyKey (Queue job)) =
      (if decide (ScheduledAt job > 0) then zset_at m (readyKey (Queue job))
       else <[ID job := Priority job]> (zset_at m (readyKey (Queue job)))) ∧
    zset_at m' (delayedKey (Queue job)) =
      (if decide (ScheduledAt job > 0)
       then <[ID job := ScheduledAt job]> (zset_at m (delayedKey (Queue job)))
       else zset_at m (delayedKey (Queue job))) ∧
    counter m' (statsKey (Queue job)) "enqueued" =
      (λ n, n + 1) <$> counter m (statsKey (Queue job)) "enqueued" ∧
    (uk ≠ "" → ttl > 0 → str_at m' uk = Some (ID job)) ∧
    untouched [jobKey (ID job); readyKey (Queue job); delayedKey (Queue job);
               statsKey (Queue job); uk] m m') m.
Proof.
  intros Hm Hj Httl Hfree Hc. pose proof (unique_slot_key u p) as Huk.
  pose proof (wp_Enqueue job u p m) as Hw.
  destruct (unique_slot u p) as [uk ttl]. cbn [fst snd] in *. apply Hw; [done..| | |]; clear Hw.
  - intros H1 H2 H3. destruct (Hfree H3); [done|lia].
  - intros _ Hn. destruct Hn. eapply can_incr_frame; [|exact Hc]. by apply stats_of_enqueued.
  - intros _ (n & Hn & Hr). pose proof Hj as (Hid & Hq & _).
    split; [done|]. rewrite (counter_hincr _ _ _ n) by done.
    unfold counter in Hn |- *. rewrite stats_of_enqueued in Hn by done. rewrite Hn.
    unfold enqueued_ks, place_ks. repeat split.
    + case_decide; ks_simp; by apply parse_enqueue_fields.
    + case_decide; by ks_simp.
    + case_decide; by ks_simp.
    + intros Hne Hpos. destruct Huk as [->|[v ->]]; [done|].
      unfold claim_ks. rewrite (decide_True (P := uniqueKey v ≠ "" ∧ ttl > 0)) by done.
      case_decide; by ks_simp.
    + case_decide; untouched_chain.
Qed.

(** A second Enqueue under a unique key that is still held is refused with
    ErrDuplicate, whatever the job, and changes nothing. *)
Theorem Enqueue_duplicate job u p (m : keyspace) :
  wf_store m → wf_record job → safe_int (unique_slot u p).2 →
  u ≠ "" → Second ≤ p < 2 ^ 22 * Second → is_Some (m !! uniqueKey u) →
  wp (S := S) (Enqueue job u p) (λ m' r, r = Err ErrDuplicate ∧ m' = m) m.
Proof.
  intros Hm Hj Httl Hu Hp Hheld. pose proof (wp_Enqueue job u p m) as Hw.
  unfold unique_slot in *. unfold Second in *. rewrite decide_True in * by (split; [done|lia]).
  rewrite Seconds_trunc in * by (unfold Second; lia). unfold Second in *. cbn [fst snd] in *.
  assert (p / 1000000000 > 0) by (apply Z.lt_gt, Z.div_str_pos; lia).
  apply Hw; [done..| |]; intros Hfree; exfalso;
    rewrite (Hfree ltac:(done) ltac:(done)) in Hheld; by destruct Hheld.
Qed.
End Enqueue.

(** ** Order of the ready set *)

#[export] Instance zle_trans : Transitive zle.
Proof.
  intros [x a] [y b] [z c]. unfold zle. cbn. intros [?|[-> ?]] [?|[-> ?]]; try (left; lia).
  right. split; [done|]. by etrans.
Qed.

#[export] Instance zle_total : Total zle.
Proof.
  intros [x a] [y b]. unfold zle. cbn. destruct (Z.lt_trichotomy a b) as [?|[->|?]].
  - by left; left.
  - destruct (total String.le x y); [left|right]; by right.
  - by right; left.
Qed.

(** The head of [zsorted] is the least element. *)
Lemma zsorted_head z x n l : zsorted z = (x, n) :: l →
  z !! x = Some n ∧ ∀ y k, z !! y = Some k → zle (x, n) (y, k).
Proof.
  intros Hz. split; [apply zsorted_elem; rewrite Hz; by left|].
  intros y k Hy. apply zsorted_elem in Hy.
  pose proof (StronglySorted_merge_sort zle (map_to_list z)) as Hs.
  change (merge_sort zle (map_to_list z)) with (zsorted z) in Hs. rewrite Hz in Hs, Hy.
  apply StronglySorted_inv in Hs as [_ Hs]. rewrite Forall_forall in Hs.
  apply elem_of_cons in Hy as [[= -> ->]|Hy]; [|by apply Hs].
  destruct (zle_total (x, n) (x, n)); done.
Qed.

Lemma wf_uk_shape jid m : wf_store m → wf_id jid → uk_shape jid m.
Proof.
  intros Hm Hid uk Huk. destruct (decide (uk = "")) as [->|Hne]; [by left|]. right.
  by eapply unique_key_shape.
Qed.

(** A released unique key is free; another owner's is kept. *)
Lemma release_owner jid m uk : hash_at m (jobKey jid) !! "unique_key" = Some uk → uk ≠ "" →
  str_at (release_ks jid m) uk = (if decide (str_at m uk = Some jid) then None else str_at m uk).
Proof.
  intros Huk Hne. unfold release_ks. rewrite Huk. case_decide as Hd.
  - destruct Hd as [_ Hd]. rewrite decide_True by done. apply str_at_delete_eq.
  - rewrite decide_False by tauto. done.
Qed.

Lemma untouched_release keys jid m uk : hash_at m (jobKey jid) !! "unique_key" = Some uk →
  uk ∈ keys → untouched keys m (release_ks jid m).
Proof.
  intros Huk Hk. unfold release_ks. rewrite Huk. case_decide; [by apply untouched_delete|done].
Qed.

(** Over a method that is one request and wraps its error. *)
Ltac go_op := apply wp_bind, wp_wrap, wp_Run.

Section Methods.
Context {S : Type} `{RedisLaws S} `{!Reliable S}.

(** Nothing can be taken from the queue. *)
Definition nothing_ready (m : keyspace) (q : string) : Prop :=
  is_Some (m !! pausedKey q) ∨ zset_at m (readyKey q) = ∅.

#[export] Instance nothing_ready_dec m q : Decision (nothing_ready m q).
Proof. unfold nothing_ready. apply _. Defined.

Lemma wp_Dequeue now q w m Q : wf_store m → wf_queue q → wf_time now →
  (nothing_ready m q → Q m (Ok None)) →
  (∀ jid p rest, ¬ nothing_ready m q → zsorted (zset_at m (readyKey q)) = (jid, p) :: rest → wf_id jid →
     let m' := dequeue_ks q w jid (UnixMilli now) 30000 m in
     Q m' (Ok (Some (parseJobRecordFromMap (hash_at m' (jobKey jid)))))) →
  wp (S := S) (Dequeue now q w) Q m.
Proof.
  intros Hm Hq Hnow Hnone Hsome. unfold Dequeue. go_op.
  apply wp_dequeueScript; [done|done|eauto with winter|done|by apply wf_time_lease| | |].
  - intros Hp. cbv beta iota. apply wp_ret, Hnone. by left.
  - intros Hp Hz%zsorted_nil. cbv beta iota. apply wp_ret, Hnone. by right.
  - change (Milliseconds DefaultLeaseDuration) with 30000.
    intros jid p rest fvs Hp Hz Hid Hf. cbv beta iota.
    assert (fvs ≠ []) as Hne.
    { intros ->. apply Permutation_nil_l, eq_sym, map_to_list_empty_iff in Hf. revert Hf.
      unfold dequeue_ks. ks_simp. cbn [hset_all foldl]. intros He. by apply insert_non_empty in He. }
    rewrite decide_False by (by destruct fvs as [|[]]). apply wp_ret.
    rewrite (parse_hgetall _ (hash_at (dequeue_ks q w jid (UnixMilli now) 30000 m) (jobKey jid))) by done.
    eapply Hsome; [|done|done].
    intros [[v Hv]|He]; [by rewrite Hp in Hv|].
    destruct (zsorted_head _ _ _ _ Hz) as [Hin _]. by rewrite He in Hin.
Qed.

(** C4: Dequeue on a paused or empty queue returns nothing and changes nothing;
    otherwise it takes the job with the least (priority, id), returns its
    record as it then stands, and moves it from the ready set to the active
    set under a lease of 30 seconds in the name of the worker. *)
Theorem Dequeue_takes_min now q w (m : keyspace) :
  wf_store m → wf_queue q → wf_time now →
  wp (S := S) (Dequeue now q w) (λ m' r,
    if decide (nothing_ready m q)
    then r = Ok None ∧ m' = m
    else ∃ jid p,
      zset_at m (readyKey q) !! jid = Some p ∧
      (∀ j p', zset_at m (readyKey q) !! j = Some p' → p < p' ∨ (p = p' ∧ String.le jid j)) ∧
      r = Ok (Some (parseJobRecordFromMap (hash_at m' (jobKey jid)))) ∧
      hash_at m' (jobKey jid) =
        hset_all [("state", "active"); ("started_at", dec (UnixMilli now))]
          (hash_at m (jobKey jid)) ∧
      zset_at m' (readyKey q) = delete jid (zset_at m (readyKey q)) ∧
      set_at m' (activeKey q) = {[jid]} ∪ set_at m (activeKey q) ∧
      set_at m' (workerJobsKey w) = {[jid]} ∪ set_at m (workerJobsKey w) ∧
      zset_at m' (leaseKey q) = <[jid := UnixMilli now + 30000]> (zset_at m (leaseKey q)) ∧
      untouched [readyKey q; activeKey q; jobKey jid; workerJobsKey w; leaseKey q] m m') m.
Proof.
  intros Hm Hq Hnow. apply wp_Dequeue; [done..| |].
  - intros Hn. by rewrite decide_True.
  - intros jid p rest Hn Hz Hid. cbv zeta. rewrite decide_False by done.
    destruct (zsorted_head _ _ _ _ Hz) as [Hin Hmin].
    exists jid, p. split_and!; [done|exact Hmin|done|unfold dequeue_ks; by ks_simp..|].
    unfold dequeue_ks. untouched_chain.
Qed.
End Methods.
