(* ===== verification/EnqueueSpecs.v ===== *)
(** * EnqueueSpecs: more about enqueueing

    Reading a job back, windows below a second, and [EnqueueMany] against one
    [Enqueue] per job. *)
From S2P Require Import Prelude Float Keys Redis Lua Keyspace Job Scripts Queue ScriptSpecs QueueSpecs.

Open Scope string_scope.
Open Scope Z_scope.

(** The effect of one enqueue without a unique key. *)
Definition enqueue_plain_ks (m : keyspace) (job : JobRecord) : keyspace :=
  hincr (statsKey (Queue job)) "enqueued" (enqueued_ks job "" 0 m).

(** The counters have room for [n] more jobs of the list. *)
Definition room (n : nat) (jobs : list JobRecord) (m : keyspace) : Prop :=
  ∀ job, job ∈ jobs → ∃ c, counter m (statsKey (Queue job)) "enqueued" = Some c ∧
    in_int64 (c + Z.of_nat n).

Lemma room_can_incr n jobs job m : room (Datatypes.S n) jobs m → job ∈ jobs →
  can_incr m (statsKey (Queue job)) "enqueued".
Proof.
  intros Hr Hj. destruct (Hr job Hj) as (c & Hc & Hrc). exists c. split; [done|].
  apply counter_range in Hc. unfold in_int64 in *. lia.
Qed.

Section Plain.
Context (job : JobRecord) (Hj : wf_record job).

Lemma plain_stats m : hash_at (enqueued_ks job "" 0 m) (statsKey (Queue job)) =
  hash_at m (statsKey (Queue job)).
Proof. apply stats_of_enqueued; [done|by left]. Qed.

Lemma plain_counter_other m q : wf_queue q → q ≠ Queue job →
  counter (enqueue_plain_ks m job) (statsKey q) "enqueued" = counter m (statsKey q) "enqueued".
Proof.
  intros Hq Hne. destruct Hj as (Hid & Hq' & _). unfold enqueue_plain_ks, counter.
  assert (statsKey (Queue job) ≠ statsKey q)
    by (change (render (KStats (Queue job)) ≠ render (KStats q)); apply render_ne; [done|done|congruence]).
  unfold enqueued_ks, place_ks. case_decide; by ks_simp.
Qed.

Lemma wf_plain m : wf_store m → can_incr m (statsKey (Queue job)) "enqueued" →
  wf_store (enqueue_plain_ks m job).
Proof.
  intros Hm Hc. destruct Hj as (Hid & Hq & _). apply wf_hincr_stats; [|done|].
  - apply wf_enqueued; [done|done|by left].
  - eapply can_incr_frame; [apply plain_stats|done].
Qed.

Lemma room_step n jobs m : Forall wf_record jobs →
  room (Datatypes.S n) (job :: jobs) m → room n jobs (enqueue_plain_ks m job).
Proof.
  intros Hjs Hr job' Hj'. destruct (Hr job' ltac:(by right)) as (c & Hc & Hrc).
  destruct (decide (Queue job' = Queue job)) as [E|Hne].
  - exists (c + 1). rewrite E in *. unfold enqueue_plain_ks.
    split; [|unfold in_int64 in *; lia]. apply counter_hincr.
    + unfold counter in *. by rewrite plain_stats.
    + apply counter_range in Hc. unfold in_int64 in *. lia.
  - exists c. rewrite plain_counter_other; [|by eapply Forall_forall in Hjs as (_ & ? & _)|done].
    split; [done|]. apply counter_range in Hc. unfold in_int64 in *. lia.
Qed.
End Plain.

(** The effect of enqueueing a list. *)
Lemma wf_plain_fold jobs m n : Forall wf_record jobs → wf_store m →
  room (length jobs + n) jobs m → wf_store (foldl enqueue_plain_ks m jobs).
Proof.
  revert m. induction jobs as [|job jobs IH]; intros m Hjs Hm Hr; [done|].
  apply Forall_cons in Hjs as [Hj Hjs]. cbn in *. apply IH; [done| |].
  - apply wf_plain; [done|done|]. eapply room_can_incr; [exact Hr|]. by left.
  - by apply room_step.
Qed.

Lemma room_sub n jobs jobs' m : room n jobs m → (∀ job, job ∈ jobs' → job ∈ jobs) → room n jobs' m.
Proof. intros Hr Hs job Hj. by apply Hr, Hs. Qed.

Lemma room_fold jobs rest m n : Forall wf_record (jobs ++ rest)%list →
  room (length jobs + n) (jobs ++ rest)%list m → room n rest (foldl enqueue_plain_ks m jobs).
Proof.
  revert m. induction jobs as [|job jobs IH]; intros m Hjs Hr; [done|].
  cbn in Hjs. apply Forall_cons in Hjs as [Hj Hjs]. cbn in *. apply IH; [done|].
  by apply room_step.
Qed.

Section Enqueue.
Context {S : Type} `{RedisLaws S} `{!Reliable S}.

Lemma wp_run_enqueue_plain job m Q : wf_store m → wf_record job →
  can_incr m (statsKey (Queue job)) "enqueued" →
  Q (enqueue_plain_ks m job) (Ok (RBulk (ID job))) →
  wp (S := S) (run_enqueue job "" 0) Q m.
Proof.
  intros Hm Hj Hc HQ. unfold run_enqueue. apply wp_enqueueScript; try done; [by left|..].
  intros _ Hn. destruct Hn. eapply can_incr_frame; [by apply plain_stats|done].
Qed.

Lemma wp_Enqueue_plain job m Q : wf_store m → wf_record job →
  can_incr m (statsKey (Queue job)) "enqueued" →
  Q (enqueue_plain_ks m job) (Ok tt) → wp (S := S) (Enqueue job "" 0) Q m.
Proof.
  intros Hm Hj Hc HQ. apply (wp_Enqueue job "" 0 m Q Hm Hj ltac:(done)); cbn [unique_slot].
  - done.
  - intros _ Hn. destruct Hn. eapply can_incr_frame; [by apply plain_stats|done].
  - by intros _ _.
Qed.

(** One pipeline: every command answers, the contents are the fold. *)
Lemma wp_pipeline jobs m Q : wf_store m → Forall wf_record jobs → room (length jobs) jobs m →
  Q (foldl enqueue_plain_ks m jobs) (Ok ((λ job, Ok (RBulk (ID job))) <$> jobs)) →
  wp (S := S) (exec_pipeline ((λ job, run_enqueue job "" 0) <$> jobs)) Q m.
Proof.
  unfold exec_pipeline.
  revert m Q. induction jobs as [|job jobs IH]; intros m Q Hm Hjs Hr HQ; cbn in HQ |- *.
  - by apply wp_ret.
  - apply Forall_cons in Hjs as [Hj Hjs]. cbn in Hr.
    assert (Hc : can_incr m (statsKey (Queue job)) "enqueued")
      by (eapply room_can_incr; [exact Hr|by left]).
    apply wp_bind, wp_try, wp_Run, wp_run_enqueue_plain; [done..|].
    apply wp_bind, IH; [by apply wf_plain|done|by apply room_step|].
    by apply wp_ret.
Qed.

Lemma batch_error_none {A} (f : A → reply) (l : list A) :
  batch_error ((λ x, Ok (f x)) <$> l) = None.
Proof. by induction l. Qed.

Lemma wp_enqueueBatch jobs m Q : wf_store m → Forall wf_record jobs → room (length jobs) jobs m →
  Q (foldl enqueue_plain_ks m jobs) (Ok tt) → wp (S := S) (enqueueBatch jobs) Q m.
Proof.
  intros Hm Hjs Hr HQ. unfold enqueueBatch.
  apply wp_bind, wp_wrap, wp_Run, wp_ret. cbv beta iota. apply wp_bind.
  apply wp_pipeline; [done..|].
  rewrite (batch_error_none (λ job, RBulk (ID job))). by apply wp_ret.
Qed.

Lemma wp_EnqueueMany_loop fuel i jobs m Q : wf_store m → Forall wf_record (drop i jobs) →
  room (length (drop i jobs)) (drop i jobs) m → (length jobs < i + fuel)%nat →
  Q (foldl enqueue_plain_ks m (drop i jobs)) (Ok tt) →
  wp (S := S) (EnqueueMany_loop fuel i jobs) Q m.
Proof.
  revert i m. induction fuel as [|fuel IH]; intros i m Hm Hjs Hr Hf HQ; cbn [EnqueueMany_loop].
  { rewrite drop_ge in HQ by lia. by apply wp_ret. }
  destruct (decide (i < length jobs)%nat) as [Hi|Hi].
  2: { rewrite drop_ge in HQ by lia. by apply wp_ret. }
  assert (∃ n, ((if decide (length jobs < i + chunkSize) then length jobs else i + chunkSize) - i = n)%nat
               ∧ drop i jobs = (take n (drop i jobs) ++ drop (i + chunkSize) jobs)%list)
    as (n & -> & Hsplit).
  { eexists. split; [reflexivity|]. case_decide.
    - rewrite (drop_ge jobs (i + chunkSize)), take_ge, app_nil_r by (rewrite ?length_drop; lia). done.
    - replace (i + chunkSize - i)%nat with chunkSize by lia.
      by rewrite <- drop_drop, take_drop. }
  rewrite Hsplit in Hjs, Hr. rewrite length_app in Hr.
  rewrite Hsplit, foldl_app in HQ.
  pose proof (proj1 (Forall_app _ _ _) Hjs) as [Hjs1 Hjs2].
  apply wp_bind, wp_enqueueBatch; [done|done| |].
  - intros job Hj. destruct (Hr job) as (c & Hc & Hrc); [set_solver|].
    exists c. split; [done|]. apply counter_range in Hc. unfold in_int64 in *. lia.
  - apply IH; [| done| |unfold chunkSize; lia|done].
    + eapply (wf_plain_fold _ _ (length (drop (i + chunkSize) jobs))); [done|done|].
      eapply room_sub; [exact Hr|]. set_solver.
    + by apply room_fold.
Qed.

Lemma wp_EnqueueMany jobs m Q : wf_store m → Forall wf_record jobs →
  room (length jobs) jobs m →
  Q (foldl enqueue_plain_ks m jobs) (Ok tt) → wp (S := S) (EnqueueMany jobs) Q m.
Proof. intros. unfold EnqueueMany. apply wp_EnqueueMany_loop; rewrite ?drop_0; try done. lia. Qed.

Lemma wp_Enqueue_each jobs m Q : wf_store m → Forall wf_record jobs →
  room (length jobs) jobs m →
  Q (foldl enqueue_plain_ks m jobs) (Ok tt) →
  wp (S := S) (for_each jobs (λ job, Enqueue job "" 0)) Q m.
Proof.
  revert m. induction jobs as [|job jobs IH]; intros m Hm Hjs Hr HQ; cbn [for_each].
  - by apply wp_ret.
  - apply Forall_cons in Hjs as [Hj Hjs]. cbn in Hr.
    assert (Hc : can_incr m (statsKey (Queue job)) "enqueued")
      by (eapply room_can_incr; [exact Hr|by left]).
    apply wp_bind, wp_Enqueue_plain; [done..|].
    apply IH; [by apply wf_plain|done|by apply room_step|done].
Qed.

(** EnqueueMany, which sends chunks of 100 jobs as pipelines, has the
    outcome and the effect of enqueueing the jobs one by one in order without
    a unique key, however many there are. *)
Theorem EnqueueMany_each jobs (s : S) :
  wf_store (ks s) → Forall wf_record jobs → room (length jobs) jobs (ks s) →
  (EnqueueMany jobs s).2 = Ok tt ∧
  (for_each jobs (λ job, Enqueue job "" 0) s).2 = Ok tt ∧
  ks (EnqueueMany jobs s).1 = ks (for_each jobs (λ job, Enqueue job "" 0) s).1.
Proof.
  intros Hm Hjs Hr.
  pose proof (wp_EnqueueMany jobs (ks s)
    (λ m r, r = Ok tt ∧ m = foldl enqueue_plain_ks (ks s) jobs) Hm Hjs Hr (conj eq_refl eq_refl)
    s eq_refl) as [-> ->].
  pose proof (wp_Enqueue_each jobs (ks s)
    (λ m r, r = Ok tt ∧ m = foldl enqueue_plain_ks (ks s) jobs) Hm Hjs Hr (conj eq_refl eq_refl)
    s eq_refl) as [-> ->].
  done.
Qed.

Lemma wp_GetJob jid m Q : wf_store m → wf_id jid →
  Q m (Ok (if decide (hash_at m (jobKey jid) = ∅) then None
           else Some (parseJobRecordFromMap (hash_at m (jobKey jid))))) →
  wp (S := S) (GetJob jid) Q m.
Proof.
  intros Hm Hid HQ. unfold GetJob. apply wp_bind, wp_wrap, wp_Run, wp_HGETALL; [typed|].
  intros fvs Hf. cbv beta iota. cbn [map_val]. rewrite (pairs_map_hgetall fvs _ Hf).
  case_decide; by apply wp_ret.
Qed.

(** What a successful enqueue leaves of the job. *)
Lemma wp_Enqueue_fresh job u p m Q : wf_store m → wf_record job → safe_int (unique_slot u p).2 →
  (is_Some (m !! (unique_slot u p).1) → (unique_slot u p).1 = "" ∨ (unique_slot u p).2 ≤ 0) →
  can_incr m (statsKey (Queue job)) "enqueued" →
  (∀ m', wf_store m' → hash_at m' (jobKey (ID job)) ≠ ∅ →
     parseJobRecordFromMap (hash_at m' (jobKey (ID job))) = fresh_record job (unique_slot u p).1 →
     Q m' (Ok tt)) →
  wp (S := S) (Enqueue job u p) Q m.
Proof.
  intros Hm Hj Httl Hfree Hc HQ. pose proof (unique_slot_key u p) as Huk.
  pose proof (wp_Enqueue job u p m) as Hw.
  destruct (unique_slot u p) as [uk ttl]. cbn [fst snd] in *. apply Hw; [done..| | |]; clear Hw.
  - intros H1 H2 H3. destruct (Hfree H3); [done|lia].
  - intros _ Hn. destruct Hn. eapply can_incr_frame; [|exact Hc]. by apply stats_of_enqueued.
  - intros _ Hc'. pose proof Hj as (Hid & Hq & _).
    assert (hash_at (hincr (statsKey (Queue job)) "enqueued" (enqueued_ks job uk ttl m)) (jobKey (ID job))
            = hset_all (enqueue_fields job uk) (hash_at m (jobKey (ID job)))) as E.
    { unfold enqueued_ks, place_ks. case_decide; by ks_simp. }
    apply HQ; rewrite ?E; [| |by apply parse_enqueue_fields].
    2: { cbn [hset_all foldl enqueue_fields fst snd]. apply insert_non_empty. }
    apply wf_hincr_stats; [|done|done]. by apply wf_enqueued.
Qed.

(** A job that was just enqueued reads back through GetJob as the record
    that was enqueued, its counters fresh: the hash is a faithful encoding of
    the record. *)
Theorem Enqueue_GetJob job u p (m : keyspace) :
  wf_store m → wf_record job → safe_int (unique_slot u p).2 →
  (is_Some (m !! (unique_slot u p).1) → (unique_slot u p).1 = "" ∨ (unique_slot u p).2 ≤ 0) →
  can_incr m (statsKey (Queue job)) "enqueued" →
  wp (S := S) (Enqueue job u p ;; GetJob (ID job))
    (λ _ r, r = Ok (Some (fresh_record job (unique_slot u p).1))) m.
Proof.
  intros Hm Hj Httl Hfree Hc. apply wp_bind, wp_Enqueue_fresh; [done..|].
  intros m' Hm' Hne Hp. cbv iota. apply wp_GetJob; [done|apply Hj|].
  by rewrite decide_False, Hp.
Qed.

(** A deduplication window below a second deduplicates nothing: the TTL is
    truncated to whole seconds, so the job is stored and the unique key neither
    consulted nor claimed, even while another job holds it. *)
Theorem Enqueue_subsecond job u p (m : keyspace) :
  wf_store m → wf_record job → u ≠ "" → 0 < p < Second →
  can_incr m (statsKey (Queue job)) "enqueued" →
  wp (S := S) (Enqueue job u p) (λ m' r,
    r = Ok tt ∧ str_at m' (uniqueKey u) = str_at m (uniqueKey u) ∧
    parseJobRecordFromMap (hash_at m' (jobKey (ID job))) = fresh_record job (uniqueKey u)) m.
Proof.
  intros Hm Hj Hu Hp Hc. pose proof (wp_Enqueue job u p m) as Hw.
  assert (Hs : unique_slot u p = (uniqueKey u, 0)).
  { unfold unique_slot. rewrite decide_True by (split; [done|lia]).
    rewrite Seconds_trunc by (unfold Second in *; lia). rewrite Z.div_small by lia. done. }
  rewrite Hs in Hw. pose proof (unique_slot_key u p) as Huk. rewrite Hs in Huk. cbn [fst] in Huk.
  apply Hw; [done..| | |]; clear Hw.
  - lia.
  - intros _ Hn. destruct Hn. eapply can_incr_frame; [|exact Hc]. by apply stats_of_enqueued.
  - intros _ _. pose proof Hj as (Hid & Hq & _). unfold enqueued_ks, claim_ks, place_ks.
    rewrite (decide_False (P := uniqueKey u ≠ "" ∧ 0 > 0)) by lia.
    split_and!; [done|case_decide; by ks_simp|].
    case_decide; ks_simp; by apply parse_enqueue_fields.
Qed.
End Enqueue.

(** ** Plain enqueues, seen from outside *)

(** A job that waits in the ready set of its queue with its record as it was
    given. *)
Definition spec_enqueued (m : keyspace) (job : JobRecord) : Prop :=
  zset_at m (readyKey (Job.Queue job)) !! ID job = Some (Job.Priority job) ∧
  parseJobRecordFromMap (hash_at m (jobKey (ID job))) = fresh_record job "".

(** What a plain enqueue leaves alone and what it shows. *)
Lemma enqueue_plain_other m job k : wf_record job → wf_key k →
  k ∉ [KJob (ID job); KReady (Job.Queue job); KDelayed (Job.Queue job); KStats (Job.Queue job)] →
  enqueue_plain_ks m job !! render k = m !! render k.
Proof.
  intros (Hid & Hq & _) Hk Hnin. unfold enqueue_plain_ks. rewrite !not_elem_of_cons in Hnin.
  destruct Hnin as (Ha & Hb & Hc & Hd & _).
  rewrite hincr_lookup by (apply (render_ne (KStats _)); [done|done|by apply not_eq_sym]).
  unfold enqueued_ks, place_ks, claim_ks. rewrite (decide_False (P := "" ≠ "" ∧ 0 > 0)) by (by intros [? _]).
  case_decide; ks_unfold; rewrite !lookup_put_ne; try done.
  - apply (render_ne (KJob _)); [done|done|by apply not_eq_sym].
  - apply (render_ne (KDelayed _)); [done|done|by apply not_eq_sym].
  - apply (render_ne (KJob _)); [done|done|by apply not_eq_sym].
  - apply (render_ne (KReady _)); [done|done|by apply not_eq_sym].
Qed.

Lemma enqueued_spec m job : wf_record job → ScheduledAt job = 0 → spec_enqueued (enqueued_ks job "" 0 m) job.
Proof.
  intros Hj Hs. pose proof Hj as (Hid & Hq & _). unfold spec_enqueued, enqueued_ks, place_ks, claim_ks.
  rewrite Hs. rewrite (decide_False (P := 0 > 0)) by lia.
  rewrite (decide_False (P := "" ≠ "" ∧ 0 > 0)) by (by intros [? _]). split.
  - ks_simp. apply lookup_insert_eq.
  - ks_simp. by apply parse_enqueue_fields.
Qed.

Lemma enqueue_plain_spec m job : wf_record job → ScheduledAt job = 0 →
  spec_enqueued (enqueue_plain_ks m job) job.
Proof.
  intros Hj Hs. destruct (enqueued_spec m job Hj Hs) as [H1 H2]. pose proof Hj as (Hid & Hq & _).
  unfold spec_enqueued, enqueue_plain_ks. by ks_simp.
Qed.

Lemma untouched_mono keys keys' m m' : (∀ k, k ∈ keys → k ∈ keys') → untouched keys m m' →
  untouched keys' m m'.
Proof. intros Hs Hu k Hk. apply Hu. intros Hin. by apply Hk, Hs. Qed.

Lemma untouched_enqueue keys m job : wf_record job →
  jobKey (ID job) ∈ keys → readyKey (Job.Queue job) ∈ keys → delayedKey (Job.Queue job) ∈ keys →
  statsKey (Job.Queue job) ∈ keys → untouched keys m (enqueue_plain_ks m job).
Proof.
  intros Hj H1 H2 H3 H4. unfold enqueue_plain_ks, enqueued_ks, place_ks, claim_ks.
  rewrite (decide_False (P := "" ≠ "" ∧ 0 > 0)) by (by intros [? _]).
  eapply untouched_trans; [|by apply untouched_hincr].
  case_decide; (eapply untouched_trans; [|by apply untouched_put]); by apply untouched_put.
Qed.
