(* ===== verification/Inspector.v ===== *)
(** * Inspector: reading and repairing queues from outside, [inspector.go]

    Times are nanoseconds, as [time.UnixMilli] makes them. *)
From S2P Require Import Prelude Float Keys Redis Lua Keyspace Job Scripts Queue ScriptSpecs QueueSpecs EnqueueSpecs.

Open Scope string_scope.
Open Scope Z_scope.

Record QueueInfo : Type := {
  Name : string;
  Ready : Z;
  Active : Z;
  Delayed : Z;
  Dead : Z;
  Completed : Z;
  Enqueued : Z
}.

Record DeadJob : Type := {
  dID : string;
  dKind : string;
  dQueue : string;
  dPayload : string;
  dAttempt : Z;
  dMaxRetries : Z;
  dLastError : string;
  dCreatedAt : Z;
  dCompletedAt : Z
}.

Definition deadJobFromRecord (rec : JobRecord) : DeadJob := {|
  dID := ID rec; dKind := Kind rec; dQueue := Job.Queue rec; dPayload := Payload rec;
  dAttempt := Attempt rec; dMaxRetries := MaxRetries rec; dLastError := LastError rec;
  dCreatedAt := CreatedAt rec * Millisecond; dCompletedAt := CompletedAt rec * Millisecond |}.

Section Inspector.
Context {S : Type} `{Redis S}.

(** [stats["..."]] of a Go map of numbers. *)
Definition stat (stats : gmap string Z) (name : string) : Z := default 0 (stats !! name).

Definition Queue (name : string) : M S error QueueInfo :=
  stats ← QueueStats name;
  mret {| Name := name; Ready := stat stats "ready"; Active := stat stats "active";
          Delayed := stat stats "delayed"; Dead := stat stats "dead";
          Completed := stat stats "completed"; Enqueued := stat stats "enqueued" |}.

Definition DeadPage (queueName : string) (offset limit : Z) : M S error (list DeadJob) :=
  records ← ListDead queueName offset limit;
  mret (deadJobFromRecord <$> records).

Definition PeekDead (queueName : string) : M S error (option DeadJob) :=
  rec ← Queue.PeekDead queueName;
  mret (deadJobFromRecord <$> rec).

Definition Retry (queueName jobID : string) : M S error unit := RetryDead queueName jobID.
Definition PurgeDead (queueName : string) : M S error Z := Queue.PurgeDead queueName.
Definition DeadCount (queueName : string) : M S error Z := Queue.DeadCount queueName.
Definition Pause (queueName : string) : M S error unit := Queue.Pause queueName.
Definition Resume (queueName : string) : M S error unit := Queue.Resume queueName.
Definition JobResult (jobID : string) : M S error (option string) := GetResult jobID.
End Inspector.

(** ** What an inspector sees *)

(** The statistics hash does not use the names of the depths. *)
Definition unnamed_depths (m : keyspace) (q : string) : Prop :=
  ∀ f, f ∈ ["ready"; "active"; "delayed"; "dead"] → hash_at m (statsKey q) !! f = None.

#[export] Instance unnamed_depths_dec m q : Decision (unnamed_depths m q).
Proof.
  refine (cast_if (decide (Forall (λ f, hash_at m (statsKey q) !! f = None)
    ["ready"; "active"; "delayed"; "dead"]))); unfold unnamed_depths; by rewrite <- Forall_forall.
Defined.

(** The value of a counter, a missing one being 0. *)
Definition count (m : keyspace) (q f : string) : Z := default 0 (counter m (statsKey q) f).

Definition snapshot (m : keyspace) (q : string) : QueueInfo := {|
  Name := q;
  Ready := Z.of_nat (size (zset_at m (readyKey q)));
  Active := Z.of_nat (size (set_at m (activeKey q)));
  Delayed := Z.of_nat (size (zset_at m (delayedKey q)));
  Dead := Z.of_nat (length (list_at m (deadKey q)));
  Completed := count m q "completed";
  Enqueued := count m q "enqueued" |}.

(** The jobs of a list that still have a record. *)
Definition recorded (m : keyspace) (ids : list string) : list JobRecord :=
  omap (λ id, if decide (hash_at m (jobKey id) = ∅) then None
              else Some (parseJobRecordFromMap (hash_at m (jobKey id)))) ids.

Section Specs.
Context {S : Type} `{RedisLaws S} `{!Reliable S}.

Lemma wp_QueueStats q m (Q : keyspace → result error (gmap string Z) → Prop) :
  wf_store m → wf_queue q →
  Q m (Ok (((λ v, (ParseInt v).1) <$> hash_at m (statsKey q)) ∪
    list_to_map [("ready", Z.of_nat (size (zset_at m (readyKey q))));
                 ("active", Z.of_nat (size (set_at m (activeKey q))));
                 ("delayed", Z.of_nat (size (zset_at m (delayedKey q))));
                 ("dead", Z.of_nat (length (list_at m (deadKey q))))])) →
  wp (S := S) (QueueStats q) Q m.
Proof.
  intros Hm Hq HQ. unfold QueueStats. apply wp_bind. unfold exec_pipeline.
  cbn [map_each].
  apply wp_bind, wp_try, wp_Run, wp_ZCARD; [typed|]. apply wp_bind.
  apply wp_bind, wp_try, wp_Run, wp_SCARD; [typed|]. apply wp_bind.
  apply wp_bind, wp_try, wp_Run, wp_ZCARD; [typed|]. apply wp_bind.
  apply wp_bind, wp_try, wp_Run, wp_LLEN; [typed|]. apply wp_bind.
  apply wp_bind, wp_try, wp_Run, wp_HGETALL; [typed|]. intros fvs Hf. apply wp_bind, wp_ret.
  do 5 apply wp_ret. cbv beta iota. cbn [list_find decide is_Err_dec is_Err].
  cbn. apply wp_ret. unfold map_val. rewrite (pairs_map_hgetall fvs _ Hf). exact HQ.
Qed.

Lemma wp_get_jobs ids m (Q : keyspace → result error (list JobRecord) → Prop) :
  wf_store m → Forall wf_id ids → Q m (Ok (recorded m ids)) →
  wp (S := S) (get_jobs ids) Q m.
Proof.
  intros Hm Hids. revert Q. induction Hids as [|id ids Hid _ IH]; intros Q HQ; cbn [get_jobs].
  - by apply wp_ret.
  - apply wp_bind, wp_GetJob; [done..|]. cbv iota. apply wp_bind, IH. cbv iota. apply wp_ret.
    cbn [recorded omap list_omap] in HQ. unfold recorded in HQ |- *. by case_decide.
Qed.

(** An inspector reads the true state.  The snapshot of a queue holds the
    sizes of its sets and its counters, a page of the dead letter list the
    records of the dead jobs on it, newest first, and reading changes nothing. *)
Theorem inspector_reads q offset limit (m : keyspace) :
  wf_store m → wf_queue q → unnamed_depths m q →
  0 ≤ offset → 0 < limit → offset + limit ≤ int64_max →
  wp (S := S) (info ← Queue q; page ← DeadPage q offset limit; mret (info, page))
    (λ m' r, m' = m ∧ r = Ok (snapshot m q,
       deadJobFromRecord <$>
         recorded m (take (Z.to_nat limit) (drop (Z.to_nat offset) (list_at m (deadKey q)))))) m.
Proof.
  intros Hm Hq Hp Ho Hl Hmax. apply wp_bind. unfold Queue. apply wp_bind, wp_QueueStats; [done..|].
  cbv iota. apply wp_ret. cbv iota. apply wp_bind. unfold DeadPage, ListDead. apply wp_bind.
  rewrite (wrap64_id (offset + limit)), wrap64_id
    by (unfold in_int64, int64_min, int64_max in *; lia).
  apply wp_bind, wp_wrap, wp_Run, wp_LRANGE; [typed|]. cbv iota.
  assert (Hlr : lrange offset (offset + limit - 1) (list_at m (deadKey q)) =
    take (Z.to_nat limit) (drop (Z.to_nat offset) (list_at m (deadKey q)))).
  { unfold lrange. rewrite !(decide_False (P := _ < 0)) by lia.
    set (l := list_at m (deadKey q)). destruct (decide (offset < Z.of_nat (length l))) as [Hlt|Hge].
    - rewrite decide_True by lia.
      destruct (decide (offset + limit - 1 ≤ Z.of_nat (length l) - 1)).
      + by replace (Z.min _ _ - offset + 1) with limit by lia.
      + rewrite Z.min_r by lia. rewrite !take_ge by (rewrite length_drop; lia). done.
    - rewrite decide_False by lia. by rewrite drop_ge, take_nil by lia. }
  apply wp_get_jobs; [done| |].
  { cbn [strings_val]. rewrite Hlr. apply Forall_take, Forall_drop, wf_dead; done. }
  cbv iota. cbn [strings_val]. rewrite Hlr. apply wp_ret. cbv iota. apply wp_ret. split; [done|].
  do 2 f_equal. unfold snapshot, stat, count, counter, counter_of.
  pose proof (wf_stats m Hm q Hq) as Hs.
  assert (Hdepth : ∀ f, f ∈ ["ready"; "active"; "delayed"; "dead"] → ∀ m' : gmap string Z,
    (((λ v, (ParseInt v).1) <$> hash_at m (statsKey q)) ∪ m') !! f = m' !! f).
  { intros f Hf m'. apply lookup_union_r. by rewrite lookup_fmap, (Hp f Hf). }
  assert (Hcount : ∀ f, f ∉ ["ready"; "active"; "delayed"; "dead"] →
    default 0 ((((λ v, (ParseInt v).1) <$> hash_at m (statsKey q)) ∪
    list_to_map [("ready", Z.of_nat (size (zset_at m (readyKey q))));
                 ("active", Z.of_nat (size (set_at m (activeKey q))));
                 ("delayed", Z.of_nat (size (zset_at m (delayedKey q))));
                 ("dead", Z.of_nat (length (list_at m (deadKey q))))]) !! f) =
    default 0 (counter_of (hash_at m (statsKey q) !! f))).
  { intros f Hf. rewrite lookup_union_l.
    - rewrite lookup_fmap. unfold counter_of. destruct (_ !! f) as [v|] eqn:Hv; [|done].
      apply Hs, numeral64_iff in Hv as (n & Hn & ->). cbn.
      by rewrite ParseInt_dec, string2ll_dec.
    - apply not_elem_of_list_to_map_1. exact Hf. }
  rewrite (Hdepth "ready"), (Hdepth "active"), (Hdepth "delayed"), (Hdepth "dead") by decide_now.
  by rewrite (Hcount "completed"), (Hcount "enqueued") by decide_now.
Qed.
End Specs.
