(* ===== verification/FinishSpecs.v ===== *)
(** * FinishSpecs: how a job leaves the active state

    Ack, Nack, RescheduleJob and CancelJob: the four ways a worker ends its
    hold on a job. *)
From S2P Require Import Prelude Float Keys Redis Lua Keyspace Job Scripts Queue ScriptSpecs QueueSpecs.

Open Scope string_scope.
Open Scope Z_scope.

(** The unique key a job's record names. *)
Definition own_key (jid : string) (m : keyspace) : list string :=
  match hash_at m (jobKey jid) !! "unique_key" with Some uk => [uk] | None => [] end.

(** [m'] is [m] with the job's unique key freed if the job owned it. *)
Definition released (jid : string) (m m' : keyspace) : Prop :=
  ∀ uk, hash_at m (jobKey jid) !! "unique_key" = Some uk → uk ≠ "" →
    str_at m' uk = (if decide (str_at m uk = Some jid) then None else str_at m uk).

Lemma counter_release jid m q f : uk_shape jid m → wf_queue q →
  counter (release_ks jid m) (statsKey q) f = counter m (statsKey q) f.
Proof. intros Huk Hq. unfold counter. by ks_simp. Qed.

Lemma released_ks jid m m1 : uk_shape jid m1 →
  hash_at m1 (jobKey jid) !! "unique_key" = hash_at m (jobKey jid) !! "unique_key" →
  (∀ u, str_at m1 (uniqueKey u) = str_at m (uniqueKey u)) →
  released jid m (release_ks jid m1).
Proof.
  intros Hs Hf Hu uk Huk Hne. rewrite <- Hf in Huk.
  destruct (Hs uk Huk) as [->|[u ->]]; [done|].
  rewrite <- Hu. by apply release_owner.
Qed.

Lemma untouched_release_own jid m m1 keys :
  hash_at m1 (jobKey jid) !! "unique_key" = hash_at m (jobKey jid) !! "unique_key" →
  untouched (own_key jid m ++ keys) m1 (release_ks jid m1).
Proof.
  intros Hf. unfold own_key. rewrite <- Hf.
  destruct (hash_at m1 (jobKey jid) !! "unique_key") as [uk|] eqn:Huk.
  - apply untouched_release with uk; [done|]. by left.
  - unfold release_ks. by rewrite Huk.
Qed.

(** Reads one field of an updated hash. *)
Ltac ks_field :=
  ks_simp; cbn [hset_all foldl fst snd]; rewrite ?lookup_insert_ne by done; try reflexivity.

(** Looks through [release_ks] of the contents named [m1]. *)
Ltac by_release m1 := ks_simp; unfold m1, unlease_ks; by ks_simp.

Lemma nack_is_dead_spec skip m jid mx : max_retries m jid = Some mx →
  nack_is_dead skip m jid = Some true → skip = true ∨ next_attempt m jid >= mx.
Proof.
  intros Hmx. unfold nack_is_dead. rewrite Hmx. destruct skip; [by left|]. cbn.
  intros [= Hb]. right. by apply bool_decide_eq_true in Hb.
Qed.

Lemma nack_is_retry_spec skip m jid mx : max_retries m jid = Some mx →
  nack_is_dead skip m jid = Some false → ¬ (skip = true ∨ next_attempt m jid >= mx).
Proof.
  intros Hmx. unfold nack_is_dead. rewrite Hmx. destruct skip; [done|]. cbn.
  intros [= Hb]. apply bool_decide_eq_false in Hb. by intros [?|?].
Qed.

Lemma wf_to_dead q jid m : wf_store m → wf_queue q → wf_id jid → wf_store (to_dead_ks q jid m).
Proof. intros. unfold to_dead_ks. wf_chain. by repeat constructor. Qed.

Section Methods.
Context {S : Type} `{RedisLaws S} `{!Reliable S}.

(** C25: Ack takes the job out of the active set, the worker's set and the lease
    set, marks it completed with everything else in its record kept, counts it,
    and frees the job's unique key exactly if the job still owns it. *)
Theorem Ack_completes now q jid w (m : keyspace) :
  wf_store m → wf_queue q → wf_id jid → can_incr m (statsKey q) "completed" →
  wp (S := S) (Ack now q jid w) (λ m' r,
    r = Ok tt ∧
    hash_at m' (jobKey jid) =
      hset_all [("state", "completed"); ("completed_at", dec (UnixMilli now))]
        (hash_at m (jobKey jid)) ∧
    set_at m' (activeKey q) = set_at m (activeKey q) ∖ {[jid]} ∧
    set_at m' (workerJobsKey w) = set_at m (workerJobsKey w) ∖ {[jid]} ∧
    zset_at m' (leaseKey q) = delete jid (zset_at m (leaseKey q)) ∧
    counter m' (statsKey q) "completed" = (λ n, n + 1) <$> counter m (statsKey q) "completed" ∧
    released jid m m' ∧
    untouched (own_key jid m ++
      [jobKey jid; activeKey q; workerJobsKey w; leaseKey q; statsKey q]) m m') m.
Proof.
  intros Hm Hq Hid Hc. unfold Ack. go_op. apply wp_ackScript; [done..| |].
  2: { intros Hn. destruct Hn. eapply can_incr_frame; [|exact Hc]. unfold unlease_ks. by ks_simp. }
  intros Hc'. cbv beta iota. apply wp_ret. destruct Hc as (n & Hn & Hr). unfold ack_ks.
  set (m1 := hset (jobKey jid) [("state", "completed"); ("completed_at", dec (UnixMilli now))]
        (unlease_ks q jid w m)) in *.
  assert (Huk : uk_shape jid (hincr (statsKey q) "completed" m1)).
  { apply wf_uk_shape; [|done]. apply wf_hincr_stats; [|done|done].
    apply wf_hset_job; [by apply wf_unlease|done|repeat constructor]. }
  assert (counter m1 (statsKey q) "completed" = Some n) as Hn'.
  { rewrite <- Hn. unfold counter, m1, unlease_ks. by ks_simp. }
  rewrite Hn. cbn [fmap option_fmap option_map].
  split_and!; [done|by_release m1..| | |].
  - rewrite counter_release by done. by apply counter_hincr.
  - apply released_ks; [done|unfold m1, unlease_ks; by ks_field|].
    intros u. unfold m1, unlease_ks. by ks_simp.
  - eapply untouched_trans; [|apply untouched_release_own].
    + unfold m1, unlease_ks. untouched_chain.
    + unfold m1, unlease_ks. by ks_field.
Qed.

(** The contents every nack goes through: what it changes so far. *)
Lemma nack_counted_hash q jid w e m : wf_queue q → wf_id jid → can_incr m (jobKey jid) "attempt" →
  hash_at (nack_counted_ks q jid w e m) (jobKey jid) =
    hset_all [("attempt", dec (next_attempt m jid)); ("last_error", e)] (hash_at m (jobKey jid)).
Proof.
  intros Hq Hid (n & Hn & _). unfold nack_counted_ks, nack_failed_ks, next_attempt.
  rewrite Hn. ks_simp. cbn [default from_option id]. unfold hincr.
  assert (counter (unlease_ks q jid w m) (jobKey jid) "attempt" = Some n) as ->
    by (unfold counter; by rewrite unlease_hash).
  unfold unlease_ks. by ks_simp.
Qed.

Lemma nack_counters q jid w e m : wf_queue q → wf_id jid →
  can_incr m (jobKey jid) "attempt" → can_incr m (statsKey q) "failed" →
  can_incr (unlease_ks q jid w m) (jobKey jid) "attempt" ∧
  can_incr (nack_failed_ks q jid w e m) (statsKey q) "failed".
Proof.
  intros Hq Hid Ha Hf. split; (eapply can_incr_frame; [|eassumption]).
  - by apply unlease_hash.
  - unfold nack_failed_ks, unlease_ks. by ks_simp.
Qed.

Lemma nack_counted_failed q jid w e m : wf_queue q → wf_id jid → can_incr m (statsKey q) "failed" →
  counter (nack_counted_ks q jid w e m) (statsKey q) "failed" =
    (λ n, n + 1) <$> counter m (statsKey q) "failed" ∧
  counter (nack_counted_ks q jid w e m) (statsKey q) "dead_total" =
    counter m (statsKey q) "dead_total".
Proof.
  intros Hq Hid (n & Hn & Hr). unfold nack_counted_ks.
  set (m1 := nack_failed_ks q jid w e m).
  assert (hash_at m1 (statsKey q) = hash_at m (statsKey q)) as Hh
    by (unfold m1, nack_failed_ks, unlease_ks; by ks_simp).
  rewrite Hn. split.
  - apply counter_hincr; [|done]. unfold counter. by rewrite Hh.
  - rewrite counter_hincr_ne by done. unfold counter. by rewrite Hh.
Qed.

Lemma to_dead_stats q jid m : wf_queue q → wf_id jid →
  hash_at (to_dead_ks q jid m) (statsKey q) = hash_at m (statsKey q).
Proof. intros. unfold to_dead_ks. by ks_simp. Qed.

Lemma to_dead_can_incr q jid w e m : wf_queue q → wf_id jid → can_incr m (statsKey q) "failed" →
  can_incr m (statsKey q) "dead_total" →
  can_incr (to_dead_ks q jid (nack_counted_ks q jid w e m)) (statsKey q) "dead_total".
Proof.
  intros Hq Hid Hf (n & Hn & Hr). destruct (nack_counted_failed q jid w e m) as [_ Hcd]; [done..|].
  exists n. split; [|done]. unfold counter in *. by rewrite to_dead_stats, Hcd.
Qed.

Lemma nack_counted_unique q jid w e m u : wf_queue q → wf_id jid →
  str_at (nack_counted_ks q jid w e m) (uniqueKey u) = str_at m (uniqueKey u).
Proof. intros. unfold nack_counted_ks, nack_failed_ks, unlease_ks. by ks_simp. Qed.

(** Evaluates an accessor on the contents a nack leaves. *)
Ltac by_dead q jid w e m :=
  ks_simp; unfold to_dead_ks; ks_simp;
  first [ by rewrite nack_counted_hash
        | unfold nack_counted_ks, nack_failed_ks, unlease_ks; by ks_simp ].

(** Nack of a job whose counters are sound raises nothing. *)
Lemma wp_Nack now q jid w e backoff skip mx m (Q : keyspace → result error string → Prop) :
  wf_store m → wf_queue q → wf_id jid → wf_time now → - 2 ^ 52 ≤ backoff ≤ 2 ^ 52 →
  can_incr m (jobKey jid) "attempt" → max_retries m jid = Some mx →
  can_incr m (statsKey q) "failed" → can_incr m (statsKey q) "dead_total" →
  (wf_store (nack_counted_ks q jid w e m) → nack_is_dead skip m jid = Some true →
     Q (nack_dead_ks q jid w e m) (Ok "dead")) →
  (wf_store (nack_counted_ks q jid w e m) → nack_is_dead skip m jid = Some false →
     Q (nack_retry_ks q jid w e (UnixMilli now + backoff) m) (Ok "retry")) →
  wp (S := S) (Nack now q jid w e backoff skip) Q m.
Proof.
  intros Hm Hq Hid Hnow Hb Ha Hmx Hf Hd Hdead Hretry. unfold Nack. go_op.
  destruct (nack_counters q jid w e m Hq Hid Ha Hf) as [Ha' Hf'].
  replace (if skip then 1 else 0) with (b2z skip) by done.
  pose proof (to_dead_can_incr q jid w e m Hq Hid Hf Hd) as Hd'.
  apply wp_nackScript; [done|done|done|eauto with winter|unfold safe_int; lia
    |unfold wf_time, safe_int in *; lia|done|done| | | |].
  - intros _ Hn. unfold nack_is_dead in Hn. rewrite Hmx in Hn. by destruct skip.
  - done.
  - intros Hwf Hc _. cbv beta iota. by apply wp_ret, Hdead.
  - intros Hwf Hc. cbv beta iota. by apply wp_ret, Hretry.
Qed.

(** C23: Nack of a job whose counters are sound never loses it.  It records the
    error and one more attempt and ends the worker's hold; when the retry is
    refused or the attempts have reached the limit the job joins the head of
    the dead list and its unique key is freed; otherwise it is delayed by the
    backoff and keeps its unique key. *)
Theorem Nack_retries_or_buries now q jid w e backoff (skip : bool) mx (m : keyspace) :
  wf_store m → wf_queue q → wf_id jid → wf_time now → - 2 ^ 52 ≤ backoff ≤ 2 ^ 52 →
  can_incr m (jobKey jid) "attempt" → max_retries m jid = Some mx →
  can_incr m (statsKey q) "failed" → can_incr m (statsKey q) "dead_total" →
  wp (S := S) (Nack now q jid w e backoff skip) (λ m' r,
    let dead := bool_decide (skip = true ∨ next_attempt m jid >= mx) in
    r = Ok (if dead then "dead" else "retry") ∧
    hash_at m' (jobKey jid) =
      hset_all [("attempt", dec (next_attempt m jid)); ("last_error", e);
                ("state", if dead then "dead" else "retry")] (hash_at m (jobKey jid)) ∧
    list_at m' (deadKey q) =
      (if dead then jid :: list_at m (deadKey q) else list_at m (deadKey q)) ∧
    zset_at m' (delayedKey q) =
      (if dead then zset_at m (delayedKey q)
       else <[jid := UnixMilli now + backoff]> (zset_at m (delayedKey q))) ∧
    set_at m' (activeKey q) = set_at m (activeKey q) ∖ {[jid]} ∧
    zset_at m' (leaseKey q) = delete jid (zset_at m (leaseKey q)) ∧
    zset_at m' (readyKey q) = zset_at m (readyKey q) ∧
    counter m' (statsKey q) "failed" = (λ n, n + 1) <$> counter m (statsKey q) "failed" ∧
    counter m' (statsKey q) "dead_total" =
      (λ n, if dead then n + 1 else n) <$> counter m (statsKey q) "dead_total" ∧
    (if dead then released jid m m' else ∀ u, str_at m' (uniqueKey u) = str_at m (uniqueKey u))) m.
Proof.
  intros Hm Hq Hid Hnow Hb Ha Hmx Hf Hd.
  pose proof (nack_counted_failed q jid w e m Hq Hid Hf) as [Hcf Hcd].
  pose proof (nack_counted_hash q jid w e m Hq Hid Ha) as Hh.
  pose proof (to_dead_stats q jid (nack_counted_ks q jid w e m) Hq Hid) as Hs.
  pose proof (to_dead_can_incr q jid w e m Hq Hid Hf Hd) as Hd'.
  assert (Hu := λ u, nack_counted_unique q jid w e m u Hq Hid).
  apply (wp_Nack _ _ _ _ _ _ _ mx); [assumption..| |].
  - intros Hwf Hdead.
    rewrite bool_decide_eq_true_2 by (by eapply nack_is_dead_spec).
    destruct Hd as (n & Hn & Hr). rewrite Hn in Hcd.
    assert (Huk : uk_shape jid (hincr (statsKey q) "dead_total"
              (to_dead_ks q jid (nack_counted_ks q jid w e m)))).
    { apply wf_uk_shape; [|done]. apply wf_hincr_stats; [|done|done]. by apply wf_to_dead. }
    unfold nack_dead_ks.
    split_and!; [done|by_dead q jid w e m..| | |].
    + rewrite counter_release, counter_hincr_ne by done.
      unfold counter in Hcf |- *. by rewrite Hs.
    + rewrite counter_release by done. rewrite Hn. apply counter_hincr; [|done].
      unfold counter in Hcd |- *. by rewrite Hs.
    + apply released_ks; [done| |].
      * unfold to_dead_ks. ks_simp. rewrite Hh. cbn. by rewrite !lookup_insert_ne.
      * intros u. unfold to_dead_ks. ks_simp. apply Hu.
  - intros Hwf Hretry.
    rewrite bool_decide_eq_false_2 by (by eapply nack_is_retry_spec).
    unfold nack_retry_ks. split_and!; [done|..]. all: try by_dead q jid w e m.
    + unfold counter in Hcf |- *. by ks_simp.
    + unfold counter in Hcd |- *. ks_simp. rewrite Hcd. by rewrite option_fmap_id.
    + intros u. ks_simp. apply Hu.
Qed.

(** RescheduleJob ends the worker's hold and delays the job to the new time
    without spending an attempt or freeing its unique key. *)
Theorem RescheduleJob_delays q jid w t (m : keyspace) :
  wf_store m → wf_queue q → wf_id jid → wf_time t →
  wp (S := S) (RescheduleJob q jid w t) (λ m' r,
    r = Ok tt ∧
    zset_at m' (delayedKey q) = <[jid := UnixMilli t]> (zset_at m (delayedKey q)) ∧
    hash_at m' (jobKey jid) =
      hset_all [("state", "pending"); ("scheduled_at", dec (UnixMilli t)); ("started_at", "0")]
        (hash_at m (jobKey jid)) ∧
    set_at m' (activeKey q) = set_at m (activeKey q) ∖ {[jid]} ∧
    set_at m' (workerJobsKey w) = set_at m (workerJobsKey w) ∖ {[jid]} ∧
    zset_at m' (leaseKey q) = delete jid (zset_at m (leaseKey q)) ∧
    untouched [delayedKey q; jobKey jid; activeKey q; workerJobsKey w; leaseKey q] m m') m.
Proof.
  intros Hm Hq Hid Ht. unfold RescheduleJob. go_op.
  apply wp_rescheduleScript; [done|done|done|eauto with winter|]. cbv beta iota. apply wp_ret.
  unfold reschedule_ks, unlease_ks. split_and!; [done|by ks_simp..|]. untouched_chain.
Qed.

(** CancelJob ends the worker's hold and closes the job as cancelled with
    its reason: it joins no queue, and its unique key is freed exactly if the
    job still owns it. *)
Theorem CancelJob_closes now q jid w reason (m : keyspace) :
  wf_store m → wf_queue q → wf_id jid →
  wp (S := S) (CancelJob now q jid w reason) (λ m' r,
    r = Ok tt ∧
    hash_at m' (jobKey jid) =
      hset_all [("state", "cancelled"); ("completed_at", dec (UnixMilli now));
                ("last_error", reason)] (hash_at m (jobKey jid)) ∧
    set_at m' (activeKey q) = set_at m (activeKey q) ∖ {[jid]} ∧
    set_at m' (workerJobsKey w) = set_at m (workerJobsKey w) ∖ {[jid]} ∧
    zset_at m' (leaseKey q) = delete jid (zset_at m (leaseKey q)) ∧
    released jid m m' ∧
    untouched (own_key jid m ++ [jobKey jid; activeKey q; workerJobsKey w; leaseKey q]) m m') m.
Proof.
  intros Hm Hq Hid. unfold CancelJob. go_op. apply wp_cancelScript; [done..|].
  cbv beta iota. apply wp_ret. unfold cancel_ks.
  set (m1 := hset (jobKey jid) _ _).
  assert (Huk : uk_shape jid m1).
  { apply wf_uk_shape; [|done]. apply wf_hset_job; [by apply wf_unlease|done|repeat constructor]. }
  split_and!; [done|by_release m1..| |].
  - apply released_ks; [done|unfold m1, unlease_ks; by ks_field|].
    intros u. unfold m1, unlease_ks. by ks_simp.
  - eapply untouched_trans; [|apply untouched_release_own].
    + unfold m1, unlease_ks. untouched_chain.
    + unfold m1, unlease_ks. by ks_field.
Qed.
End Methods.
