(* ===== verification/SweepSpecs.v ===== *)
(** * SweepSpecs: the batch operations of the queue

    Promote, RecoverExpiredLeases, ExtendLease, RetryDead and PurgeDead: what
    the loops of their scripts add up to. *)
From S2P Require Import Prelude Float Keys Redis Lua Keyspace Job Scripts Queue ScriptSpecs QueueSpecs FinishSpecs.

Open Scope string_scope.
Open Scope Z_scope.

(** ** The ids that are due *)

Lemma zsorted_NoDup z : NoDup (zsorted z).*1.
Proof. unfold zsorted. rewrite merge_sort_Permutation. apply NoDup_fst_map_to_list. Qed.

Lemma zupto_NoDup hi z : NoDup (zupto hi z).
Proof.
  unfold zupto. eapply sublist_NoDup; [apply (zsorted_NoDup z)|].
  by apply fmap_sublist, sublist_filter.
Qed.

Lemma due_NoDup z now limit : NoDup (due z now limit).
Proof.
  unfold due, limited. case_decide; [apply zupto_NoDup|].
  eapply sublist_NoDup; [apply zupto_NoDup|apply sublist_take].
Qed.

Lemma zupto_elem hi z j : j ∈ zupto hi z ↔ ∃ n, z !! j = Some n ∧ n ≤ hi.
Proof.
  unfold zupto. rewrite list_elem_of_fmap. split.
  - intros ([x n] & -> & [Hle Hx]%list_elem_of_filter). apply zsorted_elem in Hx. eauto.
  - intros (n & Hn & Hle). exists (j, n). split; [done|]. apply list_elem_of_filter.
    split; [done|]. by apply zsorted_elem.
Qed.

(** Without a limit, or with room for all, everything due is taken. *)
Lemma due_all z now limit : limit < 0 ∨ Z.of_nat (length (zupto now z)) ≤ limit →
  due z now limit = zupto now z.
Proof.
  intros Hl. unfold due, limited. case_decide; [done|]. apply take_ge. lia.
Qed.

Lemma due_length z now limit : 0 ≤ limit → Z.of_nat (length (due z now limit)) ≤ limit.
Proof.
  intros Hl. unfold due, limited. rewrite decide_False by lia. rewrite length_take. lia.
Qed.

(** ** Promotion *)

Section Promote.
Context (q : string) (Hq : wf_queue q).

Lemma promote_one_frame m x j : wf_id x → wf_id j → x ≠ j →
  hash_at (promote_one_ks q m x) (jobKey j) = hash_at m (jobKey j).
Proof.
  intros. unfold promote_one_ks.
  assert (jobKey x ≠ jobKey j) by (change (render (KJob x) ≠ render (KJob j));
    apply render_ne; [done|done|congruence]).
  by ks_simp.
Qed.

Lemma promote_one_priority m x j : wf_id x → wf_id j →
  job_priority (promote_one_ks q m x) j = job_priority m j.
Proof.
  intros. unfold job_priority. destruct (decide (x = j)) as [->|Hne].
  - unfold promote_one_ks. by ks_field.
  - by rewrite promote_one_frame.
Qed.

Lemma promote_one_other m x k : wf_id x → wf_key k →
  k ≠ KDelayed q → k ≠ KReady q → k ≠ KJob x →
  promote_one_ks q m x !! render k = m !! render k.
Proof.
  intros. unfold promote_one_ks. ks_unfold. rewrite !lookup_put_ne; [done|..];
    [apply (render_ne (KDelayed q))|apply (render_ne (KReady q))|apply (render_ne (KJob x))];
    try done; by apply not_eq_sym.
Qed.

(** The loop moves exactly the listed ids, each under its own priority. *)
Lemma promote_fold ids m : Forall wf_id ids → NoDup ids →
  let m' := foldl (promote_one_ks q) m ids in
  (∀ j, zset_at m' (delayedKey q) !! j =
     if decide (j ∈ ids) then None else zset_at m (delayedKey q) !! j) ∧
  (∀ j, zset_at m' (readyKey q) !! j =
     if decide (j ∈ ids) then Some (job_priority m j) else zset_at m (readyKey q) !! j) ∧
  (∀ j, wf_id j → hash_at m' (jobKey j) =
     if decide (j ∈ ids) then <["state" := "pending"]> (hash_at m (jobKey j))
     else hash_at m (jobKey j)) ∧
  (∀ k, wf_key k → k ∉ KDelayed q :: KReady q :: (KJob <$> ids) → m' !! render k = m !! render k).
Proof.
  cbv zeta. revert m. induction ids as [|x ids IH]; intros m Hids Hnd; cbn [foldl].
  { split_and!; intros; by rewrite ?decide_nil. }
  apply Forall_cons in Hids as [Hx Hids]. apply NoDup_cons in Hnd as [Hx' Hnd].
  destruct (IH (promote_one_ks q m x) Hids Hnd) as (H1 & H2 & H3 & H4). clear IH. split_and!.
  - intros j. rewrite H1, decide_cons. clear H1 H2 H3 H4. unfold promote_one_ks. ks_simp.
    case_decide; [done|]. case_decide; by simplify_map_eq.
  - intros j. rewrite H2, decide_cons. clear H1 H2 H3 H4.
    destruct (decide (j ∈ ids)) as [Hj|Hj].
    + f_equal. apply promote_one_priority; [done|]. by eapply Forall_forall.
    + unfold promote_one_ks. ks_simp. case_decide; by simplify_map_eq.
  - intros j Hj. rewrite H3, decide_cons by done. clear H1 H2 H3 H4.
    destruct (decide (j ∈ ids)) as [Hj'|Hj'].
    + rewrite promote_one_frame; [done|done|done|]. by intros ->.
    + destruct (decide (x = j)) as [->|]; [unfold promote_one_ks; by ks_simp|].
      by apply promote_one_frame.
  - intros k Hk. cbn. rewrite !not_elem_of_cons. intros (Hk1 & Hk2 & Hk3 & Hk4).
    rewrite H4, promote_one_other; [done..|]. by rewrite !not_elem_of_cons.
Qed.
End Promote.

(** ** Recovery *)

Section Recover.
Context (q : string) (Hq : wf_queue q).

Lemma recover_one_active m x : wf_id x →
  set_at (recover_one_ks q m x) (activeKey q) = set_at m (activeKey q) ∖ {[x]}.
Proof. intros. unfold recover_one_ks. case_decide; by ks_simp. Qed.

Lemma recover_one_lease m x : wf_id x →
  zset_at (recover_one_ks q m x) (leaseKey q) = delete x (zset_at m (leaseKey q)).
Proof. intros. unfold recover_one_ks. case_decide; by ks_simp. Qed.

Lemma recover_one_ready m x : wf_id x →
  zset_at (recover_one_ks q m x) (readyKey q) =
    if decide (x ∈ set_at m (activeKey q))
    then <[x := job_priority m x]> (zset_at m (readyKey q)) else zset_at m (readyKey q).
Proof. intros. unfold recover_one_ks. case_decide; by ks_simp. Qed.

Lemma recover_one_job m x j : wf_id x → wf_id j →
  hash_at (recover_one_ks q m x) (jobKey j) =
    if decide (x = j ∧ x ∈ set_at m (activeKey q))
    then hset_all [("state", "pending"); ("started_at", "0")] (hash_at m (jobKey j))
    else hash_at m (jobKey j).
Proof.
  intros. unfold recover_one_ks. destruct (decide (x = j)) as [->|Hne].
  - destruct (decide (j ∈ set_at m (activeKey q))).
    + rewrite decide_True by done. by ks_simp.
    + rewrite (decide_False (P := j = j ∧ _)) by tauto. by ks_simp.
  - rewrite (decide_False (P := x = j ∧ _)) by tauto.
    assert (jobKey x ≠ jobKey j) by (change (render (KJob x) ≠ render (KJob j));
      apply render_ne; [done|done|congruence]).
    case_decide; by ks_simp.
Qed.

Lemma recover_one_priority m x j : wf_id x → wf_id j →
  job_priority (recover_one_ks q m x) j = job_priority m j.
Proof.
  intros. unfold job_priority. rewrite recover_one_job by done. case_decide; [|done].
  cbn. by rewrite !lookup_insert_ne.
Qed.

(** The loop over distinct ids: those still active go back to the ready set,
    the others only lose their stale lease. *)
Lemma recover_fold ids m : Forall wf_id ids → NoDup ids →
  let m' := foldl (recover_one_ks q) m ids in
  concat (fold_out (recover_one_ks q) (recover_out q) ids m) =
    filter (λ j, j ∈ set_at m (activeKey q)) ids ∧
  (∀ j, j ∈ set_at m' (activeKey q) ↔ j ∈ set_at m (activeKey q) ∧ j ∉ ids) ∧
  (∀ j, zset_at m' (leaseKey q) !! j =
     if decide (j ∈ ids) then None else zset_at m (leaseKey q) !! j) ∧
  (∀ j, zset_at m' (readyKey q) !! j =
     if decide (j ∈ ids)
     then if decide (j ∈ set_at m (activeKey q)) then Some (job_priority m j)
          else zset_at m (readyKey q) !! j
     else zset_at m (readyKey q) !! j) ∧
  (∀ j, wf_id j → hash_at m' (jobKey j) =
     if decide (j ∈ ids)
     then if decide (j ∈ set_at m (activeKey q))
          then hset_all [("state", "pending"); ("started_at", "0")] (hash_at m (jobKey j))
          else hash_at m (jobKey j)
     else hash_at m (jobKey j)).
Proof.
  cbv zeta. revert m. induction ids as [|x ids IH]; intros m Hids Hnd; cbn [foldl fold_out].
  { split_and!; intros; rewrite ?decide_nil; try done.
    split; [intros; split; [done|apply not_elem_of_nil]|by intros []]. }
  apply Forall_cons in Hids as [Hx Hids]. apply NoDup_cons in Hnd as [Hx' Hnd].
  destruct (IH (recover_one_ks q m x) Hids Hnd) as (H0 & H1 & H2 & H3 & H4). clear IH.
  rewrite recover_one_active in * by done.
  assert (Hact : ∀ j, j ∈ ids → j ∈ set_at m (activeKey q) ∖ {[x]} ↔ j ∈ set_at m (activeKey q)).
  { intros j Hj. rewrite elem_of_difference, elem_of_singleton. split; [by intros []|].
    intros Ha. split; [done|]. by intros ->. }
  split_and!.
  - cbn [concat]. rewrite H0. rewrite filter_cons. unfold recover_out at 1.
    replace (filter (λ j, j ∈ set_at m (activeKey q) ∖ {[x]}) ids)
      with (filter (λ j, j ∈ set_at m (activeKey q)) ids)
      by (apply list_filter_iff'; intros; symmetry; by apply Hact).
    by case_decide.
  - intros j. rewrite H1, elem_of_difference, elem_of_singleton, not_elem_of_cons. tauto.
  - intros j. rewrite H2, decide_cons, recover_one_lease by done.
    case_decide; [done|]. case_decide; by simplify_map_eq.
  - intros j. rewrite H3, decide_cons, recover_one_ready by done.
    destruct (decide (j ∈ ids)) as [Hj|Hj].
    + assert (x ≠ j) by (by intros ->). specialize (Hact j Hj).
      assert (Hwj : wf_id j) by (by eapply Forall_forall). clear H0 H1 H2 H3 H4.
      rewrite recover_one_priority by done.
      destruct (decide (j ∈ set_at m (activeKey q) ∖ {[x]}));
        destruct (decide (j ∈ set_at m (activeKey q))); try tauto.
      by case_decide; simplify_map_eq.
    + destruct (decide (x = j)) as [->|]; case_decide; by simplify_map_eq.
  - intros j Hj. rewrite H4, decide_cons, recover_one_job by done.
    destruct (decide (j ∈ ids)) as [Hj'|Hj'].
    + assert (x ≠ j) by (by intros ->). specialize (Hact j Hj'). clear H0 H1 H2 H3 H4.
      rewrite (decide_False (P := x = j ∧ _)) by tauto.
      destruct (decide (j ∈ set_at m (activeKey q) ∖ {[x]}));
        destruct (decide (j ∈ set_at m (activeKey q))); tauto.
    + destruct (decide (x = j)) as [->|].
      * destruct (decide (j ∈ set_at m (activeKey q)));
          [by rewrite decide_True by done|by rewrite decide_False by tauto].
      * by rewrite decide_False by tauto.
Qed.
End Recover.

(** ** Purging *)

Lemma purge_lookup ids (m : keyspace) k : foldl (λ m jid, delete (jobKey jid) m) m ids !! k =
  if decide (k ∈ jobKey <$> ids) then None else m !! k.
Proof.
  revert m. induction ids as [|x ids IH]; intros m; cbn [foldl fmap list_fmap].
  - by rewrite decide_nil.
  - rewrite IH, decide_cons. case_decide; [done|].
    case_decide; [subst; apply lookup_delete_eq|by apply lookup_delete_ne].
Qed.

(** ** The methods *)

(** The record of a job that went back to the ready set. *)
Definition pending_again (h : gmap string string) : gmap string string :=
  hset_all [("state", "pending"); ("started_at", "0")] h.

Section Methods.
Context {S : Type} `{RedisLaws S} `{!Reliable S}.

(** C31: Promote moves exactly the due jobs, the earliest [limit] of them, from
    the delayed set to the ready set, each under its own priority, marks them
    pending, reports how many, and touches nothing else. *)
Theorem Promote_moves_due now q limit (m : keyspace) :
  wf_store m → wf_queue q → wf_time now → safe_int limit →
  wp (S := S) (Promote now q limit) (λ m' r,
    let ids := due (zset_at m (delayedKey q)) (UnixMilli now) limit in
    r = Ok (Z.of_nat (length ids)) ∧
    (∀ j, zset_at m' (delayedKey q) !! j =
       if decide (j ∈ ids) then None else zset_at m (delayedKey q) !! j) ∧
    (∀ j, zset_at m' (readyKey q) !! j =
       if decide (j ∈ ids) then Some (job_priority m j) else zset_at m (readyKey q) !! j) ∧
    (∀ j, wf_id j → hash_at m' (jobKey j) =
       if decide (j ∈ ids) then <["state" := "pending"]> (hash_at m (jobKey j))
       else hash_at m (jobKey j)) ∧
    (∀ k, wf_key k → k ∉ KDelayed q :: KReady q :: (KJob <$> ids) →
       m' !! render k = m !! render k)) m.
Proof.
  intros Hm Hq Hnow Hl. unfold Promote. go_op.
  apply wp_promoteScript; [done|done|eauto with winter|done|]. cbv beta iota. apply wp_ret.
  split; [done|]. apply promote_fold; [done| |apply due_NoDup].
  by apply (due_wf m (KDelayed q)).
Qed.

Lemma wp_RecoverExpiredLeasesAt q limit nowMs m Q :
  wf_store m → wf_queue q → safe_int nowMs → safe_int limit →
  Q (recover_ks q nowMs limit m) (Ok (recovered q nowMs limit m)) →
  wp (S := S) (RecoverExpiredLeasesAt q limit nowMs) Q m.
Proof.
  intros Hm Hq Hnow Hl HQ. unfold RecoverExpiredLeasesAt. go_op.
  apply wp_recoverLeasesScript; [done..|]. cbv beta iota. by apply wp_ret.
Qed.

(** C22: a recovery sweep returns exactly the jobs that are still active under an
    expired lease (the oldest [limit] leases), puts each back in the ready set
    under its own priority with its attempts unspent, drops the leases it
    looked at, active or not, and leaves every job under a live lease alone. *)
Theorem RecoverExpiredLeases_exact q limit nowMs (m : keyspace) :
  wf_store m → wf_queue q → safe_int nowMs → safe_int limit →
  wp (S := S) (RecoverExpiredLeasesAt q limit nowMs) (λ m' r,
    let expired := due (zset_at m (leaseKey q)) nowMs limit in
    let active := set_at m (activeKey q) in
    r = Ok (filter (λ j, j ∈ active) expired) ∧
    (∀ j, j ∈ set_at m' (activeKey q) ↔ j ∈ active ∧ j ∉ expired) ∧
    (∀ j, zset_at m' (leaseKey q) !! j =
       if decide (j ∈ expired) then None else zset_at m (leaseKey q) !! j) ∧
    (∀ j, zset_at m' (readyKey q) !! j =
       if decide (j ∈ expired)
       then if decide (j ∈ active) then Some (job_priority m j)
            else zset_at m (readyKey q) !! j
       else zset_at m (readyKey q) !! j) ∧
    (∀ j, wf_id j → hash_at m' (jobKey j) =
       if decide (j ∈ expired)
       then if decide (j ∈ active) then pending_again (hash_at m (jobKey j))
            else hash_at m (jobKey j)
       else hash_at m (jobKey j))) m.
Proof.
  intros Hm Hq Hnow Hl. apply wp_RecoverExpiredLeasesAt; [done..|].
  destruct (recover_fold q Hq (due (zset_at m (leaseKey q)) nowMs limit) m) as (H1 & H2);
    [by apply (due_wf m (KLease q))|apply due_NoDup|].
  split; [unfold recovered; by rewrite H1|exact H2].
Qed.

Lemma wf_recover q now limit m : wf_store m → wf_queue q → wf_store (recover_ks q now limit m).
Proof.
  intros Hm Hq. unfold recover_ks.
  assert (Forall wf_id (due (zset_at m (leaseKey q)) now limit)) as Hids
    by (by apply (due_wf m (KLease q))).
  revert Hids. generalize (due (zset_at m (leaseKey q)) now limit). intros ids.
  revert m Hm. induction ids as [|x ids IH]; intros m Hm Hids; [done|].
  apply Forall_cons in Hids as [Hx Hids]. cbn. apply IH; [by apply wf_recover_one|done].
Qed.

(** Two recovery sweeps, by whatever replicas, at whatever times and with
    whatever limits, never both recover the same job: a job must be dequeued
    again before it can be recovered again. *)
Theorem RecoverExpiredLeases_disjoint q l1 t1 l2 t2 (m : keyspace) :
  wf_store m → wf_queue q → safe_int t1 → safe_int l1 → safe_int t2 → safe_int l2 →
  wp (S := S)
    (ids1 ← RecoverExpiredLeasesAt q l1 t1;
     ids2 ← RecoverExpiredLeasesAt q l2 t2;
     mret (ids1, ids2))
    (λ _ r, ∃ ids1 ids2, r = Ok (ids1, ids2) ∧ ∀ j, j ∈ ids1 → j ∉ ids2) m.
Proof.
  intros Hm Hq Ht1 Hl1 Ht2 Hl2.
  destruct (recover_fold q Hq (due (zset_at m (leaseKey q)) t1 l1) m) as (H1 & H2 & _);
    [by apply (due_wf m (KLease q))|apply due_NoDup|].
  pose proof (wf_recover q t1 l1 m Hm Hq) as Hm1.
  apply wp_bind, wp_RecoverExpiredLeasesAt; [done..|].
  apply wp_bind, wp_RecoverExpiredLeasesAt; [done..|].
  apply wp_ret. do 2 eexists. split; [done|]. intros j. unfold recovered. rewrite H1.
  change (foldl _ m _) with (recover_ks q t1 l1 m) in H2.
  generalize dependent (recover_ks q t1 l1 m). intros m1 H2 Hm1.
  destruct (recover_fold q Hq (due (zset_at m1 (leaseKey q)) t2 l2) m1) as (H3 & _);
    [by apply (due_wf m1 (KLease q))|apply due_NoDup|].
  rewrite H3, !list_elem_of_filter, H2. tauto.
Qed.

(** ExtendLease moves the lease of a job that has one and never creates
    one: extending after the job was acknowledged or recovered is a no-op. *)
Theorem ExtendLease_only_held now q jid extension (m : keyspace) :
  wf_store m → wf_queue q → wf_time (now + extension) →
  wp (S := S) (ExtendLease now q jid extension) (λ m' r,
    r = Ok tt ∧
    zset_at m' (leaseKey q) =
      (if decide (is_Some (zset_at m (leaseKey q) !! jid))
       then <[jid := UnixMilli (now + extension)]> (zset_at m (leaseKey q))
       else zset_at m (leaseKey q)) ∧
    untouched [leaseKey q] m m') m.
Proof.
  intros Hm Hq Ht. unfold ExtendLease. go_op.
  apply wp_extendLeaseScript; [done|done|eauto with winter|]. cbv beta iota. apply wp_ret.
  unfold extend_ks. split; [done|]. case_decide; split; try done; [by ks_simp|untouched_chain].
Qed.

(** RetryDead takes one occurrence of the job off the dead list, resets its
    record and puts it in the ready set under its own priority; a job that is
    not on the dead list is an error that changes nothing but an empty list. *)
Theorem RetryDead_revives q jid (m : keyspace) :
  wf_store m → wf_queue q → wf_id jid → can_incr m (statsKey q) "retried" →
  wp (S := S) (RetryDead q jid) (λ m' r,
    if decide (jid ∈ list_at m (deadKey q)) then
      r = Ok tt ∧
      list_at m' (deadKey q) = remove_first jid (list_at m (deadKey q)) ∧
      zset_at m' (readyKey q) = <[jid := job_priority m jid]> (zset_at m (readyKey q)) ∧
      hash_at m' (jobKey jid) =
        hset_all [("state", "pending"); ("attempt", "0"); ("last_error", "");
                  ("completed_at", "0"); ("started_at", "0")] (hash_at m (jobKey jid)) ∧
      counter m' (statsKey q) "retried" = (λ n, n + 1) <$> counter m (statsKey q) "retried" ∧
      untouched [deadKey q; readyKey q; jobKey jid; statsKey q] m m'
    else
      r = Err (ErrText ("winter: job " +:+ jid +:+ " not found in dead queue")) ∧
      list_at m' (deadKey q) = list_at m (deadKey q) ∧ untouched [deadKey q] m m') m.
Proof.
  intros Hm Hq Hid (n & Hn & Hr). unfold RetryDead. go_op.
  assert (Hs : hash_at (revived_ks q jid m) (statsKey q) = hash_at m (statsKey q))
    by (unfold revived_ks; by ks_simp).
  assert (Hc : counter (revived_ks q jid m) (statsKey q) "retried" = Some n)
    by (unfold counter in *; by rewrite Hs).
  apply wp_retryDeadScript; [done..| | |]; intros Hin; [|intros Hno; by destruct Hno; exists n|].
  - cbv beta iota. rewrite (decide_True (P := 0 = 0)) by done. apply wp_throw.
    rewrite decide_False by done. split_and!; [done| |untouched_chain].
    ks_simp. by apply remove_first_not.
  - intros _. cbv beta iota. rewrite (decide_False (P := 1 = 0)) by done. apply wp_ret.
    rewrite decide_True by done. rewrite (counter_hincr _ _ _ n), Hn by done.
    unfold revived_ks. split_and!; [done|by ks_simp..|done|untouched_chain].
Qed.

(** PurgeDead deletes the record of every job on the dead list and the list
    itself, reports how many there were, and touches no other key. *)
Theorem PurgeDead_clears q (m : keyspace) :
  wf_store m → wf_queue q →
  wp (S := S) (PurgeDead q) (λ m' r,
    r = Ok (Z.of_nat (length (list_at m (deadKey q)))) ∧
    m' !! deadKey q = None ∧
    (∀ j, j ∈ list_at m (deadKey q) → m' !! jobKey j = None) ∧
    untouched (deadKey q :: (jobKey <$> list_at m (deadKey q))) m m') m.
Proof.
  intros Hm Hq. unfold PurgeDead. go_op. apply wp_purgeDeadScript; [done..|].
  cbv beta iota. apply wp_ret. unfold purge_ks. split; [done|].
  generalize (list_at m (deadKey q)). intros ids. split; [apply lookup_delete_eq|].
  split.
  - intros j Hj. apply lookup_delete_None. right. rewrite purge_lookup. apply decide_True.
    by apply list_elem_of_fmap_2.
  - intros k Hk. apply not_elem_of_cons in Hk as [Hk1 Hk2].
    rewrite lookup_delete_ne, purge_lookup by done. by apply decide_False.
Qed.
End Methods.
