(* ===== verification/Places.v ===== *)
(** * Places: where a job is, and that no script loses one

    The invariant of the queue's contents: a job is active in a queue exactly
    when it has a lease there, and the state a job's record names is the set or
    list the job can be found in.  Every effect of [ScriptSpecs.v] preserves it,
    raised errors included. *)
From S2P Require Import Prelude Keys Redis Lua Keyspace Job Scripts ScriptSpecs QueueSpecs SweepSpecs.

Open Scope string_scope.
Open Scope Z_scope.

(** ** The invariant *)

(** Active means leased: no active job escapes the recovery sweep. *)
Definition leased_at (j : string) (m : keyspace) : Prop :=
  ∀ q, wf_queue q → j ∈ set_at m (activeKey q) ↔ is_Some (zset_at m (leaseKey q) !! j).

Definition waiting (q j : string) (m : keyspace) : Prop :=
  is_Some (zset_at m (readyKey q) !! j) ∨ is_Some (zset_at m (delayedKey q) !! j).

(** The place a state stands for; terminal states stand for none. *)
Definition place_of (st j : string) (m : keyspace) : Prop :=
  if decide (st ∈ ["pending"; "scheduled"]) then ∃ q, wf_queue q ∧ waiting q j m
  else if decide (st = "active") then ∃ q, wf_queue q ∧ j ∈ set_at m (activeKey q)
  else if decide (st = "retry") then ∃ q, wf_queue q ∧ is_Some (zset_at m (delayedKey q) !! j)
  else if decide (st = "dead") then ∃ q, wf_queue q ∧ j ∈ list_at m (deadKey q)
  else True.

Definition placed_at (j : string) (m : keyspace) : Prop :=
  ∀ st, hash_at m (jobKey j) !! "state" = Some st → place_of st j m.

(** What nackScript needs in order not to raise half-way: the failure counters
    of the queues, the attempt counter and the limit of the job. *)
Definition sound_stats (m : keyspace) : Prop :=
  ∀ q, wf_queue q → can_incr m (statsKey q) "failed" ∧ can_incr m (statsKey q) "dead_total".
Definition sound_job (j : string) (m : keyspace) : Prop :=
  can_incr m (jobKey j) "attempt" ∧ is_Some (hash_at m (jobKey j) !! "max_retries").

Record Inv (m : keyspace) : Prop := {
  inv_wf : wf_store m;
  inv_leased j : leased_at j m;
  inv_placed : sound_stats m → ∀ j, wf_id j → sound_job j m → placed_at j m
}.

Lemma Inv_empty : Inv ∅.
Proof.
  split; [apply wf_store_empty| |done]. intros j q Hq.
  change (j ∈ (∅ : gset string) ↔ is_Some ((∅ : gmap string Z) !! j)).
  rewrite lookup_empty. split; [by intros ?%not_elem_of_empty|by intros []].
Qed.

(** ** Changes that concern one job *)

(** [m'] differs from [m] in what concerns [j] and in counters that only grow. *)
Record focus (j : string) (m m' : keyspace) : Prop := {
  focus_hash i : wf_id i → i ≠ j → hash_at m' (jobKey i) = hash_at m (jobKey i);
  focus_zset k i : wf_key k → is_zkey k → i ≠ j →
    zset_at m' (render k) !! i = zset_at m (render k) !! i;
  focus_active q i : wf_queue q → i ≠ j →
    i ∈ set_at m' (activeKey q) ↔ i ∈ set_at m (activeKey q);
  focus_dead q i : wf_queue q → i ≠ j →
    i ∈ list_at m' (deadKey q) ↔ i ∈ list_at m (deadKey q);
  focus_stats q f : wf_queue q → can_incr m' (statsKey q) f → can_incr m (statsKey q) f
}.

Lemma focus_refl j m : focus j m m.
Proof. by split. Qed.

Lemma focus_trans j m1 m2 m3 : focus j m1 m2 → focus j m2 m3 → focus j m1 m3.
Proof.
  intros F G. split.
  - intros i Hi Hne. by rewrite (focus_hash _ _ _ G), (focus_hash _ _ _ F).
  - intros k i Hk Hz Hne. by rewrite (focus_zset _ _ _ G), (focus_zset _ _ _ F).
  - intros q i Hq Hne. by rewrite (focus_active _ _ _ G), (focus_active _ _ _ F).
  - intros q i Hq Hne. by rewrite (focus_dead _ _ _ G), (focus_dead _ _ _ F).
  - intros q f Hq Hc. by eapply (focus_stats _ _ _ F), (focus_stats _ _ _ G).
Qed.

(** Away from job, queue and counter keys there is nothing to check. *)
Definition is_place (k : rkey) : Prop :=
  match k with
  | KReady _ | KDelayed _ | KLease _ | KActive _ | KDead _ | KJob _ | KStats _ => True
  | _ => False
  end.

Lemma focus_ext j m m' : (∀ k, wf_key k → is_place k → m' !! render k = m !! render k) → focus j m m'.
Proof.
  intros E. split.
  - intros i Hi _. apply hash_at_ext. by apply (E (KJob i)).
  - intros k i Hk Hz _. f_equal. apply zset_at_ext. apply E; [done|]. by destruct k.
  - intros q i Hq _. by rewrite (set_at_ext m' m (activeKey q)) by by apply (E (KActive q)).
  - intros q i Hq _. by rewrite (list_at_ext m' m (deadKey q)) by by apply (E (KDead q)).
  - intros q f Hq. apply can_incr_frame. symmetry. apply hash_at_ext. by apply (E (KStats q)).
Qed.

(** An update of one key that is compatible with [focus j]. *)
Definition concerns (j : string) (m : keyspace) (k : rkey) (v : rval) : Prop :=
  match k, v with
  | (KReady _ | KDelayed _ | KLease _), RZset z => ∀ i, i ≠ j → z !! i = zset_at m (render k) !! i
  | KActive _, RSet x => ∀ i, i ≠ j → i ∈ x ↔ i ∈ set_at m (render k)
  | KDead _, RList l => ∀ i, i ≠ j → i ∈ l ↔ i ∈ list_at m (render k)
  | KJob i, RHash h => i = j
  | KStats _, RHash h => ∀ f, (∃ n, counter_of (h !! f) = Some n ∧ in_int64 (n + 1)) →
      can_incr m (render k) f
  | (KReady _ | KDelayed _ | KLease _ | KActive _ | KDead _ | KJob _ | KStats _), _ => False
  | _, _ => True
  end.

Lemma focus_put j m k v : wf_key k → concerns j m k v → focus j m (put (render k) v m).
Proof.
  intros Hk Hv.
  assert (Hother : ∀ k', wf_key k' → k ≠ k' → put (render k) v m !! render k' = m !! render k').
  { intros k' Hk' Hne. apply lookup_put_ne. by apply render_ne. }
  split.
  - intros i Hi Hne. destruct (decide (k = KJob i)) as [->|Hk'].
    + by destruct v.
    + apply hash_at_ext. by apply (Hother (KJob i)).
  - intros k' i Hk' Hz Hne. destruct (decide (k = k')) as [->|Hk''].
    + destruct k', v; try done; rewrite zset_at_put_eq; by apply Hv.
    + f_equal. apply zset_at_ext. by apply Hother.
  - intros q i Hq Hne. destruct (decide (k = KActive q)) as [->|Hk'].
    + destruct v; try done. rewrite set_at_put_eq. by apply Hv.
    + by rewrite (set_at_ext _ m (activeKey q)) by by apply (Hother (KActive q)).
  - intros q i Hq Hne. destruct (decide (k = KDead q)) as [->|Hk'].
    + destruct v; try done. rewrite list_at_put_eq. by apply Hv.
    + by rewrite (list_at_ext _ m (deadKey q)) by by apply (Hother (KDead q)).
  - intros q f Hq. destruct (decide (k = KStats q)) as [->|Hk'].
    + destruct v; try done. unfold can_incr at 1, counter. rewrite hash_at_put_eq. apply Hv.
    + apply can_incr_frame. symmetry. apply hash_at_ext. by apply (Hother (KStats q)).
Qed.

(** The elementary updates of the scripts. *)
Section Updates.
Context (j : string) (m : keyspace).

Lemma focus_zadd k z : wf_key k → is_zkey k → focus j m (zadd (render k) j z m).
Proof.
  intros Hk Hz. apply focus_put; [done|]. destruct k; try done; intros i Hi;
    by rewrite lookup_insert_ne.
Qed.

Lemma focus_zrem k : wf_key k → is_zkey k → focus j m (zrem (render k) j m).
Proof.
  intros Hk Hz. apply focus_put; [done|]. destruct k; try done; intros i Hi;
    by rewrite lookup_delete_ne.
Qed.

Lemma focus_sadd_active q : wf_queue q → focus j m (sadd (activeKey q) j m).
Proof. intros Hq. apply (focus_put j m (KActive q)); [done|]. cbn. set_solver. Qed.

Lemma focus_srem_active q : wf_queue q → focus j m (srem (activeKey q) j m).
Proof. intros Hq. apply (focus_put j m (KActive q)); [done|]. cbn. set_solver. Qed.

Lemma focus_sadd k x : wf_key k → is_skey k → focus j m (sadd (render k) x m).
Proof. intros Hk Hs. apply focus_put; [done|]. by destruct k. Qed.

Lemma focus_srem k x : wf_key k → is_skey k → focus j m (srem (render k) x m).
Proof. intros Hk Hs. apply focus_put; [done|]. by destruct k. Qed.

Lemma focus_hset_job fvs : wf_id j → focus j m (hset (jobKey j) fvs m).
Proof. intros Hj. by apply (focus_put j m (KJob j)). Qed.

Lemma focus_hincr_job f : wf_id j → focus j m (hincr (jobKey j) f m).
Proof.
  intros Hj. unfold hincr. destruct (counter m (jobKey j) f);
    [by apply focus_hset_job|apply focus_refl].
Qed.

Lemma focus_hincr_stats q f : wf_queue q → focus j m (hincr (statsKey q) f m).
Proof.
  intros Hq. unfold hincr. destruct (counter m (statsKey q) f) as [n|] eqn:Hn; [|apply focus_refl].
  apply (focus_put j m (KStats q)); [done|]. intros f' (n' & Hn' & Hr).
  destruct (decide (f = f')) as [<-|Hne].
  - exists n. split; [done|]. pose proof (counter_range _ _ _ _ Hn) as Hb.
    destruct (decide (in_int64 (n + 1))) as [|Hover]; [done|].
    assert (n = int64_max) as -> by (unfold in_int64, int64_max in *; lia).
    cbn [hset_all foldl fst snd] in Hn'. rewrite lookup_insert_eq in Hn'. by vm_compute in Hn'.
  - cbn in Hn'. rewrite lookup_insert_ne in Hn' by done. by exists n'.
Qed.

Lemma focus_lpush q : wf_queue q → focus j m (lpush (deadKey q) j m).
Proof.
  intros Hq. apply (focus_put j m (KDead q)); [done|]. intros i Hi.
  rewrite elem_of_cons. cbn. naive_solver.
Qed.

Lemma focus_lrem q : wf_queue q → focus j m (lrem (deadKey q) j m).
Proof.
  intros Hq. apply (focus_put j m (KDead q)); [done|]. intros i Hi. by apply remove_first_elem.
Qed.

Lemma focus_claim uk ttl : is_unique_key uk → focus j m (claim_ks uk j ttl m).
Proof.
  intros Huk. apply focus_ext. intros k Hk Hp. apply claim_lookup; [done|].
  intros u. apply (render_ne (KUnique u)); [done|done|]. by destruct k.
Qed.

Lemma focus_release : uk_shape j m → focus j m (release_ks j m).
Proof.
  intros Huk. apply focus_ext. intros k Hk Hp. apply release_lookup; [done|].
  intros u. apply (render_ne (KUnique u)); [done|done|]. by destruct k.
Qed.
End Updates.

(** Decides [focus] of a chain of updates. *)
Ltac focus_chain :=
  repeat first
    [ assumption
    | apply focus_refl
    | eapply focus_trans;
        [|lazymatch goal with
          | |- focus _ _ (zadd ?kk _ _ ?m) => let k' := reify_key kk in refine (focus_zadd _ m k' _ _ _)
          | |- focus _ _ (zrem ?kk _ ?m) => let k' := reify_key kk in refine (focus_zrem _ m k' _ _)
          | |- focus _ _ (sadd (activeKey _) _ _) => apply focus_sadd_active
          | |- focus _ _ (srem (activeKey _) _ _) => apply focus_srem_active
          | |- focus _ _ (sadd ?kk _ ?m) => let k' := reify_key kk in refine (focus_sadd _ m k' _ _ _)
          | |- focus _ _ (srem ?kk _ ?m) => let k' := reify_key kk in refine (focus_srem _ m k' _ _ _)
          | |- focus _ _ (hset (jobKey _) _ _) => apply focus_hset_job
          | |- focus _ _ (hincr (jobKey _) _ _) => apply focus_hincr_job
          | |- focus _ _ (hincr (statsKey _) _ _) => apply focus_hincr_stats
          | |- focus _ _ (lpush _ _ _) => apply focus_lpush
          | |- focus _ _ (lrem _ _ _) => apply focus_lrem
          | |- focus _ _ (claim_ks _ _ _ _) => apply focus_claim
          end; try first [wf_key_solve|exact I] ] ].

(** The invariant survives a focused change that is right about its job. *)
Lemma Inv_focus j m m' : Inv m → focus j m m' → wf_store m' → leased_at j m' →
  (sound_stats m' → sound_job j m' → placed_at j m') → Inv m'.
Proof.
  intros [Hwf Hl Hp] F Hwf' Hl' Hp'. split; [done| |].
  - intros i. destruct (decide (i = j)) as [->|Hne]; [done|]. intros q Hq.
    rewrite (focus_active _ _ _ F), (focus_zset _ _ _ F (KLease q)) by done. by apply Hl.
  - intros Hs i Hi Hsi. destruct (decide (i = j)) as [->|Hne]; [by apply Hp'|].
    assert (Hs0 : sound_stats m).
    { intros q Hq. destruct (Hs q Hq). by split; apply (focus_stats _ _ _ F). }
    unfold sound_job, can_incr, counter in Hsi. rewrite (focus_hash _ _ _ F) in Hsi by done.
    intros st. rewrite (focus_hash _ _ _ F) by done. intros Hst.
    specialize (Hp Hs0 i Hi Hsi st Hst). unfold place_of, waiting in *.
    repeat case_decide; try done; destruct Hp as (q & Hq & Hp); exists q; (split; [done|]).
    + by rewrite (focus_zset _ _ _ F (KReady q)), (focus_zset _ _ _ F (KDelayed q)).
    + by rewrite (focus_active _ _ _ F).
    + by rewrite (focus_zset _ _ _ F (KDelayed q)).
    + by rewrite (focus_dead _ _ _ F).
Qed.

(** ** Leases *)

Lemma leased_ext j m m' :
  (∀ q, wf_queue q → set_at m' (activeKey q) = set_at m (activeKey q) ∧
                     zset_at m' (leaseKey q) = zset_at m (leaseKey q)) →
  leased_at j m → leased_at j m'.
Proof. intros E Hl q Hq. destruct (E q Hq) as [-> ->]. by apply Hl. Qed.

(** Compares two queues, telling their keys apart when they differ. *)
Ltac split_queue q q' :=
  let Hne := fresh "Hne" in
  destruct (decide (q = q')) as [<-|Hne];
    [|assert (activeKey q ≠ activeKey q') by
        (change (render (KActive q) ≠ render (KActive q')); apply render_ne; [done..|congruence]);
      assert (leaseKey q ≠ leaseKey q') by
        (change (render (KLease q) ≠ render (KLease q')); apply render_ne; [done..|congruence])].

Lemma leased_unlease q j w m : wf_queue q → leased_at j m → leased_at j (unlease_ks q j w m).
Proof.
  intros Hq Hl q' Hq'. unfold unlease_ks. split_queue q q'.
  - ks_simp. rewrite lookup_delete_eq, elem_of_difference, elem_of_singleton.
    split; [by intros []|by intros []].
  - ks_simp. by apply Hl.
Qed.

(** ** Places *)

Lemma place_waiting st q j m : st ∈ ["pending"; "scheduled"] → wf_queue q → waiting q j m →
  place_of st j m.
Proof. intros. unfold place_of. rewrite decide_True by done. eauto. Qed.

Lemma place_active q j m : wf_queue q → j ∈ set_at m (activeKey q) → place_of "active" j m.
Proof.
  intros. unfold place_of. rewrite decide_False by decide_now. rewrite decide_True; eauto.
Qed.

Lemma place_retry q j m : wf_queue q → is_Some (zset_at m (delayedKey q) !! j) →
  place_of "retry" j m.
Proof. intros. unfold place_of. do 2 rewrite decide_False by decide_now. rewrite decide_True; eauto. Qed.

Lemma place_dead q j m : wf_queue q → j ∈ list_at m (deadKey q) → place_of "dead" j m.
Proof. intros. unfold place_of. do 3 rewrite decide_False by decide_now. rewrite decide_True; eauto. Qed.

Lemma place_terminal st j m : st = "completed" ∨ st = "cancelled" → place_of st j m.
Proof. intros [-> | ->]; unfold place_of; do 4 rewrite decide_False by decide_now; done. Qed.

Lemma placed_state j m st : hash_at m (jobKey j) !! "state" = Some st → place_of st j m →
  placed_at j m.
Proof. intros E Hp st' E'. rewrite E in E'. by injection E' as <-. Qed.

(** Reads the state field of an updated record. *)
Ltac state_field :=
  ks_simp; cbn [hset_all foldl fst snd]; repeat rewrite lookup_insert_ne by done;
  apply lookup_insert_eq.

(** Changes to counters that only grow, and to keys that hold no job. *)
Lemma Inv_counters m m' : Inv m → wf_store m' →
  (∀ k, wf_key k → is_place k → (∀ q, k ≠ KStats q) → m' !! render k = m !! render k) →
  (∀ q f, wf_queue q → can_incr m' (statsKey q) f → can_incr m (statsKey q) f) → Inv m'.
Proof.
  intros [Hwf Hl Hp] Hwf' E Hc. split; [done| |].
  - intros j. eapply leased_ext; [|apply Hl]. intros q Hq.
    split; [apply set_at_ext; by apply (E (KActive q))|apply zset_at_ext; by apply (E (KLease q))].
  - intros Hs j Hj Hsj st. assert (Eh : hash_at m' (jobKey j) = hash_at m (jobKey j))
      by (apply hash_at_ext; by apply (E (KJob j))).
    unfold sound_job, can_incr, counter in Hsj. rewrite Eh in *. intros Hst.
    assert (Hs0 : sound_stats m) by (intros q Hq; destruct (Hs q Hq); by split; apply Hc).
    specialize (Hp Hs0 j Hj Hsj st Hst). unfold place_of, waiting in *.
    repeat case_decide; try done; destruct Hp as (q & Hq & Hp); exists q; (split; [done|]).
    + by rewrite (zset_at_ext m' m (readyKey q)), (zset_at_ext m' m (delayedKey q))
        by first [by apply (E (KReady q))|by apply (E (KDelayed q))].
    + by rewrite (set_at_ext m' m (activeKey q)) by by apply (E (KActive q)).
    + by rewrite (zset_at_ext m' m (delayedKey q)) by by apply (E (KDelayed q)).
    + by rewrite (list_at_ext m' m (deadKey q)) by by apply (E (KDead q)).
Qed.

Lemma Inv_hincr m q f : Inv m → wf_queue q → can_incr m (statsKey q) f →
  Inv (hincr (statsKey q) f m).
Proof.
  intros HI Hq Hc. apply (Inv_counters m); [done| | |].
  - apply wf_hincr_stats; [apply HI|done|done].
  - intros k Hk Hp Hne. apply hincr_lookup. apply (render_ne (KStats q)); [done|done|].
    by apply not_eq_sym.
  - intros q' f'. apply (focus_stats "" _ _ (focus_hincr_stats "" m q f Hq)).
Qed.

(** Keys that hold no job. *)
Lemma Inv_ext m m' : Inv m → wf_store m' →
  (∀ k, wf_key k → is_place k → m' !! render k = m !! render k) → Inv m'.
Proof.
  intros HI Hwf E. apply (Inv_counters m); [done|done| |].
  - intros k Hk Hp _. by apply E.
  - intros q f Hq. apply (focus_stats "" _ _ (focus_ext "" m m' E)). done.
Qed.

Lemma Inv_release m j : Inv m → wf_id j → Inv (release_ks j m).
Proof.
  intros HI Hj. apply (Inv_ext m); [done|apply wf_release, HI|].
  intros k Hk Hp. apply release_lookup; [apply wf_uk_shape; [apply HI|done]|].
  intros u. apply (render_ne (KUnique u)); [done|done|]. by destruct k.
Qed.

Lemma Inv_put m k v : Inv m → wf_key k → ¬ is_place k → val_ok k v → Inv (put (render k) v m).
Proof.
  intros HI Hk Hp Hv. apply (Inv_ext m); [done|apply wf_store_put; [apply HI|done|done]|].
  intros k' Hk' Hp'. apply lookup_put_ne. apply render_ne; [done|done|]. by intros ->.
Qed.

Lemma Inv_delete m k : Inv m → wf_key k → ¬ is_place k → Inv (delete (render k) m).
Proof.
  intros HI Hk Hp. apply (Inv_ext m); [done|apply wf_store_delete, HI|].
  intros k' Hk' Hp'. apply lookup_delete_ne. apply render_ne; [done|done|]. by intros ->.
Qed.

(** ** The effects *)

Section Effects.
Context (m : keyspace) (HI : Inv m) (q j w : string) (Hq : wf_queue q) (Hj : wf_id j).

Let Hm : wf_store m := inv_wf _ HI.
Let Hl : leased_at j m := inv_leased _ HI j.

Lemma focus_unlease : focus j m (unlease_ks q j w m).
Proof. unfold unlease_ks. focus_chain. Qed.

Lemma leased_of_unlease m' :
  (∀ q', wf_queue q' → set_at m' (activeKey q') = set_at (unlease_ks q j w m) (activeKey q') ∧
                   zset_at m' (leaseKey q') = zset_at (unlease_ks q j w m) (leaseKey q')) →
  leased_at j m'.
Proof. intros E. eapply leased_ext; [exact E|]. by apply leased_unlease. Qed.

(** Ending a hold and recording the place the job goes to. *)
Lemma Inv_unleased m' : wf_store m' → focus j (unlease_ks q j w m) m' →
  (∀ q', wf_queue q' → set_at m' (activeKey q') = set_at (unlease_ks q j w m) (activeKey q') ∧
                   zset_at m' (leaseKey q') = zset_at (unlease_ks q j w m) (leaseKey q')) →
  (sound_stats m' → sound_job j m' → placed_at j m') → Inv m'.
Proof.
  intros Hwf F E Hp. apply (Inv_focus j m); [done| |done|by apply leased_of_unlease|done].
  eapply focus_trans; [apply focus_unlease|exact F].
Qed.

Lemma Inv_acked now : Inv (hset (jobKey j) [("state", "completed"); ("completed_at", dec now)]
    (unlease_ks q j w m)).
Proof.
  apply Inv_unleased.
  - apply wf_hset_job; [by apply wf_unlease|done|repeat constructor].
  - focus_chain.
  - intros q' Hq'. by ks_simp.
  - intros _ _. eapply placed_state; [state_field|]. apply place_terminal. by left.
Qed.

Lemma Inv_closed now reason : Inv (hset (jobKey j)
    [("state", "cancelled"); ("completed_at", dec now); ("last_error", reason)] (unlease_ks q j w m)).
Proof.
  apply Inv_unleased.
  - apply wf_hset_job; [by apply wf_unlease|done|repeat constructor].
  - focus_chain.
  - intros q' Hq'. by ks_simp.
  - intros _ _. eapply placed_state; [state_field|]. apply place_terminal. by right.
Qed.

Lemma Inv_cancelled now reason : Inv (cancel_ks q j w now reason m).
Proof. apply Inv_release; [apply Inv_closed|done]. Qed.

Lemma Inv_rescheduled t : Inv (reschedule_ks q j w t m).
Proof.
  unfold reschedule_ks. apply Inv_unleased.
  - wf_chain; [by apply wf_unlease|repeat constructor].
  - focus_chain.
  - intros q' Hq'. by ks_simp.
  - intros _ _. eapply placed_state; [state_field|].
    apply (place_waiting _ q); [by left|done|]. right. ks_simp. rewrite lookup_insert_eq. eauto.
Qed.

(** The four ways a nack raises: the job is then not sound. *)
Lemma Inv_nack_error1 : ¬ can_incr (unlease_ks q j w m) (jobKey j) "attempt" →
  Inv (unlease_ks q j w m).
Proof.
  intros Hc. apply Inv_unleased; [by apply wf_unlease|apply focus_refl|done|].
  by intros _ [Hc' _].
Qed.

Lemma focus_nack_failed e : focus j (unlease_ks q j w m) (nack_failed_ks q j w e m).
Proof. unfold nack_failed_ks. focus_chain. Qed.

Lemma nack_failed_same e q' : wf_queue q' →
  set_at (nack_failed_ks q j w e m) (activeKey q') = set_at (unlease_ks q j w m) (activeKey q') ∧
  zset_at (nack_failed_ks q j w e m) (leaseKey q') = zset_at (unlease_ks q j w m) (leaseKey q').
Proof. intros. unfold nack_failed_ks. by ks_simp. Qed.

Lemma Inv_nack_error2 e : can_incr (unlease_ks q j w m) (jobKey j) "attempt" →
  ¬ can_incr (nack_failed_ks q j w e m) (statsKey q) "failed" → Inv (nack_failed_ks q j w e m).
Proof.
  intros Hc Hf. apply Inv_unleased; [by apply wf_nack_failed|apply focus_nack_failed|apply nack_failed_same|].
  intros Hs _. by destruct (Hs q Hq).
Qed.

Lemma focus_nack_counted e : focus j (unlease_ks q j w m) (nack_counted_ks q j w e m).
Proof.
  unfold nack_counted_ks. eapply focus_trans; [apply focus_nack_failed|by apply focus_hincr_stats].
Qed.

Lemma nack_counted_same e q' : wf_queue q' →
  set_at (nack_counted_ks q j w e m) (activeKey q') = set_at (unlease_ks q j w m) (activeKey q') ∧
  zset_at (nack_counted_ks q j w e m) (leaseKey q') = zset_at (unlease_ks q j w m) (leaseKey q').
Proof. intros. unfold nack_counted_ks, nack_failed_ks. by ks_simp. Qed.

Lemma Inv_nack_error3 e skip : wf_store (nack_counted_ks q j w e m) →
  nack_is_dead skip m j = None → Inv (nack_counted_ks q j w e m).
Proof.
  intros Hwf Hn. apply Inv_unleased; [done|apply focus_nack_counted|apply nack_counted_same|].
  intros _ [_ Hmx]. rewrite nack_counted_max in Hmx by done. exfalso.
  unfold nack_is_dead, max_retries in Hn. destruct skip; [done|].
  destruct Hmx as [v Hv]. by rewrite Hv in Hn.
Qed.

Lemma Inv_buried e : wf_store (nack_counted_ks q j w e m) →
  Inv (to_dead_ks q j (nack_counted_ks q j w e m)).
Proof.
  intros Hwf. unfold to_dead_ks. apply Inv_unleased.
  - wf_chain. by repeat constructor.
  - eapply focus_trans; [apply focus_nack_counted|focus_chain].
  - intros q' Hq'. destruct (nack_counted_same e q' Hq') as [E1 E2]. by ks_simp.
  - intros _ _. eapply placed_state; [state_field|]. apply (place_dead q); [done|].
    ks_simp. by left.
Qed.

Lemma Inv_retried e t : wf_store (nack_counted_ks q j w e m) → Inv (nack_retry_ks q j w e t m).
Proof.
  intros Hwf. unfold nack_retry_ks. apply Inv_unleased.
  - wf_chain. by repeat constructor.
  - eapply focus_trans; [apply focus_nack_counted|focus_chain].
  - intros q' Hq'. destruct (nack_counted_same e q' Hq') as [E1 E2]. by ks_simp.
  - intros _ _. eapply placed_state; [state_field|]. apply (place_retry q); [done|].
    ks_simp. rewrite lookup_insert_eq. eauto.
Qed.

Lemma Inv_extended t : Inv (extend_ks q j t m).
Proof.
  unfold extend_ks. case_decide as Hlease; [|done]. apply (Inv_focus j m); [done| | | |].
  - focus_chain.
  - wf_chain.
  - intros q' Hq'. split_queue q q'.
    + ks_simp. rewrite lookup_insert_eq. rewrite (Hl q Hq). split; [eauto|done].
    + ks_simp. by apply Hl.
  - intros Hs Hsj st. unfold sound_job, can_incr, counter in Hsj. ks_simp. revert Hsj. ks_simp.
    intros Hsj Hst.
    assert (Hs0 : sound_stats m).
    { intros q' Hq'. specialize (Hs q' Hq'). unfold can_incr, counter in *. revert Hs. by ks_simp. }
    pose proof (inv_placed _ HI Hs0 j Hj Hsj st Hst) as Hp. revert Hp. unfold place_of, waiting.
    repeat case_decide; try done; intros (q' & Hq' & Hp); exists q'; (split; [done|]); by ks_simp.
Qed.

Lemma Inv_dequeued now lease : Inv (dequeue_ks q w j now lease m).
Proof.
  unfold dequeue_ks. apply (Inv_focus j m); [done| | | |].
  - focus_chain.
  - wf_chain. by repeat constructor.
  - intros q' Hq'. split_queue q q'.
    + ks_simp. rewrite lookup_insert_eq. split; [eauto|set_solver].
    + ks_simp. by apply Hl.
  - intros _ _. eapply placed_state; [state_field|]. apply (place_active q); [done|].
    ks_simp. set_solver.
Qed.
End Effects.

(** ** The batch effects *)

Section Batch.
Context (q : string) (Hq : wf_queue q).

Lemma Inv_promote_one m j : Inv m → wf_id j → Inv (promote_one_ks q m j).
Proof.
  intros HI Hj. pose proof (inv_wf _ HI) as Hm. pose proof (inv_leased _ HI j) as Hl.
  apply (Inv_focus j m); [done| | | |].
  - unfold promote_one_ks. focus_chain.
  - by apply wf_promote_one.
  - eapply leased_ext; [|exact Hl]. intros q' Hq'. unfold promote_one_ks. by ks_simp.
  - intros _ _. unfold promote_one_ks. eapply placed_state; [state_field|].
    apply (place_waiting _ q); [by left|done|]. left. ks_simp. rewrite lookup_insert_eq. eauto.
Qed.

(** A stale lease, and the body of the recovery loop for an active job. *)
Lemma Inv_recover_one m j : Inv m → wf_id j → Inv (recover_one_ks q m j).
Proof.
  intros HI Hj. pose proof (inv_wf _ HI) as Hm. pose proof (inv_leased _ HI j) as Hl.
  assert (Hl' : leased_at j (recover_one_ks q m j)).
  { intros q' Hq'. split_queue q q'.
    - rewrite recover_one_active, recover_one_lease, lookup_delete_eq by done.
      split; [set_solver|by intros []].
    - unfold recover_one_ks. case_decide; ks_simp; by apply Hl. }
  apply (Inv_focus j m); [done| |by apply wf_recover_one|done|].
  { unfold recover_one_ks. case_decide; focus_chain. }
  intros Hs Hsj. unfold recover_one_ks in *.
  destruct (decide (j ∈ set_at m (activeKey q))) as [Hin|Hin].
  - eapply placed_state; [state_field|]. apply (place_waiting _ q); [by left|done|]. left.
    ks_simp. rewrite lookup_insert_eq. eauto.
  - assert (F : sound_stats m).
    { intros q' Hq'. destruct (Hs q' Hq') as [H1 H2]. revert H1 H2.
      unfold can_incr, counter. by ks_simp. }
    unfold sound_job, can_incr, counter in Hsj. revert Hsj. ks_simp. intros Hsj.
    intros st. ks_simp. intros Hst. pose proof (inv_placed _ HI F j Hj Hsj st Hst) as Hp.
    revert Hp. unfold place_of, waiting. repeat case_decide; try done;
      intros (q' & Hq' & Hp); exists q'; (split; [done|]); split_queue q q'; ks_simp; try done.
Qed.

Lemma Inv_fold (step : keyspace → string → keyspace) ids m :
  (∀ m x, Inv m → wf_id x → Inv (step m x)) → Forall wf_id ids → Inv m →
  Inv (foldl step m ids).
Proof.
  intros Hstep Hids. revert m. induction Hids as [|x ids Hx _ IH]; intros m HI; cbn; [done|].
  apply IH. by apply Hstep.
Qed.

Lemma Inv_promoted now limit m : Inv m → Inv (promote_ks q now limit m).
Proof.
  intros HI. apply Inv_fold; [apply Inv_promote_one| |done].
  apply (due_wf m (KDelayed q)); [apply HI|done|done].
Qed.

Lemma Inv_recovered now limit m : Inv m → Inv (recover_ks q now limit m).
Proof.
  intros HI. apply Inv_fold; [apply Inv_recover_one| |done].
  apply (due_wf m (KLease q)); [apply HI|done|done].
Qed.

Lemma Inv_revived m j : Inv m → wf_id j → Inv (revived_ks q j m).
Proof.
  intros HI Hj. pose proof (inv_wf _ HI) as Hm. pose proof (inv_leased _ HI j) as Hl.
  apply (Inv_focus j m); [done| |by apply wf_revived| |].
  - unfold revived_ks. focus_chain.
  - eapply leased_ext; [|exact Hl]. intros q' Hq'. unfold revived_ks. by ks_simp.
  - intros _ _. unfold revived_ks. eapply placed_state; [state_field|].
    apply (place_waiting _ q); [by left|done|]. left. ks_simp. rewrite lookup_insert_eq. eauto.
Qed.

(** Removing what is not there. *)
Lemma Inv_not_dead m j : Inv m → j ∉ list_at m (deadKey q) → Inv (lrem (deadKey q) j m).
Proof.
  intros HI Hnin. pose proof (inv_wf _ HI) as Hm.
  assert (E : ∀ k, list_at (lrem (deadKey q) j m) k = list_at m k).
  { intros k. unfold lrem. rewrite remove_first_not by done.
    destruct (decide (deadKey q = k)) as [<-|Hne]; [by rewrite list_at_put_eq|by ks_simp]. }
  destruct HI as [_ Hl Hp]. split; [by apply wf_lrem| |].
  - intros i. eapply leased_ext; [|apply Hl]. intros q' Hq'. by ks_simp.
  - intros Hs i Hi Hsi st. unfold sound_job, can_incr, counter in Hsi.
    revert Hsi. ks_simp. intros Hsi Hst.
    assert (Hs0 : sound_stats m).
    { intros q' Hq'. specialize (Hs q' Hq'). revert Hs. unfold can_incr, counter. by ks_simp. }
    pose proof (Hp Hs0 i Hi Hsi st Hst) as Hpl. revert Hpl. unfold place_of, waiting.
    repeat case_decide; try done; intros (q' & Hq' & Hpl); exists q'; (split; [done|]);
      rewrite ?E; ks_simp; done.
Qed.

(** Jobs on the dead list disappear with their records. *)
Lemma Inv_purged m : Inv m → Inv (purge_ks q m).
Proof.
  intros HI. pose proof (inv_wf _ HI) as Hm. unfold purge_ks.
  pose proof (wf_dead m Hm q Hq) as Hids. set (ids := list_at m (deadKey q)) in *.
  set (m1 := foldl (λ m jid, delete (jobKey jid) m) m ids).
  assert (Hm1 : ∀ k, m1 !! k = if decide (k ∈ jobKey <$> ids) then None else m !! k).
  { intros k. apply purge_lookup. }
  assert (Hother : ∀ k, wf_key k → (∀ j, k ≠ KJob j) → m1 !! render k = m !! render k).
  { intros k Hk Hne. rewrite Hm1. apply decide_False. rewrite list_elem_of_fmap.
    intros (x & E & Hx). apply (render_ne k (KJob x)); [done| |apply Hne|done].
    cbn. by eapply Forall_forall. }
  assert (Hwf : wf_store (delete (deadKey q) m1)).
  { apply wf_store_delete. intros k v Hk. rewrite Hm1. case_decide; [done|]. by apply Hm. }
  destruct HI as [_ Hl Hp]. split; [done| |].
  - intros j. eapply leased_ext; [|apply Hl]. intros q' Hq'. ks_simp.
    split; [apply set_at_ext; by apply (Hother (KActive q'))|apply zset_at_ext; by apply (Hother (KLease q'))].
  - intros Hs j Hj Hsj st. ks_simp.
    destruct (decide (j ∈ ids)) as [Hin|Hin].
    { intros Hst. exfalso. revert Hst. unfold hash_at. rewrite Hm1, decide_True; [done|].
      by apply list_elem_of_fmap_2. }
    assert (Eh : hash_at m1 (jobKey j) = hash_at m (jobKey j)).
    { apply hash_at_ext. rewrite Hm1. apply decide_False. rewrite list_elem_of_fmap.
      intros (x & E & Hx). destruct (decide (j = x)) as [->|Hne]; [done|].
      apply (render_ne (KJob j) (KJob x)); [done| |congruence|done].
      cbn. by eapply Forall_forall. }
    unfold sound_job, can_incr, counter in Hsj. revert Hsj. ks_simp. rewrite Eh. intros Hsj Hst.
    assert (Hs0 : sound_stats m).
    { intros q' Hq'. specialize (Hs q' Hq'). revert Hs. unfold can_incr, counter. ks_simp.
      by rewrite (hash_at_ext m1 m (statsKey q')) by by apply (Hother (KStats q')). }
    specialize (Hp Hs0 j Hj Hsj st Hst). revert Hp. unfold place_of, waiting.
    repeat case_decide; try done; intros (q' & Hq' & Hp'); exists q'; (split; [done|]); ks_simp.
    + by rewrite (zset_at_ext m1 m (readyKey q')), (zset_at_ext m1 m (delayedKey q'))
        by first [by apply (Hother (KReady q'))|by apply (Hother (KDelayed q'))].
    + by rewrite (set_at_ext m1 m (activeKey q')) by by apply (Hother (KActive q')).
    + by rewrite (zset_at_ext m1 m (delayedKey q')) by by apply (Hother (KDelayed q')).
    + destruct (decide (q' = q)) as [->|Hne]; [by destruct Hin|].
      assert (deadKey q ≠ deadKey q') by
        (change (render (KDead q) ≠ render (KDead q')); apply render_ne; [done..|congruence]).
      ks_simp. by rewrite (list_at_ext m1 m (deadKey q')) by by apply (Hother (KDead q')).
Qed.

Lemma Inv_enqueued m job uk ttl : Inv m → wf_record job → State job ∈ ["pending"; "scheduled"] →
  is_unique_key uk → Inv (enqueued_ks job uk ttl m).
Proof.
  intros HI Hj Hst Huk. pose proof (inv_wf _ HI) as Hm. pose proof (inv_leased _ HI (ID job)) as Hl.
  pose proof Hj as (Hid & Hqj & _). apply (Inv_focus (ID job) m); [done| |by apply wf_enqueued| |].
  - unfold enqueued_ks, place_ks. case_decide; focus_chain; by apply focus_claim.
  - eapply leased_ext; [|exact Hl]. intros q' Hq'. unfold enqueued_ks, place_ks.
    case_decide; by ks_simp.
  - intros _ _. unfold enqueued_ks, place_ks. destruct (decide (ScheduledAt job > 0)).
    + apply (placed_state _ _ (State job)); [unfold enqueue_fields; state_field|].
      apply (place_waiting _ (Queue job)); [done|done|]. right. ks_simp.
      rewrite lookup_insert_eq. eauto.
    + apply (placed_state _ _ (State job)); [unfold enqueue_fields; state_field|].
      apply (place_waiting _ (Queue job)); [done|done|]. left. ks_simp.
      rewrite lookup_insert_eq. eauto.
Qed.
End Batch.
