(* ===== verification/Liveness.v ===== *)
(** * Liveness: jobs that wait are handed out, and come back after a crash *)
From S2P Require Import Prelude Float Keys Redis Lua Keyspace Job Scripts Queue ScriptSpecs QueueSpecs FinishSpecs SweepSpecs Places.

Open Scope string_scope.
Open Scope Z_scope.
Open Scope list_scope.

#[export] Instance zle_antisymm : AntiSymm (=) zle.
Proof.
  intros [x a] [y b]. unfold zle. cbn. intros [?|[-> Hxy]] [?|[Heq Hyx]]; try lia.
  f_equal. by apply (anti_symm String.le).
Qed.

(** What is left when the first element is taken. *)
Lemma zsorted_tail z x n l : zsorted z = (x, n) :: l → zsorted (delete x z) = l.
Proof.
  intros Hz. destruct (zsorted_head _ _ _ _ Hz) as [Hx _].
  pose proof (StronglySorted_merge_sort zle (map_to_list z)) as Hs.
  change (merge_sort zle (map_to_list z)) with (zsorted z) in Hs. rewrite Hz in Hs.
  apply StronglySorted_inv in Hs as [Hs _].
  apply (StronglySorted_unique zle); [apply StronglySorted_merge_sort; exact _|done|].
  unfold zsorted. rewrite merge_sort_Permutation. apply (Permutation_cons_inv (a := (x, n))).
  rewrite (map_to_list_delete z x n Hx), <- Hz. unfold zsorted. by rewrite merge_sort_Permutation.
Qed.

Section Drain.
Context {S : Type} `{RedisLaws S} `{!Reliable S}.
Context (q : string) (Hq : wf_queue q).

(** The record of a job that is handed out at [now]. *)
Definition handed (m : keyspace) (call : Z * string) (jid : string) : option JobRecord :=
  Some (parseJobRecordFromMap
    (hset_all [("state", "active"); ("started_at", dec (UnixMilli call.1))] (hash_at m (jobKey jid)))).

Lemma handed_after w jid p rest now m calls : wf_store m → wf_id jid →
  zsorted (zset_at m (readyKey q)) = (jid, p) :: rest →
  zip_with (handed (dequeue_ks q w jid now 30000 m)) calls rest.*1 = zip_with (handed m) calls rest.*1.
Proof.
  intros Hm Hid Hz. pose proof (zsorted_NoDup (zset_at m (readyKey q))) as Hnd. rewrite Hz in Hnd.
  apply NoDup_cons in Hnd as [Hnd _].
  assert (Hall : Forall (λ j, wf_id j ∧ jid ≠ j) rest.*1).
  { apply Forall_forall. intros j Hj. split; [|by intros ->].
    apply list_elem_of_fmap in Hj as ([j' n] & -> & Hj). apply (wf_zset_mem m (KReady q) j' n); [done..|].
    apply zsorted_elem. change (render (KReady q)) with (readyKey q). rewrite Hz. by right. }
  clear Hz Hnd. revert calls. induction Hall as [|j js [Hj Hne] _ IH]; intros [|call calls]; [done..|].
  cbn [zip_with]. rewrite IH. f_equal. unfold handed, dequeue_ks.
  assert (jobKey jid ≠ jobKey j)
    by (change (render (KJob jid) ≠ render (KJob j)); apply render_ne; [done..|congruence]).
  by ks_simp.
Qed.

(** One dequeue, as far as draining goes. *)
Lemma taken w jid p rest now m : Inv m → wf_id jid → wf_time now →
  zsorted (zset_at m (readyKey q)) = (jid, p) :: rest →
  let m1 := dequeue_ks q w jid (UnixMilli now) 30000 m in
  Inv m1 ∧ zset_at m1 (readyKey q) = delete jid (zset_at m (readyKey q)) ∧
  set_at m1 (activeKey q) = {[jid]} ∪ set_at m (activeKey q) ∧
  m1 !! pausedKey q = m !! pausedKey q ∧
  Some (parseJobRecordFromMap (hash_at m1 (jobKey jid))) = handed m (now, w) jid.
Proof.
  intros HI Hid Hnow Hz m1. unfold m1. split; [by apply Inv_dequeued|]. unfold handed, dequeue_ks. cbn [fst].
  split_and!; by ks_simp.
Qed.

Lemma drain calls m : Inv m → m !! pausedKey q = None →
  Forall (λ call, wf_time call.1) calls → length calls = length (zsorted (zset_at m (readyKey q))) →
  wp (S := S) (map_each calls (λ call, Dequeue call.1 q call.2)) (λ m' r,
    r = Ok (zip_with (handed m) calls (zsorted (zset_at m (readyKey q))).*1) ∧
    zset_at m' (readyKey q) = ∅ ∧
    (∀ j, is_Some (zset_at m (readyKey q) !! j) ∨ j ∈ set_at m (activeKey q) →
       j ∈ set_at m' (activeKey q))) m.
Proof.
  remember (zsorted (zset_at m (readyKey q))) as jobs eqn:Hjobs. symmetry in Hjobs.
  revert calls m Hjobs. induction jobs as [|[jid p] jobs IH]; intros [|[now w] calls] m Hz HI Hp Hcalls Hlen;
    try done; cbn [map_each].
  - apply wp_ret. apply zsorted_nil in Hz. rewrite Hz. split_and!; [done|done|].
    intros j [[? Hj]|Hj]; [by rewrite lookup_empty in Hj|done].
  - apply Forall_cons in Hcalls as [Hnow Hcalls]. injection Hlen as Hlen. cbn [fst snd] in *.
    apply wp_bind, wp_Dequeue; [by apply inv_wf|done..| |].
    { intros [[? Hn]|Hn]; [by rewrite Hp in Hn|]. by apply zsorted_nil in Hn; rewrite Hz in Hn. }
    intros jid' p' rest _ Hz' Hid. rewrite Hz in Hz'. injection Hz' as <- <- <-. cbv zeta.
    pose proof (handed_after w jid p jobs (UnixMilli now) m calls (inv_wf _ HI) Hid Hz) as Hrest.
    destruct (taken w jid p jobs now m HI Hid Hnow Hz) as (HI1 & Hz1 & Ha1 & Hp1 & Hrec).
    rewrite Hrec. set (m1 := dequeue_ks q w jid _ _ m) in *.
    apply wp_bind. eapply wp_mono; [apply (IH calls m1)|]; [|done|by rewrite Hp1|done|done|].
    + by rewrite Hz1, (zsorted_tail _ _ _ _ Hz).
    + cbv beta. intros m' r (-> & Hr & Ha). cbv iota. apply wp_ret. split_and!; [|done|].
      * cbn [fmap list_fmap fst zip_with]. by rewrite <- Hrest.
      * intros j Hj. apply Ha. rewrite Ha1, Hz1. destruct (decide (jid = j)) as [->|Hne].
        { right. by apply elem_of_union_l, elem_of_singleton. }
        rewrite lookup_delete_ne by done. destruct Hj; [by left|right; by apply elem_of_union_r].
Qed.

(** C7: no ready job starves.  On a queue that is not paused, as many dequeues as
    there are ready jobs, by any workers at any times, hand out every one of
    them exactly once in the order of priority and id; the ready set is then
    empty and every job of it is active. *)
Theorem ready_jobs_drain calls m : Inv m → m !! pausedKey q = None →
  Forall (λ call, wf_time call.1) calls → length calls = length (zsorted (zset_at m (readyKey q))) →
  wp (S := S) (map_each calls (λ call, Dequeue call.1 q call.2)) (λ m' r,
    r = Ok (zip_with (handed m) calls (zsorted (zset_at m (readyKey q))).*1) ∧
    zset_at m' (readyKey q) = ∅ ∧
    (∀ j, is_Some (zset_at m (readyKey q) !! j) ∨ j ∈ set_at m (activeKey q) →
       j ∈ set_at m' (activeKey q))) m.
Proof. apply drain. Qed.

(** *** After a crash *)

Lemma recover_one_paused x m : wf_id x → recover_one_ks q m x !! pausedKey q = m !! pausedKey q.
Proof. intros Hx. unfold recover_one_ks. case_decide; by ks_simp. Qed.

Lemma recover_paused now limit m : wf_store m → recover_ks q now limit m !! pausedKey q = m !! pausedKey q.
Proof.
  intros Hm. unfold recover_ks. pose proof (due_wf m (KLease q) now limit Hm Hq I) as Hids. cbn [render] in Hids.
  revert Hids. generalize (due (zset_at m (leaseKey q)) now limit). clear Hm. intros ids Hids. revert m.
  induction Hids as [|x ids Hx _ IH]; intros m; cbn [foldl]; [done|]. by rewrite IH, recover_one_paused.
Qed.

Lemma length_zsorted z : length (zsorted z) = size z.
Proof. unfold zsorted. by rewrite merge_sort_Permutation, length_map_to_list. Qed.

(** C8: a job whose worker died comes back.  Once its lease has expired, a sweep
    whose limit the expired leases do not exceed and as many dequeues as jobs are
    then ready, by any workers, hand the job out again, with its attempts
    unspent, and it is active. *)
Theorem crashed_job_returns j nowMs expiry limit calls m :
  let waiting := zset_at (recover_ks q nowMs limit m) (readyKey q) in
  Inv m → m !! pausedKey q = None → safe_int nowMs → safe_int limit → wf_id j →
  j ∈ set_at m (activeKey q) → zset_at m (leaseKey q) !! j = Some expiry → expiry ≤ nowMs →
  limit < 0 ∨ Z.of_nat (length (zupto nowMs (zset_at m (leaseKey q)))) ≤ limit →
  hash_at m (jobKey j) !! "id" = Some j →
  Forall (λ call, wf_time call.1) calls → length calls = size waiting →
  wp (S := S) (RecoverExpiredLeasesAt q limit nowMs ;; map_each calls (λ call, Dequeue call.1 q call.2)) (λ m' r,
    j ∈ set_at m' (activeKey q) ∧
    ∃ rs i rec, r = Ok rs ∧ rs !! i = Some (Some rec) ∧ ID rec = j ∧
      Attempt rec = Attempt (parseJobRecordFromMap (hash_at m (jobKey j)))) m.
Proof.
  intros waiting HI Hp Hnow Hl Hj Hact Hlease Hexp Hlim Hidf Hcalls Hlen. pose proof (inv_wf _ HI) as Hm.
  apply wp_bind, wp_RecoverExpiredLeasesAt; [done..|]. cbv iota.
  destruct (recover_fold q Hq (due (zset_at m (leaseKey q)) nowMs limit) m) as (_ & _ & _ & Hready & Hjob);
    [by apply (due_wf m (KLease q))|apply due_NoDup|].
  assert (Hdue : j ∈ due (zset_at m (leaseKey q)) nowMs limit).
  { rewrite due_all by done. apply zupto_elem. by exists expiry. }
  specialize (Hready j). specialize (Hjob j Hj). rewrite decide_True, decide_True in Hready by done.
  rewrite decide_True, decide_True in Hjob by done.
  change (foldl (recover_one_ks q) m _) with (recover_ks q nowMs limit m) in Hready, Hjob.
  set (m1 := recover_ks q nowMs limit m) in *.
  eapply wp_mono; [apply (drain calls m1)|].
  - by apply Inv_recovered.
  - unfold m1. by rewrite recover_paused.
  - done.
  - by rewrite length_zsorted.
  - cbv beta. intros m' r (-> & _ & Hactive). split; [apply Hactive; left; eauto|].
    apply zsorted_elem, list_elem_of_lookup in Hready as [i Hi].
    assert (Hlt : (i < length calls)%nat).
    { apply lookup_lt_Some in Hi. rewrite length_zsorted in Hi. fold waiting in Hi. lia. }
    destruct (lookup_lt_is_Some_2 calls i Hlt) as [call Hcall].
    eexists _, i, _. split; [done|]. split; [|split].
    + rewrite lookup_zip_with, Hcall, list_lookup_fmap, Hi. cbn. reflexivity.
    + cbn [parseJobRecordFromMap ID]. unfold field. rewrite Hjob. cbn [hset_all foldl fst snd].
      by rewrite !lookup_insert_ne, Hidf by done.
    + cbn [parseJobRecordFromMap Attempt]. unfold field. rewrite Hjob. cbn [hset_all foldl fst snd].
      by rewrite !lookup_insert_ne by done.
Qed.
End Drain.
