(* ===== verification/Failures.v ===== *)
(** * Failures: the life of a job that keeps failing

    Round after round the job is promoted when its delay is over, handed out by
    one of the dequeues of the round and failed, until its attempts are spent.
    Other jobs may wait in the queue and are handed out on the way. *)
From S2P Require Import Prelude Float Keys Redis Lua Keyspace Job Scripts Queue ScriptSpecs QueueSpecs FinishSpecs SweepSpecs Places Liveness.

Open Scope string_scope.
Open Scope Z_scope.
Open Scope list_scope.

(** ** Emptying the ready set *)

(** The fields a dequeue leaves alone. *)
Definition kept_field (f : string) : Prop := f ≠ "state" ∧ f ≠ "started_at".

Definition same_fields (h h' : gmap string string) : Prop := ∀ f, kept_field f → h' !! f = h !! f.

Lemma same_fields_handed now h : same_fields h (hset_all [("state", "active"); ("started_at", dec now)] h).
Proof. intros f [H1 H2]. cbn. by rewrite !lookup_insert_ne. Qed.

#[export] Instance same_fields_preorder : PreOrder same_fields.
Proof. split; [by intros h f|]. intros h1 h2 h3 H12 H23 f Hf. by rewrite H23, H12. Qed.

Section Taking.
Context {S : Type} `{RedisLaws S} `{!Reliable S}.
Context (q : string) (Hq : wf_queue q).

(** What dequeues leave as it was. *)
Record taking (m m' : keyspace) : Prop := {
  taking_inv : Inv m';
  taking_open : m' !! pausedKey q = None;
  taking_delayed : zset_at m' (delayedKey q) = zset_at m (delayedKey q);
  taking_dead : list_at m' (deadKey q) = list_at m (deadKey q);
  taking_stats : hash_at m' (statsKey q) = hash_at m (statsKey q);
  taking_jobs j : wf_id j → same_fields (hash_at m (jobKey j)) (hash_at m' (jobKey j))
}.

Lemma taking_refl m : Inv m → m !! pausedKey q = None → taking m m.
Proof. by split. Qed.

Lemma taking_trans m1 m2 m3 : taking m1 m2 → taking m2 m3 → taking m1 m3.
Proof.
  intros [? ? Hd1 He1 Hs1 Hj1] [? ? Hd2 He2 Hs2 Hj2]. split; try congruence.
  intros j Hj. etransitivity; [by apply Hj1|by apply Hj2].
Qed.

Lemma taking_one w jid p rest now m : Inv m → m !! pausedKey q = None → wf_id jid → wf_time now →
  zsorted (zset_at m (readyKey q)) = (jid, p) :: rest → taking m (dequeue_ks q w jid (UnixMilli now) 30000 m).
Proof.
  intros HI Hp Hid Hnow Hz. destruct (taken q Hq w jid p rest now m HI Hid Hnow Hz) as (HI1 & _ & _ & Hp1 & _).
  split; [done|by rewrite Hp1|unfold dequeue_ks; by ks_simp..|].
  intros j Hj. unfold dequeue_ks. destruct (decide (jid = j)) as [->|Hne]; ks_simp; [|done].
  apply same_fields_handed.
Qed.

(** A job among the results, with its fields. *)
Definition handed_out (h : gmap string string) (rs : list (option JobRecord)) : Prop :=
  ∃ h', Some (parseJobRecordFromMap h') ∈ rs ∧ same_fields h h'.

Lemma take_all calls m : Inv m → m !! pausedKey q = None → Forall (λ call, wf_time call.1) calls →
  (size (zset_at m (readyKey q)) ≤ length calls)%nat →
  wp (S := S) (map_each calls (λ call, Dequeue call.1 q call.2)) (λ m' r, ∃ rs, r = Ok rs ∧
    taking m m' ∧ zset_at m' (readyKey q) = ∅ ∧
    ∀ j, is_Some (zset_at m (readyKey q) !! j) → handed_out (hash_at m (jobKey j)) rs) m.
Proof.
  revert m. induction calls as [|[now w] calls IH]; intros m HI Hp Hcalls Hlen; cbn [map_each length] in *.
  { apply wp_ret. exists []. assert (Hz : zset_at m (readyKey q) = ∅) by (apply map_size_empty_iff; lia).
    split_and!; [done|by apply taking_refl|done|]. intros j. rewrite Hz, lookup_empty. by intros []. }
  apply Forall_cons in Hcalls as [Hnow Hcalls]. apply wp_bind, wp_Dequeue; [by apply inv_wf|done|done|..].
  - intros [[? Hn]|Hz]; [by rewrite Hp in Hn|]. apply wp_bind.
    eapply wp_mono; [apply IH; [done..|rewrite Hz, map_size_empty; lia]|]. cbv beta.
    intros m' r (rs & -> & Ht & Hz' & _). apply wp_ret. exists (None :: rs). split_and!; [done..|].
    intros j. rewrite Hz, lookup_empty. by intros [].
  - intros jid p rest _ Hz Hid. cbv zeta.
    destruct (taken q Hq w jid p rest now m HI Hid Hnow Hz) as (HI1 & Hz1 & _ & Hp1 & _).
    pose proof (taking_one w jid p rest now m HI Hp Hid Hnow Hz) as Ht1.
    destruct (zsorted_head _ _ _ _ Hz) as [Hin _]. set (m1 := dequeue_ks q w jid _ _ m) in *.
    apply wp_bind. eapply wp_mono; [apply (IH m1 HI1)|]; [by rewrite Hp1|done| |].
    { rewrite Hz1, map_size_delete, Hin. cbn in *. lia. }
    cbv beta. intros m' r (rs & -> & Ht & Hz' & Hall). apply wp_ret. eexists (_ :: rs).
    split_and!; [done|by eapply taking_trans|done|]. intros j Hj. destruct (decide (jid = j)) as [->|Hne].
    + exists (hash_at m1 (jobKey j)). split; [by left|]. by apply (taking_jobs _ _ Ht1).
    + destruct (Hall j) as (h' & Hh & Hs); [by rewrite Hz1, lookup_delete_ne|]. exists h'.
      split; [by right|]. etransitivity; [|exact Hs]. apply (taking_jobs _ _ Ht1).
      destruct Hj as [n Hn]. by apply (wf_zset_mem m (KReady q) j n); [apply inv_wf| |..].
Qed.
End Taking.

(** ** Failing *)

Section Failing.
Context {S : Type} `{RedisLaws S} `{!Reliable S}.
Context (q jid : string) (Hq : wf_queue q) (Hid : wf_id jid).

(** One failure as a worker reports it. *)
Record failure : Type := Failure { at_ : Z; by_ : string; why : string; backoff : Z }.

Definition wf_failure (c : failure) : Prop := wf_time (at_ c) ∧ - 2 ^ 52 ≤ backoff c ≤ 2 ^ 52.

#[export] Instance wf_failure_dec c : Decision (wf_failure c).
Proof. unfold wf_failure. apply _. Defined.

Definition fail (c : failure) : M S error string := Nack (at_ c) q jid (by_ c) (why c) (backoff c) false.

(** [a] attempts of [mx] are spent; the queue has counted [f] failures. *)
Record failed (a mx f : Z) (m : keyspace) : Prop := {
  failed_wf : wf_store m;
  failed_attempt : counter m (jobKey jid) "attempt" = Some a;
  failed_max : max_retries m jid = Some mx;
  failed_count : counter m (statsKey q) "failed" = Some f;
  failed_dead : can_incr m (statsKey q) "dead_total"
}.

Lemma failed_retry a mx f w e t m : failed a mx f m → in_int64 (a + 1) → in_int64 (f + 1) → safe_int t →
  failed (a + 1) mx (f + 1) (nack_retry_ks q jid w e t m).
Proof.
  intros [Hm Ha Hmx Hf Hd] Hra Hrf Ht. assert (Hca : can_incr m (jobKey jid) "attempt") by by exists a.
  assert (Hcf : can_incr m (statsKey q) "failed") by by exists f.
  pose proof (nack_counted_hash q jid w e m Hq Hid Hca) as Hh.
  destruct (nack_counted_failed q jid w e m Hq Hid Hcf) as [Hf' Hd'].
  destruct (nack_counters q jid w e m Hq Hid Hca Hcf) as [Hca' Hcf'].
  assert (Hwf : wf_store (nack_counted_ks q jid w e m)) by by apply wf_nack_counted.
  unfold nack_retry_ks. split.
  - wf_chain. by repeat constructor.
  - unfold counter. ks_simp. rewrite Hh. unfold next_attempt. rewrite Ha. cbn.
    rewrite !lookup_insert_ne, lookup_insert_eq by done. cbn. by rewrite string2ll_dec.
  - unfold max_retries in *. ks_simp. rewrite Hh. cbn. by rewrite !lookup_insert_ne by done.
  - unfold counter in Hf' |- *. ks_simp. rewrite Hf'. unfold counter in Hf. by rewrite Hf.
  - destruct Hd as (n & Hn & Hr). exists n. split; [|done]. unfold counter in *. ks_simp. by rewrite Hd'.
Qed.

(** *** Rounds *)

(** A round: a promotion, dequeues, and the failure of the job. *)
Record bout : Type := Bout { promoted_at : Z; takes : list (Z * string); fails : failure }.

Definition wf_bout (r : bout) : Prop :=
  wf_time (promoted_at r) ∧ Forall (λ call, wf_time call.1) (takes r) ∧ wf_failure (fails r).

#[export] Instance wf_bout_dec r : Decision (wf_bout r).
Proof. unfold wf_bout. apply _. Defined.

Definition live (limit : Z) (r : bout) : M S error (list (option JobRecord) * string) :=
  Promote (promoted_at r) q limit ;;
  recs ← map_each (takes r) (λ call, Dequeue call.1 q call.2);
  out ← fail (fails r);
  mret (recs, out).

(** Each round begins when the delay of the last failure is over. *)
Fixpoint timely (t : Z) (rounds : list bout) : Prop :=
  match rounds with
  | [] => True
  | r :: rounds' => t ≤ UnixMilli (promoted_at r) ∧ timely (UnixMilli (at_ (fails r)) + backoff (fails r)) rounds'
  end.

(** What holds of the queue and the job between the requests: [a] of [mx] attempts
    are spent. *)
Record going (a mx f : Z) (m : keyspace) : Prop := {
  going_inv : Inv m;
  going_open : m !! pausedKey q = None;
  going_failed : failed a mx f m;
  going_id : hash_at m (jobKey jid) !! "id" = Some jid;
  going_alive : jid ∉ list_at m (deadKey q)
}.

(** The job is ready, or delayed until [t], and at most [n] jobs are. *)
Definition waits (t : Z) (n : nat) (m : keyspace) : Prop :=
  (is_Some (zset_at m (readyKey q) !! jid) ∧ zset_at m (delayedKey q) !! jid = None ∨
   zset_at m (readyKey q) !! jid = None ∧ ∃ t', zset_at m (delayedKey q) !! jid = Some t' ∧ t' ≤ t) ∧
  (size (zset_at m (readyKey q)) + size (zset_at m (delayedKey q)) ≤ n)%nat.

(** The job is in hand. *)
Definition in_hand (n : nat) (m : keyspace) : Prop :=
  zset_at m (readyKey q) = ∅ ∧ zset_at m (delayedKey q) !! jid = None ∧
  (size (zset_at m (delayedKey q)) < n)%nat.

(** The job is dead, and nowhere else. *)
Definition laid_to_rest (m : keyspace) : Prop :=
  hash_at m (jobKey jid) !! "state" = Some "dead" ∧
  (∃ others, list_at m (deadKey q) = jid :: others ∧ jid ∉ others) ∧
  zset_at m (readyKey q) !! jid = None ∧ zset_at m (delayedKey q) !! jid = None ∧
  jid ∉ set_at m (activeKey q) ∧ zset_at m (leaseKey q) !! jid = None.

(** [failed] depends on the counters only. *)
Lemma failed_ext a mx f m m' : wf_store m' →
  (∀ g, g = "attempt" ∨ g = "max_retries" → hash_at m' (jobKey jid) !! g = hash_at m (jobKey jid) !! g) →
  hash_at m' (statsKey q) = hash_at m (statsKey q) → failed a mx f m → failed a mx f m'.
Proof.
  intros Hm' Hj Hs [Hm Ha Hmx Hf Hd]. split; [done|..].
  - unfold counter in *. by rewrite Hj by by left.
  - unfold max_retries in *. by rewrite Hj by by right.
  - unfold counter in *. by rewrite Hs.
  - by eapply can_incr_frame.
Qed.

(** **** The promotion *)

Lemma length_zupto now z : (length (zupto now z) ≤ size z)%nat.
Proof.
  unfold zupto. rewrite length_fmap, length_filter, <- (length_map_to_list z). unfold zsorted.
  by rewrite merge_sort_Permutation.
Qed.

Lemma promote_size ids m : Forall wf_id ids → NoDup ids →
  (∀ j, j ∈ ids → is_Some (zset_at m (delayedKey q) !! j)) →
  let m' := foldl (promote_one_ks q) m ids in
  (size (zset_at m' (readyKey q)) + size (zset_at m' (delayedKey q)) ≤
   size (zset_at m (readyKey q)) + size (zset_at m (delayedKey q)))%nat.
Proof.
  cbv zeta. revert m. induction ids as [|x ids IH]; intros m Hids Hnd Hin; cbn [foldl]; [done|].
  apply Forall_cons in Hids as [Hx Hids]. apply NoDup_cons in Hnd as [Hx' Hnd].
  destruct (Hin x ltac:(by left)) as [t Ht].
  assert (Hd : zset_at (promote_one_ks q m x) (delayedKey q) = delete x (zset_at m (delayedKey q)))
    by (unfold promote_one_ks; by ks_simp).
  assert (Hr : zset_at (promote_one_ks q m x) (readyKey q) = <[x := job_priority m x]> (zset_at m (readyKey q)))
    by (unfold promote_one_ks; by ks_simp).
  etransitivity; [apply IH; [done|done|]|].
  - intros j Hj. rewrite Hd, lookup_delete_ne by (by intros ->). apply Hin. by right.
  - rewrite Hd, Hr, map_size_delete, Ht, map_size_insert.
    assert (size (zset_at m (delayedKey q)) ≠ 0)%nat by (rewrite map_size_ne_0_lookup; eauto).
    case_match; cbn; lia.
Qed.

Lemma promoted_waits a mx f t n limit now m : going a mx f m → waits t n m → t ≤ now → limit < 0 ∨ Z.of_nat n ≤ limit →
  let m' := promote_ks q now limit m in
  going a mx f m' ∧ waits t n m' ∧ is_Some (zset_at m' (readyKey q) !! jid).
Proof.
  intros [HI Hp Hf Hidf Hdead] [Hw Hn] Ht Hl m'. pose proof (inv_wf _ HI) as Hm.
  set (ids := due (zset_at m (delayedKey q)) now limit).
  assert (Hids : Forall wf_id ids) by by apply (due_wf m (KDelayed q)).
  destruct (promote_fold q Hq ids m Hids ltac:(apply due_NoDup)) as (Hdel & Hrdy & Hjob & Hkeys).
  change (foldl (promote_one_ks q) m ids) with m' in *.
  assert (Hother : ∀ k, wf_key k → k ∉ KDelayed q :: KReady q :: (KJob <$> ids) → m' !! render k = m !! render k) by done.
  assert (Hnot : ∀ k, (∀ i, k ≠ KJob i) → k ≠ KDelayed q → k ≠ KReady q → k ∉ KDelayed q :: KReady q :: (KJob <$> ids)).
  { intros k Hk H1' H2'. rewrite !not_elem_of_cons. split_and!; [done|done|]. intros (i & -> & _)%list_elem_of_fmap. by apply (Hk i). }
  assert (Hfields : ∀ g, g ≠ "state" → hash_at m' (jobKey jid) !! g = hash_at m (jobKey jid) !! g).
  { intros g Hg. rewrite Hjob by done. case_decide; [by rewrite lookup_insert_ne|done]. }
  assert (Hdue : is_Some (zset_at m (delayedKey q) !! jid) → jid ∈ ids).
  { intros [x Hx]. unfold ids. rewrite due_all.
    - apply zupto_elem. destruct Hw as [[_ Hw]|[_ (t' & Hw & Hle)]]; [congruence|]. exists t'. split; [done|lia].
    - destruct Hl as [Hl|Hl]; [by left|right]. pose proof (length_zupto now (zset_at m (delayedKey q))). lia. }
  assert (HI' : Inv m') by by apply Inv_promoted.
  split; [split|split].
  - done.
  - rewrite <- Hp. apply (Hother (KPaused q)); [done|by apply Hnot].
  - apply (failed_ext a mx f m); [by apply inv_wf| | |done].
    + intros g [->| ->]; by apply Hfields.
    + apply hash_at_ext. apply (Hother (KStats q)); [done|by apply Hnot].
  - by rewrite Hfields.
  - rewrite (list_at_ext m' m); [done|]. apply (Hother (KDead q)); [done|by apply Hnot].
  - split.
    + left. specialize (Hrdy jid). specialize (Hdel jid). destruct (decide (jid ∈ ids)); [rewrite Hrdy, Hdel; eauto|].
      rewrite Hrdy, Hdel. destruct Hw as [Hw|[_ (t' & Hw & Hle)]]; [done|]. exfalso. by eapply n0, Hdue.
    + etransitivity; [|exact Hn]. apply promote_size; [done|apply due_NoDup|].
      intros j (x & Hx & _)%due_elem. eauto.
  - specialize (Hrdy jid). destruct (decide (jid ∈ ids)) as [|Hni]; [rewrite Hrdy; eauto|].
    rewrite Hrdy. destruct Hw as [[Hw _]|[_ (t' & Hw & Hle)]]; [done|]. exfalso. apply Hni, Hdue. eauto.
Qed.

(** **** The dequeues *)

Lemma field_attempt h a : counter_of (h !! "attempt") = Some a → Attempt (parseJobRecordFromMap h) = a.
Proof.
  intros Ha. cbn. unfold field. destruct (h !! "attempt") as [v|]; cbn in *; [|by injection Ha as <-].
  apply string2ll_Some in Ha as [Hr ->]. unfold Atoi. by rewrite ParseInt_dec.
Qed.

Lemma wp_takes a mx f n calls m : going a mx f m → is_Some (zset_at m (readyKey q) !! jid) →
  zset_at m (delayedKey q) !! jid = None →
  (size (zset_at m (readyKey q)) + size (zset_at m (delayedKey q)) ≤ n)%nat →
  Forall (λ call, wf_time call.1) calls → (n ≤ length calls)%nat →
  wp (S := S) (map_each calls (λ call, Dequeue call.1 q call.2)) (λ m' r, ∃ rs, r = Ok rs ∧
    going a mx f m' ∧ in_hand n m' ∧ ∃ rec, Some rec ∈ rs ∧ ID rec = jid ∧ Attempt rec = a) m.
Proof.
  intros [HI Hp Hf Hidf Hdead] Hr Hd Hn Hcalls Hlen.
  eapply wp_mono; [apply (take_all q Hq calls m HI Hp Hcalls); lia|]. cbv beta.
  intros m' r (rs & -> & [HI' Hp' Hdel Hdl Hst Hjobs] & Hz & Hout). exists rs. split; [done|].
  assert (Hfields : ∀ g, kept_field g → hash_at m' (jobKey jid) !! g = hash_at m (jobKey jid) !! g)
    by (intros g Hg; by apply Hjobs).
  split_and!.
  - split; [done|done| |by rewrite Hfields|by rewrite Hdl].
    apply (failed_ext a mx f m); [by apply inv_wf| |done|done]. intros g [->| ->]; by apply Hfields.
  - split_and!; [done|by rewrite Hdel|]. rewrite Hdel.
    assert (size (zset_at m (readyKey q)) ≠ 0)%nat by (destruct Hr; rewrite map_size_ne_0_lookup; eauto). lia.
  - destruct (Hout jid Hr) as (h & Hh & Hs). exists (parseJobRecordFromMap h). split_and!; [done| |].
    + cbn. unfold field. by rewrite Hs, Hidf.
    + apply field_attempt. rewrite Hs by done. apply Hf.
Qed.

(** **** The failure *)

Lemma retried_waits a mx f n w e t m : going a mx f m → in_hand n m →
  in_int64 (a + 1) → in_int64 (f + 1) → safe_int t →
  going (a + 1) mx (f + 1) (nack_retry_ks q jid w e t m) ∧ waits t n (nack_retry_ks q jid w e t m).
Proof.
  intros [HI Hp Hf Hidf Hdead] (Hz & Hd & Hn) Hra Hrf Ht. pose proof (inv_wf _ HI) as Hm.
  pose proof (failed_retry a mx f w e t m Hf Hra Hrf Ht) as Hf'.
  assert (Hca : can_incr m (jobKey jid) "attempt") by (exists a; split; [apply Hf|done]).
  assert (Hcf : can_incr m (statsKey q) "failed") by (exists f; split; [apply Hf|done]).
  destruct (nack_counters q jid w e m Hq Hid Hca Hcf) as [Hca' Hcf'].
  assert (Hwf : wf_store (nack_counted_ks q jid w e m)) by by apply wf_nack_counted.
  assert (Hrd : zset_at (nack_retry_ks q jid w e t m) (readyKey q) = ∅).
  { rewrite <- Hz. unfold nack_retry_ks, nack_counted_ks, nack_failed_ks, unlease_ks. by ks_simp. }
  assert (Hdl : zset_at (nack_retry_ks q jid w e t m) (delayedKey q) = <[jid := t]> (zset_at m (delayedKey q))).
  { unfold nack_retry_ks, nack_counted_ks, nack_failed_ks, unlease_ks. by ks_simp. }
  split; [split|split].
  - by apply Inv_retried.
  - rewrite <- Hp. unfold nack_retry_ks, nack_counted_ks, nack_failed_ks, unlease_ks.
    by repeat first [progress ks_simp | rewrite hincr_lookup by keys_ne].
  - done.
  - unfold nack_retry_ks. ks_simp. rewrite (nack_counted_hash q jid w e m Hq Hid Hca). cbn. by rewrite !lookup_insert_ne by done.
  - unfold nack_retry_ks, nack_counted_ks, nack_failed_ks, unlease_ks. by ks_simp.
  - right. rewrite Hrd, Hdl. split; [apply lookup_empty|]. exists t. by rewrite lookup_insert_eq.
  - rewrite Hrd, Hdl, map_size_empty, map_size_insert_None by done. lia.
Qed.

Lemma buried_rests a mx f n w e m : going a mx f m → in_hand n m → in_int64 (a + 1) → in_int64 (f + 1) →
  laid_to_rest (nack_dead_ks q jid w e m).
Proof.
  intros [HI _ [Hm Ha Hmx Hf Hd] _ Hdead] (Hz & Hdl & _) Hra Hrf.
  assert (Hca : can_incr m (jobKey jid) "attempt") by by exists a.
  assert (Hcf : can_incr m (statsKey q) "failed") by by exists f.
  destruct (nack_counters q jid w e m Hq Hid Hca Hcf) as [Hca' Hcf'].
  assert (Hwf : wf_store (nack_counted_ks q jid w e m)) by by apply wf_nack_counted.
  pose proof (to_dead_can_incr q jid w e m Hq Hid Hcf Hd) as Hd'.
  assert (Huk : uk_shape jid (hincr (statsKey q) "dead_total" (to_dead_ks q jid (nack_counted_ks q jid w e m)))).
  { apply wf_uk_shape; [|done]. apply wf_hincr_stats; [by apply wf_to_dead|done|done]. }
  unfold laid_to_rest, nack_dead_ks. split_and!; [|eexists; split|..]; ks_simp; unfold to_dead_ks; ks_simp;
    [cbn; apply lookup_insert_eq|..].
  all: unfold nack_counted_ks, nack_failed_ks, unlease_ks; ks_simp.
  - done.
  - done.
  - by rewrite Hz, lookup_empty.
  - done.
  - set_solver.
  - apply lookup_delete_eq.
Qed.

(** **** The rounds together *)

(** One of the dequeues handed the job out, with [a] attempts on it. *)
Definition handed (a : Z) (recs : list (option JobRecord)) : Prop :=
  ∃ rec, Some rec ∈ recs ∧ ID rec = jid ∧ Attempt rec = a.

(** A life from attempt [a] on: handed out and retried, round after round, and
    in the last round handed out and buried. *)
Fixpoint lived (a : Z) (rs : list (list (option JobRecord) * string)) : Prop :=
  match rs with
  | [] => False
  | [(recs, out)] => handed a recs ∧ out = "dead"
  | (recs, out) :: rs' => handed a recs ∧ out = "retry" ∧ lived (a + 1) rs'
  end.

Lemma wp_Promote_waits now limit m Q : wf_store m → wf_time now → safe_int limit →
  (∀ r, Q (promote_ks q (UnixMilli now) limit m) (Ok r)) → wp (S := S) (Promote now q limit) Q m.
Proof.
  intros Hm Hnow Hl HQ. unfold Promote. go_op. apply wp_promoteScript; [done|done|eauto with winter|done|].
  cbv beta iota. apply wp_ret, HQ.
Qed.

(** One round: the job is handed out with its attempts, and its failure either
    buries it, when its attempts are spent, or delays it. *)
Lemma wp_live limit r a mx f t n m : going a mx f m → waits t n m → wf_bout r → safe_int limit →
  t ≤ UnixMilli (promoted_at r) → limit < 0 ∨ Z.of_nat n ≤ limit → (n ≤ length (takes r))%nat →
  in_int64 (a + 1) → in_int64 (f + 1) →
  wp (S := S) (live limit r) (λ m' res, ∃ recs, handed a recs ∧
    (mx ≤ a + 1 ∧ res = Ok (recs, "dead") ∧ laid_to_rest m' ∨
     a + 1 < mx ∧ res = Ok (recs, "retry") ∧ going (a + 1) mx (f + 1) m' ∧
       waits (UnixMilli (at_ (fails r)) + backoff (fails r)) n m')) m.
Proof.
  intros Hg Hw (Hp & Hts & Hnow & Hb) Hsl Ht Hl Hlen Hra Hrf. unfold live.
  destruct (promoted_waits a mx f t n limit _ m Hg Hw Ht Hl) as (Hg1 & Hw1 & Hr1).
  apply wp_bind, wp_Promote_waits; [apply Hg|done|done|]. intros _.
  destruct Hw1 as [[[_ Hd1]|[Hn1 _]] Hn]; [|destruct Hr1; congruence].
  apply wp_bind. eapply wp_mono; [by apply (wp_takes a mx f n)|]. cbv beta.
  intros m2 res (recs & -> & Hg2 & Hw2 & Hhand). cbv iota. pose proof Hg2 as [HI _ [Hm2 Ha Hmx Hf Hdd] _ _].
  assert (Hnext : next_attempt m2 jid = a + 1) by (unfold next_attempt; by rewrite Ha).
  unfold fail. apply wp_bind, (wp_Nack _ _ _ _ _ _ false mx); [done|done|done|done|done|by exists a|done|by exists f|done|..].
  - intros _ Hdead. apply (nack_is_dead_spec _ _ _ mx Hmx) in Hdead as [|Hdead]; [done|].
    apply wp_ret. exists recs. split; [done|]. left. split_and!; [lia|done|]. by apply (buried_rests a mx f n).
  - intros _ Hretry. apply (nack_is_retry_spec _ _ _ mx Hmx) in Hretry.
    apply wp_ret. exists recs. split; [done|]. right. split_and!; [lia|done|..].
    all: apply (retried_waits a mx f n); [done..|unfold wf_time, safe_int in *; lia].
Qed.

(** C9: a job that fails every time it is handed out comes to an end.  It waits in
    an open queue, ready or delayed, with [a] of [mx] attempts spent and at
    most [n] jobs waiting; every round promotes what is due once its delay is
    over, makes [n] dequeues or more, and fails it.  Then every round hands it
    out, with one attempt more than the round before; it is retried by every
    failure but the last of [mx - a] (or the first, if none are left), which
    buries it: it is then on the dead list, once, and neither ready, delayed,
    active nor leased. *)
Theorem failing_job_dies limit rounds a mx f t n (m : keyspace) : going a mx f m → waits t n m →
  Forall wf_bout rounds → timely t rounds → Forall (λ r, n ≤ length (takes r))%nat rounds →
  safe_int limit → limit < 0 ∨ Z.of_nat n ≤ limit → Z.of_nat (length rounds) = Z.max 1 (mx - a) →
  in_int64 mx → in_int64 (a + 1) → in_int64 (f + Z.of_nat (length rounds)) → 0 ≤ a → 0 ≤ f →
  wp (S := S) (map_each rounds (live limit)) (λ m' r, ∃ rs, r = Ok rs ∧
    length rs = length rounds ∧ lived a rs ∧ laid_to_rest m') m.
Proof.
  intros Hg Hw Hrs Htm Hts Hsl Hl Hlen Hmx Hra Hf Ha0 Hf0. revert a f t m Hg Hw Hrs Htm Hts Hlen Hra Hf Ha0 Hf0.
  induction rounds as [|r rounds IH]; intros a f t m Hg Hw Hrs Htm Hts Hlen Hra Hf Ha0 Hf0; [cbn in *; lia|].
  apply Forall_cons in Hrs as [Hr Hrs]. apply Forall_cons in Hts as [Htr Hts]. destruct Htm as [Htr' Htm].
  cbn [map_each length] in *.
  assert (Hrf : in_int64 (f + 1)) by (unfold in_int64, int64_min, int64_max in *; lia).
  apply wp_bind. eapply wp_mono; [by apply (wp_live limit r a mx f t n)|]. cbv beta.
  intros m1 res (recs & Hh & [(Hd & -> & Hrest)|(Hmore & -> & Hg1 & Hw1)]); cbv iota.
  - assert (length rounds = 0%nat) by lia. destruct rounds; [|done]. cbn [map_each]. apply wp_bind, wp_ret, wp_ret.
    by exists [(recs, "dead")].
  - apply wp_bind. eapply wp_mono; [apply (IH (a + 1) (f + 1) _ m1 Hg1 Hw1 Hrs Htm Hts)|];
      [unfold in_int64, int64_min, int64_max in *; lia..|]. cbv beta.
    intros m' r' (rs & -> & Hlrs & Hlived & Hrest). apply wp_ret. exists ((recs, "retry") :: rs).
    split_and!; [done|cbn; lia| |done]. destruct rs as [|[recs' out'] rs]; [done|]. done.
Qed.
End Failing.
