(* ===== verification/Order.v ===== *)
(** * Order: a queue hands out what it is given sorted

    Enqueueing a batch of jobs and asking the queue as often sorts the batch by
    priority and id: the queue is a priority queue. *)
From S2P Require Import Prelude Float Keys Redis Lua Keyspace Job Scripts Queue ScriptSpecs QueueSpecs EnqueueSpecs FinishSpecs SweepSpecs Places Liveness.

Open Scope string_scope.
Open Scope Z_scope.
Open Scope list_scope.

(** What the ready set holds of a job. *)
Definition entry_of (job : JobRecord) : string * Z := (ID job, Priority job).

(** The order in which jobs are handed out. *)
Definition before (a b : JobRecord) : Prop := zle (entry_of a) (entry_of b).

#[export] Instance before_dec : RelDecision before.
Proof. intros a b. unfold before. apply _. Defined.

#[export] Instance before_trans : Transitive before.
Proof. intros a b c Hab Hbc. unfold before in *. by transitivity (entry_of b). Qed.

#[export] Instance before_total : Total before.
Proof. intros a b. unfold before. apply (total zle). Qed.

(** The record of a job that is handed out for the first time. *)
Definition taken_record (call : Z * string) (job : JobRecord) : JobRecord := {|
  ID := ID job; Kind := Kind job; Job.Queue := Job.Queue job; Priority := Priority job;
  State := "active"; Payload := Payload job; Attempt := 0; MaxRetries := MaxRetries job;
  CreatedAt := CreatedAt job; ScheduledAt := ScheduledAt job; StartedAt := UnixMilli call.1; CompletedAt := 0;
  LastError := ""; UniqueKey := ""; WorkflowID := WorkflowID job |}.

Lemma parse_taken call job h : wf_record job → wf_time call.1 →
  parseJobRecordFromMap (hset_all [("state", "active"); ("started_at", dec (UnixMilli call.1))]
    (hset_all (enqueue_fields job "") h)) = taken_record call job.
Proof.
  intros Hj Ht%wf_time_safe. pose proof (parse_enqueue_fields job "" h Hj) as Hp.
  revert Hp. generalize (hset_all (enqueue_fields job "") h). intros h' [= ].
  unfold parseJobRecordFromMap, taken_record, field in *. cbn [hset_all foldl fst snd].
  simplify_map_eq. cbn [default from_option id]. rewrite ParseInt_dec by eauto with winter. by f_equal.
Qed.

Lemma StronglySorted_fmap {A B} (R : relation A) (R' : relation B) (f : A → B) l :
  (∀ x y, R x y → R' (f x) (f y)) → StronglySorted R l → StronglySorted R' (f <$> l).
Proof.
  intros Hf. induction 1 as [|x l _ IH Hx]; [constructor|]. cbn. constructor; [done|].
  apply Forall_fmap. by eapply Forall_impl; [|apply Hf].
Qed.

(** Among different priorities the ids do not matter. *)
Lemma merge_sort_strict l l' : l' ≡ₚ l → StronglySorted (λ a b, Priority a < Priority b) l' →
  merge_sort before l = l'.
Proof.
  intros Hp Hs. apply (StronglySorted_unique_strong before).
  - intros x y Hx' Hy Hxy Hyx. assert (Hx : x ∈ l') by (rewrite Hp; by rewrite (merge_sort_Permutation before) in Hx').
    assert (E : Priority x = Priority y) by (unfold before, zle in *; cbn in *; lia). clear Hxy Hyx Hp.
    induction Hs as [|z l' _ IH Hz]; [by apply elem_of_nil in Hx|]. rewrite Forall_forall in Hz.
    apply elem_of_cons in Hx as [->|Hx]; apply elem_of_cons in Hy as [->|Hy]; [done|..|by apply IH].
    + specialize (Hz y Hy). lia.
    + specialize (Hz x Hx). lia.
  - apply StronglySorted_merge_sort; exact _.
  - eapply StronglySorted_weaken; [exact Hs|]. intros a b Hab. by left.
  - by rewrite merge_sort_Permutation.
Qed.

Section Order.
Context (q : string) (Hq : wf_queue q).

(** A job that becomes ready in the queue when it is enqueued. *)
Record immediate (job : JobRecord) : Prop := {
  immediate_wf : wf_record job;
  immediate_queue : Job.Queue job = q;
  immediate_state : State job = "pending";
  immediate_now : ScheduledAt job ≤ 0
}.

Section One.
Context (job : JobRecord) (Hj : immediate job) (m : keyspace).

Lemma plain_ks : enqueue_plain_ks m job =
  hincr (statsKey q) "enqueued" (zadd (readyKey q) (ID job) (Priority job)
    (hset (jobKey (ID job)) (enqueue_fields job "") m)).
Proof.
  destruct Hj as [_ Hqj _ Hs]. unfold enqueue_plain_ks, enqueued_ks, place_ks. rewrite Hqj.
  by rewrite decide_False by lia.
Qed.

#[local] Lemma job_id : wf_id (ID job).
Proof. apply Hj. Qed.
#[local] Hint Resolve job_id : wf.

Lemma plain_ready : zset_at (enqueue_plain_ks m job) (readyKey q) =
  <[ID job := Priority job]> (zset_at m (readyKey q)).
Proof. rewrite plain_ks. ks_simp. reflexivity. Qed.

Lemma plain_paused : enqueue_plain_ks m job !! pausedKey q = m !! pausedKey q.
Proof. rewrite plain_ks, hincr_lookup by keys_ne. ks_simp. reflexivity. Qed.

Lemma plain_hash : hash_at (enqueue_plain_ks m job) (jobKey (ID job)) =
  hset_all (enqueue_fields job "") (hash_at m (jobKey (ID job))).
Proof. rewrite plain_ks. ks_simp. reflexivity. Qed.

Lemma plain_hash_other j : wf_id j → j ≠ ID job →
  hash_at (enqueue_plain_ks m job) (jobKey j) = hash_at m (jobKey j).
Proof. intros Hwj Hne. rewrite plain_ks. ks_simp. reflexivity. Qed.

Lemma Inv_plain : Inv m → can_incr m (statsKey q) "enqueued" → Inv (enqueue_plain_ks m job).
Proof.
  destruct Hj as [Hw <- Hst Hs]. intros HI Hc. unfold enqueue_plain_ks. apply Inv_hincr; [|apply Hw|].
  - apply Inv_enqueued; [done|done|rewrite Hst; by left|by left].
  - eapply can_incr_frame; [by apply plain_stats|done].
Qed.
End One.

(** *** A batch *)

Lemma fold_hash_other jobs m j : Forall immediate jobs → wf_id j → j ∉ ID <$> jobs →
  hash_at (foldl enqueue_plain_ks m jobs) (jobKey j) = hash_at m (jobKey j).
Proof.
  intros Hjs Hj. revert m. induction Hjs as [|job jobs Hjob _ IH]; intros m Hin; [done|]. cbn in *.
  apply not_elem_of_cons in Hin as [Hne Hin]. rewrite IH by done. by apply plain_hash_other.
Qed.

Lemma fold_hash jobs m job : Forall immediate jobs → NoDup (ID <$> jobs) → job ∈ jobs →
  ∃ h, hash_at (foldl enqueue_plain_ks m jobs) (jobKey (ID job)) = hset_all (enqueue_fields job "") h.
Proof.
  intros Hjs. revert m. induction Hjs as [|job' jobs Hjob Hjs IH]; intros m Hnd Hin; [by apply elem_of_nil in Hin|].
  cbn in *. apply NoDup_cons in Hnd as [Hnew Hnd]. apply elem_of_cons in Hin as [->|Hin]; [|by apply IH].
  eexists. rewrite fold_hash_other; [by apply plain_hash|done|apply Hjob|done].
Qed.

Lemma fold_ready jobs m : Forall immediate jobs → NoDup (ID <$> jobs) → zset_at m (readyKey q) = ∅ →
  zset_at (foldl enqueue_plain_ks m jobs) (readyKey q) = list_to_map (entry_of <$> jobs).
Proof.
  intros Hjs Hnd Hm. rewrite <- (right_id_L ∅ (∪) (list_to_map _)), <- Hm. clear Hm.
  revert m. induction Hjs as [|job jobs Hjob Hjs IH]; intros m; cbn in *; [by rewrite (left_id_L ∅ (∪))|].
  apply NoDup_cons in Hnd as [Hnew Hnd]. rewrite IH, plain_ready by done.
  rewrite <- insert_union_l. unfold entry_of at 2. cbn. rewrite insert_union_r; [done|].
  apply not_elem_of_list_to_map_1. by rewrite <- list_fmap_compose.
Qed.

Lemma fold_paused jobs m : Forall immediate jobs →
  foldl enqueue_plain_ks m jobs !! pausedKey q = m !! pausedKey q.
Proof.
  intros Hjs. revert m. induction Hjs as [|job jobs Hjob _ IH]; intros m; cbn; [done|].
  by rewrite IH, plain_paused.
Qed.

Lemma Inv_batch jobs m : Forall immediate jobs → Inv m → room (length jobs) jobs m →
  Inv (foldl enqueue_plain_ks m jobs).
Proof.
  intros Hjs. revert m. induction Hjs as [|job jobs Hjob Hjs IH]; intros m HI Hr; cbn in *; [done|].
  assert (Hwf : Forall wf_record jobs) by (eapply Forall_impl; [exact Hjs|]; by intros ? []).
  apply IH; [|by apply room_step; [apply Hjob|..]].
  apply Inv_plain; [done|done|]. rewrite <- (immediate_queue _ Hjob). eapply room_can_incr; [exact Hr|by left].
Qed.

(** Both sort by priority and id. *)
Lemma zsorted_batch jobs : NoDup (ID <$> jobs) →
  zsorted (list_to_map (entry_of <$> jobs)) = entry_of <$> merge_sort before jobs.
Proof.
  intros Hnd. apply (StronglySorted_unique zle).
  - apply StronglySorted_merge_sort; exact _.
  - apply (StronglySorted_fmap before); [done|]. apply StronglySorted_merge_sort; exact _.
  - unfold zsorted. rewrite !merge_sort_Permutation. apply map_to_list_to_map. by rewrite <- list_fmap_compose.
Qed.

Context {S : Type} `{RedisLaws S} `{!Reliable S}.

Lemma handed_batch calls jobs sorted m : Forall immediate jobs → NoDup (ID <$> jobs) → sorted ⊆ jobs →
  Forall (λ call, wf_time call.1) calls →
  zip_with (handed (foldl enqueue_plain_ks m jobs)) calls (ID <$> sorted) =
  zip_with (λ call job, Some (taken_record call job)) calls sorted.
Proof.
  intros Hjs Hnd Hsub Hcalls. revert sorted Hsub.
  induction Hcalls as [|call calls Hcall _ IH]; intros [|job sorted] Hsub; [done..|].
  cbn [fmap list_fmap zip_with]. rewrite IH by (intros x Hx; apply Hsub; by right). f_equal.
  assert (Hin : job ∈ jobs) by (apply Hsub; by left).
  destruct (fold_hash jobs m job Hjs Hnd Hin) as [h Hh]. unfold handed. rewrite Hh, parse_taken; [done| |done].
  by apply (proj1 (Forall_forall _ _) Hjs).
Qed.

Lemma drain_batch calls jobs m : Inv m → m !! pausedKey q = None → zset_at m (readyKey q) = ∅ →
  Forall immediate jobs → NoDup (ID <$> jobs) → room (length jobs) jobs m →
  Forall (λ call, wf_time call.1) calls → length calls = length jobs →
  wp (S := S) (map_each calls (λ call, Dequeue call.1 q call.2)) (λ m' r,
    r = Ok (zip_with (λ call job, Some (taken_record call job)) calls (merge_sort before jobs)) ∧
    zset_at m' (readyKey q) = ∅ ∧ (∀ job, job ∈ jobs → ID job ∈ set_at m' (activeKey q)))
    (foldl enqueue_plain_ks m jobs).
Proof.
  intros HI Hp Hz Hjs Hnd Hr Hcalls Hlen.
  pose proof (fold_ready jobs m Hjs Hnd Hz) as Hready.
  pose proof (zsorted_batch jobs Hnd) as Hsort. rewrite <- Hready in Hsort.
  assert (Hids : (entry_of <$> merge_sort before jobs).*1 = ID <$> merge_sort before jobs)
    by by rewrite <- list_fmap_compose.
  eapply wp_mono; [apply (drain q Hq calls)|].
  - by apply Inv_batch.
  - by rewrite fold_paused.
  - done.
  - by rewrite Hsort, length_fmap, merge_sort_Permutation.
  - cbv beta. intros m' r (-> & Hz' & Ha). split_and!; [|done|].
    + f_equal. rewrite Hsort, Hids. apply handed_batch; [done|done| |done].
      intros x Hx. by rewrite merge_sort_Permutation in Hx.
    + intros job Hin. apply Ha. left. rewrite Hready. exists (Priority job).
      apply elem_of_list_to_map_1; [by rewrite <- list_fmap_compose|].
      apply list_elem_of_fmap. by exists job.
Qed.

(** C27: a queue is a priority queue.  A batch of jobs with different ids that are
    enqueued at once, one by one or in pipelines, into a queue that is empty and
    not paused, and then taken by any workers at any times, comes out sorted: by
    priority, lower values first, and by id among equals, each job exactly once
    and with the fields it was enqueued with. *)
Theorem queue_sorts calls jobs m : Inv m → m !! pausedKey q = None → zset_at m (readyKey q) = ∅ →
  Forall immediate jobs → NoDup (ID <$> jobs) → room (length jobs) jobs m →
  Forall (λ call, wf_time call.1) calls → length calls = length jobs →
  let sorted := merge_sort before jobs in
  let out := λ (m' : keyspace) (r : result error (list (option JobRecord))),
    r = Ok (zip_with (λ call job, Some (taken_record call job)) calls sorted) ∧
    zset_at m' (readyKey q) = ∅ ∧ (∀ job, job ∈ jobs → ID job ∈ set_at m' (activeKey q)) in
  sorted ≡ₚ jobs ∧ StronglySorted before sorted ∧
  wp (S := S) (for_each jobs (λ job, Enqueue job "" 0) ;; map_each calls (λ call, Dequeue call.1 q call.2)) out m ∧
  wp (S := S) (EnqueueMany jobs ;; map_each calls (λ call, Dequeue call.1 q call.2)) out m.
Proof.
  intros HI Hp Hz Hjs Hnd Hr Hcalls Hlen sorted out.
  assert (Hwf : Forall wf_record jobs) by (eapply Forall_impl; [exact Hjs|]; by intros ? []).
  pose proof (inv_wf _ HI) as Hm. split_and!.
  - apply merge_sort_Permutation.
  - apply StronglySorted_merge_sort; exact _.
  - by apply wp_bind, wp_Enqueue_each, drain_batch.
  - by apply wp_bind, wp_EnqueueMany, drain_batch.
Qed.
End Order.
