(* ===== verification/Board.v ===== *)
(** * Board: what a queue promises, without its keys

    A queue seen from outside is a board of four places: jobs ready under a
    priority, jobs delayed until a time, jobs held under a lease and dead jobs.
    Jobs move between the places by events, each with a condition.  [Refines.v]
    shows that the requests of the program do nothing else to it. *)
From S2P Require Import Prelude Keys Redis Keyspace ScriptSpecs.

Open Scope string_scope.
Open Scope Z_scope.
Open Scope list_scope.

Record board : Type := Board {
  Ready : gmap string Z;
  Delayed : gmap string Z;
  Held : gmap string Z;
  Dead : list string
}.

Inductive event : Type :=
  | Arrive (j : string) (p : Z)        (* becomes ready *)
  | Postpone (j : string) (t : Z)      (* is delayed *)
  | Take (j : string) (t : Z)          (* is handed out, held until [t] *)
  | Extend (j : string) (t : Z)
  | Release (j : string)               (* is no longer held *)
  | Bury (j : string)
  | Due (j : string) (p now : Z)       (* its time has come *)
  | Expire (j : string) (p now : Z)    (* its holder is taken for dead *)
  | Revive (j : string) (p : Z)
  | Purge.

Definition enabled (e : event) (b : board) : Prop :=
  match e with
  | Take j _ => ∃ p rest, zsorted (Ready b) = (j, p) :: rest
  | Extend j _ => is_Some (Held b !! j)
  | Due j _ now => ∃ t, Delayed b !! j = Some t ∧ t ≤ now
  | Expire j _ now => ∃ t, Held b !! j = Some t ∧ t ≤ now
  | Revive j _ => j ∈ Dead b
  | _ => True
  end.

(** The job an event is about. *)
Definition subject (e : event) : option string :=
  match e with
  | Arrive j _ | Postpone j _ | Take j _ | Extend j _ | Release j | Bury j | Due j _ _
  | Expire j _ _ | Revive j _ => Some j
  | Purge => None
  end.

Definition happen (b : board) (e : event) : board :=
  match e with
  | Arrive j p => Board (<[j := p]> (Ready b)) (Delayed b) (Held b) (Dead b)
  | Postpone j t => Board (Ready b) (<[j := t]> (Delayed b)) (Held b) (Dead b)
  | Take j t => Board (delete j (Ready b)) (Delayed b) (<[j := t]> (Held b)) (Dead b)
  | Extend j t => Board (Ready b) (Delayed b) (<[j := t]> (Held b)) (Dead b)
  | Release j => Board (Ready b) (Delayed b) (delete j (Held b)) (Dead b)
  | Bury j => Board (Ready b) (Delayed b) (Held b) (j :: Dead b)
  | Due j p _ => Board (<[j := p]> (Ready b)) (delete j (Delayed b)) (Held b) (Dead b)
  | Expire j p _ => Board (<[j := p]> (Ready b)) (Delayed b) (delete j (Held b)) (Dead b)
  | Revive j p => Board (<[j := p]> (Ready b)) (Delayed b) (Held b) (remove_first j (Dead b))
  | Purge => Board (Ready b) (Delayed b) (Held b) []
  end.

(** A sequence of events, each enabled when it happens. *)
Inductive happens : list event → board → board → Prop :=
  | happens_nil b : happens [] b b
  | happens_cons e es b b' : enabled e b → happens es (happen b e) b' → happens (e :: es) b b'.

Lemma happens_one e b : enabled e b → happens [e] b (happen b e).
Proof. intros He. by repeat econstructor. Qed.

Lemma happens_two e e' b : enabled e b → enabled e' (happen b e) →
  happens [e; e'] b (happen (happen b e) e').
Proof. intros He He'. by repeat econstructor. Qed.

(** An assertion that every event of a sequence preserves. *)
Lemma happens_ind' (P : board → Prop) es b b' :
  (∀ e b, e ∈ es → enabled e b → P b → P (happen b e)) → happens es b b' → P b → P b'.
Proof.
  intros HP Hh. induction Hh as [|e es b b' He _ IH]; [done|]. intros Hb.
  apply IH; [|apply HP; [by left|done..]]. intros e' b1 He'. apply HP. by right.
Qed.

(** ** Jobs stay on the board *)

Definition on_board (j : string) (b : board) : Prop :=
  is_Some (Ready b !! j) ∨ is_Some (Delayed b !! j) ∨ is_Some (Held b !! j) ∨ j ∈ Dead b.

Definition ends (j : string) (e : event) : Prop :=
  match e with Release i => i = j | Purge => True | _ => False end.

Lemma on_board_event j e b : ¬ ends j e → on_board j b → on_board j (happen b e).
Proof.
  unfold on_board. intros Hne Hj. destruct e as [i p|i t|i t|i t|i|i|i p now|i p now|i p|]; cbn in *.
  all: try (destruct (decide (i = j)) as [->|Hij]; [|rewrite ?lookup_insert_ne, ?lookup_delete_ne by done]).
  all: rewrite ?lookup_insert_eq, ?lookup_delete_eq.
  all: try by eauto.
  all: try by (rewrite ?elem_of_cons; naive_solver).
  destruct Hj as [?|[?|[?|Hj]]]; [by auto..|]. do 3 right. by apply remove_first_elem.
Qed.

Lemma on_board_events j es b b' : (∀ e, e ∈ es → ¬ ends j e) → happens es b b' → on_board j b → on_board j b'.
Proof. intros He. apply happens_ind'. intros e b0 Hin _. by apply on_board_event, He. Qed.

(** A job that is released and put elsewhere in one go. *)
Lemma on_board_moved j i e b : on_board i (happen (happen b (Release i)) e) → subject e = Some i → ¬ ends i e →
  on_board j b → on_board j (happen (happen b (Release i)) e).
Proof.
  intros Hi Hsub Hne Hj. destruct (decide (i = j)) as [->|Hij]; [done|].
  apply on_board_event; [|by apply on_board_event]. destruct e; cbn in *; congruence.
Qed.

Lemma on_board_buried i b : on_board i (happen b (Bury i)).
Proof. unfold on_board. cbn. do 3 right. by left. Qed.

Lemma on_board_postponed i t b : on_board i (happen b (Postpone i t)).
Proof. unfold on_board. cbn. rewrite lookup_insert_eq. eauto. Qed.

(** A delayed job is delayed until it is due. *)
Lemma delayed_event j e b : (∀ p now, e ≠ Due j p now) →
  is_Some (Delayed b !! j) → is_Some (Delayed (happen b e) !! j).
Proof.
  intros Hne Hj. destruct e as [i p|i t|i t|i t|i|i|i p now|i p now|i p|]; cbn; try done.
  - destruct (decide (i = j)) as [->|]; [by rewrite lookup_insert_eq|by rewrite lookup_insert_ne].
  - destruct (decide (i = j)) as [->|]; [by destruct (Hne p now)|by rewrite lookup_delete_ne].
Qed.

(** ** One place at a time *)

Definition occ (x : option Z) : nat := match x with Some _ => 1 | None => 0 end.
Definition dead_occ (j : string) (l : list string) : nat := if decide (j ∈ l) then 1 else 0.

(** In how many places a job is. *)
Definition places (j : string) (b : board) : nat :=
  (occ (Ready b !! j) + occ (Delayed b !! j) + occ (Held b !! j) + dead_occ j (Dead b))%nat.

Definition exclusive (b : board) : Prop := (∀ j, (places j b ≤ 1)%nat) ∧ NoDup (Dead b).

(** What an event needs in order not to put a job in a second place. *)
Definition tidy (e : event) (b : board) : Prop :=
  match e with
  | Arrive j _ | Postpone j _ | Bury j => places j b = 0%nat
  | _ => True
  end.

Lemma occ_Some x : is_Some x ↔ occ x = 1%nat.
Proof. destruct x; cbn; split; [done|eauto|by intros []|done]. Qed.

Lemma dead_occ_in j l : j ∈ l ↔ dead_occ j l = 1%nat.
Proof. unfold dead_occ. by case_decide. Qed.

Lemma dead_occ_iff j l l' : (j ∈ l ↔ j ∈ l') → dead_occ j l = dead_occ j l'.
Proof. intros Hl. unfold dead_occ. apply decide_ext. done. Qed.

Lemma on_board_places j b : on_board j b ↔ (0 < places j b)%nat.
Proof.
  unfold on_board, places. rewrite !occ_Some, dead_occ_in.
  assert (dead_occ j (Dead b) ≤ 1)%nat by (unfold dead_occ; case_decide; lia).
  destruct (Ready b !! j), (Delayed b !! j), (Held b !! j); cbn; lia.
Qed.

Lemma places_other j e b : subject e ≠ Some j → (places j (happen b e) ≤ places j b)%nat.
Proof.
  intros Hne. unfold places.
  destruct e as [i p|i t|i t|i t|i|i|i p now|i p now|i p|]; cbn in *.
  10: { unfold dead_occ at 1. rewrite decide_False by apply not_elem_of_nil. lia. }
  all: assert (i ≠ j) by congruence.
  all: rewrite ?lookup_insert_ne, ?lookup_delete_ne by done; try done.
  - rewrite (dead_occ_iff j (i :: Dead b) (Dead b)); [done|]. rewrite elem_of_cons. naive_solver.
  - rewrite (dead_occ_iff j (remove_first i (Dead b)) (Dead b)); [done|]. by apply remove_first_elem.
Qed.

Lemma places_event j e b : exclusive b → enabled e b → tidy e b → (places j (happen b e) ≤ 1)%nat.
Proof.
  intros [Hex Hnd] He Ht. specialize (Hex j).
  destruct (decide (subject e = Some j)) as [Hj|Hj]; [|pose proof (places_other j e b Hj); lia].
  destruct e as [i p|i t|i t|i t|i|i|i p now|i p now|i p|]; cbn in *; unfold places in *; cbn in *;
    try done; apply (inj Some) in Hj; subst j; rename i into j;
    rewrite ?lookup_insert_eq, ?lookup_delete_eq; cbn [occ]; try lia.
  - destruct He as (p & rest & He).
    assert (HR : Ready b !! j = Some p) by (apply zsorted_elem; rewrite He; by left).
    rewrite HR in Hex. cbn in Hex. lia.
  - apply occ_Some in He. lia.
  - rewrite (proj1 (dead_occ_in j (j :: Dead b))) by by left. lia.
  - destruct He as (t & He & _). rewrite He in Hex. cbn in Hex. lia.
  - destruct He as (t & He & _). rewrite He in Hex. cbn in Hex. lia.
  - apply dead_occ_in in He. destruct (remove_first_NoDup j _ Hnd) as [_ Hr].
    unfold dead_occ at 1. rewrite decide_False by done. lia.
Qed.

Lemma exclusive_event e b : exclusive b → enabled e b → tidy e b → exclusive (happen b e).
Proof.
  intros Hb He Ht. split; [intros j; by apply places_event|]. destruct Hb as [_ Hnd].
  destruct e; cbn in *; try done; [|by apply remove_first_NoDup|constructor].
  constructor; [|done]. rewrite dead_occ_in. unfold places in Ht. lia.
Qed.

(** Events that take a job from the place they put it into. *)
Definition neutral (e : event) : Prop :=
  match e with Arrive _ _ | Postpone _ _ | Bury _ => False | _ => True end.

Lemma exclusive_neutral es b b' : (∀ e, e ∈ es → neutral e) → happens es b b' → exclusive b → exclusive b'.
Proof.
  intros Hes. apply happens_ind'. intros e b0 He Hen Hb. apply exclusive_event; [done..|].
  specialize (Hes e He). by destruct e.
Qed.

Lemma places_released j b : exclusive b → is_Some (Held b !! j) → places j (happen b (Release j)) = 0%nat.
Proof.
  intros [Hex _] Hj. specialize (Hex j). unfold places in *. apply occ_Some in Hj. cbn.
  rewrite lookup_delete_eq. cbn. lia.
Qed.

(** A held job that is put elsewhere when it is released. *)
Lemma exclusive_moved j e b : exclusive b → is_Some (Held b !! j) →
  (enabled e (happen b (Release j))) → (tidy e (happen b (Release j)) ↔ places j (happen b (Release j)) = 0%nat) →
  exclusive (happen (happen b (Release j)) e).
Proof.
  intros Hb Hj He Ht. apply exclusive_event; [by apply exclusive_event|done|]. by apply Ht, places_released.
Qed.

Lemma not_on_board j b : ¬ on_board j b → places j b = 0%nat.
Proof. rewrite on_board_places. lia. Qed.

Lemma not_on_board' j b : places j b = 0%nat → ¬ on_board j b.
Proof. rewrite on_board_places. lia. Qed.
