(* ===== verification/Json.v ===== *)
(** * Json: [encoding/json], as an interface

    The repository stores workflow records and the states of its schedule as
    JSON.  The package is a parameter of the development: what one type's
    marshaller promises is [JsonLaws]. *)
From S2P Require Import Prelude.

(** [json.Marshal] and [json.Unmarshal] of a struct type.  Strings that are not
    UTF-8 do not survive; [valid_text] says that all strings of a value are. *)
Class Json (R : Type) : Type := {
  marshal : R → string;
  unmarshal : string → result string R;
  valid_text : R → Prop
}.

Class JsonLaws (R : Type) `{Json R} : Prop :=
  unmarshal_marshal r : valid_text r → unmarshal (marshal r) = Ok r.
