(* ===== verification/Winter.v ===== *)
(** * Winter: the public vocabulary of the package, [winter.go]

    Job states and the transition table, backoff strategies, handler errors and
    the sentinels the server looks for in them, and enqueue options. *)
From S2P Require Import Prelude Float.

Open Scope string_scope.
Open Scope Z_scope.

(** ** Job states *)

Definition JobState : Type := string.

Definition StatePending : JobState := "pending".
Definition StateActive : JobState := "active".
Definition StateCompleted : JobState := "completed".
Definition StateFailed : JobState := "failed".
Definition StateRetry : JobState := "retry".
Definition StateDead : JobState := "dead".
Definition StateCancelled : JobState := "cancelled".

Definition validTransitions : gmap JobState (list JobState) := list_to_map [
  (StatePending, [StateActive]);
  (StateActive, [StateCompleted; StateFailed; StateRetry; StateCancelled]);
  (StateRetry, [StatePending; StateActive]);
  (StateFailed, [StateDead; StatePending]);
  (StateDead, [StatePending]);
  (StateCancelled, []);
  (StateCompleted, [])].

(** The loop over the targets returns at the first match. *)
Definition ValidTransition (from to : JobState) : bool :=
  match validTransitions !! from with
  | None => false
  | Some targets => existsb (λ t, bool_decide (t = to)) targets
  end.

Definition all_states : list JobState :=
  [StatePending; StateActive; StateCompleted; StateFailed; StateRetry; StateDead; StateCancelled].

(** ** Backoff *)

Definition maxBackoff : Z := 3600 * Second.

Section Backoff.
(** [time.Duration(f)] of a float beyond the range of an int64, which Go leaves
    to the implementation. *)
Context (huge : Z).

(** [time.Duration(math.Pow(2, float64(attempt)))]: powers of two are exact;
    a negative exponent gives a fraction, which truncates to 0. *)
Definition pow2 (attempt : Z) : Z :=
  if decide (attempt < 0) then 0 else if decide (attempt ≤ 62) then 2 ^ attempt else huge.

Lemma pow2_exact attempt : 0 ≤ attempt ≤ 62 → pow2 attempt = 2 ^ attempt.
Proof.
  intros Ha. unfold pow2. rewrite (decide_False (P := attempt < 0)) by lia.
  by rewrite decide_True by lia.
Qed.

(** [BackoffStrategy]: the three of the package and the user's own. *)
Inductive BackoffStrategy : Type :=
  | exponentialBackoff (base : Z)
  | linearBackoff (step : Z)
  | fixedBackoff (d : Z)
  | customBackoff (next : Z → Z).

Definition Next (b : BackoffStrategy) (attempt : Z) : Z :=
  match b with
  | exponentialBackoff base =>
      let d := wrap64 (base * pow2 attempt) in
      if decide (d > maxBackoff) then maxBackoff else d
  | linearBackoff step => wrap64 (step * wrap64 (attempt + 1))
  | fixedBackoff d => d
  | customBackoff next => next attempt
  end.

(** The exponential backoff is the doubled base capped at an hour, as long as
    the doubled base fits 64 bits. *)
Theorem Next_exponential base attempt :
  0 ≤ base → 0 ≤ attempt ≤ 62 → base * 2 ^ attempt ≤ int64_max →
  Next (exponentialBackoff base) attempt = Z.min (base * 2 ^ attempt) maxBackoff.
Proof.
  intros Hb Ha Hm. unfold Next. rewrite pow2_exact by lia.
  assert (0 ≤ 2 ^ attempt) by (apply Z.pow_nonneg; lia).
  rewrite wrap64_id by (unfold in_int64, int64_min; nia). case_decide; lia.
Qed.

(** Below the overflow the delay never shrinks from one attempt to the next. *)
Lemma Next_exponential_mono base attempt :
  0 ≤ base → 0 ≤ attempt < 62 → base * 2 ^ (attempt + 1) ≤ int64_max →
  Next (exponentialBackoff base) attempt ≤ Next (exponentialBackoff base) (attempt + 1).
Proof.
  intros Hb Ha Hm. assert (0 ≤ 2 ^ attempt) by (apply Z.pow_nonneg; lia).
  assert (2 ^ (attempt + 1) = 2 * 2 ^ attempt) as E by (rewrite Z.pow_add_r by lia; lia).
  rewrite !Next_exponential by (rewrite ?E in *; lia || nia).
  rewrite E. apply Z.min_le_compat_r. nia.
Qed.

(** Past the overflow of 64 bits the cap does not apply: with a base of a
    second, the delay after attempt 34 is negative, and after the attempts 55 to
    62 it is zero, so the job is retried at once. *)
Theorem Next_exponential_overflow :
  Next (exponentialBackoff Second) 34 < 0 ∧
  (∀ attempt, 55 ≤ attempt ≤ 62 → Next (exponentialBackoff Second) attempt = 0).
Proof.
  split; [by vm_compute|]. intros attempt Ha. unfold Next. rewrite pow2_exact by lia.
  replace attempt with (55 + (attempt - 55)) by lia.
  rewrite Z.pow_add_r by lia. unfold wrap64, Second.
  replace (1000000000 * (2 ^ 55 * 2 ^ (attempt - 55)) + 2 ^ 63)
    with (2 ^ 63 + (1953125 * 2 ^ (attempt - 55)) * 2 ^ 64) by lia.
  rewrite Z.mod_add by lia. by vm_compute.
Qed.

Lemma Next_linear step attempt :
  0 ≤ step → 0 ≤ attempt → step * (attempt + 1) ≤ int64_max → attempt < int64_max →
  Next (linearBackoff step) attempt = step * (attempt + 1).
Proof.
  intros Hs Ha Hm Hlt. unfold Next. rewrite (wrap64_id (attempt + 1)).
  - apply wrap64_id. split; [|done]. unfold int64_min. nia.
  - unfold in_int64, int64_min, int64_max in *. lia.
Qed.
End Backoff.


(** ** Errors of handlers *)

(** An [error] value as the server inspects it: the package's sentinels, any
    other error by its text, and an error that wraps others ([fmt.Errorf] with
    %w, [errors.Join]). *)
Inductive gerror : Type :=
  | ErrSkipRetry
  | rescheduleError (delay : Z)
  | cancelError (reason : string)
  | plainError (msg : string)
  | wrapError (msg : string) (causes : list gerror).

Definition Reschedule (d : Z) : gerror := rescheduleError d.
Definition Cancel (reason : string) : gerror := cancelError reason.

(** [errors.As] and [errors.Is]: the first match in a pre-order walk. *)
Fixpoint find_error {A} (f : gerror → option A) (e : gerror) : option A :=
  match f e with
  | Some a => Some a
  | None =>
      match e with
      | wrapError _ causes =>
          (fix go (l : list gerror) : option A :=
             match l with
             | [] => None
             | c :: l' => match find_error f c with Some a => Some a | None => go l' end
             end) causes
      | _ => None
      end
  end.

(** The delay, and whether the error is a reschedule. *)
Definition IsReschedule (err : gerror) : Z * bool :=
  match find_error (λ e, match e with rescheduleError d => Some d | _ => None end) err with
  | Some d => (d, true)
  | None => (0, false)
  end.

Definition IsCancel (err : gerror) : string * bool :=
  match find_error (λ e, match e with cancelError r => Some r | _ => None end) err with
  | Some r => (r, true)
  | None => ("", false)
  end.

(** [errors.Is(err, ErrSkipRetry)] *)
Definition IsSkipRetry (err : gerror) : bool :=
  match find_error (λ e, match e with ErrSkipRetry => Some tt | _ => None end) err with
  | Some _ => true
  | None => false
  end.

(** Wrapping an error in context changes none of the three answers. *)
Lemma find_error_wrap {A} (f : gerror → option A) msg e :
  (∀ m l, f (wrapError m l) = None) → find_error f (wrapError msg [e]) = find_error f e.
Proof. intros Hf. cbn. rewrite Hf. by destruct (find_error f e). Qed.

(** A handler may add any amount of context to a sentinel: the delay of a
    Reschedule, the reason of a Cancel and an ErrSkipRetry are found under it,
    and an error that wraps none of them is none of them. *)
Theorem sentinels_under_context msgs e :
  let wrapped := foldr (λ msg e, wrapError msg [e]) e msgs in
  IsReschedule wrapped = IsReschedule e ∧ IsCancel wrapped = IsCancel e ∧
  IsSkipRetry wrapped = IsSkipRetry e.
Proof.
  cbv zeta. induction msgs as [|msg msgs (IH1 & IH2 & IH3)]; [done|]. cbn [foldr].
  unfold IsReschedule, IsCancel, IsSkipRetry in *. by rewrite !find_error_wrap.
Qed.

(** ** Options *)

(** [insertOpts]; the zero [time.Time] is [None]. *)
Record insertOpts : Type := {
  queue : string;
  priority : Z;
  scheduledAt : option Z;
  uniquePeriod : Z
}.

Definition Option : Type := insertOpts → insertOpts.

Definition Queue (name : string) : Option := λ o,
  {| queue := name; priority := priority o; scheduledAt := scheduledAt o; uniquePeriod := uniquePeriod o |}.
Definition Priority (p : Z) : Option := λ o,
  {| queue := queue o; priority := p; scheduledAt := scheduledAt o; uniquePeriod := uniquePeriod o |}.
Definition In (now d : Z) : Option := λ o,
  {| queue := queue o; priority := priority o; scheduledAt := Some (now + d); uniquePeriod := uniquePeriod o |}.
Definition At (t : option Z) : Option := λ o,
  {| queue := queue o; priority := priority o; scheduledAt := t; uniquePeriod := uniquePeriod o |}.
Definition Unique (period : Z) : Option := λ o,
  {| queue := queue o; priority := priority o; scheduledAt := scheduledAt o; uniquePeriod := period |}.

Definition defaultOpts : insertOpts :=
  {| queue := "default"; priority := 5; scheduledAt := None; uniquePeriod := 0 |}.

(** [for _, opt := range opts { opt(o) }] *)
Definition apply_opts (opts : list Option) (o : insertOpts) : insertOpts :=
  foldl (λ o opt, opt o) o opts.

(** ** Tasks *)

Record Rate : Type := { Max : Z; Per : Z }.

Record TaskOptions : Type := {
  tQueue : string;
  tMaxRetries : Z;
  tTimeout : Z;
  tBackoff : option BackoffStrategy;
  tRateLimit : Rate
}.

(** A [Task]: its kind, what [json.Marshal] makes of it (an error for [Err]),
    and its [Options()] if it is a [TaskWithOptions]. *)
Record Task : Type := {
  tKind : string;
  tPayload : result string string;
  tOptions : option TaskOptions
}.

(** The edges of the table as pairs. *)
Definition transition_edges : list (JobState * JobState) :=
  [(StatePending, StateActive);
   (StateActive, StateCompleted); (StateActive, StateFailed);
   (StateActive, StateRetry); (StateActive, StateCancelled);
   (StateRetry, StatePending); (StateRetry, StateActive);
   (StateFailed, StateDead); (StateFailed, StatePending);
   (StateDead, StatePending)].

(** The transition table, edge by edge: a finished or cancelled job has no
    way out, an unknown state has none, and although the scripts perform them,
    neither active -> dead nor active -> pending is listed. *)
Theorem ValidTransition_table from to :
  ValidTransition from to = true ↔ (from, to) ∈ transition_edges.
Proof.
  unfold ValidTransition. split.
  - destruct (validTransitions !! from) as [targets|] eqn:Hf; [|done].
    intros Hex. apply existsb_exists in Hex as (t & Ht & Heq).
    apply bool_decide_eq_true in Heq as ->. apply list_elem_of_In in Ht.
    assert (Hall : map_Forall (λ f ts, Forall (λ t, (f, t) ∈ transition_edges) ts) validTransitions)
      by decide_now.
    specialize (Hall from targets Hf). cbn in Hall. by eapply Forall_forall in Hall.
  - intros Hin. unfold transition_edges in Hin.
    repeat (apply elem_of_cons in Hin as [[= -> ->]|Hin]; [by vm_compute|]).
    by apply elem_of_nil in Hin.
Qed.
