(* ===== verification/Client.v ===== *)
(** * Client: the enqueue API, [client.go] and the task lists of [workflow.go]

    What a caller's task and options become in the queue.  [uuid.New] and the
    clock are arguments, SHA-256 is a function of the section. *)
From S2P Require Import Prelude Float Keys Redis Lua Keyspace Job Scripts Queue ScriptSpecs QueueSpecs EnqueueSpecs Winter.

Open Scope string_scope.
Open Scope Z_scope.

(** The public view of a job, [Job[T]], without its arguments. *)
Record ClientJob : Type := {
  jID : string;
  jKind : string;
  jQueue : string;
  jPriority : Z;
  jState : JobState;
  jAttempt : Z;
  jMaxRetries : Z;
  jCreatedAt : Z;
  jScheduledAt : option Z
}.

(** [scheduledAt] of the record: zero for the zero time. *)
Definition scheduled_ms (o : insertOpts) : Z :=
  match scheduledAt o with Some t => UnixMilli t | None => 0 end.

(** The task's own defaults, where it has them. *)
Definition task_queue (args : Task) (q : string) : string :=
  match tOptions args with
  | Some t => if decide (tQueue t ≠ "") then tQueue t else q
  | None => q
  end.
Definition task_retries (args : Task) : Z :=
  match tOptions args with
  | Some t => if decide (tMaxRetries t > 0) then tMaxRetries t else 3
  | None => 3
  end.

Definition client_job (job : JobRecord) (now : Z) (at_ : option Z) : ClientJob := {|
  jID := ID job; jKind := Kind job; jQueue := Job.Queue job; jPriority := Job.Priority job;
  jState := StatePending; jAttempt := 0; jMaxRetries := MaxRetries job; jCreatedAt := now;
  jScheduledAt := at_ |}.

Section Client.
Context {S : Type} `{Redis S} (sha256_hex : string → string).

(** [fmt.Sprintf("%s:%x", args.Kind(), hash)] *)
Definition unique_name (kind payload : string) : string := kind +:+ ":" +:+ sha256_hex payload.

(** The options of Enqueue: the task's queue first, then the caller's options. *)
Definition enqueue_opts (args : Task) (opts : list Option) : insertOpts :=
  apply_opts opts (Winter.Queue (task_queue args "default") defaultOpts).

Definition new_record (id : string) (args : Task) (payload q : string) (o : insertOpts) (now : Z)
    : JobRecord := {|
  ID := id; Kind := tKind args; Job.Queue := q; Job.Priority := priority o;
  State := StatePending; Payload := payload; Attempt := 0; MaxRetries := task_retries args;
  CreatedAt := UnixMilli now; ScheduledAt := scheduled_ms o; StartedAt := 0; CompletedAt := 0;
  LastError := ""; UniqueKey := ""; WorkflowID := "" |}.

Definition Enqueue (now : Z) (id : string) (args : Task) (opts : list Option) : M S error ClientJob :=
  let o := enqueue_opts args opts in
  match tPayload args with
  | Err e => throw (Errorf "winter: marshal args" e)
  | Ok payload =>
      let uniqueKey := if decide (uniquePeriod o > 0) then unique_name (tKind args) payload else "" in
      let job := new_record id args payload (queue o) o now in
      Queue.Enqueue job uniqueKey (uniquePeriod o) ;;
      mret (client_job job now (scheduledAt o))
  end.

(** The loop of EnqueueMany: the records, or the first marshalling error. *)
Fixpoint many_records (i : nat) (ids : nat → string) (tasks : list Task) (o : insertOpts) (now : Z)
    : result error (list JobRecord) :=
  match tasks with
  | [] => Ok []
  | args :: tasks' =>
      match tPayload args with
      | Err e => Err (Errorf ("winter: marshal args[" +:+ dec (Z.of_nat i) +:+ "]") e)
      | Ok payload =>
          match many_records (Datatypes.S i) ids tasks' o now with
          | Err e => Err e
          | Ok records => Ok (new_record (ids i) args payload (task_queue args (queue o)) o now :: records)
          end
      end
  end.

Definition EnqueueMany (now : Z) (ids : nat → string) (tasks : list Task) (opts : list Option)
    : M S error (list ClientJob) :=
  let o := apply_opts opts defaultOpts in
  match many_records 0 ids tasks o now with
  | Err e => throw e
  | Ok records =>
      Queue.EnqueueMany records ;;
      mret ((λ r, client_job r now (scheduledAt o)) <$> records)
  end.

(** [WaitForResult]: one poll per tick until the context ends, here after
    [ticks] ticks; [unmarshal] is [json.Unmarshal] into the caller's type. *)
Fixpoint WaitForResult {R : Type} (unmarshal : string → result string R) (ticks : nat)
    (jobID : string) : M S error R :=
  data ← GetResult jobID;
  match data with
  | Some d =>
      match unmarshal d with
      | Ok r => mret r
      | Err e => throw (Errorf "winter: unmarshal result" e)
      end
  | None =>
      match ticks with
      | O => throw (ErrText "context deadline exceeded")
      | Datatypes.S n => WaitForResult unmarshal n jobID
      end
  end.
End Client.

(** ** What the options do *)

(** Which queue a job goes to.  A queue the caller names last wins in Enqueue;
    in EnqueueMany a queue of the task's own wins over it. *)
Theorem queue_precedence args opts q :
  queue (enqueue_opts args (opts ++ [Winter.Queue q])%list) = q ∧
  (∀ ids i now r, many_records i ids [args] (apply_opts (opts ++ [Winter.Queue q])%list defaultOpts) now
     = Ok [r] → Job.Queue r = task_queue args q) ∧
  (∀ t, tOptions args = Some t → tQueue t ≠ "" → task_queue args q = tQueue t).
Proof.
  unfold enqueue_opts, apply_opts. rewrite !foldl_app. split_and!; [done| |].
  - intros ids i now r. cbn. destruct (tPayload args); [|done]. by intros [= <-].
  - intros t Ht Hne. unfold task_queue. by rewrite Ht, decide_True.
Qed.

(** A batch is rejected as a whole at the first task that does not marshal. *)
Lemma many_records_error i ids tasks o now :
  is_Err (many_records i ids tasks o now) ↔ Exists (λ args, is_Err (tPayload args)) tasks.
Proof.
  revert i. induction tasks as [|args tasks IH]; intros i; cbn; [split; [done|by intros []%Exists_nil]|].
  rewrite Exists_cons. destruct (tPayload args); cbn; [|tauto].
  rewrite <- (IH (Datatypes.S i)). destruct (many_records _ _ _ _ _); cbn; tauto.
Qed.

Lemma many_records_length i ids tasks o now rs : many_records i ids tasks o now = Ok rs →
  length rs = length tasks.
Proof.
  revert i rs. induction tasks as [|args tasks IH]; intros i rs; cbn; [by intros [= <-]|].
  destruct (tPayload args); [|done]. destruct (many_records _ _ _ _ _) eqn:E; [|done].
  intros [= <-]. cbn. f_equal. by eapply IH.
Qed.

Section Specs.
Context {S : Type} `{RedisLaws S} `{!Reliable S} (sha256_hex : string → string).

(** EnqueueMany is all or nothing in its arguments: when some task does not
    marshal nothing at all is sent, and the error names a task. *)
Theorem EnqueueMany_rejects now ids tasks opts (s : S) :
  Exists (λ args, is_Err (tPayload args)) tasks →
  (EnqueueMany now ids tasks opts s).1 = s ∧
  ∃ i e, (EnqueueMany now ids tasks opts s).2
         = Err (Errorf ("winter: marshal args[" +:+ dec (Z.of_nat i) +:+ "]") e).
Proof.
  intros Hex. unfold EnqueueMany. set (o := apply_opts _ _).
  assert (Hm : ∀ i, ∃ j e, many_records i ids tasks o now
                = Err (Errorf ("winter: marshal args[" +:+ dec (Z.of_nat j) +:+ "]") e)).
  { induction tasks as [|args tasks IH]; [by apply Exists_nil in Hex|]. intros i. cbn.
    destruct (tPayload args) as [payload|e] eqn:Hp; [|by exists i, e].
    apply Exists_cons in Hex as [Hex|Hex]; [by rewrite Hp in Hex|].
    destruct (IH Hex (Datatypes.S i)) as (j & e & ->). by exists j, e. }
  destruct (Hm 0%nat) as (j & e & ->). split; [done|]. by exists j, e.
Qed.

(** The job a client builds is a record the queue can hold. *)
Lemma wf_new_record id args payload q o now : wf_id id → wf_queue q → safe_int (priority o) →
  safe_int (task_retries args) → wf_time now → safe_int (scheduled_ms o) →
  wf_record (new_record id args payload q o now).
Proof.
  intros. unfold wf_record. split_and!; try done. apply safe_int_in_int64. by apply wf_time_safe.
Qed.

(** Inside the window a second Enqueue of the same kind and payload is
    refused, whatever its other options, and changes nothing; the first one is
    stored. *)
Theorem Enqueue_unique now1 now2 id1 id2 args opts1 opts2 payload period (m : keyspace) :
  wf_store m → tPayload args = Ok payload →
  let o1 := enqueue_opts args (opts1 ++ [Unique period])%list in
  let o2 := enqueue_opts args (opts2 ++ [Unique period])%list in
  wf_record (new_record id1 args payload (queue o1) o1 now1) →
  wf_record (new_record id2 args payload (queue o2) o2 now2) →
  Second ≤ period < 2 ^ 22 * Second →
  m !! uniqueKey (unique_name sha256_hex (tKind args) payload) = None →
  can_incr m (statsKey (queue o1)) "enqueued" →
  wp (S := S) (E := error)
    (r1 ← try (Enqueue sha256_hex now1 id1 args (opts1 ++ [Unique period])%list);
     r2 ← try (Enqueue sha256_hex now2 id2 args (opts2 ++ [Unique period])%list);
     mret (r1, r2))
    (λ m' r, ∃ job, r = Ok (Ok job, Err ErrDuplicate) ∧ jID job = id1 ∧
       str_at m' (uniqueKey (unique_name sha256_hex (tKind args) payload)) = Some id1) m.
Proof.
  intros Hm Hp o1 o2 Hj1 Hj2 Hper Hfree Hc. unfold Enqueue.
  rewrite Hp. fold o1 o2. set (u := unique_name sha256_hex (tKind args) payload) in *.
  set (job1 := new_record id1 _ _ _ _ _) in *. set (job2 := new_record id2 _ _ _ _ _) in *.
  assert (E1 : uniquePeriod o1 = period) by (unfold o1, enqueue_opts, apply_opts; by rewrite foldl_app).
  assert (E2 : uniquePeriod o2 = period) by (unfold o2, enqueue_opts, apply_opts; by rewrite foldl_app).
  rewrite E1, E2. assert (Hpos : period > 0) by (unfold Second in *; lia).
  rewrite !(decide_True (P := period > 0)) by done.
  assert (Hu : u ≠ "") by (unfold u, unique_name; by destruct (tKind args)).
  assert (Hs : unique_slot u period = (uniqueKey u, period / Second)).
  { unfold unique_slot. rewrite decide_True by done. rewrite Seconds_trunc; [done|].
    unfold Second in *. lia. }
  assert (Httl : 0 < period / Second < 2 ^ 22).
  { split; [apply Z.div_str_pos; unfold Second in *; lia|].
    apply Z.div_lt_upper_bound; unfold Second in *; lia. }
  apply wp_bind, wp_try, wp_bind. pose proof Hj1 as (Hid1 & Hq1 & _).
  pose proof (wp_Enqueue job1 u period m) as Hw. rewrite Hs in Hw. cbn [fst snd] in Hw.
  apply Hw; [done|done|unfold safe_int; lia| | |]; clear Hw.
  - intros _ _ [v Hv]. by rewrite Hfree in Hv.
  - intros _ Hn. destruct Hn. eapply can_incr_frame; [|exact Hc].
    apply stats_of_enqueued; [done|right; eauto].
  - intros _ Hcan. apply wp_ret. cbv beta iota. apply wp_bind, wp_try, wp_bind.
    set (m1 := hincr _ _ _). assert (Hm1 : wf_store m1).
    { apply wf_hincr_stats; [|done|done]. apply wf_enqueued; [done|done|right; eauto]. }
    assert (Hown : str_at m1 (uniqueKey u) = Some id1).
    { unfold m1, enqueued_ks, place_ks, claim_ks.
      rewrite (decide_True (P := uniqueKey u ≠ "" ∧ _)) by (split; [done|lia]).
      case_decide; by ks_simp. }
    assert (Hheld : is_Some (m1 !! uniqueKey u)).
    { unfold str_at in Hown. destruct (m1 !! uniqueKey u); [eauto|done]. }
    pose proof (wp_Enqueue job2 u period m1) as Hw. rewrite Hs in Hw. cbn [fst snd] in Hw.
    apply Hw; [done|done|unfold safe_int; lia| | |]; clear Hw.
    + intros _ _ _. apply wp_ret. cbv beta iota. eexists. split_and!; [done|done|exact Hown].
    + intros Hno. rewrite (Hno ltac:(done) ltac:(lia)) in Hheld. by destruct Hheld.
    + intros Hno. rewrite (Hno ltac:(done) ltac:(lia)) in Hheld. by destruct Hheld.
Qed.
End Specs.
