(* ===== verification/Workflow.v ===== *)
(** * Workflow: chains, groups and chords

    [internal/workflow/] (the manager and its three shapes) and the entry points
    of [workflow.go].  [encoding/json] is the class [Json] of [Json.v];
    uuids and clock
    readings are arguments, in the order the code draws them. *)
From S2P Require Import Prelude Float Keys Redis Lua Keyspace Job Scripts Queue Winter Client Json.

Open Scope string_scope.
Open Scope Z_scope.

(** ** Data *)

Definition TypeChain : string := "chain".
Definition TypeGroup : string := "group".
Definition TypeChord : string := "chord".

Record TaskSpec : Type := {
  sKind : string;
  sPayload : string;
  sQueue : string;
  sPriority : Z;
  sMaxRetries : Z
}.

(** [workflow.Record] *)
Record WfRecord : Type := {
  wID : string;
  wType : string;
  wState : string;
  wTasks : list TaskSpec;
  wCallback : option TaskSpec;
  wCurrent : Z;
  wTotal : Z;
  wDone : Z;
  wQueue : string
}.

#[export] Instance TaskSpec_eq_dec : EqDecision TaskSpec.
Proof. solve_decision. Defined.
#[export] Instance WfRecord_eq_dec : EqDecision WfRecord.
Proof. solve_decision. Defined.

Definition set_state (st : string) (rec : WfRecord) : WfRecord := {|
  wID := wID rec; wType := wType rec; wState := st; wTasks := wTasks rec; wCallback := wCallback rec;
  wCurrent := wCurrent rec; wTotal := wTotal rec; wDone := wDone rec; wQueue := wQueue rec |}.
Definition set_current (n : Z) (rec : WfRecord) : WfRecord := {|
  wID := wID rec; wType := wType rec; wState := wState rec; wTasks := wTasks rec;
  wCallback := wCallback rec; wCurrent := n; wTotal := wTotal rec; wDone := wDone rec;
  wQueue := wQueue rec |}.
Definition set_done (n : Z) (rec : WfRecord) : WfRecord := {|
  wID := wID rec; wType := wType rec; wState := wState rec; wTasks := wTasks rec;
  wCallback := wCallback rec; wCurrent := wCurrent rec; wTotal := wTotal rec; wDone := n;
  wQueue := wQueue rec |}.

(** [if tasks[i].Queue == "" { tasks[i].Queue = queueName }] *)
Definition default_queue (queueName : string) (spec : TaskSpec) : TaskSpec :=
  if decide (sQueue spec = "") then {|
    sKind := sKind spec; sPayload := sPayload spec; sQueue := queueName;
    sPriority := sPriority spec; sMaxRetries := sMaxRetries spec |}
  else spec.

(** The job a task spec becomes. *)
Definition spec_job (now : Z) (id workflowID : string) (spec : TaskSpec) : JobRecord := {|
  ID := id; Kind := sKind spec;
  Job.Queue := if decide (sQueue spec = "") then "default" else sQueue spec;
  Job.Priority := sPriority spec;
  State := "pending"; Payload := sPayload spec; Attempt := 0;
  MaxRetries := if decide (sMaxRetries spec = 0) then 3 else sMaxRetries spec;
  CreatedAt := UnixMilli now; ScheduledAt := 0; StartedAt := 0; CompletedAt := 0;
  LastError := ""; UniqueKey := ""; WorkflowID := workflowID |}.

Definition week : Z := 7 * 24 * 3600 * Second.

(** ** The manager *)

Section Manager.
Context {S : Type} `{Redis S} `{Json WfRecord}.

(** [return fmt.Errorf("context: %w", err)] of an error of this package. *)
Definition wrap_err {A} (context : string) (c : M S error A) : M S error A :=
  r ← try c;
  match r with
  | Ok a => mret a
  | Err e => throw (Errorf context (error_text e))
  end.

Definition saveRecord (rec : WfRecord) : M S error unit :=
  plain (Run (redis_call (SET (workflowKey (wID rec)) (marshal rec) false (expiration week)))) ;;
  mret tt.

Definition loadRecord (workflowID : string) : M S error (option WfRecord) :=
  raw ← wrap "winter: load workflow" (Run (redis_call (GET (workflowKey workflowID))));
  match raw with
  | RBulk raw =>
      match unmarshal raw with
      | Ok rec => mret (Some rec)
      | Err e => throw (Errorf "winter: unmarshal workflow" e)
      end
  | _ => mret None
  end.

Definition enqueueTask (now : Z) (id : string) (spec : TaskSpec) (workflowID : string)
    : M S error string :=
  Queue.Enqueue (spec_job now id workflowID spec) "" 0 ;;
  mret id.

(** *** Chain *)

Definition chain_record (id : string) (tasks : list TaskSpec) (queueName : string) : WfRecord := {|
  wID := id; wType := TypeChain; wState := "running"; wTasks := tasks; wCallback := None;
  wCurrent := 0; wTotal := Z.of_nat (length tasks); wDone := 0; wQueue := queueName |}.

Definition CreateChain (now : Z) (id jobID : string) (tasks : list TaskSpec) (queueName : string)
    : M S error string :=
  let tasks := default_queue queueName <$> tasks in
  match tasks with
  | [] => throw (ErrText "winter: chain requires at least one task")
  | first :: _ =>
      saveRecord (chain_record id tasks queueName) ;;
      wrap_err "winter: chain enqueue first task" (enqueueTask now jobID first id) ;;
      mret id
  end.

Definition advanceChainScript (counterKey : string) : M S string reply :=
  redis_call (INCR counterKey).

(** [.Int64()] of a script's reply. *)
Definition int64_reply (r : reply) : M S error Z :=
  match r with RInt n => mret n | _ => throw (ErrText "redis: unexpected type") end.

(** [rec.Tasks[rec.Current]] beyond the list panics; a stored record never is. *)
Definition advanceChain (now : Z) (newID : string) (rec : WfRecord) : M S error unit :=
  r ← wrap "winter: chain advance" (Run (advanceChainScript (counterKey (wID rec))));
  current ← int64_reply r;
  let rec := set_current current rec in
  if decide (wCurrent rec >= wTotal rec) then
    saveRecord (set_state "completed" rec)
  else
    saveRecord rec ;;
    match wTasks rec !! Z.to_nat (wCurrent rec) with
    | Some spec =>
        wrap_err ("winter: chain enqueue step " +:+ dec (wCurrent rec))
          (enqueueTask now newID spec (wID rec)) ;;
        mret tt
    | None => throw (ErrText "runtime error: index out of range")
    end.

(** *** Group *)

Definition group_record (id : string) (tasks : list TaskSpec) (queueName : string) : WfRecord := {|
  wID := id; wType := TypeGroup; wState := "running"; wTasks := tasks; wCallback := None;
  wCurrent := 0; wTotal := Z.of_nat (length tasks); wDone := 0; wQueue := queueName |}.

Definition CreateGroup (clk : nat → Z) (id : string) (jobIDs : nat → string) (tasks : list TaskSpec)
    (queueName : string) : M S error string :=
  let tasks := default_queue queueName <$> tasks in
  if decide (tasks = []) then throw (ErrText "winter: group requires at least one task")
  else
    saveRecord (group_record id tasks queueName) ;;
    for_each_i 0 tasks (λ i spec,
      wrap_err ("winter: group enqueue task " +:+ dec (Z.of_nat i))
        (enqueueTask (clk i) (jobIDs i) spec id) ;; mret tt) ;;
    mret id.

Definition advanceGroupScript (counterKey : string) : M S string reply :=
  redis_call (INCR counterKey).

Definition advanceGroup (rec : WfRecord) : M S error unit :=
  r ← wrap "winter: group advance" (Run (advanceGroupScript (counterKey (wID rec))));
  done ← int64_reply r;
  let rec := set_done done rec in
  saveRecord (if decide (wDone rec >= wTotal rec) then set_state "completed" rec else rec).

(** *** Chord *)

Definition chord_record (id : string) (headers : list TaskSpec) (callback : TaskSpec)
    (queueName : string) : WfRecord := {|
  wID := id; wType := TypeChord; wState := "running"; wTasks := headers;
  wCallback := Some callback; wCurrent := 0; wTotal := Z.of_nat (length headers); wDone := 0;
  wQueue := queueName |}.

(** One round of the header loop: enqueue, then register the dependency. *)
Definition add_header (clk : nat → Z) (id : string) (jobIDs : nat → string) (i : nat)
    (spec : TaskSpec) : M S error unit :=
  jobID ← wrap_err ("winter: chord enqueue header " +:+ dec (Z.of_nat i))
    (enqueueTask (clk i) (jobIDs i) spec id);
  wrap "winter: chord add dep" (Run (redis_call (SADD (depsKey id) jobID))) ;;
  mret tt.

Definition CreateChord (clk : nat → Z) (id : string) (jobIDs : nat → string)
    (headers : list TaskSpec) (callback : TaskSpec) (queueName : string) : M S error string :=
  let headers := default_queue queueName <$> headers in
  let callback := default_queue queueName callback in
  if decide (headers = []) then throw (ErrText "winter: chord requires at least one header task")
  else
    saveRecord (chord_record id headers callback queueName) ;;
    for_each_i 0 headers (add_header clk id jobIDs) ;;
    mret id.

Definition advanceChordScript (depsKey jobID : string) : M S string reply :=
  redis_call (SREM depsKey jobID) ;;
  redis_call (SCARD depsKey).

Definition advanceChord (now : Z) (newID : string) (rec : WfRecord) (jobID : string) : M S error unit :=
  r ← wrap "winter: chord advance" (Run (advanceChordScript (depsKey (wID rec)) jobID));
  match r with
  | RInt remaining =>
      let rec := set_done (wTotal rec - remaining) rec in
      if decide (remaining = 0) then
        saveRecord (set_state "completed" rec) ;;
        match wCallback rec with
        | Some callback =>
            wrap_err "winter: chord enqueue callback" (enqueueTask now newID callback (wID rec)) ;;
            mret tt
        | None => mret tt
        end
      else saveRecord rec
  | _ => throw (ErrText "winter: chord advance: unexpected result type")
  end.

(** *** Events *)

Definition OnJobCompleted (now : Z) (newID workflowID jobID : string) : M S error unit :=
  rec ← loadRecord workflowID;
  match rec with
  | None => mret tt
  | Some rec =>
      if decide (wState rec = "completed" ∨ wState rec = "failed") then mret tt
      else if decide (wType rec = TypeChain) then advanceChain now newID rec
      else if decide (wType rec = TypeGroup) then advanceGroup rec
      else if decide (wType rec = TypeChord) then advanceChord now newID rec jobID
      else throw (ErrText ("winter: unknown workflow type " +:+ quote (wType rec)))
  end.

Definition OnJobFailed (workflowID jobID : string) : M S error unit :=
  rec ← loadRecord workflowID;
  match rec with
  | None => mret tt
  | Some rec => saveRecord (set_state "failed" rec)
  end.

(** ** The entry points of the package *)

(** [tasksToSpecs]: the specs, or the first marshalling error. *)
Fixpoint tasksToSpecs (i : nat) (tasks : list Task) (o : insertOpts) : result error (list TaskSpec) :=
  match tasks with
  | [] => Ok []
  | t :: tasks' =>
      match tPayload t with
      | Err e => Err (Errorf ("winter: marshal task[" +:+ dec (Z.of_nat i) +:+ "]") e)
      | Ok payload =>
          match tasksToSpecs (Datatypes.S i) tasks' o with
          | Err e => Err e
          | Ok specs => Ok ({|
              sKind := tKind t; sPayload := payload; sQueue := task_queue t (queue o);
              sPriority := priority o; sMaxRetries := task_retries t |} :: specs)
          end
      end
  end.

Definition Chain (now : Z) (id jobID : string) (tasks : list Task) (opts : list Option)
    : M S error string :=
  if decide (length tasks = 0%nat) then throw (ErrText "winter: chain requires at least one task")
  else
    let o := apply_opts opts defaultOpts in
    match tasksToSpecs 0 tasks o with
    | Err e => throw e
    | Ok specs => CreateChain now id jobID specs (queue o)
    end.

Definition Group (clk : nat → Z) (id : string) (jobIDs : nat → string) (tasks : list Task)
    (opts : list Option) : M S error string :=
  if decide (length tasks = 0%nat) then throw (ErrText "winter: group requires at least one task")
  else
    let o := apply_opts opts defaultOpts in
    match tasksToSpecs 0 tasks o with
    | Err e => throw e
    | Ok specs => CreateGroup clk id jobIDs specs (queue o)
    end.

(** The callback's spec: no priority is set, and no retries unless the task has
    some of its own. *)
Definition callback_spec (callback : Task) (payload : string) (o : insertOpts) : TaskSpec := {|
  sKind := tKind callback; sPayload := payload; sQueue := task_queue callback (queue o);
  sPriority := 0;
  sMaxRetries := match tOptions callback with
                 | Some t => if decide (tMaxRetries t > 0) then tMaxRetries t else 0
                 | None => 0
                 end |}.

Definition Chord (clk : nat → Z) (id : string) (jobIDs : nat → string) (headers : list Task)
    (callback : Task) (opts : list Option) : M S error string :=
  if decide (length headers = 0%nat)
  then throw (ErrText "winter: chord requires at least one header task")
  else
    let o := apply_opts opts defaultOpts in
    match tasksToSpecs 0 headers o with
    | Err e => throw e
    | Ok headerSpecs =>
        match tPayload callback with
        | Err e => throw (Errorf "winter: marshal callback" e)
        | Ok cbPayload => CreateChord clk id jobIDs headerSpecs (callback_spec callback cbPayload o) (queue o)
        end
    end.
End Manager.
