(* ===== verification/WorkflowSpecs.v ===== *)
(** * WorkflowSpecs: what completing or failing a job does to its workflow *)
From S2P Require Import Prelude Float Keys Redis Lua Keyspace Job Scripts Queue ScriptSpecs QueueSpecs EnqueueSpecs Winter Client Json Workflow.

Open Scope string_scope.
Open Scope Z_scope.

(** The contents after saving a record; the workflow a key holds. *)
Definition save_ks `{Json WfRecord} (rec : WfRecord) (m : keyspace) : keyspace :=
  put (workflowKey (wID rec)) (RStr (marshal rec)) m.

Definition saved `{Json WfRecord} (m : keyspace) (rec : WfRecord) : Prop :=
  str_at m (workflowKey (wID rec)) = Some (marshal rec).

(** The number of completions counted so far. *)
Definition completions (m : keyspace) (id : string) : option Z :=
  counter_of (str_at m (counterKey id)).

(** Texts that survive JSON, for every progress of a record. *)
Definition texts_ok `{Json WfRecord} (rec : WfRecord) : Prop :=
  ∀ st c d, st ∈ ["running"; "completed"; "failed"] →
    valid_text (set_done d (set_current c (set_state st rec))).

Section Rules.
Context {S : Type} `{RedisLaws S} `{!Reliable S} `{JsonLaws WfRecord}.

Lemma wp_wrap_err {A} context (c : M S error A) (Q : keyspace → result error A → Prop) m :
  wp c (λ m' r, Q m' (match r with Ok a => Ok a | Err e => Err (Errorf context (error_text e)) end)) m →
  wp (wrap_err context c) Q m.
Proof.
  intros Hc. unfold wrap_err. apply wp_bind, wp_try. eapply wp_mono; [exact Hc|].
  cbv beta. intros m' [a|e] HQ; [by apply wp_ret|by apply wp_throw].
Qed.

Lemma wp_saveRecord rec m Q : Q (save_ks rec m) (Ok tt) → wp (S := S) (saveRecord rec) Q m.
Proof.
  intros HQ. unfold saveRecord. apply wp_bind, wp_plain, wp_Run, wp_SET.
  - unfold expiration. intros t. case_decide; [|done]. intros [= <-]. lia.
  - by apply wp_ret.
Qed.

Lemma wp_loadRecord rec m Q : wf_store m → wf_wfid (wID rec) → saved m rec → valid_text rec →
  Q m (Ok (Some rec)) → wp (S := S) (loadRecord (wID rec)) Q m.
Proof.
  intros Hm Hid Hs Hv HQ. unfold loadRecord. apply wp_bind, wp_wrap, wp_Run, wp_GET.
  - by apply (wf_has_type m (KWorkflow (wID rec))).
  - rewrite Hs. cbv beta iota. rewrite unmarshal_marshal by done. by apply wp_ret.
Qed.

Lemma wp_enqueueTask now id spec wfid m Q : wf_store m → wf_record (spec_job now id wfid spec) →
  can_incr m (statsKey (Job.Queue (spec_job now id wfid spec))) "enqueued" →
  Q (enqueue_plain_ks m (spec_job now id wfid spec)) (Ok id) →
  wp (S := S) (enqueueTask now id spec wfid) Q m.
Proof.
  intros. unfold enqueueTask. apply wp_bind, wp_Enqueue_plain; [done..|]. by apply wp_ret.
Qed.

Lemma wf_save rec m : wf_store m → wf_wfid (wID rec) → wf_store (save_ks rec m).
Proof. intros Hm Hid. by apply (wf_store_put m (KWorkflow (wID rec))). Qed.

Lemma save_can_incr rec m q f : wf_wfid (wID rec) → wf_queue q → can_incr m (statsKey q) f →
  can_incr (save_ks rec m) (statsKey q) f.
Proof.
  intros Hid Hq. apply can_incr_frame. unfold save_ks. by ks_simp.
Qed.

(** The counter script both chains and groups use. *)
Lemma wp_count id n m Q : wf_store m → completions m id = Some n → in_int64 (n + 1) →
  Q (put (counterKey id) (RStr (dec (n + 1))) m) (Ok (RInt (n + 1))) →
  wp (S := S) (redis_call (INCR (counterKey id))) Q m.
Proof.
  intros Hm Hn Hr HQ. apply wp_INCR with (n := n); [|exact Hn|done|done].
  by apply (wf_has_type m (KCounter id)).
Qed.

Lemma wf_count id n m : wf_store m → in_int64 n → wf_store (put (counterKey id) (RStr (dec n)) m).
Proof. intros. apply (wf_store_put m (KCounter id)); [done|done|]. by apply numeral64_dec_z. Qed.

Lemma completions_put id n m : in_int64 n →
  completions (put (counterKey id) (RStr (dec n)) m) id = Some n.
Proof. intros. unfold completions. rewrite str_at_put_eq. cbn. by rewrite string2ll_dec. Qed.
End Rules.

(** ** Events *)

(** [rec] as its progress is written: [c] steps, [d] done, in state [st]. *)
Definition at_progress (c d : Z) (st : string) (rec : WfRecord) : WfRecord :=
  set_done d (set_current c (set_state st rec)).

Ltac sub_keys := intros ?; rewrite ?elem_of_cons, ?elem_of_nil; cbn; tauto.

Lemma untouched_save `{Json WfRecord} keys rec m : workflowKey (wID rec) ∈ keys →
  untouched keys m (save_ks rec m).
Proof. apply untouched_put. Qed.

Section Events.
Context {S : Type} `{RedisLaws S} `{!Reliable S} `{JsonLaws WfRecord}.

(** The workflow [rec] has counted [n] completions and is saved as [stored]. *)
Record running (m : keyspace) (rec stored : WfRecord) : Prop := {
  running_wf : wf_store m;
  running_id : wf_wfid (wID rec);
  running_texts : texts_ok rec;
  running_same : ∃ c d, stored = at_progress c d "running" rec;
  running_saved : saved m stored
}.

Lemma texts_at rec c d st : texts_ok rec → st ∈ ["running"; "completed"; "failed"] →
  valid_text (at_progress c d st rec).
Proof. intros Ht Hst. by apply Ht. Qed.

(** Loading a running workflow dispatches on its type. *)
Lemma wp_OnJobCompleted rec stored now newID jobID m Q : running m rec stored →
  wType rec ∈ [TypeChain; TypeGroup; TypeChord] →
  wp (S := S) (if decide (wType rec = TypeChain) then advanceChain now newID stored
      else if decide (wType rec = TypeGroup) then advanceGroup stored
      else advanceChord now newID stored jobID) Q m →
  wp (OnJobCompleted now newID (wID rec) jobID) Q m.
Proof.
  intros [Hm Hid Ht (c & d & ->) Hs] Hty HQ. unfold OnJobCompleted.
  apply wp_bind. change (wID rec) with (wID (at_progress c d "running" rec)).
  apply wp_loadRecord; [done|done|done|by apply texts_at; [done|left]|]. cbv beta iota.
  rewrite (decide_False (P := wState _ = "completed" ∨ _)) by (by intros [?|?]).
  change (wType (at_progress c d "running" rec)) with (wType rec).
  rewrite !elem_of_cons in Hty.
  destruct Hty as [E|[E|[E|[]%elem_of_nil]]]; rewrite E in *; exact HQ.
Qed.

(** Saving a record and enqueueing a job of the workflow, as chains and chords
    do: what can be seen afterwards. *)
Lemma saved_and_enqueued stored m job : wf_store m → wf_wfid (wID stored) → wf_record job →
  ScheduledAt job = 0 → can_incr m (statsKey (Job.Queue job)) "enqueued" →
  let m' := enqueue_plain_ks (save_ks stored m) job in
  wf_store m' ∧ saved m' stored ∧ completions m' (wID stored) = completions m (wID stored) ∧
  set_at m' (depsKey (wID stored)) = set_at m (depsKey (wID stored)) ∧ spec_enqueued m' job ∧
  untouched [workflowKey (wID stored); jobKey (ID job); readyKey (Job.Queue job);
             delayedKey (Job.Queue job); statsKey (Job.Queue job)] m m'.
Proof.
  intros Hm Hid Hj Hs Hc m'. pose proof Hj as (_ & Hq & _).
  assert (Hk : ∀ k, wf_key k → match k with KWorkflow _ | KCounter _ | KDeps _ => True | _ => False end →
    m' !! render k = save_ks stored m !! render k).
  { intros k Hk Hp. apply enqueue_plain_other; [done|done|]. rewrite !not_elem_of_cons.
    split_and!; [by intros ->..|apply not_elem_of_nil]. }
  assert (Hc' : can_incr (save_ks stored m) (statsKey (Job.Queue job)) "enqueued")
    by by apply save_can_incr.
  split_and!.
  - apply wf_plain; [done|by apply wf_save|done].
  - unfold saved. rewrite (str_at_ext m' (save_ks stored m) (workflowKey (wID stored)) (Hk (KWorkflow (wID stored)) Hid I)). apply str_at_put_eq.
  - unfold completions. rewrite (str_at_ext m' (save_ks stored m) (counterKey (wID stored)) (Hk (KCounter (wID stored)) I I)). unfold save_ks. by ks_simp.
  - rewrite (set_at_ext m' (save_ks stored m) (depsKey (wID stored)) (Hk (KDeps (wID stored)) I I)). unfold save_ks. by ks_simp.
  - by apply enqueue_plain_spec.
  - eapply untouched_trans; [apply untouched_save; by left|].
    apply untouched_enqueue; [done|rewrite !elem_of_cons; tauto..].
Qed.

(** Counting a completion. *)
Lemma wp_counted {A} context stored k (f : Z → M S error A) m Q :
  wf_store m → completions m (wID stored) = Some k → in_int64 (k + 1) →
  wp (f (k + 1)) Q (put (counterKey (wID stored)) (RStr (dec (k + 1))) m) →
  wp (r ← wrap context (Run (redis_call (INCR (counterKey (wID stored))))); n ← int64_reply r; f n) Q m.
Proof.
  intros Hm Hk Hr HQ. apply wp_bind, wp_wrap, wp_Run, (wp_count _ k); [done..|]. cbv beta iota.
  by apply wp_bind, wp_ret.
Qed.

(** A completed step of a chain, in terms of the contents. *)
Definition chain_ks (rec stored : WfRecord) (k : Z) (m : keyspace) : keyspace :=
  save_ks (set_current (k + 1) stored) (put (counterKey (wID rec)) (RStr (dec (k + 1))) m).

Lemma wp_chain_step now newID jobID rec stored k m Q :
  running m rec stored → wType rec = TypeChain → completions m (wID rec) = Some k → 0 ≤ k < int64_max →
  wTotal rec = Z.of_nat (length (wTasks rec)) →
  (∀ spec, wTasks rec !! Z.to_nat (k + 1) = Some spec →
     let job := spec_job now newID (wID rec) spec in
     wf_record job ∧ can_incr m (statsKey (Job.Queue job)) "enqueued" ∧
     Q (enqueue_plain_ks (chain_ks rec stored k m) job) (Ok tt)) →
  (wTasks rec !! Z.to_nat (k + 1) = None →
     Q (save_ks (set_state "completed" (set_current (k + 1) stored))
          (put (counterKey (wID rec)) (RStr (dec (k + 1))) m)) (Ok tt)) →
  wp (S := S) (OnJobCompleted now newID (wID rec) jobID) Q m.
Proof.
  intros Hrun Hty Hk Hr Htot Hnext Hlast. apply (wp_OnJobCompleted rec stored); [done|rewrite Hty; by left|].
  rewrite decide_True by done. destruct Hrun as [Hm Hid Ht (c & d & ->) Hs].
  assert (Hr' : in_int64 (k + 1)) by (unfold in_int64, int64_min, int64_max in *; lia).
  apply (wp_counted _ (at_progress c d "running" rec) k); [done..|]. cbv zeta.
  change (wCurrent (set_current (k + 1) _)) with (k + 1).
  change (wTotal (set_current (k + 1) _)) with (wTotal rec). rewrite Htot.
  change (wTasks (set_current (k + 1) _)) with (wTasks rec).
  change (wID (set_current (k + 1) _)) with (wID rec).
  change (wID (at_progress c d "running" rec)) with (wID rec).
  pose proof (wf_count (wID rec) (k + 1) m Hm Hr') as Hm1.
  destruct (wTasks rec !! Z.to_nat (k + 1)) as [spec|] eqn:Hlook.
  - apply lookup_lt_Some in Hlook. rewrite decide_False by lia.
    destruct (Hnext spec eq_refl) as (Hj & Hc & HQ). pose proof Hj as (_ & Hjq & _).
    apply wp_bind, wp_saveRecord. cbv beta iota.
    apply wp_bind, wp_wrap_err, wp_enqueueTask; [by apply wf_save|done| |].
    { apply save_can_incr; [done..|]. eapply can_incr_frame; [|exact Hc]. by ks_simp. }
    cbv beta iota. by apply wp_ret.
  - apply lookup_ge_None in Hlook. rewrite decide_True by lia. by apply wp_saveRecord, Hlast.
Qed.

(** What can be seen of the next step. *)
Lemma chain_ks_spec rec stored k m job : running m rec stored → completions m (wID rec) = Some k →
  in_int64 (k + 1) → wf_record job → ScheduledAt job = 0 → can_incr m (statsKey (Job.Queue job)) "enqueued" →
  let m' := enqueue_plain_ks (chain_ks rec stored k m) job in
  running m' rec (set_current (k + 1) stored) ∧ completions m' (wID rec) = Some (k + 1) ∧
  spec_enqueued m' job ∧
  untouched [workflowKey (wID rec); counterKey (wID rec); jobKey (ID job);
    readyKey (Job.Queue job); delayedKey (Job.Queue job); statsKey (Job.Queue job)] m m'.
Proof.
  intros [Hm Hid Ht (c & d & ->) Hs] Hk Hr Hj Hsch Hc m'. pose proof Hj as (_ & Hjq & _).
  pose proof (wf_count (wID rec) (k + 1) m Hm Hr) as Hm1.
  pose proof (completions_put (wID rec) (k + 1) m Hr) as Hk1.
  assert (Hu1 : untouched [counterKey (wID rec)] m (put (counterKey (wID rec)) (RStr (dec (k + 1))) m))
    by (apply untouched_put; by left).
  assert (Hc1 : can_incr (put (counterKey (wID rec)) (RStr (dec (k + 1))) m) (statsKey (Job.Queue job)) "enqueued")
    by (eapply can_incr_frame; [|exact Hc]; by ks_simp).
  destruct (saved_and_enqueued (set_current (k + 1) (at_progress c d "running" rec)) _ _ Hm1 Hid Hj
    Hsch Hc1) as (Hw & Hsv & Hcnt & _ & Hsp & Hun).
  split_and!; [|by rewrite <- Hk1|done|].
  - by split; [..|exists (k + 1), d|].
  - eapply untouched_trans; (eapply untouched_mono; [|eassumption]); sub_keys.
Qed.

(** A completed step of a chain enqueues exactly the next task, in the name of
    the workflow, or completes the workflow after the last one; nothing else
    changes. *)
Theorem chain_advances now newID jobID rec stored k (m : keyspace) :
  running m rec stored → wType rec = TypeChain →
  completions m (wID rec) = Some k → 0 ≤ k < int64_max →
  (∀ spec, wTasks rec !! Z.to_nat (k + 1) = Some spec →
     wf_record (spec_job now newID (wID rec) spec) ∧
     can_incr m (statsKey (Job.Queue (spec_job now newID (wID rec) spec))) "enqueued") →
  wTotal rec = Z.of_nat (length (wTasks rec)) →
  wp (S := S) (OnJobCompleted now newID (wID rec) jobID) (λ m' r,
    r = Ok tt ∧
    match wTasks rec !! Z.to_nat (k + 1) with
    | Some spec =>
        let job := spec_job now newID (wID rec) spec in
        running m' rec (set_current (k + 1) stored) ∧ completions m' (wID rec) = Some (k + 1) ∧
        spec_enqueued m' job ∧
        untouched [workflowKey (wID rec); counterKey (wID rec); jobKey newID;
          readyKey (Job.Queue job); delayedKey (Job.Queue job); statsKey (Job.Queue job)] m m'
    | None =>
        saved m' (set_state "completed" (set_current (k + 1) stored)) ∧
        untouched [workflowKey (wID rec); counterKey (wID rec)] m m'
    end) m.
Proof.
  intros Hrun Hty Hk Hr Hspec Htot.
  assert (Hr' : in_int64 (k + 1)) by (unfold in_int64, int64_min, int64_max in *; lia).
  apply (wp_chain_step _ _ _ rec stored k); [done..| |].
  - intros spec Hlook. destruct (Hspec spec Hlook) as [Hj Hc]. rewrite Hlook. split; [done|]. split; [done|].
    split; [done|]. by apply chain_ks_spec.
  - intros ->. split_and!; [done|apply str_at_put_eq|].
    eapply untouched_trans; [apply (untouched_put [workflowKey (wID rec); counterKey (wID rec)]); by right; left|].
    destruct Hrun as [_ _ _ (c & d & ->) _]. apply untouched_save. by left.
Qed.

(** *** A whole chain *)

(** The time, the id for the next job and the id of the completed one. *)
Definition completion : Type := Z * string * string.

(** The jobs that the completions from step [k] on enqueue. *)
Definition chain_jobs (rec : WfRecord) (k : nat) (events : list completion) : list JobRecord :=
  zip_with (λ e spec, spec_job e.1.1 e.1.2 (wID rec) spec) events (drop (Datatypes.S k) (wTasks rec)).

Definition is_ready (m : keyspace) (job : JobRecord) : Prop :=
  zset_at m (readyKey (Job.Queue job)) !! ID job = Some (Job.Priority job).

Lemma is_ready_save rec m job : wf_wfid (wID rec) → wf_record job → is_ready m job → is_ready (save_ks rec m) job.
Proof. intros Hid (_ & Hq & _). unfold is_ready, save_ks. by ks_simp. Qed.

Lemma is_ready_count id n m job : wf_record job → is_ready m job →
  is_ready (put (counterKey id) (RStr (dec n)) m) job.
Proof. intros (_ & Hq & _). unfold is_ready. by ks_simp. Qed.

Lemma is_ready_enqueue m job job' : wf_record job → wf_record job' → ID job ≠ ID job' →
  is_ready m job → is_ready (enqueue_plain_ks m job') job.
Proof.
  intros (_ & Hq & _) (Hid' & Hq' & _) Hne. unfold is_ready, enqueue_plain_ks, enqueued_ks, place_ks, claim_ks.
  destruct (decide (Job.Queue job = Job.Queue job')) as [->|Hqq]; case_decide; ks_simp; try done.
  by rewrite lookup_insert_ne.
Qed.

Lemma is_ready_self m job : wf_record job → ScheduledAt job = 0 → is_ready (enqueue_plain_ks m job) job.
Proof.
  intros (Hid & Hq & _) Hs. unfold is_ready, enqueue_plain_ks, enqueued_ks, place_ks, claim_ks.
  rewrite decide_False by lia. ks_simp. apply lookup_insert_eq.
Qed.

(** The next step of a chain keeps what the chain has enqueued, and the room. *)
Lemma chain_keeps rec stored k m job others : running m rec stored → wf_record job → ScheduledAt job = 0 →
  Forall wf_record others → ID job ∉ ID <$> others → Forall (is_ready m) others →
  Forall (is_ready (enqueue_plain_ks (chain_ks rec stored k m) job)) (others ++ [job])%list.
Proof.
  intros [_ Hid _ (c & d & ->) _] Hj Hs Hwf Hnin Hr. apply Forall_app. split; [|by repeat constructor; apply is_ready_self].
  rewrite Forall_forall in Hwf, Hr |- *. intros other Ho. specialize (Hwf other Ho). specialize (Hr other Ho).
  apply is_ready_enqueue; [done|done| |].
  - intros E. apply Hnin. rewrite <- E. by apply list_elem_of_fmap_2.
  - apply is_ready_save; [done..|]. by apply is_ready_count.
Qed.

Lemma room_chain rec stored k n jobs m : wf_wfid (wID rec) → wID stored = wID rec → Forall wf_record jobs →
  room n jobs m → room n jobs (chain_ks rec stored k m).
Proof.
  intros Hid E Hjs Hr job Hj. destruct (Hr job Hj) as (c & Hc & Hn). exists c. split; [|done].
  rewrite Forall_forall in Hjs. destruct (Hjs job Hj) as (_ & Hq & _).
  unfold counter, chain_ks, save_ks in *. change (wID (set_current (k + 1) stored)) with (wID stored). rewrite E.
  by ks_simp.
Qed.

(** C35: a chain runs to its end.  From step [k] of a chain on, one completion per
    remaining task makes the workflow completed; on the way every remaining task
    has been enqueued as a ready job in the name of the workflow, each by the
    completion of its predecessor. *)
Theorem chain_completes rec stored (k : nat) events others (m : keyspace) :
  let jobs := chain_jobs rec k events in
  running m rec stored → wType rec = TypeChain → completions m (wID rec) = Some (Z.of_nat k) →
  wTotal rec = Z.of_nat (length (wTasks rec)) → wTotal rec ≤ int64_max →
  (k + length events)%nat = length (wTasks rec) → (k < length (wTasks rec))%nat →
  Forall wf_record (others ++ jobs)%list → NoDup (ID <$> (others ++ jobs)%list) → room (length jobs) jobs m →
  Forall (is_ready m) others →
  wp (S := S) (for_each events (λ e, OnJobCompleted e.1.1 e.1.2 (wID rec) e.2)) (λ m' r,
    r = Ok tt ∧ saved m' (set_state "completed" (set_current (wTotal rec) stored)) ∧
    Forall (is_ready m') (others ++ jobs)%list) m.
Proof.
  revert stored k others m. induction events as [|[[now newID] jobID] events IH];
    intros stored k others m jobs Hrun Hty Hk Htot Hmax Hlen Hlt Hwf Hnd Hroom Hr; [cbn in Hlen; lia|].
  cbn [for_each length fst snd] in *. assert (Hidw : wf_wfid (wID rec)) by apply Hrun.
  apply wp_bind, (wp_chain_step _ _ _ rec stored (Z.of_nat k)); [done..|lia|done| |].
  - replace (Z.to_nat (Z.of_nat k + 1)) with (Datatypes.S k) by lia. intros spec Hspec job.
    assert (Hjobs : jobs = job :: chain_jobs rec (Datatypes.S k) events)
      by (unfold jobs, chain_jobs; by rewrite (drop_S _ spec) by done).
    rewrite Hjobs in Hwf, Hnd, Hroom |- *. clearbody jobs. clear Hjobs.
    rewrite cons_middle, app_assoc in Hwf, Hnd |- *.
    pose proof Hwf as [[Hwfo Hj%Forall_inv]%Forall_app Hwfr]%Forall_app.
    assert (Hc : can_incr m (statsKey (Job.Queue job)) "enqueued") by (eapply room_can_incr; [exact Hroom|by left]).
    split; [exact Hj|]. split; [exact Hc|]. cbv iota.
    destruct (chain_ks_spec rec stored (Z.of_nat k) m job) as (Hrun' & Hk' & _ & _);
      [done|done|unfold in_int64, int64_min, int64_max in *; lia|exact Hj|done|exact Hc|].
    replace (Z.of_nat k + 1) with (Z.of_nat (Datatypes.S k)) in Hk' by lia.
    eapply wp_mono; [apply (IH (set_current (Z.of_nat k + 1) stored) (Datatypes.S k) (others ++ [job])%list)|];
      [exact Hrun'|done|exact Hk'|done|done|lia|by apply lookup_lt_Some in Hspec|exact Hwf|exact Hnd| | |by intros m' r].
    + apply (room_step job Hj); [done|]. apply room_chain; [done| |by constructor|done].
      destruct Hrun as [_ _ _ (c & d & ->) _]. done.
    + rewrite !fmap_app, <- app_assoc in Hnd. apply NoDup_app in Hnd as (_ & Hnd & _).
      apply (chain_keeps rec stored _ m job); [done..| |done].
      intros Hin. by apply (Hnd _ Hin); left.
  - replace (Z.to_nat (Z.of_nat k + 1)) with (Datatypes.S k) by lia. intros Hnone%lookup_ge_None.
    assert (events = []) as -> by (apply length_zero_iff_nil; lia).
    assert (Hjobs : jobs = []) by (unfold jobs, chain_jobs; by rewrite drop_ge).
    rewrite Hjobs, app_nil_r in *. cbv iota. apply wp_ret. split_and!; [done| |].
    + replace (Z.of_nat k + 1) with (wTotal rec) by lia. apply str_at_put_eq.
    + rewrite Forall_forall in Hwf, Hr |- *. intros job Hj.
      apply is_ready_save; [by destruct Hrun as [_ _ _ (c & d & ->) _]|by apply Hwf|].
      apply is_ready_count; auto.
Qed.

(** A completed task of a group is counted; the workflow completes exactly
    when the count reaches the number of tasks, and nothing is enqueued. *)
Theorem group_counts now newID jobID rec stored k (m : keyspace) :
  running m rec stored → wType rec = TypeGroup →
  completions m (wID rec) = Some k → 0 ≤ k < int64_max →
  wp (S := S) (OnJobCompleted now newID (wID rec) jobID) (λ m' r,
    r = Ok tt ∧ completions m' (wID rec) = Some (k + 1) ∧
    saved m' (set_done (k + 1)
      (if decide (k + 1 >= wTotal rec) then set_state "completed" stored else stored)) ∧
    untouched [workflowKey (wID rec); counterKey (wID rec)] m m') m.
Proof.
  intros Hrun Hty Hk Hr. apply (wp_OnJobCompleted rec stored); [done|rewrite Hty; right; by left|].
  rewrite (decide_False (P := wType rec = TypeChain)) by (by rewrite Hty).
  rewrite (decide_True (P := wType rec = TypeGroup)) by done.
  destruct Hrun as [Hm Hid Ht (c & d & ->) Hs].
  assert (Hr' : in_int64 (k + 1)) by (unfold in_int64, int64_min, int64_max in *; lia).
  apply (wp_counted _ (at_progress c d "running" rec) k); [done..|]. cbv zeta.
  change (wDone (set_done (k + 1) _)) with (k + 1).
  change (wTotal (set_done (k + 1) _)) with (wTotal rec).
  replace (set_done (k + 1) (if decide (k + 1 >= wTotal rec)
             then set_state "completed" (at_progress c d "running" rec)
             else at_progress c d "running" rec))
    with (if decide (k + 1 >= wTotal rec)
          then set_state "completed" (set_done (k + 1) (at_progress c d "running" rec))
          else set_done (k + 1) (at_progress c d "running" rec)) by (by case_decide).
  set (rec' := if decide _ then _ else _).
  assert (Hid' : wID rec' = wID rec) by (unfold rec'; by case_decide).
  apply wp_saveRecord. split_and!; [done| | |].
  - unfold completions, save_ks. rewrite Hid'. ks_simp. by apply (completions_put (wID rec)).
  - apply str_at_put_eq.
  - eapply untouched_trans; [apply untouched_put; right; by left|].
    apply untouched_save. rewrite Hid'. by left.
Qed.

(** The script of a chord: one dependency less. *)
Lemma wp_advanceChordScript id jobID m Q : wf_store m →
  Q (srem (depsKey id) jobID m) (Ok (RInt (Z.of_nat (size (set_at m (depsKey id) ∖ {[jobID]}))))) →
  wp (S := S) (advanceChordScript (depsKey id) jobID) Q m.
Proof.
  intros Hm HQ. unfold advanceChordScript. apply wp_bind, wp_SREM.
  { by apply (wf_has_type m (KDeps id)). }
  cbv beta iota. change (put (depsKey id) _ m) with (srem (depsKey id) jobID m).
  apply wp_SCARD.
  { apply (wf_has_type _ (KDeps id)); [|done]. by apply (wf_srem m Hm (KDeps id)). }
  assert (set_at (srem (depsKey id) jobID m) (depsKey id) = set_at m (depsKey id) ∖ {[jobID]}) as ->
    by (unfold srem; apply set_at_put_eq).
  done.
Qed.

(** C36: a completed header of a chord is struck off the dependencies; the callback
    is enqueued, once and in the name of the workflow, exactly when none is
    left, and then the workflow is completed. *)
Theorem chord_fires now newID jobID rec stored callback (m : keyspace) :
  running m rec stored → wType rec = TypeChord → wCallback rec = Some callback →
  let job := spec_job now newID (wID rec) callback in
  wf_record job → can_incr m (statsKey (Job.Queue job)) "enqueued" →
  let left_ := set_at m (depsKey (wID rec)) ∖ {[jobID]} in
  let stored' := set_done (wTotal rec - Z.of_nat (size left_)) stored in
  wp (S := S) (OnJobCompleted now newID (wID rec) jobID) (λ m' r,
    r = Ok tt ∧ set_at m' (depsKey (wID rec)) = left_ ∧
    if decide (left_ = ∅) then
      saved m' (set_state "completed" stored') ∧ spec_enqueued m' job ∧
      untouched [workflowKey (wID rec); depsKey (wID rec); jobKey newID;
        readyKey (Job.Queue job); delayedKey (Job.Queue job); statsKey (Job.Queue job)] m m'
    else
      saved m' stored' ∧ untouched [workflowKey (wID rec); depsKey (wID rec)] m m') m.
Proof.
  intros Hrun Hty Hcb job Hj Hc left_ stored'.
  apply (wp_OnJobCompleted rec stored); [done|rewrite Hty; right; right; by left|].
  rewrite (decide_False (P := wType rec = TypeChain)) by (by rewrite Hty).
  rewrite (decide_False (P := wType rec = TypeGroup)) by (by rewrite Hty).
  destruct Hrun as [Hm Hid Ht (c & d & ->) Hs]. pose proof Hj as (_ & Hjq & _).
  unfold advanceChord. change (wID (at_progress c d "running" rec)) with (wID rec).
  apply wp_bind, wp_wrap, wp_Run, wp_advanceChordScript; [done|]. cbv beta iota zeta. fold left_.
  change (wTotal (at_progress c d "running" rec)) with (wTotal rec). fold stored'.
  change (wCallback stored') with (wCallback rec). rewrite Hcb.
  change (wID stored') with (wID rec). fold job.
  pose proof (wf_srem m Hm (KDeps (wID rec)) jobID I I) as Hm1.
  assert (Hd1 : set_at (srem (depsKey (wID rec)) jobID m) (depsKey (wID rec)) = left_)
    by (unfold srem; apply set_at_put_eq).
  assert (Hu1 : untouched [depsKey (wID rec)] m (srem (depsKey (wID rec)) jobID m))
    by (apply untouched_put; by left).
  assert (Hc1 : can_incr (srem (depsKey (wID rec)) jobID m) (statsKey (Job.Queue job)) "enqueued")
    by (eapply can_incr_frame; [|exact Hc]; by ks_simp).
  cbn [render] in Hm1. generalize dependent (srem (depsKey (wID rec)) jobID m).
  intros m1 Hm1 Hd1 Hu1 Hc1. destruct (decide (left_ = ∅)) as [Hl|Hl].
  - rewrite decide_True by (rewrite Hl, size_empty; done).
    apply wp_bind, wp_saveRecord. cbv beta iota.
    destruct (saved_and_enqueued (set_state "completed" stored') m1 job Hm1 Hid Hj eq_refl Hc1)
      as (Hw & Hsv & _ & Hdeps & Hsp & Hun).
    apply wp_bind, wp_wrap_err, wp_enqueueTask; [by apply wf_save|done|by apply save_can_incr|].
    cbv beta iota. apply wp_ret. split_and!; [done|by rewrite <- Hd1|done|done|].
    eapply untouched_trans; (eapply untouched_mono; [|eassumption]); sub_keys.
  - rewrite decide_False by (intros E; apply Hl, leibniz_equiv, size_empty_inv; lia).
    apply wp_saveRecord. split_and!; [done| |apply str_at_put_eq|].
    + unfold save_ks. change (wID stored') with (wID rec). rewrite <- Hd1. by ks_simp.
    + eapply untouched_trans; [eapply untouched_mono; [|exact Hu1]; sub_keys|].
      apply untouched_save. by left.
Qed.

(** C37: a failed job ends its workflow for good: the record says so, and no later
    completion of another of its jobs enqueues or changes anything. *)
Theorem failed_workflow_stops now newID jobID jobID' rec stored (m : keyspace) :
  running m rec stored →
  wp (S := S) (OnJobFailed (wID rec) jobID ;; OnJobCompleted now newID (wID rec) jobID') (λ m' r,
    r = Ok tt ∧ saved m' (set_state "failed" stored) ∧ untouched [workflowKey (wID rec)] m m') m.
Proof.
  intros [Hm Hid Ht (c & d & ->) Hs]. unfold OnJobFailed.
  apply wp_bind, wp_bind. change (wID rec) with (wID (at_progress c d "running" rec)).
  apply wp_loadRecord; [done|done|done|by apply texts_at; [done|left]|]. cbv beta iota.
  apply wp_saveRecord. cbv beta iota. unfold OnJobCompleted.
  set (failed := set_state "failed" (at_progress c d "running" rec)).
  apply wp_bind. change (wID (at_progress c d "running" rec)) with (wID failed).
  apply wp_loadRecord.
  - by apply wf_save.
  - done.
  - apply str_at_put_eq.
  - apply (texts_at rec c d "failed"); [done|]. right; right; by left.
  - cbv beta iota. rewrite decide_True by (by right). apply wp_ret.
    split_and!; [done|apply str_at_put_eq|]. apply untouched_save. by left.
Qed.

(** Two headers or more, and what the creation of their chord writes. *)
Definition first_header (clk : nat → Z) (jobIDs : nat → string) (id : string) (rec : WfRecord)
    (h : TaskSpec) : M S error unit :=
  saveRecord rec ;; add_header clk id jobIDs 0 h.

Lemma wp_first_header clk jobIDs rec h m Q :
  let job := spec_job (clk 0%nat) (jobIDs 0%nat) (wID rec) h in
  wf_store m → wf_wfid (wID rec) → wf_record job →
  can_incr m (statsKey (Job.Queue job)) "enqueued" →
  Q (sadd (depsKey (wID rec)) (jobIDs 0%nat) (enqueue_plain_ks (save_ks rec m) job)) (Ok tt) →
  wp (first_header clk jobIDs (wID rec) rec h) Q m.
Proof.
  intros job Hm Hid Hj Hc HQ. destruct (saved_and_enqueued rec m job Hm Hid Hj eq_refl Hc) as (Hw & _).
  pose proof Hj as (_ & Hq & _). unfold first_header, add_header.
  apply wp_bind, wp_saveRecord. cbv beta iota.
  apply wp_bind, wp_wrap_err, wp_enqueueTask; [by apply wf_save|done|by apply save_can_incr|].
  cbv beta iota. apply wp_bind, wp_wrap, wp_Run, wp_SADD.
  - by apply (wf_has_type _ (KDeps (wID rec))).
  - cbv beta iota. by apply wp_ret.
Qed.

(** A chord may fire early.  Its creator registers each header only after
    enqueueing it, so when the first header completes before the second one is
    registered, the dependencies are empty: the callback is enqueued and the
    workflow completed although only one of [wTotal rec] headers has run. *)
Theorem chord_fires_early clk jobIDs now newID rec h callback (m : keyspace) :
  let job := spec_job (clk 0%nat) (jobIDs 0%nat) (wID rec) h in
  let cb := spec_job now newID (wID rec) callback in
  wf_store m → wf_wfid (wID rec) → texts_ok rec → wType rec = TypeChord → wState rec = "running" →
  wCallback rec = Some callback → 2 ≤ wTotal rec → set_at m (depsKey (wID rec)) = ∅ →
  wf_record job → wf_record cb → room 2 [job; cb] m →
  wp (S := S)
    (first_header clk jobIDs (wID rec) rec h ;; OnJobCompleted now newID (wID rec) (jobIDs 0%nat))
    (λ m' r, r = Ok tt ∧ saved m' (set_state "completed" (set_done (wTotal rec) rec)) ∧
       spec_enqueued m' cb) m.
Proof.
  intros job cb Hm Hid Ht Hty Hst Hcb Htot Hdeps Hj Hjc Hroom.
  assert (Hc : can_incr m (statsKey (Job.Queue job)) "enqueued")
    by (eapply room_can_incr; [exact Hroom|by left]).
  destruct (saved_and_enqueued rec m job Hm Hid Hj eq_refl Hc) as (Hw & Hsv & _ & Hd & _).
  rewrite Hdeps in Hd. apply wp_bind, wp_first_header; [done..|]. cbv beta iota. fold job.
  assert (Hroom' : room 1 [cb] (enqueue_plain_ks (save_ks rec m) job)).
  { apply room_step; [done|by apply Forall_singleton|]. intros j Hin.
    destruct (Hroom j Hin) as (n & Hn & Hr). exists n. split; [|done].
    rewrite <- Hn. unfold counter, save_ks. assert (wf_queue (Job.Queue j)) as Hq.
    { apply elem_of_cons in Hin as [->|Hin]; [apply Hj|].
      apply elem_of_cons in Hin as [->|[]%elem_of_nil]. apply Hjc. }
    by ks_simp. }
  pose proof (room_can_incr _ _ cb _ Hroom' ltac:(by left)) as Hcc. pose proof Hjc as (_ & Hqc & _).
  generalize dependent (enqueue_plain_ks (save_ks rec m) job). intros m1 Hw Hsv Hd _ Hcc.
  assert (Hrun : running (sadd (depsKey (wID rec)) (jobIDs 0%nat) m1) rec rec).
  { split; [by apply (wf_sadd m1 Hw (KDeps (wID rec)))|done|done| |].
    - exists (wCurrent rec), (wDone rec). destruct rec; cbn in *. by subst.
    - unfold saved. by ks_simp. }
  assert (Hd1 : set_at (sadd (depsKey (wID rec)) (jobIDs 0%nat) m1) (depsKey (wID rec)) = {[jobIDs 0%nat]}).
  { unfold sadd. rewrite set_at_put_eq, Hd. by rewrite union_empty_r_L. }
  eapply wp_mono.
  - apply (chord_fires now newID _ rec rec callback); [done..|].
    eapply can_incr_frame; [|exact Hcc]. by ks_simp.
  - cbv beta zeta. intros m' r (-> & _ & Hfire). rewrite Hd1 in Hfire.
    rewrite (difference_diag_L {[jobIDs 0%nat]}) in Hfire. rewrite decide_True in Hfire by done.
    destruct Hfire as (Hs & Hsp & _). split_and!; [done| |done].
    rewrite size_empty in Hs. by rewrite Z.sub_0_r in Hs.
Qed.
End Events.
