(* ===== verification/Cron.v ===== *)
(** * Cron: periodic jobs, [internal/scheduler/cron.go]

    The parser and the schedules of robfig/cron are the class [CronLib].  Times
    are nanoseconds since the epoch; [None] is the zero time a schedule returns
    when it never fires again. *)
From S2P Require Import Prelude Float Keys Redis Lua Job Scripts Queue Json.

Open Scope string_scope.
Open Scope Z_scope.

(** ** The parser, as an interface *)

Class CronLib : Type := {
  Schedule : Type;
  Parse : string → result string Schedule;
  Next : Schedule → Z → option Z
}.

(** Activations are whole seconds, strictly after the given time. *)
Class CronLaws `{CronLib} : Prop :=
  Next_after sched t t' : Next sched t = Some t' → t < t' ∧ (Second | t').

(** ** Data *)

Record Entry : Type := {
  eName : string;
  eSchedule : string;
  eQueue : string;
  eKind : string;
  ePayload : string
}.

Record cronState : Type := { NextRun : Z }.

#[export] Instance cronState_eq_dec : EqDecision cronState.
Proof. solve_decision. Defined.

(** [time.Time{}.UnixMilli()] *)
Definition zero_time_ms : Z := -62135596800000.

(** [sched.Next(t).UnixMilli()] *)
Definition next_ms (next : option Z) : Z :=
  match next with Some t => UnixMilli t | None => zero_time_ms end.

Section Cron.
Context {S : Type} `{Redis S} `{CronLib} `{Json cronState}.

Record parsedEntry : Type := { entry : Entry; sched : Schedule }.

Record Cron : Type := { entries : list parsedEntry; Interval : Z }.

(** [if e.Queue == "" { e.Queue = "default" }] *)
Definition named_queue (e : Entry) : Entry :=
  if decide (eQueue e = "") then {|
    eName := eName e; eSchedule := eSchedule e; eQueue := "default"; eKind := eKind e;
    ePayload := ePayload e |}
  else e.

(** The loop over the entries stops at the first schedule that does not parse. *)
Fixpoint parse_entries (es : list Entry) : result error (list parsedEntry) :=
  match es with
  | [] => Ok []
  | e :: es' =>
      match Parse (eSchedule e) with
      | Err err =>
          Err (Errorf ("winter: invalid cron schedule " +:+ quote (eSchedule e) +:+ " for " +:+ quote (eName e)) err)
      | Ok sched =>
          match parse_entries es' with
          | Err err => Err err
          | Ok ps => Ok ({| entry := named_queue e; sched := sched |} :: ps)
          end
      end
  end.

Definition NewCron (es : list Entry) (interval : Z) : result error Cron :=
  let interval := if decide (interval ≤ 0) then 1 * Second else interval in
  match parse_entries es with
  | Err err => Err err
  | Ok ps => Ok {| entries := ps; Interval := interval |}
  end.

(** An error is logged and the loop goes on. *)
Definition seedNextRuns (now : Z) (c : Cron) : M S error unit :=
  for_each (entries c) (λ e,
    let state := {| NextRun := next_ms (Next (sched e) now) |} in
    try (E := string) (Run (redis_call (HSETNX cronKey (eName (entry e)) (marshal state)))) ;;
    mret tt).

Definition compareAndSwapScript (key field expected newVal : string) : M S string reply :=
  current ← redis_call (HGET key field);
  if decide (current = RBulk expected) then
    redis_call (HSET key [(field, newVal)]) ;;
    mret (RInt 1)
  else mret (RInt 0).

Definition compareAndSwap (field expected newVal : string) : M S error bool :=
  result ← plain (Run (compareAndSwapScript cronKey field expected newVal));
  match result with
  | RInt n => mret (bool_decide (n = 1))
  | _ => throw (ErrText "winter: cron cas: unexpected result type")
  end.

Definition cron_id (name : string) (nextRun : Z) : string :=
  "cron:" +:+ name +:+ ":" +:+ dec nextRun.

Definition cron_job (now : Z) (e : Entry) (state : cronState) : JobRecord := {|
  ID := cron_id (eName e) (NextRun state); Kind := eKind e; Job.Queue := eQueue e; Priority := 5;
  State := "pending"; Payload := ePayload e; Attempt := 0; MaxRetries := 3;
  CreatedAt := UnixMilli now; ScheduledAt := 0; StartedAt := 0; CompletedAt := 0;
  LastError := ""; UniqueKey := ""; WorkflowID := "" |}.

(** The state of an entry as a tick reads it; [None] where the code continues. *)
Definition read_state (name : string) : M S error (option (string * cronState)) :=
  raw ← try (Run (redis_call (HGET cronKey name)));
  match raw with
  | Ok (RBulk raw) =>
      match unmarshal raw with
      | Ok state => mret (Some (raw, state))
      | Err _ => mret None
      end
  | _ => mret None
  end.

(** One round of the loop of [tick]. *)
Definition tick_entry (now : Z) (e : parsedEntry) : M S error unit :=
  read ← read_state (eName (entry e));
  match read with
  | None => mret tt
  | Some (raw, state) =>
      if decide (now < NextRun state * Millisecond) then mret tt
      else
        let following := Next (sched e) now in
        let newState := {| NextRun := next_ms following |} in
        swapped ← try (compareAndSwap (eName (entry e)) raw (marshal newState));
        match swapped with
        | Ok true => try (E := error) (Enqueue (cron_job now (entry e) state) "" 0) ;; mret tt
        | _ => mret tt
        end
  end.

Definition tick (now : Z) (c : Cron) : M S error unit :=
  for_each (entries c) (tick_entry now).

(** [Run]: the seed, and a tick at every reading of the clock until the context
    ends. *)
Definition cron_Run (now : Z) (ticks : list Z) (c : Cron) : M S error unit :=
  seedNextRuns now c ;; for_each ticks (λ now, tick now c).
End Cron.
Arguments parsedEntry {_}.
Arguments Cron {_}.
