(* ===== verification/CronSpecs.v ===== *)
(** * CronSpecs: periodic jobs fire once

    What one tick does, and the two ways in which an activation is lost or a
    schedule runs away.  That no activation is enqueued twice is in [Ticks.v]. *)
From S2P Require Import Prelude Float Keys Redis Lua Keyspace Job Scripts Queue ScriptSpecs QueueSpecs EnqueueSpecs Json Cron.

Open Scope string_scope.
Open Scope Z_scope.

(** What the schedule [name] has stored. *)
Definition stored (m : keyspace) (name : string) : option string := hash_at m cronKey !! name.

(** The contents after a swap. *)
Definition cas_ks (name expected new : string) (m : keyspace) : keyspace :=
  if decide (stored m name = Some expected) then hset cronKey [(name, new)] m else m.

Lemma cas_stored name expected new m :
  stored (cas_ks name expected new m) name =
    if decide (stored m name = Some expected) then Some new else stored m name.
Proof.
  unfold cas_ks. case_decide; [|done]. unfold stored, hset. rewrite hash_at_put_eq. cbn.
  apply lookup_insert_eq.
Qed.

Lemma cas_typed name expected new m : has_type m cronKey THash →
  has_type (cas_ks name expected new m) cronKey THash.
Proof. intros Ht. unfold cas_ks. case_decide; [|done]. by apply has_type_put. Qed.

Section Cas.
Context {S : Type} `{RedisLaws S}.

Lemma wp_cas name expected new m Q : has_type m cronKey THash →
  Q (cas_ks name expected new m) (Ok (RInt (bit (stored m name = Some expected)))) →
  wp (S := S) (compareAndSwapScript cronKey name expected new) Q m.
Proof.
  intros Ht HQ. unfold compareAndSwapScript. apply wp_bind, wp_HGET; [done|]. cbv beta iota.
  unfold cas_ks, stored, bit in HQ. destruct (hash_at m cronKey !! name) as [cur|].
  - destruct (decide (cur = expected)) as [->|Hne].
    + rewrite decide_True by done. rewrite decide_True, bool_decide_eq_true_2 in HQ by done.
      apply wp_bind, wp_HSET; [done|done|]. intros _. by apply wp_ret.
    + rewrite decide_False by congruence.
      rewrite decide_False, bool_decide_eq_false_2 in HQ by congruence. by apply wp_ret.
  - rewrite decide_False by done. rewrite decide_False, bool_decide_eq_false_2 in HQ by done.
    by apply wp_ret.
Qed.

(** Executing the swap again changes nothing, as the two values differ. *)
Lemma cas_iter name expected new n (s : S) : has_type (ks s) cronKey THash → expected ≠ new →
  ks (Nat.iter n (λ s, (compareAndSwapScript cronKey name expected new s).1) s) =
    match n with O => ks s | _ => cas_ks name expected new (ks s) end.
Proof.
  intros Ht Hne. induction n as [|n IH]; [done|]. cbn [Nat.iter].
  set (s' := Nat.iter n _ s) in *.
  assert (Ht' : has_type (ks s') cronKey THash) by (rewrite IH; destruct n; [done|by apply cas_typed]).
  transitivity (cas_ks name expected new (ks s')).
  { by apply (wp_cas name expected new (ks s')
      (λ m _, m = cas_ks name expected new (ks s')) Ht' eq_refl s' eq_refl). }
  rewrite IH. destruct n; [done|]. unfold cas_ks at 1. rewrite cas_stored.
  case_decide as Hd; [|done]. case_decide; congruence.
Qed.

(** The outcome of a swap over any network. *)
Lemma compareAndSwap_outcome name expected new (s : S) :
  has_type (ks s) cronKey THash → expected ≠ new →
  let '(s', r) := compareAndSwap name expected new s in
  (ks s' = ks s ∨ ks s' = cas_ks name expected new (ks s)) ∧
  (r = Ok true → stored (ks s) name = Some expected ∧ ks s' = cas_ks name expected new (ks s)).
Proof.
  intros Ht Hne. unfold compareAndSwap, plain, try, mbind, M_bind, Run.
  destruct (law_transport s) as (Hk & _). destruct (transport s) as [s1 d]. cbn in Hk.
  destruct d as [lost|n msg].
  - pose proof (cas_iter name expected new lost s1) as Hi. rewrite Hk in Hi.
    specialize (Hi Ht Hne). set (s2 := Nat.iter lost _ s1) in *.
    assert (Ht2 : has_type (ks s2) cronKey THash) by (rewrite Hi; destruct lost; [done|by apply cas_typed]).
    pose proof (wp_cas name expected new (ks s2)
      (λ m r, m = cas_ks name expected new (ks s2) ∧
         r = Ok (RInt (bit (stored (ks s2) name = Some expected)))) Ht2
      (conj eq_refl eq_refl) s2 eq_refl) as [Hm Hr].
    destruct (compareAndSwapScript _ _ _ _ s2) as [s3 r3]. cbn in Hm, Hr. subst r3. cbn.
    pose proof (cas_iter name expected new (Datatypes.S lost) s1) as Hi'. rewrite Hk in Hi'.
    specialize (Hi' Ht Hne).
    assert (Hks : ks s3 = cas_ks name expected new (ks s)).
    { rewrite Hm, Hi. destruct lost; [done|]. unfold cas_ks at 1. rewrite cas_stored.
      case_decide as Hd; [|done]. case_decide; congruence. }
    split; [by right|]. intros [= Hw]. apply bool_decide_eq_true_1 in Hw. unfold bit, b2z in Hw.
    case_bool_decide as Hs; [|done]. split; [|done]. rewrite Hi in Hs. destruct lost; [done|].
    rewrite cas_stored in Hs. case_decide; congruence.
  - pose proof (cas_iter name expected new n s1) as Hi. rewrite Hk in Hi.
    specialize (Hi Ht Hne). cbn. split; [|done]. rewrite Hi. destruct n; [by left|by right].
Qed.
End Cas.

(** ** One tick *)

Section Tick.
Context {S : Type} `{RedisLaws S} `{!Reliable S} `{CronLib} `{JsonLaws cronState}.

Lemma wp_read_state name raw state m Q : wf_store m → stored m name = Some raw →
  unmarshal raw = Ok state → Q m (Ok (Some (raw, state))) →
  wp (S := S) (read_state name) Q m.
Proof.
  intros Hm Hs Hu HQ. unfold read_state. apply wp_bind, wp_try, wp_Run, wp_HGET.
  - by apply (wf_has_type m KCron).
  - unfold stored in Hs. rewrite Hs. cbv beta iota. rewrite Hu. by apply wp_ret.
Qed.

Lemma wp_compareAndSwap name expected new m Q : wf_store m → stored m name = Some expected →
  Q (hset cronKey [(name, new)] m) (Ok true) →
  wp (S := S) (compareAndSwap name expected new) Q m.
Proof.
  intros Hm Hs HQ. unfold compareAndSwap. apply wp_bind, wp_plain, wp_Run, wp_cas.
  - by apply (wf_has_type m KCron).
  - unfold cas_ks, bit. rewrite decide_True, (bool_decide_eq_true_2 (stored m name = Some expected)) by done.
    by apply wp_ret.
Qed.

(** C34: a tick before the stored time changes nothing; one at or after it moves
    the stored time to the next activation after now, so that missed ones are
    skipped, and enqueues one job named after the activation it was due for. *)
Theorem tick_fires now (e : parsedEntry) raw state (m : keyspace) :
  wf_store m → stored m (eName (entry e)) = Some raw → unmarshal raw = Ok state →
  let job := cron_job now (entry e) state in
  wf_record job → can_incr m (statsKey (Job.Queue job)) "enqueued" →
  wp (S := S) (tick_entry now e) (λ m' r,
    r = Ok tt ∧
    if decide (now < NextRun state * Millisecond) then m' = m
    else
      stored m' (eName (entry e)) = Some (marshal {| NextRun := next_ms (Next (sched e) now) |}) ∧
      (∀ name, name ≠ eName (entry e) → stored m' name = stored m name) ∧
      spec_enqueued m' job ∧
      untouched [cronKey; jobKey (ID job); readyKey (Job.Queue job);
                 delayedKey (Job.Queue job); statsKey (Job.Queue job)] m m') m.
Proof.
  intros Hm Hs Hu job Hj Hc. pose proof Hj as (_ & Hq & _). unfold tick_entry.
  apply wp_bind, (wp_read_state _ raw state); [done..|]. cbv beta iota zeta.
  case_decide as Hnow; [by apply wp_ret|].
  apply wp_bind, wp_try, wp_compareAndSwap; [done..|]. cbv beta iota. fold job.
  set (new := marshal _). set (m1 := hset cronKey [(eName (entry e), new)] m).
  assert (Hm1 : wf_store m1) by (by apply (wf_store_put m KCron)).
  assert (Hs1 : ∀ name, stored m1 name = if decide (name = eName (entry e)) then Some new else stored m name).
  { intros name. unfold stored, m1, hset. rewrite hash_at_put_eq. cbn.
    case_decide as Hn; [subst name; by rewrite lookup_insert_eq|by rewrite lookup_insert_ne]. }
  assert (Hc1 : can_incr m1 (statsKey (Job.Queue job)) "enqueued")
    by (eapply can_incr_frame; [|exact Hc]; unfold m1; by ks_simp).
  assert (Hu1 : untouched [cronKey] m m1) by (apply untouched_put; by left).
  generalize dependent m1. intros m1 Hm1 Hs1 Hc1 Hu1.
  apply wp_bind, wp_try, wp_Enqueue_plain; [done..|]. apply wp_ret.
  assert (Hcron : ∀ name, stored (enqueue_plain_ks m1 job) name = stored m1 name).
  { intros name. unfold stored. f_equal.
    apply hash_at_ext, (enqueue_plain_other m1 job KCron); [done|done|].
    rewrite !not_elem_of_cons. by split_and!; try apply not_elem_of_nil. }
  split_and!; [done| | |by apply enqueue_plain_spec|].
  - rewrite Hcron, Hs1. by rewrite decide_True.
  - intros name Hn. rewrite Hcron, Hs1. by rewrite decide_False.
  - eapply untouched_trans; [eapply untouched_mono; [|exact Hu1]|apply untouched_enqueue; [done|..]];
      [intros ?|..]; rewrite !elem_of_cons, ?elem_of_nil; tauto.
Qed.

(** A schedule that never activates, such as the thirtieth of February, is not
    refused: its zero time is in the past, so every tick enqueues its job,
    under the same id each time, and leaves the schedule where it is. *)
Theorem never_fires_always now (e : parsedEntry) (m : keyspace) :
  let state := {| NextRun := zero_time_ms |} in
  let job := cron_job now (entry e) state in
  wf_store m → Next (sched e) now = None → 0 ≤ now → valid_text state →
  stored m (eName (entry e)) = Some (marshal state) →
  wf_record job → can_incr m (statsKey (Job.Queue job)) "enqueued" →
  wp (S := S) (tick_entry now e) (λ m' r,
    r = Ok tt ∧ spec_enqueued m' job ∧ ID job = cron_id (eName (entry e)) zero_time_ms ∧
    stored m' (eName (entry e)) = Some (marshal state)) m.
Proof.
  intros state job Hm Hn Hnow Hv Hs Hj Hc.
  assert (Hu : unmarshal (marshal state) = Ok state) by (by apply unmarshal_marshal).
  unfold tick_entry. eapply wp_mono.
  - apply (tick_fires now e (marshal state) state m); [exact Hm|exact Hs|exact Hu|exact Hj|exact Hc].
  - cbv beta zeta. intros m' r (-> & Hr). rewrite Hn in Hr.
    rewrite decide_False in Hr by (cbn; unfold zero_time_ms, Millisecond; lia).
    destruct Hr as (Hst & _ & Hsp & _). by split_and!.
Qed.
End Tick.

(** ** Many servers, any network *)

Section Once.
Context {S : Type} `{RedisLaws S} `{CronLib} `{!CronLaws} `{JsonLaws cronState}.

(** The next activation lies beyond a due state. *)
Lemma next_beyond sched now t n : Next sched now = Some t → ¬ now < n * Millisecond →
  n < next_ms (Some t).
Proof.
  intros Hn Hnow. apply Next_after in Hn as [Hlt [k ->]]. cbn. unfold UnixMilli, Millisecond, Second in *.
  replace (k * 1000000000) with (k * 1000 * 1000000) in * by lia. rewrite Z.div_mul by lia. lia.
Qed.

Lemma seed_keeps now (e : parsedEntry) (s : S) : has_type (ks s) cronKey THash →
  let s' := (seedNextRuns now {| entries := [e]; Interval := Second |} s).1 in
  has_type (ks s') cronKey THash ∧
  (∀ raw, stored (ks s) (eName (entry e)) = Some raw → stored (ks s') (eName (entry e)) = Some raw).
Proof.
  intros Ht. set (name := eName (entry e)).
  set (P := λ s' : S, has_type (ks s') cronKey THash ∧
    (∀ raw, stored (ks s) name = Some raw → stored (ks s') name = Some raw)).
  change (P (seedNextRuns now {| entries := [e]; Interval := Second |} s).1).
  unfold seedNextRuns. cbn [entries for_each].
  assert (Hcall : ∀ v s', P s' → P (redis_call (HSETNX cronKey name v) s').1).
  { intros v s' [Ht' Hs'].
    apply (wp_HSETNX cronKey name v (λ m' (_ : result string reply), has_type m' cronKey THash ∧
      (∀ raw, stored (ks s) name = Some raw → stored m' name = Some raw)) (ks s')); [done| |done].
    case_decide as Hd; [by split|]. split; [by apply has_type_put|].
    intros raw Hraw. destruct Hd. exists raw. by apply Hs'. }
  assert (Hrun : ∀ v, P (Run (redis_call (HSETNX cronKey name v)) s).1).
  { intros v. unfold Run. destruct (law_transport s) as (Hk & _).
    destruct (transport s) as [s1 d]. cbn in Hk.
    assert (Hiter : ∀ n, P (Nat.iter n (λ s, (redis_call (HSETNX cronKey name v) s).1) s1)).
    { induction n as [|n IH]; [|by apply Hcall]. split; cbn; rewrite Hk; done. }
    destruct d; [apply Hcall|]; apply Hiter. }
  specialize (Hrun (marshal {| NextRun := next_ms (Next (sched e) now) |})).
  unfold try, mbind, M_bind. fold name. by destruct (Run _ s) as [s' [r|r]].
Qed.

(** An activation can be lost.  When the reply to the swap gets lost and the
    request is sent again, the second execution finds the new state, the server
    takes the tick for another server's, and nobody enqueues the job: the state
    has moved on and no other key has changed. *)
Theorem tick_lost now (e : parsedEntry) raw state t (s : S) lost :
  let read := redis_call (HGET cronKey (eName (entry e))) (transport s).1 in
  (transport s).2 = Replied 0 → (transport read.1).2 = Replied (Datatypes.S lost) →
  has_type (ks s) cronKey THash →
  stored (ks s) (eName (entry e)) = Some raw → unmarshal raw = Ok state →
  ¬ now < NextRun state * Millisecond →
  Next (sched e) now = Some t → valid_text {| NextRun := next_ms (Some t) |} →
  (tick_entry now e s).2 = Ok tt ∧
  stored (ks (tick_entry now e s).1) (eName (entry e)) = Some (marshal {| NextRun := next_ms (Some t) |}) ∧
  untouched [cronKey] (ks s) (ks (tick_entry now e s).1).
Proof.
  intros read Hd1 Hd2 Ht Hs Hu Hnow Hn Hv. set (name := eName (entry e)) in *.
  set (new := marshal {| NextRun := next_ms (Some t) |}).
  destruct (law_transport s) as (Hk1 & _).
  assert (Hread : ks read.1 = ks s ∧ read.2 = Ok (RBulk raw)).
  { unfold read. destruct (transport s) as [s1 d]. cbn in Hk1 |- *.
    apply (wp_HGET cronKey name (λ m r, m = ks s ∧ r = Ok (RBulk raw)) (ks s)); [done| |done].
    split; [done|]. unfold stored in Hs. by rewrite Hs. }
  assert (Hr1 : read_state name s = (read.1, Ok (Some (raw, state)))).
  { unfold read_state, try, mbind, M_bind, Run. unfold read in *.
    destruct (transport s) as [s1 d]. cbn in Hd1, Hread |- *. subst d. cbn.
    destruct (redis_call _ s1) as [s2 r]. cbn in Hread. destruct Hread as [_ ->]. by rewrite Hu. }
  destruct Hread as [Hk2 _]. generalize dependent read. intros read Hd2 Hk2 Hr1.
  assert (Hun : unmarshal new = Ok {| NextRun := next_ms (Some t) |}) by (by apply unmarshal_marshal).
  assert (Hne : raw ≠ new).
  { pose proof (next_beyond _ _ _ _ Hn Hnow). intros E. rewrite <- E, Hu in Hun.
    injection Hun as ->. cbn in *. lia. }
  assert (Hcas : compareAndSwap name raw new read.1 =
    ((compareAndSwap name raw new read.1).1, Ok false) ∧
    ks (compareAndSwap name raw new read.1).1 = cas_ks name raw new (ks s)).
  { unfold compareAndSwap, plain, try, mbind, M_bind, Run. destruct (law_transport read.1) as (Hk3 & _).
    destruct (transport read.1) as [s3 d]. cbn in Hd2, Hk3. subst d.
    pose proof (cas_iter name raw new (Datatypes.S lost) s3) as Hi. rewrite Hk3, Hk2 in Hi.
    specialize (Hi Ht Hne). set (s4 := Nat.iter (Datatypes.S lost) _ s3) in *. clearbody s4.
    pose proof (wp_cas name raw new (ks s4)
      (λ m r, m = cas_ks name raw new (ks s4) ∧ r = Ok (RInt (bit (stored (ks s4) name = Some raw))))
      ltac:(by rewrite Hi; apply cas_typed) (conj eq_refl eq_refl) s4 eq_refl) as [Hm Hr].
    destruct (compareAndSwapScript _ _ _ _ s4) as [s5 r5]. cbn in Hm, Hr |- *. subst r5. cbn.
    rewrite Hm, Hi. rewrite cas_stored, decide_True by done. unfold bit, b2z.
    rewrite (bool_decide_eq_false_2 (Some new = Some raw)) by congruence. split; [done|].
    unfold cas_ks at 1. rewrite cas_stored, (decide_True (P := stored (ks s) name = Some raw)) by done.
    by rewrite decide_False by congruence. }
  destruct Hcas as [Hc1 Hc2].
  assert (Htick : tick_entry now e s = ((compareAndSwap name raw new read.1).1, Ok tt)).
  { unfold tick_entry, mbind, M_bind. fold name. rewrite Hr1. rewrite decide_False by done.
    rewrite Hn. fold new. unfold try. by rewrite Hc1. }
  rewrite Htick. cbn [fst snd]. rewrite Hc2. split_and!; [done| |].
  - rewrite cas_stored. by rewrite decide_True.
  - unfold cas_ks. rewrite decide_True by done. apply untouched_put. by left.
Qed.
End Once.

(** ** The ids of scheduled jobs *)

Lemma last_char_tail a b : b ≠ "" → last_char (a +:+ b) = last_char b.
Proof. intros Hb. destruct b as [|c u]; [done|]. apply last_char_app. Qed.

Lemma last_char_uint d : d ≠ Decimal.Nil →
  ∃ c, last_char (DecimalString.NilZero.string_of_uint d) = Some c ∧ c ≠ "t"%char.
Proof.
  assert (Hall : ∀ d, d = Decimal.Nil ∨
    ∃ c, last_char (DecimalString.NilEmpty.string_of_uint d) = Some c ∧ c ≠ "t"%char).
  { clear. induction d as [|d IH|d IH|d IH|d IH|d IH|d IH|d IH|d IH|d IH|d IH]; [by left|..];
      right; (destruct IH as [->|(c & Hc & Hne)]; [by eexists|]); exists c; (split; [|done]);
      cbn; destruct (DecimalString.NilEmpty.string_of_uint d); done. }
  intros Hd. destruct (Hall d) as [->|Hc]; [done|]. by destruct d.
Qed.

(** An id that ends in a number is no result key. *)
Lemma wf_id_number prefix n : wf_id (prefix +:+ dec n).
Proof.
  unfold wf_id. destruct (cut_suffix ":result" (prefix +:+ dec n)) as [t|] eqn:E; [|done].
  apply cut_suffix_Some, (f_equal last_char) in E. exfalso. revert E.
  rewrite (last_char_tail t ":result"), last_char_tail by (done || apply dec_ne_empty).
  unfold dec. destruct (to_int_not_nil n) as [Hp Hn].
  destruct (Z.to_int n) as [d|d]; cbn [DecimalString.NilZero.string_of_int].
  - destruct (last_char_uint d) as (c & -> & Hne); [congruence|]. cbn. congruence.
  - destruct (last_char_uint d) as (c & Hc & Hne); [congruence|].
    change (String "-" ?s) with ("-" +:+ s). rewrite last_char_tail, Hc by by destruct d. cbn. congruence.
Qed.

Lemma wf_cron_id name n : wf_id (cron_id name n).
Proof.
  assert (Hassoc : ∀ a b c : string, a +:+ (b +:+ c) = (a +:+ b) +:+ c)
    by (intros a b c; induction a as [|x a IH]; [done|exact (f_equal (String x) IH)]).
  assert (cron_id name n = ("cron:" +:+ (name +:+ ":")) +:+ dec n) as ->; [|apply wf_id_number].
  unfold cron_id. by rewrite <-(Hassoc "cron:"), <-(Hassoc name).
Qed.
