(* ===== verification/RateLimit.v ===== *)
(** * RateLimit: the token bucket, [internal/ratelimit/limiter.go]

    Lua's numbers are doubles.  The bucket computes with fractions, so a number
    is here a rational, an infinity or not a number; [f64] rounds to the nearest
    double.  How a double is written in a hash field and read back is the class
    [LuaFloats]. *)
From S2P Require Import Prelude Float Keys Redis Lua Keyspace Queue.
From Stdlib Require Import QArith Qround.

Open Scope string_scope.
Open Scope Z_scope.

(** ** Lua's numbers *)

(** The nearest double, as a reduced fraction. *)
Definition f64 (q : Q) : Q := Qred (rnd64 q).

Inductive lnum : Type :=
  | Fin (q : Q)
  | Inf (negative : bool)
  | NaN.

Definition one : lnum := Fin 1.
Definition negative_q (q : Q) : bool := Qnum q <? 0.
Definition zero_q (q : Q) : bool := Qnum q =? 0.

Definition fadd (x y : lnum) : lnum :=
  match x, y with
  | Fin a, Fin b => Fin (f64 (a + b))
  | Inf s, Inf t => if eqb s t then Inf s else NaN
  | Inf s, Fin _ | Fin _, Inf s => Inf s
  | NaN, _ | _, NaN => NaN
  end.

Definition fopp (x : lnum) : lnum :=
  match x with Fin a => Fin (- a) | Inf s => Inf (negb s) | NaN => NaN end.

Definition fsub (x y : lnum) : lnum := fadd x (fopp y).

Definition fmul (x y : lnum) : lnum :=
  match x, y with
  | Fin a, Fin b => Fin (f64 (a * b))
  | Inf s, Inf t => Inf (xorb s t)
  | Inf s, Fin a | Fin a, Inf s => if zero_q a then NaN else Inf (xorb s (negative_q a))
  | NaN, _ | _, NaN => NaN
  end.

(** No divisor of the script is a negative zero. *)
Definition fdiv (x y : lnum) : lnum :=
  match x, y with
  | Fin a, Fin b =>
      if zero_q b then if zero_q a then NaN else Inf (negative_q a) else Fin (f64 (a / b))
  | Inf s, Fin b => Inf (xorb s (negative_q b))
  | Fin _, Inf _ => Fin 0
  | Inf _, Inf _ | NaN, _ | _, NaN => NaN
  end.

(** [x < y] and [x <= y]: false when either is not a number. *)
Definition flt (x y : lnum) : bool :=
  match x, y with
  | Fin a, Fin b => negb (Qle_bool b a)
  | Inf s, Inf t => s && negb t
  | Inf s, Fin _ => s
  | Fin _, Inf t => negb t
  | NaN, _ | _, NaN => false
  end.

Definition fle (x y : lnum) : bool :=
  match x, y with
  | Fin a, Fin b => Qle_bool a b
  | Inf s, Inf t => s || negb t
  | Inf s, Fin _ => s
  | Fin _, Inf t => negb t
  | NaN, _ | _, NaN => false
  end.

(** [math.min(x, y)] keeps its first argument unless the second is smaller. *)
Definition fmin (x y : lnum) : lnum := if flt y x then y else x.

Definition ffloor (x : lnum) : lnum := match x with Fin a => Fin (inject_Z (Qfloor a)) | _ => x end.
Definition fceil (x : lnum) : lnum := match x with Fin a => Fin (inject_Z (Qceiling a)) | _ => x end.

(** How Lua reads and [redis.call] writes a number.  A double is written with
    enough digits to be read back. *)
Class LuaFloats : Type := {
  tonumberf : string → option lnum;
  tostringf : lnum → string;
  (* the integer reply made of a number that is not finite *)
  not_finite : Z
}.

Class LuaFloatLaws `{LuaFloats} : Prop := {
  tonumberf_dec z : safe_int z → tonumberf (dec z) = Some (Fin (inject_Z z));
  tonumberf_tostringf z : safe_int z → tonumberf (tostringf (Fin (inject_Z z))) = Some (Fin (inject_Z z));
  tonumberf_double q : tonumberf (tostringf (Fin (f64 q))) = Some (Fin (f64 q))
}.

(** ** The limiter *)

Record Result : Type := { Allowed : bool; Remaining : Z; RetryIn : Z }.

Section Limiter.
Context {S : Type} `{Redis S} `{LuaFloats}.

(** The integer an integer reply, or an integer argument, makes of a number. *)
Definition to_integer (x : lnum) : Z :=
  match x with Fin a => ftrunc a | _ => not_finite end.

Definition fnum (x : option lnum) : M S string lnum :=
  match x with
  | Some x => mret x
  | None => throw "attempt to perform arithmetic on a nil value"
  end.

(** [tonumber(redis.call("HGET", ...))]: nil for a missing field. *)
Definition reply_float (r : reply) : option lnum :=
  match r with RBulk s => tonumberf s | _ => None end.

(** The two HSET and PEXPIRE calls at the end of both branches. *)
Definition save_bucket (key : string) (tokens lastRefill intervalMs : lnum) : M S string unit :=
  redis_call (HSET key [("tokens", tostringf tokens); ("last_refill", tostringf lastRefill)]) ;;
  redis_call (PEXPIRE key (to_integer (fmul intervalMs (Fin 2)))) ;;
  mret tt.

Definition tokenBucketScript (key max intervalMs nowMs : string) : M S string (Z * Z) :=
  max ← fnum (tonumberf max);
  intervalMs ← fnum (tonumberf intervalMs);
  nowMs ← fnum (tonumberf nowMs);
  tokens ← redis_call (HGET key "tokens");
  lastRefill ← redis_call (HGET key "last_refill");
  let '(tokens, lastRefill) :=
    match reply_float tokens with
    | None => (max, Some nowMs)
    | Some tokens => (tokens, reply_float lastRefill)
    end in
  lastRefill ← fnum lastRefill;
  let elapsed := fsub nowMs lastRefill in
  let refillRate := fdiv max intervalMs in
  let added := fmul elapsed refillRate in
  let tokens := fmin max (fadd tokens added) in
  let lastRefill := nowMs in
  if fle one tokens then
    let tokens := fsub tokens one in
    save_bucket key tokens lastRefill intervalMs ;;
    mret (1, to_integer (ffloor tokens))
  else
    let deficit := fsub one tokens in
    let retryMs := fceil (fdiv deficit refillRate) in
    save_bucket key tokens lastRefill intervalMs ;;
    mret (0, to_integer retryMs).

Definition Allow (now : Z) (kind : string) (max per : Z) : M S error Result :=
  let nowMs := UnixMilli now in
  let intervalMs := Milliseconds per in
  vals ← wrap "winter: rate limit"
    (Run (tokenBucketScript (bucketKey kind) (dec max) (dec intervalMs) (dec nowMs)));
  if decide (vals.1 = 1) then mret {| Allowed := true; Remaining := vals.2; RetryIn := 0 |}
  else mret {| Allowed := false; Remaining := 0; RetryIn := wrap64 (vals.2 * Millisecond) |}.
End Limiter.

(** ** Integers are exact *)

Lemma Qred_int z : Qred (inject_Z z) = inject_Z z.
Proof. by destruct z as [|[]|[]]. Qed.

Lemma f64_int z : safe_int z → f64 (inject_Z z) = inject_Z z.
Proof.
  intros Hz. unfold safe_int in Hz. unfold f64. rewrite <- (Qred_int z) at 2. apply Qred_complete.
  unfold rnd64. cbn [Qnum Qden inject_Z]. destruct (Z.eqb_spec (Z.abs z) 0) as [E|E].
  { by replace z with 0 by lia. }
  set (n := Z.abs z) in *. assert (Hn : 0 < n) by lia.
  assert (Hv : z = Z.sgn z * n) by (unfold n; lia).
  assert (He : ulp_exp n 1 ≤ 1 ∧ (ulp_exp n 1 = 1 → n = 2 ^ 53)).
  { unfold ulp_exp. change (Z.log2 1) with 0. pose proof (Z.log2_spec n Hn) as [Hl1 Hl2].
    destruct (decide (n = 2 ^ 53)) as [->|Hne]; [done|].
    assert (Z.log2 n < 53) by (apply Z.log2_lt_pow2; lia). repeat case_match; lia. }
  destruct He as [He1 He2]. destruct (decide (ulp_exp n 1 = 1)) as [E1|E1].
  { pose proof (He2 E1) as En. rewrite E1. clearbody n. subst n. unfold significand, dyadic. rewrite !(proj2 (Z.leb_le 0 1)) by lia.
    change (round_div (2 ^ 53) (1 * 2 ^ 1)) with (2 ^ 52). unfold Qeq, inject_Z. cbn [Qnum Qden]. lia. }
  unfold significand, dyadic. destruct (Z.leb_spec 0 (ulp_exp n 1)) as [He|He].
  - assert (ulp_exp n 1 = 0) as -> by lia. change (1 * 2 ^ 0) with 1.
    rewrite <- (Z.mul_1_r n), round_div_exact by lia. unfold Qeq, inject_Z. cbn [Qnum Qden]. lia.
  - rewrite <- (Z.mul_1_r (n * 2 ^ (- ulp_exp n 1))), round_div_exact by lia.
    assert (0 < 2 ^ (- ulp_exp n 1)) by (apply Z.pow_pos_nonneg; lia).
    unfold Qeq, inject_Z. cbn [Qnum Qden]. rewrite Z2Pos.id by done. rewrite Hv. nia.
Qed.

Lemma fadd_int a b : safe_int (a + b) →
  fadd (Fin (inject_Z a)) (Fin (inject_Z b)) = Fin (inject_Z (a + b)).
Proof.
  intros Hs. cbn [fadd].
  replace (inject_Z a + inject_Z b)%Q with (inject_Z (a + b)); [by rewrite f64_int|].
  unfold inject_Z, Qplus. cbn [Qnum Qden]. f_equal. lia.
Qed.

Lemma fsub_int a b : safe_int (a - b) →
  fsub (Fin (inject_Z a)) (Fin (inject_Z b)) = Fin (inject_Z (a - b)).
Proof. intros Hs. unfold fsub. apply (fadd_int a (- b)). by rewrite Z.add_opp_r. Qed.

(** A bucket that has just been refilled gains nothing. *)
Lemma fmul_zero q : fmul (Fin (inject_Z 0)) (Fin q) = Fin (inject_Z 0).
Proof. by destruct q. Qed.

Lemma fle_int a b : fle (Fin (inject_Z a)) (Fin (inject_Z b)) = (a <=? b).
Proof. cbn. unfold Qle_bool, inject_Z. cbn [Qnum Qden]. by rewrite !Z.mul_1_r. Qed.

Lemma fmin_int a b : b ≤ a → fmin (Fin (inject_Z a)) (Fin (inject_Z b)) = Fin (inject_Z b).
Proof.
  intros Hb. unfold fmin, flt, Qle_bool, inject_Z. cbn [Qnum Qden]. rewrite !Z.mul_1_r.
  destruct (Z.leb_spec a b); cbn; [|done]. by replace a with b by lia.
Qed.
