(* ===== verification/RateLimitSpecs.v ===== *)
(** * RateLimitSpecs: what a bucket allows at one instant *)
From S2P Require Import Prelude Float Keys Redis Lua Keyspace Queue QueueSpecs RateLimit.
From Stdlib Require Import QArith.

Open Scope string_scope.
Open Scope Z_scope.

Section Specs.
Context {S : Type} `{RedisLaws S} `{!Reliable S} `{LuaFloatLaws}.

(** The bucket holds [k] tokens as of [now_ms]; an absent one is full. *)
Definition holds (m : keyspace) (kind : string) (max k now_ms : Z) : Prop :=
  let h := hash_at m (bucketKey kind) in
  (h !! "tokens" = None ∧ k = max) ∨
  (h !! "tokens" = Some (tostringf (Fin (inject_Z k))) ∧
   h !! "last_refill" = Some (tostringf (Fin (inject_Z now_ms)))).

Lemma to_integer_int z : to_integer (Fin (inject_Z z)) = z.
Proof. cbn. unfold ftrunc. cbn. apply Z.quot_1_r. Qed.

Lemma fmul_two i : safe_int (2 * i) → fmul (Fin (inject_Z i)) (Fin 2) = Fin (inject_Z (2 * i)).
Proof.
  intros Hi. cbn [fmul]. replace (inject_Z i * 2)%Q with (inject_Z (2 * i)); [by rewrite f64_int|].
  unfold inject_Z, Qmult. cbn [Qnum Qden]. f_equal. lia.
Qed.

(** The contents after saving a bucket. *)
Definition refill_ks (kind : string) (tokens last : lnum) (m : keyspace) : keyspace :=
  hset (bucketKey kind) [("tokens", tostringf tokens); ("last_refill", tostringf last)] m.
Definition bucket_ks (kind : string) (k now_ms : Z) : keyspace → keyspace :=
  refill_ks kind (Fin (inject_Z k)) (Fin (inject_Z now_ms)).

Lemma wf_save_bucket kind tokens last m : wf_store m → wf_store (refill_ks kind tokens last m).
Proof. intros Hm. by apply (wf_store_put m (KRate kind)). Qed.

Lemma wf_bucket kind k now_ms m : wf_store m → wf_store (bucket_ks kind k now_ms m).
Proof. apply wf_save_bucket. Qed.

Lemma holds_bucket kind max k now_ms m : holds (bucket_ks kind k now_ms m) kind max k now_ms.
Proof.
  right. unfold bucket_ks, refill_ks, hset. rewrite hash_at_put_eq. cbn. split.
  - by rewrite lookup_insert_ne, lookup_insert_eq by done.
  - by rewrite lookup_insert_eq.
Qed.

Lemma wp_save_bucket kind tokens last i m Q : wf_store m → 0 < i → safe_int (2 * i) →
  Q (refill_ks kind tokens last m) (Ok tt) →
  wp (S := S) (save_bucket (bucketKey kind) tokens last (Fin (inject_Z i))) Q m.
Proof.
  intros Hm Hi Hs HQ. unfold save_bucket. apply wp_bind, wp_HSET; [|done|intros _].
  { by apply (wf_has_type m (KRate kind)). }
  apply wp_bind. rewrite fmul_two, to_integer_int by done. apply wp_PEXPIRE; [lia|]. by apply wp_ret.
Qed.

(** The interval in milliseconds of a rate of a millisecond or more. *)
Lemma interval_ok per : Millisecond ≤ per ≤ int64_max →
  0 < Milliseconds per ∧ safe_int (Milliseconds per) ∧ safe_int (2 * Milliseconds per).
Proof.
  unfold Milliseconds, Millisecond, safe_int, int64_max. intros Hper. rewrite Z.quot_div_nonneg by lia.
  pose proof (Z.div_str_pos per 1000000 ltac:(lia)).
  pose proof (Z.div_le_upper_bound per 1000000 9223372036855 ltac:(lia) ltac:(lia)). lia.
Qed.

(** Whatever the bucket holds, the script touches nothing else. *)
Lemma wp_bucket_frame now kind max per m : wf_store m → safe_int (UnixMilli now) → safe_int max →
  Millisecond ≤ per ≤ int64_max →
  wp (S := S) (tokenBucketScript (bucketKey kind) (dec max) (dec (Milliseconds per)) (dec (UnixMilli now)))
    (λ m' _, m' = m ∨ ∃ tokens last, m' = refill_ks kind tokens last m) m.
Proof.
  intros Hm Hnow Hmax Hper. destruct (interval_ok per Hper) as (Hi & Hsi & Hsi2).
  pose proof (wf_has_type m (KRate kind) Hm I) as Ht. cbn [render key_type] in Ht.
  unfold tokenBucketScript.
  rewrite !tonumberf_dec by done. do 3 (apply wp_bind, wp_ret; cbv beta iota).
  apply wp_bind, wp_HGET; [done|]. apply wp_bind, wp_HGET; [done|]. cbv beta iota.
  destruct (match reply_float _ with Some _ => _ | None => _ end) as [tokens last].
  apply wp_bind. destruct last as [last|]; [apply wp_ret|apply wp_throw; by left].
  cbv beta iota zeta. case_match; (apply wp_bind, wp_save_bucket; [done..|]); cbv iota; apply wp_ret; eauto.
Qed.

Lemma wp_Allow_frame now kind max per m : wf_store m → safe_int (UnixMilli now) → safe_int max →
  Millisecond ≤ per ≤ int64_max →
  wp (S := S) (Allow now kind max per) (λ m' r,
    (m' = m ∨ ∃ tokens last, m' = refill_ks kind tokens last m) ∧
    (∀ res, r = Ok res → in_int64 (RetryIn res))) m.
Proof.
  intros Hm Hnow Hmax Hper. unfold Allow. apply wp_bind, wp_wrap, wp_Run.
  eapply wp_mono; [by apply wp_bucket_frame|]. cbv beta. intros m' [vals|e] Hm'; [|split; [done|by intros ? [=]]].
  cbv iota. case_decide; apply wp_ret; (split; [done|]); intros res [= <-]; [done|apply wrap64_range].
Qed.

(** One call on a bucket that was refilled in the same millisecond. *)
Lemma wp_Allow_now now kind max per k m Q :
  wf_store m → safe_int (UnixMilli now) → Millisecond ≤ per ≤ int64_max →
  safe_int max → 0 ≤ k ≤ max → holds m kind max k (UnixMilli now) →
  (1 ≤ k → Q (bucket_ks kind (k - 1) (UnixMilli now) m)
     (Ok {| Allowed := true; Remaining := k - 1; RetryIn := 0 |})) →
  (k = 0 → ∀ retry, Q (bucket_ks kind k (UnixMilli now) m)
     (Ok {| Allowed := false; Remaining := 0; RetryIn := retry |})) →
  wp (S := S) (Allow now kind max per) Q m.
Proof.
  intros Hm Hnow Hper Hmax Hk Hb Hyes Hno. unfold Allow. set (now_ms := UnixMilli now) in *.
  destruct (interval_ok per Hper) as (Hi & Hsi & Hsi2). set (i := Milliseconds per) in *. apply wp_bind, wp_wrap, wp_Run. unfold tokenBucketScript.
  rewrite !tonumberf_dec by done. do 3 (apply wp_bind, wp_ret; cbv beta iota).
  pose proof (wf_has_type m (KRate kind) Hm I) as Ht. cbn [render key_type] in Ht.
  apply wp_bind, wp_HGET; [done|]. apply wp_bind, wp_HGET; [done|]. cbv beta iota.
  assert (Hpair : match reply_float (match hash_at m (bucketKey kind) !! "tokens" with
                                     | Some v => RBulk v | None => RNil end) with
    | None => (Fin (inject_Z max), Some (Fin (inject_Z now_ms)))
    | Some tokens => (tokens, reply_float (match hash_at m (bucketKey kind) !! "last_refill" with
                                           | Some v => RBulk v | None => RNil end))
    end = (Fin (inject_Z k), Some (Fin (inject_Z now_ms)))).
  { assert (Hsk : safe_int k) by (unfold safe_int in *; lia).
    destruct Hb as [[-> ->]|[-> ->]]; cbn [reply_float]; [done|]. by rewrite !tonumberf_tostringf. }
  rewrite Hpair. cbv iota. apply wp_bind, wp_ret. cbv iota.
  rewrite fsub_int by (rewrite Z.sub_diag; done). rewrite Z.sub_diag.
  assert (Hrate : ∃ q, fdiv (Fin (inject_Z max)) (Fin (inject_Z i)) = Fin q).
  { cbn [fdiv]. unfold zero_q. cbn [Qnum inject_Z]. rewrite (proj2 (Z.eqb_neq i 0)) by lia. eauto. }
  destruct Hrate as [rate Hrate]. rewrite Hrate, fmul_zero.
  rewrite fadd_int by (unfold safe_int in *; lia). rewrite Z.add_0_r, fmin_int by lia.
  cbv zeta. change one with (Fin (inject_Z 1)). rewrite fle_int.
  destruct (Z.leb_spec 1 k) as [Hk1|Hk1].
  - rewrite fsub_int by (unfold safe_int in *; lia).
    apply wp_bind, wp_save_bucket; [done..|]. cbv iota. apply wp_ret.
    cbn [ffloor]. rewrite Qround.Qfloor_Z, to_integer_int. rewrite decide_True by done.
    apply wp_ret. by apply Hyes.
  - assert (k = 0) as -> by lia.
    apply wp_bind, wp_save_bucket; [done..|]. cbv iota. apply wp_ret.
    rewrite decide_False by done. apply wp_ret. by apply Hno.
Qed.

(** The outcomes of [n] calls in one millisecond on a bucket with [k] tokens. *)
Definition verdicts (n : nat) (k : Z) : list bool :=
  replicate (n `min` Z.to_nat k) true ++ replicate (n - Z.to_nat k) false.

(** A bucket that is full (or does not exist yet) lets exactly its maximum
    through in one instant, the remaining count going down to zero, and denies
    every further call. *)
Theorem burst_exactly_max now kind max per k (n : nat) (m : keyspace) :
  wf_store m → safe_int (UnixMilli now) → Millisecond ≤ per ≤ int64_max →
  safe_int max → 0 ≤ k ≤ max → holds m kind max k (UnixMilli now) →
  wp (S := S) (map_each (seq 0 n) (λ _, Allow now kind max per)) (λ m' r,
    ∃ rs, r = Ok rs ∧ Allowed <$> rs = verdicts n k ∧
      holds m' kind max (Z.max 0 (k - Z.of_nat n)) (UnixMilli now)) m.
Proof.
  intros Hm Hnow Hper Hmax Hk Hb. generalize 0%nat. revert k m Hm Hk Hb.
  induction n as [|n IH]; intros k m Hm Hk Hb i; cbn [seq map_each].
  - apply wp_ret. exists []. split_and!; [done|by destruct (Z.to_nat k)|].
    rewrite Z.max_r, Z.sub_0_r by lia. done.
  - apply wp_bind, (wp_Allow_now now kind max per k); [done..| |].
    + intros Hk1. apply wp_bind. eapply wp_mono.
      { apply (IH (k - 1)); [by apply wf_bucket|lia|apply holds_bucket]. }
      cbv beta. intros m' r (rs & -> & Hrs & Hh). apply wp_ret. eexists. split_and!; [done| |].
      * cbn [fmap list_fmap Allowed]. rewrite Hrs. unfold verdicts.
        replace (Z.to_nat k) with (Datatypes.S (Z.to_nat (k - 1))) by lia. done.
      * by replace (k - Z.of_nat (Datatypes.S n)) with (k - 1 - Z.of_nat n) by lia.
    + intros -> retry. apply wp_bind. eapply wp_mono.
      { apply (IH 0); [by apply wf_bucket|lia|apply holds_bucket]. }
      cbv beta. intros m' r (rs & -> & Hrs & Hh). apply wp_ret. eexists. split_and!; [done| |].
      * cbn [fmap list_fmap Allowed]. rewrite Hrs. unfold verdicts. cbn [Z.to_nat].
        rewrite !Nat.min_0_r, !Nat.sub_0_r. done.
      * replace (Z.max 0 (0 - Z.of_nat (Datatypes.S n))) with (Z.max 0 (0 - Z.of_nat n)) by lia. done.
Qed.
End Specs.
