(* ===== verification/RateLimitBounds.v ===== *)
(** * RateLimitBounds: what a bucket allows over time

    The tokens are doubles, so a refill may gain a little more than the rate
    says.  Every call gains at most the relative error of a few roundings, which
    the bound of this file adds up; the expiry of an idle bucket gains nothing. *)
From S2P Require Import Prelude Float Keys Redis Lua Keyspace Queue QueueSpecs RateLimit RateLimitSpecs.
From Stdlib Require Import QArith Qround Lqa.

Open Scope string_scope.
Open Scope Z_scope.

(** ** Rounding *)

(** Half a unit in the last place of a double, relative to it. *)
Definition eps : Q := 1 # (2 ^ 53).

Lemma f64_bounds q : (0 <= q)%Q → (0 <= f64 q /\ f64 q <= q * (1 + eps))%Q.
Proof.
  intros Hq. unfold f64. rewrite Qred_correct. destruct q as [n d]. unfold Qle in Hq. cbn in Hq.
  destruct (decide (n = 0)) as [->|Hn].
  - change (rnd64 (0 # d)) with (inject_Z 0). split; [apply Qle_refl|]. unfold Qle. cbn [Qnum Qden Qmult inject_Z]. lia.
  - pose proof (rnd64_error_pos n d ltac:(lia)) as He. cbv zeta in He.
    destruct (rnd64 (n # d)) as [rn rd]. cbn [Qnum Qden] in He.
    unfold Qle, eps, Qmult, Qplus. cbn [Qnum Qden]. rewrite !Pos2Z.inj_mul.
    change (Zpos (2 ^ 53)) with (2 ^ 53). change (Zpos 1) with 1. split; nia.
Qed.

Lemma eps_pos : (0 < eps)%Q.
Proof. reflexivity. Qed.

Lemma eps_small : (eps * 1000000 <= 1)%Q.
Proof. unfold Qle. cbn. lia. Qed.

(** The refill of [d] milliseconds at [M] tokens per [I] milliseconds. *)
Lemma refill_bound (M I d : Z) (t : Q) : 0 < M → 0 < I → 0 ≤ d → (0 <= t /\ t <= inject_Z M)%Q →
  let rate := (inject_Z M / inject_Z I)%Q in
  let sum := f64 (t + f64 (inject_Z d * f64 rate)) in
  (0 <= sum /\ sum <= t + eps * inject_Z M + inject_Z d * rate * (1 + 4 * eps))%Q.
Proof.
  intros HM HI Hd [Ht0 HtM] rate. cbv zeta.
  assert (Hr0 : (0 <= rate)%Q).
  { unfold rate. apply Qle_shift_div_l; [by rewrite <- (Zlt_Qlt 0)|]. rewrite Qmult_0_l. by rewrite <- (Zle_Qle 0); lia. }
  assert (Hd0 : (0 <= inject_Z d)%Q) by (rewrite <- (Zle_Qle 0); lia).
  destruct (f64_bounds rate Hr0) as [Hr1 Hr2]. set (r := f64 rate) in *.
  assert (Hp0 : (0 <= inject_Z d * r)%Q) by (apply Qmult_le_0_compat; done).
  destruct (f64_bounds _ Hp0) as [Ha1 Ha2]. set (a := f64 (inject_Z d * r)) in *.
  destruct (f64_bounds (t + a)) as [Hs1 Hs2]; [lra|]. split; [done|].
  set (g := (inject_Z d * rate)%Q) in *. assert (Hg0 : (0 <= g)%Q) by (apply Qmult_le_0_compat; done).
  assert (Hdr : (inject_Z d * r <= g * (1 + eps))%Q).
  { unfold g. rewrite <- Qmult_assoc. rewrite (Qmult_comm (inject_Z d)), (Qmult_comm (inject_Z d)).
    by apply Qmult_le_compat_r. }
  pose proof eps_pos as He0. pose proof eps_small as He1. set (e := eps) in *. set (m := inject_Z M) in *.
  assert (Hcube : ((1 + e) * (1 + e) * (1 + e) <= 1 + 4 * e)%Q) by nra.
  assert (Ha : (a * (1 + e) <= g * ((1 + e) * (1 + e) * (1 + e)))%Q).
  { assert (E : (g * ((1 + e) * (1 + e) * (1 + e)) == g * (1 + e) * (1 + e) * (1 + e))%Q) by ring. rewrite E.
    apply Qmult_le_compat_r; [|lra]. eapply Qle_trans; [exact Ha2|]. apply Qmult_le_compat_r; [done|lra]. }
  assert (Hg4 : (g * ((1 + e) * (1 + e) * (1 + e)) <= g * (1 + 4 * e))%Q).
  { rewrite !(Qmult_comm g). by apply Qmult_le_compat_r. }
  assert (Het : (e * t <= e * m)%Q) by (rewrite !(Qmult_comm e); apply Qmult_le_compat_r; lra).
  change (inject_Z d * rate)%Q with g. lra.
Qed.

(** A token is taken. *)
Lemma take_bound M t : safe_int M → (1 <= t /\ t <= inject_Z M)%Q →
  (0 <= f64 (t - 1) /\ f64 (t - 1) <= t - 1 + eps * inject_Z M /\ f64 (t - 1) <= inject_Z M)%Q.
Proof.
  intros HM [Ht1 HtM]. destruct (f64_bounds (t - 1)) as [H1' H2']; [lra|]. set (s := f64 (t - 1)) in *.
  assert (HM' : (eps * inject_Z M <= 1)%Q).
  { unfold Qle, eps, safe_int in *. cbn [Qnum Qden Qmult inject_Z]. change (Zpos (2 ^ 53)) with (2 ^ 53) in *. lia. }
  pose proof eps_pos as He0. set (e := eps) in *. set (m := inject_Z M) in *.
  assert (Het : (e * (t - 1) <= e * m)%Q) by (rewrite !(Qmult_comm e); apply Qmult_le_compat_r; lra).
  split; [done|]. split; lra.
Qed.

(** ** One call *)

Section Bounds.
Context {S : Type} `{RedisLaws S} `{!Reliable S} `{LuaFloatLaws}.
Context (kind : string) (max per : Z).
Context (Hmax : 0 < max) (Hsafe : safe_int max) (Hper : Millisecond ≤ per ≤ int64_max).

(** The bucket holds [t] tokens as of the millisecond [last]; an absent one is full. *)
Definition level (m : keyspace) (t : Q) (last : Z) : Prop :=
  let h := hash_at m (bucketKey kind) in
  (h !! "tokens" = None ∧ t = inject_Z max) ∨
  ((∃ s, h !! "tokens" = Some s ∧ tonumberf s = Some (Fin t)) ∧
   h !! "last_refill" = Some (tostringf (Fin (inject_Z last)))).

Definition in_bucket (t : Q) : Prop := (0 <= t /\ t <= inject_Z max)%Q.

Definition readable (t : Q) : Prop := tonumberf (tostringf (Fin t)) = Some (Fin t).

(** Tokens per millisecond. *)
Definition rate : Q := (inject_Z max / inject_Z (Milliseconds per))%Q.

(** The tokens after the refill. *)
Lemma refilled t d : 0 ≤ d → in_bucket t →
  ∃ t1, fmin (Fin (inject_Z max)) (fadd (Fin t) (fmul (Fin (inject_Z d))
          (fdiv (Fin (inject_Z max)) (Fin (inject_Z (Milliseconds per)))))) = Fin t1 ∧
    in_bucket t1 ∧ readable t1 ∧ (t1 <= t + eps * inject_Z max + inject_Z d * rate * (1 + 4 * eps))%Q.
Proof.
  intros Hd Ht. destruct (interval_ok per Hper) as (Hi & _ & _).
  pose proof (refill_bound max (Milliseconds per) d t Hmax Hi Hd Ht) as Hb. cbv zeta in Hb.
  fold rate in Hb. assert (Hz : zero_q (inject_Z (Milliseconds per)) = false).
  { unfold zero_q. cbn [Qnum inject_Z]. by apply Z.eqb_neq; lia. }
  cbn [fdiv]. rewrite Hz. cbn [fmul fadd]. fold rate.
  set (sum := f64 (t + f64 (inject_Z d * f64 rate))) in *. destruct Hb as [Hs0 Hs1].
  unfold fmin. cbn [flt]. destruct (Qle_bool (inject_Z max) sum) eqn:E; cbn [negb].
  - exists (inject_Z max). apply Qle_bool_iff in E. split; [done|]. split; [|split].
    + split; [|apply Qle_refl]. rewrite <- (Zle_Qle 0). lia.
    + by apply tonumberf_tostringf.
    + by eapply Qle_trans.
  - exists sum. split; [done|]. split; [|split; [apply tonumberf_double|done]].
    split; [done|]. apply Qlt_le_weak, Qnot_le_lt. intros Hle. apply Qle_bool_iff in Hle. congruence.
Qed.

Lemma eps_max : (0 <= eps * inject_Z max)%Q.
Proof. apply Qmult_le_0_compat; [done|]. rewrite <- (Zle_Qle 0). lia. Qed.

(** A longer wait gains more. *)
Lemma gain_mono d d' : 0 ≤ d ≤ d' →
  (inject_Z d * rate * (1 + 4 * eps) <= inject_Z d' * rate * (1 + 4 * eps))%Q.
Proof.
  intros Hd. destruct (interval_ok per Hper) as (Hi & _ & _). apply Qmult_le_compat_r; [|done].
  apply Qmult_le_compat_r; [rewrite <- Zle_Qle; lia|]. unfold rate.
  apply Qle_shift_div_l; [by rewrite <- (Zlt_Qlt 0)|]. rewrite Qmult_0_l. rewrite <- (Zle_Qle 0). lia.
Qed.

(** The bucket that a call leaves. *)
Lemma level_refill t now_ms m : readable t →
  level (refill_ks kind (Fin t) (Fin (inject_Z now_ms)) m) t now_ms.
Proof.
  intros Hr. right. unfold refill_ks, hset. rewrite hash_at_put_eq. cbn. split.
  - exists (tostringf (Fin t)). by rewrite lookup_insert_ne, lookup_insert_eq by done.
  - by rewrite lookup_insert_eq.
Qed.

(** A whole interval fills the bucket. *)
Lemma full_gain d : Milliseconds per ≤ d →
  (inject_Z max <= inject_Z d * rate * (1 + 4 * eps))%Q.
Proof.
  intros Hd. destruct (interval_ok per Hper) as (Hi & _ & _).
  eapply Qle_trans; [|apply (gain_mono (Milliseconds per) d); lia].
  assert (E : (inject_Z (Milliseconds per) * rate == inject_Z max)%Q).
  { unfold rate. field. intros E. apply (Qlt_irrefl 0). rewrite <- E at 2. by rewrite <- (Zlt_Qlt 0). }
  rewrite E. assert (0 <= inject_Z max)%Q by (rewrite <- (Zle_Qle 0); lia). pose proof eps_pos. nra.
Qed.

(** What a call gives: a verdict, and tokens that pay for it. *)
Definition paid (t : Q) (d : Z) (res : Result) (t' : Q) : Prop :=
  let taken := inject_Z (b2z (Allowed res)) in
  in_bucket t' ∧ (taken + t' <= inject_Z max + eps * inject_Z max)%Q ∧
  (taken + t' <= t + 2 * eps * inject_Z max + inject_Z d * rate * (1 + 4 * eps))%Q.

Definition wf_ms (t : Z) : Prop := - 2 ^ 52 ≤ t ≤ 2 ^ 52.

Lemma wp_Allow_step now t last m Q : wf_store m → wf_time now → wf_ms last →
  level m t last → in_bucket t → last ≤ UnixMilli now →
  (∀ t' res m', wf_store m' → paid t (UnixMilli now - last) res t' → level m' t' (UnixMilli now) →
     Q m' (Ok res)) →
  wp (S := S) (Allow now kind max per) Q m.
Proof.
  intros Hm Hnow Hlast Hl Ht Hle HQ. unfold Allow. set (now_ms := UnixMilli now) in *.
  unfold wf_time, wf_ms in *. destruct (interval_ok per Hper) as (Hi & Hsi & Hsi2).
  set (i := Milliseconds per) in *. apply wp_bind, wp_wrap, wp_Run. unfold tokenBucketScript.
  assert (Hsn : safe_int now_ms) by (unfold safe_int; lia).
  assert (Hsl : safe_int last) by (unfold safe_int; lia).
  rewrite !tonumberf_dec by done. do 3 (apply wp_bind, wp_ret; cbv beta iota).
  pose proof (wf_has_type m (KRate kind) Hm I) as Hty. cbn [render key_type] in Hty.
  apply wp_bind, wp_HGET; [done|]. apply wp_bind, wp_HGET; [done|]. cbv beta iota.
  assert (Hpair : ∃ last', match reply_float (match hash_at m (bucketKey kind) !! "tokens" with
                                     | Some v => RBulk v | None => RNil end) with
    | None => (Fin (inject_Z max), Some (Fin (inject_Z now_ms)))
    | Some tokens => (tokens, reply_float (match hash_at m (bucketKey kind) !! "last_refill" with
                                           | Some v => RBulk v | None => RNil end))
    end = (Fin t, Some (Fin (inject_Z last'))) ∧ last ≤ last' ≤ now_ms ∧ safe_int last').
  { destruct Hl as [[-> ->]|[(s & -> & Hs) ->]]; cbn [reply_float].
    - exists now_ms. split; [done|split; [lia|done]].
    - exists last. rewrite Hs, tonumberf_tostringf by done. split; [done|split; [lia|done]]. }
  destruct Hpair as (last' & -> & Hlast' & Hsl'). cbv iota. apply wp_bind, wp_ret. cbv iota.
  rewrite fsub_int by (unfold safe_int in *; lia). set (d := now_ms - last').
  destruct (refilled t d ltac:(lia) Ht) as (t1 & E1 & Ht1 & Hread & Hgain). fold i in E1. rewrite E1.
  assert (Hd : 0 ≤ d ≤ now_ms - last) by lia. pose proof (gain_mono d (now_ms - last) Hd) as Hmono.
  pose proof eps_max as Hm0.
  cbv zeta. change one with (Fin 1). cbn [fle]. destruct (Qle_bool 1 t1) eqn:Eone.
  - apply Qle_bool_iff in Eone. destruct Ht1 as [_ Ht1].
    destruct (take_bound max t1 Hsafe (conj Eone Ht1)) as (Hs0 & Hs1 & Hs2).
    change (fsub (Fin t1) (Fin 1)) with (Fin (f64 (t1 - 1))).
    apply wp_bind, wp_save_bucket; [done..|]. cbv iota. apply wp_ret. rewrite decide_True by done.
    apply wp_ret. apply (HQ (f64 (t1 - 1))); [by apply wf_save_bucket| |apply level_refill, tonumberf_double].
    unfold paid. cbn [Allowed b2z]. change (inject_Z 1) with 1%Q. split; [by split|]. split; lra.
  - apply wp_bind, wp_save_bucket; [done..|]. cbv iota. apply wp_ret. rewrite decide_False by done.
    apply wp_ret. apply (HQ t1); [by apply wf_save_bucket| |by apply level_refill].
    unfold paid. cbn [Allowed b2z]. change (inject_Z 0) with 0%Q. split; [done|]. destruct Ht1. split; lra.
Qed.

(** ** A stretch of calls *)

(** What may happen to the bucket between the call at [last] and the next one at
    [now], in milliseconds: nothing, while the rest of the store may change; or it
    expires, which takes it longer than the interval. *)
Definition lull (last now : Z) (s s' : S) : Prop :=
  wf_store (ks s') ∧ last ≤ now ∧
  (hash_at (ks s') (bucketKey kind) = hash_at (ks s) (bucketKey kind) ∨
   (hash_at (ks s') (bucketKey kind) = ∅ ∧ last + Milliseconds per ≤ now)).

(** Calls of [Allow], from the time [last] to the time of the last one. *)
Inductive traffic : Z → S → Z → S → list (result error Result) → Prop :=
  | traffic_none last s : traffic last s last s []
  | traffic_call last s s1 now s2 r last' s' rs :
      lull last (UnixMilli now) s s1 → wf_time now →
      Allow now kind max per s1 = (s2, r) →
      traffic (UnixMilli now) s2 last' s' rs →
      traffic last s last' s' (r :: rs).

Definition was_allowed (r : result error Result) : bool :=
  match r with Ok res => Allowed res | Err _ => false end.

Definition allowed (rs : list (result error Result)) : Z := Z.of_nat (length (filter was_allowed rs)).

Lemma allowed_cons r rs : allowed (r :: rs) = b2z (was_allowed r) + allowed rs.
Proof. unfold allowed. rewrite filter_cons. destruct (was_allowed r); cbn [b2z]; case_decide; cbn in *; try done; lia. Qed.

(** A bucket that expired is full, which the wait has paid for. *)
Lemma call_paid last now s s1 t : lull last (UnixMilli now) s s1 → wf_time now → wf_ms last →
  level (ks s) t last → in_bucket t →
  wp (S := S) (Allow now kind max per) (λ m' r,
    wf_store m' ∧ ∃ t' res, r = Ok res ∧ in_bucket t' ∧ level m' t' (UnixMilli now) ∧
      (inject_Z (b2z (Allowed res)) + t' <=
       t + 2 * eps * inject_Z max + inject_Z (UnixMilli now - last) * rate * (1 + 4 * eps))%Q) (ks s1).
Proof.
  intros (Hm & Hle & Hh) Hnow Hlast Hl Ht. pose proof Ht as [Ht0 Ht1].
  destruct Hh as [Hh|[Hh Hi]].
  - apply (wp_Allow_step now t last); [done..| | |done|].
    + unfold level. by rewrite Hh.
    + done.
    + intros t' res m' Hm' (Hb & _ & Hp) Hl'. split; [done|]. by exists t', res.
  - apply (wp_Allow_step now (inject_Z max) last); [done..| | |done|].
    + left. by rewrite Hh.
    + split; [|apply Qle_refl]. rewrite <- (Zle_Qle 0). lia.
    + intros t' res m' Hm' (Hb & Hp & _) Hl'. split; [done|]. exists t', res. split_and!; [done..|].
      pose proof (full_gain (UnixMilli now - last) ltac:(lia)) as Hg. pose proof eps_max. lra.
Qed.

(** C38: In a stretch of calls that starts with [t] tokens, the calls that are allowed
    are at most those tokens and what the rate gives in the time it takes, each
    call adding the roundings of a double.  Every call gets a verdict. *)
Theorem allowed_bound last s last' s' rs t :
  traffic last s last' s' rs → wf_ms last → level (ks s) t last → in_bucket t →
  (∃ results, rs = Ok <$> results) ∧
  (inject_Z (allowed rs) <= t + inject_Z (last' - last) * rate * (1 + 4 * eps) +
     inject_Z (Z.of_nat (length rs)) * (2 * eps * inject_Z max))%Q.
Proof.
  intros Htr. revert t. induction Htr as [last s|last s s1 now s2 r last' s' rs Hl Hnow Hr Htr IH]; intros t Hlast Hlv Ht.
  - split; [by exists []|]. destruct Ht as [Ht _]. rewrite Z.sub_diag.
    change (inject_Z (allowed [])) with 0%Q. change (inject_Z 0) with 0%Q. cbn [length]. change (inject_Z (Z.of_nat 0)) with 0%Q. lra.
  - pose proof (call_paid last now s s1 t Hl Hnow Hlast Hlv Ht s1 eq_refl) as Hc. rewrite Hr in Hc. cbn [fst snd] in Hc.
    destruct Hc as (Hm' & t' & res & -> & Ht' & Hlv' & Hp).
    destruct (IH t') as [(results & ->) Hb]; [unfold wf_ms, wf_time in *; lia|done..|].
    split; [by exists (res :: results)|]. rewrite allowed_cons. cbn [was_allowed length].
    rewrite inject_Z_plus, Nat2Z.inj_succ, <- Z.add_1_r, inject_Z_plus.
    assert (E : (inject_Z (last' - last) == inject_Z (last' - UnixMilli now) + inject_Z (UnixMilli now - last))%Q).
    { rewrite <- inject_Z_plus. by replace (last' - UnixMilli now + (UnixMilli now - last)) with (last' - last) by lia. }
    rewrite E. change (inject_Z 1) with 1%Q. lra.
Qed.
End Bounds.
