(* ===== verification/Moves.v ===== *)
(** * Moves: what programs do to the server, whatever the network does

    A program moves a server from a state to another.  [moves R] says that it
    only does so along the preorder [R]; [stable P], the special case of a
    predicate that is kept.  The rules walk through a program command by
    command, without looking at the contents. *)
From S2P Require Import Prelude Float Keys Redis Lua Keyspace Job Scripts Queue ScriptSpecs QueueSpecs Places.

Open Scope string_scope.
Open Scope Z_scope.

(** ** Moving along a preorder *)

Section Moves.
Context {S : Type} `{Redis S}.

Definition moves (R : relation S) {E A} (c : M S E A) : Prop := ∀ s, R s (c s).1.

Context (R : relation S) `{!PreOrder R}.

Lemma moves_ret {E A} (a : A) : moves R (mret a : M S E A).
Proof. intros s. cbn. reflexivity. Qed.

Lemma moves_throw {E A} (e : E) : moves R (throw e : M S E A).
Proof. intros s. cbn. reflexivity. Qed.

Lemma moves_bind {E A B} (c : M S E A) (f : A → M S E B) :
  moves R c → (∀ a, moves R (f a)) → moves R (mbind f c).
Proof.
  intros Hc Hf s. specialize (Hc s). unfold mbind, M_bind.
  destruct (c s) as [s' [a|e]]; [|exact Hc]. transitivity s'; [exact Hc|apply Hf].
Qed.

Lemma moves_try {E E' A} (c : M S E A) : moves R c → moves R (try c : M S E' (result E A)).
Proof. intros Hc s. specialize (Hc s). unfold try. by destruct (c s). Qed.

Lemma moves_num x : moves R (num x).
Proof. destruct x; [apply moves_ret|apply moves_throw]. Qed.

Lemma moves_for_each {E A} (l : list A) (body : A → M S E unit) :
  (∀ x, x ∈ l → moves R (body x)) → moves R (for_each l body).
Proof.
  induction l as [|x l IH]; intros Hb; [apply moves_ret|]. apply moves_bind; [apply Hb; by left|].
  intros _. apply IH. intros y Hy. apply Hb. by right.
Qed.

Lemma moves_map_each {E A B} (l : list A) (body : A → M S E B) :
  (∀ x, x ∈ l → moves R (body x)) → moves R (map_each l body).
Proof.
  induction l as [|x l IH]; intros Hb; [apply moves_ret|]. cbn. apply moves_bind; [apply Hb; by left|].
  intros y. apply moves_bind; [|intros ys; apply moves_ret]. apply IH. intros z Hz. apply Hb. by right.
Qed.

Lemma moves_call (c : command) : (∀ s, R s (exec c s).1) → moves R (redis_call c).
Proof.
  intros Hc s. specialize (Hc s). unfold redis_call. by destruct (exec c s) as [s' []].
Qed.

(** Whatever the network does with a script. *)
Lemma moves_Run {A} (script : M S string A) :
  (∀ s, R s (transport s).1) → moves R script → moves R (Run script).
Proof.
  intros Ht Hc s. unfold Run. specialize (Ht s). destruct (transport s) as [s1 d].
  assert (Hiter : ∀ n, R s (Nat.iter n (λ s, (script s).1) s1)).
  { induction n as [|n IH]; [exact Ht|]. cbn [Nat.iter]. etransitivity; [exact IH|apply Hc]. }
  destruct d as [lost|n msg]; [|apply Hiter]. etransitivity; [apply (Hiter lost)|apply Hc].
Qed.

Lemma moves_wrap {A} context (c : M S string A) : moves R c → moves R (wrap context c).
Proof.
  intros Hc. apply moves_bind; [by apply moves_try|].
  intros [a|e]; [apply moves_ret|apply moves_throw].
Qed.

Lemma moves_plain {A} (c : M S string A) : moves R c → moves R (plain c).
Proof.
  intros Hc. apply moves_bind; [by apply moves_try|].
  intros [a|e]; [apply moves_ret|apply moves_throw].
Qed.
End Moves.

(** ** Keeping a predicate *)

Definition keeps {S} (P : S → Prop) : relation S := λ s s', P s → P s'.

#[export] Instance keeps_preorder {S} (P : S → Prop) : PreOrder (keeps P).
Proof. split; [intros s Hs; exact Hs|]. intros s1 s2 s3 H12 H23 H1. by apply H23, H12. Qed.

Abbreviation stable P := (moves (keeps P)).

Lemma stable_at {S E A} (P : S → Prop) (c : M S E A) s : stable P c → P s → P (c s).1.
Proof. intros Hc. apply Hc. Qed.

(** Predicates of the contents, through the rules of [ScriptSpecs.v]. *)
Section Contents.
Context {S : Type} `{RedisLaws S} (I : keyspace → Prop).

Lemma stable_wp {E A} (c : M S E A) :
  (∀ m, I m → wp c (λ m' _, I m') m) → stable (λ s, I (ks s)) c.
Proof. intros Hc s Hs. by apply (Hc (ks s) Hs s). Qed.

Lemma contents_transport s : I (ks s) → I (ks (transport s).1).
Proof. by destruct (law_transport s) as [-> _]. Qed.

(** A command that fails changes nothing. *)
Lemma stable_typed (c : command) :
  (∀ s, I (ks s) → typed_cmd (ks s) c → I (ks (exec c s).1)) →
  stable (λ s, I (ks s)) (redis_call c).
Proof.
  intros Hc. apply (moves_call _). intros s Hs. destruct (decide (typed_cmd (ks s) c)) as [Ht|Ht].
  - by apply Hc.
  - destruct (law_wrongtype s c Ht) as [msg Hmsg]. by rewrite (law_error s c msg Hmsg).
Qed.
End Contents.

(** ** Keys that never expire *)

Section Expiry.
Context {S : Type} `{RedisLaws S}.

(** No key that holds jobs, places or counters has an expiry. *)
Definition lasting (s : S) : Prop := ∀ k, wf_key k → is_place k → expires s !! render k = None.

(** The commands that leave it so. *)
Definition harmless (c : command) : Prop :=
  match c with
  | SET k _ _ _ | PEXPIRE k _ => ∀ k', wf_key k' → is_place k' → render k' ≠ k
  | _ => True
  end.

Lemma lasting_exec c s : harmless c → lasting s → lasting (exec c s).1.
Proof.
  intros Hc Hs k Hk Hp. destruct (decide (render k = cmd_key c)) as [E|Hne].
  - rewrite E. apply law_ttl_keep; [|by rewrite <- E; apply Hs].
    destruct c; try done; by apply (Hc k Hk Hp).
  - rewrite law_ttl_other by done. by apply Hs.
Qed.

Lemma stable_lasting c : harmless c → stable lasting (redis_call c).
Proof. intros Hc. apply (moves_call _). intros s Hs. by apply lasting_exec. Qed.

Lemma lasting_transport s : lasting s → lasting (transport s).1.
Proof.
  intros Hs k Hk Hp. destruct (law_transport s) as (_ & -> & _). by apply Hs.
Qed.

Lemma lasting_advance d s : 0 ≤ d → lasting s → lasting (advance d s).
Proof.
  intros Hd Hs k Hk Hp. rewrite law_advance_ttl by done. apply map_lookup_filter_None.
  left. by apply Hs.
Qed.

(** Expiry touches no place. *)
Lemma Inv_advance d s : 0 ≤ d → lasting s → Inv (ks s) → Inv (ks (advance d s)).
Proof.
  intros Hd Hs HI. apply (Inv_ext (ks s)); [done| |].
  - intros k v Hk Hv. apply (inv_wf _ HI k v Hk). rewrite law_advance in Hv by done.
    by repeat case_match.
  - intros k Hk Hp. rewrite law_advance by done. by rewrite (Hs k Hk Hp).
Qed.
End Expiry.

(** Walks through a program. *)
Ltac moves_step :=
  cbv zeta;
  lazymatch goal with
  | |- moves _ (mbind _ _) => apply moves_bind; [exact _| |intros ?]
  | |- moves _ (mret _) => apply moves_ret; exact _
  | |- moves _ (throw _) => apply moves_throw; exact _
  | |- moves _ (try _) => apply moves_try
  | |- moves _ (num _) => apply moves_num; exact _
  | |- moves _ (for_each _ _) => apply moves_for_each; [exact _|intros ? ?]
  | |- moves _ (map_each _ _) => apply moves_map_each; [exact _|intros ? ?]
  | |- moves _ (wrap _ _) => apply moves_wrap; [exact _|]
  | |- moves _ (plain _) => apply moves_plain; [exact _|]
  | |- moves _ (match ?x with _ => _ end) => destruct x
  end.
