(* ===== verification/Texts.v ===== *)
(** * Texts: the workflow records in the server stay usable

    A worker acts on the record it reads: it enqueues the tasks it finds there.
    What keeps those well formed is an invariant of the stored texts, which no
    command of the program but a save can change. *)
From S2P Require Import Prelude Float Keys Redis Lua Keyspace Job Scripts Queue ScriptSpecs QueueSpecs Places Moves Winter Client Json Workflow WorkflowSpecs.

Open Scope string_scope.
Open Scope Z_scope.

(** The numbers and the queue a task is enqueued with. *)
Definition wf_spec (spec : TaskSpec) : Prop :=
  wf_queue (if decide (sQueue spec = "") then "default" else sQueue spec) ∧
  safe_int (sPriority spec) ∧ safe_int (sMaxRetries spec).

#[export] Instance wf_spec_dec spec : Decision (wf_spec spec).
Proof. unfold wf_spec. apply _. Defined.

Lemma wf_spec_job now id wfid spec : wf_spec spec → wf_time now → wf_id id → wf_wfid wfid →
  wf_record (spec_job now id wfid spec).
Proof.
  intros (Hq & Hp & Hr) Hnow Hid Hw.
  assert (Hret : safe_int (if decide (sMaxRetries spec = 0) then 3 else sMaxRetries spec))
    by (destruct (decide (sMaxRetries spec = 0)); [decide_now|done]).
  assert (H0 : safe_int 0) by decide_now.
  assert (Hc : in_int64 (UnixMilli now)) by (by apply safe_int_in_int64, wf_time_safe).
  exact (conj Hid (conj Hq (conj Hp (conj Hret (conj H0 (conj Hc Hw)))))).
Qed.

Section Texts.
Context {S : Type} `{RedisLaws S} `{JsonLaws WfRecord}.

Record wf_workflow (rec : WfRecord) : Prop := {
  wfw_id : wf_wfid (wID rec);
  wfw_state : wState rec ∈ ["running"; "completed"; "failed"];
  wfw_texts : texts_ok rec;
  wfw_tasks : Forall wf_spec (wTasks rec);
  wfw_callback spec : wCallback rec = Some spec → wf_spec spec
}.

(** The changes an event makes to a record. *)
Lemma wf_set_state st rec : st ∈ ["running"; "completed"; "failed"] → wf_workflow rec →
  wf_workflow (set_state st rec).
Proof. intros Hst [Ha Hb Hc Hd He]. split; try done. Qed.
Lemma wf_set_current n rec : wf_workflow rec → wf_workflow (set_current n rec).
Proof. intros [Ha Hb Hc Hd He]. split; try done. Qed.
Lemma wf_set_done n rec : wf_workflow rec → wf_workflow (set_done n rec).
Proof. intros [Ha Hb Hc Hd He]. split; try done. Qed.

Definition good_text (t : string) : Prop := ∀ rec, unmarshal t = Ok rec → wf_workflow rec.

Lemma good_marshal rec : wf_workflow rec → good_text (marshal rec).
Proof.
  intros Hw rec' Hu. rewrite unmarshal_marshal in Hu; [by injection Hu as <-|].
  pose proof (wfw_texts rec Hw (wState rec) (wCurrent rec) (wDone rec) (wfw_state rec Hw)) as Hv.
  by destruct rec.
Qed.

(** Every workflow a worker can read is well formed. *)
Definition texts (m : keyspace) : Prop :=
  ∀ id t, wf_wfid id → str_at m (workflowKey id) = Some t → good_text t.

(** The commands that keep it so: all but a save of something else and an
    increment of a workflow's key. *)
Definition gentle (c : command) : Prop :=
  match c with
  | SET k v _ _ => ∀ id, wf_wfid id → workflowKey id = k → good_text v
  | INCR k => ∀ id, wf_wfid id → workflowKey id ≠ k
  | _ => True
  end.

Lemma texts_exec c (s : S) : gentle c → texts (ks s) → texts (ks (exec c s).1).
Proof.
  intros Hc Hs id t Hid. unfold str_at. destruct (decide (workflowKey id = cmd_key c)) as [E|Hne].
  - rewrite E. destruct (ks (exec c s).1 !! cmd_key c) as [v|] eqn:Hv; [|done].
    apply law_writes in Hv as [Hv|Hv].
    + destruct v; try done. intros [= <-]. apply (Hs id); [done|]. unfold str_at. by rewrite E, Hv.
    + destruct v; try done. intros [= <-]. destruct c; try done; cbn in *.
      * rewrite Hv. by apply (Hc id).
      * by destruct (Hc id).
  - rewrite law_other by done. by apply Hs.
Qed.

Lemma stable_texts c : gentle c → stable (λ s, texts (ks s)) (redis_call c).
Proof. intros Hc. apply (moves_call _). intros s Hs. by apply texts_exec. Qed.

Lemma texts_transport s : texts (ks s) → texts (ks (transport s).1).
Proof. by destruct (law_transport s) as [-> _]. Qed.

Lemma texts_advance d s : 0 ≤ d → texts (ks s) → texts (ks (advance d s)).
Proof.
  intros Hd Hs id t Hid Ht. apply (Hs id t Hid). revert Ht. unfold str_at.
  rewrite law_advance by done. destruct (expires s !! _) as [x|]; [|done]. by case_decide.
Qed.

Lemma gentle_SET k v nx px : wf_key k → (∀ id, k ≠ KWorkflow id) → gentle (SET (render k) v nx px).
Proof.
  intros Hk Hne id Hid E. by apply (render_inj (KWorkflow id) k) in E as <-; [edestruct Hne|..].
Qed.

Lemma gentle_save id v nx px : good_text v → gentle (SET (workflowKey id) v nx px).
Proof. by intros Hv id' _ _. Qed.

Lemma gentle_count id : gentle (INCR (counterKey id)).
Proof. intros id' Hid. apply (render_ne (KWorkflow id') (KCounter id)); done. Qed.

Lemma gentle_unique uk v nx px : is_unique_key uk → gentle (SET uk v nx px).
Proof.
  intros [->|[u ->]].
  - by intros id Hid.
  - by apply (gentle_SET (KUnique u)).
Qed.
End Texts.
