(* ===== verification/Lifecycle.v ===== *)
(** * Lifecycle: the program's server as a transition system

    Any number of clients, workers, sweepers, schedulers and operators have
    requests under way.  A step is the execution of one request by the server,
    which is atomic, an accident of the network, or the passing of time.  Which
    request is executed when, how often and whether anybody sees the reply is
    left open, so a trace is any interleaving of any such programs over a
    network that may lose, repeat or fail requests at will.  Every reachable
    state satisfies the invariants of [Places.v] and [Texts.v]. *)
From S2P Require Import Prelude Float Keys Redis Lua Keyspace Job Scripts Queue ScriptSpecs QueueSpecs FinishSpecs SweepSpecs Places Winter Client Json Workflow WorkflowSpecs Cron CronSpecs RateLimit RateLimitSpecs Moves Texts.

Open Scope string_scope.
Open Scope Z_scope.

(** ** Requests *)

(** What the program asks of the server: the scripts and commands of the queue,
    of workflows, of the schedule and of the rate limiter. *)
Inductive op : Type :=
  | OEnqueue (job : JobRecord) (uniqKey : string) (uniquePeriod : Z)
  | ODequeue (now : Z) (q w : string)
  | OAck (now : Z) (q j w : string)
  | ONack (now : Z) (q j w errMsg : string) (backoffMs : Z) (skipRetry : bool)
  | OReschedule (q j w : string) (t : Z)
  | OCancel (now : Z) (q j w reason : string)
  | OPromote (now : Z) (q : string) (limit : Z)
  | OExtendLease (now : Z) (q j : string) (extension : Z)
  | ORecover (q : string) (limit nowMs : Z)
  | ORetryDead (q j : string)
  | OPurgeDead (q : string)
  | OPause (q : string)
  | OResume (q : string)
  | OHeartbeat (now : Z) (w : string)
  | OForgetWorker (w : string)
  | OForgetJobs (w : string)
  | OSetResult (j data : string) (ttl : Z)
  | ORead (c : command)
  | OSaveWorkflow (id text : string)
  | OCount (id : string)
  | OAddHeader (id j : string)
  | OHeaderDone (id j : string)
  | OAllow (kind : string) (max per now : Z)
  | OSeed (name state : string)
  | OSwap (name expected new : string).

(** The commands that only look. *)
Definition is_read (c : command) : Prop :=
  match c with
  | EXISTS _ | GET _ | HGET _ _ | HGETALL _ | ZCARD _ | SCARD _ | LLEN _ | LRANGE _ _ _ => True
  | _ => False
  end.

#[export] Instance is_read_dec c : Decision (is_read c).
Proof. destruct c; apply _. Defined.

(** The requests of the queue that move jobs. *)
Definition moves_jobs (o : op) : Prop :=
  match o with
  | OEnqueue _ _ _ | ODequeue _ _ _ | OAck _ _ _ _ | ONack _ _ _ _ _ _ _ | OReschedule _ _ _ _
  | OCancel _ _ _ _ _ | OPromote _ _ _ | OExtendLease _ _ _ _ | ORecover _ _ _ | ORetryDead _ _
  | OPurgeDead _ => True
  | _ => False
  end.

Section System.
Context {S : Type} `{RedisLaws S} `{LuaFloatLaws} `{JsonLaws WfRecord}.

(** Names and numbers in range; states as the client writes them; workflow
    records whose tasks can be enqueued.  Nothing is asked about who calls what
    when. *)
Definition wf_op (o : op) : Prop :=
  match o with
  | OEnqueue job u p => wf_record job ∧ State job ∈ ["pending"; "scheduled"] ∧
      safe_int (unique_slot u p).2
  | ODequeue now q w => wf_queue q ∧ wf_time now
  | OAck now q j w => wf_queue q ∧ wf_id j
  | ONack now q j w e b skip => wf_queue q ∧ wf_id j ∧ wf_time now ∧ - 2 ^ 52 ≤ b ≤ 2 ^ 52
  | OReschedule q j w t => wf_queue q ∧ wf_id j ∧ wf_time t
  | OCancel now q j w reason => wf_queue q ∧ wf_id j
  | OPromote now q limit => wf_queue q ∧ wf_time now ∧ safe_int limit
  | OExtendLease now q j ext => wf_queue q ∧ wf_id j ∧ wf_time (now + ext)
  | ORecover q limit nowMs => wf_queue q ∧ safe_int limit ∧ safe_int nowMs
  | ORetryDead q j => wf_queue q ∧ wf_id j
  | OPurgeDead q | OPause q | OResume q => wf_queue q
  | ORead c => is_read c
  | OSaveWorkflow id text => wf_wfid id ∧ good_text text
  | OAllow kind max per now => safe_int (UnixMilli now) ∧ safe_int max ∧ Millisecond ≤ per ≤ int64_max
  | OHeartbeat _ _ | OForgetWorker _ | OForgetJobs _ | OSetResult _ _ _ | OCount _ | OAddHeader _ _
  | OHeaderDone _ _ | OSeed _ _ | OSwap _ _ _ => True
  end.

(** The execution of a request, with the keys and arguments its caller gives. *)
Definition run_op (o : op) (s : S) : S :=
  match o with
  | OEnqueue job u p => (run_enqueue job (unique_slot u p).1 (unique_slot u p).2 s).1
  | ODequeue now q w =>
      (dequeueScript (readyKey q) (activeKey q) (pausedKey q) (workerJobsKey w) (leaseKey q)
        w (dec (UnixMilli now)) (dec (Milliseconds DefaultLeaseDuration)) s).1
  | OAck now q j w =>
      (ackScript (jobKey j) (activeKey q) (statsKey q) (workerJobsKey w) (leaseKey q)
        j (dec (UnixMilli now)) s).1
  | ONack now q j w e b skip =>
      (nackScript (jobKey j) (activeKey q) (delayedKey q) (deadKey q) (statsKey q)
        (workerJobsKey w) (leaseKey q) j e (dec b) (dec (UnixMilli now)) (dec (b2z skip)) s).1
  | OReschedule q j w t =>
      (rescheduleScript (jobKey j) (activeKey q) (delayedKey q) (workerJobsKey w) (leaseKey q)
        j (dec (UnixMilli t)) s).1
  | OCancel now q j w reason =>
      (cancelScript (jobKey j) (activeKey q) (workerJobsKey w) (leaseKey q)
        j (dec (UnixMilli now)) reason s).1
  | OPromote now q limit =>
      (promoteScript (delayedKey q) (readyKey q) (dec (UnixMilli now)) (dec limit) s).1
  | OExtendLease now q j ext => (extendLeaseScript (leaseKey q) j (dec (UnixMilli (now + ext))) s).1
  | ORecover q limit nowMs =>
      (recoverLeasesScript (leaseKey q) (activeKey q) (readyKey q) (dec nowMs) (dec limit) s).1
  | ORetryDead q j => (retryDeadScript (jobKey j) (deadKey q) (readyKey q) (statsKey q) j s).1
  | OPurgeDead q => (purgeDeadScript (deadKey q) s).1
  | OPause q => (redis_call (SET (pausedKey q) "1" false None) s).1
  | OResume q => (redis_call (DEL (pausedKey q)) s).1
  | OHeartbeat now w => (redis_call (HSET workersKey [(w, dec (UnixMilli now))]) s).1
  | OForgetWorker w => (redis_call (HDEL workersKey w) s).1
  | OForgetJobs w => (redis_call (DEL (workerJobsKey w)) s).1
  | OSetResult j data ttl => (redis_call (SET (resultKey j) data false (expiration ttl)) s).1
  | ORead c => (redis_call c s).1
  | OSaveWorkflow id text => (redis_call (SET (workflowKey id) text false (expiration week)) s).1
  | OCount id => (redis_call (INCR (counterKey id)) s).1
  | OAddHeader id j => (redis_call (SADD (depsKey id) j) s).1
  | OHeaderDone id j => (advanceChordScript (depsKey id) j s).1
  | OAllow kind max per now =>
      (tokenBucketScript (bucketKey kind) (dec max) (dec (Milliseconds per)) (dec (UnixMilli now)) s).1
  | OSeed name state => (redis_call (HSETNX cronKey name state) s).1
  | OSwap name expected new => (compareAndSwapScript cronKey name expected new s).1
  end.

Inductive step : S → S → Prop :=
  | step_op o s : wf_op o → step s (run_op o s)
  | step_net s : step s (transport s).1
  | step_time d s : 0 ≤ d → step s (advance d s).

(** What happens from an empty server on. *)
Inductive reachable : S → Prop :=
  | reachable_init s : ks s = ∅ → expires s = ∅ → reachable s
  | reachable_step s s' : reachable s → step s s' → reachable s'.

(** *** Every request keeps the invariant of the contents *)

(** A command that only looks. *)
Lemma read_same c (s : S) : is_read c → ks (exec c s).1 = ks s.
Proof.
  intros Hc. destruct (decide (typed_cmd (ks s) c)) as [Ht|Ht].
  - destruct c; try done; cbn in Ht.
    + apply law_EXISTS.
    + by apply law_GET.
    + by apply law_HGET.
    + destruct (law_HGETALL s k Ht) as (fvs & _ & Hr). apply Hr.
    + by apply law_ZCARD.
    + by apply law_SCARD.
    + by apply law_LRANGE.
    + by apply law_LLEN.
  - destruct (law_wrongtype s c Ht) as [msg Hmsg]. by apply (law_error s c msg).
Qed.

Lemma call_fst c (s : S) : (redis_call c s).1 = (exec c s).1.
Proof. unfold redis_call. by destruct (exec c s) as [s' []]. Qed.

Lemma good_count id (s : S) : Inv (ks s) → Inv (ks (exec (INCR (counterKey id)) s).1).
Proof.
  intros HI. pose proof (inv_wf _ HI) as Hm. pose proof (law_INCR_error s (counterKey id)) as Herr.
  destruct (counter_of (str_at (ks s) (counterKey id))) as [n|] eqn:Hn.
  - destruct (decide (in_int64 (n + 1))) as [Hr|Hr].
    + destruct (law_INCR s (counterKey id) n) as [-> _]; [by apply (wf_has_type _ (KCounter id))|done|done|].
      apply (Inv_put _ (KCounter id)); [done|exact I|by intros []|]. by apply numeral64_dec_z.
    + destruct (Herr Hr) as [msg Hmsg]. by rewrite (law_error _ _ _ Hmsg).
  - destruct (Herr I) as [msg Hmsg]. by rewrite (law_error _ _ _ Hmsg).
Qed.

(** A request of the queue, through the rule of its script. *)
Lemma good_wp {A} (c : M S string A) s :
  (∀ m, Inv m → wf_store m → wp c (λ m' _, Inv m') m) → Inv (ks s) → Inv (ks (c s).1).
Proof. intros Hc Hs. exact (Hc (ks s) Hs (inv_wf _ Hs) s eq_refl). Qed.

Lemma good_enqueue job u p s : wf_op (OEnqueue job u p) →
  Inv (ks s) → Inv (ks (run_op (OEnqueue job u p) s)).
Proof.
  intros (Hj & Hst & Httl). apply good_wp. intros m HI Hm. pose proof (unique_slot_key u p) as Huk.
  pose proof Hj as (_ & Hq & _). destruct (unique_slot u p) as [uk ttl]. cbn [fst snd] in *.
  apply wp_enqueueScript; [done..|done| |]; intros.
  - by apply Inv_enqueued.
  - apply Inv_hincr; [by apply Inv_enqueued|done|done].
Qed.

Lemma good_nack now q j w e b skip s : wf_op (ONack now q j w e b skip) →
  Inv (ks s) → Inv (ks (run_op (ONack now q j w e b skip) s)).
Proof.
  intros (Hq & Hj & Hnow & Hb). apply good_wp. intros m HI Hm.
  apply wp_nackScript; [done|done|done|eauto with winter|unfold safe_int; lia
    |unfold wf_time, safe_int in *; lia|intros..].
  - by apply Inv_nack_error1.
  - by apply Inv_nack_error2.
  - by eapply Inv_nack_error3.
  - by apply Inv_buried.
  - apply Inv_release; [|done]. apply Inv_hincr; [by apply Inv_buried|done|done].
  - by apply Inv_retried.
Qed.

Lemma good_move o s : moves_jobs o → wf_op o → Inv (ks s) → Inv (ks (run_op o s)).
Proof.
  intros Hmove Ho. destruct o; try done;
    [by apply good_enqueue| | |by apply good_nack|..]; cbn [run_op wf_op] in *; apply good_wp; intros m HI Hm.
  - destruct Ho as (Hq & Hnow).
    apply wp_dequeueScript; [done|done|eauto with winter|done|by apply wf_time_lease|done|done|].
    intros. by apply Inv_dequeued.
  - destruct Ho as (Hq & Hj). apply wp_ackScript; [done..| |]; intros.
    + apply Inv_release; [|done]. apply Inv_hincr; [by apply Inv_acked|done|done].
    + by apply Inv_acked.
  - destruct Ho as (Hq & Hj & Ht). apply wp_rescheduleScript; [done..|eauto with winter|]. by apply Inv_rescheduled.
  - destruct Ho as (Hq & Hj). apply wp_cancelScript; [done..|]. by apply Inv_cancelled.
  - destruct Ho as (Hq & Hnow & Hl). apply wp_promoteScript; [done|done|eauto with winter|done|]. by apply Inv_promoted.
  - destruct Ho as (Hq & Hj & Ht). apply wp_extendLeaseScript; [done|done|eauto with winter|]. by apply Inv_extended.
  - destruct Ho as (Hq & Hl & Hnow). apply wp_recoverLeasesScript; [done..|]. by apply Inv_recovered.
  - destruct Ho as (Hq & Hj). apply wp_retryDeadScript; [done..| | |]; intros.
    + by apply Inv_not_dead.
    + by apply Inv_revived.
    + apply Inv_hincr; [by apply Inv_revived|done|done].
  - apply wp_purgeDeadScript; [done..|]. by apply Inv_purged.
Qed.

(** The others write to keys that are no places. *)
Ltac good_put k := apply (Inv_put _ k); [done|first [exact I|done]|by intros []|first [exact I|done]].

Lemma good_op o s : wf_op o → Inv (ks s) → Inv (ks (run_op o s)).
Proof.
  intros Ho. destruct o; try (apply good_move; [exact I|exact Ho]); cbn [run_op wf_op] in *.
  all: try (apply good_wp; intros m HI Hm).
  - apply wp_SET; [done|]. good_put (KPaused q).
  - apply wp_DEL. apply (Inv_delete m (KPaused q)); [done|done|by intros []].
  - apply wp_HSET; [by apply (wf_has_type m KWorkers)|done|]. intros n. good_put KWorkers.
  - apply wp_HDEL; [by apply (wf_has_type m KWorkers)|]. good_put KWorkers.
  - apply wp_DEL. apply (Inv_delete m (KWorkerJobs w)); [done|exact I|by intros []].
  - apply wp_SET; [|good_put (KResult j)].
    unfold expiration. intros t. case_decide; [|done]. intros [= <-]. lia.
  - intros s' <-. rewrite call_fst, read_same by done. exact HI.
  - destruct Ho as [Hid _]. apply wp_SET; [|good_put (KWorkflow id)].
    unfold expiration. intros t. case_decide; [|done]. intros [= <-]. lia.
  - intros s' <-. rewrite call_fst. by apply good_count.
  - apply wp_SADD; [by apply (wf_has_type m (KDeps id))|]. good_put (KDeps id).
  - unfold advanceChordScript. apply wp_bind, wp_SREM; [by apply (wf_has_type m (KDeps id))|].
    assert (Hi : Inv (put (depsKey id) (RSet (set_at m (depsKey id) ∖ {[j]})) m)) by good_put (KDeps id).
    apply wp_SCARD; [|exact Hi]. apply (wf_has_type _ (KDeps id)); [exact (inv_wf _ Hi)|exact I].
  - destruct Ho as (Hnow & Hmax & Hper). eapply wp_mono; [by apply wp_bucket_frame|]. cbv beta.
    intros m' r [->|(tokens & last & ->)]; [done|]. good_put (KRate kind).
  - apply wp_HSETNX; [by apply (wf_has_type m KCron)|]. case_decide; [done|]. good_put KCron.
  - apply wp_cas; [by apply (wf_has_type m KCron)|]. unfold cas_ks. case_decide; [|done]. good_put KCron.
Qed.

(** *** No request puts an expiry on a place *)

Lemma harmless_SET k v nx px : wf_key k → ¬ is_place k → harmless (SET (render k) v nx px).
Proof.
  intros Hk Hp k' Hk' Hp'. apply render_ne; [done|done|]. by intros ->.
Qed.

Lemma harmless_PEXPIRE k ms : wf_key k → ¬ is_place k → harmless (PEXPIRE (render k) ms).
Proof. intros Hk Hp k' Hk' Hp'. apply render_ne; [done|done|]. by intros ->. Qed.

Lemma harmless_unique uk v nx px : is_unique_key uk → harmless (SET uk v nx px).
Proof.
  intros [->|[u ->]].
  - intros k' Hk' Hp'. by destruct k'.
  - apply (harmless_SET (KUnique u)); [exact I|by intros []].
Qed.

Ltac unfold_scripts :=
  unfold run_enqueue, enqueueScript, dequeueScript, ackScript, nackScript,
    nack_record, nack_choice, nack_dead, nack_retry, rescheduleScript,
    cancelScript, promoteScript, promote_one, extendLeaseScript,
    recoverLeasesScript, recover_one, retryDeadScript, purgeDeadScript, release_unique, priority_or_5,
    advanceChordScript, tokenBucketScript, save_bucket, fnum, compareAndSwapScript in *.

(** A program of commands that are all harmless, all gentle. *)
Ltac lasting_walk := repeat first [apply stable_lasting; try exact I | moves_step].
Ltac gentle_walk := repeat first [apply stable_texts; try exact I | moves_step].

Lemma lasting_op o s : wf_op o → lasting s → lasting (run_op o s).
Proof.
  intros Ho. destruct o as [job u p| | | | | | | | | | |q|q| | | |j data ttl|c|id text| | | | | | ];
    cbn [run_op wf_op] in *; unfold_scripts.
  1: pose proof (unique_slot_key u p) as Huk; destruct (unique_slot u p) as [uk ttl]; cbn [fst snd] in *.
  all: lazymatch goal with |- _ → lasting (?c _).1 => apply (stable_at lasting c) end; lasting_walk.
  - by apply harmless_unique.
  - apply (harmless_SET (KPaused q)); [exact Ho|by intros []].
  - apply (harmless_SET (KResult j)); [exact I|by intros []].
  - by destruct c.
  - apply (harmless_SET (KWorkflow id)); [apply Ho|by intros []].
  - apply (harmless_PEXPIRE (KRate kind)); [exact I|by intros []].
  - apply (harmless_PEXPIRE (KRate kind)); [exact I|by intros []].
Qed.

(** *** No request spoils the text of a workflow *)

Lemma texts_op o s : wf_op o → texts (ks s) → texts (ks (run_op o s)).
Proof.
  intros Ho. destruct o as [job u p| | | | | | | | | | |q|q| | | |j data ttl|c|id text|id| | | | | ];
    cbn [run_op wf_op] in *; unfold_scripts.
  1: pose proof (unique_slot_key u p) as Huk; destruct (unique_slot u p) as [uk ttl]; cbn [fst snd] in *.
  all: lazymatch goal with |- _ → texts (ks (?c _).1) =>
         apply (stable_at (λ s, texts (ks s)) c) end; gentle_walk.
  - by apply gentle_unique.
  - by apply (gentle_SET (KPaused q)).
  - by apply (gentle_SET (KResult j)).
  - by destruct c.
  - apply gentle_save, Ho.
  - apply gentle_count.
Qed.

(** *** Reachable states *)

(** What holds of every state the program reaches. *)
Record sound (s : S) : Prop := {
  sound_inv : Inv (ks s);
  sound_lasting : lasting s;
  sound_texts : texts (ks s)
}.

Lemma sound_step s s' : sound s → step s s' → sound s'.
Proof.
  intros [HI Hl Ht] Hstep. destruct Hstep as [o s Ho|s|d s Hd]; split.
  - by apply good_op.
  - by apply lasting_op.
  - by apply texts_op.
  - by destruct (law_transport s) as [-> _].
  - by apply lasting_transport.
  - by apply texts_transport.
  - by apply Inv_advance.
  - by apply lasting_advance.
  - by apply texts_advance.
Qed.

Lemma reachable_sound s : reachable s → sound s.
Proof.
  induction 1 as [s Hk He|s s' _ IH Hstep]; [|by eapply sound_step].
  split.
  - rewrite Hk. apply Inv_empty.
  - intros k _ _. by rewrite He.
  - intros id t _ Ht. unfold str_at in Ht. by rewrite Hk, lookup_empty in Ht.
Qed.

Lemma reachable_steps s s' : reachable s → rtc step s s' → reachable s'.
Proof. intros Hs Hr. induction Hr; [done|]. eauto using reachable_step. Qed.

(** C32: in every reachable state every key of the program holds a value of its
    kind with well-formed contents: no operation can ever fail for the type of
    a key or for a field that is not a number. *)
Theorem reachable_typed s : reachable s → wf_store (ks s).
Proof. intros Hr. by apply inv_wf, sound_inv, reachable_sound. Qed.

(** C2: in every reachable state a job is active in a queue exactly when it
    holds a lease there, whatever was lost, repeated or raced: every job whose
    worker dies is seen by the recovery sweep. *)
Theorem reachable_leased s q j : reachable s → wf_queue q →
  j ∈ set_at (ks s) (activeKey q) ↔ is_Some (zset_at (ks s) (leaseKey q) !! j).
Proof. intros Hr Hq. apply reachable_sound, sound_inv in Hr. by apply (inv_leased _ Hr). Qed.

(** C1: no job is ever lost.  In every reachable state in which the failure
    counters have not overflowed, a job with a complete record whose state is
    not final can be found where its state says: waiting jobs in a ready or
    delayed set, active ones in an active set (so under a lease), retries in a
    delayed set, dead ones on a dead list. *)
Theorem reachable_placed s j st : reachable s → sound_stats (ks s) → wf_id j → sound_job j (ks s) →
  hash_at (ks s) (jobKey j) !! "state" = Some st → place_of st j (ks s).
Proof. intros Hr Hs Hj Hsj. apply reachable_sound, sound_inv in Hr. by apply (inv_placed _ Hr). Qed.
End System.
