(* ===== verification/Ticks.v ===== *)
(** * Ticks: many servers, one schedule

    Any number of servers tick the same entry, each request of a tick between the
    requests of the others.  A tick stops after every request here; one that
    nobody interrupts is [tick_entry] of [Cron.v]. *)
From S2P Require Import Prelude Float Keys Redis Lua Keyspace Job Scripts Queue ScriptSpecs QueueSpecs EnqueueSpecs Json Cron CronSpecs Moves Lifecycle.

Open Scope string_scope.
Open Scope Z_scope.
Open Scope list_scope.

(** Where a tick stands: before the request it makes next. *)
Inductive tick_stage : Type :=
  | Reads
  | Swaps (raw : string) (state : cronState)
  | Fires (state : cronState)
  | Over.

(** The id of a scheduled job names its activation. *)
Lemma cron_id_inj name : Inj (=) (=) (cron_id name).
Proof.
  intros n n' E. unfold cron_id in E. apply (inj (String.append "cron:")) in E.
  apply (inj (String.append name)) in E. apply (inj (String.append ":")) in E. by apply dec_inj.
Qed.

Section Ticks.
Context {S : Type} `{RedisLaws S} `{CronLib} `{!CronLaws} `{JsonLaws cronState}.

(** One request and what the tick decides on its reply. *)
Definition tick_step (now : Z) (e : parsedEntry) (st : tick_stage) : M S error tick_stage :=
  match st with
  | Reads =>
      read ← read_state (eName (entry e));
      match read with
      | None => mret Over
      | Some (raw, state) =>
          if decide (now < NextRun state * Millisecond) then mret Over else mret (Swaps raw state)
      end
  | Swaps raw state =>
      let newState := {| NextRun := next_ms (Next (sched e) now) |} in
      swapped ← try (compareAndSwap (eName (entry e)) raw (marshal newState));
      match swapped with
      | Ok true => mret (Fires state)
      | _ => mret Over
      end
  | Fires state => try (E := error) (Enqueue (cron_job now (entry e) state) "" 0) ;; mret Over
  | Over => mret Over
  end.

Definition one_tick (now : Z) (e : parsedEntry) : M S error unit :=
  st ← tick_step now e Reads; st ← tick_step now e st; tick_step now e st ;; mret tt.

Lemma one_tick_entry now e s : one_tick now e s = tick_entry now e s.
Proof.
  unfold one_tick, tick_entry. cbn [tick_step]. unfold mbind, M_bind.
  destruct (read_state _ s) as [s1 [[[raw state]|]|err]]; [|done|done].
  case_decide; [done|]. cbn [mret M_ret tick_step]. unfold try, mbind, M_bind.
  destruct (compareAndSwap _ _ _ s1) as [s2 [[]|err]]; cbn [mret M_ret tick_step]; [|done|done].
  unfold try, mbind, M_bind. by destruct (Enqueue _ _ _ s2).
Qed.

(** The job a tick asks the queue to enqueue with its next request. *)
Definition enqueues_next (now : Z) (e : parsedEntry) (st : tick_stage) : list JobRecord :=
  match st with Fires state => [cron_job now (entry e) state] | _ => [] end.

(** The server, the ticks under way with their times, and the jobs that ticks have
    asked to enqueue, the last one first. *)
Definition servers : Type := S * list (Z * tick_stage) * list JobRecord.

(** A server comes to the entry in a tick; a tick proceeds; a server that starts
    seeds the entry; the rest of the system does not touch its field. *)
Inductive ticking (e : parsedEntry) : servers → servers → Prop :=
  | ticking_begins now s ts log : ticking e (s, ts, log) (s, (now, Reads) :: ts, log)
  | ticking_goes i now st s ts log s' r : ts !! i = Some (now, st) → tick_step now e st s = (s', r) →
      ticking e (s, ts, log)
        (s', <[i := (now, match r with Ok st' => st' | Err _ => Over end)]> ts, enqueues_next now e st ++ log)
  | ticking_seed now s ts log :
      ticking e (s, ts, log) ((seedNextRuns now {| entries := [e]; Interval := Second |} s).1, ts, log)
  | ticking_other s s' ts log : stored (ks s') (eName (entry e)) = stored (ks s) (eName (entry e)) →
      has_type (ks s') cronKey THash → ticking e (s, ts, log) (s', ts, log).

(** *** What a tick holds *)

Definition is_due (now : Z) (state : cronState) : Prop := ¬ now < NextRun state * Millisecond.

Definition stage_ok (t : Z * tick_stage) : Prop :=
  match t.2 with
  | Swaps raw state => unmarshal raw = Ok state ∧ is_due t.1 state
  | Fires state => is_due t.1 state
  | Reads | Over => True
  end.

(** The activation a tick has won and not yet enqueued. *)
Definition winning (t : Z * tick_stage) : option Z :=
  match t.2 with Fires state => Some (NextRun state) | _ => None end.

(** The state on the server is beyond [n]. *)
Definition passed (e : parsedEntry) (m : keyspace) (n : Z) : Prop :=
  ∃ raw state, stored m (eName (entry e)) = Some raw ∧ unmarshal raw = Ok state ∧ n < NextRun state.

(** [ns] are the activations whose jobs are in the log. *)
Record ahead (e : parsedEntry) (s : S) (ts : list (Z * tick_stage)) (ns : list Z) (log : list JobRecord) : Prop := {
  ahead_type : has_type (ks s) cronKey THash;
  ahead_stages : Forall stage_ok ts;
  ahead_ids : ID <$> log = cron_id (eName (entry e)) <$> ns;
  ahead_due : Forall (λ job, ∃ now state, job = cron_job now (entry e) state ∧ is_due now state) log;
  ahead_once : NoDup (omap winning ts ++ ns);
  ahead_passed : Forall (passed e (ks s)) (omap winning ts ++ ns)
}.

Lemma passed_frame e m m' n : stored m' (eName (entry e)) = stored m (eName (entry e)) → passed e m n → passed e m' n.
Proof. intros E (raw & st & Hs & Hr). exists raw, st. by rewrite E. Qed.

(** *** Requests that leave the schedule alone *)

Lemma stable_cronKey c v : cmd_key c ≠ cronKey → stable (λ s : S, ks s !! cronKey = v) (redis_call c).
Proof. intros Hc. apply (moves_call _). intros s Hs. rewrite law_other; [done|by apply not_eq_sym]. Qed.

Lemma stable_read c v : is_read c → stable (λ s : S, ks s !! cronKey = v) (redis_call c).
Proof. intros Hc. apply (moves_call _). intros s Hs. by rewrite read_same. Qed.

Lemma cronKey_transport v (s : S) : ks s !! cronKey = v → ks (transport s).1 !! cronKey = v.
Proof. by destruct (law_transport s) as [-> _]. Qed.

Lemma stable_read_state name v : stable (λ s : S, ks s !! cronKey = v) (read_state name).
Proof.
  unfold read_state. moves_step.
  - apply moves_try, moves_Run; [exact _|exact (cronKey_transport v)|by apply stable_read].
  - repeat moves_step.
Qed.

Lemma stable_Enqueue job v : wf_id (ID job) → wf_queue (Job.Queue job) →
  stable (λ s : S, ks s !! cronKey = v) (Enqueue job "" 0).
Proof.
  intros Hid Hq. unfold Enqueue. change (unique_slot "" 0) with ("", 0). cbv iota. moves_step.
  - apply moves_try, moves_Run; [exact _|exact (cronKey_transport v)|].
    unfold run_enqueue, enqueueScript. rewrite decide_True by done.
    pose proof (render_ne (KJob (ID job)) KCron Hid I ltac:(done)).
    pose proof (render_ne (KDelayed (Job.Queue job)) KCron Hq I ltac:(done)).
    pose proof (render_ne (KReady (Job.Queue job)) KCron Hq I ltac:(done)).
    pose proof (render_ne (KStats (Job.Queue job)) KCron Hq I ltac:(done)).
    repeat first [by apply stable_cronKey|moves_step].
  - repeat moves_step.
Qed.

Lemma stored_stable {A} (c : M S error A) s name : (∀ v, stable (λ s : S, ks s !! cronKey = v) c) →
  (has_type (ks s) cronKey THash → has_type (ks (c s).1) cronKey THash) ∧
  stored (ks (c s).1) name = stored (ks s) name.
Proof.
  intros Hc. pose proof (stable_at _ c s (Hc (ks s !! cronKey)) eq_refl) as E. cbv beta in E. split.
  - unfold has_type. by rewrite E.
  - unfold stored, hash_at. by rewrite E.
Qed.

(** *** Every step *)

Lemma winning_split ts i t t' : ts !! i = Some t → ∃ rest,
  omap winning ts ≡ₚ option_list (winning t) ++ rest ∧
  omap winning (<[i := t']> ts) ≡ₚ option_list (winning t') ++ rest.
Proof.
  intros Hi. pose proof (lookup_lt_Some _ _ _ Hi) as Hlt.
  assert (Hone : ∀ x l, omap winning (x :: l) = option_list (winning x) ++ omap winning l)
    by (intros x l; cbn; by destruct (winning x)).
  exists (omap winning (take i ts ++ drop (Datatypes.S i) ts)).
  rewrite <- (take_drop_middle ts i t Hi) at 1. rewrite insert_take_drop by done.
  rewrite !omap_app, !Hone. split; apply Permutation_app_swap_app.
Qed.

(** A tick that wins nothing new. *)
Lemma ahead_quiet e s s' ts ns log i now st st' : ahead e s ts ns log → ts !! i = Some (now, st) →
  stage_ok (now, st') → winning (now, st) = None → winning (now, st') = None →
  has_type (ks s') cronKey THash → Forall (passed e (ks s')) (omap winning ts ++ ns) →
  ahead e s' (<[i := (now, st')]> ts) ns log.
Proof.
  intros [Ht Hst Hid Hdue Hnd Hp] Hi Hok Hw Hw' Ht' Hp'.
  destruct (winning_split ts i _ (now, st') Hi) as (rest & E1 & E2). rewrite Hw in E1. rewrite Hw' in E2.
  split; [done|by apply Forall_insert|done|done|..].
  - by rewrite E2, <- E1.
  - by rewrite E2, <- E1.
Qed.

(** A tick that wins the activation it has read. *)
Lemma ahead_wins e s s' ts ns log i now raw state : ahead e s ts ns log → ts !! i = Some (now, Swaps raw state) →
  is_due now state → stored (ks s) (eName (entry e)) = Some raw → unmarshal raw = Ok state →
  has_type (ks s') cronKey THash → (∀ n, n ≤ NextRun state → passed e (ks s') n) →
  ahead e s' (<[i := (now, Fires state)]> ts) ns log.
Proof.
  intros [Ht Hst Hid Hdue Hnd Hp] Hi Hok Hs Hu Ht' Hp'.
  destruct (winning_split ts i _ (now, Fires state) Hi) as (rest & E1 & E2). cbn [winning snd option_list app] in E1, E2.
  assert (Hlt : Forall (λ n, n < NextRun state) (rest ++ ns)).
  { rewrite <- E1. eapply Forall_impl; [exact Hp|]. intros n (raw' & st' & Hs' & Hu' & Hn).
    rewrite Hs in Hs'. injection Hs' as <-. rewrite Hu in Hu'. by injection Hu' as <-. }
  split; [done|by apply Forall_insert|done|done|..].
  - rewrite E2. cbn. constructor; [|by rewrite <- E1]. intros Hin. rewrite Forall_forall in Hlt.
    specialize (Hlt _ Hin). cbv beta in Hlt. lia.
  - rewrite E2. cbn. constructor; [apply Hp'; lia|]. eapply Forall_impl; [exact Hlt|]. intros n Hn. cbv beta in Hn. apply Hp'. lia.
Qed.

(** A tick that enqueues the activation it has won. *)
Lemma ahead_fires e s s' ts ns log i now state : ahead e s ts ns log → ts !! i = Some (now, Fires state) →
  has_type (ks s') cronKey THash → stored (ks s') (eName (entry e)) = stored (ks s) (eName (entry e)) →
  ahead e s' (<[i := (now, Over)]> ts) (NextRun state :: ns) (cron_job now (entry e) state :: log).
Proof.
  intros [Ht Hst Hid Hdue Hnd Hp] Hi Ht' Hs.
  destruct (winning_split ts i _ (now, Over) Hi) as (rest & E1 & E2). cbn [winning snd option_list app] in E1, E2.
  pose proof (Forall_lookup_1 _ _ _ _ Hst Hi) as Hok.
  split; [done|by apply Forall_insert| | |..].
  - rewrite !fmap_cons, Hid. done.
  - constructor; [by exists now, state|done].
  - rewrite E2, <- Permutation_middle. by rewrite E1 in Hnd.
  - rewrite E2, <- Permutation_middle. rewrite E1 in Hp. eapply Forall_impl; [exact Hp|].
    intros n. by apply passed_frame.
Qed.

Lemma read_state_ok name (s s' : S) raw state : read_state name s = (s', Ok (Some (raw, state))) →
  unmarshal raw = Ok state.
Proof.
  unfold read_state, try, mbind, M_bind. destruct (Run _ s) as [s1 [[]|]]; try done.
  destruct (unmarshal s0) eqn:Hu; [|done]. intros [= <- <- <-]. exact Hu.
Qed.
Context (e : parsedEntry) (Hq : wf_queue (eQueue (entry e)))
  (Hnext : ∀ t, ∃ t', Next (sched e) t = Some t' ∧ valid_text {| NextRun := next_ms (Some t') |}).

Lemma ahead_reads s s' ts ns log i now r : ahead e s ts ns log → ts !! i = Some (now, Reads) →
  tick_step now e Reads s = (s', r) →
  ahead e s' (<[i := (now, match r with Ok st' => st' | Err _ => Over end)]> ts) ns log.
Proof.
  intros Ha Hi Hp. destruct (stored_stable (read_state (eName (entry e))) s (eName (entry e)) (stable_read_state _)) as [Ht Hs].
  cbn [tick_step] in Hp. unfold mbind, M_bind in Hp.
  destruct (read_state _ s) as [s1 r1] eqn:Hr. cbn [fst] in Ht, Hs.
  assert (Hst : s' = s1 ∧ stage_ok (now, match r with Ok st' => st' | Err _ => Over end) ∧
    winning (now, match r with Ok st' => st' | Err _ => Over end) = None).
  { destruct r1 as [[[raw state]|]|err]; [|by injection Hp as <- <-..].
    case_decide; injection Hp as <- <-; split_and!; try done. split; [|done]. by eapply read_state_ok. }
  destruct Hst as (-> & Hok & Hw). eapply (ahead_quiet e s s1); try done; [by apply Ht, Ha|].
  eapply Forall_impl; [apply Ha|]. intros n. by apply passed_frame.
Qed.

Lemma ahead_swaps s s' ts ns log i now raw state r : ahead e s ts ns log → ts !! i = Some (now, Swaps raw state) →
  tick_step now e (Swaps raw state) s = (s', r) →
  ahead e s' (<[i := (now, match r with Ok st' => st' | Err _ => Over end)]> ts) ns log.
Proof.
  intros Ha Hi Hp. destruct (Forall_lookup_1 _ _ _ _ (ahead_stages _ _ _ _ _ Ha) Hi) as [Hu Hdue]. cbn [fst] in Hdue.
  destruct (Hnext now) as (t & Hn & Hv). pose proof (next_beyond _ _ _ _ Hn Hdue) as Hb.
  cbn [tick_step] in Hp. rewrite Hn in Hp. set (new := marshal _) in Hp.
  assert (Hun : unmarshal new = Ok {| NextRun := next_ms (Some t) |}) by (by apply unmarshal_marshal).
  assert (Hne : raw ≠ new) by (intros E; rewrite <- E, Hu in Hun; injection Hun as ->; cbn in *; lia).
  pose proof (compareAndSwap_outcome (eName (entry e)) raw new s (ahead_type _ _ _ _ _ Ha) Hne) as Ho.
  unfold try, mbind, M_bind in Hp. destruct (compareAndSwap _ raw new s) as [s1 r1]. destruct Ho as (Hks & Hwin).
  assert (Ht' : has_type (ks s1) cronKey THash) by (destruct Hks as [->| ->]; [apply Ha|apply cas_typed, Ha]).
  assert (Hgrow : ∀ n, passed e (ks s) n → passed e (ks s1) n).
  { intros n (raw0 & st0 & Hs0 & Hu0 & Hn0). destruct Hks as [->| ->]; [by exists raw0, st0|].
    unfold passed. rewrite cas_stored, Hs0. case_decide as Hd; [|by exists raw0, st0].
    injection Hd as ->. exists new, {| NextRun := next_ms (Some t) |}. split_and!; [done|done|].
    rewrite Hu0 in Hu. injection Hu as ->. cbn [NextRun]. lia. }
  destruct r1 as [[]|err]; injection Hp as <- <-.
  - destruct (Hwin eq_refl) as [Hs Hk]. eapply (ahead_wins e s s1); [done..|]. intros n Hle.
    exists new, {| NextRun := next_ms (Some t) |}. rewrite Hk, cas_stored, decide_True by done.
    split_and!; [done|done|]. cbn [NextRun]. lia.
  - eapply (ahead_quiet e s s1); try done. eapply Forall_impl; [apply Ha|exact Hgrow].
  - eapply (ahead_quiet e s s1); try done. eapply Forall_impl; [apply Ha|exact Hgrow].
Qed.

Lemma ahead_enqueues s s' ts ns log i now state r : ahead e s ts ns log → ts !! i = Some (now, Fires state) →
  tick_step now e (Fires state) s = (s', r) →
  ahead e s' (<[i := (now, match r with Ok st' => st' | Err _ => Over end)]> ts)
    (NextRun state :: ns) (cron_job now (entry e) state :: log).
Proof.
  intros Ha Hi Hp.
  destruct (stored_stable (Enqueue (cron_job now (entry e) state) "" 0) s (eName (entry e))) as [Ht Hs].
  { intros v. apply stable_Enqueue; [apply wf_cron_id|exact Hq]. }
  cbn [tick_step] in Hp. unfold try, mbind, M_bind in Hp.
  destruct (Enqueue _ _ _ s) as [s1 r1]. cbn [fst] in Ht, Hs. injection Hp as <- <-.
  apply (ahead_fires e s s1); [done|done|by apply Ht, Ha|done].
Qed.

Definition all_ahead (x : servers) : Prop := ∃ ns, ahead e x.1.1 x.1.2 ns x.2.

Lemma all_ahead_step x y : ticking e x y → all_ahead x → all_ahead y.
Proof.
  intros Hstep [ns Ha]. destruct Hstep as [now s ts log|i now st s ts log s' r Hi Hp|now s ts log|s s' ts log Hs Ht];
    cbn [fst snd] in Ha.
  - exists ns. destruct Ha as [Ht Hst Hid Hdue Hnd Hp]. split; try done. by constructor.
  - destruct st as [|raw state|state|]; cbn [enqueues_next app].
    + exists ns. by apply (ahead_reads s).
    + exists ns. by apply (ahead_swaps s _ _ _ _ _ _ raw state).
    + exists (NextRun state :: ns). by apply (ahead_enqueues s).
    + exists ns. injection Hp as <- <-. by rewrite list_insert_id.
  - exists ns. destruct Ha as [Ht Hst Hid Hdue Hnd Hp]. destruct (seed_keeps now e s Ht) as [Ht' Hs'].
    split; try done. eapply Forall_impl; [exact Hp|]. intros n (raw & state & Hr & Hrest).
    exists raw, state. split; [by apply Hs'|done].
  - exists ns. destruct Ha as [Ht' Hst Hid Hdue Hnd Hp]. split; try done.
    eapply Forall_impl; [exact Hp|]. intros n. by apply passed_frame.
Qed.

(** C33: no two ticks enqueue the same activation of a schedule.  A tick that nobody
    interrupts is [tick_entry].  Whatever the interleaving of the requests of any
    number of ticks on any number of servers, however stale the state a tick has
    read, and whatever the network loses or repeats, every job that ticks have
    asked the queue to enqueue was due, and no two of them have the same id, which
    names the activation.  (The entry has a name of its own, a well-formed queue
    and a schedule that goes on for ever; a request to enqueue may still be executed
    twice by the network.) *)
Theorem cron_at_most_once s s' ts log : has_type (ks s) cronKey THash →
  rtc (ticking e) (s, [], []) (s', ts, log) →
  (∀ now s, one_tick now e s = tick_entry now e s) ∧
  Forall (λ job, ∃ now state, job = cron_job now (entry e) state ∧ NextRun state * Millisecond ≤ now) log ∧
  NoDup (ID <$> log).
Proof.
  intros Ht Hsteps. split; [intros; apply one_tick_entry|]. assert (Ha : all_ahead (s', ts, log)).
  { assert (Ha : all_ahead (s, [], [])) by (exists []; by split; try constructor).
    revert Ha. induction Hsteps as [x|x y z Hstep _ IH]; [done|]. eauto using all_ahead_step. }
  destruct Ha as (ns & [_ _ Hid Hdue Hnd _]). cbn [fst snd] in *. split.
  - eapply Forall_impl; [exact Hdue|]. intros job (now & state & -> & Hd). exists now, state.
    split; [done|]. unfold is_due in Hd. lia.
  - rewrite Hid. apply NoDup_app in Hnd as (_ & _ & Hnd). apply NoDup_fmap_2; [|done]. apply cron_id_inj.
Qed.
End Ticks.
