(* ===== verification/Unique.v ===== *)
(** * Unique: a unique key guards its window

    A job that was enqueued under a unique key keeps others out: until the job is
    settled or the key expires, no interleaving of requests takes the key away,
    so every other enqueue under it is refused. *)
From S2P Require Import Prelude Float Keys Redis Lua Keyspace Job Scripts Queue ScriptSpecs QueueSpecs Places Winter Json Workflow Cron RateLimit Moves Texts Lifecycle.

Open Scope string_scope.
Open Scope Z_scope.
Open Scope list_scope.

Section Unique.
Context {S : Type} `{RedisLaws S} `{LuaFloatLaws} `{JsonLaws WfRecord}.
Context (u id : string) (t : Z).

(** The key is held by the job until [t]. *)
Definition guarded (s : S) : Prop :=
  ks s !! uniqueKey u = Some (RStr id) ∧ expires s !! uniqueKey u = Some t.

(** *** Commands *)

Lemma guarded_other c : cmd_key c ≠ uniqueKey u → stable guarded (redis_call c).
Proof.
  intros Hc. apply (moves_call _). intros s [Hk He]. apply not_eq_sym in Hc. split.
  - by rewrite law_other.
  - by rewrite law_ttl_other.
Qed.

(** A command on the key itself that leaves its value. *)
Lemma guarded_same c s : match c with SET _ _ false _ | PEXPIRE _ _ => False | _ => True end →
  cmd_key c = uniqueKey u → ks (exec c s).1 = ks s → guarded s → guarded (exec c s).1.
Proof.
  intros Hc Hkey Hsame [Hk He]. split; [by rewrite Hsame|]. rewrite <- Hkey, law_ttl_alter.
  - by rewrite Hkey.
  - done.
  - rewrite Hkey, Hk. eauto.
  - rewrite Hsame, Hkey, Hk. eauto.
Qed.

Lemma guarded_read c : is_read c → stable guarded (redis_call c).
Proof.
  intros Hc. destruct (decide (cmd_key c = uniqueKey u)) as [Hk|Hk]; [|by apply guarded_other].
  apply (moves_call _). intros s Hs. apply guarded_same; [by destruct c|done|by apply read_same|done].
Qed.

Lemma guarded_SETNX k v ttl : ttl > 0 → stable guarded (redis_call (SET k v true (Some (1000 * ttl)))).
Proof.
  intros Hpos. destruct (decide (k = uniqueKey u)) as [->|Hk]; [|by apply guarded_other].
  apply (moves_call _). intros s Hs. apply guarded_same; [done|done| |done].
  destruct (law_SETNX s (uniqueKey u) v (Some (1000 * ttl))) as [Hr _]; [intros ? [= <-]; lia|].
  rewrite Hr, decide_True; [done|]. destruct Hs as [-> _]. eauto.
Qed.

(** Another job does not own the key. *)
Lemma guarded_release jk j : j ≠ id → stable guarded (release_unique jk j).
Proof.
  intros Hj. unfold release_unique. apply moves_bind; [exact _|by apply guarded_read|].
  intros r; destruct r as [|uk| | | |]; try (apply moves_ret; exact _). case_decide; [apply moves_ret; exact _|].
  destruct (decide (uk = uniqueKey u)) as [->|Hk].
  - intros s Hs. unfold mbind, M_bind. pose proof (guarded_read (GET (uniqueKey u)) I s Hs) as Hs1.
    assert (Hr : redis_call (GET (uniqueKey u)) s = ((redis_call (GET (uniqueKey u)) s).1, Ok (RBulk id))).
    { destruct Hs as [Hv _]. destruct (law_GET s (uniqueKey u)) as [_ Hr]; [unfold has_type; by rewrite Hv|].
      unfold str_at in Hr. rewrite Hv in Hr. unfold redis_call. by destruct (exec _ s) as [s1 r]; cbn in *; subst r. }
    rewrite Hr. rewrite decide_False by congruence. exact Hs1.
  - apply moves_bind; [exact _|by apply guarded_read|]. intros owner. case_decide; [|apply moves_ret; exact _].
    apply moves_bind; [exact _|by apply guarded_other|]. intros _. apply moves_ret. exact _.
Qed.

(** *** Requests *)

Definition finishes (o : op) : Prop :=
  match o with
  | OAck _ _ j _ | OCancel _ _ j _ _ | ONack _ _ j _ _ _ _ => j = id
  | _ => False
  end.

Ltac guard_ne := cbn [cmd_key]; first [by intros [=] | keys_ne].

Ltac guard_walk :=
  repeat first
    [ apply guarded_release; assumption
    | apply guarded_read; exact I
    | apply guarded_SETNX; assumption
    | apply guarded_other; solve [guard_ne]
    | moves_step ].

Lemma guarded_op o s : wf_op o → ¬ finishes o → guarded s → guarded (run_op o s).
Proof.
  intros Ho Hf. destruct o; cbn [run_op wf_op finishes] in *; destruct_and?;
    unfold run_enqueue, enqueueScript, dequeueScript, ackScript, nackScript, nack_record, nack_choice,
      nack_dead, nack_retry, rescheduleScript, cancelScript, promoteScript, promote_one, extendLeaseScript,
      recoverLeasesScript, recover_one, retryDeadScript, purgeDeadScript, priority_or_5,
      advanceChordScript, tokenBucketScript, save_bucket, fnum, compareAndSwapScript;
    try match goal with Hj : wf_record _ |- _ => destruct Hj as (Hjid & Hjq & _) end;
    lazymatch goal with |- _ → guarded (?c _).1 => apply (stable_at guarded c) end; guard_walk.
  by apply guarded_read.
Qed.

(** What may happen in the window: any request that does not settle the job, any
    accident of the network, and time before [t]. *)
Inductive in_window : S → S → Prop :=
  | window_op o s : wf_op o → ¬ finishes o → in_window s (run_op o s)
  | window_net s : in_window s (transport s).1
  | window_time d s : 0 ≤ d → clock s + d < t → in_window s (advance d s).

Lemma window_step s s' : in_window s s' → step s s'.
Proof. destruct 1; by constructor. Qed.

Lemma guarded_window s s' : in_window s s' → guarded s → guarded s'.
Proof.
  intros Hs Hg. destruct Hs as [o s Ho Hf|s|d s Hd Ht].
  - by apply guarded_op.
  - destruct (law_transport s) as (E1 & E2 & _). unfold guarded. by rewrite E1, E2.
  - destruct Hg as [Hk He]. split.
    + by rewrite law_advance, He, decide_False by lia.
    + rewrite law_advance_ttl by done. apply map_lookup_filter_Some. by split.
Qed.

Lemma guarded_windows s s' : rtc in_window s s' → guarded s → guarded s'.
Proof. induction 1; eauto using guarded_window. Qed.
Lemma stable_after {A B} (P : S → Prop) (c : M S string A) (f : A → M S string B) s s' a :
  c s = (s', Ok a) → P s' → stable P (f a) → P (mbind f c s).1.
Proof. intros E Hs Hf. unfold mbind, M_bind. rewrite E. by apply (Hf s'). Qed.

(** *** The enqueue claims a key that is free. *)
Lemma guarded_enqueue job ttl s : wf_record job → safe_int ttl → ttl > 0 →
  ks s !! uniqueKey u = None → ID job = id → t = clock s + 1000 * ttl →
  guarded (run_enqueue job (uniqueKey u) ttl s).1.
Proof.
  intros (Hjid & Hjq & _) Hsafe Hpos Hfree Hid Ht. unfold run_enqueue, enqueueScript. cbv zeta.
  rewrite (law_tonumber ttl) by done.
  set (claimed := (exec (SET (uniqueKey u) (ID job) true (Some (1000 * ttl))) s).1).
  destruct (law_SETNX s (uniqueKey u) (ID job) (Some (1000 * ttl))) as [Hks Hr]; [intros ? [= <-]; lia|].
  assert (Hn : ¬ is_Some (ks s !! uniqueKey u)) by (rewrite Hfree; by intros []).
  rewrite decide_False in Hks by done. rewrite decide_False in Hr by done.
  eapply (stable_after _ _ _ s claimed tt).
  - rewrite decide_False by by intros [=]. unfold num, mbind, M_bind, mret, M_ret. cbv beta iota.
    rewrite decide_True by done. unfold redis_call, claimed.
    destruct (exec _ s) as [s1 r]. cbn in *. by subst r.
  - split; unfold claimed.
    + by rewrite Hks, lookup_put_eq, Hid.
    + rewrite law_ttl_SET by done. by rewrite lookup_insert_eq, Ht.
  - guard_walk.
Qed.
End Unique.

(** ** The window of a unique job *)

Section Window.
Context {S : Type} `{RedisLaws S} `{LuaFloatLaws} `{JsonLaws WfRecord}.

(** Under a held key the script raises and changes nothing. *)
Lemma enqueue_refused job u ttl s : wf_store (ks s) → wf_record job → safe_int ttl → ttl > 0 →
  is_Some (ks s !! uniqueKey u) →
  (run_enqueue job (uniqueKey u) ttl s).2 = Err "DUPLICATE" ∧
  ks (run_enqueue job (uniqueKey u) ttl s).1 = ks s.
Proof.
  intros Hm Hj Hsafe Hpos Hheld.
  assert (Hw : wp (S := S) (run_enqueue job (uniqueKey u) ttl) (λ m' r, r = Err "DUPLICATE" ∧ m' = ks s) (ks s)).
  { apply wp_enqueueScript; [done|done|right; by exists u|done|by intros _ _ _| |].
    - intros Hfree. rewrite Hfree in Hheld; [by destruct Hheld|by intros [=]|done].
    - intros Hfree. rewrite Hfree in Hheld; [by destruct Hheld|by intros [=]|done]. }
  exact (Hw s eq_refl).
Qed.

Lemma unique_slot_seconds u p : u ≠ "" → Second ≤ p < 2 ^ 22 * Second →
  unique_slot u p = (uniqueKey u, p / Second) ∧ p / Second > 0.
Proof.
  intros Hu Hp. unfold unique_slot. rewrite decide_True by (split; [done|unfold Second in *; lia]).
  rewrite Seconds_trunc by (unfold Second in *; lia). split; [done|].
  apply Z.lt_gt, Z.div_str_pos. unfold Second in *. lia.
Qed.

(** C12: a unique job is alone in its window.  When a job is enqueued under a unique
    key that is free, with a period of at least a second, then until the period
    is over or the job is settled, whatever requests of whatever processes come
    in between and whatever the network does, the key stays with the job, and
    every other enqueue under it is refused and changes nothing. *)
Theorem unique_window job u p s s' job' p' : reachable s →
  wf_op (OEnqueue job u p) → u ≠ "" → Second ≤ p < 2 ^ 22 * Second → ks s !! uniqueKey u = None →
  rtc (in_window (ID job) (clock s + 1000 * (p / Second))) (run_op (OEnqueue job u p) s) s' →
  wf_op (OEnqueue job' u p') → Second ≤ p' < 2 ^ 22 * Second →
  str_at (ks s') (uniqueKey u) = Some (ID job) ∧
  (run_enqueue job' (unique_slot u p').1 (unique_slot u p').2 s').2 = Err "DUPLICATE" ∧
  ks (run_op (OEnqueue job' u p') s') = ks s'.
Proof.
  intros Hs Ho Hu Hp Hfree Hr Ho' Hp'. destruct (unique_slot_seconds u p Hu Hp) as [E Hpos].
  destruct (unique_slot_seconds u p' Hu Hp') as [E' Hpos'].
  assert (Hg : guarded u (ID job) (clock s + 1000 * (p / Second)) s').
  { refine (guarded_windows _ _ _ _ _ Hr _). destruct Ho as (Hj & _ & Hsafe). cbn [run_op].
    rewrite E in *. by apply guarded_enqueue. }
  assert (Hs' : reachable s').
  { apply (reachable_steps (run_op (OEnqueue job u p) s)).
    - eapply reachable_step; [exact Hs|by apply step_op].
    - eapply rtc_subrel; [|exact Hr]. intros ? ?. apply window_step. }
  destruct Hg as [Hk _]. split; [by unfold str_at; rewrite Hk|].
  destruct Ho' as (Hj' & _ & Hsafe'). cbn [run_op]. rewrite E' in *. cbn [fst snd] in *.
  apply enqueue_refused; [|done..|rewrite Hk; eauto].
  exact (inv_wf _ (sound_inv _ (reachable_sound s' Hs'))).
Qed.
End Window.
