(* ===== verification/Refines.v ===== *)
(** * Refines: the requests of the program move jobs as the board allows

    [board_of q m] is the board of a queue in the contents [m].  Every request
    is, on every board, a sequence of enabled events of its own kind, so what
    holds of boards holds of the program: jobs stay on the board until they are
    settled, a delayed job waits for promotion, and a job that is held is
    nowhere else. *)
From S2P Require Import Board Prelude Float Keys Redis Lua Keyspace Job Scripts Queue ScriptSpecs QueueSpecs FinishSpecs SweepSpecs Places Winter Json Workflow WorkflowSpecs Cron CronSpecs RateLimit RateLimitSpecs Moves Texts Lifecycle.

Open Scope string_scope.
Open Scope Z_scope.
Open Scope list_scope.

Definition board_of (q : string) (m : keyspace) : board :=
  Board (zset_at m (readyKey q)) (zset_at m (delayedKey q)) (zset_at m (leaseKey q)) (list_at m (deadKey q)).

(** ** The effects of the scripts on a board *)

Definition on_queue (q q' : string) (es : list event) : list event := if decide (q' = q) then es else [].

Lemma board_ext q m m' : wf_queue q → (∀ k, wf_key k → is_place k → m' !! render k = m !! render k) →
  board_of q m' = board_of q m.
Proof.
  intros Hq E. unfold board_of.
  rewrite (zset_at_ext m' m (readyKey q)) by by apply (E (KReady q)).
  rewrite (zset_at_ext m' m (delayedKey q)) by by apply (E (KDelayed q)).
  rewrite (zset_at_ext m' m (leaseKey q)) by by apply (E (KLease q)).
  by rewrite (list_at_ext m' m (deadKey q)) by by apply (E (KDead q)).
Qed.

Section Effects.
Context (q q' j w : string) (Hq : wf_queue q) (Hq' : wf_queue q') (Hj : wf_id j) (m : keyspace).

(** Reads the board off the updates of an effect, for its own queue and for another. *)
Ltac board_simp :=
  unfold on_queue; destruct (decide (q' = q)) as [->|Hne]; unfold board_of; cbn [foldl happen Ready Delayed Held Dead];
  ks_simp; done.

Lemma board_unlease : board_of q' (unlease_ks q j w m) = foldl happen (board_of q' m) (on_queue q q' [Release j]).
Proof. unfold unlease_ks. board_simp. Qed.

Lemma board_hincr_job f m' : board_of q' (hincr (jobKey j) f m') = board_of q' m'.
Proof. unfold board_of. by ks_simp. Qed.

Lemma board_hincr_stats f m' : board_of q' (hincr (statsKey q) f m') = board_of q' m'.
Proof. unfold board_of. by ks_simp. Qed.

Lemma board_hset_job fvs m' : board_of q' (hset (jobKey j) fvs m') = board_of q' m'.
Proof. unfold board_of. by ks_simp. Qed.

Lemma board_release m' : Inv m' → board_of q' (release_ks j m') = board_of q' m'.
Proof.
  intros HI. assert (uk_shape j m') by (apply wf_uk_shape; [apply HI|done]). unfold board_of. by ks_simp.
Qed.

Lemma board_delay t m' : board_of q' (zadd (delayedKey q) j t m') = foldl happen (board_of q' m') (on_queue q q' [Postpone j t]).
Proof. board_simp. Qed.

Lemma board_ready p m' : board_of q' (zadd (readyKey q) j p m') = foldl happen (board_of q' m') (on_queue q q' [Arrive j p]).
Proof. board_simp. Qed.

Lemma board_bury m' : board_of q' (lpush (deadKey q) j m') = foldl happen (board_of q' m') (on_queue q q' [Bury j]).
Proof. board_simp. Qed.

Lemma board_extend t : board_of q' (extend_ks q j t m) =
  foldl happen (board_of q' m) (on_queue q q' (if decide (is_Some (zset_at m (leaseKey q) !! j)) then [Extend j t] else [])).
Proof. unfold extend_ks. case_decide; [board_simp|]. unfold on_queue. by case_decide. Qed.

Lemma board_take now lease : board_of q' (dequeue_ks q w j now lease m) =
  foldl happen (board_of q' m) (on_queue q q' [Take j (now + lease)]).
Proof. unfold dequeue_ks. board_simp. Qed.

Lemma board_promote_one : board_of q' (promote_one_ks q m j) =
  foldl happen (board_of q' m) (on_queue q q' [Due j (job_priority m j) 0]).
Proof. unfold promote_one_ks. board_simp. Qed.

Lemma board_recover_one : j ∈ set_at m (activeKey q) → board_of q' (recover_one_ks q m j) =
  foldl happen (board_of q' m) (on_queue q q' [Expire j (job_priority m j) 0]).
Proof. intros Ha. unfold recover_one_ks. rewrite decide_True by done. board_simp. Qed.

Lemma board_revive : board_of q' (revived_ks q j m) =
  foldl happen (board_of q' m) (on_queue q q' [Revive j (job_priority m j)]).
Proof. unfold revived_ks. board_simp. Qed.
End Effects.

(** The events of a chain of effects. *)
Lemma happens_foldl es b b' : happens es b b' → b' = foldl happen b es.
Proof. induction 1 as [|e es b b' _ _ IH]; [done|exact IH]. Qed.

(** *** Sweeps *)

Section Sweep.
Context (q : string) (Hq : wf_queue q) (one : keyspace → string → keyspace) (ev : string → Z → event).
Context (P : keyspace → string → Prop).
Context (Hone : ∀ m x, Inv m → wf_id x → P m x → Inv (one m x) ∧
  enabled (ev x (job_priority m x)) (board_of q m) ∧
  board_of q (one m x) = happen (board_of q m) (ev x (job_priority m x))).
Context (Hother : ∀ m x y, Inv m → wf_id x → wf_id y → P m x → x ≠ y → P m y →
  P (one m x) y ∧ job_priority (one m x) y = job_priority m y).

Lemma sweep_happens ids m : Inv m → Forall wf_id ids → NoDup ids → Forall (P m) ids →
  happens ((λ j, ev j (job_priority m j)) <$> ids) (board_of q m) (board_of q (foldl one m ids)).
Proof.
  revert m. induction ids as [|x ids IH]; intros m HI Hids Hnd HP; cbn [foldl].
  { constructor. }
  apply Forall_cons in Hids as [Hx Hids]. apply NoDup_cons in Hnd as [Hx' Hnd].
  apply Forall_cons in HP as [Px HP]. destruct (Hone m x HI Hx Px) as (HI' & He & Hb).
  assert (Hkeep : ∀ y, y ∈ ids → P (one m x) y ∧ job_priority (one m x) y = job_priority m y).
  { rewrite Forall_forall in HP, Hids. intros y Hy. apply Hother; auto. by intros ->. }
  rewrite fmap_cons. econstructor; [done|]. rewrite <- Hb.
  assert (((λ j, ev j (job_priority m j)) <$> ids) = ((λ j, ev j (job_priority (one m x) j)) <$> ids)) as ->.
  - apply list_fmap_ext. intros i y Hy%list_elem_of_lookup_2. by destruct (Hkeep y Hy) as [_ ->].
  - apply IH; [done..|]. apply Forall_forall. intros y Hy. by apply Hkeep.
Qed.
End Sweep.

Section Sweeps.
Context (q : string) (Hq : wf_queue q).

(** A sweep does not change the priority of a job. *)
Lemma priority_one m m' x y fvs : wf_id x → wf_id y → hset_all fvs (hash_at m (jobKey x)) !! "priority" = hash_at m (jobKey x) !! "priority" →
  (∀ i, wf_id i → hash_at m' (jobKey i) = hash_at m (jobKey i)) →
  job_priority (hset (jobKey x) fvs m') y = job_priority m y.
Proof.
  intros Hx Hy Hf Hm'. unfold job_priority. destruct (decide (x = y)) as [->|Hne].
  - ks_simp. rewrite Hm' by done. by rewrite Hf.
  - ks_simp. by rewrite Hm'.
Qed.

Lemma priority_promote_one m x y : wf_id x → wf_id y → job_priority (promote_one_ks q m x) y = job_priority m y.
Proof.
  intros Hx Hy. unfold promote_one_ks. apply priority_one; [done|done| |].
  - cbn. by rewrite lookup_insert_ne.
  - intros i Hi. by ks_simp.
Qed.

Lemma priority_recover_one m x y : wf_id x → wf_id y → job_priority (recover_one_ks q m x) y = job_priority m y.
Proof.
  intros Hx Hy. unfold recover_one_ks. case_decide.
  - apply priority_one; [done|done| |].
    + cbn. by rewrite !lookup_insert_ne.
    + intros i Hi. by ks_simp.
  - unfold job_priority. by ks_simp.
Qed.

Lemma promote_happens now ids m : Inv m → Forall wf_id ids → NoDup ids →
  Forall (λ j, ∃ t, zset_at m (delayedKey q) !! j = Some t ∧ t ≤ now) ids →
  happens ((λ j, Due j (job_priority m j) now) <$> ids) (board_of q m) (board_of q (foldl (promote_one_ks q) m ids)).
Proof.
  intros HI Hids Hnd Hdue. eapply (sweep_happens q _ (λ j p, Due j p now) (λ m j, ∃ t, zset_at m (delayedKey q) !! j = Some t ∧ t ≤ now));
    [| |done|done|done|exact Hdue].
  - intros m1 x HI1 Hx (t & Ht & Hle). split; [by apply Inv_promote_one|].
    split; [by exists t|]. rewrite (board_promote_one q q x) by done. unfold on_queue. by rewrite decide_True.
  - intros m1 x y HI1 Hx Hy _ Hne (t & Ht & Hle). split; [|by apply priority_promote_one]. exists t. split; [|done].
    change (Delayed (board_of q (promote_one_ks q m1 x)) !! y = Some t).
    rewrite (board_promote_one q q x) by done. unfold on_queue. rewrite decide_True by done.
    cbn. by rewrite lookup_delete_ne.
Qed.

Lemma recover_happens now ids m : Inv m → Forall wf_id ids → NoDup ids →
  Forall (λ j, ∃ t, zset_at m (leaseKey q) !! j = Some t ∧ t ≤ now) ids →
  happens ((λ j, Expire j (job_priority m j) now) <$> ids) (board_of q m) (board_of q (foldl (recover_one_ks q) m ids)).
Proof.
  intros HI Hids Hnd Hdue. eapply (sweep_happens q _ (λ j p, Expire j p now) (λ m j, ∃ t, zset_at m (leaseKey q) !! j = Some t ∧ t ≤ now));
    [| |done|done|done|exact Hdue].
  all: assert (Hact : ∀ m1 x t, Inv m1 → zset_at m1 (leaseKey q) !! x = Some t → x ∈ set_at m1 (activeKey q))
    by (intros m1 x t HI1 Ht; apply (inv_leased _ HI1 x q Hq); eauto).
  - intros m1 x HI1 Hx (t & Ht & Hle). split; [by apply Inv_recover_one|].
    split; [by exists t|]. rewrite (board_recover_one q q x) by eauto. unfold on_queue. by rewrite decide_True.
  - intros m1 x y HI1 Hx Hy (t' & Ht' & _) Hne (t & Ht & Hle). split; [|by apply priority_recover_one].
    exists t. split; [|done]. change (Held (board_of q (recover_one_ks q m1 x)) !! y = Some t).
    rewrite (board_recover_one q q x) by eauto. unfold on_queue. rewrite decide_True by done.
    cbn. by rewrite lookup_delete_ne.
Qed.
End Sweeps.

Lemma board_other_fold q one ids m : (∀ m x, wf_id x → board_of q (one m x) = board_of q m) → Forall wf_id ids →
  board_of q (foldl one m ids) = board_of q m.
Proof.
  intros Hone Hids. revert m. induction Hids as [|x ids Hx _ IH]; intros m; [done|]. cbn. by rewrite IH, Hone.
Qed.

Lemma board_purge q q' m : wf_queue q → wf_queue q' → Forall wf_id (list_at m (deadKey q)) →
  board_of q' (purge_ks q m) = foldl happen (board_of q' m) (on_queue q q' [Purge]).
Proof.
  intros Hq Hq' Hids. unfold purge_ks.
  set (m1 := foldl _ m _).
  assert (E : board_of q' m1 = board_of q' m).
  { apply board_other_fold; [|done]. intros m2 x Hx. unfold board_of. by ks_simp. }
  unfold on_queue. destruct (decide (q' = q)) as [->|Hne].
  - cbn [foldl]. rewrite <- E. unfold board_of. cbn. by ks_simp.
  - cbn [foldl]. rewrite <- E. unfold board_of. by ks_simp.
Qed.

(** ** The promise of a request *)

(** Another job holds the unique key. *)
Definition duplicate (u : string) (p : Z) (m : keyspace) : Prop :=
  (unique_slot u p).1 ≠ "" ∧ (unique_slot u p).2 > 0 ∧ is_Some (m !! (unique_slot u p).1).

#[export] Instance duplicate_dec u p m : Decision (duplicate u p m).
Proof. unfold duplicate. apply _. Defined.

(** The failure is the last one. *)
Definition exhausts (skip : bool) (j : string) (m : keyspace) : Prop :=
  skip = true ∨ match max_retries m j with Some mx => next_attempt m j >= mx | None => False end.

#[export] Instance exhausts_dec skip j m : Decision (exhausts skip j m).
Proof. unfold exhausts. destruct (max_retries m j); apply _. Defined.

(** What a request does to queue [q] with contents [m]: nothing to another queue
    than its own; to its own the events named here. *)
Definition promised (q : string) (m : keyspace) (o : op) (es : list event) : Prop :=
  let b := board_of q m in
  let on q' P := if decide (q' = q) then P else es = [] in
  match o with
  | OEnqueue job u p => on (Job.Queue job)
      (es = if decide (duplicate u p m) then []
            else [if decide (ScheduledAt job > 0) then Postpone (ID job) (ScheduledAt job)
                  else Arrive (ID job) (Job.Priority job)])
  | ODequeue now q' w => on q'
      (es = [] ∧ (is_Some (m !! pausedKey q) ∨ Ready b = ∅) ∨
       m !! pausedKey q = None ∧ ∃ j p rest, zsorted (Ready b) = (j, p) :: rest ∧
         es = [Take j (UnixMilli now + Milliseconds DefaultLeaseDuration)])
  | OAck now q' j w => on q' (es = [Release j])
  | OCancel now q' j w reason => on q' (es = [Release j])
  | ONack now q' j w e backoff skip => on q'
      (es = [Release j] ∧ ¬ (sound_stats m ∧ sound_job j m) ∨
       es = [Release j; if decide (exhausts skip j m) then Bury j else Postpone j (UnixMilli now + backoff)])
  | OReschedule q' j w t => on q' (es = [Release j; Postpone j (UnixMilli t)])
  | OPromote now q' limit => on q'
      (es = (λ j, Due j (job_priority m j) (UnixMilli now)) <$> due (Delayed b) (UnixMilli now) limit)
  | OExtendLease now q' j ext => on q'
      (es = if decide (is_Some (Held b !! j)) then [Extend j (UnixMilli (now + ext))] else [])
  | ORecover q' limit nowMs => on q'
      (es = (λ j, Expire j (job_priority m j) nowMs) <$> due (Held b) nowMs limit)
  | ORetryDead q' j => on q' (es = if decide (j ∈ Dead b) then [Revive j (job_priority m j)] else [])
  | OPurgeDead q' => on q' (es = [Purge])
  | _ => es = []
  end.

Definition refined (q : string) (o : op) (m m' : keyspace) : Prop :=
  ∃ es, promised q m o es ∧ happens es (board_of q m) (board_of q m').

(** An effect whose events are known. *)
Lemma refined_events q q' o m m' es :
  board_of q m' = foldl happen (board_of q m) (on_queue q' q es) →
  (q' = q → promised q m o es ∧ happens es (board_of q m) (foldl happen (board_of q m) es)) →
  (q' ≠ q → promised q m o []) → refined q o m m'.
Proof.
  intros E Hon Hoff. unfold on_queue in E. destruct (decide (q = q')) as [->|Hne].
  - destruct (Hon eq_refl) as [Hp Hh]. exists es. by rewrite E.
  - exists []. split; [by apply Hoff|]. rewrite E. constructor.
Qed.

Section Refinement.
Context {S : Type} `{RedisLaws S} `{LuaFloatLaws} `{JsonLaws WfRecord}.
Context (q : string) (Hq : wf_queue q).

Lemma refined_wp {A} o (c : M S string A) (s : S) : Inv (ks s) →
  (∀ m, Inv m → wf_store m → wp c (λ m' _, refined q o m m') m) → refined q o (ks s) (ks (c s).1).
Proof. intros HI Hc. exact (Hc (ks s) HI (inv_wf _ HI) s eq_refl). Qed.

Ltac off_queue := intros Hne; cbn; rewrite decide_False by congruence; first [done|constructor].
Ltac on_queue_ := intros ->; cbn [promised]; rewrite decide_True by done.

Lemma refines_ack now q' j w s : wf_op (OAck now q' j w) → Inv (ks s) →
  refined q (OAck now q' j w) (ks s) (ks (run_op (OAck now q' j w) s)).
Proof.
  intros (Hq' & Hj) HI. apply refined_wp; [done|]. clear s HI. intros m HI Hm.
  assert (E : ∀ m', board_of q m' = board_of q (unlease_ks q' j w m) → refined q (OAck now q' j w) m m').
  { intros m' E. apply (refined_events q q' _ m m' [Release j]); [by rewrite E, (board_unlease q' q)| |off_queue].
    on_queue_. split; [done|]. by apply happens_one. }
  apply wp_ackScript; [done..| |]; intros; apply E.
  - unfold ack_ks. rewrite (board_release q j) by
      (done || (apply Inv_hincr; [by apply Inv_acked|done|done])).
    by rewrite (board_hincr_stats q' q), (board_hset_job q j).
  - by rewrite (board_hset_job q j).
Qed.

Lemma refines_cancel now q' j w reason s : wf_op (OCancel now q' j w reason) → Inv (ks s) →
  refined q (OCancel now q' j w reason) (ks s) (ks (run_op (OCancel now q' j w reason) s)).
Proof.
  intros (Hq' & Hj) HI. apply refined_wp; [done|]. clear s HI. intros m HI Hm.
  apply wp_cancelScript; [done..|]. apply (refined_events q q' _ m _ [Release j]); [| |off_queue].
  - unfold cancel_ks. rewrite (board_release q j); [|done|done|by apply Inv_closed].
    by rewrite (board_hset_job q j), (board_unlease q' q).
  - on_queue_. split; [done|]. by apply happens_one.
Qed.

Lemma refines_reschedule q' j w t s : wf_op (OReschedule q' j w t) → Inv (ks s) →
  refined q (OReschedule q' j w t) (ks s) (ks (run_op (OReschedule q' j w t) s)).
Proof.
  intros (Hq' & Hj & Ht) HI. apply refined_wp; [done|]. clear s HI. intros m HI Hm.
  apply wp_rescheduleScript; [done..|eauto with winter|].
  apply (refined_events q q' _ m _ [Release j; Postpone j (UnixMilli t)]); [| |off_queue].
  - unfold reschedule_ks. rewrite (board_hset_job q j), (board_delay q' q), (board_unlease q' q) by done.
    unfold on_queue. by case_decide.
  - on_queue_. split; [done|]. by apply happens_two.
Qed.

(** The failed counters of a nack do not concern the board. *)
Lemma board_nack_counted q' j w e m : wf_queue q' → wf_id j →
  board_of q (nack_counted_ks q' j w e m) = foldl happen (board_of q m) (on_queue q' q [Release j]).
Proof.
  intros Hq' Hj. unfold nack_counted_ks, nack_failed_ks.
  by rewrite (board_hincr_stats q' q), (board_hset_job q j), (board_hincr_job q j), (board_unlease q' q).
Qed.

Lemma nack_exhausts skip m j b : nack_is_dead skip m j = Some b → if b then exhausts skip j m else ¬ exhausts skip j m.
Proof.
  unfold nack_is_dead, exhausts. destruct skip; [intros [= <-]; by left|].
  destruct (max_retries m j) as [mx|]; [|done]. cbn. intros [= <-].
  destruct (bool_decide _) eqn:E; [apply bool_decide_eq_true in E|apply bool_decide_eq_false in E]; [by right|].
  by intros [?|?].
Qed.

Lemma refines_nack now q' j w e b skip s : wf_op (ONack now q' j w e b skip) → Inv (ks s) →
  refined q (ONack now q' j w e b skip) (ks s) (ks (run_op (ONack now q' j w e b skip) s)).
Proof.
  intros (Hq' & Hj & Hnow & Hb) HI. apply refined_wp; [done|]. clear s HI. intros m HI Hm.
  assert (Hraise : ∀ m', board_of q m' = foldl happen (board_of q m) (on_queue q' q [Release j]) →
    ¬ (sound_stats m ∧ sound_job j m) → refined q (ONack now q' j w e b skip) m m').
  { intros m' E Hn. apply (refined_events q q' _ m m' [Release j]); [done| |off_queue].
    on_queue_. split; [by left|by apply happens_one]. }
  assert (Hdead : board_of q (to_dead_ks q' j (nack_counted_ks q' j w e m)) =
    foldl happen (board_of q m) (on_queue q' q [Release j; Bury j])).
  { unfold to_dead_ks. rewrite (board_hset_job q j), (board_bury q' q), board_nack_counted by done.
    unfold on_queue. by case_decide. }
  assert (Hburied : ∀ m', board_of q m' = board_of q (to_dead_ks q' j (nack_counted_ks q' j w e m)) →
    nack_is_dead skip m j = Some true → refined q (ONack now q' j w e b skip) m m').
  { intros m' E Hd%nack_exhausts. apply (refined_events q q' _ m m' [Release j; Bury j]); [by rewrite E| |off_queue].
    on_queue_. split; [right; by rewrite decide_True|by apply happens_two]. }
  apply wp_nackScript; [done|done|done|eauto with winter|unfold safe_int; lia
    |unfold wf_time, safe_int in *; lia|intros..].
  - apply Hraise; [by rewrite (board_unlease q' q)|]. intros [_ [Hc _]]. unfold can_incr, counter in *.
    by rewrite unlease_hash in *.
  - apply Hraise; [|].
    + unfold nack_failed_ks. by rewrite (board_hset_job q j), (board_hincr_job q j), (board_unlease q' q).
    + intros [Hs _]. destruct (Hs q' Hq') as [Hc _].
      match goal with Hn : ¬ _ |- _ => apply Hn end. revert Hc. unfold can_incr, counter, nack_failed_ks, unlease_ks.
      by ks_simp.
  - apply Hraise; [by apply board_nack_counted|]. intros [_ [_ Hmx]].
    match goal with Hn : nack_is_dead _ _ _ = None |- _ => revert Hn end.
    unfold nack_is_dead, max_retries. destruct skip; [done|]. destruct Hmx as [v Hv]. by rewrite Hv.
  - by apply Hburied.
  - apply Hburied; [|done]. unfold nack_dead_ks. rewrite (board_release q j).
    + by rewrite (board_hincr_stats q' q).
    + done.
    + done.
    + apply Inv_hincr; [by apply Inv_buried|done|done].
  - apply (refined_events q q' _ m _ [Release j; Postpone j (UnixMilli now + b)]); [| |off_queue].
    + unfold nack_retry_ks. rewrite (board_hset_job q j), (board_delay q' q), board_nack_counted by done.
      unfold on_queue. by case_decide.
    + on_queue_. split; [|by apply happens_two]. right. rewrite decide_False; [done|].
      match goal with Hn : nack_is_dead _ _ _ = Some false |- _ => by apply nack_exhausts in Hn end.
Qed.

Lemma refines_dequeue now q' w s : wf_op (ODequeue now q' w) → Inv (ks s) →
  refined q (ODequeue now q' w) (ks s) (ks (run_op (ODequeue now q' w) s)).
Proof.
  intros (Hq' & Hnow) HI. apply refined_wp; [done|]. clear s HI. intros m HI Hm.
  assert (Hsame : (q' = q → is_Some (m !! pausedKey q) ∨ zset_at m (readyKey q) = ∅) →
    refined q (ODequeue now q' w) m m).
  { intros Hnone. exists []. split; [|constructor]. cbn. case_decide; [|done]. left. auto. }
  apply wp_dequeueScript; [done|done|eauto with winter|done|by apply wf_time_lease|..].
  - intros Hp. apply Hsame. intros <-. by left.
  - intros _ Hz. apply Hsame. intros <-. right. by apply zsorted_nil.
  - intros jid p rest fvs Hp Hz Hid _.
    apply (refined_events q q' _ m _ [Take jid (UnixMilli now + Milliseconds DefaultLeaseDuration)]);
      [by apply board_take| |off_queue].
    on_queue_. split; [right; split; [done|by exists jid, p, rest]|]. apply happens_one. by exists p, rest.
Qed.

Lemma refines_extend now q' j ext s : wf_op (OExtendLease now q' j ext) → Inv (ks s) →
  refined q (OExtendLease now q' j ext) (ks s) (ks (run_op (OExtendLease now q' j ext) s)).
Proof.
  intros (Hq' & Hj & Ht) HI. apply refined_wp; [done|]. clear s HI. intros m HI Hm.
  apply wp_extendLeaseScript; [done|done|eauto with winter|].
  eapply (refined_events q q'); [by apply board_extend| |off_queue].
  on_queue_. split; [done|]. case_decide as Hl; [by apply happens_one|constructor].
Qed.

Lemma due_held now limit k m : wf_store m → wf_key k → is_zkey k →
  Forall wf_id (due (zset_at m (render k)) now limit) ∧ NoDup (due (zset_at m (render k)) now limit) ∧
  Forall (λ j, ∃ t, zset_at m (render k) !! j = Some t ∧ t ≤ now) (due (zset_at m (render k)) now limit).
Proof.
  intros Hm Hk Hz. split_and!; [by apply due_wf|apply due_NoDup|].
  apply Forall_forall. intros j Hj. by apply due_elem in Hj.
Qed.

Lemma refines_promote now q' limit s : wf_op (OPromote now q' limit) → Inv (ks s) →
  refined q (OPromote now q' limit) (ks s) (ks (run_op (OPromote now q' limit) s)).
Proof.
  intros (Hq' & Hnow & Hl) HI. apply refined_wp; [done|]. clear s HI. intros m HI Hm.
  apply wp_promoteScript; [done|done|eauto with winter|done|].
  destruct (due_held (UnixMilli now) limit (KDelayed q') m Hm Hq' I) as (Hids & Hnd & Hdue).
  destruct (decide (q' = q)) as [->|Hne].
  - eexists. split; [|exact (promote_happens q Hq (UnixMilli now) _ m HI Hids Hnd Hdue)]. cbn. by rewrite decide_True.
  - exists []. split; [cbn; by rewrite decide_False|]. unfold promote_ks.
    rewrite (board_other_fold q); [constructor| |done]. intros m1 x Hx.
    rewrite (board_promote_one q' q x) by done. unfold on_queue. by rewrite decide_False by congruence.
Qed.

Lemma refines_recover q' limit now s : wf_op (ORecover q' limit now) → Inv (ks s) →
  refined q (ORecover q' limit now) (ks s) (ks (run_op (ORecover q' limit now) s)).
Proof.
  intros (Hq' & Hl & Hnow) HI. apply refined_wp; [done|]. clear s HI. intros m HI Hm.
  apply wp_recoverLeasesScript; [done..|].
  destruct (due_held now limit (KLease q') m Hm Hq' I) as (Hids & Hnd & Hdue).
  destruct (decide (q' = q)) as [->|Hne].
  - eexists. split; [|exact (recover_happens q Hq now _ m HI Hids Hnd Hdue)]. cbn. by rewrite decide_True.
  - exists []. split; [cbn; by rewrite decide_False|]. unfold recover_ks.
    rewrite (board_other_fold q); [constructor| |done]. intros m1 x Hx.
    unfold recover_one_ks, board_of. case_decide; by ks_simp.
Qed.

Lemma refines_retry q' j s : wf_op (ORetryDead q' j) → Inv (ks s) →
  refined q (ORetryDead q' j) (ks s) (ks (run_op (ORetryDead q' j) s)).
Proof.
  intros (Hq' & Hj) HI. apply refined_wp; [done|]. clear s HI. intros m HI Hm.
  assert (E : ∀ m', j ∈ list_at m (deadKey q') → board_of q m' = board_of q (revived_ks q' j m) →
    refined q (ORetryDead q' j) m m').
  { intros m' Hin E. apply (refined_events q q' _ m m' [Revive j (job_priority m j)]); [| |off_queue].
    - by rewrite E, (board_revive q' q).
    - intros ->. cbn [promised]. rewrite decide_True by done. rewrite decide_True by done.
      split; [done|by apply happens_one]. }
  apply wp_retryDeadScript; [done..| | |]; intros.
  - exists []. split.
    + cbn. case_decide as Hqq; [|done]. by rewrite decide_False by by rewrite <- Hqq.
    + assert (board_of q (lrem (deadKey q') j m) = board_of q m) as ->; [|constructor].
      unfold board_of. destruct (decide (q' = q)) as [->|Hne]; ks_simp; [|done]. by rewrite remove_first_not.
  - by apply E.
  - apply E; [done|]. by apply board_hincr_stats.
Qed.

Lemma refines_purge q' s : wf_op (OPurgeDead q') → Inv (ks s) →
  refined q (OPurgeDead q') (ks s) (ks (run_op (OPurgeDead q') s)).
Proof.
  intros Hq' HI. apply refined_wp; [done|]. clear s HI. intros m HI Hm.
  apply wp_purgeDeadScript; [done..|]. apply (refined_events q q' _ m _ [Purge]); [| |off_queue].
  - apply board_purge; [done|done|]. by apply wf_dead.
  - on_queue_. split; [done|by apply happens_one].
Qed.

Lemma board_enqueued job uk ttl m : wf_record job → is_unique_key uk →
  board_of q (enqueued_ks job uk ttl m) = foldl happen (board_of q m) (on_queue (Job.Queue job) q
    [if decide (ScheduledAt job > 0) then Postpone (ID job) (ScheduledAt job)
     else Arrive (ID job) (Job.Priority job)]).
Proof.
  intros Hj Huk. pose proof Hj as (Hid & Hq' & _). unfold enqueued_ks.
  assert (Hc : board_of q (hset (jobKey (ID job)) (enqueue_fields job uk) (claim_ks uk (ID job) ttl m)) = board_of q m).
  { rewrite (board_hset_job q (ID job)) by done. apply board_ext; [done|]. intros k Hk Hp.
    apply claim_lookup; [done|]. intros u. apply (render_ne (KUnique u)); [done|done|]. by destruct k. }
  unfold place_ks. case_decide; [rewrite (board_delay (Job.Queue job) q)|rewrite (board_ready (Job.Queue job) q)];
    by rewrite ?Hc.
Qed.

Lemma refines_enqueue job u p s : wf_op (OEnqueue job u p) → Inv (ks s) →
  refined q (OEnqueue job u p) (ks s) (ks (run_op (OEnqueue job u p) s)).
Proof.
  intros (Hj & Hst & Httl) HI. apply refined_wp; [done|]. clear s HI. intros m HI Hm.
  pose proof (unique_slot_key u p) as Huk. pose proof Hj as (Hid & Hq' & _).
  assert (E : ∀ m', board_of q m' = board_of q (enqueued_ks job (unique_slot u p).1 (unique_slot u p).2 m) →
    ((unique_slot u p).1 ≠ "" → (unique_slot u p).2 > 0 → m !! (unique_slot u p).1 = None) →
    refined q (OEnqueue job u p) m m').
  { intros m' E Hfree. eapply (refined_events q (Job.Queue job)); [by rewrite E, board_enqueued| |].
    - intros Hqq. cbn [promised]. rewrite decide_True by done. split; [|apply happens_one; by case_decide].
      rewrite (decide_False (P := duplicate u p m)); [done|]. intros (Hne & Ht & Hin). rewrite Hfree in Hin by done. by destruct Hin.
    - intros Hne. cbn. by rewrite decide_False by congruence. }
  cbn [run_op]. apply wp_enqueueScript; [done..| | |].
  - intros Hne Ht Hdup. exists []. split; [|constructor]. cbn. case_decide; [|done]. by rewrite decide_True.
  - intros Hfree _ msg. by apply E.
  - intros Hfree _. apply E; [by apply board_hincr_stats|done].
Qed.

(** *** The other requests do not touch a place *)

Definition same_places (m m' : keyspace) : Prop :=
  ∀ k, wf_key k → is_place k → m' !! render k = m !! render k.

Lemma same_put m k v : wf_key k → ¬ is_place k → same_places m (put (render k) v m).
Proof.
  intros Hk Hp k' Hk' Hp'. apply lookup_put_ne. apply render_ne; [done|done|]. by intros ->.
Qed.

Lemma same_delete m k : wf_key k → ¬ is_place k → same_places m (delete (render k) m).
Proof.
  intros Hk Hp k' Hk' Hp'. apply lookup_delete_ne. apply render_ne; [done|done|]. by intros ->.
Qed.

Lemma same_trans m1 m2 m3 : same_places m1 m2 → same_places m2 m3 → same_places m1 m3.
Proof. intros E1 E2 k Hk Hp. by rewrite E2, E1. Qed.

Lemma same_wp {A} (c : M S string A) (s : S) : Inv (ks s) →
  (∀ m, Inv m → wf_store m → wp c (λ m' _, same_places m m') m) → same_places (ks s) (ks (c s).1).
Proof. intros HI Hc. exact (Hc (ks s) HI (inv_wf _ HI) s eq_refl). Qed.

Lemma same_count id (s : S) : Inv (ks s) → same_places (ks s) (ks (exec (INCR (counterKey id)) s).1).
Proof.
  intros HI. pose proof (inv_wf _ HI) as Hm. pose proof (law_INCR_error s (counterKey id)) as Herr.
  assert (Hsame : (∃ msg, (exec (INCR (counterKey id)) s).2 = RErr msg) →
    same_places (ks s) (ks (exec (INCR (counterKey id)) s).1)).
  { intros [msg Hmsg]. by rewrite (law_error _ _ _ Hmsg). }
  destruct (counter_of (str_at (ks s) (counterKey id))) as [n|] eqn:Hn; [|by apply Hsame, Herr].
  destruct (decide (in_int64 (n + 1))) as [Hr|Hr]; [|by apply Hsame, Herr].
  destruct (law_INCR s (counterKey id) n) as [-> _]; [by apply (wf_has_type _ (KCounter id))|done|done|].
  apply (same_put _ (KCounter id)); [exact I|by intros []].
Qed.

Ltac same_at k := apply (same_put _ k); [first [exact I|done]|by intros []].

Lemma aside_op o s : ¬ moves_jobs o → wf_op o → Inv (ks s) → same_places (ks s) (ks (run_op o s)).
Proof.
  intros Hmove Ho HI. destruct o; try (by destruct Hmove); cbn [run_op wf_op] in *.
  all: try (apply same_wp; [exact HI|]; clear s HI; intros m HI Hm).
  - apply wp_SET; [done|]. same_at (KPaused q0).
  - apply wp_DEL. apply (same_delete m (KPaused q0)); [done|by intros []].
  - apply wp_HSET; [by apply (wf_has_type m KWorkers)|done|]. intros n. same_at KWorkers.
  - apply wp_HDEL; [by apply (wf_has_type m KWorkers)|]. same_at KWorkers.
  - apply wp_DEL. apply (same_delete m (KWorkerJobs w)); [exact I|by intros []].
  - apply wp_SET; [|same_at (KResult j)]. unfold expiration. intros t. case_decide; [|done]. intros [= <-]. lia.
  - intros s' <-. by rewrite call_fst, read_same.
  - destruct Ho as [Hid _]. apply wp_SET; [|same_at (KWorkflow id)].
    unfold expiration. intros t. case_decide; [|done]. intros [= <-]. lia.
  - intros s' <-. rewrite call_fst. by apply same_count.
  - apply wp_SADD; [by apply (wf_has_type m (KDeps id))|]. same_at (KDeps id).
  - unfold advanceChordScript. apply wp_bind, wp_SREM; [by apply (wf_has_type m (KDeps id))|].
    assert (Hi : same_places m (put (depsKey id) (RSet (set_at m (depsKey id) ∖ {[j]})) m)) by same_at (KDeps id).
    apply wp_SCARD; [|exact Hi].
    apply has_type_put; [by apply (wf_has_type m (KDeps id))|by intros _].
  - destruct Ho as (Hnow & Hmax & Hper). eapply wp_mono; [by apply wp_bucket_frame|]. cbv beta.
    intros m' r [->|(tokens & last & ->)]; [done|]. same_at (KRate kind).
  - apply wp_HSETNX; [by apply (wf_has_type m KCron)|]. case_decide; [done|]. same_at KCron.
  - apply wp_cas; [by apply (wf_has_type m KCron)|]. unfold cas_ks. case_decide; [|done]. same_at KCron.
Qed.

Lemma refines_op o s : wf_op o → Inv (ks s) → refined q o (ks s) (ks (run_op o s)).
Proof.
  intros Ho HI. destruct o.
  1: by apply refines_enqueue.
  1: by apply refines_dequeue.
  1: by apply refines_ack.
  1: by apply refines_nack.
  1: by apply refines_reschedule.
  1: by apply refines_cancel.
  1: by apply refines_promote.
  1: by apply refines_extend.
  1: by apply refines_recover.
  1: by apply refines_retry.
  1: by apply refines_purge.
  all: exists []; split; [done|]; rewrite (board_ext q (ks s) (ks (run_op _ s))); [constructor|done|].
  all: apply aside_op; [by intros []|exact Ho|exact HI].
Qed.
End Refinement.

(** ** What follows *)

Section Consequences.
Context {S : Type} `{RedisLaws S} `{LuaFloatLaws} `{JsonLaws WfRecord}.

Lemma board_idle q s s' : reachable s → wf_queue q →
  s' = (transport s).1 ∨ (∃ d, 0 ≤ d ∧ s' = advance d s) → board_of q (ks s') = board_of q (ks s).
Proof.
  intros Hs Hq [->|(d & Hd & ->)].
  - by destruct (law_transport s) as [-> _].
  - apply board_ext; [done|]. intros k Hk Hp. rewrite law_advance by done.
    by rewrite (sound_lasting _ (reachable_sound s Hs) k Hk Hp).
Qed.

(** C3: the program refines the board.  From any reachable state every request
    does to every queue exactly the events it promises, each enabled when it
    happens; an accident of the network or the passing of time does nothing.  A
    dequeue takes the first ready job and leaves empty-handed only from a paused
    or empty queue; an enqueue adds its job unless another holds its unique key;
    a promotion moves exactly the jobs that are due and a recovery exactly those
    whose lease has run out, under their own priorities; a nack retries, or
    buries a job with no attempts left. *)
Theorem steps_refine s q : reachable s → wf_queue q →
  (∀ o, wf_op o → ∃ es, promised q (ks s) o es ∧
     happens es (board_of q (ks s)) (board_of q (ks (run_op o s)))) ∧
  board_of q (ks (transport s).1) = board_of q (ks s) ∧
  (∀ d, 0 ≤ d → board_of q (ks (advance d s)) = board_of q (ks s)).
Proof.
  intros Hs Hq. split_and!.
  - intros o Ho. by apply refines_op, sound_inv, reachable_sound.
  - apply board_idle; auto.
  - intros d Hd. apply board_idle; eauto.
Qed.

(** *** A job stays on the board until it is settled *)

Definition settles (q j : string) (o : op) : Prop :=
  (∃ now w, o = OAck now q j w) ∨ (∃ now w reason, o = OCancel now q j w reason) ∨ o = OPurgeDead q.

(** The events of any other request keep a sound job on the board. *)
Lemma promised_keeps q j o m es b : wf_queue q → promised q m o es → sound_stats m → sound_job j m →
  happens es (board_of q m) b → on_board j (board_of q m) → on_board j b ∨ settles q j o.
Proof.
  intros Hq Hp Hst Hjob Hh Hj.
  assert (Hkeep : (∀ e, e ∈ es → ¬ ends j e) → on_board j b ∨ settles q j o).
  { intros He. left. by apply (on_board_events j es _ _ He Hh). }
  assert (Hnil : es = [] → on_board j b ∨ settles q j o).
  { intros ->. apply Hkeep. by intros e ?%elem_of_nil. }
  assert (Hone : ∀ e, es = [e] → ¬ ends j e → on_board j b ∨ settles q j o).
  { intros e -> He. apply Hkeep. by intros e' ->%list_elem_of_singleton. }
  assert (Hall : ∀ (ids : list string) (ev : string → event), (∀ i, ¬ ends j (ev i)) →
    es = ev <$> ids → on_board j b ∨ settles q j o).
  { intros ids ev Hev ->. apply Hkeep. intros e (i & -> & _)%list_elem_of_fmap. apply Hev. }
  assert (Hmoved : ∀ i e, es = [Release i; e] → (∀ b, on_board i (happen b e)) →
    subject e = Some i → ¬ ends i e → on_board j b ∨ settles q j o).
  { intros i e -> Hi Hsub He. left. rewrite (happens_foldl _ _ _ Hh). by apply on_board_moved. }
  unfold settles. destruct o; cbn in Hp; try (apply Hnil; exact Hp); case_decide as Hqq; try (apply Hnil; exact Hp);
    try subst q0.
  - case_decide; [by apply Hnil|]. eapply Hone; [exact Hp|]. case_decide; by intros [].
  - destruct Hp as [[Hes _]|(_ & i & ? & ? & _ & Hes)]; [by apply Hnil|]. eapply Hone; [exact Hes|by intros []].
  - destruct (decide (j0 = j)) as [->|Hne]; [right; left; eauto|]. by eapply Hone; [exact Hp|].
  - destruct Hp as [[Hes Hn]|Hes].
    + eapply Hone; [exact Hes|]. cbn. intros ->. by apply Hn.
    + case_decide; eapply Hmoved; [exact Hes|apply on_board_buried|done|by intros []
        |exact Hes|intros; apply on_board_postponed|done|by intros []].
  - eapply Hmoved; [exact Hp|intros; apply on_board_postponed|done|by intros []].
  - destruct (decide (j0 = j)) as [->|Hne]; [right; right; left; eauto|]. by eapply Hone; [exact Hp|].
  - eapply (Hall _ (λ i, Due i _ _)); [by intros ? []|exact Hp].
  - case_decide; [eapply Hone; [exact Hp|by intros []]|by apply Hnil].
  - eapply (Hall _ (λ i, Expire i _ _)); [by intros ? []|exact Hp].
  - case_decide; [eapply Hone; [exact Hp|by intros []]|by apply Hnil].
  - right. by right; right.
Qed.

(** C6: a job leaves a queue only when it is settled.  As long as the failure
    counters have not overflowed and the job's record is complete, no request
    but an acknowledgement or a cancellation of this job, or a purge of the
    queue, takes it off the board: no sweep, no promotion, no failure and no
    request about another job or queue can lose it. *)
Theorem leaves_only_settled s s' q j : reachable s → step s s' → wf_queue q →
  sound_stats (ks s) → sound_job j (ks s) → on_board j (board_of q (ks s)) →
  on_board j (board_of q (ks s')) ∨ ∃ o, settles q j o ∧ s' = run_op o s.
Proof.
  intros Hs Hstep Hq Hst Hjob Hj. pose proof (board_idle q s s' Hs Hq) as Hidle.
  destruct Hstep as [o s Ho|s|d s Hd]; [|left; rewrite Hidle; eauto..].
  destruct (refines_op q Hq o s Ho (sound_inv _ (reachable_sound s Hs))) as (es & Hp & Hh).
  destruct (promised_keeps q j o _ es _ Hq Hp Hst Hjob Hh Hj); eauto.
Qed.

(** *** A delayed job waits for promotion *)

(** Everything but a promotion of queue [q]. *)
Inductive unpromoted (q : string) : S → S → Prop :=
  | unpromoted_op o s : wf_op o → (∀ now limit, o ≠ OPromote now q limit) → unpromoted q s (run_op o s)
  | unpromoted_net s : unpromoted q s (transport s).1
  | unpromoted_time d s : 0 ≤ d → unpromoted q s (advance d s).

Lemma unpromoted_step q s s' : unpromoted q s s' → step s s'.
Proof. destruct 1; by constructor. Qed.

Lemma promised_due q m o es j p now : promised q m o es → Due j p now ∈ es →
  ∃ now limit, o = OPromote now q limit.
Proof.
  intros Hp He. assert (Hnil : es = [] → False) by by intros ->; apply elem_of_nil in He.
  destruct o; cbn in Hp; try by destruct Hnil.
  all: destruct (decide (_ = q)) as [<-|] in Hp; [|by destruct Hnil].
  7: eauto.
  8: { exfalso. subst es. by apply list_elem_of_fmap in He as (i & ? & _). }
  all: exfalso; repeat case_decide; destruct_or?;
    repeat (destruct_and?; match goal with Hx : ∃ _, _ |- _ => destruct Hx end); destruct_and?; subst;
    repeat (apply elem_of_cons in He as [He|He]; [done|]); by apply elem_of_nil in He.
Qed.

(** A delayed job becomes ready by promotion only.  Whatever else happens to
    the server, for however long, a job that is delayed in a queue stays
    delayed until some process promotes the jobs of that queue. *)
Theorem delayed_until_promoted q j s s' : reachable s → wf_queue q → rtc (unpromoted q) s s' →
  is_Some (zset_at (ks s) (delayedKey q) !! j) → is_Some (zset_at (ks s') (delayedKey q) !! j).
Proof.
  intros Hs Hq Hr. induction Hr as [s|s s1 s' Hstep _ IH]; [done|]. intros Hj.
  apply IH; [by eapply reachable_step, unpromoted_step|]. pose proof (board_idle q s s1 Hs Hq) as Hidle.
  change (is_Some (Delayed (board_of q (ks s1)) !! j)). change (is_Some (Delayed (board_of q (ks s)) !! j)) in Hj.
  destruct Hstep as [o s Ho Hne|s|d s Hd]; [|rewrite Hidle; eauto..].
  destruct (refines_op q Hq o s Ho (sound_inv _ (reachable_sound s Hs))) as (es & Hp & Hh).
  revert Hj. apply (happens_ind' (λ b, is_Some (Delayed b !! j)) es _ _); [|exact Hh].
  intros e b He _. apply delayed_event. intros p now ->.
  destruct (promised_due q _ _ _ j p now Hp He) as (now' & limit & ->). by destruct (Hne now' limit).
Qed.

(** *** A held job is nowhere else *)

(** Jobs are enqueued under fresh names, and only a held job is failed or
    rescheduled. *)
Definition careful (o : op) (m : keyspace) : Prop :=
  match o with
  | OEnqueue job _ _ => ¬ on_board (ID job) (board_of (Job.Queue job) m)
  | ONack _ q j _ _ _ _ | OReschedule q j _ _ => is_Some (zset_at m (leaseKey q) !! j)
  | _ => True
  end.

Inductive orderly : S → Prop :=
  | orderly_init s : ks s = ∅ → expires s = ∅ → orderly s
  | orderly_op o s : orderly s → wf_op o → careful o (ks s) → orderly (run_op o s)
  | orderly_net s : orderly s → orderly (transport s).1
  | orderly_time d s : orderly s → 0 ≤ d → orderly (advance d s).

Lemma orderly_reachable s : orderly s → reachable s.
Proof.
  induction 1 as [s Hk He|o s _ IH Ho _|s _ IH|d s _ IH Hd]; [by apply reachable_init| | |];
    (eapply reachable_step; [exact IH|by constructor]).
Qed.

Lemma promised_exclusive q m o es b : careful o m → promised q m o es →
  happens es (board_of q m) b → exclusive (board_of q m) → exclusive b.
Proof.
  intros Hc Hp Hh Hb.
  assert (Hneutral : (∀ e, e ∈ es → neutral e) → exclusive b).
  { intros He. by apply (exclusive_neutral es (board_of q m)). }
  assert (Hnil : es = [] → exclusive b).
  { intros ->. apply Hneutral. by intros e ?%elem_of_nil. }
  assert (Hone : ∀ e, es = [e] → neutral e → exclusive b).
  { intros e -> He. apply Hneutral. by intros e' ->%list_elem_of_singleton. }
  assert (Hall : ∀ (ids : list string) (ev : string → event), (∀ i, neutral (ev i)) →
    es = ev <$> ids → exclusive b).
  { intros ids ev Hev ->. apply Hneutral. intros e (i & -> & _)%list_elem_of_fmap. apply Hev. }
  assert (Hmoved : ∀ i e, es = [Release i; e] → is_Some (Held (board_of q m) !! i) →
    (∀ b, enabled e b ∧ (tidy e b ↔ places i b = 0%nat)) → exclusive b).
  { intros i e -> Hi He. rewrite (happens_foldl _ _ _ Hh). by apply exclusive_moved; [..|apply He|apply He]. }
  destruct o; cbn in Hp; try (apply Hnil; exact Hp); destruct (decide (_ = q)) as [<-|] in Hp;
    try (apply Hnil; exact Hp); cbn in Hc.
  - case_decide as Hdup; [by apply Hnil|]. rewrite Hp in Hh. rewrite (happens_foldl _ _ _ Hh).
    cbn [foldl]. apply exclusive_event; [done|by case_decide|]. apply not_on_board in Hc. by case_decide.
  - destruct Hp as [[Hes _]|(_ & i & ? & ? & _ & Hes)]; [by apply Hnil|]. by eapply Hone.
  - by eapply Hone.
  - destruct Hp as [[Hes _]|Hes]; [by eapply Hone|]. case_decide; by eapply Hmoved.
  - by eapply Hmoved.
  - by eapply Hone.
  - by eapply (Hall _ (λ i, Due i _ _)); [|exact Hp].
  - case_decide; [by eapply Hone|by apply Hnil].
  - by eapply (Hall _ (λ i, Expire i _ _)); [|exact Hp].
  - case_decide; [by eapply Hone|by apply Hnil].
  - by eapply Hone.
Qed.

Lemma orderly_exclusive s q : orderly s → wf_queue q → exclusive (board_of q (ks s)).
Proof.
  intros Hs Hq. induction Hs as [s Hk He|o s Hs IH Ho Hc|s Hs IH|d s Hs IH Hd].
  - rewrite Hk. split; [|constructor]. intros j. unfold places. cbn. unfold zset_at, list_at.
    rewrite !lookup_empty. cbn. unfold dead_occ. rewrite decide_False by apply not_elem_of_nil. lia.
  - pose proof (sound_inv _ (reachable_sound s (orderly_reachable s Hs))) as HI.
    destruct (refines_op q Hq o s Ho HI) as (es & Hp & Hh). by eapply promised_exclusive.
  - rewrite (board_idle q s) by (auto using orderly_reachable). exact IH.
  - rewrite (board_idle q s) by (eauto using orderly_reachable). exact IH.
Qed.

Lemma orderly_nowhere_else s q j : orderly s → wf_queue q → j ∈ set_at (ks s) (activeKey q) →
  zset_at (ks s) (readyKey q) !! j = None ∧ zset_at (ks s) (delayedKey q) !! j = None ∧
  j ∉ list_at (ks s) (deadKey q).
Proof.
  intros Hs Hq Hj. destruct (orderly_exclusive s q Hs Hq) as [Hex _]. specialize (Hex j).
  pose proof (sound_inv _ (reachable_sound s (orderly_reachable s Hs))) as HI.
  apply (inv_leased _ HI j q Hq) in Hj. unfold places in Hex. cbn in Hex. apply occ_Some in Hj.
  rewrite dead_occ_in. unfold occ in *. repeat case_match; lia || (split_and!; done || lia).
Qed.

(** C5: a job is never handed out twice at a time.  If jobs are enqueued under
    fresh names and only held jobs are failed or rescheduled, then whatever the
    interleaving a job that is active in a queue is neither ready nor delayed
    nor dead in it, so no dequeue can give it to a second worker before its
    lease expires or its holder lets go of it. *)
Theorem held_nowhere_else s q j : orderly s → wf_queue q → j ∈ set_at (ks s) (activeKey q) →
  zset_at (ks s) (readyKey q) !! j = None ∧ zset_at (ks s) (delayedKey q) !! j = None ∧
  j ∉ list_at (ks s) (deadKey q).
Proof. apply orderly_nowhere_else. Qed.

(** A repeated enqueue is not harmless.  The script does not look whether it
    ran before: when a client repeats the request of an ordinary job whose first
    reply was lost, and a worker took the job in between, the job is ready and
    active at the same time, so a second worker will execute it too. *)
Theorem enqueue_repeated job s : reachable s → wf_op (OEnqueue job "" 0) → ScheduledAt job ≤ 0 →
  ID job ∈ set_at (ks s) (activeKey (Job.Queue job)) →
  let s' := run_op (OEnqueue job "" 0) s in
  ID job ∈ set_at (ks s') (activeKey (Job.Queue job)) ∧
  is_Some (zset_at (ks s') (readyKey (Job.Queue job)) !! ID job).
Proof.
  intros Hs Ho Hsched Ha s'. pose proof Ho as ((_ & Hq & _) & _).
  pose proof (reachable_sound s Hs) as Hsound. pose proof (sound_inv _ Hsound) as HI.
  assert (HI' : Inv (ks s')) by by apply good_op.
  destruct (refines_op (Job.Queue job) Hq _ s Ho HI) as (es & Hp & Hh).
  cbn [promised] in Hp. rewrite decide_True in Hp by done.
  apply (inv_leased _ HI _ _ Hq) in Ha. rewrite (inv_leased _ HI' _ _ Hq).
  rewrite (decide_False (P := duplicate _ _ _)) in Hp by (intros (Hdup & _); by destruct Hdup).
  rewrite decide_False in Hp by lia. rewrite Hp in Hh. apply happens_foldl in Hh. cbn [foldl] in Hh.
  change (is_Some (Held (board_of (Job.Queue job) (ks s')) !! ID job) ∧
    is_Some (Ready (board_of (Job.Queue job) (ks s')) !! ID job)).
  unfold s'. rewrite Hh. cbn. rewrite lookup_insert_eq. by split; [|eexists].
Qed.
End Consequences.
