(* ===== verification/Tended.v ===== *)
(** * Tended: workers that beat keep their jobs

    A lease lasts for thirty seconds from the last heartbeat, and the scripts do
    not look who asks: whoever knows a job can settle it.  Here workers settle
    only the jobs in their hands, each at most once, and beat in time, as the
    sweepers' clocks see it; then no job is ever in two hands, and nothing takes
    a job out of the hands it is in, whatever else happens on the queues. *)
From S2P Require Import Board Prelude Float Keys Redis Lua Keyspace Job Scripts Queue ScriptSpecs QueueSpecs FinishSpecs SweepSpecs Places Winter Json Workflow WorkflowSpecs Cron CronSpecs RateLimit RateLimitSpecs Moves Texts Lifecycle Refines.

Open Scope string_scope.
Open Scope Z_scope.
Open Scope list_scope.

(** ** On the board *)

(** The events that change whether and how long a job is held. *)
Definition grips (j : string) (e : event) : Prop :=
  match e with
  | Take i _ | Extend i _ | Release i | Expire i _ _ => i = j
  | _ => False
  end.

Lemma held_event j e b : ¬ grips j e → Held (happen b e) !! j = Held b !! j.
Proof.
  intros Hg. destruct e; cbn in *; try done; by rewrite ?lookup_insert_ne, ?lookup_delete_ne.
Qed.

Lemma held_events j es b b' : (∀ e, e ∈ es → ¬ grips j e) → happens es b b' → Held b' !! j = Held b !! j.
Proof.
  intros Hg Hh. induction Hh as [|e es b b' He _ IH]; [done|].
  rewrite IH by (intros e' He'; apply Hg; by right). apply held_event, Hg. by left.
Qed.

(** A held job is not handed out. *)
Lemma take_other j i t b : exclusive b → is_Some (Held b !! j) → enabled (Take i t) b → i ≠ j.
Proof.
  intros [Hex _] Hj (p & rest & He) ->. specialize (Hex j). apply occ_Some in Hj.
  assert (HR : Ready b !! j = Some p) by (apply zsorted_elem; rewrite He; by left).
  unfold places in Hex. rewrite HR in Hex. cbn in Hex. lia.
Qed.

(** ** In the program *)

(** The requests by which a worker lets go of a job, and its heartbeat. *)
Definition lets_go (q j : string) (o : op) : Prop :=
  match o with
  | OAck _ q' i _ | OCancel _ q' i _ _ | ONack _ q' i _ _ _ _ | OReschedule q' i _ _ => q' = q ∧ i = j
  | _ => False
  end.

Definition beats (q j : string) (o : op) : Prop :=
  match o with OExtendLease _ q' i _ => q' = q ∧ i = j | _ => False end.

(** A sweep of the queue for which the lease is over. *)
Definition overtakes (q j : string) (m : keyspace) (o : op) : Prop :=
  match o with
  | ORecover q' _ nowMs => q' = q ∧ ∃ t, zset_at m (leaseKey q) !! j = Some t ∧ t ≤ nowMs
  | _ => False
  end.

Lemma promised_lease q j o m es b : exclusive (board_of q m) → promised q m o es →
  happens es (board_of q m) b → is_Some (Held (board_of q m) !! j) →
  ¬ lets_go q j o → ¬ beats q j o → ¬ overtakes q j m o →
  Held b !! j = Held (board_of q m) !! j.
Proof.
  intros Hex Hp Hh Hj Hgo Hbeat Hover.
  assert (Hgrip : (∀ e, e ∈ es → ¬ grips j e) → Held b !! j = Held (board_of q m) !! j).
  { intros Hg. by apply (held_events j es). }
  assert (Hnil : es = [] → Held b !! j = Held (board_of q m) !! j).
  { intros ->. apply Hgrip. by intros e ?%elem_of_nil. }
  assert (Hone : ∀ e, es = [e] → ¬ grips j e → Held b !! j = Held (board_of q m) !! j).
  { intros e -> He. apply Hgrip. by intros e' ->%list_elem_of_singleton. }
  assert (Htwo : ∀ e e', es = [e; e'] → ¬ grips j e → ¬ grips j e' → Held b !! j = Held (board_of q m) !! j).
  { intros e e' -> He He'. apply Hgrip. intros e2 [->|Hin]%elem_of_cons; [done|].
    by apply list_elem_of_singleton in Hin as ->. }
  assert (Hall : ∀ (ids : list string) (ev : string → event), (∀ i, i ∈ ids → ¬ grips j (ev i)) →
    es = ev <$> ids → Held b !! j = Held (board_of q m) !! j).
  { intros ids ev Hev ->. apply Hgrip. intros e (i & -> & Hi)%list_elem_of_fmap. by apply Hev. }
  destruct o as [job u p|now q' w|now q' i w|now q' i w e backoff skip|q' i w t|now q' i w reason|now q' limit
    |now q' i ext|q' limit nowMs|q' i|q'|q'|q'|now w|w|w|i data ttl|c|id text|id|id i|id i|kind max per now
    |name st|name x y]; cbn in Hp, Hgo, Hbeat, Hover; try (apply Hnil; exact Hp);
    case_decide as Hqq; try (apply Hnil; exact Hp).
  - case_decide; [by apply Hnil|]. eapply Hone; [exact Hp|]. case_decide; by intros [].
  - destruct Hp as [[Hes _]|(_ & i & ? & ? & _ & Hes)]; [by apply Hnil|]. eapply Hone; [exact Hes|]. cbn.
    subst es. inversion Hh as [|? ? ? ? Hen _]; subst. by eapply take_other.
  - eapply Hone; [exact Hp|]. cbn. tauto.
  - destruct Hp as [[Hes _]|Hes]; [eapply Hone; [exact Hes|cbn; tauto]|].
    case_decide; (eapply Htwo; [exact Hes|cbn; tauto..]).
  - eapply Htwo; [exact Hp|cbn; tauto..].
  - eapply Hone; [exact Hp|]. cbn. tauto.
  - eapply (Hall _ (λ i, Due i _ _)); [by intros ? _ []|exact Hp].
  - case_decide; [eapply Hone; [exact Hp|cbn; tauto]|by apply Hnil].
  - eapply (Hall _ (λ i, Expire i _ nowMs)); [|exact Hp]. cbn. intros i Hi ->.
    apply due_elem in Hi as (t & Ht & Hle). apply Hover. split; [done|]. by exists t.
  - case_decide; [eapply Hone; [exact Hp|by intros []]|by apply Hnil].
  - eapply Hone; [exact Hp|by intros []].
Qed.

(** A job in the hands of a worker, with the time of its last heartbeat. *)
Record hand : Type := Hand { holder : string; of_queue : string; of_job : string; last_beat : Z }.

Definition job_of (h : hand) : string * string := (of_queue h, of_job h).

(** The requests with which the worker lets go of a job. *)
Definition settlement (h : hand) (o : op) : Prop :=
  match o with
  | OAck _ q j w | OCancel _ q j w _ | ONack _ q j w _ _ _ | OReschedule q j w _ =>
      q = of_queue h ∧ j = of_job h ∧ w = holder h
  | _ => False
  end.

(** The requests that concern no job in anybody's hands. *)
Definition elsewhere (o : op) : Prop :=
  match o with
  | OAck _ _ _ _ | OCancel _ _ _ _ _ | ONack _ _ _ _ _ _ _ | OReschedule _ _ _ _ | OExtendLease _ _ _ _
  | ODequeue _ _ _ | ORecover _ _ _ => False
  | _ => True
  end.

(** A heartbeat for a job, whoever sends it. *)
Definition felt (now : Z) (q j : string) (h : hand) : hand :=
  if decide (job_of h = (q, j)) then Hand (holder h) q j now else h.

Section Tended.
Context {S : Type} `{RedisLaws S} `{LuaFloatLaws} `{JsonLaws WfRecord}.

(** Workers and everybody else at the queues: the jobs in the hands of the workers,
    and the server.  A dequeue puts the job it takes into the hands of its worker,
    or of nobody if the reply is lost; a worker settles a job in its hands, once,
    or dies with it; anybody may renew any lease for thirty seconds; a sweep comes
    less than thirty seconds after the last heartbeat of every job of its queue in
    hand.  Everything else, on whatever queue, keeps the rules of [orderly]. *)
Inductive working : list hand * S → list hand * S → Prop :=
  | working_take hands s now q w j p rest : wf_op (ODequeue now q w) → ks s !! pausedKey q = None →
      zsorted (zset_at (ks s) (readyKey q)) = (j, p) :: rest →
      working (hands, s) (Hand w q j now :: hands, run_op (ODequeue now q w) s)
  | working_ask hands s now q w : wf_op (ODequeue now q w) →
      working (hands, s) (hands, run_op (ODequeue now q w) s)
  | working_settle before h after s o : wf_op o → settlement h o →
      working (before ++ h :: after, s) (before ++ after, run_op o s)
  | working_die before h after s : working (before ++ h :: after, s) (before ++ after, s)
  | working_beat hands s now q j : wf_op (OExtendLease now q j DefaultLeaseDuration) →
      working (hands, s) (felt now q j <$> hands, run_op (OExtendLease now q j DefaultLeaseDuration) s)
  | working_sweep hands s q limit nowMs : wf_op (ORecover q limit nowMs) →
      (∀ h, h ∈ hands → of_queue h = q → nowMs < UnixMilli (last_beat h) + 30000) →
      working (hands, s) (hands, run_op (ORecover q limit nowMs) s)
  | working_other hands s o : wf_op o → careful o (ks s) → elsewhere o →
      working (hands, s) (hands, run_op o s)
  | working_net hands s : working (hands, s) (hands, (transport s).1)
  | working_time hands d s : 0 ≤ d → working (hands, s) (hands, advance d s).

(** Held until thirty seconds after the last heartbeat. *)
Definition kept (s : S) (h : hand) : Prop :=
  wf_queue (of_queue h) ∧
  zset_at (ks s) (leaseKey (of_queue h)) !! of_job h = Some (UnixMilli (last_beat h) + 30000).

Record all_kept (x : list hand * S) : Prop := {
  kept_orderly : orderly x.2;
  kept_once : NoDup (job_of <$> x.1);
  kept_each : Forall (kept x.2) x.1
}.

Lemma lease_ms t : UnixMilli (t + DefaultLeaseDuration) = UnixMilli t + 30000.
Proof.
  unfold UnixMilli, DefaultLeaseDuration, Millisecond, Second.
  replace (t + 30 * 1000000000) with (t + 30000 * 1000000) by lia. by rewrite Z.div_add.
Qed.

Lemma refines_orderly o s q : orderly s → wf_op o → wf_queue q →
  ∃ es, promised q (ks s) o es ∧ happens es (board_of q (ks s)) (board_of q (ks (run_op o s))).
Proof. intros Ho Hop Hq. by apply refines_op, sound_inv, reachable_sound, orderly_reachable. Qed.

(** A request that neither settles the job, nor renews its lease, nor sweeps it. *)
Lemma kept_op o s h : orderly s → wf_op o → ¬ lets_go (of_queue h) (of_job h) o →
  ¬ beats (of_queue h) (of_job h) o →
  (∀ limit nowMs, o = ORecover (of_queue h) limit nowMs → nowMs < UnixMilli (last_beat h) + 30000) →
  kept s h → kept (run_op o s) h.
Proof.
  intros Ho Hop Hgo Hb Hsw [Hq Hl]. split; [done|].
  destruct (refines_orderly o s (of_queue h) Ho Hop Hq) as (es & Hp & Hh). rewrite <- Hl.
  change (Held (board_of (of_queue h) (ks (run_op o s))) !! of_job h = Held (board_of (of_queue h) (ks s)) !! of_job h).
  eapply promised_lease; [by apply orderly_exclusive|done|done| |done..|].
  - cbn. rewrite Hl. eauto.
  - destruct o; cbn; try done. intros [-> (t & Ht & Hle)]. rewrite Hl in Ht. injection Ht as <-.
    specialize (Hsw _ _ eq_refl). lia.
Qed.

Lemma kept_beat now q j s h : orderly s → wf_op (OExtendLease now q j DefaultLeaseDuration) → kept s h →
  kept (run_op (OExtendLease now q j DefaultLeaseDuration) s) (felt now q j h).
Proof.
  intros Ho Hop Hk. unfold felt. case_decide as Hj; [|apply kept_op; [done|done|by intros []| |by intros ??|done]].
  - destruct h as [w q' j' b]. destruct Hk as [Hq Hl]. cbn in Hj, Hq, Hl. injection Hj as -> ->. split; [done|]. cbn [of_queue of_job last_beat].
    destruct (refines_orderly _ s q Ho Hop Hq) as (es & Hp & Hh). cbn in Hp.
    rewrite decide_True in Hp by done. rewrite decide_True in Hp by (rewrite Hl; eauto). subst es.
    change (Held (board_of q (ks (run_op (OExtendLease now q j DefaultLeaseDuration) s))) !! j =
      Some (UnixMilli now + 30000)).
    rewrite (happens_foldl _ _ _ Hh). cbn [foldl happen Held]. by rewrite lookup_insert_eq, lease_ms.
  - intros [-> ->]. by apply Hj.
Qed.

(** A dequeue takes a job that nobody holds, for thirty seconds. *)
Lemma kept_take now q w j p rest s : orderly s → wf_op (ODequeue now q w) → ks s !! pausedKey q = None →
  zsorted (zset_at (ks s) (readyKey q)) = (j, p) :: rest →
  kept (run_op (ODequeue now q w) s) (Hand w q j now) ∧ ∀ h, kept s h → job_of h ≠ (q, j).
Proof.
  intros Ho Hop Hpause Hz. pose proof Hop as [Hq _].
  destruct (refines_orderly _ s q Ho Hop Hq) as (es & Hp & Hh). cbn [promised] in Hp.
  rewrite decide_True in Hp by done.
  destruct Hp as [[_ [[? Hn]|He]]|(_ & i & p' & rest' & Hi & ->)]; [congruence| |].
  { exfalso. cbn in He. rewrite He in Hz. by vm_compute in Hz. }
  cbn in Hi. rewrite Hz in Hi. injection Hi as <- <- <-. split; [split; [done|]|].
  - change (Held (board_of q (ks (run_op (ODequeue now q w) s))) !! j = Some (UnixMilli now + 30000)).
    rewrite (happens_foldl _ _ _ Hh). cbn [foldl happen Held]. by rewrite lookup_insert_eq.
  - intros [w' q' j' b] [_ Hl] [= -> ->]. cbn in Hl. inversion Hh as [|? ? ? ? Hen _]; subst.
    eapply (take_other j j); [by apply (orderly_exclusive s q)|cbn; rewrite Hl; eauto|exact Hen|done].
Qed.

Lemma all_kept_take now q w j p rest hands s : wf_op (ODequeue now q w) → ks s !! pausedKey q = None →
  zsorted (zset_at (ks s) (readyKey q)) = (j, p) :: rest → all_kept (hands, s) →
  all_kept (Hand w q j now :: hands, run_op (ODequeue now q w) s).
Proof.
  intros Hop Hpause Hz [Ho Hnd Hk]. cbn [fst snd] in *.
  destruct (kept_take now q w j p rest s Ho Hop Hpause Hz) as [Hnew Hne]. rewrite Forall_forall in Hk.
  split; cbn [fst snd].
  - by apply orderly_op.
  - rewrite fmap_cons. constructor; [|done]. intros (h & Hj & Hh)%list_elem_of_fmap. by apply (Hne h); [apply Hk|].
  - constructor; [done|]. apply Forall_forall. intros h Hh. apply kept_op; [done|done|by intros []..|by intros ??|by apply Hk].
Qed.

(** Letting go of one job leaves the others in hand. *)
Lemma all_kept_settle before h after s o : wf_op o → settlement h o → all_kept (before ++ h :: after, s) →
  all_kept (before ++ after, run_op o s).
Proof.
  intros Hop Hs [Ho Hnd Hk]. cbn [fst snd] in *. rewrite <- Permutation_middle, fmap_cons in Hnd. rewrite <- Permutation_middle in Hk.
  apply NoDup_cons in Hnd as [Hh Hnd]. apply Forall_cons in Hk as [[Hq Hl] Hk]. split; cbn [fst snd].
  - apply orderly_op; [done|done|]. destruct o; try done; destruct Hs as (-> & -> & _); cbn; rewrite Hl; eauto.
  - done.
  - rewrite Forall_forall in Hk |- *. intros h' Hin. apply kept_op; [done|done|..|by apply Hk].
    + intros Hgo. apply Hh. rewrite list_elem_of_fmap. exists h'. split; [|done]. unfold job_of.
      destruct o; cbn in Hs, Hgo; destruct_and?; try done; congruence.
    + intros Hb. by destruct o.
    + by intros limit nowMs ->.
Qed.

Lemma all_kept_step x y : working x y → all_kept x → all_kept y.
Proof.
  intros Hstep. destruct Hstep as [hands s now q w j p rest Hop Hpause Hz|hands s now q w Hop|before h after s o Hop Hs
    |before h after s|hands s now q j Hop|hands s q limit nowMs Hop Hsw|hands s o Hop Hc He|hands s|hands d s Hd].
  - by apply (all_kept_take now q w j p rest).
  - intros [Ho Hnd Hk]. split; [by apply orderly_op|done|]. eapply Forall_impl; [exact Hk|]. cbn [fst snd] in *.
    intros h. apply kept_op; [done|done|by intros []..|by intros ??].
  - by apply all_kept_settle.
  - intros [Ho Hnd Hk]. cbn [fst snd] in *. rewrite <- Permutation_middle, fmap_cons in Hnd. rewrite <- Permutation_middle in Hk.
    apply NoDup_cons in Hnd as [_ Hnd]. by apply Forall_cons in Hk as [_ Hk].
  - intros [Ho Hnd Hk]. split; [by apply orderly_op| |]; cbn [fst snd] in *.
    + rewrite <- list_fmap_compose. erewrite list_fmap_ext; [exact Hnd|].
      intros i h _. cbn. unfold felt. by case_decide.
    + apply Forall_fmap. eapply Forall_impl; [exact Hk|]. intros h. by apply kept_beat.
  - intros [Ho Hnd Hk]. split; [by apply orderly_op|done|]; cbn [fst snd] in *.
    rewrite Forall_forall in Hk |- *. intros h Hin. apply kept_op; [done|done|by intros []..| |by apply Hk].
    intros l n [= -> -> ->]. by apply Hsw.
  - intros [Ho Hnd Hk]. split; [by apply orderly_op|done|]. eapply Forall_impl; [exact Hk|]. cbn [fst snd] in *.
    intros h. apply kept_op; [done|done|intros Hx; by destruct o..|by intros ?? ->].
  - intros [Ho Hnd Hk]. split; [by apply orderly_net|done|]. eapply Forall_impl; [exact Hk|]. cbn [fst snd] in *.
    intros h [Hq Hl]. split; [done|]. pose proof (board_idle _ s (transport s).1 (orderly_reachable s Ho) Hq) as E.
    rewrite <- Hl. exact (f_equal (λ b, Held b !! of_job h) (E ltac:(auto))).
  - intros [Ho Hnd Hk]. split; [by apply orderly_time|done|]. eapply Forall_impl; [exact Hk|]. cbn [fst snd] in *.
    intros h [Hq Hl]. split; [done|]. pose proof (board_idle _ s (advance d s) (orderly_reachable s Ho) Hq) as E.
    rewrite <- Hl. exact (f_equal (λ b, Held b !! of_job h) (E ltac:(eauto))).
Qed.

(** C10: workers that beat in time keep their jobs.  However many workers take jobs,
    renew their leases and settle or drop them, each only what it has taken and
    not twice, and whatever else clients, sweepers, operators and the network
    do, as long as every sweep of a queue comes less than thirty seconds after
    the last heartbeat of each of its jobs in hand: no job is in two hands, and
    every job in hand is active under a lease that ends thirty seconds after its
    last heartbeat and neither ready nor delayed nor dead, so that no dequeue,
    promotion or revival can give it to anybody else. *)
Theorem tended_job_kept s0 hands s : orderly s0 → rtc working ([], s0) (hands, s) →
  NoDup (job_of <$> hands) ∧
  ∀ h, h ∈ hands →
    of_job h ∈ set_at (ks s) (activeKey (of_queue h)) ∧
    zset_at (ks s) (leaseKey (of_queue h)) !! of_job h = Some (UnixMilli (last_beat h) + 30000) ∧
    zset_at (ks s) (readyKey (of_queue h)) !! of_job h = None ∧
    zset_at (ks s) (delayedKey (of_queue h)) !! of_job h = None ∧
    of_job h ∉ list_at (ks s) (deadKey (of_queue h)).
Proof.
  intros Ho Hr. assert (Hx : all_kept (hands, s)).
  { assert (Hx : all_kept ([], s0)) by (by split; [|constructor|]). revert Hx. clear Ho.
    induction Hr as [x|x y z Hstep _ IH]; [done|]. eauto using all_kept_step. }
  destruct Hx as [Ho' Hnd Hk]. cbn [fst snd] in *. split; [done|]. intros h Hh.
  rewrite Forall_forall in Hk. destruct (Hk h Hh) as [Hq Hl].
  pose proof (sound_inv _ (reachable_sound s (orderly_reachable s Ho'))) as HI.
  assert (Hj : of_job h ∈ set_at (ks s) (activeKey (of_queue h))) by (apply (inv_leased _ HI _ _ Hq); rewrite Hl; eauto).
  split; [done|]. split; [done|]. by apply orderly_nowhere_else.
Qed.
End Tended.
