(* ===== verification/System.v ===== *)
(** * System: programs are sequences of requests

    A Go function of the repository talks to the server in requests and does
    nothing else to it.  [issues c Q] says so: whatever the network does, the
    effect of [c] on the server is a sequence of steps of [Lifecycle.v], and a
    value it returns satisfies [Q].  As a step is atomic and everything between
    two steps may be interleaved with the steps of others, the invariants of the
    reachable states hold at every moment of any number of concurrent runs. *)
From S2P Require Import Client Prelude Float Keys Redis Lua Keyspace Job Scripts Queue ScriptSpecs QueueSpecs FinishSpecs SweepSpecs Places Winter Json Workflow WorkflowSpecs RateLimit RateLimitSpecs Cron CronSpecs Moves Texts Lifecycle.

Open Scope string_scope.
Open Scope Z_scope.

(** ** The calculus *)

Section Calculus.
Context {S : Type} `{RedisLaws S} `{LuaFloatLaws} `{JsonLaws WfRecord}.

Definition issues {E A} (c : M S E A) (Q : A → Prop) : Prop := ∀ s, reachable s →
  rtc step s (c s).1 ∧ match (c s).2 with Ok a => Q a | Err _ => True end.

Lemma issues_reachable {E A} (c : M S E A) (Q : A → Prop) s : issues c Q → reachable s → reachable (c s).1.
Proof. intros Hc Hs. apply (reachable_steps s); [done|]. by apply Hc. Qed.

Definition anything {A} (_ : A) : Prop := True.

Lemma issues_ret {E A} (a : A) (Q : A → Prop) : Q a → issues (mret a : M S E A) Q.
Proof. intros HQ s _. by split. Qed.

Lemma issues_throw {E A} (e : E) (Q : A → Prop) : issues (throw e : M S E A) Q.
Proof. intros s _. by split. Qed.

Lemma issues_mono {E A} (c : M S E A) (P Q : A → Prop) : issues c P → (∀ a, P a → Q a) → issues c Q.
Proof.
  intros Hc HPQ s Hs. destruct (Hc s Hs) as [Hr Ha]. split; [done|].
  destruct (c s).2; [by apply HPQ|done].
Qed.

Lemma issues_bind {E A B} (c : M S E A) (f : A → M S E B) (P : A → Prop) (Q : B → Prop) :
  issues c P → (∀ a, P a → issues (f a) Q) → issues (mbind f c) Q.
Proof.
  intros Hc Hf s Hs. destruct (Hc s Hs) as [Hr Ha]. unfold mbind, M_bind.
  destruct (c s) as [s' [a|e]]; cbn [fst snd] in *; [|done].
  destruct (Hf a Ha s') as [Hr' Hb]; [by eapply reachable_steps|]. split; [by etransitivity|done].
Qed.

Lemma issues_try {E E' A} (c : M S E A) (Q : result E A → Prop) :
  issues c (λ a, Q (Ok a)) → (∀ e, Q (Err e)) → issues (try c : M S E' (result E A)) Q.
Proof.
  intros Hc He s Hs. destruct (Hc s Hs) as [Hr Ha]. unfold try.
  destruct (c s) as [s' [a|e]]; cbn [fst snd] in *; split; auto.
Qed.

(** An execution of a script that is one request. *)
Lemma issues_op {A} (o : op) (script : M S string A) (Q : A → Prop) :
  wf_op o → (∀ s, (script s).1 = run_op o s) →
  (∀ s, reachable s → match (script s).2 with Ok a => Q a | Err _ => True end) → issues script Q.
Proof.
  intros Ho Hs HQ s Hr. split; [|by apply HQ]. rewrite Hs. by apply rtc_once, step_op.
Qed.

Lemma issues_op' {A} (o : op) (script : M S string A) :
  wf_op o → (∀ s, (script s).1 = run_op o s) → issues script anything.
Proof. intros Ho Hs. eapply issues_op; [done|done|]. intros s _. by destruct (script s).2. Qed.

(** A round trip: the script runs as often as the network has it. *)
Lemma issues_Run {A} (script : M S string A) (Q : A → Prop) : issues script Q → issues (Run script) Q.
Proof.
  intros Hc s Hs. unfold Run.
  assert (Ht : rtc step s (transport s).1) by (apply rtc_once, step_net).
  destruct (transport s) as [s1 d]. cbn [fst] in Ht.
  assert (Hiter : ∀ n, rtc step s (Nat.iter n (λ s, (script s).1) s1)).
  { induction n as [|n IH]; [exact Ht|]. cbn [Nat.iter]. etransitivity; [exact IH|].
    apply Hc. by eapply reachable_steps. }
  destruct d as [lost|n msg]; [|by split; [apply Hiter|]].
  destruct (Hc (Nat.iter lost (λ s, (script s).1) s1)) as [Hr Ha]; [by eapply reachable_steps|].
  split; [|done]. by etransitivity; [apply (Hiter lost)|].
Qed.

Lemma issues_for_each {E A} (l : list A) (body : A → M S E unit) :
  (∀ x, x ∈ l → issues (body x) anything) → issues (for_each l body) anything.
Proof.
  induction l as [|x l IH]; intros Hb; [by apply issues_ret|]. cbn [for_each].
  apply (issues_bind _ _ anything); [apply Hb; by left|]. intros _ _. apply IH.
  intros y Hy. apply Hb. by right.
Qed.

Lemma issues_for_each_i {E A} (l : list A) (body : nat → A → M S E unit) i :
  (∀ n x, x ∈ l → issues (body n x) anything) → issues (for_each_i i l body) anything.
Proof.
  revert i. induction l as [|x l IH]; intros i Hb; [by apply issues_ret|]. cbn [for_each_i].
  apply (issues_bind _ _ anything); [apply Hb; by left|]. intros _ _. apply IH.
  intros n y Hy. apply Hb. by right.
Qed.

Lemma issues_map_each {E A B} (l : list A) (body : A → M S E B) :
  (∀ x, x ∈ l → issues (body x) anything) → issues (map_each l body) anything.
Proof.
  induction l as [|x l IH]; intros Hb; [by apply issues_ret|]. cbn [map_each].
  apply (issues_bind _ _ anything); [apply Hb; by left|]. intros y _.
  apply (issues_bind _ _ anything); [apply IH; intros z Hz; apply Hb; by right|].
  intros ys _. by apply issues_ret.
Qed.

Lemma issues_wrap {A} context (c : M S string A) (Q : A → Prop) : issues c Q → issues (wrap context c) Q.
Proof.
  intros Hc. unfold wrap. apply (issues_bind _ _ (λ r, match r with Ok a => Q a | Err _ => True end)).
  - by apply issues_try.
  - intros [a|e] Ha; [by apply issues_ret|apply issues_throw].
Qed.

Lemma issues_plain {A} (c : M S string A) (Q : A → Prop) : issues c Q → issues (plain c) Q.
Proof.
  intros Hc. unfold plain. apply (issues_bind _ _ (λ r, match r with Ok a => Q a | Err _ => True end)).
  - by apply issues_try.
  - intros [a|e] Ha; [by apply issues_ret|apply issues_throw].
Qed.

Lemma issues_wrap_err {A} context (c : M S error A) (Q : A → Prop) :
  issues c Q → issues (wrap_err context c) Q.
Proof.
  intros Hc. unfold wrap_err.
  apply (issues_bind _ _ (λ r, match r with Ok a => Q a | Err _ => True end)).
  - by apply issues_try.
  - intros [a|e] Ha; [by apply issues_ret|apply issues_throw].
Qed.

(** A call whose outcome, error included, is only looked at. *)
Lemma issues_try' {E E' A} (c : M S E A) : issues c anything → issues (try c : M S E' (result E A)) anything.
Proof. intros Hc. by apply issues_try. Qed.
End Calculus.

(** Walks through a program whose values do not matter. *)
Ltac issues_step :=
  cbv zeta;
  lazymatch goal with
  | |- issues (mbind _ _) _ => apply (issues_bind _ _ anything); [|intros ? _]
  | |- issues (mret _) _ => by apply issues_ret
  | |- issues (throw _) _ => apply issues_throw
  | |- issues (try _) anything => apply issues_try'
  | |- issues (wrap _ _) _ => apply issues_wrap
  | |- issues (plain _) _ => apply issues_plain
  | |- issues (wrap_err _ _) _ => apply issues_wrap_err
  | |- issues (Run _) _ => apply issues_Run
  | |- issues (for_each _ _) _ => apply issues_for_each; intros ? ?
  | |- issues (for_each_i _ _ _) _ => apply issues_for_each_i; intros ? ? ?
  | |- issues (map_each _ _) _ => apply issues_map_each; intros ? ?
  | |- issues (redis_call ?c) anything =>
      apply (issues_op' (ORead c)); [exact I|intros ?; reflexivity]
  | |- issues (match ?x with _ => _ end) _ => destruct x
  end.

(** Proves that a program issues one given request. *)
Ltac issues_one o := repeat issues_step; apply (issues_op' o); [|intros ?; reflexivity].

(** ** The queue *)

Section Queue.
Context {S : Type} `{RedisLaws S} `{LuaFloatLaws} `{JsonLaws WfRecord}.

(** A job as a client enqueues it. *)
Definition new_job (job : JobRecord) : Prop := wf_record job ∧ State job ∈ ["pending"; "scheduled"].

Lemma issues_run_enqueue job : new_job job → issues (run_enqueue (S := S) job "" 0) anything.
Proof.
  intros [Hj Hst]. apply (issues_op' (OEnqueue job "" 0)); [|done].
  split_and!; [apply Hj..|done|done|done].
Qed.

Lemma issues_Enqueue job u p : new_job job → safe_int (unique_slot u p).2 →
  issues (S := S) (Enqueue job u p) anything.
Proof.
  intros [Hj Hst] Httl. assert (Hop : wf_op (OEnqueue job u p)) by done. unfold Enqueue.
  destruct (unique_slot u p) as [uk ttl] eqn:Huk. repeat issues_step.
  apply (issues_op' (OEnqueue job u p)); [exact Hop|]. intros s. cbn [run_op]. by rewrite Huk.
Qed.

Lemma issues_EnqueueMany jobs : Forall new_job jobs → issues (S := S) (EnqueueMany jobs) anything.
Proof.
  intros Hjs. unfold EnqueueMany. generalize 0%nat. generalize (Datatypes.S (length jobs)).
  induction n as [|n IH]; intros i; cbn [EnqueueMany_loop]; [by issues_step|].
  case_decide; [|by issues_step]. cbv zeta. apply (issues_bind _ _ anything); [|intros _ _; apply IH].
  set (batch := take _ _).
  assert (Hb : Forall new_job batch) by (by apply Forall_take, Forall_drop).
  unfold enqueueBatch. apply (issues_bind _ _ anything); [by repeat issues_step|]. intros _ _.
  apply (issues_bind _ _ anything); [|intros cmds _; by repeat issues_step].
  unfold exec_pipeline. repeat issues_step.
  match goal with Hin : _ ∈ _ |- _ => apply list_elem_of_fmap in Hin as (job' & -> & Hin) end.
  apply issues_run_enqueue. rewrite Forall_forall in Hb. by apply Hb.
Qed.

(** The names in a record that was read. *)
Definition wf_names (rec : JobRecord) : Prop :=
  wf_id (ID rec) ∧ wf_queue (Job.Queue rec) ∧ wf_wfid (WorkflowID rec).

Lemma wf_names_parse m j : wf_store m → wf_id j → wf_names (parseJobRecordFromMap (hash_at m (jobKey j))).
Proof.
  intros Hm Hj. pose proof (wf_job m Hm j Hj) as Hf. unfold wf_names. cbn. unfold field.
  assert (Hfield : ∀ (P : string → Prop) f, P "" → (∀ v, field_ok f v → P v) →
    P (default "" (hash_at m (jobKey j) !! f))).
  { intros P f H0' HP. destruct (_ !! f) as [v|] eqn:Hv; [exact (HP v (Hf _ _ Hv))|exact H0']. }
  refine (conj _ (conj _ _)); apply Hfield; first [decide_now|by intros v].
Qed.

(** A dequeued job has the names of one. *)
Lemma issues_Dequeue now q w : wf_queue q → wf_time now →
  issues (S := S) (Dequeue now q w) (λ r, ∀ rec, r = Some rec → wf_names rec).
Proof.
  intros Hq Hnow. unfold Dequeue.
  apply (issues_bind _ _ (λ r, ∀ vals, r = RArr vals → vals ≠ [] → wf_names (parseJobRecord vals))).
  - repeat issues_step. apply (issues_op (ODequeue now q w)); [done|done|]. intros s Hs.
    pose proof (sound_inv _ (reachable_sound s Hs)) as HI. pose proof (inv_wf _ HI) as Hm.
    refine (wp_dequeueScript q w (UnixMilli now) (Milliseconds DefaultLeaseDuration) (ks s)
      (λ _ r, match r with
              | Ok a => ∀ vals, a = RArr vals → vals ≠ [] → wf_names (parseJobRecord vals)
              | Err _ => True
              end) Hm Hq _ _ _ _ _ _ s eq_refl).
    + eauto with winter.
    + done.
    + by apply wf_time_lease.
    + by intros _ vals [= <-].
    + by intros _ _ vals [= <-].
    + intros jid p rest fvs _ _ Hid Hf vals [= <-] _.
      rewrite (parse_hgetall _ _ Hf). apply wf_names_parse; [|done]. by apply inv_wf, Inv_dequeued.
  - intros r Hr. destruct r; try (by apply issues_ret). case_decide; [by apply issues_ret|].
    apply issues_ret. intros rec [= <-]. by apply Hr.
Qed.
End Queue.

(** *** The remaining methods *)

Section Methods.
Context {S : Type} `{RedisLaws S} `{LuaFloatLaws} `{JsonLaws WfRecord}.

Lemma issues_Ack now q j w : wf_queue q → wf_id j → issues (Ack now q j w) anything.
Proof. intros Hq Hj. unfold Ack. issues_one (OAck now q j w). by split. Qed.

Lemma issues_Nack now q j w e b skip : wf_op (ONack now q j w e b skip) →
  issues (Nack now q j w e b skip) anything.
Proof.
  intros Ho. unfold Nack. cbv zeta. replace (if skip then 1 else 0) with (b2z skip) by done.
  issues_one (ONack now q j w e b skip). exact Ho.
Qed.

Lemma issues_RescheduleJob q j w t : wf_queue q → wf_id j → wf_time t →
  issues (RescheduleJob q j w t) anything.
Proof. intros Hq Hj Ht. unfold RescheduleJob. issues_one (OReschedule q j w t). by split_and!. Qed.

Lemma issues_CancelJob now q j w reason : wf_queue q → wf_id j → issues (CancelJob now q j w reason) anything.
Proof. intros Hq Hj. unfold CancelJob. issues_one (OCancel now q j w reason). by split. Qed.

Lemma issues_Promote now q limit : wf_queue q → wf_time now → safe_int limit →
  issues (Promote now q limit) anything.
Proof. intros Hq Ht Hl. unfold Promote. issues_one (OPromote now q limit). by split_and!. Qed.

Lemma issues_ExtendLease now q j ext : wf_queue q → wf_id j → wf_time (now + ext) →
  issues (ExtendLease now q j ext) anything.
Proof. intros Hq Hj Ht. unfold ExtendLease. issues_one (OExtendLease now q j ext). by split_and!. Qed.

Lemma issues_RecoverExpiredLeases now q limit : wf_queue q → wf_time now → safe_int limit →
  issues (RecoverExpiredLeases now q limit) anything.
Proof.
  intros Hq Ht Hl. unfold RecoverExpiredLeases, RecoverExpiredLeasesAt.
  issues_one (ORecover q limit (UnixMilli now)). split_and!; [apply Hq..|done|by apply wf_time_safe].
Qed.

Lemma issues_Heartbeat now w : issues (Heartbeat now w) anything.
Proof. unfold Heartbeat. by issues_one (OHeartbeat now w). Qed.

Lemma issues_DeregisterWorker w : issues (DeregisterWorker w) anything.
Proof.
  unfold DeregisterWorker, exec_pipeline. apply (issues_bind _ _ anything).
  - repeat issues_step.
    match goal with Hin : _ ∈ _ |- _ => rewrite !elem_of_cons in Hin; destruct Hin as [->|[->|[]%elem_of_nil]] end.
    + by apply (issues_op' (OForgetWorker w)).
    + by apply (issues_op' (OForgetJobs w)).
  - intros cmds _. unfold pipeline_err. apply issues_for_each. intros r _. by issues_step; issues_step.
Qed.

Lemma issues_SetResult j data ttl : issues (SetResult j data ttl) anything.
Proof. unfold SetResult. by issues_one (OSetResult j data ttl). Qed.

Lemma issues_RetryDead q j : wf_queue q → wf_id j → issues (RetryDead q j) anything.
Proof. intros Hq Hj. unfold RetryDead. issues_one (ORetryDead q j). by split. Qed.

Lemma issues_PurgeDead q : wf_queue q → issues (PurgeDead q) anything.
Proof. intros Hq. unfold PurgeDead. by issues_one (OPurgeDead q). Qed.

Lemma issues_Pause q : wf_queue q → issues (Pause q) anything.
Proof. intros Hq. unfold Pause. by issues_one (OPause q). Qed.

Lemma issues_Resume q : wf_queue q → issues (Resume q) anything.
Proof. intros Hq. unfold Resume. by issues_one (OResume q). Qed.

(** Reading. *)
Lemma issues_GetJob j : issues (GetJob j) anything.
Proof. unfold GetJob. repeat issues_step. Qed.

Lemma issues_get_jobs ids : issues (get_jobs ids) anything.
Proof.
  induction ids as [|id ids IH]; cbn [get_jobs]; [by issues_step|].
  apply (issues_bind _ _ anything); [apply issues_GetJob|]. intros rec _.
  apply (issues_bind _ _ anything); [exact IH|]. intros recs _. by issues_step.
Qed.

Lemma issues_ListDead q offset limit : issues (ListDead q offset limit) anything.
Proof.
  unfold ListDead. apply (issues_bind _ _ anything); [by repeat issues_step|]. intros ids _. apply issues_get_jobs.
Qed.

Lemma issues_PeekDead q : issues (PeekDead q) anything.
Proof.
  unfold PeekDead. apply (issues_bind _ _ anything); [by repeat issues_step|]. intros ids _.
  destruct (strings_val ids); [by issues_step|apply issues_GetJob].
Qed.

Lemma issues_DeadCount q : issues (DeadCount q) anything.
Proof. unfold DeadCount. by repeat issues_step. Qed.

Lemma issues_GetResult j : issues (GetResult j) anything.
Proof. unfold GetResult. by repeat issues_step. Qed.

Lemma issues_QueueStats q : issues (QueueStats q) anything.
Proof.
  unfold QueueStats, exec_pipeline. apply (issues_bind _ _ anything).
  - repeat issues_step.
    match goal with Hin : _ ∈ _ |- _ => rewrite !elem_of_cons in Hin;
      destruct Hin as [->|[->|[->|[->|[->|[]%elem_of_nil]]]]] end; issues_step.
  - intros cmds _. repeat issues_step.
Qed.

(** ** The rate limiter *)

Lemma issues_Allow now kind max per : safe_int (UnixMilli now) → safe_int max →
  Millisecond ≤ per ≤ int64_max →
  issues (Allow now kind max per) (λ res, in_int64 (RetryIn res)).
Proof.
  intros Hnow Hmax Hper. unfold Allow. cbv zeta. apply (issues_bind _ _ anything).
  - issues_one (OAllow kind max per now). exact (conj Hnow (conj Hmax Hper)).
  - intros vals _. case_decide; apply issues_ret; [done|apply wrap64_range].
Qed.
End Methods.
#[export] Hint Resolve issues_Heartbeat issues_DeregisterWorker issues_SetResult issues_GetJob
  issues_ListDead issues_PeekDead issues_DeadCount issues_GetResult issues_QueueStats : issues.
#[export] Hint Resolve issues_Enqueue issues_Ack issues_Nack issues_RescheduleJob issues_CancelJob
  issues_Promote issues_ExtendLease issues_RecoverExpiredLeases issues_RetryDead issues_PurgeDead
  issues_Pause issues_Resume : issues.
