(* ===== verification/Programs.v ===== *)
(** * Programs: everything the repository runs is requests

    Each entry point of the repository, from a client's Enqueue to a worker's
    [processJob], a scheduler's tick and the methods of the gRPC service, is a
    sequence of the requests of [Lifecycle.v]. *)
From S2P Require Import Inspector Client Prelude Float Keys Redis Lua Keyspace Job Scripts Queue ScriptSpecs QueueSpecs FinishSpecs SweepSpecs Places Winter Json Workflow WorkflowSpecs RateLimit RateLimitSpecs Cron CronSpecs Moves Texts Lifecycle System.

Open Scope string_scope.
Open Scope Z_scope.

(** ** Workflows *)

Section Workflows.
Context {S : Type} `{RedisLaws S} `{LuaFloatLaws} `{JsonLaws WfRecord}.

Lemma issues_saveRecord rec : wf_workflow rec → issues (saveRecord rec) anything.
Proof.
  intros Hrec. unfold saveRecord. issues_one (OSaveWorkflow (wID rec) (marshal rec)).
  split; [apply Hrec|by apply good_marshal].
Qed.

(** What a worker reads is well formed. *)
Lemma issues_loadRecord id : wf_wfid id →
  issues (loadRecord id) (λ r, ∀ rec, r = Some rec → wf_workflow rec).
Proof.
  intros Hid. unfold loadRecord.
  apply (issues_bind _ _ (λ raw, ∀ t, raw = RBulk t → good_text t)).
  - apply issues_wrap, issues_Run, (issues_op (ORead (GET (workflowKey id)))); [exact I|done|].
    intros s Hs. destruct (reachable_sound s Hs) as [HI _ Ht]. unfold redis_call.
    destruct (law_GET s (workflowKey id)) as [_ Hr].
    { by apply (wf_has_type _ (KWorkflow id)), Hid; apply inv_wf. }
    destruct (exec _ s) as [s' r]. cbn in Hr. subst r.
    destruct (str_at (ks s) (workflowKey id)) as [t|] eqn:E; [|done]. cbn. intros t' [= <-]. by apply (Ht id).
  - intros raw Hraw. destruct raw; try by apply issues_ret.
    destruct (unmarshal s) as [rec|e] eqn:Hu; [|apply issues_throw].
    apply issues_ret. intros rec' [= <-]. by apply (Hraw s).
Qed.

Lemma issues_enqueueTask now id spec wfid : wf_spec spec → wf_time now → wf_id id → wf_wfid wfid →
  issues (enqueueTask now id spec wfid) anything.
Proof.
  intros Hs Hnow Hid Hw. unfold enqueueTask. apply (issues_bind _ _ anything); [|by intros; issues_step].
  apply issues_Enqueue; [|done]. split; [by apply wf_spec_job|]. by left.
Qed.

Lemma issues_int64_reply r : issues (int64_reply (S := S) r) anything.
Proof. unfold int64_reply. by issues_step; issues_step. Qed.

Lemma issues_advanceChain now newID rec : wf_time now → wf_id newID → wf_workflow rec →
  issues (advanceChain now newID rec) anything.
Proof.
  intros Hnow Hid Hrec. unfold advanceChain.
  apply (issues_bind _ _ anything); [by issues_one (OCount (wID rec))|]. intros r _.
  apply (issues_bind _ _ anything); [apply issues_int64_reply|]. intros current _. cbv zeta.
  pose proof (wf_set_current current rec Hrec) as Hrec'. set (rec' := set_current current rec) in *.
  case_decide; [apply issues_saveRecord, wf_set_state; [right; left|done]|].
  apply (issues_bind _ _ anything); [by apply issues_saveRecord|]. intros _ _.
  destruct (wTasks rec' !! Z.to_nat (wCurrent rec')) as [spec|] eqn:Hl; [|apply issues_throw].
  apply (issues_bind _ _ anything); [|by intros; issues_step].
  apply issues_wrap_err, issues_enqueueTask; try done; [|apply Hrec'].
  exact (Forall_lookup_1 _ _ _ _ (wfw_tasks _ Hrec') Hl).
Qed.

Lemma issues_advanceGroup rec : wf_workflow rec → issues (advanceGroup rec) anything.
Proof.
  intros Hrec. unfold advanceGroup.
  apply (issues_bind _ _ anything); [by issues_one (OCount (wID rec))|]. intros r _.
  apply (issues_bind _ _ anything); [apply issues_int64_reply|]. intros done_ _. cbv zeta.
  pose proof (wf_set_done done_ rec Hrec) as Hrec'. apply issues_saveRecord.
  case_decide; [apply wf_set_state; [right; left|done]|done].
Qed.

Lemma issues_advanceChord now newID rec jobID : wf_time now → wf_id newID → wf_workflow rec →
  issues (advanceChord now newID rec jobID) anything.
Proof.
  intros Hnow Hid Hrec. unfold advanceChord.
  apply (issues_bind _ _ anything); [by issues_one (OHeaderDone (wID rec) jobID)|]. intros r _.
  destruct r as [remaining| | | | |]; try apply issues_throw. cbv zeta.
  pose proof (wf_set_done (wTotal rec - remaining) rec Hrec) as Hrec'.
  case_decide; [|by apply issues_saveRecord].
  apply (issues_bind _ _ anything); [apply issues_saveRecord, wf_set_state; [right; left|done]|]. intros _ _.
  destruct (wCallback _) as [cb|] eqn:Hcb; [|by issues_step].
  apply (issues_bind _ _ anything); [|by intros; issues_step].
  apply issues_wrap_err, issues_enqueueTask; try done; [|apply Hrec].
  by apply (wfw_callback _ Hrec).
Qed.

Lemma issues_OnJobCompleted now newID id jobID : wf_time now → wf_id newID → wf_wfid id →
  issues (OnJobCompleted now newID id jobID) anything.
Proof.
  intros Hnow Hid Hw. unfold OnJobCompleted. eapply issues_bind; [by apply issues_loadRecord|].
  intros rec Hrec. destruct rec as [rec|]; [|by issues_step]. specialize (Hrec rec eq_refl).
  repeat case_decide; [by issues_step|by apply issues_advanceChain|by apply issues_advanceGroup
    |by apply issues_advanceChord|apply issues_throw].
Qed.

Lemma issues_OnJobFailed id jobID : wf_wfid id → issues (OnJobFailed id jobID) anything.
Proof.
  intros Hw. unfold OnJobFailed. eapply issues_bind; [by apply issues_loadRecord|].
  intros rec Hrec. destruct rec as [rec|]; [|by issues_step].
  apply issues_saveRecord, wf_set_state; [right; right; left|by apply Hrec].
Qed.

(** *** Creating workflows *)

Lemma issues_CreateChain now id jobID tasks q : wf_time now → wf_id jobID →
  wf_workflow (chain_record id (default_queue q <$> tasks) q) →
  issues (CreateChain now id jobID tasks q) anything.
Proof.
  intros Hnow Hid Hrec. unfold CreateChain. cbv zeta.
  destruct (default_queue q <$> tasks) as [|first rest] eqn:E; [apply issues_throw|].
  apply (issues_bind _ _ anything); [by apply issues_saveRecord|]. intros _ _.
  apply (issues_bind _ _ anything); [|by intros; issues_step].
  apply issues_wrap_err, issues_enqueueTask; try done; [|apply (wfw_id _ Hrec)].
  by apply (Forall_inv (wfw_tasks _ Hrec)).
Qed.

Lemma issues_CreateGroup clk id jobIDs tasks q : (∀ i, wf_time (clk i)) → (∀ i, wf_id (jobIDs i)) →
  wf_workflow (group_record id (default_queue q <$> tasks) q) →
  issues (CreateGroup clk id jobIDs tasks q) anything.
Proof.
  intros Hclk Hids Hrec. unfold CreateGroup. cbv zeta. case_decide; [apply issues_throw|].
  apply (issues_bind _ _ anything); [by apply issues_saveRecord|]. intros _ _.
  apply (issues_bind _ _ anything); [|by intros; issues_step].
  apply issues_for_each_i. intros n spec Hin.
  apply (issues_bind _ _ anything); [|by intros; issues_step].
  apply issues_wrap_err, issues_enqueueTask; try done; [|apply (wfw_id _ Hrec)].
  pose proof (wfw_tasks _ Hrec) as Ht. rewrite Forall_forall in Ht. by apply Ht.
Qed.

Lemma issues_CreateChord clk id jobIDs headers callback q :
  (∀ i, wf_time (clk i)) → (∀ i, wf_id (jobIDs i)) →
  wf_workflow (chord_record id (default_queue q <$> headers) (default_queue q callback) q) →
  issues (CreateChord clk id jobIDs headers callback q) anything.
Proof.
  intros Hclk Hids Hrec. unfold CreateChord. cbv zeta. case_decide; [apply issues_throw|].
  apply (issues_bind _ _ anything); [by apply issues_saveRecord|]. intros _ _.
  apply (issues_bind _ _ anything); [|by intros; issues_step].
  apply issues_for_each_i. intros n spec Hin. unfold add_header.
  apply (issues_bind _ _ anything).
  - apply issues_wrap_err, issues_enqueueTask; try done; [|apply (wfw_id _ Hrec)].
    pose proof (wfw_tasks _ Hrec) as Ht. rewrite Forall_forall in Ht. by apply Ht.
  - intros j _. by issues_one (OAddHeader id j).
Qed.
End Workflows.

(** ** Clients *)

Section Clients.
Context {S : Type} `{RedisLaws S} `{LuaFloatLaws} `{JsonLaws WfRecord} (sha256_hex : string → string).

(** What a call of Enqueue stores has names and numbers in range. *)
Definition wf_call (now : Z) (id : string) (args : Task) (opts : list Winter.Option) : Prop :=
  let o := enqueue_opts args opts in
  ∀ payload, tPayload args = Ok payload →
    wf_record (new_record id args payload (queue o) o now) ∧
    safe_int (unique_slot (if decide (uniquePeriod o > 0) then unique_name sha256_hex (tKind args) payload
                           else "") (uniquePeriod o)).2.

Lemma issues_client_Enqueue now id args opts : wf_call now id args opts →
  issues (Client.Enqueue sha256_hex now id args opts) anything.
Proof.
  intros Hc. unfold Client.Enqueue. cbv zeta. destruct (tPayload args) as [payload|e] eqn:Hp; [|apply issues_throw].
  destruct (Hc payload Hp) as [Hrec Httl]. apply (issues_bind _ _ anything); [|by intros; issues_step].
  apply issues_Enqueue; [|exact Httl]. split; [exact Hrec|]. by left.
Qed.

Lemma issues_client_EnqueueMany now ids tasks opts :
  (∀ records, many_records 0 ids tasks (apply_opts opts defaultOpts) now = Ok records →
     Forall wf_record records) →
  issues (Client.EnqueueMany now ids tasks opts) anything.
Proof.
  intros Hc. unfold Client.EnqueueMany. cbv zeta.
  destruct (many_records _ _ _ _ _) as [records|e] eqn:Hr; [|apply issues_throw].
  apply (issues_bind _ _ anything); [|by intros; issues_step].
  apply issues_EnqueueMany. specialize (Hc records eq_refl).
  assert (Hst : ∀ i tasks records, many_records i ids tasks (apply_opts opts defaultOpts) now = Ok records →
    Forall (λ r, State r = StatePending) records).
  { clear. intros i tasks. revert i. induction tasks as [|args tasks IH]; intros i records; cbn.
    - by intros [= <-].
    - destruct (tPayload args); [|done]. destruct (many_records _ _ _ _ _) eqn:E; [|done].
      intros [= <-]. constructor; [done|]. by apply (IH (Datatypes.S i)). }
  apply Hst in Hr. rewrite Forall_forall in *. intros r Hin. split; [by apply Hc|].
  rewrite (Hr r Hin). by left.
Qed.

Lemma issues_WaitForResult {R} (unmarshal : string → result string R) ticks j :
  issues (WaitForResult unmarshal ticks j) anything.
Proof.
  induction ticks as [|n IH]; cbn [WaitForResult]; (apply (issues_bind _ _ anything);
    [apply issues_GetResult|]); intros data _; destruct data as [d|];
    try (destruct (unmarshal d)); first [by apply issues_ret|apply issues_throw|exact IH].
Qed.
End Clients.
