(* ===== verification/Races.v ===== *)
(** * Races: completions of a workflow that run at the same time

    Two workers that complete jobs of one workflow run [OnJobCompleted] of
    [internal/workflow/workflow.go] side by side, each request of theirs between
    the requests of the other.  Here a completion stops after every request; a
    run that nobody interrupts is [OnJobCompleted] ([proceeds_together]), and a
    race is any interleaving.  The scripts of groups and chords see to it that
    exactly one completion completes the workflow. *)
From S2P Require Import Prelude Float Keys Redis Lua Keyspace Job Scripts Queue ScriptSpecs QueueSpecs EnqueueSpecs Places Winter Client Json Workflow WorkflowSpecs Cron RateLimit Moves Texts Lifecycle System Programs.

Open Scope string_scope.
Open Scope Z_scope.

(** The arguments of a call: its time, the id of a job it may enqueue, the job
    that completed. *)
Record completed_job : Type := Event { evNow : Z; evNewID : string; evJob : string }.

(** Where a call stands: before the request it makes next. *)
Inductive progress : Type :=
  | Loads
  | Advances (rec : WfRecord)
  | Saves (rec : WfRecord) (enqueues : bool)
  | Enqueues (rec : WfRecord)
  | Done (completed : bool).

Definition is_completed (rec : WfRecord) : bool := bool_decide (wState rec = "completed").

(** The call has completed the workflow, or is about to. *)
Definition completes (st : progress) : bool :=
  match st with
  | Loads | Advances _ => false
  | Saves rec _ | Enqueues rec => is_completed rec
  | Done b => b
  end.

(** The call has had its answer from the counter or the dependencies. *)
Definition advanced (st : progress) : bool :=
  match st with Loads | Advances _ => false | _ => true end.

Section Stages.
Context {S : Type} `{Redis S} `{Json WfRecord}.

(** The task that [advanceChain] and [advanceChord] enqueue in the end. *)
Definition enqueue_next (e : completed_job) (rec : WfRecord) : M S error unit :=
  if decide (wType rec = TypeChain) then
    match wTasks rec !! Z.to_nat (wCurrent rec) with
    | Some spec =>
        wrap_err ("winter: chain enqueue step " +:+ dec (wCurrent rec))
          (enqueueTask (evNow e) (evNewID e) spec (wID rec)) ;;
        mret tt
    | None => throw (ErrText "runtime error: index out of range")
    end
  else
    match wCallback rec with
    | Some callback =>
        wrap_err "winter: chord enqueue callback" (enqueueTask (evNow e) (evNewID e) callback (wID rec)) ;;
        mret tt
    | None => mret tt
    end.

(** One request and what the call decides on its reply. *)
Definition proceed (workflowID : string) (e : completed_job) (st : progress) : M S error progress :=
  match st with
  | Loads =>
      rec ← loadRecord workflowID;
      match rec with
      | None => mret (Done false)
      | Some rec =>
          if decide (wState rec = "completed" ∨ wState rec = "failed") then mret (Done false)
          else mret (Advances rec)
      end
  | Advances rec =>
      if decide (wType rec = TypeChain) then
        r ← wrap "winter: chain advance" (Run (advanceChainScript (counterKey (wID rec))));
        current ← int64_reply r;
        let rec := set_current current rec in
        mret (if decide (wCurrent rec >= wTotal rec) then Saves (set_state "completed" rec) false
              else Saves rec true)
      else if decide (wType rec = TypeGroup) then
        r ← wrap "winter: group advance" (Run (advanceGroupScript (counterKey (wID rec))));
        done ← int64_reply r;
        let rec := set_done done rec in
        mret (Saves (if decide (wDone rec >= wTotal rec) then set_state "completed" rec else rec) false)
      else if decide (wType rec = TypeChord) then
        r ← wrap "winter: chord advance" (Run (advanceChordScript (depsKey (wID rec)) (evJob e)));
        match r with
        | RInt remaining =>
            let rec := set_done (wTotal rec - remaining) rec in
            mret (if decide (remaining = 0) then Saves (set_state "completed" rec) true
                  else Saves rec false)
        | _ => throw (ErrText "winter: chord advance: unexpected result type")
        end
      else throw (ErrText ("winter: unknown workflow type " +:+ quote (wType rec)))
  | Saves rec enqueues =>
      saveRecord rec ;; mret (if enqueues then Enqueues rec else Done (is_completed rec))
  | Enqueues rec => enqueue_next e rec ;; mret (Done (is_completed rec))
  | Done b => mret (Done b)
  end.

(** Four requests without an interruption. *)
Definition uninterrupted (workflowID : string) (e : completed_job) : M S error unit :=
  st ← proceed workflowID e Loads;
  st ← proceed workflowID e st;
  st ← proceed workflowID e st;
  proceed workflowID e st ;;
  mret tt.

Lemma proceeds_together workflowID e s :
  uninterrupted workflowID e s = OnJobCompleted (evNow e) (evNewID e) workflowID (evJob e) s.
Proof.
  unfold uninterrupted, OnJobCompleted. cbn [proceed]. unfold mbind, M_bind.
  destruct (loadRecord workflowID s) as [s1 [[rec|]|err]]; [|reflexivity..].
  case_decide; [reflexivity|]. cbn [mret M_ret proceed].
  unfold advanceChain, advanceGroup, advanceChord, enqueue_next, mbind, M_bind.
  destruct (decide (wType rec = TypeChain)) as [Ht|Ht].
  { destruct (wrap _ _ s1) as [s2 [r|err]]; [|reflexivity].
    destruct (int64_reply r s2) as [s3 [current|err]]; [|reflexivity]. cbv zeta. cbn [mret M_ret].
    case_decide; cbn [mret M_ret proceed]; unfold mbind, M_bind;
      (destruct (saveRecord _ s3) as [s4 [[]|err]]; [|reflexivity]); cbn [mret M_ret proceed]; [reflexivity|].
    unfold enqueue_next, mbind, M_bind. rewrite (decide_True (P := wType _ = TypeChain)) by done.
    destruct (wTasks _ !! _); [|reflexivity]. by destruct (wrap_err _ _ s4) as [s5 [?|?]]. }
  destruct (decide (wType rec = TypeGroup)) as [Ht'|Ht'].
  { destruct (wrap _ _ s1) as [s2 [r|err]]; [|reflexivity].
    destruct (int64_reply r s2) as [s3 [done_|err]]; [|reflexivity]. cbv zeta. cbn [mret M_ret proceed].
    unfold mbind, M_bind. by destruct (saveRecord _ s3) as [s4 [[]|err]]. }
  destruct (decide (wType rec = TypeChord)) as [Hc|Hc]; [|reflexivity].
  destruct (wrap _ _ s1) as [s2 [r|err]]; [|reflexivity].
  destruct r as [remaining| | | | |]; try reflexivity. cbv zeta. cbn [mret M_ret].
  case_decide; cbn [mret M_ret proceed]; unfold mbind, M_bind;
    (destruct (saveRecord _ s2) as [s3 [[]|err]]; [|reflexivity]); cbn [mret M_ret proceed]; [|reflexivity].
  unfold enqueue_next, mbind, M_bind. rewrite (decide_False (P := wType _ = TypeChain)) by done.
  destruct (wCallback _); [|reflexivity]. by destruct (wrap_err _ _ s3) as [s4 [?|?]].
Qed.
End Stages.

(** ** A call makes requests, whatever the network does *)

Definition wf_completed_job (e : completed_job) : Prop := wf_time (evNow e) ∧ wf_id (evNewID e).

Section Requests.
Context {S : Type} `{RedisLaws S} `{LuaFloatLaws} `{JsonLaws WfRecord}.

Definition progress_wf (st : progress) : Prop :=
  match st with
  | Loads | Done _ => True
  | Advances rec | Saves rec _ | Enqueues rec => wf_workflow rec
  end.

Lemma wf_complete rec : wf_workflow rec → wf_workflow (set_state "completed" rec).
Proof. apply wf_set_state. right; left. Qed.

Lemma issues_enqueue_next e rec : wf_completed_job e → wf_workflow rec → issues (enqueue_next e rec) anything.
Proof.
  intros [Hnow Hid] Hrec. unfold enqueue_next. case_decide.
  - destruct (wTasks rec !! _) as [spec|] eqn:Hl; [|apply issues_throw].
    apply (issues_bind _ _ anything); [|by intros; issues_step].
    apply issues_wrap_err, issues_enqueueTask; try done; [|apply Hrec].
    exact (Forall_lookup_1 _ _ _ _ (wfw_tasks _ Hrec) Hl).
  - destruct (wCallback rec) as [cb|] eqn:Hcb; [|by issues_step].
    apply (issues_bind _ _ anything); [|by intros; issues_step].
    apply issues_wrap_err, issues_enqueueTask; try done; [|apply Hrec]. by apply (wfw_callback _ Hrec).
Qed.

Lemma issues_proceed id e st : wf_wfid id → wf_completed_job e → progress_wf st →
  issues (proceed id e st) progress_wf.
Proof.
  intros Hid He Hst. destruct st as [|rec|rec next|rec|b]; cbn [proceed progress_wf] in *.
  - eapply issues_bind; [by apply issues_loadRecord|]. intros [rec|] Hrec; [|by apply issues_ret].
    case_decide; apply issues_ret; [done|by apply Hrec].
  - case_decide; [|case_decide; [|case_decide; [|apply issues_throw]]].
    + apply (issues_bind _ _ anything); [by issues_one (OCount (wID rec))|]. intros r _.
      apply (issues_bind _ _ anything); [apply issues_int64_reply|]. intros current _. cbv zeta.
      apply issues_ret. case_decide; [apply wf_complete|]; by apply wf_set_current.
    + apply (issues_bind _ _ anything); [by issues_one (OCount (wID rec))|]. intros r _.
      apply (issues_bind _ _ anything); [apply issues_int64_reply|]. intros done_ _. cbv zeta.
      apply issues_ret. cbn [progress_wf]. case_decide; [apply wf_complete|]; by apply wf_set_done.
    + apply (issues_bind _ _ anything); [by issues_one (OHeaderDone (wID rec) (evJob e))|]. intros r _.
      destruct r; try apply issues_throw. cbv zeta. apply issues_ret.
      case_decide; [apply wf_complete|]; by apply wf_set_done.
  - apply (issues_bind _ _ anything); [by apply issues_saveRecord|]. intros _ _. apply issues_ret. by destruct next.
  - apply (issues_bind _ _ anything); [by apply issues_enqueue_next|]. intros _ _. by apply issues_ret.
  - by apply issues_ret.
Qed.
End Requests.

(** ** Races *)

Section Races.
Context {S : Type} `{RedisLaws S} `{LuaFloatLaws} `{JsonLaws WfRecord} `{!Reliable S}.
Context (rec : WfRecord).

(** What the workflow [rec] keeps on the server. *)
Definition wf_keys : list string := [workflowKey (wID rec); counterKey (wID rec); depsKey (wID rec)].

Abbreviation calls := (list (completed_job * progress)).

(** What a call is left with when a request of it fails. *)
Definition left_with (st : progress) (r : result error progress) : progress :=
  match r with Ok st' => st' | Err _ => Done (completes st) end.

(** One of the calls proceeds, or anybody does anything to the rest of the server:
    nobody else draws the id of a job that a call may enqueue. *)
Inductive race_step : S * calls → S * calls → Prop :=
  | race_proceeds s (cs : calls) i e st s' r :
      cs !! i = Some (e, st) → proceed (wID rec) e st s = (s', r) →
      race_step (s, cs) (s', <[i := (e, left_with st r)]> cs)
  | race_other s s' cs :
      step s s' → Forall (λ k, ks s' !! k = ks s !! k) wf_keys →
      Forall (λ c, ks s !! jobKey (evNewID c.1) = None → ks s' !! jobKey (evNewID c.1) = None) cs →
      race_step (s, cs) (s', cs).

Definition all_advanced (cs : calls) : Prop := ∀ i e st, cs !! i = Some (e, st) → advanced st = true.
Definition completes_at (cs : calls) (i : nat) : Prop := ∃ e st, cs !! i = Some (e, st) ∧ completes st = true.

Definition count_advanced (cs : calls) : nat := length (filter (λ c, advanced c.2 = true) cs).

(** What the server knows of the calls. *)
Definition tally (m : keyspace) (cs : calls) : Prop :=
  (wType rec = TypeGroup ∧ wTotal rec = Z.of_nat (length cs) ∧
     completions m (wID rec) = Some (Z.of_nat (count_advanced cs))) ∨
  (wType rec = TypeChord ∧ NoDup (evJob ∘ fst <$> cs) ∧
     ∀ j, j ∈ set_at m (depsKey (wID rec)) ↔ ∃ i e st, cs !! i = Some (e, st) ∧ advanced st = false ∧ evJob e = j).

(** A version of the record. *)
Definition version (st : string) (rec' : WfRecord) : Prop := ∃ c d, rec' = at_progress c d st rec.

Definition progress_ok (st : progress) : Prop :=
  match st with
  | Loads | Done _ => True
  | Advances rec' => version "running" rec'
  | Saves rec' next => (version "running" rec' ∧ next = false) ∨
                       (version "completed" rec' ∧ next = bool_decide (wType rec = TypeChord))
  | Enqueues rec' => version "completed" rec' ∧ wType rec = TypeChord
  end.

(** The job a call may enqueue is on the server only after the call is done, and
    then the call has completed a chord. *)
Definition jobs_ok (m : keyspace) (cs : calls) : Prop :=
  ∀ i e st, cs !! i = Some (e, st) → is_Some (m !! jobKey (evNewID e)) → st = Done true ∧ wType rec = TypeChord.

Record racing (s : S) (cs : calls) : Prop := {
  racing_reachable : reachable s;
  racing_events : Forall (λ c, wf_completed_job c.1 ∧ progress_ok c.2) cs;
  racing_tally : tally (ks s) cs;
  racing_ids : NoDup (evNewID ∘ fst <$> cs);
  racing_jobs : jobs_ok (ks s) cs;
  racing_saved : ∃ rec', saved (ks s) rec' ∧ (version "running" rec' ∨ version "completed" rec' ∧ all_advanced cs);
  racing_early i : completes_at cs i → all_advanced cs;
  racing_once : all_advanced cs → ∃ i, completes_at cs i ∧ ∀ j, completes_at cs j → j = i
}.

(** *** Counting *)

Lemma count_advanced_insert cs i e st st' : cs !! i = Some (e, st) → advanced st = false →
  advanced st' = true → count_advanced (<[i := (e, st')]> cs) = Datatypes.S (count_advanced cs).
Proof.
  intros Hi Hst Hst'. pose proof (lookup_lt_Some _ _ _ Hi) as Hlt. unfold count_advanced.
  rewrite insert_take_drop by done. rewrite <- (take_drop_middle cs i (e, st)) at 3 by done.
  rewrite !filter_app, !length_app, (filter_cons_True _ (e, st')) by done.
  rewrite (filter_cons_False _ (e, st)) by (cbn; congruence). cbn [length]. lia.
Qed.

Lemma count_advanced_all cs : count_advanced cs = length cs ↔ all_advanced cs.
Proof.
  unfold count_advanced. split.
  - intros Hlen i e st Hi%list_elem_of_lookup_2. destruct (advanced st) eqn:Hst; [done|].
    pose proof (length_filter_lt (λ c, advanced c.2 = true) cs (e, st) Hi ltac:(cbn; congruence)). lia.
  - induction cs as [|[e st] cs IH]; intros Ha; [done|].
    rewrite filter_cons_True by (by apply (Ha 0%nat e)). cbn [length]. f_equal. apply IH.
    intros i e' st' Hi. by apply (Ha (Datatypes.S i) e').
Qed.

Lemma count_advanced_le cs : (count_advanced cs ≤ length cs)%nat.
Proof. unfold count_advanced. apply length_filter. Qed.

Lemma all_advanced_not cs i e st : cs !! i = Some (e, st) → advanced st = false → ¬ all_advanced cs.
Proof. intros Hi Hst Ha. specialize (Ha i e st Hi). congruence. Qed.

(** *** A call that proceeds without news *)

Lemma all_advanced_insert (cs : calls) i e st st' : cs !! i = Some (e, st) → advanced st' = advanced st →
  all_advanced (<[i := (e, st')]> cs) ↔ all_advanced cs.
Proof.
  intros Hi Hst. split; intros Ha j e' st1 Hj.
  - destruct (decide (i = j)) as [<-|Hne].
    + rewrite Hi in Hj. injection Hj as <- <-. rewrite <- Hst. apply (Ha i e).
      apply list_lookup_insert_eq. by apply lookup_lt_Some in Hi.
    + apply (Ha j e'). by rewrite list_lookup_insert_ne.
  - apply list_lookup_insert_Some in Hj as [(<- & [= <- <-] & _)|[_ Hj]]; [|by apply (Ha j e')].
    rewrite Hst. by apply (Ha i e).
Qed.

Lemma completes_at_insert cs i e st st' j : cs !! i = Some (e, st) →
  completes_at (<[i := (e, st')]> cs) j ↔ (if decide (j = i) then completes st' = true else completes_at cs j).
Proof.
  intros Hi. pose proof (lookup_lt_Some _ _ _ Hi) as Hlt. unfold completes_at. case_decide as E.
  - subst j. rewrite list_lookup_insert_eq by done. split; [by intros (? & ? & [= <- <-] & ?)|eauto].
  - by rewrite list_lookup_insert_ne.
Qed.

Lemma events_insert {A} (f : completed_job → A) (cs : calls) i e st st' : cs !! i = Some (e, st) →
  f ∘ fst <$> <[i := (e, st')]> cs = f ∘ fst <$> cs.
Proof. intros Hi. rewrite list_fmap_insert. apply list_insert_id. by rewrite list_lookup_fmap, Hi. Qed.

Lemma tally_frame m m' cs : m' !! counterKey (wID rec) = m !! counterKey (wID rec) →
  m' !! depsKey (wID rec) = m !! depsKey (wID rec) → tally m cs → tally m' cs.
Proof.
  intros Hc Hd [(Hty & Ht & Hn)|(Hty & Hnd & Hj)]; [left|right]; split_and!; try done.
  - unfold completions in *. by rewrite (str_at_ext m' m _ Hc).
  - by rewrite (set_at_ext m' m _ Hd).
Qed.

Lemma tally_insert m cs i e st st' : cs !! i = Some (e, st) → advanced st' = advanced st →
  tally m cs → tally m (<[i := (e, st')]> cs).
Proof.
  intros Hi Hst Htally. pose proof (lookup_lt_Some _ _ _ Hi) as Hlt.
  destruct Htally as [(Hty & Ht & Hn)|(Hty & Hnd & Hj)]; [left|right]; split_and!; try done.
  - by rewrite length_insert.
  - rewrite Hn. do 2 f_equal. unfold count_advanced.
    rewrite insert_take_drop by done. rewrite <- (take_drop_middle cs i (e, st)) at 1 by done.
    rewrite !filter_app, !filter_cons, !length_app. cbn [snd]. rewrite Hst. by case_decide.
  - by rewrite (events_insert evJob cs i e st).
  - intros j. rewrite Hj. split; intros (i' & e' & st1 & Hi' & Ha & He).
    + destruct (decide (i = i')) as [<-|Hne].
      * rewrite Hi in Hi'. injection Hi' as <- <-. exists i, e, st'. rewrite list_lookup_insert_eq by done.
        by rewrite Hst.
      * exists i', e', st1. by rewrite list_lookup_insert_ne.
    + apply list_lookup_insert_Some in Hi' as [(<- & [= <- <-] & _)|[_ Hi']]; [|by exists i', e', st1].
      exists i, e, st. by rewrite <- Hst.
Qed.

(** A request creates no job, or the one that its call enqueues. *)
Definition creates (m m' : keyspace) (e : completed_job) (st' : progress) : Prop :=
  ∀ j, wf_id j → is_Some (m' !! jobKey j) →
    is_Some (m !! jobKey j) ∨ (j = evNewID e ∧ st' = Done true ∧ wType rec = TypeChord).

Lemma creates_same m m' e st' : (∀ j, wf_id j → m' !! jobKey j = m !! jobKey j) → creates m m' e st'.
Proof. intros Hj j Hid. rewrite (Hj j Hid). by left. Qed.

Lemma jobs_insert m m' cs i e st st' : jobs_ok m cs → NoDup (evNewID ∘ fst <$> cs) →
  Forall (λ c, wf_completed_job c.1 ∧ progress_ok c.2) cs → cs !! i = Some (e, st) →
  (st = Done true → st' = Done true) → creates m m' e st' → jobs_ok m' (<[i := (e, st')]> cs).
Proof.
  intros Hok Hnd He Hi Hst Hc k e' st1 Hk Hj.
  assert (Hold : ∃ st2, cs !! k = Some (e', st2) ∧ (st2 = Done true → st1 = Done true)).
  { apply list_lookup_insert_Some in Hk as [(<- & [= <- <-] & _)|[_ Hk]]; eauto. }
  destruct Hold as (st2 & Hk2 & Hst2). destruct (Forall_lookup_1 _ _ _ _ He Hk2) as [[_ Hid] _].
  destruct (Hc _ Hid Hj) as [Hm|(E & -> & Hty)].
  - destruct (Hok k e' st2 Hk2 Hm) as [-> Hty]. auto.
  - split; [|done]. assert (k = i) as ->.
    { refine (NoDup_lookup _ _ _ (evNewID e) Hnd _ _); rewrite list_lookup_fmap, ?Hk2, ?Hi; [|done]. cbn. f_equal. exact E. }
    rewrite list_lookup_insert_eq in Hk by (by apply lookup_lt_Some in Hi). by injection Hk as _ <-.
Qed.

Lemma racing_quiet s s' cs i e st st' : racing s cs → cs !! i = Some (e, st) → reachable s' →
  progress_ok st' → advanced st' = advanced st → completes st' = completes st →
  ks s' !! counterKey (wID rec) = ks s !! counterKey (wID rec) →
  ks s' !! depsKey (wID rec) = ks s !! depsKey (wID rec) →
  (ks s' !! workflowKey (wID rec) = ks s !! workflowKey (wID rec) ∨
   ∃ rec', saved (ks s') rec' ∧ (version "running" rec' ∨ version "completed" rec' ∧ completes st = true)) →
  (st = Done true → st' = Done true) → creates (ks s) (ks s') e st' →
  racing s' (<[i := (e, st')]> cs).
Proof.
  intros [Hr He Ht Hnd Hjobs Hsv Hearly Honce] Hi Hr' Hok Hadv Hcomp Hc Hd Hw Hdone Hcr.
  pose proof (all_advanced_insert cs i e st st' Hi Hadv) as Hall.
  assert (Hat : ∀ j, completes_at (<[i := (e, st')]> cs) j ↔ completes_at cs j).
  { intros j. rewrite (completes_at_insert cs i e st st' j Hi). case_decide as E; [|done]. subst j.
    unfold completes_at. rewrite Hi, Hcomp. split; [eauto|by intros (? & ? & [= <- <-] & ?)]. }
  split.
  - done.
  - apply Forall_insert; [done|]. split; [|done]. by destruct (Forall_lookup_1 _ _ _ _ He Hi).
  - apply (tally_insert _ _ _ _ st); [done..|]. by apply (tally_frame (ks s)).
  - by rewrite (events_insert evNewID cs i e st).
  - by apply (jobs_insert (ks s) _ cs i e st).
  - destruct Hw as [Hw|(rec' & Hs & Hv)].
    + destruct Hsv as (rec' & Hs & Hv). exists rec'. rewrite Hall. split; [|done]. unfold saved in *.
      assert (wID rec' = wID rec) as Hid by (by destruct Hv as [(c & d & ->)|[(c & d & ->) _]]).
      rewrite Hid in *. by rewrite (str_at_ext _ _ _ Hw).
    + exists rec'. rewrite Hall. split; [done|]. destruct Hv as [Hv|[Hv Hst]]; [by left|right]. split; [done|].
      apply (Hearly i). by exists e, st.
  - intros j. rewrite Hall, Hat. apply Hearly.
  - rewrite Hall. intros (j & Hj & Hu)%Honce. exists j. split; [by apply Hat|]. intros j'. rewrite Hat. apply Hu.
Qed.

(** *** A call that has its answer *)

Definition others_advanced (cs : calls) (i : nat) : Prop :=
  ∀ j e st, cs !! j = Some (e, st) → j ≠ i → advanced st = true.

Lemma all_advanced_news (cs : calls) i e st st' : cs !! i = Some (e, st) → advanced st' = true →
  all_advanced (<[i := (e, st')]> cs) ↔ others_advanced cs i.
Proof.
  intros Hi Hst. split.
  - intros Ha j e' st1 Hj Hne. apply (Ha j e'). by rewrite list_lookup_insert_ne.
  - intros Ho j e' st1 [(<- & [= <- <-] & _)|[Hne Hj]]%list_lookup_insert_Some; [done|]. by apply (Ho j e').
Qed.

Lemma racing_news s s' cs i e st st' : racing s cs → cs !! i = Some (e, st) → advanced st = false →
  reachable s' → progress_ok st' → advanced st' = true → (completes st' = true ↔ others_advanced cs i) →
  ks s' !! workflowKey (wID rec) = ks s !! workflowKey (wID rec) → tally (ks s') (<[i := (e, st')]> cs) →
  (∀ j, wf_id j → ks s' !! jobKey j = ks s !! jobKey j) →
  racing s' (<[i := (e, st')]> cs).
Proof.
  intros [Hr He Ht Hnd Hjobs Hsv Hearly Honce] Hi Hst Hr' Hok Hst' Hcomp Hw Ht' Hsame.
  pose proof (all_advanced_not cs i e st Hi Hst) as Hnot.
  pose proof (all_advanced_news cs i e st st' Hi Hst') as Hall.
  assert (Hat : ∀ j, completes_at (<[i := (e, st')]> cs) j → j = i ∧ completes st' = true).
  { intros j. rewrite (completes_at_insert cs i e st st' j Hi). case_decide; [done|].
    intros Hj. by destruct Hnot; apply (Hearly j). }
  split.
  - done.
  - apply Forall_insert; [done|]. split; [|done]. by destruct (Forall_lookup_1 _ _ _ _ He Hi).
  - done.
  - by rewrite (events_insert evNewID cs i e st).
  - apply (jobs_insert (ks s) _ cs i e st); [done..| |by apply creates_same]. by intros ->.
  - destruct Hsv as (rec' & Hs & [Hv|[_ Ha]]); [|done]. exists rec'. split; [|by left]. unfold saved in *.
    assert (wID rec' = wID rec) as Hid by (by destruct Hv as (c & d & ->)).
    rewrite Hid in *. by rewrite (str_at_ext _ _ _ Hw).
  - intros j [_ Hj]%Hat. by apply Hall, Hcomp.
  - intros Ho%Hall%Hcomp. exists i. split; [|by intros j [-> _]%Hat].
    rewrite (completes_at_insert cs i e st st' i Hi). by rewrite decide_True.
Qed.

Lemma is_completed_at c d : is_completed (at_progress c d "completed" rec) = true.
Proof. done. Qed.

Lemma completes_running rec' : version "running" rec' → is_completed rec' = false.
Proof. by intros (c & d & ->). Qed.

Lemma completes_completed rec' : version "completed" rec' → is_completed rec' = true.
Proof. by intros (c & d & ->). Qed.

(** The call saves next. *)
Definition saves_next (st : progress) : Prop := match st with Saves _ _ => True | _ => False end.

Lemma saves_next_advanced st : saves_next st → advanced st = true.
Proof. by destruct st. Qed.

Definition has_news (m : keyspace) (cs : calls) (i : nat) (e : completed_job) (m' : keyspace)
    (r : result error progress) : Prop :=
  ∃ st', r = Ok st' ∧ progress_ok st' ∧ saves_next st' ∧ (completes st' = true ↔ others_advanced cs i) ∧
    m' !! workflowKey (wID rec) = m !! workflowKey (wID rec) ∧ tally m' (<[i := (e, st')]> cs) ∧
    ∀ j, wf_id j → m' !! jobKey j = m !! jobKey j.

Lemma group_news m cs i e c d : wf_store m → wf_wfid (wID rec) → wType rec = TypeGroup → wTotal rec ≤ int64_max →
  wTotal rec = Z.of_nat (length cs) → completions m (wID rec) = Some (Z.of_nat (count_advanced cs)) →
  cs !! i = Some (e, Advances (at_progress c d "running" rec)) →
  wp (S := S) (proceed (wID rec) e (Advances (at_progress c d "running" rec))) (has_news m cs i e) m.
Proof.
  intros Hm Hid Hty Hmax Htot Hn Hi. cbn [proceed]. set (rec' := at_progress c d "running" rec).
  change (wType rec') with (wType rec). rewrite Hty, decide_False, decide_True by done.
  pose proof (lookup_lt_Some _ _ _ Hi) as Hlt.
  assert (Hle : (count_advanced cs < length cs)%nat).
  { pose proof (count_advanced_le cs). pose proof (proj1 (count_advanced_all cs)) as Hall.
    destruct (decide (count_advanced cs = length cs)) as [E|]; [|lia].
    by destruct (all_advanced_not cs i e _ Hi eq_refl (Hall E)). }
  assert (Hr : in_int64 (Z.of_nat (count_advanced cs) + 1))
    by (unfold in_int64, int64_min, int64_max in *; lia).
  apply (wp_counted _ rec' (Z.of_nat (count_advanced cs))); [done..|]. cbv zeta. apply wp_ret.
  set (n := Z.of_nat (count_advanced cs) + 1). change (wDone (set_done n rec')) with n.
  change (wTotal (set_done n rec')) with (wTotal rec).
  assert (Hcount : ∀ st', advanced st' = true → count_advanced (<[i := (e, st')]> cs) = Datatypes.S (count_advanced cs)).
  { intros st' Hst'. by apply (count_advanced_insert cs i e (Advances rec')). }
  assert (Hothers : n >= wTotal rec ↔ others_advanced cs i).
  { rewrite <- (all_advanced_news cs i e _ (Done true) Hi eq_refl), <- count_advanced_all.
    rewrite Hcount, length_insert by done. unfold n. lia. }
  eexists. split; [done|]. split; [|split; [done|split; [|split; [|split]]]].
  - case_decide; cbn [progress_ok]; [right|left; split; [|done]]; [|by exists c, n].
    split; [by exists c, n|]. by rewrite Hty.
  - rewrite <- Hothers. case_decide; cbn [completes]; [by split|]. split; [|done]. intros Hc. by rewrite completes_running in Hc by (by exists c, n).
  - change (wID rec') with (wID rec). by ks_simp.
  - left. split; [done|]. rewrite length_insert. split; [done|]. rewrite Hcount by done.
    unfold n. rewrite Nat2Z.inj_succ. by apply (completions_put (wID rec)).
  - intros j Hj. change (wID rec') with (wID rec). by ks_simp.
Qed.

Lemma chord_news m cs i e c d : wf_store m → wf_wfid (wID rec) → wType rec = TypeChord → NoDup (evJob ∘ fst <$> cs) →
  (∀ j, j ∈ set_at m (depsKey (wID rec)) ↔ ∃ i e st, cs !! i = Some (e, st) ∧ advanced st = false ∧ evJob e = j) →
  cs !! i = Some (e, Advances (at_progress c d "running" rec)) →
  wp (S := S) (proceed (wID rec) e (Advances (at_progress c d "running" rec))) (has_news m cs i e) m.
Proof.
  intros Hm Hid Hty Hnd Hdeps Hi. cbn [proceed]. set (rec' := at_progress c d "running" rec).
  change (wType rec') with (wType rec). rewrite Hty, decide_False, decide_False, decide_True by done.
  apply wp_bind, wp_wrap, wp_Run, wp_advanceChordScript; [done|]. cbv beta iota zeta. apply wp_ret.
  change (wID rec') with (wID rec). set (left_ := set_at m (depsKey (wID rec)) ∖ {[evJob e]}).
  set (n := wTotal rec' - Z.of_nat (size left_)).
  assert (Hleft : ∀ j, j ∈ left_ ↔ ∃ i' e' st, cs !! i' = Some (e', st) ∧ advanced st = false ∧ evJob e' = j ∧ i' ≠ i).
  { intros j. unfold left_. rewrite elem_of_difference, elem_of_singleton, Hdeps. split.
    - intros [(i' & e' & st & Hi' & Hst & He) Hne]. exists i', e', st. split_and!; [done..|].
      intros ->. rewrite Hi in Hi'. by injection Hi' as <- <-.
    - intros (i' & e' & st & Hi' & Hst & He & Hne). split; [by exists i', e', st|]. intros ->. apply Hne.
      refine (NoDup_lookup _ _ _ (evJob e) Hnd _ _); rewrite list_lookup_fmap.
      + rewrite Hi'. cbn. by rewrite He.
      + by rewrite Hi. }
  assert (Hothers : Z.of_nat (size left_) = 0 ↔ others_advanced cs i).
  { split.
    - intros E. assert (left_ = ∅) as Hempty by (apply leibniz_equiv, size_empty_inv; lia).
      intros j e' st Hj Hne. destruct (advanced st) eqn:Hst; [done|]. exfalso.
      apply (not_elem_of_empty (C := gset string) (evJob e')). rewrite <- Hempty. apply Hleft. by exists j, e', st.
    - intros Ho. assert (left_ = ∅) as ->; [|by rewrite size_empty].
      apply leibniz_equiv, elem_of_equiv_empty. intros j (i' & e' & st & Hi' & Hst & _ & Hne)%Hleft.
      specialize (Ho i' e' st Hi' Hne). congruence. }
  eexists. split; [done|]. split; [|split; [|split; [|split; [|split]]]].
  - case_decide; cbn [progress_ok]; [right|left; split; [|done]]; [|by exists c, n].
    split; [by exists c, n|]. by rewrite Hty.
  - by case_decide.
  - rewrite <- Hothers. case_decide as E; cbn [completes]; [by split|]. split; [|done].
    intros Hc. by rewrite completes_running in Hc by (by exists c, n).
  - unfold srem. by ks_simp.
  - set (st' := if decide _ then _ else _). assert (Hst' : advanced st' = true) by (unfold st'; by case_decide).
    right. split; [done|]. split; [by rewrite (events_insert evJob cs i e (Advances rec'))|].
    unfold srem. rewrite set_at_put_eq. fold left_. intros j. rewrite Hleft.
    split; intros (i' & e' & st & Hi' & Hst & He).
    + destruct He as [He Hne]. exists i', e', st. by rewrite list_lookup_insert_ne.
    + apply list_lookup_insert_Some in Hi' as [(<- & [= <- <-] & _)|[Hne Hi']]; [congruence|].
      exists i', e', st. by split_and!.
  - intros j Hj. unfold srem. by ks_simp.
Qed.

(** *** Every step *)

Lemma enqueued_keeps job m m' : wf_wfid (wID rec) → wf_record job →
  m' = enqueued_ks job "" 0 m ∨ m' = enqueue_plain_ks m job →
  Forall (λ k, m' !! k = m !! k) wf_keys ∧ ∀ j, wf_id j → j ≠ ID job → m' !! jobKey j = m !! jobKey j.
Proof.
  intros Hw Hj Hm'. pose proof Hj as (_ & Hq & _).
  assert (Hk : ∀ k, wf_key k → match k with KWorkflow _ | KCounter _ | KDeps _ => True | KJob j => j ≠ ID job | _ => False end →
    m' !! render k = m !! render k).
  { intros k Hk Hp. assert (E : enqueue_plain_ks m job !! render k = m !! render k).
    { apply enqueue_plain_other; [done|done|]. rewrite !not_elem_of_cons.
      split_and!; [by intros ->..|apply not_elem_of_nil]. }
    destruct Hm' as [->| ->]; [|done]. rewrite <- E. unfold enqueue_plain_ks. rewrite hincr_lookup; [done|].
    apply (render_ne (KStats _)); [done|done|]. by intros <-. }
  split; [|intros j Hid Hne; by apply (Hk (KJob j))].
  unfold wf_keys. repeat apply Forall_cons_2; [| | |apply Forall_nil_2].
  - by apply (Hk (KWorkflow (wID rec))).
  - by apply (Hk (KCounter (wID rec))).
  - by apply (Hk (KDeps (wID rec))).
Qed.

(** What an enqueue of [spec] by a call leaves alone, and the job it stores, even
    if it cannot count it. *)
Definition called (e : completed_job) (spec : TaskSpec) (m m' : keyspace) : Prop :=
  Forall (λ k, m' !! k = m !! k) wf_keys ∧
  (∀ j, wf_id j → j ≠ evNewID e → m' !! jobKey j = m !! jobKey j) ∧
  spec_enqueued m' (spec_job (evNow e) (evNewID e) (wID rec) spec).

Lemma wp_enqueueTask_called e spec m : wf_store m → wf_wfid (wID rec) → wf_spec spec → wf_completed_job e →
  wp (S := S) (enqueueTask (evNow e) (evNewID e) spec (wID rec)) (λ m' _, called e spec m m') m.
Proof.
  intros Hm Hw Hs [Hnow Hid]. pose proof (wf_spec_job (evNow e) (evNewID e) (wID rec) spec Hs Hnow Hid Hw) as Hj.
  set (job := spec_job _ _ _ spec) in *. assert (Hsched : ScheduledAt job = 0) by done.
  pose proof (wp_Enqueue job "" 0 m) as He. cbn in He. unfold enqueueTask. apply wp_bind, He; [done|done|done|done| |].
  - intros _ _ err. destruct (enqueued_keeps job m _ Hw Hj (or_introl eq_refl)). split_and!; [done..|by apply enqueued_spec].
  - intros _ _. apply wp_ret. destruct (enqueued_keeps job m _ Hw Hj (or_intror eq_refl)).
    split_and!; [done..|by apply enqueue_plain_spec].
Qed.

Lemma wp_enqueue_next_called e rec' m : wf_store m → wf_workflow rec → wf_completed_job e → wType rec ≠ TypeChain →
  version "completed" rec' →
  wp (S := S) (enqueue_next e rec')
    (λ m' _, match wCallback rec with Some cb => called e cb m m' | None => m' = m end) m.
Proof.
  intros Hm Hrec He Hty (c & d & ->). unfold enqueue_next. rewrite decide_False by done.
  change (wCallback (at_progress _ _ _ _)) with (wCallback rec).
  destruct (wCallback rec) as [cb|] eqn:Hcb; [|by apply wp_ret].
  apply wp_bind, wp_wrap_err. eapply wp_mono.
  { apply (wp_enqueueTask_called e cb); try done; [apply Hrec|by apply (wfw_callback _ Hrec)]. }
  cbv beta. intros m' [id|err] Hk; cbv iota; [by apply wp_ret|done].
Qed.

Context (Hrec : wf_workflow rec) (Hshape : wType rec = TypeGroup ∨ wType rec = TypeChord)
  (Hmax : wTotal rec ≤ int64_max).

Lemma version_wf st rec' : st ∈ ["running"; "completed"] → version st rec' → wf_workflow rec'.
Proof.
  intros Hst (c & d & ->). apply wf_set_done, wf_set_current, wf_set_state; [|done].
  rewrite !elem_of_cons in *. tauto.
Qed.

Lemma version_saved st rec' : st ∈ ["running"; "completed"] → version st rec' →
  wID rec' = wID rec ∧ wState rec' = st ∧ valid_text rec'.
Proof.
  intros Hst (c & d & ->). split_and!; [done|done|]. apply (wfw_texts _ Hrec). rewrite !elem_of_cons in *. tauto.
Qed.

Lemma progress_ok_wf st : progress_ok st → progress_wf st.
Proof.
  destruct st as [|rec'|rec' next|rec'|b]; cbn; [done| | | |done].
  - apply version_wf. by left.
  - intros [[Hv _]|[Hv _]]; (eapply version_wf; [|exact Hv]); [by left|right; by left].
  - intros [Hv _]. eapply version_wf; [|exact Hv]. right; by left.
Qed.

Lemma racing_loads s cs i e : racing s cs → cs !! i = Some (e, Loads) →
  wp (S := S) (proceed (wID rec) e Loads) (λ m' r, m' = ks s ∧ ∃ rec', r = Ok (Advances rec') ∧ version "running" rec') (ks s).
Proof.
  intros Hr Hi. destruct (racing_saved _ _ Hr) as (rec' & Hs & Hv).
  destruct Hv as [Hv|[_ Ha]]; [|by destruct (all_advanced_not cs i e _ Hi eq_refl)].
  destruct (version_saved "running" rec' ltac:(by left) Hv) as (E & Hst & Ht). cbn [proceed].
  apply wp_bind. rewrite <- E. apply wp_loadRecord; [|rewrite E; apply Hrec|done|done|].
  { apply inv_wf, sound_inv, reachable_sound, Hr. }
  cbv iota. rewrite decide_False by (rewrite Hst; by intros [?|?]). apply wp_ret. eauto.
Qed.

Lemma racing_saves s e rec' next s' r : progress_ok (Saves rec' next) →
  proceed (wID rec) e (Saves rec' next) s = (s', r) →
  ks s' = save_ks rec' (ks s) ∧ wID rec' = wID rec ∧
  r = Ok (if next then Enqueues rec' else Done (is_completed rec')).
Proof.
  intros Hok Hp. assert (E : wID rec' = wID rec) by by destruct Hok as [[(c & d & ->) _]|[(c & d & ->) _]].
  assert (Hw : wp (S := S) (proceed (wID rec) e (Saves rec' next)) (λ m' r, m' = save_ks rec' (ks s) ∧
    r = Ok (if next then Enqueues rec' else Done (is_completed rec'))) (ks s)).
  { cbn [proceed]. apply wp_bind, wp_saveRecord. cbv iota. by apply wp_ret. }
  specialize (Hw s eq_refl). rewrite Hp in Hw. by destruct Hw.
Qed.

Lemma racing_enqueues s e rec' s' r : wf_store (ks s) → wf_completed_job e → progress_ok (Enqueues rec') →
  proceed (wID rec) e (Enqueues rec') s = (s', r) →
  left_with (Enqueues rec') r = Done true ∧
  match wCallback rec with Some cb => called e cb (ks s) (ks s') | None => ks s' = ks s end.
Proof.
  intros Hm He [Hv Hty] Hp. assert (Hnt : wType rec ≠ TypeChain) by by rewrite Hty.
  assert (Hw : wp (S := S) (proceed (wID rec) e (Enqueues rec')) (λ m' r, left_with (Enqueues rec') r = Done true ∧
    match wCallback rec with Some cb => called e cb (ks s) m' | None => m' = ks s end) (ks s)).
  { cbn [proceed]. pose proof (completes_completed rec' Hv) as E. apply wp_bind.
    eapply wp_mono; [by apply (wp_enqueue_next_called e rec' (ks s) Hm Hrec)|]. cbv beta.
    intros m' [[]|err] Hk; cbv iota; [apply wp_ret|]; cbn [left_with completes]; by rewrite E. }
  specialize (Hw s eq_refl). by rewrite Hp in Hw.
Qed.

Lemma racing_advances s cs i e rec' s' r : racing s cs → cs !! i = Some (e, Advances rec') →
  proceed (wID rec) e (Advances rec') s = (s', r) → has_news (ks s) cs i e (ks s') r.
Proof.
  intros Hr Hi Hp. destruct (Forall_lookup_1 _ _ _ _ (racing_events _ _ Hr) Hi) as [_ (c & d & ->)].
  assert (Hm : wf_store (ks s)) by (by apply inv_wf, sound_inv, reachable_sound, (racing_reachable _ cs)).
  pose proof (wfw_id _ Hrec) as Hid.
  assert (Hw : wp (S := S) (proceed (wID rec) e (Advances (at_progress c d "running" rec))) (has_news (ks s) cs i e) (ks s)).
  { destruct (racing_tally _ _ Hr) as [(Hty & Ht & Hn)|(Hty & Hnd & Hd)]; [by apply group_news|by apply chord_news]. }
  specialize (Hw s eq_refl). by rewrite Hp in Hw.
Qed.

Lemma racing_proceeds s cs i e st s' r : racing s cs → cs !! i = Some (e, st) →
  proceed (wID rec) e st s = (s', r) → racing s' (<[i := (e, left_with st r)]> cs).
Proof.
  intros Hr Hi Hp. destruct (Forall_lookup_1 _ _ _ _ (racing_events _ _ Hr) Hi) as [He Hok]. cbn [fst snd] in *.
  pose proof (racing_reachable _ _ Hr) as Hs. pose proof (wfw_id _ Hrec) as Hid.
  assert (Hs' : reachable s').
  { pose proof (issues_reachable _ _ s (issues_proceed (wID rec) e st Hid He (progress_ok_wf st Hok)) Hs) as Hs'.
    by rewrite Hp in Hs'. }
  assert (Hm : wf_store (ks s)) by (by apply inv_wf, sound_inv, reachable_sound).
  destruct st as [|rec'|rec' next|rec'|b].
  - pose proof (racing_loads s cs i e Hr Hi s eq_refl) as Hl. rewrite Hp in Hl. cbn [fst snd] in Hl. destruct Hl as (E & rec' & -> & Hv).
    cbn [left_with]. apply (racing_quiet s s' cs i e Loads); try done; rewrite E; [done..|by left|by apply creates_same].
  - destruct (racing_advances s cs i e rec' s' r Hr Hi Hp) as (st' & -> & Hok' & Hadv & Hc & Hk & Ht & Hj).
    apply saves_next_advanced in Hadv. cbn [left_with]. by apply (racing_news s s' cs i e (Advances rec')).
  - destruct (racing_saves s e rec' next s' r Hok Hp) as (E & Hid' & ->). cbn [left_with].
    unfold save_ks in E. rewrite Hid' in E.
    apply (racing_quiet s s' cs i e (Saves rec' next)); [done|done|done|..].
    + destruct next; [|done]. destruct Hok as [[_ [=]]|[Hv Hn]]. symmetry in Hn. by apply bool_decide_eq_true in Hn.
    + by destruct next.
    + by destruct next.
    + rewrite E. by ks_simp.
    + rewrite E. by ks_simp.
    + right. exists rec'. split; [unfold saved; rewrite E, Hid'; apply str_at_put_eq|].
      destruct Hok as [[Hv _]|[Hv _]]; [by left|right; split; [done|by apply completes_completed]].
    + done.
    + apply creates_same. intros j Hj. rewrite E. by ks_simp.
  - destruct (racing_enqueues s e rec' s' r Hm He Hok Hp) as [-> Hk]. destruct Hok as [Hv Hty].
    pose proof (completes_completed rec' Hv) as Hc.
    assert (Hkeys : Forall (λ k, ks s' !! k = ks s !! k) wf_keys ∧
      ∀ j, wf_id j → j ≠ evNewID e → ks s' !! jobKey j = ks s !! jobKey j).
    { destruct (wCallback rec); [by destruct Hk as (? & ? & _)|rewrite Hk]. split; [by apply Forall_true|done]. }
    destruct Hkeys as [Hk1 Hj]. apply Forall_cons_1 in Hk1 as [Hk1 Hk2]. apply Forall_cons_1 in Hk2 as [Hk2 Hk3].
    apply Forall_cons_1 in Hk3 as [Hk3 _].
    apply (racing_quiet s s' cs i e (Enqueues rec')); try done; [by left|].
    intros j Hjd. destruct (decide (j = evNewID e)) as [->|Hne]; [by right|]. rewrite Hj by done. by left.
  - cbn [proceed] in Hp. injection Hp as <- <-. cbn [left_with]. by rewrite list_insert_id.
Qed.

Lemma racing_step c c' : race_step c c' → racing c.1 c.2 → racing c'.1 c'.2.
Proof.
  intros Hstep Hr. destruct Hstep as [s cs i e st s' r Hi Hp|s s' cs Hs Hk Hids]; cbn [fst snd] in *.
  - by eapply racing_proceeds.
  - unfold wf_keys in Hk. apply Forall_cons_1 in Hk as [Hk1 Hk]. apply Forall_cons_1 in Hk as [Hk2 Hk].
    apply Forall_cons_1 in Hk as [Hk3 _]. destruct Hr as [Hr He Ht Hnd Hjobs (rec' & Hsv & Hv) Hearly Honce].
    split; [by eapply reachable_step|done|by apply (tally_frame (ks s))|done| | |done|done].
    { intros i e st Hi [v Hj]. apply (Hjobs i e st Hi). destruct (ks s !! jobKey (evNewID e)) eqn:E; [done|].
      pose proof (Forall_lookup_1 _ _ _ _ Hids Hi E) as Hn. cbn in Hn. congruence. }
    exists rec'. split; [|done]. unfold saved in *.
    assert (wID rec' = wID rec) as Hid by (by destruct Hv as [(c & d & ->)|[(c & d & ->) _]]).
    rewrite Hid in *. by rewrite (str_at_ext _ _ _ Hk1).
Qed.

Lemma racing_steps c c' : rtc race_step c c' → racing c.1 c.2 → racing c'.1 c'.2.
Proof. induction 1; eauto using racing_step. Qed.

(** *** From the beginning *)

Definition start_all (events : list completed_job) : calls := (λ e, (e, Loads)) <$> events.

(** One completion is due for every task of the group or header of the chord. *)
Definition all_due (m : keyspace) (events : list completed_job) : Prop :=
  (wType rec = TypeGroup → wTotal rec = Z.of_nat (length events) ∧ completions m (wID rec) = Some 0) ∧
  (wType rec = TypeChord → NoDup (evJob <$> events) ∧
     set_at m (depsKey (wID rec)) = list_to_set (evJob <$> events)).

Lemma start_all_lookup events i e st : start_all events !! i = Some (e, st) → events !! i = Some e ∧ st = Loads.
Proof. unfold start_all. rewrite list_lookup_fmap. destruct (events !! i); [|done]. by intros [= <- <-]. Qed.

Lemma count_start_all events : count_advanced (start_all events) = 0%nat.
Proof. unfold start_all, count_advanced. by induction events. Qed.

(** The ids that the calls drew are new. *)
Definition fresh_ids (m : keyspace) (events : list completed_job) : Prop :=
  NoDup (evNewID <$> events) ∧ Forall (λ e, m !! jobKey (evNewID e) = None) events.

Lemma racing_start_all s events : reachable s → saved (ks s) rec → wState rec = "running" → events ≠ [] →
  Forall wf_completed_job events → all_due (ks s) events → fresh_ids (ks s) events → racing s (start_all events).
Proof.
  intros Hs Hsv Hst Hne He [Hgroup Hchord] [Hids Hnew]. split.
  - done.
  - unfold start_all. apply Forall_fmap. by eapply Forall_impl; [exact He|].
  - destruct Hshape as [Hty|Hty]; [left|right]; split; try done.
    + destruct (Hgroup Hty) as [Ht Hc]. unfold start_all at 1. by rewrite length_fmap, count_start_all.
    + destruct (Hchord Hty) as [Hnd Hd]. unfold start_all at 1. rewrite <- list_fmap_compose. split; [done|].
      intros j. rewrite Hd, elem_of_list_to_set, list_elem_of_fmap. split.
      * intros (e & -> & [i Hi]%list_elem_of_lookup). exists i, e, Loads. split; [|done].
        unfold start_all. by rewrite list_lookup_fmap, Hi.
      * intros (i & e & st & [Hi _]%start_all_lookup & _ & <-). exists e. split; [done|]. by apply list_elem_of_lookup_2 in Hi.
  - unfold start_all. by rewrite <- list_fmap_compose.
  - intros i e st [Hi _]%start_all_lookup [v Hj]. pose proof (Forall_lookup_1 _ _ _ _ Hnew Hi) as Hn. cbn in Hn. congruence.
  - exists rec. split; [done|]. left. exists (wCurrent rec), (wDone rec). destruct rec; cbn in *. by subst.
  - intros i (e & st & [_ ->]%start_all_lookup & Hc). done.
  - intros Ha. destruct events as [|e events]; [done|]. by specialize (Ha 0%nat e Loads eq_refl).
Qed.

(** *** What has happened *)

(** Between two moments of a race there was one at which [P] held on the server. *)
Definition once_was (c0 c : S * calls) (P : keyspace → Prop) : Prop :=
  ∃ c1, rtc race_step c0 c1 ∧ rtc race_step c1 c ∧ P (ks c1.1).

Lemma once_was_step c0 c c' P : once_was c0 c P → race_step c c' → once_was c0 c' P.
Proof. intros (c1 & Ha1 & Ha2 & HP) Hstep. exists c1. split_and!; [done|by eapply rtc_r|done]. Qed.

Lemma once_was_now c0 c P : rtc race_step c0 c → P (ks c.1) → once_was c0 c P.
Proof. intros Hc HP. by exists c. Qed.

Definition closed (m : keyspace) : Prop := ∃ rec', saved m rec' ∧ version "completed" rec'.

Definition calls_back (e : completed_job) (m : keyspace) : Prop :=
  wType rec = TypeChord → ∀ cb, wCallback rec = Some cb →
    spec_enqueued m (spec_job (evNow e) (evNewID e) (wID rec) cb).

(** What a call that has completed the workflow has done. *)
Definition done_so (c0 c : S * calls) (e : completed_job) (st : progress) : Prop :=
  (st = Done true ∨ (∃ rec', st = Enqueues rec') → once_was c0 c closed) ∧
  (st = Done true → once_was c0 c (calls_back e)).

Lemma done_so_step c0 c c' e st : done_so c0 c e st → race_step c c' → done_so c0 c' e st.
Proof. intros [Ha1 Ha2] Hstep. split; intros Hst; eapply once_was_step; eauto. Qed.

Lemma done_so_early c0 c e st : st ≠ Done true → (∀ rec', st ≠ Enqueues rec') → done_so c0 c e st.
Proof. intros Ha1 Ha2. split; [intros [?|[rec' ?]]; [done|by destruct (Ha2 rec')]|done]. Qed.

Lemma done_so_proceeds c0 s cs i e st s' r : rtc race_step c0 (s, cs) → racing s cs → cs !! i = Some (e, st) →
  proceed (wID rec) e st s = (s', r) → done_so c0 (s, cs) e st →
  done_so c0 (s', <[i := (e, left_with st r)]> cs) e (left_with st r).
Proof.
  intros Hc Hr Hi Hp Hd. destruct (Forall_lookup_1 _ _ _ _ (racing_events _ _ Hr) Hi) as [He Hok]. cbn [fst snd] in *.
  pose proof (race_proceeds s cs i e st s' r Hi Hp) as Hstep. pose proof (rtc_r _ _ _ Hc Hstep) as Hc'.
  destruct st as [|rec'|rec' next|rec'|b].
  - pose proof (racing_loads s cs i e Hr Hi s eq_refl) as Hl. rewrite Hp in Hl. cbn [fst snd] in Hl.
    destruct Hl as (_ & rec' & -> & _). by apply done_so_early.
  - destruct (racing_advances s cs i e rec' s' r Hr Hi Hp) as (st' & -> & _ & Hn & _).
    apply done_so_early; cbn [left_with]; intros; by intros ->.
  - destruct (racing_saves s e rec' next s' r Hok Hp) as (E & Hid & ->). cbn [left_with] in *.
    destruct Hok as [[Hv ->]|[Hv ->]].
    + apply done_so_early; [|done]. by rewrite (completes_running rec' Hv).
    + rewrite (completes_completed rec' Hv) in *. assert (Hclosed : closed (ks s')).
      { exists rec'. split; [|done]. unfold saved. rewrite E. unfold save_ks. apply str_at_put_eq. }
      case_bool_decide as Hty; (split; [intros _; by apply once_was_now|]); [done|].
      intros _. apply once_was_now; [done|]. intros Hch. by destruct Hty.
  - assert (Hm : wf_store (ks s)) by (by apply inv_wf, sound_inv, reachable_sound, (racing_reachable _ cs)).
    destruct (racing_enqueues s e rec' s' r Hm He Hok Hp) as [E Hk]. rewrite E in *. split; intros _.
    + eapply once_was_step; [apply (proj1 Hd); eauto|exact Hstep].
    + apply once_was_now; [done|]. intros _ cb Hcb. rewrite Hcb in Hk. apply Hk.
  - cbn [proceed] in Hp. injection Hp as <- <-. cbn [left_with] in *. by eapply done_so_step.
Qed.

Lemma all_done_so c0 c : racing c0.1 c0.2 → (∀ i e st, c0.2 !! i = Some (e, st) → done_so c0 c0 e st) →
  rtc race_step c0 c → ∀ i e st, c.2 !! i = Some (e, st) → done_so c0 c e st.
Proof.
  intros Hr0 Hd0 Hc. revert c Hc.
  refine (rtc_ind_r (λ c, ∀ i e st, c.2 !! i = Some (e, st) → done_so c0 c e st) c0 Hd0 _). intros c c' Hc Hstep IH.
  pose proof (racing_steps _ _ Hc Hr0) as Hr. intros k e st Hk.
  destruct Hstep as [s cs i ei sti s' r Hi Hp|s s' cs Hs Hkeys Hids]; cbn [fst snd] in *.
  - apply list_lookup_insert_Some in Hk as [(<- & [= <- <-] & _)|[_ Hk]].
    + by apply (done_so_proceeds c0 s cs i ei sti s' r Hc Hr Hi Hp), (IH i).
    + eapply done_so_step; [by apply (IH k)|by apply race_proceeds].
  - eapply done_so_step; [by apply (IH k)|by apply race_other].
Qed.

(** C11: over a network that executes every request once and loses no reply, whatever
    the order in which the requests of the completions of a group or chord reach
    the server, exactly one of them completes the workflow.  The record on the
    server is running, or completed and all completions have been counted.  Once
    all have been counted there is exactly one call that completes the workflow,
    and there was none before.  When that call is done, it has saved the record
    as completed and enqueued the callback of a chord; the job that a call may
    enqueue is on the server only if it is this call.  (Other processes leave
    the record, the counter and the dependencies alone meanwhile, and do not draw
    the ids of the calls.) *)
Theorem completed_once s events s' cs : reachable s → saved (ks s) rec → wState rec = "running" →
  events ≠ [] → Forall wf_completed_job events → all_due (ks s) events → fresh_ids (ks s) events →
  rtc race_step (s, start_all events) (s', cs) →
  (∃ rec', saved (ks s') rec' ∧ (version "running" rec' ∨ version "completed" rec' ∧ all_advanced cs)) ∧
  (∀ i, completes_at cs i → all_advanced cs) ∧
  (all_advanced cs → ∃ i, completes_at cs i ∧ ∀ j, completes_at cs j → j = i) ∧
  (∀ i e, cs !! i = Some (e, Done true) →
     once_was (s, start_all events) (s', cs) closed ∧ once_was (s, start_all events) (s', cs) (calls_back e)) ∧
  (∀ i e st, cs !! i = Some (e, st) → is_Some (ks s' !! jobKey (evNewID e)) →
     st = Done true ∧ wType rec = TypeChord).
Proof.
  intros Hs Hsv Hst Hne He Hdue Hids Hsteps.
  pose proof (racing_start_all s events Hs Hsv Hst Hne He Hdue Hids) as Hr0.
  pose proof (racing_steps _ _ Hsteps Hr0) as Hr. cbn [fst snd] in Hr. split_and!; [apply Hr..| |apply Hr].
  intros i e Hi. assert (Hd : done_so (s, start_all events) (s', cs) e (Done true)).
  { apply (all_done_so (s, start_all events) (s', cs) Hr0) with (i := i); [|done|done].
    intros k ek stk [_ ->]%start_all_lookup. by apply done_so_early. }
  destruct Hd as [Hd1 Hd2]. auto.
Qed.

(** *** A race, executed *)

(** The calls proceed in the given order. *)
Fixpoint schedule (order : list nat) (c : S * calls) : S * calls :=
  match order with
  | [] => c
  | i :: order' =>
      match c.2 !! i with
      | Some (e, st) =>
          let '(s', r) := proceed (wID rec) e st c.1 in
          schedule order' (s', <[i := (e, left_with st r)]> c.2)
      | None => schedule order' c
      end
  end.

Lemma schedule_races order c : rtc race_step c (schedule order c).
Proof.
  revert c. induction order as [|i order IH]; intros [s cs]; cbn [schedule fst snd]; [done|].
  destruct (cs !! i) as [[e st]|] eqn:Hi; [|apply IH].
  destruct (proceed (wID rec) e st s) as [s' r] eqn:Hp. eapply rtc_l; [by eapply race_proceeds|apply IH].
Qed.
End Races.
