(* ===== verification/MemText.v ===== *)
(** * MemText: texts for the examples

    Concrete encodings of what the program stores as text, so that every class
    of the development has an instance: workflow records and the states of a
    schedule stand for [encoding/json], doubles are written as fractions. *)
From S2P Require Import Prelude Float Redis Json Workflow Cron RateLimit.
From Stdlib Require Import QArith DecimalString DecimalZ.

Open Scope string_scope.
Open Scope Z_scope.

(** ** Records as text *)

(** A list of strings as one: a dot before each character, a semicolon after
    each string. *)
Fixpoint dotted (s rest : string) : string :=
  match s with
  | "" => String ";"%char rest
  | String c s' => String "."%char (String c (dotted s' rest))
  end.

Definition pack (l : list string) : string := foldr dotted "" l.

Fixpoint unpack (s : string) : list string :=
  match s with
  | String "."%char (String c s') =>
      match unpack s' with
      | t :: l => String c t :: l
      | [] => []
      end
  | String _ s' => "" :: unpack s'
  | "" => []
  end.

Lemma unpack_dotted t rest : unpack (dotted t rest) = t :: unpack rest.
Proof. induction t as [|c t IH]; [done|]. cbn. by rewrite IH. Qed.

Lemma unpack_pack l : unpack (pack l) = l.
Proof.
  induction l as [|t l IH]; [done|]. change (pack (t :: l)) with (dotted t (pack l)).
  by rewrite unpack_dotted, IH.
Qed.

Definition spec_text (s : TaskSpec) : string :=
  pack [sKind s; sPayload s; sQueue s; dec (sPriority s); dec (sMaxRetries s)].
Definition text_spec (t : string) : option TaskSpec :=
  match unpack t with
  | [k; p; q; pr; mr] => Some {|
      sKind := k; sPayload := p; sQueue := q; sPriority := undec pr; sMaxRetries := undec mr |}
  | _ => None
  end.

Lemma text_spec_text s : text_spec (spec_text s) = Some s.
Proof. unfold text_spec, spec_text. rewrite unpack_pack, !undec_dec. by destruct s. Qed.

Definition record_text (r : WfRecord) : string :=
  pack [wID r; wType r; wState r; pack (spec_text <$> wTasks r);
    match wCallback r with Some c => spec_text c | None => "" end;
    dec (wCurrent r); dec (wTotal r); dec (wDone r); wQueue r].

Definition text_record (t : string) : result string WfRecord :=
  match unpack t with
  | [i; ty; st; ts; cb; c; n; d; q] =>
      match mapM text_spec (unpack ts) with
      | Some ts => Ok {|
          wID := i; wType := ty; wState := st; wTasks := ts; wCallback := text_spec cb;
          wCurrent := undec c; wTotal := undec n; wDone := undec d; wQueue := q |}
      | None => Err "bad task"
      end
  | _ => Err "bad record"
  end.

#[export] Instance packed : Json WfRecord := {|
  marshal := record_text; unmarshal := text_record; valid_text _ := True |}.

#[export] Instance packed_laws : JsonLaws WfRecord.
Proof.
  intros r _. change (text_record (record_text r) = Ok r). unfold text_record, record_text.
  rewrite !unpack_pack, !undec_dec.
  assert (mapM text_spec (spec_text <$> wTasks r) = Some (wTasks r)) as ->.
  { apply mapM_Some, Forall2_fmap_l, Forall_Forall2_diag, Forall_forall. intros s _. apply text_spec_text. }
  destruct r as [? ? ? ? [s|] ? ? ? ?]; cbn [wCallback]; [|done]. by rewrite (text_spec_text s).
Qed.

(** ** The state of a schedule *)

#[export] Instance next_run_text : Json cronState := {|
  marshal s := dec (NextRun s); unmarshal t := Ok {| NextRun := undec t |}; valid_text _ := True |}.

#[export] Instance next_run_laws : JsonLaws cronState.
Proof. intros [n] _. cbn. by rewrite undec_dec. Qed.

(** ** Doubles *)

Definition is_numeral (s : string) : bool :=
  match NilZero.int_of_string s with Some _ => true | None => false end.

Fixpoint cut_slash (s : string) : string * string :=
  match s with
  | "" => ("", "")
  | String c s' =>
      if decide (c = "/"%char) then ("", s')
      else let '(a, b) := cut_slash s' in (String c a, b)
  end.

#[export] Instance fraction_text : LuaFloats := {|
  tonumberf s :=
    if is_numeral s then Some (Fin (inject_Z (undec s)))
    else let '(a, b) := cut_slash s in Some (Fin (Qmake (undec a) (Z.to_pos (undec b))));
  tostringf x :=
    match x with
    | Fin q => if decide (Qden q = 1%positive) then dec (Qnum q)
               else dec (Qnum q) +:+ "/" +:+ dec (Zpos (Qden q))
    | Inf _ => "inf"
    | NaN => "nan"
    end;
  not_finite := int64_min |}.

Lemma is_numeral_dec z : is_numeral (dec z) = true.
Proof. unfold is_numeral, dec. destruct (to_int_not_nil z). by rewrite NilZero.isi. Qed.

(** A numeral has no slash, and nothing with a slash is a numeral. *)
Fixpoint has_slash (s : string) : bool :=
  match s with "" => false | String c s' => bool_decide (c = "/"%char) || has_slash s' end.

Lemma uint_slash s : has_slash s = true → NilEmpty.uint_of_string s = None.
Proof.
  induction s as [|c s IH]; [done|]. cbn [has_slash NilEmpty.uint_of_string]. intros Hs.
  case_bool_decide as Hc; [by subst c; destruct (NilEmpty.uint_of_string s)|]. by rewrite IH.
Qed.

Lemma numeral_slash s : has_slash s = true → is_numeral s = false.
Proof.
  intros Hs. unfold is_numeral, NilZero.int_of_string, NilZero.uint_of_string.
  pose proof (uint_slash s Hs) as Hu. destruct s as [|c s]; [done|].
  destruct (ascii_dec c "-") as [->|Hc].
  - cbn in Hs. apply uint_slash in Hs. cbn. destruct s; [done|]. by rewrite Hs.
  - destruct c as [[] [] [] [] [] [] [] []]; try (by rewrite Hu); by destruct Hc.
Qed.

Lemma has_slash_app s r : has_slash (s +:+ "/" +:+ r) = true.
Proof.
  induction s as [|c s IH]; [done|]. change (String c s +:+ "/" +:+ r) with (String c (s +:+ "/" +:+ r)).
  cbn [has_slash]. rewrite IH. apply orb_true_r.
Qed.

Lemma cut_slash_app s r : has_slash s = false → cut_slash (s +:+ "/" +:+ r) = (s, r).
Proof.
  induction s as [|c s IH]; [done|]. cbn [has_slash]. intros Hs.
  apply orb_false_iff in Hs as [Hc Hs]. apply bool_decide_eq_false in Hc.
  change (String c s +:+ "/" +:+ r) with (String c (s +:+ "/" +:+ r)). cbn [cut_slash].
  by rewrite decide_False, IH.
Qed.

Lemma dec_no_slash z : has_slash (dec z) = false.
Proof.
  destruct (has_slash (dec z)) eqn:E; [|done]. apply numeral_slash in E. by rewrite is_numeral_dec in E.
Qed.

Lemma fraction_roundtrip q : tonumberf (tostringf (Fin q)) = Some (Fin q).
Proof.
  destruct q as [n d]. cbn [tostringf fraction_text Qnum Qden]. case_decide as Hd.
  - subst d. unfold tonumberf, fraction_text. by rewrite is_numeral_dec, undec_dec.
  - unfold tonumberf, fraction_text. rewrite numeral_slash by apply has_slash_app.
    by rewrite (cut_slash_app (dec n)), !undec_dec by apply dec_no_slash.
Qed.

#[export] Instance fraction_laws : LuaFloatLaws.
Proof.
  split; intros; [|apply fraction_roundtrip..].
  unfold tonumberf, fraction_text. by rewrite is_numeral_dec, undec_dec.
Qed.
