(* ===== verification/Examples.v ===== *)
(** * Examples: the theorems about the queue at work

    Concrete contents, produced by running the queue itself on the instance of
    [MemRedis.v], and each theorem of the queue applied to them. *)
From S2P Require Import Inspector Prelude Float Keys Redis Lua MemRedis Keyspace Job Scripts Queue ScriptSpecs QueueSpecs EnqueueSpecs FinishSpecs SweepSpecs.

Open Scope string_scope.
Open Scope Z_scope.

(** ** Two jobs *)

Definition welcome : JobRecord := {|
  ID := "job-1"; Kind := "email:welcome"; Queue := "default"; Priority := 5; State := "pending";
  Payload := "{}"; Attempt := 0; MaxRetries := 3; CreatedAt := 1700000000000; ScheduledAt := 0;
  StartedAt := 0; CompletedAt := 0; LastError := ""; UniqueKey := ""; WorkflowID := "" |}.

Definition digest : JobRecord := {|
  ID := "job-2"; Kind := "email:digest"; Queue := "default"; Priority := 1; State := "scheduled";
  Payload := "{}"; Attempt := 0; MaxRetries := 1; CreatedAt := 1700000000000;
  ScheduledAt := 1700000060000;
  StartedAt := 0; CompletedAt := 0; LastError := ""; UniqueKey := ""; WorkflowID := "" |}.

(** Nanoseconds at which the examples happen. *)
Definition noon : Z := 1700000001000 * Millisecond.

Definition after {A} (c : M mem error A) (s : mem) : mem := (c s).1.

(** [welcome] waits under a unique key, [digest] is delayed. *)
Definition s_queued : mem :=
  after (Enqueue digest "" 0) (after (Enqueue welcome "hello" (10 * Second)) empty_mem).
(** Worker [w1] holds [welcome]. *)
Definition s_active : mem := after (Dequeue noon "default" "w1") s_queued.
(** [welcome] is dead. *)
Definition s_dead : mem := after (Nack noon "default" "job-1" "w1" "boom" 1000 true) s_active.

(** Applies a theorem whose hypotheses are decidable at a concrete input. *)
Ltac concretely thm :=
  eapply wp_mono;
  [ apply thm; lazymatch goal with
               | |- wf_store _ => apply check_store_wf; decide_now
               | |- _ => decide_now
               end
  | intros m' r; cbv beta ].

Lemma Enqueue_stores_witness :
  wp (S := mem) (Enqueue welcome "hello" (10 * Second)) (λ m' r, r = Ok tt) (ks empty_mem).
Proof. concretely (Enqueue_stores (S := mem)). destruct (unique_slot _ _). by intros [? _]. Defined.

Lemma Enqueue_duplicate_witness :
  wp (S := mem) (Enqueue digest "hello" (10 * Second)) (λ m' r, r = Err ErrDuplicate) (ks s_queued).
Proof. concretely (Enqueue_duplicate (S := mem)). by intros [? _]. Defined.

Lemma Enqueue_GetJob_witness :
  wp (S := mem) (Enqueue welcome "hello" (10 * Second) ;; GetJob "job-1")
    (λ _ r, r = Ok (Some (fresh_record welcome "winter:unique:hello"))) (ks empty_mem).
Proof. concretely (Enqueue_GetJob (S := mem) welcome "hello" (10 * Second)). by intros ->. Defined.

Lemma Enqueue_subsecond_witness :
  wp (S := mem) (Enqueue digest "hello" (Second - 1)) (λ m' r, r = Ok tt) (ks s_queued).
Proof. concretely (Enqueue_subsecond (S := mem)). by intros [? _]. Defined.

Lemma EnqueueMany_each_witness :
  (EnqueueMany [welcome; digest] empty_mem).2 = Ok tt.
Proof.
  apply (EnqueueMany_each (S := mem) [welcome; digest] empty_mem).
  - apply check_store_wf. decide_now.
  - decide_now.
  - intros job [->|[->|[]%elem_of_nil]%elem_of_cons]%elem_of_cons; exists 0; split; try reflexivity;
      decide_now.
Defined.

Lemma Dequeue_takes_min_witness :
  wp (S := mem) (Dequeue noon "default" "w1")
    (λ m' r, zset_at m' (leaseKey "default") !! "job-1" = Some (1700000001000 + 30000)) (ks s_queued).
Proof.
  concretely (Dequeue_takes_min (S := mem)). rewrite decide_False by decide_now.
  intros (j & p & Hin & _ & _ & _ & _ & _ & _ & -> & _).
  change (zset_at (ks s_queued) (readyKey "default")) with ({["job-1" := 5]} : gmap string Z) in Hin.
  apply lookup_singleton_Some in Hin as [<- _]. apply lookup_insert_eq.
Defined.

Lemma Ack_completes_witness :
  wp (S := mem) (Ack noon "default" "job-1" "w1") (λ m' r, r = Ok tt) (ks s_active).
Proof. concretely (Ack_completes (S := mem)). by intros [? _]. Defined.

Lemma Nack_retries_or_buries_witness :
  wp (S := mem) (Nack noon "default" "job-1" "w1" "boom" 1000 false) (λ m' r, r = Ok "retry")
    (ks s_active).
Proof. concretely (Nack_retries_or_buries (S := mem) noon "default" "job-1" "w1" "boom" 1000 false 3). by intros [? _]. Defined.

Lemma RescheduleJob_delays_witness :
  wp (S := mem) (RescheduleJob "default" "job-1" "w1" noon) (λ m' r, r = Ok tt) (ks s_active).
Proof. concretely (RescheduleJob_delays (S := mem)). by intros [? _]. Defined.

Lemma CancelJob_closes_witness :
  wp (S := mem) (CancelJob noon "default" "job-1" "w1" "no need") (λ m' r, r = Ok tt) (ks s_active).
Proof. concretely (CancelJob_closes (S := mem)). by intros [? _]. Defined.

Lemma Promote_moves_due_witness :
  wp (S := mem) (Promote (1700000060000 * Millisecond) "default" 100) (λ m' r, r = Ok 1) (ks s_queued).
Proof. concretely (Promote_moves_due (S := mem)). by intros [-> _]. Defined.

Lemma RecoverExpiredLeases_exact_witness :
  wp (S := mem) (RecoverExpiredLeasesAt "default" 100 1700000031000) (λ m' r, r = Ok ["job-1"])
    (ks s_active).
Proof. concretely (RecoverExpiredLeases_exact (S := mem)). by intros [-> _]. Defined.

Lemma RecoverExpiredLeases_disjoint_witness :
  wp (S := mem)
    (ids1 ← RecoverExpiredLeasesAt "default" 100 1700000031000;
     ids2 ← RecoverExpiredLeasesAt "default" 100 1700000032000;
     mret (ids1, ids2)) (λ _ r, ∃ ids1 ids2, r = Ok (ids1, ids2) ∧ ∀ j, j ∈ ids1 → j ∉ ids2)
    (ks s_active).
Proof. concretely (RecoverExpiredLeases_disjoint (S := mem)). done. Defined.

Lemma ExtendLease_only_held_witness :
  wp (S := mem) (ExtendLease noon "default" "job-1" (60 * Second)) (λ m' r, r = Ok tt) (ks s_active).
Proof. concretely (ExtendLease_only_held (S := mem)). by intros [? _]. Defined.

Lemma RetryDead_revives_witness :
  wp (S := mem) (RetryDead "default" "job-1") (λ m' r, r = Ok tt) (ks s_dead).
Proof.
  concretely (RetryDead_revives (S := mem)). rewrite decide_True by decide_now. by intros [? _].
Defined.

Lemma PurgeDead_clears_witness :
  wp (S := mem) (PurgeDead "default") (λ m' r, r = Ok 1) (ks s_dead).
Proof. concretely (PurgeDead_clears (S := mem)). by intros [-> _]. Defined.

(** The dead letter list seen from outside. *)
Lemma inspector_reads_witness :
  wp (S := mem) (info ← Inspector.Queue "default"; page ← DeadPage "default" 0 50; mret (info, page))
    (λ m' r, m' = ks s_dead ∧ ∃ job, dLastError job = "boom" ∧ r = Ok ({|
       Name := "default"; Ready := 0; Active := 0; Delayed := 1; Dead := 1; Completed := 0; Enqueued := 2 |},
       [job])) (ks s_dead).
Proof.
  concretely (inspector_reads (S := mem)). intros [-> ->]. split; [done|].
  eexists. split; [|vm_compute; reflexivity]. reflexivity.
Defined.

(** A page of no jobs is the whole list, if it starts at the first one. *)
Example page_of_none : ∃ job, (DeadPage "default" 0 0 s_dead).2 = Ok [job].
Proof. eexists. vm_compute. reflexivity. Qed.
