(* ===== verification/WorkflowExamples.v ===== *)
(** * WorkflowExamples: the theorems of [Winter.v], [Client.v] and [WorkflowSpecs.v] at work

    The contents are produced by running the manager itself, on the encoding of
    [MemText.v]. *)
From S2P Require Import Prelude Float Keys Redis Lua MemRedis Keyspace Job Scripts Queue ScriptSpecs QueueSpecs EnqueueSpecs Winter Client Json Workflow WorkflowSpecs MemText Examples.

Open Scope string_scope.
Open Scope Z_scope.

(** ** Backoff and options *)

Lemma Next_exponential_witness : Next 0 (exponentialBackoff Second) 5 = 32 * Second.
Proof. rewrite (Next_exponential 0 Second 5); [done|vm_compute; intuition discriminate..]. Defined.

(** [send_mail] asks for the queue "mail" and five attempts. *)
Definition send_mail : Task := {|
  tKind := "mail:send"; tPayload := Ok "{}";
  tOptions := Some {| tQueue := "mail"; tMaxRetries := 5; tTimeout := 0; tBackoff := None;
                      tRateLimit := {| Max := 0; Per := 0 |} |} |}.

Definition broken : Task := {| tKind := "mail:send"; tPayload := Err "json: unsupported type"; tOptions := None |}.

Lemma queue_precedence_witness :
  queue (enqueue_opts send_mail [Winter.Queue "urgent"]) = "urgent" ∧
  task_queue send_mail "urgent" = "mail".
Proof.
  destruct (queue_precedence send_mail [] "urgent") as (H1 & _ & H3). split; [exact H1|].
  apply (H3 {| tQueue := "mail"; tMaxRetries := 5; tTimeout := 0; tBackoff := None;
               tRateLimit := {| Max := 0; Per := 0 |} |}); [done|decide_now].
Defined.

Lemma EnqueueMany_rejects_witness :
  (Client.EnqueueMany noon (λ _, "id") [send_mail; broken] [] empty_mem).1 = empty_mem.
Proof.
  apply (EnqueueMany_rejects (S := mem) noon (λ _, "id") [send_mail; broken] [] empty_mem).
  right. by left.
Defined.

Lemma Enqueue_unique_witness :
  wp (S := mem) (E := error)
    (r1 ← try (Client.Enqueue (λ s, s) noon "mail-1" send_mail [Unique Second]);
     r2 ← try (Client.Enqueue (λ s, s) noon "mail-2" send_mail [Unique Second]);
     mret (r1, r2))
    (λ m' r, ∃ job, r = Ok (Ok job, Err ErrDuplicate) ∧ jID job = "mail-1" ∧
       str_at m' (uniqueKey "mail:send:{}") = Some "mail-1") (ks s_queued).
Proof.
  apply (Enqueue_unique (S := mem) (λ s, s) noon noon "mail-1" "mail-2" send_mail [] [] "{}" Second).
  - apply check_store_wf. decide_now.
  - done.
  - decide_now.
  - decide_now.
  - decide_now.
  - decide_now.
  - decide_now.
Defined.

(** ** Workflows *)

Definition resize : TaskSpec := {|
  sKind := "image:resize"; sPayload := "{}"; sQueue := "images"; sPriority := 5; sMaxRetries := 3 |}.
Definition publish : TaskSpec := {|
  sKind := "image:publish"; sPayload := "{}"; sQueue := ""; sPriority := 5; sMaxRetries := 0 |}.

Definition s_chain : mem := after (CreateChain noon "wf-1" "job-1" [resize; publish] "default") empty_mem.
Definition s_group : mem :=
  after (CreateGroup (λ _, noon) "wf-2" (λ i, "job-" +:+ dec (Z.of_nat i)) [resize; publish] "default") s_chain.
Definition s_chord : mem :=
  after (CreateChord (λ _, noon) "wf-3" (λ i, "head-" +:+ dec (Z.of_nat i)) [resize] publish "default") s_group.

Definition chain_rec : WfRecord := chain_record "wf-1" (default_queue "default" <$> [resize; publish]) "default".
Definition group_rec : WfRecord := group_record "wf-2" (default_queue "default" <$> [resize; publish]) "default".
Definition chord_rec : WfRecord :=
  chord_record "wf-3" (default_queue "default" <$> [resize]) (default_queue "default" publish) "default".

(** A freshly created workflow is running. *)
Ltac fresh_running c :=
  split; [apply check_store_wf; decide_now|decide_now|by intros ?|by exists c, 0|vm_compute; reflexivity].

(** The counter of a fresh workflow does not exist yet. *)
Lemma chain_advances_witness :
  wp (S := mem) (OnJobCompleted noon "job-2" "wf-1" "job-1") (λ m' r, r = Ok tt) (ks s_chord).
Proof.
  eapply wp_mono; [apply (chain_advances (S := mem) noon "job-2" "job-1" chain_rec chain_rec 0)|].
  - fresh_running 0.
  - done.
  - done.
  - done.
  - intros spec [= <-]. split; decide_now.
  - done.
  - by intros m' r [? _].
Defined.

Lemma group_counts_witness :
  wp (S := mem) (OnJobCompleted noon "job-9" "wf-2" "job-0") (λ m' r, completions m' "wf-2" = Some 1)
    (ks s_chord).
Proof.
  eapply wp_mono; [apply (group_counts (S := mem) noon "job-9" "job-0" group_rec group_rec 0)|].
  - fresh_running 0.
  - done.
  - done.
  - done.
  - by intros m' r (_ & ? & _).
Defined.

Lemma chord_fires_witness :
  wp (S := mem) (OnJobCompleted noon "cb-1" "wf-3" "head-0")
    (λ m' r, zset_at m' (readyKey "default") !! "cb-1" = Some 5) (ks s_chord).
Proof.
  eapply wp_mono; [apply (chord_fires (S := mem) noon "cb-1" "head-0" chord_rec chord_rec
    (default_queue "default" publish))|].
  - fresh_running 0.
  - done.
  - done.
  - decide_now.
  - decide_now.
  - cbv beta zeta. intros m' r (_ & _ & Hf). rewrite decide_True in Hf by decide_now.
    by destruct Hf as (_ & [Hz _] & _).
Defined.

Lemma failed_workflow_stops_witness :
  wp (S := mem) (OnJobFailed "wf-1" "job-1" ;; OnJobCompleted noon "job-2" "wf-1" "job-1")
    (λ m' r, r = Ok tt) (ks s_chord).
Proof.
  eapply wp_mono; [apply (failed_workflow_stops (S := mem) noon "job-2" "job-1" "job-1" chain_rec chain_rec)|].
  - fresh_running 0.
  - by intros m' r [? _].
Defined.

Definition early_rec : WfRecord := chord_record "wf-4" [resize; resize] publish "default".

Lemma chord_fires_early_witness :
  wp (S := mem)
    (first_header (λ _, noon) (λ i, "early-" +:+ dec (Z.of_nat i)) "wf-4" early_rec resize ;;
     OnJobCompleted noon "cb-2" "wf-4" "early-0")
    (λ m' r, r = Ok tt) (ks s_chord).
Proof.
  eapply wp_mono; [apply (chord_fires_early (S := mem) (λ _, noon) (λ i, "early-" +:+ dec (Z.of_nat i))
    noon "cb-2" early_rec resize publish)|].
  - apply check_store_wf. decide_now.
  - decide_now.
  - by intros ?.
  - done.
  - done.
  - done.
  - vm_compute. discriminate.
  - decide_now.
  - decide_now.
  - decide_now.
  - intros job [->|[->|[]%elem_of_nil]%elem_of_cons]%elem_of_cons;
      [exists 3|exists 1]; (split; [vm_compute; reflexivity|decide_now]).
  - by intros m' r [? _].
Defined.

(** The two tasks of the first workflow, one after the other. *)
Lemma chain_completes_witness :
  wp (S := mem)
    (for_each [(noon, "job-2", "job-1"); (noon, "job-3", "job-2")]%list
      (λ e, OnJobCompleted e.1.1 e.1.2 (wID chain_rec) e.2))
    (λ m' r, r = Ok tt ∧ saved m' (set_state "completed" (set_current 2 chain_rec))) (ks s_chord).
Proof.
  eapply wp_mono; [apply (chain_completes (S := mem) chain_rec chain_rec 0
    [(noon, "job-2", "job-1"); (noon, "job-3", "job-2")]%list []%list)|].
  - fresh_running 0.
  - done.
  - done.
  - done.
  - done.
  - done.
  - cbn. lia.
  - decide_now.
  - decide_now.
  - intros job [->|[]%elem_of_nil]%elem_of_cons. eexists. split; [vm_compute; reflexivity|decide_now].
  - constructor.
  - by intros m' r (? & ? & _).
Defined.
