(* ===== verification/CronExamples.v ===== *)
(** * CronExamples: the theorems of [CronSpecs.v] at work

    A small stand-in for the cron library: one schedule fires every minute, one
    never. *)
From S2P Require Import Prelude Float Keys Redis Lua MemRedis Keyspace Job Scripts Queue ScriptSpecs QueueSpecs EnqueueSpecs Json Cron CronSpecs Ticks MemText Examples.

Open Scope string_scope.
Open Scope Z_scope.

(** A schedule is its period in nanoseconds, if it fires at all. *)
#[export] Instance every : CronLib := {|
  Schedule := option positive;
  Parse s :=
    if decide (s = "* * * * *") then Ok (Some 60%positive)
    else if decide (s = "0 0 30 2 *") then Ok None
    else Err "expected exactly 5 fields";
  Next sched t :=
    match sched with
    | Some p => Some ((t / (Zpos p * Second) + 1) * (Zpos p * Second))
    | None => None
    end
|}.

#[export] Instance every_laws : CronLaws.
Proof.
  intros [p|] t t'; [|done]. cbn. unfold Second. intros [= <-]. split.
  - pose proof (Z.mul_succ_div_gt t (Zpos p * 1000000000) ltac:(lia)). lia.
  - exists ((t / (Zpos p * 1000000000) + 1) * Zpos p). lia.
Qed.

Definition report : parsedEntry := {|
  entry := {| eName := "report"; eSchedule := "* * * * *"; eQueue := "default";
              eKind := "report:build"; ePayload := "{}" |};
  sched := Some 60%positive |}.

(** The thirtieth of February. *)
Definition leap : parsedEntry := {|
  entry := {| eName := "leap"; eSchedule := "0 0 30 2 *"; eQueue := "default";
              eKind := "leap:day"; ePayload := "{}" |};
  sched := None |}.

Definition seeded : mem :=
  after (seedNextRuns noon {| entries := [report; leap]; Interval := Second |}) empty_mem.

Definition later : Z := noon + 3600 * Second.

Lemma tick_fires_witness :
  wp (S := mem) (tick_entry later report)
    (λ m' r, zset_at m' (readyKey "default") !! "cron:report:1700000040000" = Some 5) (ks seeded).
Proof.
  eapply wp_mono; [apply (tick_fires (S := mem) later report "1700000040000" {| NextRun := 1700000040000 |})|].
  - apply check_store_wf. decide_now.
  - vm_compute. reflexivity.
  - done.
  - decide_now.
  - decide_now.
  - cbv beta. intros m' r (_ & Hr). rewrite decide_False in Hr by decide_now.
    by destruct Hr as (_ & _ & [Hz _] & _).
Defined.

Lemma never_fires_always_witness :
  wp (S := mem) (tick_entry later leap) (λ m' r, stored m' "leap" = stored (ks seeded) "leap") (ks seeded).
Proof.
  eapply wp_mono; [apply (never_fires_always (S := mem) later leap)|].
  - apply check_store_wf. decide_now.
  - done.
  - decide_now.
  - done.
  - vm_compute. reflexivity.
  - decide_now.
  - decide_now.
  - cbv beta. intros m' r (_ & _ & _ & Hs). etransitivity; [exact Hs|]. vm_compute. reflexivity.
Defined.

(** The ticks under way proceed in the given order. *)
Fixpoint ticked (order : list nat) (x : servers (S := mem)) : servers (S := mem) :=
  match order with
  | [] => x
  | i :: order' =>
      match x.1.2 !! i with
      | Some (now, st) =>
          let '(s', r) := tick_step now report st x.1.1 in
          ticked order' (s', <[i := (now, match r with Ok st' => st' | Err _ => Over end)]> x.1.2,
            (enqueues_next now report st ++ x.2)%list)
      | None => ticked order' x
      end
  end.

Lemma ticked_steps order x : rtc (ticking report) x (ticked order x).
Proof.
  revert x. induction order as [|i order IH]; intros [[s ts] log]; cbn [ticked fst snd]; [done|].
  destruct (ts !! i) as [[now st]|] eqn:Hi; [|apply IH].
  destruct (tick_step now report st s) as [s' r] eqn:Hp. eapply rtc_l; [by eapply ticking_goes|apply IH].
Qed.

(** Two servers read the same state and both swap; a third comes two minutes later. *)
Definition three_ticks : servers (S := mem) :=
  ticked [1; 2; 1; 2; 1; 2; 0; 0; 0]%nat
    (seeded, [(later + 120 * Second, Reads); (later, Reads); (later, Reads)]%list, []).

Example three_ticks_log : ID <$> three_ticks.2 = ["cron:report:1700003640000"; "cron:report:1700000040000"]%list.
Proof. vm_compute. reflexivity. Qed.

Lemma cron_at_most_once_witness : NoDup (ID <$> three_ticks.2).
Proof.
  refine (proj2 (proj2 (cron_at_most_once (S := mem) report _ _ seeded three_ticks.1.1 three_ticks.1.2 three_ticks.2 _ _))).
  - decide_now.
  - intros t. eexists. split; [reflexivity|exact I].
  - decide_now.
  - eapply rtc_l; [apply (ticking_begins report later)|]. eapply rtc_l; [apply (ticking_begins report later)|].
    eapply rtc_l; [apply (ticking_begins report (later + 120 * Second))|].
    rewrite <- !surjective_pairing. apply ticked_steps.
Defined.

(** The reply to the second request, the swap, is lost. *)
Section Lossy.
Definition drop_second : nat → delivery := λ n, match n with 1%nat => Replied 1 | _ => Replied 0 end.

#[local] Instance drop_redis : Redis mem := mem_redis drop_second.
#[local] Instance drop_laws : RedisLaws mem := mem_laws drop_second.

Definition seeded0 : mem := Mem (mks seeded) (mexp seeded) (mclk seeded) 0.

Lemma tick_lost_witness :
  stored (ks (tick_entry later report seeded0).1) (eName (entry report)) =
    Some (marshal {| NextRun := next_ms (Some (1700003640000 * Millisecond)) |}).
Proof.
  refine (proj1 (proj2 (tick_lost (S := mem) later report "1700000040000" {| NextRun := 1700000040000 |}
    (1700003640000 * Millisecond) seeded0 0 _ _ _ _ _ _ _ _))).
  - done.
  - done.
  - decide_now.
  - vm_compute. reflexivity.
  - done.
  - decide_now.
  - vm_compute. reflexivity.
  - exact I.
Defined.
End Lossy.
