(* ===== verification/RateLimitExamples.v ===== *)
(** * RateLimitExamples: the bucket at work

    The last example shows a bucket that a
    caller finds empty although it waited as long as it was told to. *)
From S2P Require Import Prelude Float Keys Redis Lua MemRedis Keyspace Queue QueueSpecs RateLimit RateLimitSpecs RateLimitBounds MemText Examples.

From Stdlib Require Import QArith.

Open Scope string_scope.
Open Scope Z_scope.

(** Three mails a second: the first three of five get through. *)
Lemma burst_exactly_max_witness :
  wp (S := mem) (map_each (seq 0 5) (λ _, Allow noon "mail:send" 3 Second)) (λ m' r,
    ∃ rs, r = Ok rs ∧ Allowed <$> rs = [true; true; true; false; false]) (ks s_queued).
Proof.
  eapply wp_mono; [apply (burst_exactly_max (S := mem) noon "mail:send" 3 Second 3 5)|].
  - apply check_store_wf. decide_now.
  - decide_now.
  - decide_now.
  - decide_now.
  - decide_now.
  - left. split; [vm_compute; reflexivity|done].
  - intros m' r (rs & -> & Hrs & _). by exists rs.
Defined.

(** Two mails a second: two at once, a third that is denied, and one that the next
    half second pays for. *)
Definition mail (now : Z) : M mem error Result := Allow now "mail:send" 2 Second.
Definition mail1 : mem := (mail noon s_queued).1.
Definition mail2 : mem := (mail noon mail1).1.
Definition mail3 : mem := (mail noon mail2).1.
Definition later : Z := noon + 500 * Millisecond.
Definition mail4 : mem := (mail later mail3).1.
Definition mails : list (result error Result) :=
  [(mail noon s_queued).2; (mail noon mail1).2; (mail noon mail2).2; (mail later mail3).2].

Lemma mail_step last s now s1 last' s' rs :
  s1 = (mail now s).1 → wf_store (ks s) → last ≤ UnixMilli now → wf_time now →
  traffic "mail:send" 2 Second (UnixMilli now) s1 last' s' rs →
  traffic "mail:send" 2 Second last s last' s' ((mail now s).2 :: rs).
Proof.
  intros -> Hm Hl Hn Ht. eapply traffic_call; [|done|apply surjective_pairing|exact Ht].
  split_and!; [done..|by left].
Qed.

Lemma mails_traffic :
  traffic "mail:send" 2 Second (UnixMilli noon) s_queued (UnixMilli later) mail4 mails.
Proof.
  unfold mails.
  refine (mail_step (UnixMilli noon) s_queued noon mail1 (UnixMilli later) mail4 [(mail noon mail1).2; (mail noon mail2).2; (mail later mail3).2] _ _ _ _ _).
  1: unfold mail1; reflexivity.
  1: apply check_store_wf; decide_now.
  1: decide_now.
  1: decide_now.
  refine (mail_step (UnixMilli noon) mail1 noon mail2 (UnixMilli later) mail4 [(mail noon mail2).2; (mail later mail3).2] _ _ _ _ _).
  1: unfold mail2; reflexivity.
  1: apply check_store_wf; decide_now.
  1: decide_now.
  1: decide_now.
  refine (mail_step (UnixMilli noon) mail2 noon mail3 (UnixMilli later) mail4 [(mail later mail3).2] _ _ _ _ _).
  1: unfold mail3; reflexivity.
  1: apply check_store_wf; decide_now.
  1: decide_now.
  1: decide_now.
  refine (mail_step (UnixMilli noon) mail3 later mail4 (UnixMilli later) mail4 [] _ _ _ _ _).
  1: unfold mail4; reflexivity.
  1: apply check_store_wf; decide_now.
  1: decide_now.
  1: decide_now.
  apply traffic_none.
Qed.

Lemma allowed_bound_witness :
  allowed mails = 3 ∧
  (inject_Z (allowed mails) <= 2 + inject_Z (UnixMilli later - UnixMilli noon) * rate 2 Second * (1 + 4 * eps) +
     inject_Z (Z.of_nat (length mails)) * (2 * eps * 2))%Q.
Proof.
  split; [vm_compute; reflexivity|].
  refine (proj2 (allowed_bound (S := mem) "mail:send" 2 Second _ _ _ (UnixMilli noon) s_queued
    (UnixMilli later) mail4 mails 2 mails_traffic _ _ _)).
  - decide_now.
  - decide_now.
  - decide_now.
  - unfold wf_ms. decide_now.
  - left. split; [vm_compute; reflexivity|reflexivity].
  - unfold in_bucket. split; vm_compute; discriminate.
Defined.

(** One job every 161 ms.  The refill of 161 ms is rounded below one token, so a
    job that waits the 161 ms it was told to wait is denied. *)
Example retry_denied :
  let s1 := after (Allow noon "k" 1 (161 * Millisecond)) empty_mem in
  let denied := Allow noon "k" 1 (161 * Millisecond) s1 in
  denied.2 = Ok {| Allowed := false; Remaining := 0; RetryIn := 161 * Millisecond |} ∧
  Allowed <$> match (Allow (noon + 161 * Millisecond) "k" 1 (161 * Millisecond) denied.1).2 with
              | Ok r => Some r | Err _ => None end = Some false.
Proof. by vm_compute. Qed.
