(* ===== verification/RacesExamples.v ===== *)
(** * RacesExamples: two workers complete jobs of one workflow *)
From S2P Require Import Prelude Float Keys Redis Lua MemRedis Keyspace Job Scripts Queue ScriptSpecs QueueSpecs EnqueueSpecs Winter Client Json Workflow WorkflowSpecs RateLimit MemText Examples WorkflowExamples Moves Texts Lifecycle System Programs Races.

Open Scope string_scope.
Open Scope Z_scope.

(** ** A chord of two *)

Definition head_ids (i : nat) : string := match i with 0%nat => "head-0" | _ => "head-1" end.

Definition s_headers : mem :=
  after (CreateChord (λ _, noon) "wf-5" head_ids [resize; resize] publish "default") empty_mem.

Definition pair_rec : WfRecord :=
  chord_record "wf-5" (default_queue "default" <$> [resize; resize]) (default_queue "default" publish) "default".

Definition head0_done : completed_job := Event noon "cb-0" "head-0".
Definition head1_done : completed_job := Event noon "cb-1" "head-1".
Definition heads_done : list completed_job := [head0_done; head1_done]%list.

(** Both load the record and strike their header; the second to strike finishes
    before the first saves. *)
Definition struck : mem * list (completed_job * progress) :=
  schedule pair_rec [0; 1; 0; 1; 1; 1; 0]%nat (s_headers, start_all heads_done).

Lemma pair_rec_wf : wf_workflow pair_rec.
Proof.
  split; [decide_now|decide_now|by intros ?|decide_now|]. intros spec [= <-]. decide_now.
Qed.

Lemma s_headers_reachable : reachable s_headers.
Proof.
  eapply issues_reachable; [|by apply reachable_init].
  apply issues_CreateChord; [intros _; decide_now|intros [|i]; decide_now|apply pair_rec_wf].
Qed.

(** The second call completes the workflow and has enqueued the callback. *)
Lemma completed_once_witness :
  (∃ i, completes_at struck.2 i ∧ ∀ j, completes_at struck.2 j → j = i) ∧
  once_was pair_rec (s_headers, start_all heads_done) struck (calls_back pair_rec head1_done).
Proof.
  assert (Hall : all_advanced struck.2) by (by apply count_advanced_all; vm_compute).
  destruct (completed_once (S := mem) pair_rec pair_rec_wf (or_intror eq_refl) ltac:(decide_now)
    s_headers heads_done struck.1 struck.2 s_headers_reachable) as (_ & _ & Hone & Hdone & _).
  - vm_compute. reflexivity.
  - reflexivity.
  - discriminate.
  - repeat constructor; decide_now.
  - split; [discriminate|]. intros _. split; decide_now.
  - split; decide_now.
  - rewrite <- surjective_pairing. apply schedule_races.
  - split; [exact (Hone Hall)|]. rewrite (surjective_pairing struck).
    exact (proj2 (Hdone 1%nat head1_done ltac:(vm_compute; reflexivity))).
Defined.

(** ** A group of two *)

Definition task_ids (i : nat) : string := match i with 0%nat => "job-0" | _ => "job-1" end.

Definition s_pair : mem := after (CreateGroup (λ _, noon) "wf-2" task_ids [resize; publish] "default") empty_mem.

Definition first_done : completed_job := Event noon "next-0" "job-0".
Definition second_done : completed_job := Event noon "next-1" "job-1".

Lemma group_rec_wf : wf_workflow group_rec.
Proof.
  split; [decide_now|decide_now|by intros ?|decide_now|done].
Qed.

Lemma s_pair_reachable : reachable s_pair.
Proof.
  eapply issues_reachable; [|by apply reachable_init].
  apply issues_CreateGroup; [intros _; decide_now|intros [|i]; decide_now|apply group_rec_wf].
Qed.

(** Both load the record and count; the one that counted last saves first. *)
Definition overtaken : mem * list (completed_job * progress) :=
  schedule group_rec [0; 1; 0; 1; 1; 0]%nat (s_pair, start_all [first_done; second_done]%list).

(** The second call completed the workflow, and yet it is running for ever: the call
    that counted first saves what it loaded last. *)
Example lost_update :
  snd <$> overtaken.2 = [Done false; Done true]%list ∧
  completions (ks overtaken.1) "wf-2" = Some 2 ∧
  saved (ks overtaken.1) (set_done 1 group_rec).
Proof. split_and!; vm_compute; reflexivity. Qed.

(** ** A script that runs twice

    The client library repeats a script whose reply was lost.  The theorem above
    needs a network that does not. *)

(** The rest of a call, from the request it is about to make. *)
Definition finish (e : completed_job) (st : progress) (s : mem) : mem :=
  ((st ← proceed "wf-5" e st; st ← proceed "wf-5" e st; proceed "wf-5" e st) s).1.

(** The first worker's strike of its header is executed and the reply lost; the
    second worker strikes the other one and enqueues the callback; the repeated
    script finds no header left either. *)
Definition struck_twice : option mem :=
  match proceed "wf-5" head0_done Loads s_headers with
  | (s1, Ok st) =>
      let s2 := (advanceChordScript (depsKey "wf-5") "head-0" s1).1 in
      let s3 := after (OnJobCompleted noon "cb-1" "wf-5" "head-1") s2 in
      Some (finish head0_done st s3)
  | _ => None
  end.

Example callback_twice :
  (λ s, (zset_at (ks s) (readyKey "default") !! "cb-0", zset_at (ks s) (readyKey "default") !! "cb-1")) <$> struck_twice =
  Some (Some 5, Some 5).
Proof. vm_compute. reflexivity. Qed.

(** A repeated increment: a chain of two tasks ends after its first. *)
Section Repeats.
#[local] Instance repeating_redis : Redis mem := mem_redis (λ n, Replied (if decide (n = 3%nat) then 1 else 0)).

Definition s_twice : mem :=
  after (OnJobCompleted noon "job-2" "wf-1" "job-1")
    (after (CreateChain noon "wf-1" "job-1" [resize; publish] "default") empty_mem).

Example chain_skips : saved (ks s_twice) (set_state "completed" (set_current 2 chain_rec)) ∧
  hash_at (ks s_twice) (jobKey "job-2") = ∅.
Proof. split; vm_compute; reflexivity. Qed.
End Repeats.
