(* ===== verification/Config.v ===== *)
(** * Config: the configuration file, [internal/config/config.go]

    Decoding YAML is the library's; [yaml] is what [yaml.Unmarshal] makes of a
    text, starting from the zero configuration.  A Go map has no order: the
    order in which a [range] visits it is an argument. *)
From S2P Require Import Prelude Float Duration Queue.

Open Scope string_scope.
Open Scope Z_scope.

Record RedisConfig : Type := { Addr : string; Password : string; DB : Z }.

Record ServerConfig : Type := { GRPCPort : string; LogLevel : string }.

Record QueueConfig : Type := {
  cfgMaxRetries : Z;
  cfgBackoff : string;
  BackoffBase : string;
  PriorityDefault : Z
}.

Record WorkerConfig : Type := {
  HeartbeatInterval : string;
  StaleThreshold : string;
  RecoveryInterval : string;
  Concurrency : Z
}.

Record SchedulerConfig : Type := { PollInterval : string }.

Record CronConfig : Type := {
  ccName : string;
  ccSchedule : string;
  ccQueue : string;
  ccKind : string;
  ccPayload : string
}.

Record Config : Type := {
  Redis : RedisConfig;
  Server : ServerConfig;
  Queues : gmap string QueueConfig;
  Workers : WorkerConfig;
  Scheduler : SchedulerConfig;
  Cron : list CronConfig
}.

(** [if s == "" { s = d }] *)
Definition or_default (d s : string) : string := if decide (s = "") then d else s.

Definition applyDefaults (cfg : Config) : Config := {|
  Redis := {| Addr := or_default "localhost:6379" (Addr (Redis cfg));
              Password := Password (Redis cfg); DB := DB (Redis cfg) |};
  Server := {| GRPCPort := or_default "50051" (GRPCPort (Server cfg));
               LogLevel := or_default "info" (LogLevel (Server cfg)) |};
  Queues := Queues cfg;
  Workers := {|
    HeartbeatInterval := or_default "15s" (HeartbeatInterval (Workers cfg));
    StaleThreshold := or_default "60s" (StaleThreshold (Workers cfg));
    RecoveryInterval := or_default "30s" (RecoveryInterval (Workers cfg));
    Concurrency := if decide (Concurrency (Workers cfg) ≤ 0) then 10 else Concurrency (Workers cfg) |};
  Scheduler := {| PollInterval := or_default "500ms" (PollInterval (Scheduler cfg)) |};
  Cron := Cron cfg |}.

(** The error of the first check that fails. *)
Fixpoint first_error {A} (check : A → option error) (l : list A) : option error :=
  match l with
  | [] => None
  | x :: l' => match check x with Some e => Some e | None => first_error check l' end
  end.

Definition check_duration (name text : string) : option error :=
  match ParseDuration text with
  | Ok _ => None
  | Err err => Some (Errorf ("winter: invalid " +:+ name +:+ " " +:+ quote text) err)
  end.

Definition check_queue (q : string * QueueConfig) : option error :=
  if decide (BackoffBase q.2 = "") then None
  else
    match ParseDuration (BackoffBase q.2) with
    | Ok _ => None
    | Err err => Some (Errorf ("winter: invalid backoff_base for queue " +:+ quote q.1) err)
    end.

Definition check_cron (c : CronConfig) : option error :=
  if decide (ccName c = "") then Some (ErrText "winter: cron entry missing name")
  else if decide (ccSchedule c = "") then
    Some (ErrText ("winter: cron entry " +:+ quote (ccName c) +:+ " missing schedule"))
  else if decide (ccKind c = "") then
    Some (ErrText ("winter: cron entry " +:+ quote (ccName c) +:+ " missing kind"))
  else None.

(** [queues] is [cfg.Queues] in the order of the [range]. *)
Definition validate (queues : list (string * QueueConfig)) (cfg : Config) : option error :=
  first_error (λ check : option error, check) [
    check_duration "heartbeat_interval" (HeartbeatInterval (Workers cfg));
    check_duration "stale_threshold" (StaleThreshold (Workers cfg));
    check_duration "recovery_interval" (RecoveryInterval (Workers cfg));
    check_duration "poll_interval" (PollInterval (Scheduler cfg));
    first_error check_queue queues;
    first_error check_cron (Cron cfg)].

(** [data] is what reading the file gives. *)
Definition Load (yaml : string → result string Config)
    (range : gmap string QueueConfig → list (string * QueueConfig))
    (data : result string string) : result error Config :=
  match data with
  | Err err => Err (Errorf "winter: read config" err)
  | Ok text =>
      match yaml text with
      | Err err => Err (Errorf "winter: parse config" err)
      | Ok cfg =>
          let cfg := applyDefaults cfg in
          match validate (range (Queues cfg)) cfg with
          | Some err => Err err
          | None => Ok cfg
          end
      end
  end.

(** [config.ParseDuration] *)
Definition ParseDuration (s : string) (fallback : Z) : Z :=
  if decide (s = "") then fallback
  else match Duration.ParseDuration s with Ok d => d | Err _ => fallback end.

(** ** What a loaded configuration promises *)

Definition is_duration (s : string) : Prop := ∃ d, Duration.ParseDuration s = Ok d.

Record valid (cfg : Config) : Prop := {
  valid_heartbeat : is_duration (HeartbeatInterval (Workers cfg));
  valid_stale : is_duration (StaleThreshold (Workers cfg));
  valid_recovery : is_duration (RecoveryInterval (Workers cfg));
  valid_poll : is_duration (PollInterval (Scheduler cfg));
  valid_queues name q : Queues cfg !! name = Some q → BackoffBase q = "" ∨ is_duration (BackoffBase q);
  valid_cron c : c ∈ Cron cfg → ccName c ≠ "" ∧ ccSchedule c ≠ "" ∧ ccKind c ≠ ""
}.

Lemma first_error_None {A} (check : A → option error) l :
  first_error check l = None ↔ Forall (λ x, check x = None) l.
Proof.
  induction l as [|x l IH]; cbn [first_error]; [by split|]. rewrite Forall_cons.
  destruct (check x); [|rewrite IH; tauto]. split; [done|]. by intros [? _].
Qed.

Lemma check_duration_None name s : check_duration name s = None ↔ is_duration s.
Proof.
  unfold check_duration, is_duration. destruct (Duration.ParseDuration s); split; eauto; [done|].
  by intros [d Hd].
Qed.

Lemma check_queue_None name q :
  check_queue (name, q) = None ↔ BackoffBase q = "" ∨ is_duration (BackoffBase q).
Proof.
  unfold check_queue, is_duration. cbn. case_decide as Hd; [tauto|].
  destruct (Duration.ParseDuration _); split; eauto; [done|]. by intros [?|[d ?]].
Qed.

Lemma check_cron_None c : check_cron c = None ↔ ccName c ≠ "" ∧ ccSchedule c ≠ "" ∧ ccKind c ≠ "".
Proof. unfold check_cron. repeat case_decide; (split; [done|tauto]) || tauto. Qed.

Lemma validate_valid queues cfg : queues ≡ₚ map_to_list (Queues cfg) →
  validate queues cfg = None ↔ valid cfg.
Proof.
  intros Hq. unfold validate. rewrite first_error_None, !Forall_cons, !check_duration_None.
  rewrite !first_error_None, !Forall_forall.
  assert (Hqs : (∀ q, q ∈ queues → check_queue q = None) ↔
    ∀ name q, Queues cfg !! name = Some q → BackoffBase q = "" ∨ is_duration (BackoffBase q)).
  { split.
    - intros Hall name q Hin. apply (check_queue_None name), Hall. by rewrite Hq, elem_of_map_to_list.
    - intros Hall [name q] Hin. rewrite Hq, elem_of_map_to_list in Hin. apply check_queue_None. eauto. }
  rewrite Hqs. setoid_rewrite check_cron_None. split.
  - intros (H1 & H2 & H3 & H4 & H5 & H6 & _). by split.
  - intros [H1 H2 H3 H4 H5 H6]. split_and!; try done. by intros ? ?%elem_of_nil.
Qed.

(** C39: loading a configuration.  Whatever the order in which the maps are
    visited, [Load] succeeds exactly when the file is read, the text is YAML and
    the configuration with its defaults is valid, and gives that configuration.
    It has an address, a port and at least one worker, it is its own default,
    and none of its durations is ever replaced by a fallback. *)
Theorem Load_valid yaml range data cfg :
  (∀ queues, range queues ≡ₚ map_to_list queues) →
  (Load yaml range data = Ok cfg ↔
    ∃ text raw, data = Ok text ∧ yaml text = Ok raw ∧ cfg = applyDefaults raw ∧ valid cfg) ∧
  (Load yaml range data = Ok cfg →
    Addr (Redis cfg) ≠ "" ∧ GRPCPort (Server cfg) ≠ "" ∧ 0 < Concurrency (Workers cfg) ∧
    applyDefaults cfg = cfg ∧
    ∀ s fallback, s ∈ [HeartbeatInterval (Workers cfg); StaleThreshold (Workers cfg);
      RecoveryInterval (Workers cfg); PollInterval (Scheduler cfg)] →
      Duration.ParseDuration s = Ok (ParseDuration s fallback)).
Proof.
  intros Hrange.
  assert (Hiff : Load yaml range data = Ok cfg ↔
    ∃ text raw, data = Ok text ∧ yaml text = Ok raw ∧ cfg = applyDefaults raw ∧ valid cfg).
  { unfold Load. destruct data as [text|err]; [|split; [done|by intros (? & ? & ? & _)]].
    destruct (yaml text) as [raw|err] eqn:Hy.
    2: { split; [done|]. intros (t & raw & [= <-] & Hr & _). congruence. }
    pose proof (validate_valid _ _ (Hrange (Queues (applyDefaults raw)))) as Hv.
    destruct (validate _ _) as [err|].
    - split; [done|]. intros (t & raw' & [= <-] & Hr & -> & Hval). rewrite Hy in Hr. injection Hr as <-.
      by apply Hv in Hval.
    - split.
      + intros [= <-]. exists text, raw. split_and!; [done..|]. by apply Hv.
      + intros (t & raw' & [= <-] & Hr & -> & _). rewrite Hy in Hr. by injection Hr as <-. }
  split; [exact Hiff|]. intros Hok. apply Hiff in Hok as (text & raw & _ & _ & -> & [H1 H2 H3 H4 _ _]).
  assert (Hor : ∀ d s, d ≠ "" → or_default d s ≠ "") by (intros; unfold or_default; by case_decide).
  assert (Hid : ∀ d s, d ≠ "" → or_default d (or_default d s) = or_default d s).
  { intros d s Hd. specialize (Hor d s Hd). unfold or_default at 1. by rewrite decide_False. }
  assert (Hpos : 0 < Concurrency (Workers (applyDefaults raw))) by (cbn; case_decide; lia).
  split_and!; [by apply Hor|by apply Hor|exact Hpos| |].
  - unfold applyDefaults at 1. rewrite (decide_False (P := Concurrency _ ≤ 0)) by lia.
    cbn. by rewrite !Hid.
  - intros s fallback Hs. unfold ParseDuration.
    assert (Hd : s ≠ "" ∧ is_duration s).
    { rewrite !elem_of_cons in Hs. cbn in Hs.
      destruct Hs as [->|[->|[->|[->|[]%elem_of_nil]]]]; (split; [by apply Hor|done]). }
    destruct Hd as [Hne [d Hd]]. by rewrite decide_False, Hd.
Qed.

(** Nothing given: the defaults. *)
Definition zero_config : Config := {|
  Redis := {| Addr := ""; Password := ""; DB := 0 |};
  Server := {| GRPCPort := ""; LogLevel := "" |};
  Queues := {["mail" := {| cfgMaxRetries := 5; cfgBackoff := "exponential"; BackoffBase := "2s";
                           PriorityDefault := 0 |}]};
  Workers := {| HeartbeatInterval := ""; StaleThreshold := ""; RecoveryInterval := "1m"; Concurrency := 0 |};
  Scheduler := {| PollInterval := "" |};
  Cron := [] |}.

Lemma Load_valid_witness :
  0 < Concurrency (Workers (applyDefaults zero_config)) ∧
  Duration.ParseDuration "1m" = Ok (ParseDuration "1m" (30 * Second)).
Proof.
  destruct (Load_valid (λ _, Ok zero_config) map_to_list (Ok "") (applyDefaults zero_config))
    as [_ Hok]; [done|].
  destruct Hok as (_ & _ & Hc & _ & Hd); [vm_compute; reflexivity|].
  split; [exact Hc|]. apply Hd. right. right. left.
Defined.
