(* ===== verification/Grpc.v ===== *)
(** * Grpc: the queue service over gRPC, [internal/server/]

    [grpc.go], one definition per method, and the two interceptors of
    [interceptors.go].  The messages are the ones the proto file declares, with
    [int32] fields where it has them.  A method returns its response or a status. *)
From S2P Require Import Prelude Float Keys Redis Lua Keyspace Job Scripts Queue ScriptSpecs QueueSpecs EnqueueSpecs Winter Client.

Open Scope string_scope.
Open Scope Z_scope.

(** ** Statuses and messages *)

Inductive code : Type := OK | Canceled | InvalidArgument | NotFound | AlreadyExists | Internal.

#[export] Instance code_eq_dec : EqDecision code.
Proof. solve_decision. Defined.

Record status : Type := Status { Code : code; Message : string }.

#[export] Instance status_eq_dec : EqDecision status.
Proof. solve_decision. Defined.

Record EnqueueRequest : Type := {
  reqKind : string;
  reqPayload : string;
  reqQueue : string;
  reqPriority : Z;
  reqScheduledAt : Z;
  reqMaxRetries : Z;
  UniquePeriodMs : Z
}.

(** A Go client can send no other integers. *)
Definition wf_request (req : EnqueueRequest) : Prop :=
  in_int32 (reqPriority req) ∧ in_int64 (reqScheduledAt req) ∧ in_int32 (reqMaxRetries req) ∧
  in_int64 (UniquePeriodMs req).

#[export] Instance wf_request_dec req : Decision (wf_request req).
Proof. unfold wf_request. apply _. Defined.

(** [pb.Job] *)
Record pbJob : Type := {
  pbId : string;
  pbKind : string;
  pbPayload : string;
  pbQueue : string;
  pbPriority : Z;
  pbState : string;
  pbAttempt : Z;
  pbMaxRetries : Z;
  pbCreatedAt : Z;
  pbScheduledAt : Z;
  pbStartedAt : Z;
  pbCompletedAt : Z;
  pbLastError : string
}.

Record QueueStatsResponse : Type := {
  statsQueue : string;
  statsReady : Z;
  statsActive : Z;
  statsDelayed : Z;
  statsDead : Z;
  statsCompleted : Z;
  statsFailed : Z
}.

Definition recordToProto (rec : JobRecord) : pbJob := {|
  pbId := ID rec; pbKind := Kind rec; pbPayload := Payload rec; pbQueue := Job.Queue rec;
  pbPriority := wrap32 (Job.Priority rec); pbState := State rec; pbAttempt := wrap32 (Attempt rec);
  pbMaxRetries := wrap32 (MaxRetries rec); pbCreatedAt := CreatedAt rec;
  pbScheduledAt := ScheduledAt rec; pbStartedAt := StartedAt rec; pbCompletedAt := CompletedAt rec;
  pbLastError := LastError rec |}.

(** ** The methods *)

Section Methods.
Context {S : Type} `{Redis S} (sha256_hex : string → string).

(** [if err != nil { return nil, status.Errorf(codes.Internal, "context: %v", err) }] *)
Definition internal {A} (context : string) (c : M S error A) : M S status A :=
  r ← try c;
  match r with
  | Ok a => mret a
  | Err e => throw (Status Internal (context +:+ ": " +:+ error_text e))
  end.

Definition request_job (id : string) (now : Z) (req : EnqueueRequest) : JobRecord := {|
  ID := id; Kind := reqKind req;
  Job.Queue := if decide (reqQueue req = "") then "default" else reqQueue req;
  Job.Priority := reqPriority req; State := "pending"; Payload := reqPayload req; Attempt := 0;
  MaxRetries := if decide (reqMaxRetries req = 0) then 3 else reqMaxRetries req;
  CreatedAt := UnixMilli now; ScheduledAt := reqScheduledAt req; StartedAt := 0; CompletedAt := 0;
  LastError := ""; UniqueKey := ""; WorkflowID := "" |}.

(** The unique key and its period, if the request asks for one. *)
Definition request_unique (req : EnqueueRequest) : string * Z :=
  if decide (UniquePeriodMs req > 0)
  then (unique_name sha256_hex (reqKind req) (reqPayload req), wrap64 (UniquePeriodMs req * Millisecond))
  else ("", 0).

Definition Enqueue (id : string) (now : Z) (req : EnqueueRequest) : M S status string :=
  if decide (reqKind req = "") then throw (Status InvalidArgument "kind is required")
  else
    let '(uniqueKey, uniquePeriod) := request_unique req in
    r ← try (Queue.Enqueue (request_job id now req) uniqueKey uniquePeriod);
    match r with
    | Ok _ => mret id
    | Err e =>
        if decide (e = ErrDuplicate) then throw (Status AlreadyExists "duplicate job")
        else throw (Status Internal ("enqueue: " +:+ error_text e))
    end.

(** The long poll.  [clk] are the readings of the clock, two a round (one in the
    queue's Dequeue, one against the deadline); [cancelled] says in which rounds
    the wait ends by the context.  [None] is a poll that has not ended after
    [rounds] rounds. *)
Fixpoint poll (rounds i : nat) (clk : nat → Z) (cancelled : nat → bool) (deadline : Z)
    (queueName workerID : string) : M S status (option (option pbJob)) :=
  match rounds with
  | O => mret None
  | Datatypes.S rounds =>
      rec ← internal "dequeue" (Dequeue (clk (2 * i)%nat) queueName workerID);
      match rec with
      | Some rec => mret (Some (Some (recordToProto rec)))
      | None =>
          if decide (clk (2 * i + 1)%nat > deadline) then mret (Some None)
          else if cancelled i then throw (Status Canceled "context cancelled")
          else poll rounds (Datatypes.S i) clk cancelled deadline queueName workerID
      end
  end.

Definition poll_timeout (TimeoutMs : Z) : Z :=
  let timeout := wrap64 (TimeoutMs * Millisecond) in
  if decide (timeout ≤ 0) then 30 * Second else timeout.

(** The shortest pause between two polls. *)
Definition min_pause : Z := 100 * Millisecond.

(** As many rounds as fit into the timeout, one before and one after. *)
Definition poll_rounds (timeout : Z) : nat := Z.to_nat (timeout / min_pause) + 2.

Definition Dequeue (now : Z) (clk : nat → Z) (cancelled : nat → bool)
    (queueName workerID : string) (TimeoutMs : Z) : M S status (option (option pbJob)) :=
  if decide (queueName = "") then throw (Status InvalidArgument "queue is required")
  else if decide (workerID = "") then throw (Status InvalidArgument "worker_id is required")
  else
    let timeout := poll_timeout TimeoutMs in
    poll (poll_rounds timeout) 0 clk cancelled (now + timeout) queueName workerID.

Definition required : status := Status InvalidArgument "job_id, queue, and worker_id are required".

Definition Ack (now : Z) (jobID queueName workerID : string) : M S status unit :=
  if decide (jobID = "" ∨ queueName = "" ∨ workerID = "") then throw required
  else internal "ack" (Queue.Ack now queueName jobID workerID).

Definition Nack (now : Z) (jobID queueName workerID errMsg : string) (skipRetry : bool)
    : M S status string :=
  if decide (jobID = "" ∨ queueName = "" ∨ workerID = "") then throw required
  else
    let backoffMs := Z.quot Second Millisecond in
    internal "nack" (Queue.Nack now queueName jobID workerID errMsg backoffMs skipRetry).

Definition Heartbeat (now : Z) (workerID : string) : M S status unit :=
  if decide (workerID = "") then throw (Status InvalidArgument "worker_id is required")
  else internal "heartbeat" (Queue.Heartbeat now workerID).

Definition GetJob (jobID : string) : M S status pbJob :=
  if decide (jobID = "") then throw (Status InvalidArgument "job_id is required")
  else
    rec ← internal "get job" (Queue.GetJob jobID);
    match rec with
    | None => throw (Status NotFound "job not found")
    | Some rec => mret (recordToProto rec)
    end.

Definition QueueStats (queueName : string) : M S status QueueStatsResponse :=
  if decide (queueName = "") then throw (Status InvalidArgument "queue is required")
  else
    stats ← internal "queue stats" (Queue.QueueStats queueName);
    let stat name := default 0 (stats !! name) in
    mret {| statsQueue := queueName; statsReady := stat "ready"; statsActive := stat "active";
            statsDelayed := stat "delayed"; statsDead := stat "dead";
            statsCompleted := stat "completed"; statsFailed := stat "failed" |}.
End Methods.
Arguments Dequeue {S H}.

(** ** The interceptors *)

(** How a handler's call ends. *)
Inductive rpc (R : Type) : Type :=
  | Returned (resp : option R) (err : option status)
  | Panicked (value : string).
Arguments Returned {_}.
Arguments Panicked {_}.

Inductive level : Type := LevelInfo | LevelWarn | LevelError.

Record logline : Type := { Level : level; FullMethod : string; LoggedCode : code }.

Section Interceptors.
Context {S Req Resp : Type} (log : logline → S → S).

Definition UnaryHandler : Type := Req → S → S * rpc Resp.

(** A handler that panics is not logged: the panic passes by. *)
Definition LoggingInterceptor (method : string) (handler : UnaryHandler) : UnaryHandler := λ req s,
  match handler req s with
  | (s', Returned resp err) =>
      let line :=
        match err with
        | Some st =>
            {| Level := if decide (Code st = Internal) then LevelError else LevelWarn;
               FullMethod := method; LoggedCode := Code st |}
        | None => {| Level := LevelInfo; FullMethod := method; LoggedCode := OK |}
        end in
      (log line s', Returned resp err)
  | (s', Panicked v) => (s', Panicked v)
  end.

Definition RecoveryInterceptor (handler : UnaryHandler) : UnaryHandler := λ req s,
  match handler req s with
  | (s', Panicked r) => (s', Returned None (Some (Status Internal ("panic: " +:+ r))))
  | returned => returned
  end.

(** The chain of the standalone server, the first interceptor outermost. *)
Definition chain (method : string) (handler : UnaryHandler) : UnaryHandler :=
  RecoveryInterceptor (LoggingInterceptor method handler).

(** A method of the service as a handler. *)
Definition method_handler (method : Req → M S status Resp) : UnaryHandler := λ req s,
  match method req s with
  | (s', Ok resp) => (s', Returned (Some resp) None)
  | (s', Err st) => (s', Returned None (Some st))
  end.

(** No call of the service brings it down.  Under the chain every handler
    returns: a panic becomes an Internal status, anything else is passed on as
    it is and logged once, as an error exactly if its code is Internal. *)
Theorem chain_returns method (handler : UnaryHandler) req s :
  ∃ resp err, (chain method handler req s).2 = Returned resp err ∧
  match handler req s with
  | (s', Panicked v) => (chain method handler req s).1 = s' ∧ resp = None ∧
      err = Some (Status Internal ("panic: " +:+ v))
  | (s', Returned resp' err') => resp = resp' ∧ err = err' ∧
      ∃ line, (chain method handler req s).1 = log line s' ∧ FullMethod line = method ∧
        LoggedCode line = match err with Some st => Code st | None => OK end ∧
        (Level line = LevelError ↔ ∃ msg, err = Some (Status Internal msg))
  end.
Proof.
  unfold chain, RecoveryInterceptor, LoggingInterceptor.
  destruct (handler req s) as [s' [resp [st|]|v]]; cbn; [| |by do 2 eexists].
  - exists resp, (Some st). split; [done|]. split_and!; [done..|]. eexists. split; [reflexivity|].
    cbn. split_and!; [done|done|]. destruct st as [c msg]. cbn. split.
    + case_decide; [|done]. subst. eauto.
    + intros (msg' & [= -> _]). by rewrite decide_True.
  - exists resp, None. split; [done|]. split_and!; [done..|]. eexists. split; [reflexivity|].
    cbn. split_and!; [done|done|]. split; [done|]. by intros (msg & ?).
Qed.
End Interceptors.
