(* ===== verification/GrpcSpecs.v ===== *)
(** * GrpcSpecs: what the gRPC service promises *)
From S2P Require Import Prelude Float Keys Redis Lua Keyspace Job Scripts Queue ScriptSpecs QueueSpecs EnqueueSpecs Winter Client Grpc.

Open Scope string_scope.
Open Scope Z_scope.

(** ** The long poll ends *)

Section Poll.
Context {S : Type} `{Redis S}.

Lemma poll_ends now timeout clk cancelled q w :
  0 < timeout → now ≤ clk 1%nat → (∀ i, clk (2 * i + 1)%nat + min_pause ≤ clk (2 * (Datatypes.S i) + 1)%nat) →
  ∀ (n i : nat) (s : S), (Datatypes.S n + i)%nat = poll_rounds timeout →
    (poll (Datatypes.S n) i clk cancelled (now + timeout) q w s).2 ≠ Ok None.
Proof.
  intros Ht Hnow Hclk.
  assert (Hgrow : ∀ i : nat, now + Z.of_nat i * min_pause ≤ clk (2 * i + 1)%nat).
  { induction i as [|i IH]; [cbn; lia|]. specialize (Hclk i). lia. }
  induction n as [|n IH]; intros i s Hi; cbn [poll].
  all: unfold mbind, M_bind; destruct (internal _ _ _) as [s1 [[rec|]|e]]; [done| |done].
  all: case_decide as Hd; [done|].
  - exfalso. specialize (Hgrow i). unfold poll_rounds in Hi.
    assert (Z.of_nat i = timeout / min_pause + 1) as E.
    { assert (0 ≤ timeout / min_pause) by (apply Z.div_pos; [lia|done]). lia. }
    rewrite E in Hgrow. unfold min_pause, Millisecond in *.
    pose proof (Z.mul_succ_div_gt timeout (100 * 1000000) ltac:(lia)). lia.
  - destruct (cancelled i); [done|]. apply IH. lia.
Qed.

(** C40: the long poll ends.  As the pause between two polls is at least a tenth
    of a second, a call of Dequeue answers after at most as many rounds as fit
    into its timeout and two more: with a job, with nothing or with a status,
    whatever the server and the network do. *)
Theorem Dequeue_answers now clk cancelled q w TimeoutMs (s : S) :
  now ≤ clk 1%nat → (∀ i, clk (2 * i + 1)%nat + min_pause ≤ clk (2 * (Datatypes.S i) + 1)%nat) →
  (Dequeue now clk cancelled q w TimeoutMs s).2 ≠ Ok None.
Proof.
  intros Hnow Hclk. unfold Dequeue. do 2 (case_decide; [done|]). cbv zeta.
  set (timeout := poll_timeout TimeoutMs).
  assert (Ht : 0 < timeout).
  { unfold timeout, poll_timeout. case_decide; [done|lia]. }
  destruct (poll_rounds timeout) as [|n] eqn:Hr; [unfold poll_rounds in Hr; lia|].
  apply poll_ends; [done..|]. rewrite Hr. lia.
Qed.
End Poll.

(** ** Enqueue and GetJob *)

Section RoundTrip.
Context {S : Type} `{RedisLaws S} `{!Reliable S} (sha256_hex : string → string).

Lemma wp_internal {A} context (c : M S error A) (Q : keyspace → result status A → Prop) m :
  wp c (λ m' r, Q m' (match r with
                     | Ok a => Ok a
                     | Err e => Err (Status Internal (context +:+ ": " +:+ error_text e))
                     end)) m →
  wp (internal context c) Q m.
Proof.
  intros Hc. unfold internal. apply wp_bind, wp_try. eapply wp_mono; [exact Hc|].
  intros m' [a|e] HQ; cbv iota; [by apply wp_ret|by apply wp_throw].
Qed.

(** What a client enqueues through the service it reads back through it: the
    request's fields with their defaults, pending and without an attempt. *)
Theorem grpc_roundtrip id now req (m : keyspace) :
  let job := request_job id now req in
  let slot := unique_slot (request_unique sha256_hex req).1 (request_unique sha256_hex req).2 in
  wf_store m → wf_request req → reqKind req ≠ "" → wf_id id → id ≠ "" → wf_queue (Job.Queue job) →
  wf_time now → safe_int (reqScheduledAt req) → safe_int slot.2 →
  (is_Some (m !! slot.1) → slot.1 = "" ∨ slot.2 ≤ 0) →
  can_incr m (statsKey (Job.Queue job)) "enqueued" →
  wp (S := S) (id ← Enqueue sha256_hex id now req; GetJob id) (λ _ r, r = Ok {|
    pbId := id; pbKind := reqKind req; pbPayload := reqPayload req; pbQueue := Job.Queue job;
    pbPriority := reqPriority req; pbState := "pending"; pbAttempt := 0;
    pbMaxRetries := MaxRetries job; pbCreatedAt := UnixMilli now;
    pbScheduledAt := reqScheduledAt req; pbStartedAt := 0; pbCompletedAt := 0; pbLastError := "" |}) m.
Proof.
  intros job slot Hm (Hp & Hs & Hr & Hu) Hkind Hid Hne Hq Hnow Hsched Hslot Hfree Hc.
  assert (Hmax : in_int32 (MaxRetries job)) by (unfold in_int32 in *; cbn; case_decide; lia).
  assert (Hjob : wf_record job).
  { unfold wf_record. cbn [ID Job.Queue Job.Priority MaxRetries ScheduledAt CreatedAt job request_job].
    split_and!; [done|done| | |done| |done].
    1-2: unfold in_int32, safe_int in *; cbn in Hmax; lia.
    by apply safe_int_in_int64, wf_time_safe. }
  unfold Enqueue. rewrite decide_False by done. unfold slot in *.
  destruct (request_unique sha256_hex req) as [u p]. cbn [fst snd] in *.
  apply wp_bind, wp_bind, wp_try, wp_Enqueue_fresh; [done..|]. fold job. change (ID job) with id.
  intros m' Hm' Hh Hrec. cbv iota. apply wp_ret. cbv iota. unfold GetJob.
  rewrite decide_False by done. apply wp_bind, wp_internal, wp_GetJob; [done..|].
  rewrite decide_False by done. cbv iota. apply wp_ret. rewrite Hrec. unfold recordToProto.
  cbn -[wrap32]. rewrite !wrap32_id by (done || (unfold in_int32; lia)). done.
Qed.
End RoundTrip.
