(* ===== verification/Recovery.v ===== *)
(** * Recovery: the sweeper of expired leases, [internal/worker/recovery.go] *)
From S2P Require Import Prelude Float Redis Queue.

Open Scope string_scope.
Open Scope Z_scope.

Record RecoveryConfig : Type := { Interval : Z; Queues : list string; Limit : Z }.

Definition NewRecovery (cfg : RecoveryConfig) : RecoveryConfig := {|
  Interval := if decide (Interval cfg ≤ 0) then 30 * Second else Interval cfg;
  Queues := Queues cfg;
  Limit := if decide (Limit cfg ≤ 0) then 100 else Limit cfg |}.

Section Recovery.
Context {S : Type} `{Redis S}.

(** One sweep at the clock readings [clk]: the queues with the jobs recovered
    from them, as they are logged.  An error of one queue does not keep the sweep
    from the next one, unless the context is done: [stopped i] is what [ctx.Err()]
    says after the [i]th call. *)
Fixpoint sweep_queues (clk : nat → Z) (stopped : nat → bool) (i : nat) (limit : Z) (queues : list string)
    : M S error (list (string * list string)) :=
  match queues with
  | [] => mret []
  | queueName :: queues' =>
      recovered ← try (E := error) (RecoverExpiredLeases (clk i) queueName limit);
      match recovered with
      | Err _ =>
          if stopped i then mret []
          else sweep_queues clk stopped (Datatypes.S i) limit queues'
      | Ok ids =>
          rest ← sweep_queues clk stopped (Datatypes.S i) limit queues';
          mret (if decide (ids = []) then rest else (queueName, ids) :: rest)
      end
  end.

Definition sweep (clk : nat → Z) (stopped : nat → bool) (cfg : RecoveryConfig)
    : M S error (list (string * list string)) :=
  sweep_queues clk stopped 0 (Limit cfg) (Queues cfg).

(** [Run]: a sweep at every tick until the context ends. *)
Definition recovery_Run (ticks : list ((nat → Z) * (nat → bool))) (cfg : RecoveryConfig) : M S error unit :=
  for_each ticks (λ t, sweep t.1 t.2 cfg ;; mret tt).
End Recovery.
