(* ===== verification/WinterTest.v ===== *)
(** * WinterTest: assertions about enqueued jobs, [wintertest/wintertest.go]

    The helpers look for jobs with SCAN.  What its calls return, page by page up
    to the cursor 0, is an argument; that a full iteration lists every key that
    is there all the time is what Redis documents, and the hypothesis [full] of
    the theorems. *)
From S2P Require Import Prelude Keys Redis Lua Keyspace Job Queue ScriptSpecs QueueSpecs EnqueueSpecs.

Open Scope string_scope.
Open Scope Z_scope.

Section WinterTest.
Context {S : Type} `{Redis S}.

(** A job as [findJobsByKind] reads it: four fields, the others zero. *)
Definition found_job (vals : gmap string string) : JobRecord := {|
  ID := field vals "id"; Kind := field vals "kind"; Job.Queue := field vals "queue"; Priority := 0;
  State := ""; Payload := field vals "payload"; Attempt := 0; MaxRetries := 0; CreatedAt := 0;
  ScheduledAt := 0; StartedAt := 0; CompletedAt := 0; LastError := ""; UniqueKey := ""; WorkflowID := "" |}.

(** One key of a page; an error, of a result's string, say, is passed over. *)
Definition match_key (kind key : string) : M S string (list JobRecord) :=
  vals ← try (E := string) (Run (redis_call (HGETALL key)));
  match vals with
  | Err _ => mret []
  | Ok vals =>
      let vals := map_val (Ok vals) in
      mret (if decide (field vals "kind" = kind) then [found_job vals] else [])
  end.

(** [pages] are the replies to the SCANs. *)
Fixpoint findJobsByKind (pages : list (result string (list string))) (kind : string)
    : M S string (list JobRecord) :=
  match pages with
  | [] => mret []
  | Err err :: _ => throw err
  | Ok keys :: pages' =>
      matched ← map_each keys (match_key kind);
      rest ← findJobsByKind pages' kind;
      mret (mjoin matched ++ rest)%list
  end.

(** [t.Fatalf] ends the test with its message. *)
Definition RequireEnqueued (pages : list (result string (list string))) (kind : string)
    (expected : result string string) : M S string unit :=
  match expected with
  | Err err => throw ("wintertest: marshal expected args: " +:+ err)
  | Ok expectedPayload =>
      jobs ← try (findJobsByKind pages kind);
      match jobs with
      | Err err => throw ("wintertest: scan jobs: " +:+ err)
      | Ok jobs =>
          if decide (length jobs = 0%nat)
          then throw ("wintertest: expected job with kind " +:+ quote kind +:+ " to be enqueued, but none found")
          else if decide (Exists (λ job, Payload job = expectedPayload) jobs) then mret tt
          else throw ("wintertest: found " +:+ dec (Z.of_nat (length jobs)) +:+ " job(s) with kind " +:+
            quote kind +:+ ", but none matched expected args")
      end
  end.

Definition RequireEnqueuedN (pages : list (result string (list string))) (kind : string) (n : Z)
    : M S string unit :=
  jobs ← try (findJobsByKind pages kind);
  match jobs with
  | Err err => throw ("wintertest: scan jobs: " +:+ err)
  | Ok jobs =>
      if decide (Z.of_nat (length jobs) ≠ n)
      then throw ("wintertest: expected " +:+ dec n +:+ " job(s) with kind " +:+ quote kind +:+ ", got " +:+
        dec (Z.of_nat (length jobs)))
      else mret tt
  end.

Definition RequireNoneEnqueued (pages : list (result string (list string))) (kind : string) : M S string unit :=
  RequireEnqueuedN pages kind 0.
End WinterTest.

(** ** What the assertions find *)

Open Scope list_scope.

Lemma join_fmap {A B} (f : A → list B) l : mjoin (f <$> l) = l ≫= f.
Proof. induction l as [|x l IH]; [done|]. cbn. by rewrite <- IH. Qed.

Section Specs.
Context {S : Type} `{RedisLaws S} `{!Reliable S}.
Context (kind : string) (Hkind : kind ≠ "").

(** The hash under a key is a job of the kind. *)
Definition is_job (m : keyspace) (key payload : string) : Prop :=
  ∃ h, m !! key = Some (RHash h) ∧ field h "kind" = kind ∧ field h "payload" = payload.

Definition jobs_at (m : keyspace) (key : string) : list JobRecord :=
  match m !! key with
  | Some (RHash h) => if decide (field h "kind" = kind) then [found_job h] else []
  | _ => []
  end.

Definition keys_of (pages : list (list string)) : list string := mjoin pages.

(** A full iteration over the keys of jobs. *)
Definition full (pages : list (list string)) (m : keyspace) : Prop :=
  ∀ key, key ∈ keys_of pages ↔ is_Some (m !! key) ∧ is_Some (cut_prefix "winter:job:" key).

Lemma wp_match_key key m Q : Q m (Ok (jobs_at m key)) → wp (S := S) (match_key kind key) Q m.
Proof.
  intros HQ. unfold match_key. apply wp_bind, wp_try, wp_Run.
  destruct (decide (has_type m key THash)) as [Ht|Ht].
  - apply wp_HGETALL; [done|]. intros fvs Hf. cbv iota. apply wp_ret.
    cbn [map_val]. rewrite (pairs_map_hgetall fvs _ Hf).
    assert ((if decide (field (hash_at m key) "kind" = kind) then [found_job (hash_at m key)] else []) =
      jobs_at m key) as ->; [|done].
    unfold has_type in Ht. unfold jobs_at, hash_at. destruct (m !! key) as [[]|]; try done.
    rewrite decide_False; [done|]. unfold field. rewrite lookup_empty. cbn. congruence.
  - intros s Hs. destruct (law_wrongtype s (HGETALL key)) as [msg Hmsg]; [by rewrite Hs|].
    pose proof (law_error s _ _ Hmsg) as Hk. unfold redis_call.
    destruct (exec (HGETALL key) s) as [s' r]. cbn in *. subst r. cbn. rewrite Hk, Hs.
    assert (jobs_at m key = []) as E; [|rewrite E in HQ; by apply wp_ret].
    unfold jobs_at, has_type in *. destruct (m !! key) as [[]|]; try done; by destruct Ht.
Qed.

Lemma wp_match_keys keys m Q : Q m (Ok (jobs_at m <$> keys)) → wp (S := S) (map_each keys (match_key kind)) Q m.
Proof.
  revert Q. induction keys as [|key keys IH]; intros Q HQ; cbn [map_each]; [by apply wp_ret|].
  apply wp_bind, wp_match_key. cbv iota. apply wp_bind, IH. cbv iota. by apply wp_ret.
Qed.

Lemma wp_findJobsByKind pages m Q : Q m (Ok (keys_of pages ≫= jobs_at m)) →
  wp (S := S) (findJobsByKind (Ok <$> pages) kind) Q m.
Proof.
  revert Q. induction pages as [|keys pages IH]; intros Q HQ; cbn [findJobsByKind fmap list_fmap]; [by apply wp_ret|].
  apply wp_bind, wp_match_keys. cbv iota. apply wp_bind, IH. cbv iota. apply wp_ret.
  rewrite join_fmap. change (keys_of (keys :: pages)) with (keys ++ keys_of pages) in HQ.
  by rewrite bind_app in HQ.
Qed.

Lemma jobs_at_elem m key job : job ∈ jobs_at m key ↔
  ∃ h, m !! key = Some (RHash h) ∧ field h "kind" = kind ∧ job = found_job h.
Proof.
  unfold jobs_at. split.
  - destruct (m !! key) as [[|h| | |]|]; try by intros ?%elem_of_nil. case_decide; [|by intros ?%elem_of_nil].
    intros ->%list_elem_of_singleton. eauto.
  - intros (h & -> & Hk & ->). rewrite decide_True by done. by left.
Qed.

Lemma found_elem pages m job : full pages m →
  job ∈ keys_of pages ≫= jobs_at m ↔
  ∃ key h, is_Some (cut_prefix "winter:job:" key) ∧ m !! key = Some (RHash h) ∧ field h "kind" = kind ∧
    job = found_job h.
Proof.
  intros Hf. rewrite list_elem_of_bind. split.
  - intros (key & Hj & Hkey). apply Hf in Hkey as [_ Hp]. apply jobs_at_elem in Hj as (h & Hh). eauto.
  - intros (key & h & Hp & Hh). exists key. split; [apply jobs_at_elem; eauto|].
    apply Hf. split; [|done]. destruct Hh as [-> _]. eauto.
Qed.

(** [RequireEnqueued] passes exactly when a job of the kind and with the payload is
    stored, [RequireNoneEnqueued] when none of the kind is, whatever its
    payload; neither changes anything. *)
Theorem RequireEnqueued_exact pages payload (m : keyspace) : full pages m →
  wp (S := S) (RequireEnqueued (Ok <$> pages) kind (Ok payload)) (λ m' r, m' = m ∧
    (r = Ok tt ↔ ∃ key, is_Some (cut_prefix "winter:job:" key) ∧ is_job m key payload)) m ∧
  wp (S := S) (RequireNoneEnqueued (Ok <$> pages) kind) (λ m' r, m' = m ∧
    (r = Ok tt ↔ ∀ key payload, is_Some (cut_prefix "winter:job:" key) → ¬ is_job m key payload)) m.
Proof.
  intros Hf. pose proof (λ job, found_elem pages m job Hf) as Hfound. split.
  - apply wp_bind, wp_try, wp_findJobsByKind. cbv iota. set (jobs := _ ≫= _) in *.
    assert (Hex : Exists (λ job, Payload job = payload) jobs ↔
      ∃ key, is_Some (cut_prefix "winter:job:" key) ∧ is_job m key payload).
    { rewrite Exists_exists. split.
      - intros (job & (key & h & Hp & Hh & Hk & ->)%Hfound & Hpay). exists key. split; [done|]. by exists h.
      - intros (key & Hp & h & Hh & Hk & Hpay). exists (found_job h). split; [|done]. apply Hfound. eauto 10. }
    case_decide as Hlen; [|case_decide as Hd].
    + apply wp_throw. split; [done|]. split; [done|]. rewrite <- Hex. apply length_zero_iff_nil in Hlen.
      rewrite Hlen. by intros ?%Exists_nil.
    + apply wp_ret. split; [done|]. by split; [intros _; apply Hex|].
    + apply wp_throw. split; [done|]. split; [done|]. by rewrite <- Hex.
  - unfold RequireNoneEnqueued, RequireEnqueuedN. apply wp_bind, wp_try, wp_findJobsByKind. cbv iota.
    set (jobs := _ ≫= _) in *.
    assert (Hnil : jobs = [] ↔ ∀ key payload, is_Some (cut_prefix "winter:job:" key) → ¬ is_job m key payload).
    { split.
      - intros Hn key pay Hp (h & Hh & Hk & _). rewrite Hn in Hfound.
        apply (not_elem_of_nil (found_job h)), Hfound. eauto 10.
      - intros Hall. destruct jobs as [|job jobs0] eqn:Ej; [done|]. exfalso.
        destruct (proj1 (Hfound job)) as (key & h & Hp & Hh & Hk & _); [by left|].
        apply (Hall key (field h "payload") Hp). by exists h. }
    case_decide as Hn.
    + apply wp_throw. split; [done|]. split; [done|]. rewrite <- Hnil. intros E. by rewrite E in Hn.
    + apply wp_ret. split; [done|]. split; [intros _; apply Hnil|done].
      destruct jobs; [done|]. cbn in Hn. lia.
Qed.

(** A job that was enqueued is found. *)
Theorem Enqueue_required job u p (m : keyspace) : wf_store m → wf_record job → Kind job = kind →
  safe_int (unique_slot u p).2 →
  (is_Some (m !! (unique_slot u p).1) → (unique_slot u p).1 = "" ∨ (unique_slot u p).2 ≤ 0) →
  can_incr m (statsKey (Job.Queue job)) "enqueued" →
  wp (S := S) (Enqueue job u p) (λ m1 r, r = Ok tt ∧ ∀ pages, full pages m1 →
    wp (S := S) (RequireEnqueued (Ok <$> pages) kind (Ok (Payload job))) (λ m' r, m' = m1 ∧ r = Ok tt) m1) m.
Proof.
  intros Hm Hj Hk Httl Hfree Hc. apply wp_Enqueue_fresh; [done..|]. intros m1 Hm1 Hne Hp. split; [done|].
  intros pages Hf. destruct (RequireEnqueued_exact pages (Payload job) m1 Hf) as [Hreq _].
  eapply wp_mono; [exact Hreq|]. cbv beta. intros m' r [-> Hr]. split; [done|]. apply Hr.
  exists (jobKey (ID job)). split.
  { unfold jobKey. rewrite cut_prefix_app. eauto. }
  unfold is_job, hash_at in *. destruct (m1 !! jobKey (ID job)) as [[|h| | |]|]; try done.
  exists h. pose proof (f_equal Kind Hp) as H1'. pose proof (f_equal Payload Hp) as H2'.
  cbn in H1', H2'. split_and!; [done|congruence|congruence].
Qed.
End Specs.
