(* ===== verification/Handler.v ===== *)
(** * Handler: what runs a job's code, [middleware.go] and the typed wrapper of [server.go]

    A handler is the user's code.  It may change the server's state (by
    enqueueing, say), it may set the result of the job it was given by pointer,
    and it returns an error, nil or a panic. *)
From S2P Require Import Prelude Float Duration Redis Job Winter.

Open Scope string_scope.
Open Scope Z_scope.

Record rawJob : Type := {
  rID : string;
  rKind : string;
  rQueue : string;
  rPriority : Z;
  rState : JobState;
  rAttempt : Z;
  rMaxRetries : Z;
  rPayload : string;
  rCreatedAt : Z;
  rScheduledAt : Z;
  rStartedAt : Z;
  rLastError : string;
  rResult : string
}.

(** The raw job of a record, without a result yet. *)
Definition raw_job (rec : JobRecord) : rawJob := {|
  rID := ID rec; rKind := Kind rec; rQueue := Job.Queue rec; rPriority := Job.Priority rec;
  rState := State rec; rAttempt := Attempt rec; rMaxRetries := MaxRetries rec;
  rPayload := Payload rec; rCreatedAt := CreatedAt rec; rScheduledAt := ScheduledAt rec;
  rStartedAt := StartedAt rec; rLastError := LastError rec; rResult := "" |}.

Inductive outcome : Type :=
  | Returned (err : option gerror)
  | Panicked (value : string).

(** [err.Error()] *)
Definition error_msg (e : gerror) : string :=
  match e with
  | ErrSkipRetry => "winter: skip retry"
  | rescheduleError delay => "winter: reschedule in " +:+ duration_string delay
  | cancelError reason => "winter: cancel: " +:+ reason
  | plainError msg | wrapError msg _ => msg
  end.

Section Handler.
Context {S : Type}.

(** The job as the call leaves it, and how the call ended. *)
Definition HandlerFn : Type := rawJob → S → S * (rawJob * outcome).
Definition Middleware : Type := HandlerFn → HandlerFn.

Definition Recover : Middleware := λ next job s,
  match next job s with
  | (s', (job', Panicked r)) =>
      (s', (job', Returned (Some (plainError
        ("winter: panic processing job " +:+ rID job' +:+ ": " +:+ r)))))
  | returned => returned
  end.

(** [for i := len(mw) - 1; i >= 0; i-- { fn = mw[i](fn) }]: the first
    middleware is the outermost. *)
Definition wrap_all (mw : list Middleware) (handler : HandlerFn) : HandlerFn :=
  foldr (λ m fn, m fn) handler mw.

(** *** Typed handlers *)

(** [Job[T]] with the raw job it points to; [None] is the zero time. *)
Record Job (T : Type) : Type := {
  hID : string;
  hArgs : T;
  hKind : string;
  hQueue : string;
  hPriority : Z;
  hState : JobState;
  hAttempt : Z;
  hMaxRetries : Z;
  hCreatedAt : Z;
  hScheduledAt : Z;
  hStartedAt : Z;
  hCompletedAt : option Z;
  hLastError : string;
  hRaw : rawJob
}.

(** [Job.SetResult]: [data] is what [json.Marshal] makes of the value. *)
Definition SetResult (data : result string string) (rj : rawJob) : rawJob * option gerror :=
  match data with
  | Err e => (rj, Some (wrapError ("winter: marshal result: " +:+ e) [plainError e]))
  | Ok data => ({|
      rID := rID rj; rKind := rKind rj; rQueue := rQueue rj; rPriority := rPriority rj;
      rState := rState rj; rAttempt := rAttempt rj; rMaxRetries := rMaxRetries rj;
      rPayload := rPayload rj; rCreatedAt := rCreatedAt rj; rScheduledAt := rScheduledAt rj;
      rStartedAt := rStartedAt rj; rLastError := rLastError rj; rResult := data |}, None)
  end.

(** The handler [Handle] registers; [unmarshal] is [json.Unmarshal] into the
    task type, [Work] the user's handler. *)
Definition typed_handler {T : Type} (kind : string) (unmarshal : string → result string T)
    (Work : Job T → S → S * (rawJob * outcome)) : HandlerFn := λ rj s,
  match unmarshal (rPayload rj) with
  | Err err =>
      (s, (rj, Returned (Some (wrapError ("winter: unmarshal " +:+ kind +:+ ": " +:+ err) [plainError err]))))
  | Ok args => Work {|
      hID := rID rj; hArgs := args; hKind := rKind rj; hQueue := rQueue rj;
      hPriority := rPriority rj; hState := rState rj; hAttempt := rAttempt rj;
      hMaxRetries := rMaxRetries rj; hCreatedAt := rCreatedAt rj * Millisecond;
      hScheduledAt := rScheduledAt rj * Millisecond; hStartedAt := rStartedAt rj * Millisecond;
      hCompletedAt := None;
      hLastError := rLastError rj; hRaw := rj |} s
  end.
End Handler.
Arguments hArgs {_} _.
Arguments hRaw {_} _.
