(* ===== verification/Server.v ===== *)
(** * Server: polling, dispatch and upkeep, [server.go]

    What a job sees of the server is the record [world]: the state of Redis, the
    in-flight table the heartbeat reads, the trace of the hooks that fired, and
    what other processes do to Redis before each of the job's next calls.  Clock
    readings and fresh ids are arguments.  Logging is left out, but for the
    outcome of the one log line each job gets, which is what [processJob]
    returns; a panic of a handler or hook that nothing recovers is its error. *)
From S2P Require Import Prelude Float Redis Job Queue Winter Client Json Workflow RateLimit Cron Recovery Handler.

Open Scope string_scope.
Open Scope Z_scope.

(** ** Configuration *)

Record QueueWeight : Type := { Name : string; Weight : Z }.

(** [Queues("a", 3, "b", 1)]: an argument is a string, an int or something else. *)
Inductive any : Type := AString (s : string) | AInt (n : Z) | AOther.

Definition as_string (a : any) : string := match a with AString s => s | _ => "" end.
Definition as_int (a : any) : Z := match a with AInt n => n | _ => 0 end.

(** The step of two stops before an odd last argument. *)
Fixpoint Queues (args : list any) : list QueueWeight :=
  match args with
  | name :: weight :: args' => {| Name := as_string name; Weight := as_int weight |} :: Queues args'
  | _ => []
  end.

Record CronEntry : Type := {
  cName : string; cSchedule : string; cQueue : string; cKind : string; cPayload : string
}.

Record ServerConfig : Type := {
  Concurrency : Z;
  cfgQueues : list QueueWeight;
  StrictPriority : bool;
  cfgCron : list CronEntry;
  PollInterval : Z;
  ShutdownTimeout : Z
}.

Definition normal_weight (q : QueueWeight) : QueueWeight :=
  if decide (Weight q < 1) then {| Name := Name q; Weight := 1 |} else q.

(** The defaults [newServer] fills in. *)
Definition normal_config (cfg : ServerConfig) : ServerConfig := {|
  Concurrency := if decide (Concurrency cfg ≤ 0) then 10 else Concurrency cfg;
  cfgQueues := normal_weight <$>
    (if decide (length (cfgQueues cfg) = 0%nat) then [{| Name := "default"; Weight := 1 |}]
     else cfgQueues cfg);
  StrictPriority := StrictPriority cfg;
  cfgCron := cfgCron cfg;
  PollInterval := if decide (PollInterval cfg ≤ 0) then 200 * Millisecond else PollInterval cfg;
  ShutdownTimeout := if decide (ShutdownTimeout cfg ≤ 0) then 30 * Second else ShutdownTimeout cfg |}.

Record JobEvent : Type := {
  evID : string; evKind : string; evQueue : string; evAttempt : Z; evErr : option gerror
}.

Inductive HookKind : Type := HStart | HComplete | HError | HDead.

(** ** Polling order *)

(** [buildWeightedQueues] *)
Definition buildWeightedQueues (queues : list QueueWeight) : list string :=
  queues ≫= λ qw, replicate (Z.to_nat (Weight qw)) (Name qw).

(** [slices.SortFunc], which need not be stable: a permutation in which no
    element compares below an earlier one. *)
Class SortFunc : Type := sort_func : (QueueWeight → QueueWeight → Z) → list QueueWeight → list QueueWeight.

Class SortFuncLaws `{SortFunc} : Prop := {
  sort_perm cmp l : sort_func cmp l ≡ₚ l;
  sort_sorted cmp (key : QueueWeight → Z) l : (∀ a b, cmp a b < 0 ↔ key a < key b) →
    StronglySorted (λ a b, key a ≤ key b) (sort_func cmp l)
}.

Definition buildStrictQueues `{SortFunc} (queues : list QueueWeight) : list string :=
  Name <$> sort_func (λ a b, Weight b - Weight a) queues.

Section Server.
Context {S : Type} `{Redis S} `{LuaFloats} `{Json WfRecord}.
Context (huge : Z).

(** A hook is the user's code: it may change the server, and it may panic. *)
Definition HookFunc : Type := JobEvent → S → S * option string.

Record Server : Type := {
  cfg : ServerConfig;
  workerID : string;
  handlers : gmap string (HandlerFn (S := S));
  rateLimits : gmap string Rate;
  middleware : list (Middleware (S := S));
  onStart : list HookFunc;
  onComplete : list HookFunc;
  onError : list HookFunc;
  onDead : list HookFunc
}.

Definition newServer (config : ServerConfig) (worker : string) : Server := {|
  cfg := normal_config config; workerID := worker; handlers := ∅; rateLimits := ∅;
  middleware := []; onStart := []; onComplete := []; onError := []; onDead := [] |}.

(** [Handle]: a rate limit of the task's own counts when both parts are positive. *)
Definition Handle (kind : string) (options : option TaskOptions) (h : HandlerFn) (sv : Server) : Server := {|
  cfg := cfg sv; workerID := workerID sv;
  handlers := <[kind := h]> (handlers sv);
  rateLimits :=
    match options with
    | Some o =>
        if decide (Max (tRateLimit o) > 0 ∧ Per (tRateLimit o) > 0)
        then <[kind := tRateLimit o]> (rateLimits sv) else rateLimits sv
    | None => rateLimits sv
    end;
  middleware := middleware sv; onStart := onStart sv; onComplete := onComplete sv;
  onError := onError sv; onDead := onDead sv |}.

Definition SetRateLimit (kind : string) (max per : Z) (sv : Server) : Server := {|
  cfg := cfg sv; workerID := workerID sv; handlers := handlers sv;
  rateLimits := <[kind := {| Max := max; Per := per |}]> (rateLimits sv);
  middleware := middleware sv; onStart := onStart sv; onComplete := onComplete sv;
  onError := onError sv; onDead := onDead sv |}.

(** The hooks and the middleware a server is given: what comes later runs later,
    or further inside. *)
Definition OnStart (fn : HookFunc) (sv : Server) : Server := {|
  cfg := cfg sv; workerID := workerID sv; handlers := handlers sv; rateLimits := rateLimits sv;
  middleware := middleware sv; onStart := onStart sv ++ [fn]; onComplete := onComplete sv;
  onError := onError sv; onDead := onDead sv |}.
Definition OnComplete (fn : HookFunc) (sv : Server) : Server := {|
  cfg := cfg sv; workerID := workerID sv; handlers := handlers sv; rateLimits := rateLimits sv;
  middleware := middleware sv; onStart := onStart sv; onComplete := onComplete sv ++ [fn];
  onError := onError sv; onDead := onDead sv |}.
Definition OnError (fn : HookFunc) (sv : Server) : Server := {|
  cfg := cfg sv; workerID := workerID sv; handlers := handlers sv; rateLimits := rateLimits sv;
  middleware := middleware sv; onStart := onStart sv; onComplete := onComplete sv;
  onError := onError sv ++ [fn]; onDead := onDead sv |}.
Definition OnDead (fn : HookFunc) (sv : Server) : Server := {|
  cfg := cfg sv; workerID := workerID sv; handlers := handlers sv; rateLimits := rateLimits sv;
  middleware := middleware sv; onStart := onStart sv; onComplete := onComplete sv;
  onError := onError sv; onDead := onDead sv ++ [fn] |}.
Definition Use (mw : list Middleware) (sv : Server) : Server := {|
  cfg := cfg sv; workerID := workerID sv; handlers := handlers sv; rateLimits := rateLimits sv;
  middleware := middleware sv ++ mw; onStart := onStart sv; onComplete := onComplete sv;
  onError := onError sv; onDead := onDead sv |}.

Lemma Use_inside mw sv handler :
  wrap_all (middleware (Use mw sv)) handler = wrap_all (middleware sv) (wrap_all mw handler).
Proof. unfold wrap_all. cbn. by rewrite foldr_app. Qed.

(** ** The memory of a running server *)

Record world : Type := World {
  srv : S;
  inflight : gmap string string;
  trace : list (HookKind * JobEvent);
  others : list (S → S)     (* what other processes do before each of the next calls *)
}.

Definition set_srv (s : S) (w : world) : world := World s (inflight w) (trace w) (others w).
Definition set_inflight (t : gmap string string) (w : world) : world := World (srv w) t (trace w) (others w).

(** Before a call other processes have had their turn. *)
Definition meanwhile (w : world) : world :=
  match others w with
  | [] => w
  | turn :: others' => World (turn (srv w)) (inflight w) (trace w) others'
  end.

(** A call of the queue, whose error the caller inspects. *)
Definition call {A} (c : M S error A) : M world string (result error A) := λ w,
  let w := meanwhile w in
  let '(s', r) := c (srv w) in (set_srv s' w, Ok r).

Definition fireHooks (kind : HookKind) (hooks : list HookFunc) (event : JobEvent)
    : M world string unit :=
  for_each hooks (λ fn w,
    let '(s', panic) := fn event (srv w) in
    (World s' (inflight w) (trace w ++ [(kind, event)]) (others w),
     match panic with None => Ok tt | Some v => Err v end)).

(** [defer s.inflight.Delete(id)] *)
Definition defer_delete {A} (id : string) (body : M world string A) : M world string A := λ w,
  let '(w', r) := body w in (set_inflight (delete id (inflight w')) w', r).

(** ** One job *)

(** The delay of a job over its rate, if the check says so; a failing check lets
    the job through. *)
Definition rate_delay (sv : Server) (now : Z) (kind : string) : M world string (option Z) :=
  match rateLimits sv !! kind with
  | None => mret None
  | Some rl =>
      res ← call (Allow now kind (Max rl) (Per rl));
      match res with
      | Err _ => mret None
      | Ok res =>
          if Allowed res then mret None
          else mret (Some (if decide (RetryIn res < 50 * Millisecond) then 50 * Millisecond else RetryIn res))
      end
  end.

(** The call of the handler under its middleware; a panic ends it. *)
Definition run_handler (fn : HandlerFn) (rj : rawJob) : M world string (rawJob * option gerror) := λ w,
  let w := meanwhile w in
  match fn rj (srv w) with
  | (s', (rj', Returned err)) => (set_srv s' w, Ok (rj', err))
  | (s', (_, Panicked v)) => (set_srv s' w, Err v)
  end.

Section ProcessJob.
Context (sv : Server) (clk : nat → Z) (newID : string) (rec : JobRecord).

Definition job_event (err : option gerror) : JobEvent := {|
  evID := ID rec; evKind := Kind rec; evQueue := Job.Queue rec; evAttempt := Attempt rec; evErr := err |}.

(** The handler returned nil. *)
Definition settle_success (rj : rawJob) : M world string string :=
  ackErr ← call (Ack (clk 1%nat) (Job.Queue rec) (ID rec) (workerID sv));
  match ackErr with
  | Err _ => mret "ack_error"
  | Ok _ =>
      (if decide (0 < String.length (rResult rj))%nat
       then call (Queue.SetResult (ID rec) (rResult rj) (7 * 24 * 3600 * Second)) ;; mret tt
       else mret tt) ;;
      (if decide (WorkflowID rec ≠ "")
       then call (OnJobCompleted (clk 2%nat) newID (WorkflowID rec) (ID rec)) ;; mret tt
       else mret tt) ;;
      fireHooks HComplete (onComplete sv) (job_event None) ;;
      mret "completed"
  end.

(** [int64(Exponential(time.Second).Next(rec.Attempt) / time.Millisecond)] *)
Definition backoff_ms (skipRetry : bool) : Z :=
  if skipRetry then 0
  else Z.quot (Winter.Next huge (exponentialBackoff Second) (Attempt rec)) Millisecond.

(** The handler returned [err]. *)
Definition settle_failure (err : gerror) : M world string string :=
  match IsReschedule err with
  | (delay, true) =>
      call (RescheduleJob (Job.Queue rec) (ID rec) (workerID sv) (clk 1%nat + delay)) ;;
      mret "rescheduled"
  | _ =>
      match IsCancel err with
      | (reason, true) =>
          call (CancelJob (clk 1%nat) (Job.Queue rec) (ID rec) (workerID sv) reason) ;;
          mret "cancelled"
      | _ =>
          let skipRetry := IsSkipRetry err in
          result ← call (Nack (clk 1%nat) (Job.Queue rec) (ID rec) (workerID sv)
            (error_msg err) (backoff_ms skipRetry) skipRetry);
          match result with
          | Err _ => mret "nack_error"
          | Ok result =>
              if decide (result = "dead") then
                fireHooks HDead (onDead sv) (job_event (Some err)) ;;
                (if decide (WorkflowID rec ≠ "")
                 then call (OnJobFailed (WorkflowID rec) (ID rec)) ;; mret tt
                 else mret tt) ;;
                mret result
              else
                fireHooks HError (onError sv) (job_event (Some err)) ;;
                mret result
          end
      end
  end.

(** From the hooks on. *)
Definition run_job (handler : HandlerFn) : M world string string :=
  fireHooks HStart (onStart sv) (job_event None) ;;
  defer_delete (ID rec) (
    (λ w, (set_inflight (<[ID rec := Job.Queue rec]> (inflight w)) w, Ok tt)) ;;
    returned ← run_handler (wrap_all (middleware sv) handler) (raw_job rec);
    let '(rj, err) := returned in
    match err with
    | None => settle_success rj
    | Some err => settle_failure err
    end).

Definition processJob : M world string string :=
  match handlers sv !! Kind rec with
  | None =>
      call (Nack (clk 1%nat) (Job.Queue rec) (ID rec) (workerID sv) "no handler registered" 0 true) ;;
      mret "dead"
  | Some handler =>
      delay ← rate_delay sv (clk 0%nat) (Kind rec);
      match delay with
      | Some delay =>
          call (RescheduleJob (Job.Queue rec) (ID rec) (workerID sv) (clk 1%nat + delay)) ;;
          mret "rate_limited"
      | None => run_job handler
      end
  end.
End ProcessJob.

(** ** The loops, one round each *)

(** A round of [pollWeighted]: every queue of the list is asked once; the jobs
    are the ones handed to goroutines. *)
Fixpoint weighted_round (clk : nat → Z) (i : nat) (worker : string) (queueNames : list string)
    : M S error (list JobRecord) :=
  match queueNames with
  | [] => mret []
  | queueName :: queueNames' =>
      rec ← try (E := error) (Dequeue (clk i) queueName worker);
      rest ← weighted_round clk (Datatypes.S i) worker queueNames';
      mret (match rec with Ok (Some rec) => rec :: rest | _ => rest end)
  end.

(** A round of [pollStrict] ends with the first job. *)
Fixpoint strict_round (clk : nat → Z) (i : nat) (worker : string) (queueNames : list string)
    : M S error (option JobRecord) :=
  match queueNames with
  | [] => mret None
  | queueName :: queueNames' =>
      rec ← try (E := error) (Dequeue (clk i) queueName worker);
      match rec with
      | Ok (Some rec) => mret (Some rec)
      | _ => strict_round clk (Datatypes.S i) worker queueNames'
      end
  end.

(** A tick of [heartbeatLoop]; [jobs] is the in-flight table in the order in
    which [Range] visits it, and [stopped] what [ctx.Err()] says. *)
Definition heartbeat_tick (clk : nat → Z) (stopped : bool) (worker : string) (jobs : list (string * string))
    : M S error unit :=
  beat ← try (E := error) (Heartbeat (clk 0%nat) worker);
  match beat, stopped with
  | Err _, true => mret tt
  | _, _ =>
      for_each_i 1 jobs (λ i job,
        try (E := error) (ExtendLease (clk i) job.2 job.1 DefaultLeaseDuration) ;; mret tt)
  end.

(** A tick of [promoteLoop]. *)
Definition promote_tick (clk : nat → Z) (queues : list QueueWeight) : M S error unit :=
  for_each_i 0 queues (λ i qw, try (E := error) (Promote (clk i) (Name qw) 100) ;; mret tt).

(** The sweeper of a server. *)
Definition recovery_config (sv : Server) : RecoveryConfig :=
  NewRecovery {| Recovery.Interval := 0; Recovery.Queues := Name <$> cfgQueues (cfg sv); Recovery.Limit := 0 |}.

(** What [Start] does first, before there are goroutines. *)
Definition Start_beat (now : Z) (sv : Server) : M S error unit :=
  try (E := error) (Heartbeat now (workerID sv)) ;; mret tt.

(** The schedule it sets up when the goroutines run, if there are entries. *)
Definition start_schedule `{CronLib} (sv : Server) : result error (option Cron) :=
  if decide (0 < length (cfgCron (cfg sv)))%nat then
    let entries := (λ ce, {| eName := cName ce; eSchedule := cSchedule ce; eQueue := cQueue ce;
                             eKind := cKind ce; ePayload := cPayload ce |}) <$> cfgCron (cfg sv) in
    match NewCron entries 0 with
    | Err err => Err (Errorf "winter: cron setup" (error_text err))
    | Ok c => Ok (Some c)
    end
  else Ok None.

(** What it does last. *)
Definition Start_shutdown (sv : Server) : M S error unit :=
  try (E := error) (DeregisterWorker (workerID sv)) ;; mret tt.
End Server.
