(* ===== verification/ServerSpecs.v ===== *)
(** * ServerSpecs: dispatch, polling order and heartbeats *)
From S2P Require Import Prelude Float Keys Redis Lua Keyspace Job Scripts Queue ScriptSpecs QueueSpecs SweepSpecs Winter Client Json Workflow RateLimit Cron Recovery Handler Server.

Open Scope string_scope.
Open Scope Z_scope.
Open Scope list_scope.

(** ** Every way a job can end *)

Section Ends.
Context {S : Type} `{Redis S} `{LuaFloats} `{Json WfRecord}.
Context (huge : Z).
#[local] Abbreviation world := (Server.world (S := S)).

Definition wpw {A} (c : M world string A)
    (Q : world → result string A → Prop) (w : world) : Prop := Q (c w).1 (c w).2.

Lemma wpw_bind {A B} (c : M world string A) (f : A → M world string B) Q w :
  wpw c (λ w' r, match r with Ok a => wpw (f a) Q w' | Err e => Q w' (Err e) end) w →
  wpw (mbind f c) Q w.
Proof. unfold wpw, mbind, M_bind. destruct (c w) as [w' [a|e]]; intros HQ; exact HQ. Qed.

Lemma wpw_ret {A} (a : A) Q w : Q w (Ok a) → wpw (mret a) Q w.
Proof. done. Qed.

(** The server process remembers in [w'] what it did in [w], and [es] more. *)
Definition remembers (w : world) (es : list (HookKind * JobEvent)) (w' : world) : Prop :=
  inflight w' = inflight w ∧ trace w' = trace w ++ es.

Lemma remembers_nil (w w' : world) : inflight w' = inflight w → trace w' = trace w → remembers w [] w'.
Proof. intros Hi Ht. split; [done|by rewrite app_nil_r]. Qed.

Lemma remembers_app (w w1 w2 : world) es es' : remembers w es w1 → remembers w1 es' w2 → remembers w (es ++ es') w2.
Proof. intros [Hi Ht] [Hi' Ht']. split; [congruence|]. by rewrite Ht', Ht, app_assoc. Qed.

Lemma meanwhile_remembers (w : world) : inflight (meanwhile w) = inflight w ∧ trace (meanwhile w) = trace w.
Proof. unfold meanwhile. by destruct (others w). Qed.

Lemma wpw_call {A} (c : M S error A) Q w :
  (∀ w' r, remembers w [] w' → Q w' (Ok r)) → wpw (call c) Q w.
Proof.
  intros HQ. unfold wpw, call. cbv zeta. destruct (meanwhile_remembers w) as [Hi Ht].
  destruct (c _) as [s' r]. by apply HQ, remembers_nil.
Qed.

(** The trace of a list of hooks. *)
Definition fired (kind : HookKind) (hooks : list (HookFunc (S := S))) (event : JobEvent)
    : list (HookKind * JobEvent) := (λ _, (kind, event)) <$> hooks.

(** All hooks have fired, or all up to one that panicked. *)
Inductive fires (kind : HookKind) (hooks : list (HookFunc (S := S))) (event : JobEvent)
    : list (HookKind * JobEvent) → option string → Prop :=
  | fires_all : fires kind hooks event (fired kind hooks event) None
  | fires_panic before fn after s v : hooks = before ++ fn :: after → (fn event s).2 = Some v →
      fires kind hooks event (fired kind (before ++ [fn]) event) (Some v).

(** The outcome, unless a hook panicked. *)
Definition unless {A} (panic : option string) (a : A) : result string A :=
  match panic with None => Ok a | Some v => Err v end.

Lemma fires_cons kind fn hooks event es p : fires kind hooks event es p →
  fires kind (fn :: hooks) event ((kind, event) :: es) p.
Proof.
  intros Hf. destruct Hf as [|before fn' after s v -> Hv]; [by constructor|].
  exact (fires_panic kind (fn :: before ++ fn' :: after) event (fn :: before) fn' after s v eq_refl Hv).
Qed.

Lemma wpw_fireHooks kind hooks event Q w :
  (∀ w' es p, fires kind hooks event es p → remembers w es w' → Q w' (unless p tt)) →
  wpw (fireHooks kind hooks event) Q w.
Proof.
  revert w Q. induction hooks as [|fn hooks IH]; intros w Q HQ; unfold fireHooks; cbn [for_each].
  - apply (HQ w [] None); [constructor|by apply remembers_nil].
  - apply wpw_bind. unfold wpw at 1. destruct (fn event (srv w)) as [s' [v|]] eqn:Hfn; cbn [fst snd].
    + apply (HQ _ [(kind, event)] (Some v)); [|done].
      apply (fires_panic kind (fn :: hooks) event [] fn hooks (srv w) v); [done|by rewrite Hfn].
    + apply IH. intros w' es p Hes [Hi Ht]. apply (HQ w' ((kind, event) :: es)); [by apply fires_cons|].
      split; [done|]. rewrite Ht. cbn. by rewrite <- app_assoc.
Qed.

(** An optional call leaves the memory alone. *)
Lemma wpw_maybe {A} (P : Prop) `{Decision P} (c : M S error A) Q w :
  (∀ w', remembers w [] w' → Q w' (Ok tt)) → wpw (if decide P then call c ;; mret tt else mret tt) Q w.
Proof.
  intros HQ. case_decide.
  - apply wpw_bind, wpw_call. intros w' r Hw. by apply wpw_ret, HQ.
  - apply wpw_ret, HQ. by apply remembers_nil.
Qed.

Context (sv : Server (S := S)) (clk : nat → Z) (newID : string) (rec : JobRecord).

(** The handler of the job, under the middleware, can come to this end. *)
Definition came_to (o : outcome) : Prop := ∃ handler s rj, handlers sv !! Kind rec = Some handler ∧
  (wrap_all (middleware sv) handler (raw_job rec) s).2 = (rj, o).

(** An error that is neither a reschedule nor a cancellation. *)
Definition fails_with (err : gerror) : Prop :=
  came_to (Returned (Some err)) ∧ (IsReschedule err).2 = false ∧ (IsCancel err).2 = false.

(** The hooks of the start have fired. *)
Definition started : list (HookKind * JobEvent) := fired HStart (onStart sv) (job_event rec None).

(** How processing can end, and the hooks it has fired by then. *)
Inductive ended : result string string → list (HookKind * JobEvent) → Prop :=
  | ended_no_handler : handlers sv !! Kind rec = None → ended (Ok "dead") []
  | ended_limited : is_Some (handlers sv !! Kind rec) → is_Some (rateLimits sv !! Kind rec) →
      ended (Ok "rate_limited") []
  | ended_start es v : fires HStart (onStart sv) (job_event rec None) es (Some v) → ended (Err v) es
  | ended_panic v : came_to (Panicked v) → ended (Err v) started
  | ended_ack_error : came_to (Returned None) → ended (Ok "ack_error") started
  | ended_completed es p : came_to (Returned None) →
      fires HComplete (onComplete sv) (job_event rec None) es p →
      ended (unless p "completed") (started ++ es)
  | ended_rescheduled err delay : came_to (Returned (Some err)) → IsReschedule err = (delay, true) →
      ended (Ok "rescheduled") started
  | ended_cancelled err reason : came_to (Returned (Some err)) → (IsReschedule err).2 = false →
      IsCancel err = (reason, true) → ended (Ok "cancelled") started
  | ended_nack_error err : fails_with err → ended (Ok "nack_error") started
  | ended_dead err es p : fails_with err → fires HDead (onDead sv) (job_event rec (Some err)) es p →
      ended (unless p "dead") (started ++ es)
  | ended_retried err result es p : fails_with err → result ≠ "dead" →
      fires HError (onError sv) (job_event rec (Some err)) es p →
      ended (unless p result) (started ++ es).

(** After the hooks of the start. *)
Definition ending (w : world) (Q : world → result string string → Prop) : Prop :=
  ∀ w' r more, ended r (started ++ more) → remembers w more w' → Q w' r.

Lemma ending_now w Q w' r : ending w Q → ended r started → remembers w [] w' → Q w' r.
Proof. intros HQ Hr Hw. apply (HQ w' r []); [by rewrite app_nil_r|done]. Qed.

Lemma wpw_settle_success rj Q w : came_to (Returned None) → ending w Q →
  wpw (settle_success sv clk newID rec rj) Q w.
Proof.
  intros Hret HQ. unfold settle_success. apply wpw_bind, wpw_call. intros w1 [ok|e] Hw1.
  2: { apply wpw_ret, (ending_now w Q); [done|by constructor|done]. }
  apply wpw_bind, wpw_maybe. intros w2 Hw2. apply wpw_bind, wpw_maybe. intros w3 Hw3.
  apply wpw_bind, wpw_fireHooks. intros w4 es p Hes Hw4.
  assert (Hw : remembers w es w4) by exact (remembers_app _ _ _ [] _ Hw1 (remembers_app _ _ _ [] _ Hw2
    (remembers_app _ _ _ [] _ Hw3 Hw4))).
  pose proof (HQ w4 (unless p "completed") es (ended_completed es p Hret Hes) Hw) as HQ'.
  by destruct p.
Qed.

Lemma wpw_settle_failure err Q w : came_to (Returned (Some err)) → ending w Q →
  wpw (settle_failure huge sv clk rec err) Q w.
Proof.
  intros Hret HQ. unfold settle_failure. destruct (IsReschedule err) as [delay []] eqn:Hre.
  { apply wpw_bind, wpw_call. intros w1 r Hw. apply wpw_ret, (ending_now w Q); [done|by econstructor|done]. }
  assert (Hre2 : (IsReschedule err).2 = false) by (by rewrite Hre).
  destruct (IsCancel err) as [reason []] eqn:Hca.
  { apply wpw_bind, wpw_call. intros w1 r Hw. apply wpw_ret, (ending_now w Q); [done|by econstructor|done]. }
  assert (Hf : fails_with err) by (unfold fails_with; by rewrite Hre, Hca).
  apply wpw_bind, wpw_call. intros w1 [result|e] Hw1.
  2: { apply wpw_ret, (ending_now w Q); [done|by econstructor|done]. }
  case_decide as Hd.
  - subst result. apply wpw_bind, wpw_fireHooks. intros w2 es p Hes Hw2.
    pose proof (remembers_app _ _ _ [] _ Hw1 Hw2) as Hw.
    assert (HQ' : ∀ w', remembers w es w' → Q w' (unless p "dead"))
      by (intros w' Hw'; exact (HQ w' _ es (ended_dead err es p Hf Hes) Hw')).
    destruct p as [v|]; [by apply HQ'|]. cbv beta iota. apply wpw_bind, wpw_maybe. intros w3 Hw3.
    apply wpw_ret, HQ'. rewrite <- (app_nil_r es). by eapply remembers_app.
  - apply wpw_bind, wpw_fireHooks. intros w2 es p Hes Hw2.
    pose proof (HQ w2 _ es (ended_retried err result es p Hf Hd Hes) (remembers_app _ _ _ [] _ Hw1 Hw2)) as HQ'.
    by destruct p.
Qed.

Lemma wpw_run_job handler Q w : handlers sv !! Kind rec = Some handler →
  (∀ w' r es, ended r es → trace w' = trace w ++ es →
     inflight w' = inflight w ∨ inflight w' = delete (ID rec) (inflight w) → Q w' r) →
  wpw (run_job huge sv clk newID rec handler) Q w.
Proof.
  intros Hh HQ. unfold run_job. apply wpw_bind, wpw_fireHooks. intros w1 es p Hes [Hi1 Ht1].
  destruct p as [v|]; cbn [unless].
  { apply (HQ w1 (Err v) es); [by constructor|done|by left]. }
  assert (es = started) as -> by by inversion Hes. clear Hes.
  set (body := (_ ≫= _ : M world string string)).
  set (w2 := set_inflight (<[ID rec := Job.Queue rec]> (inflight w1)) w1).
  assert (Hbody : wpw body (λ w' r, ∃ more, ended r (started ++ more) ∧ remembers w2 more w') w1).
  { unfold body. apply wpw_bind. unfold wpw at 1. cbn [fst snd]. fold w2. apply wpw_bind.
    unfold wpw at 1. unfold run_handler. cbv zeta. destruct (meanwhile_remembers w2) as [Hi2 Ht2].
    destruct (wrap_all _ _ _ _) as [s3 [rj' o]] eqn:Hret.
    assert (Ho : came_to o) by (exists handler, (srv (meanwhile w2)), rj'; by rewrite Hret).
    set (w3 := set_srv s3 (meanwhile w2)). assert (Hw3 : remembers w2 [] w3) by by apply remembers_nil.
    assert (Hend : ending w3 (λ w' r, ∃ more, ended r (started ++ more) ∧ remembers w2 more w')).
    { intros w' r more Hr Hw'. exists more. split; [done|]. exact (remembers_app _ _ _ [] _ Hw3 Hw'). }
    destruct o as [[err|]|v]; cbn [fst snd].
    - by apply wpw_settle_failure.
    - by apply wpw_settle_success.
    - exists []. rewrite app_nil_r. split; [by constructor|done]. }
  unfold wpw, defer_delete in *. destruct (body w1) as [w4 r]. cbn [fst snd] in *.
  destruct Hbody as (more & Hr & Hi & Ht). apply (HQ _ r (started ++ more)); [done| |right]; cbn.
  - rewrite Ht. cbn. by rewrite Ht1, app_assoc.
  - rewrite Hi. cbn. by rewrite delete_insert_eq, Hi1.
Qed.

(** C14: every way a job can end.  Whatever the handler and the hooks do, panics
    included, and whatever the network and other processes do in between, the
    outcome is the one that what the handler came to calls for: a nil error leads
    to an acknowledgement, a reschedule or a cancellation to that, any other
    error to a retry or the dead letter list, and a panic ends it.  The start
    hooks fire before the handler, and after it those of the outcome and no
    others; a hook that panics is the last to fire and ends the processing with
    its panic.  The heartbeat's table, in which a job new to it has no entry yet,
    is in the end what it was, panics included. *)
Theorem processJob_ends (w : world) :
  let '(w', r) := processJob huge sv clk newID rec w in
  ∃ events, ended r events ∧ trace w' = trace w ++ events ∧
    (inflight w !! ID rec = None → inflight w' = inflight w).
Proof.
  set (Q := λ (w' : world) r, ∃ events, ended r events ∧ trace w' = trace w ++ events ∧
    (inflight w !! ID rec = None → inflight w' = inflight w)).
  assert (HQ : wpw (processJob huge sv clk newID rec) Q w).
  { assert (Hnone : ∀ w' r, ended r [] → remembers w [] w' → Q w' r).
    { intros w' r Hr [Hi Ht]. exists []. by split_and!. }
    unfold processJob. destruct (handlers sv !! Kind rec) as [handler|] eqn:Hh.
    2: { apply wpw_bind, wpw_call. intros w' r Hw. apply wpw_ret, Hnone; [by constructor|done]. }
    assert (Hrun : ∀ w1, remembers w [] w1 → wpw (run_job huge sv clk newID rec handler) Q w1).
    { intros w1 [Hi1 Ht1]. rewrite app_nil_r in Ht1. apply wpw_run_job; [done|]. intros w' r es Hr Ht Hi.
      exists es. rewrite Ht, Ht1. split_and!; [done|done|]. intros Hn. rewrite <- Hi1 in *.
      destruct Hi as [->| ->]; [done|by rewrite delete_id]. }
    apply wpw_bind. unfold rate_delay. destruct (rateLimits sv !! Kind rec) as [rl|] eqn:Hl.
    2: { by apply wpw_ret, Hrun, remembers_nil. }
    apply wpw_bind, wpw_call. intros w1 [res|e] Hw1; [|by apply wpw_ret, Hrun].
    destruct (Allowed res); [by apply wpw_ret, Hrun|]. apply wpw_ret, wpw_bind, wpw_call.
    intros w2 r Hw2. apply wpw_ret, Hnone; [by constructor; eauto|]. exact (remembers_app _ _ _ [] [] Hw1 Hw2). }
  unfold wpw in HQ. by destruct (processJob _ _ _ _ _ w).
Qed.
End Ends.

(** ** Configuration and polling order *)

(** The configured weight of a name. *)
Definition weight_of (q : string) (queues : list QueueWeight) : Z :=
  foldr (λ qw n, (if decide (Name qw = q) then Z.max 0 (Weight qw) else 0) + n) 0 queues.

Lemma occurrences_replicate (q q' : string) n :
  length (filter (λ x, x = q) (replicate n q')) = if decide (q' = q) then n else 0%nat.
Proof.
  destruct (decide (q' = q)) as [->|Hne]; induction n as [|n IH]; try done; cbn [replicate];
    rewrite filter_cons; [rewrite decide_True by done|rewrite decide_False by done]; cbn; by rewrite ?IH.
Qed.

(** In a weighted rotation a queue occurs as often as its weights say; in a
    strict one the queues come in descending order of weight, each as often as
    it was configured. *)
Theorem polling_order `{SortFuncLaws} (queues : list QueueWeight) :
  (∀ q, Z.of_nat (length (filter (λ x, x = q) (buildWeightedQueues queues))) = weight_of q queues) ∧
  (∃ sorted, sorted ≡ₚ queues ∧ StronglySorted (λ a b, Weight b ≤ Weight a) sorted ∧
     buildStrictQueues queues = Name <$> sorted).
Proof.
  split.
  - intros q. induction queues as [|qw queues IH]; [done|].
    change (buildWeightedQueues (qw :: queues)) with
      (replicate (Z.to_nat (Weight qw)) (Name qw) ++ buildWeightedQueues queues).
    cbn [weight_of foldr]. fold (weight_of q queues).
    rewrite filter_app, length_app, occurrences_replicate, Nat2Z.inj_add, IH.
    case_decide; lia.
  - exists (sort_func (λ a b, Weight b - Weight a) queues). split_and!; [apply sort_perm| |done].
    pose proof (sort_sorted (λ a b, Weight b - Weight a) (λ qw, - Weight qw) queues) as Hs.
    cbv beta in Hs. specialize (Hs ltac:(intros; lia)).
    eapply StronglySorted_weaken; [exact Hs|]. cbv beta. intros; lia.
Qed.

(** A normalised configuration can run: there is at least one worker and one
    queue, every queue is in the rotation, and the intervals are positive. *)
Theorem normal_config_runs (c : ServerConfig) :
  let n := normal_config c in
  0 < Concurrency n ∧ 0 < PollInterval n ∧ 0 < ShutdownTimeout n ∧ cfgQueues n ≠ [] ∧
  (∀ qw, qw ∈ cfgQueues n → 0 < Weight qw ∧ Name qw ∈ buildWeightedQueues (cfgQueues n)) ∧
  (∀ qw, qw ∈ cfgQueues c → ∃ qw', qw' ∈ cfgQueues n ∧ Name qw' = Name qw ∧ Weight qw' = Z.max 1 (Weight qw)) ∧
  normal_config n = n.
Proof.
  assert (Hw : ∀ qw, Weight (normal_weight qw) = Z.max 1 (Weight qw) ∧ Name (normal_weight qw) = Name qw).
  { intros qw. unfold normal_weight. case_decide; cbn; split; lia || done. }
  assert (Hid : ∀ qw, 0 < Weight qw → normal_weight qw = qw).
  { intros qw Hp. unfold normal_weight. by rewrite decide_False by lia. }
  set (n := normal_config c). cbv zeta.
  assert (Hne : cfgQueues n ≠ []).
  { cbn. case_decide as Hd; [done|]. by destruct (cfgQueues c). }
  assert (Hpos : ∀ qw, qw ∈ cfgQueues n → 0 < Weight qw).
  { intros qw (qw0 & -> & _)%list_elem_of_fmap. destruct (Hw qw0) as [-> _]. lia. }
  assert (Hc : 0 < Concurrency n ∧ 0 < PollInterval n ∧ 0 < ShutdownTimeout n).
  { cbn. unfold Millisecond, Second. split_and!; case_decide; lia. }
  destruct Hc as (H1 & H2 & H3). split_and!; [done..| | |].
  - intros qw Hin. split; [by apply Hpos|]. unfold buildWeightedQueues.
    apply list_elem_of_bind. exists qw. split; [|done].
    apply elem_of_replicate. split; [done|]. specialize (Hpos qw Hin). lia.
  - intros qw Hin. exists (normal_weight qw). destruct (Hw qw) as [-> ->]. split_and!; [|done..].
    cbn. rewrite decide_False by (by destruct (cfgQueues c); [apply not_elem_of_nil in Hin|]).
    by apply list_elem_of_fmap_2.
  - unfold normal_config at 1.
    rewrite (decide_False (P := Concurrency n ≤ 0)), (decide_False (P := PollInterval n ≤ 0)),
      (decide_False (P := ShutdownTimeout n ≤ 0)) by lia.
    rewrite (decide_False (P := length (cfgQueues n) = 0%nat)) by (by destruct (cfgQueues n)).
    assert (normal_weight <$> cfgQueues n = cfgQueues n) as ->; [|by destruct n].
    clear Hne. induction (cfgQueues n) as [|qw l IH]; [done|]. cbn. f_equal.
    + apply Hid, Hpos. by left.
    + apply IH. intros qw' Hin. apply Hpos. by right.
Qed.

(** ** Rounds and ticks *)

Section Rounds.
Context {S : Type} `{RedisLaws S} `{!Reliable S}.

(** Strict priority: a round takes a job only from the first queue, in the
    order of the list, that is neither paused nor empty, and takes its first
    job; when all are, it takes nothing and changes nothing. *)
Theorem strict_round_first clk w queues (m : keyspace) :
  wf_store m → Forall wf_queue queues → (∀ n, wf_time (clk n)) →
  wp (S := S) (strict_round clk 0 w queues) (λ m' r,
    (r = Ok None ∧ m' = m ∧ Forall (nothing_ready m) queues) ∨
    ∃ before q after jid p,
      queues = before ++ q :: after ∧ Forall (nothing_ready m) before ∧ ¬ nothing_ready m q ∧
      zset_at m (readyKey q) !! jid = Some p ∧
      (∀ j p', zset_at m (readyKey q) !! j = Some p' → p < p' ∨ (p = p' ∧ String.le jid j)) ∧
      r = Ok (Some (parseJobRecordFromMap (hash_at m' (jobKey jid)))) ∧
      is_Some (zset_at m' (leaseKey q) !! jid) ∧
      (∀ q', wf_queue q' → q' ≠ q → zset_at m' (readyKey q') = zset_at m (readyKey q'))) m.
Proof.
  intros Hm Hqs Hclk. generalize 0%nat. induction queues as [|q queues IH]; intros i; cbn [strict_round].
  { apply wp_ret. left. by split_and!. }
  apply Forall_cons in Hqs as [Hq Hqs]. specialize (IH Hqs). apply wp_bind, wp_try.
  apply wp_Dequeue; [done|done|apply Hclk|..].
  - intros Hn. cbv iota. eapply wp_mono; [apply IH|]. cbv beta.
    intros m2 r2 [(-> & -> & Hall)|(before & q' & after & jid & p & -> & Hb & Hrest)].
    + left. split_and!; [done|done|by constructor].
    + right. exists (q :: before), q', after, jid, p. split_and!; [done|by constructor|apply Hrest..].
  - intros jid p rest Hn Hz Hid. cbv zeta iota. apply wp_ret. right.
    destruct (zsorted_head _ _ _ _ Hz) as [Hin Hmin].
    exists [], q, queues, jid, p. split_and!; [done|done|done|done|exact Hmin|done| |].
    + unfold dequeue_ks. ks_simp. rewrite lookup_insert_eq. eauto.
    + intros q' Hq' Hne. unfold dequeue_ks. by ks_simp.
Qed.

(** After the heartbeat has passed the jobs of the list, their leases, if they
    have any, end after [t]. *)
Definition kept (t : Z) (jobs : list (string * string)) (m : keyspace) : Prop :=
  ∀ j q e, (j, q) ∈ jobs → zset_at m (leaseKey q) !! j = Some e → t < e.

Lemma wp_extend_all clk t (done_ jobs : list (string * string)) (i : nat) m Q :
  wf_store m → Forall (λ job, wf_queue job.2) (done_ ++ jobs) →
  (∀ n, wf_time (clk n + DefaultLeaseDuration) ∧ t < UnixMilli (clk n + DefaultLeaseDuration)) →
  kept t done_ m →
  (∀ m', wf_store m' → kept t (done_ ++ jobs) m' → Q m' (Ok tt)) →
  wp (S := S) (E := error) (for_each_i i jobs (λ i job,
    try (E := error) (ExtendLease (clk i) job.2 job.1 DefaultLeaseDuration) ;; mret tt)) Q m.
Proof.
  intros Hm Hqs Hclk Hk HQ. revert done_ i m Hm Hqs Hk HQ.
  induction jobs as [|[j q] jobs IH]; intros done_ i m Hm Hqs Hk HQ; cbn [for_each_i].
  { apply wp_ret. apply HQ; [done|by rewrite app_nil_r]. }
  destruct (Hclk i) as [Ht Hlt]. assert (Hq : wf_queue q).
  { rewrite Forall_app, Forall_cons in Hqs. apply Hqs. }
  apply wp_bind, wp_bind, wp_try. cbn [fst snd]. unfold ExtendLease.
  apply wp_bind, wp_wrap, wp_Run, wp_extendLeaseScript; [done|done|eauto with winter|]. cbv beta iota.
  apply wp_ret, wp_ret. apply (IH (done_ ++ [(j, q)])).
  - by apply wf_extend.
  - by rewrite <- app_assoc.
  - intros j' q' e Hin. assert (Hq' : wf_queue q').
    { rewrite Forall_app, Forall_forall in Hqs. apply elem_of_app in Hin as [Hin|Hin].
      - destruct Hqs as [Hqs _]. by apply (Hqs (j', q')).
      - apply list_elem_of_singleton in Hin. by injection Hin as -> ->. }
    unfold extend_ks. intros He. destruct (decide (q' = q)) as [->|Hne].
    + assert (Hold : (j', q) ∈ done_ ∨ j' = j).
      { apply elem_of_app in Hin as [?|Hin]; [by left|right].
        apply list_elem_of_singleton in Hin. by injection Hin as ->. }
      case_decide as Hd.
      * revert He. unfold zadd. rewrite zset_at_put_eq.
        destruct (decide (j = j')) as [->|Hj]; [rewrite lookup_insert_eq; by intros [= <-]|].
        rewrite lookup_insert_ne by done. destruct Hold as [Hin'|?]; [by apply Hk|done].
      * destruct Hold as [Hin'| ->]; [by apply (Hk j' q)|]. destruct Hd. eauto.
    + assert (He' : zset_at m (leaseKey q') !! j' = Some e).
      { rewrite <- He. f_equal. case_decide; [|done]. symmetry. by ks_simp. }
      apply elem_of_app in Hin as [Hin|Hin]; [by apply (Hk j' q')|].
      apply list_elem_of_singleton in Hin. by injection Hin as -> ->.
  - intros m' Hm' Hk'. apply HQ; [done|]. by rewrite <- app_assoc in Hk'.
Qed.

(** C15: heartbeats protect: after a heartbeat at the times [clk], no sweep within
    the next thirty seconds takes a job that was in flight. *)
Theorem heartbeat_protects clk stopped worker jobs q limit nowMs (m : keyspace) :
  wf_store m → Forall (λ job, wf_queue job.2) jobs → wf_queue q → safe_int limit → safe_int nowMs →
  (∀ n, wf_time (clk n + DefaultLeaseDuration) ∧ nowMs < UnixMilli (clk n) + 30000) →
  wp (S := S)
    (heartbeat_tick clk stopped worker jobs ;; RecoverExpiredLeasesAt q limit nowMs)
    (λ m' r, ∃ ids, r = Ok ids ∧ ∀ j, (j, q) ∈ jobs → j ∉ ids) m.
Proof.
  intros Hm Hqs Hq Hl Hnow Hclk.
  assert (Hms : ∀ t, UnixMilli (t + DefaultLeaseDuration) = UnixMilli t + 30000).
  { intros t. unfold UnixMilli, DefaultLeaseDuration, Millisecond, Second.
    replace (t + 30 * 1000000000) with (t + 30000 * 1000000) by lia. by rewrite Z.div_add. }
  apply wp_bind. unfold heartbeat_tick, Heartbeat.
  apply wp_bind, wp_try, wp_bind, wp_plain, wp_Run, wp_HSET;
    [by apply (wf_has_type m KWorkers)|done|intros _]. apply wp_ret. cbv beta iota.
  apply (wp_extend_all clk nowMs []); [by apply (wf_store_put m KWorkers)|done| | |].
  { intros n. rewrite Hms. apply Hclk. }
  { by intros ? ? ? ?%elem_of_nil. }
  intros m1 Hm1 Hk. cbv iota. apply wp_RecoverExpiredLeasesAt; [done..|].
  eexists. split; [done|]. intros j Hin Hrec.
  destruct (recover_fold q Hq (due (zset_at m1 (leaseKey q)) nowMs limit) m1) as (H1 & _);
    [by apply (due_wf m1 (KLease q))|apply due_NoDup|].
  unfold recovered in Hrec. rewrite H1 in Hrec. apply list_elem_of_filter in Hrec as [_ Hrec].
  apply due_elem in Hrec as (e & He & Hle). specialize (Hk j q e Hin He). lia.
Qed.
End Rounds.
