(* ===== verification/SettleSpecs.v ===== *)
(** * SettleSpecs: processing a job settles it

    On a day without network failures, while nobody else is at work and as long
    as the handler does not spoil the counters, [processJob] ends the worker's
    hold on every path and leaves the job where its new state says.  That holds
    for jobs of a workflow too: what a completion or a failure does to the
    workflow touches neither the job nor its places. *)
From S2P Require Import Prelude Float Keys Redis Lua Keyspace Job Scripts Queue ScriptSpecs QueueSpecs FinishSpecs Places Moves Texts WorkflowSpecs Winter Client Json Workflow RateLimit RateLimitSpecs Cron Recovery Handler Server ServerSpecs.

Open Scope string_scope.
Open Scope Z_scope.
Open Scope list_scope.

(** The job is in state [st] and no longer held. *)
Definition closed (st q jid : string) (m : keyspace) : Prop :=
  hash_at m (jobKey jid) !! "state" = Some st ∧ jid ∉ set_at m (activeKey q) ∧
  zset_at m (leaseKey q) !! jid = None.

(** The place a job in that state is in. *)
Definition settled (outcome q jid : string) (m : keyspace) : Prop :=
  if decide (outcome = "completed" ∨ outcome = "cancelled") then closed outcome q jid m
  else if decide (outcome = "dead") then closed "dead" q jid m ∧ jid ∈ list_at m (deadKey q)
  else if decide (outcome = "retry") then closed "retry" q jid m ∧ is_Some (zset_at m (delayedKey q) !! jid)
  else (outcome = "rescheduled" ∨ outcome = "rate_limited") ∧
    closed "pending" q jid m ∧ is_Some (zset_at m (delayedKey q) !! jid).

Section Closing.
Context {S : Type} `{RedisLaws S} `{!Reliable S}.
Context (q jid w : string) (m : keyspace) (Hm : wf_store m) (Hq : wf_queue q) (Hid : wf_id jid).

Lemma unlease_free : jid ∉ set_at (unlease_ks q jid w m) (activeKey q) ∧
  zset_at (unlease_ks q jid w m) (leaseKey q) !! jid = None.
Proof.
  unfold unlease_ks. ks_simp. split; [set_solver|apply lookup_delete_eq].
Qed.

Lemma closed_release st m1 : uk_shape jid m1 → closed st q jid m1 → closed st q jid (release_ks jid m1).
Proof. intros Huk (H1 & H2 & H3). unfold closed. split_and!; by ks_simp. Qed.

Lemma wp_Ack_closed now : can_incr m (statsKey q) "completed" →
  wp (S := S) (Ack now q jid w) (λ m' r, r = Ok tt ∧ wf_store m' ∧ closed "completed" q jid m') m.
Proof.
  intros Hc. unfold Ack. apply wp_bind, wp_wrap, wp_Run, wp_ackScript; [done..| |].
  2: { intros Hn. destruct Hn. eapply can_incr_frame; [|exact Hc]. unfold unlease_ks. by ks_simp. }
  intros Hc'. cbv beta iota. apply wp_ret. unfold ack_ks.
  set (m1 := hset (jobKey jid) _ (unlease_ks q jid w m)) in *.
  assert (Hm1 : wf_store m1) by (apply wf_hset_job; [by apply wf_unlease|done|repeat constructor]).
  assert (Hm2 : wf_store (hincr (statsKey q) "completed" m1)) by (by apply wf_hincr_stats).
  split_and!; [done|by apply wf_release|]. apply closed_release; [by apply wf_uk_shape|].
  destruct unlease_free as [Hf1 Hf2]. unfold closed, m1. ks_simp. split_and!; [|done|done].
  cbn. by rewrite lookup_insert_ne, lookup_insert_eq.
Qed.

Lemma wp_Resched_closed t : wf_time t →
  wp (S := S) (RescheduleJob q jid w t) (λ m' r,
    r = Ok tt ∧ wf_store m' ∧ closed "pending" q jid m' ∧ is_Some (zset_at m' (delayedKey q) !! jid)) m.
Proof.
  intros Ht. unfold RescheduleJob. apply wp_bind, wp_wrap, wp_Run, wp_rescheduleScript;
    [done..|eauto with winter|]. cbv beta iota. apply wp_ret. unfold reschedule_ks.
  destruct unlease_free as [Hf1 Hf2]. split_and!; [done| |unfold closed; split_and!|].
  - wf_chain; [by apply wf_unlease|repeat constructor].
  - ks_simp. cbn. rewrite !lookup_insert_ne by done. apply lookup_insert_eq.
  - by ks_simp.
  - by ks_simp.
  - ks_simp. rewrite lookup_insert_eq. eauto.
Qed.

Lemma wp_Cancel_closed now reason :
  wp (S := S) (CancelJob now q jid w reason) (λ m' r, r = Ok tt ∧ wf_store m' ∧ closed "cancelled" q jid m') m.
Proof.
  unfold CancelJob. apply wp_bind, wp_wrap, wp_Run, wp_cancelScript; [done..|]. cbv beta iota.
  apply wp_ret. unfold cancel_ks. set (m1 := hset (jobKey jid) _ (unlease_ks q jid w m)).
  assert (Hm1 : wf_store m1) by (apply wf_hset_job; [by apply wf_unlease|done|repeat constructor]).
  split_and!; [done|by apply wf_release|]. apply closed_release; [by apply wf_uk_shape|].
  destruct unlease_free as [Hf1 Hf2]. unfold closed, m1. ks_simp. split_and!; [|done|done].
  cbn. rewrite !lookup_insert_ne by done. apply lookup_insert_eq.
Qed.

(** What a nack has changed by the time it decides, seen by the hold. *)
Lemma nack_counted_free e : let m' := nack_counted_ks q jid w e m in
  jid ∉ set_at m' (activeKey q) ∧ zset_at m' (leaseKey q) !! jid = None.
Proof.
  destruct unlease_free as [Hf1 Hf2]. cbv zeta. unfold nack_counted_ks, nack_failed_ks.
  split; by ks_simp.
Qed.

Lemma wp_Nack_closed now e backoff (skip : bool) mx :
  wf_time now → - 2 ^ 52 ≤ backoff ≤ 2 ^ 52 →
  can_incr m (jobKey jid) "attempt" → max_retries m jid = Some mx →
  can_incr m (statsKey q) "failed" → can_incr m (statsKey q) "dead_total" →
  wp (S := S) (Nack now q jid w e backoff skip) (λ m' r, ∃ out, r = Ok out ∧ wf_store m' ∧
    (skip = true → out = "dead") ∧
    (out = "dead" ∧ closed "dead" q jid m' ∧ jid ∈ list_at m' (deadKey q) ∨
     out = "retry" ∧ closed "retry" q jid m' ∧ is_Some (zset_at m' (delayedKey q) !! jid))) m.
Proof.
  intros Hnow Hb Ha Hmx Hf Hd. unfold Nack.
  destruct (nack_counters q jid w e m Hq Hid Ha Hf) as [Ha' Hf'].
  pose proof (to_dead_can_incr q jid w e m Hq Hid Hf Hd) as Hd'.
  destruct (nack_counted_free e) as [Hf1 Hf2].
  replace (if skip then 1 else 0) with (b2z skip) by done.
  apply wp_bind, wp_wrap, wp_Run.
  apply wp_nackScript; [done|done|done|eauto with winter|unfold safe_int; lia
    |unfold wf_time, safe_int in *; lia|done|done| |done| |].
  - intros _ Hn. unfold nack_is_dead in Hn. rewrite Hmx in Hn. by destruct skip.
  - intros Hwf _ Hc. cbv beta iota. apply wp_ret. exists "dead". unfold nack_dead_ks.
    assert (Hm1 : wf_store (hincr (statsKey q) "dead_total" (to_dead_ks q jid (nack_counted_ks q jid w e m))))
      by (apply wf_hincr_stats; [by apply wf_to_dead|done|done]).
    pose proof (wf_uk_shape jid _ Hm1 Hid) as Huk.
    split_and!; [done|by apply wf_release|done|]. left. split_and!; [done|apply closed_release; [done|]|].
    + unfold closed, to_dead_ks. ks_simp. split_and!; [|done|done]. cbn. by rewrite lookup_insert_eq.
    + ks_simp. unfold to_dead_ks. ks_simp. by left.
  - intros Hwf Hretry. cbv beta iota. apply wp_ret. exists "retry". unfold nack_retry_ks.
    split_and!; [done| | |right; split_and!; [done|unfold closed; split_and!|]].
    + wf_chain. repeat constructor.
    + intros ->. by apply nack_is_retry_spec with (mx := mx) in Hretry; [destruct Hretry; left|].
    + ks_simp. cbn. by rewrite lookup_insert_eq.
    + by ks_simp.
    + by ks_simp.
    + ks_simp. rewrite lookup_insert_eq. eauto.
Qed.
End Closing.

(** ** Calls that leave keys alone *)

Section Frames.
Context {S : Type} `{RedisLaws S} `{Json WfRecord}.

(** The keys hold what they held. *)
Definition same_at (keys : list string) (m m' : keyspace) : Prop := Forall (λ k, m' !! k = m !! k) keys.

(** A command writes to its own key. *)
Lemma stable_same keys m c : cmd_key c ∉ keys →
  stable (λ s, same_at keys m (ks s)) (redis_call (S := S) c).
Proof.
  intros Hc. apply (moves_call _). intros s Hs. unfold same_at in *. rewrite Forall_forall in *.
  intros k Hk. rewrite law_other by (by intros ->). by apply Hs.
Qed.

Lemma wp_stable {E A} I (c : M S E A) m : stable (λ s, I (ks s)) c → I m → wp c (λ m' _, I m') m.
Proof. intros Hc Hm s <-. by apply Hc. Qed.

Lemma wp_also {E A} I (c : M S E A) Q m : stable (λ s, I (ks s)) c → I m →
  wp c Q m → wp c (λ m' r, Q m' r ∧ I m') m.
Proof. intros Hc Hm HQ s <-. split; [by apply HQ|by apply Hc]. Qed.

Lemma same_transport keys m s : same_at keys m (ks s) → same_at keys m (ks (transport s).1).
Proof. by destruct (law_transport s) as [-> _]. Qed.

(** Whatever a worker can read from a workflow is well formed. *)
Lemma wp_loadRecord_good `{!Reliable S} id m Q : wf_store m → texts m → wf_wfid id →
  (∀ r, (∀ rec, r = Ok (Some rec) → wf_workflow rec) → Q m r) →
  wp (S := S) (loadRecord id) Q m.
Proof.
  intros Hm Ht Hid HQ. unfold loadRecord. apply wp_bind, wp_wrap, wp_Run, wp_GET.
  { by apply (wf_has_type m (KWorkflow id)). }
  destruct (str_at m (workflowKey id)) as [t|] eqn:E; cbv beta iota.
  - destruct (unmarshal t) as [rec|e] eqn:Hu; [apply wp_ret|apply wp_throw]; apply HQ; [|done].
    intros rec' [= <-]. by apply (Ht id t).
  - apply wp_ret, HQ. done.
Qed.

(** What the events of a workflow leave alone: the job they report, and who
    holds it. *)
Definition job_keys (q jid : string) : list string := [jobKey jid; activeKey q; leaseKey q; deadKey q].

Lemma job_keys_other k q jid : wf_queue q → wf_id jid → wf_key k →
  k ≠ KJob jid → k ≠ KActive q → k ≠ KLease q → k ≠ KDead q → render k ∉ job_keys q jid.
Proof.
  intros Hq Hid Hk Hj Ha Hl Hd. unfold job_keys. rewrite !not_elem_of_cons. split_and!; [..|apply not_elem_of_nil].
  - by apply (render_ne k (KJob jid)).
  - by apply (render_ne k (KActive q)).
  - by apply (render_ne k (KLease q)).
  - by apply (render_ne k (KDead q)).
Qed.
End Frames.

Lemma closed_same st q jid m m' : same_at (job_keys q jid) m m' → closed st q jid m → closed st q jid m'.
Proof.
  intros Hs (Hst & Ha & Hl). unfold same_at, job_keys in Hs. rewrite !Forall_cons in Hs.
  destruct Hs as (Ej & Ea & El & _). unfold closed.
  by rewrite (hash_at_ext m' m _ Ej), (set_at_ext m' m _ Ea), (zset_at_ext m' m _ El).
Qed.

Lemma dead_same q jid m m' : same_at (job_keys q jid) m m' → list_at m' (deadKey q) = list_at m (deadKey q).
Proof.
  intros Hs. unfold same_at, job_keys in Hs. rewrite !Forall_cons in Hs. by apply list_at_ext, Hs.
Qed.

(** A program whose commands write elsewhere. *)
Ltac same_walk := repeat first
  [ apply stable_same
  | apply moves_Run; [exact _|intros ? ?; by apply same_transport|]
  | lazymatch goal with |- moves _ (match ?x with _ => _ end) => destruct x eqn:? end
  | moves_step ].
Ltac texts_walk := repeat first
  [ apply stable_texts; try exact I
  | apply moves_Run; [exact _|intros ? ?; by apply texts_transport|]
  | moves_step ].
Ltac other_key k := apply (job_keys_other k); done.

Section WorkflowFrames.
Context {S : Type} `{RedisLaws S} `{!Reliable S} `{Json WfRecord}.
Context (q jid : string) (m : keyspace) (Hq : wf_queue q) (Hid : wf_id jid).

#[local] Abbreviation untouched := (stable (λ s : S, same_at (job_keys q jid) m (ks s))).

Lemma same_saveRecord rec : wf_wfid (wID rec) → untouched (saveRecord rec).
Proof. intros Hw. unfold saveRecord. same_walk. by other_key (KWorkflow (wID rec)). Qed.

Lemma same_enqueueTask now id spec wfid : wf_record (spec_job now id wfid spec) → id ≠ jid →
  untouched (enqueueTask now id spec wfid).
Proof.
  intros Hj Hne. unfold enqueueTask, Queue.Enqueue. set (job := spec_job now id wfid spec) in *.
  destruct Hj as (Hid' & Hq' & _). 
  change (unique_slot "" 0) with ("", 0). unfold run_enqueue, enqueueScript, priority_or_5.
  same_walk; cbn [cmd_key]; [done|..].
  - apply (job_keys_other (KJob id)); congruence || done.
  - by other_key (KDelayed (Job.Queue job)).
  - by other_key (KReady (Job.Queue job)).
  - by other_key (KStats (Job.Queue job)).
Qed.

(** A completion of a workflow's job, and a failure. *)
Lemma same_advance now newID rec : wf_workflow rec → wf_time now → wf_id newID → newID ≠ jid →
  untouched (advanceChain now newID rec) ∧ untouched (advanceGroup rec) ∧
  untouched (advanceChord now newID rec jid).
Proof.
  intros Hrec Hnow Hnew Hne. pose proof (wfw_id _ Hrec) as Hw.
  assert (Hspec : ∀ spec, wf_spec spec → untouched (enqueueTask now newID spec (wID rec)))
    by (intros; by apply same_enqueueTask; [apply wf_spec_job|]).
  split_and!; [unfold advanceChain, advanceChainScript|unfold advanceGroup, advanceGroupScript|unfold advanceChord, advanceChordScript].
  all: unfold int64_reply, wrap_err; same_walk; try by apply same_saveRecord.
  1,3: by other_key (KCounter (wID rec)).
  - apply Hspec. by eapply Forall_lookup_1; [apply (wfw_tasks _ Hrec)|].
  - apply same_saveRecord. by case_decide.
  - by other_key (KDeps (wID rec)).
  - by other_key (KDeps (wID rec)).
  - apply Hspec. by apply (wfw_callback _ Hrec).
Qed.

Lemma wp_OnJobCompleted_same now newID wfid : wf_store m → texts m → wf_wfid wfid → wf_time now → wf_id newID → newID ≠ jid →
  wp (S := S) (OnJobCompleted now newID wfid jid) (λ m' _, same_at (job_keys q jid) m m') m.
Proof.
  intros Hm Ht Hw Hnow Hnew Hne. unfold OnJobCompleted.
  assert (Hsame : same_at (job_keys q jid) m m) by by apply Forall_true.
  apply wp_bind, wp_loadRecord_good; [done..|]. intros [[rec|]|e] Hrec; [|by apply wp_ret|done].
  destruct (same_advance now newID rec (Hrec rec eq_refl) Hnow Hnew Hne) as (H1' & H2' & H3').
  repeat case_decide; first [by apply wp_ret|by apply wp_throw|by apply (wp_stable (same_at (job_keys q jid) m))].
Qed.

Lemma wp_OnJobFailed_same wfid : wf_store m → texts m → wf_wfid wfid →
  wp (S := S) (OnJobFailed wfid jid) (λ m' _, same_at (job_keys q jid) m m') m.
Proof.
  intros Hm Ht Hw. unfold OnJobFailed.
  assert (Hsame : same_at (job_keys q jid) m m) by by apply Forall_true.
  apply wp_bind, wp_loadRecord_good; [done..|]. intros [[rec|]|e] Hrec; [|by apply wp_ret|done].
  apply (wp_stable (same_at (job_keys q jid) m)); [|done]. apply same_saveRecord. apply (wfw_id _ (Hrec rec eq_refl)).
Qed.
End WorkflowFrames.

(** What the worker does to its job spoils no text of a workflow. *)
Section KeptTexts.
Context {S : Type} `{RedisLaws S} `{Json WfRecord}.

#[local] Abbreviation gentle_program := (stable (λ s : S, texts (ks s))).

Lemma texts_Ack now q jid w : gentle_program (Ack now q jid w).
Proof. unfold Ack, ackScript, release_unique. texts_walk. Qed.

Lemma texts_Nack now q jid w e b skip : gentle_program (Nack now q jid w e b skip).
Proof.
  unfold Nack, nackScript, nack_record, nack_choice, nack_dead, nack_retry, release_unique. texts_walk.
Qed.

Lemma texts_SetResult jid data ttl : gentle_program (Queue.SetResult jid data ttl).
Proof. unfold Queue.SetResult. texts_walk. by apply (gentle_SET (KResult jid)). Qed.
End KeptTexts.

(** ** The whole of [processJob] *)

(** A clock reading far enough from the ends that any delay may be added. *)
Definition wf_clock (t : Z) : Prop := - 2 ^ 51 ≤ UnixMilli t ≤ 2 ^ 51.

#[export] Instance wf_clock_dec t : Decision (wf_clock t).
Proof. unfold wf_clock. apply _. Defined.

Lemma wf_clock_delay t d : wf_clock t → in_int64 d → wf_time (t + d).
Proof.
  unfold wf_clock, wf_time, in_int64, int64_min, int64_max, UnixMilli, Millisecond. intros Ht Hd.
  pose proof (Z.div_mod t 1000000 ltac:(lia)). pose proof (Z.mod_pos_bound t 1000000 ltac:(lia)).
  pose proof (Z.div_mod (t + d) 1000000 ltac:(lia)). pose proof (Z.mod_pos_bound (t + d) 1000000 ltac:(lia)).
  lia.
Qed.

Lemma wf_clock_time t : wf_clock t → wf_time t.
Proof. unfold wf_clock, wf_time. lia. Qed.
#[export] Hint Resolve wf_clock_time wf_clock_delay : winter.

(** The backoff of any attempt is a number of milliseconds a double holds. *)
Lemma backoff_ms_range huge rec skip : - 2 ^ 52 ≤ backoff_ms huge rec skip ≤ 2 ^ 52.
Proof.
  unfold backoff_ms. destruct skip; [lia|]. set (d := Winter.Next _ _ _).
  assert (Hd : in_int64 d).
  { unfold d, Winter.Next. case_decide; [|apply wrap64_range]. done. }
  unfold in_int64, int64_min, int64_max, Millisecond in *.
  pose proof (Z.quot_rem d 1000000 ltac:(lia)). pose proof (Z.rem_bound_abs d 1000000 ltac:(lia)). lia.
Qed.

Section Settles.
Context {S : Type} `{RedisLaws S} `{!Reliable S} `{LuaFloatLaws} `{Json WfRecord}.
Context (huge : Z).
#[local] Abbreviation world := (Server.world (S := S)).

(** What a program of the server leaves in Redis, and its outcome, if no other
    process does anything between its calls. *)
Definition wpk {A} (c : M world string A) (Q : keyspace → result string A → Prop) (m : keyspace) : Prop :=
  ∀ w, others w = [] → ks (srv w) = m → others (c w).1 = [] ∧ Q (ks (srv (c w).1)) (c w).2.

Lemma wpk_bind {A B} (c : M world string A) (f : A → M world string B) Q m :
  wpk c (λ m' r, match r with Ok a => wpk (f a) Q m' | Err e => Q m' (Err e) end) m →
  wpk (mbind f c) Q m.
Proof.
  intros Hc w Ho Hw. destruct (Hc w Ho Hw) as [Ho' HQ]. unfold mbind, M_bind.
  destruct (c w) as [w' [a|e]]; cbn in *; [by apply HQ|done].
Qed.

Lemma wpk_ret {A} (a : A) (Q : keyspace → result string A → Prop) m : Q m (Ok a) → wpk (mret a) Q m.
Proof. by intros HQ w Ho <-. Qed.

Lemma wpk_mono {A} (c : M world string A) (P Q : keyspace → result string A → Prop) m :
  wpk c P m → (∀ m' r, P m' r → Q m' r) → wpk c Q m.
Proof. intros Hc HPQ w Ho Hw. destruct (Hc w Ho Hw). split; [done|by apply HPQ]. Qed.

Lemma meanwhile_alone (w : world) : others w = [] → meanwhile w = w.
Proof. unfold meanwhile. by intros ->. Qed.

Lemma wpk_call {A} (c : M S error A) (Q : keyspace → result string (result error A) → Prop) m :
  wp c (λ m' r, Q m' (Ok r)) m → wpk (call c) Q m.
Proof.
  intros Hc w Ho Hw. specialize (Hc (srv w) Hw). unfold call. rewrite meanwhile_alone by done.
  by destruct (c (srv w)).
Qed.

Lemma wpk_defer {A} id (body : M world string A) Q m : wpk body Q m → wpk (defer_delete id body) Q m.
Proof. intros Hb w Ho Hw. specialize (Hb w Ho Hw). unfold defer_delete. by destruct (body w). Qed.

Lemma wpk_inflight id q Q m : Q m (Ok tt) →
  wpk (λ w, (set_inflight (<[id := q]> (inflight w)) w, Ok tt)) Q m.
Proof. by intros HQ w Ho <-. Qed.

(** Hooks that do not touch Redis and do not panic. *)
Definition quiet (fn : HookFunc (S := S)) : Prop := ∀ ev s, ks (fn ev s).1 = ks s ∧ (fn ev s).2 = None.

Lemma wpk_fireHooks kind hooks event Q m : Forall quiet hooks →
  Q m (Ok tt) → wpk (fireHooks kind hooks event) Q m.
Proof.
  unfold fireHooks. intros Hh HQ. induction Hh as [|fn hooks Hfn _ IH]; cbn [for_each].
  - by apply wpk_ret.
  - apply wpk_bind. intros w Ho <-. destruct (Hfn event (srv w)) as [Hk Hp].
    destruct (fn event (srv w)) as [s' p]. cbn [fst snd] in *. subst p. cbn. by rewrite Hk.
Qed.

Lemma wpk_run_handler fn rj m Q :
  (∀ s, ks s = m → Q (ks (fn rj s).1) (match (fn rj s).2 with
    | (rj', Returned err) => Ok (rj', err) | (_, Panicked v) => Err v end)) →
  wpk (run_handler fn rj) Q m.
Proof.
  intros HQ w Ho Hw. specialize (HQ (srv w) Hw). unfold run_handler. rewrite meanwhile_alone by done. cbv zeta.
  by destruct (fn rj (srv w)) as [s' [rj' [err|v]]].
Qed.

Context (sv : Server (S := S)) (clk : nat → Z) (newID : string) (rec : JobRecord).
#[local] Abbreviation q := (Job.Queue rec).
#[local] Abbreviation jid := (ID rec).

(** The job's counters and its queue's can still count, and the workflows can
    be read. *)
Record fit (m : keyspace) : Prop := {
  fit_wf : wf_store m;
  fit_texts : texts m;
  fit_completed : can_incr m (statsKey q) "completed";
  fit_failed : can_incr m (statsKey q) "failed";
  fit_dead : can_incr m (statsKey q) "dead_total";
  fit_attempt : can_incr m (jobKey jid) "attempt";
  fit_retries : is_Some (max_retries m jid)
}.

(** A handler that does not break these, and whose delays are durations. *)
Definition fair (fn : HandlerFn (S := S)) : Prop := ∀ rj s, fit (ks s) →
  fit (ks (fn rj s).1) ∧
  match (fn rj s).2.2 with
  | Returned (Some err) => in_int64 (IsReschedule err).1
  | _ => True
  end.

Context (Hq : wf_queue q) (Hid : wf_id jid) (Hclk : ∀ n, wf_clock (clk n)).
Context (Hquiet : Forall quiet (onStart sv ++ onComplete sv ++ onError sv ++ onDead sv)).

Lemma quiet_all : Forall quiet (onStart sv) ∧ Forall quiet (onComplete sv) ∧
  Forall quiet (onError sv) ∧ Forall quiet (onDead sv).
Proof. rewrite !Forall_app in Hquiet. tauto. Qed.

(** The job is settled as the outcome says. *)
Definition done_job (m : keyspace) (r : result string string) : Prop :=
  match r with Ok out => settled out q jid m | Err _ => True end.

(** The job is no part of a workflow, or of one whose next job has an id of its own. *)
Definition workflow_ok : Prop := WorkflowID rec = "" ∨ wf_wfid (WorkflowID rec) ∧ wf_id newID ∧ newID ≠ jid.

(** What follows an acknowledgement: the result, the workflow, the hooks. *)
Lemma wpk_result rj m : wf_store m → texts m →
  wpk (if decide (0 < String.length (rResult rj))%nat
       then call (Queue.SetResult jid (rResult rj) (7 * 24 * 3600 * Second)) ;; mret tt else mret tt)
    (λ m' r, r = Ok tt ∧ wf_store m' ∧ texts m' ∧ same_at (job_keys q jid) m m') m.
Proof.
  intros Hm Ht. assert (Hsame : same_at (job_keys q jid) m m) by by apply Forall_true.
  case_decide; [|by apply wpk_ret]. apply wpk_bind, wpk_call. eapply wp_mono.
  { apply (wp_also texts _ (λ m' _, m' = put (resultKey jid) (RStr (rResult rj)) m));
      [apply texts_SetResult|done|]. unfold Queue.SetResult.
    apply wp_bind, wp_plain, wp_Run, wp_SET.
    { unfold expiration. intros t. case_decide; [|done]. intros [= <-]. lia. }
    by apply wp_ret. }
  intros m' r [-> Ht']. cbv beta iota. apply wpk_ret.
  split_and!; [done|by apply (wf_store_put m (KResult jid))|done|]. unfold same_at.
  rewrite Forall_forall. intros k Hk. apply lookup_put_ne. intros <-. revert Hk.
  by apply (job_keys_other (KResult jid)).
Qed.

Lemma wpk_completed_event m : wf_store m → texts m → workflow_ok →
  wpk (if decide (WorkflowID rec ≠ "")
       then call (OnJobCompleted (clk 2%nat) newID (WorkflowID rec) jid) ;; mret tt else mret tt)
    (λ m' r, r = Ok tt ∧ same_at (job_keys q jid) m m') m.
Proof.
  intros Hm Ht Hw. assert (Hsame : same_at (job_keys q jid) m m) by by apply Forall_true.
  case_decide; [|by apply wpk_ret]. destruct Hw as [?|(Hw & Hn & Hne)]; [done|].
  apply wpk_bind, wpk_call. eapply wp_mono.
  { apply (wp_OnJobCompleted_same q jid m); try done. apply wf_clock_time, Hclk. }
  intros m' r Hs. cbv beta iota. by apply wpk_ret.
Qed.

Lemma wpk_failed_event m : wf_store m → texts m → workflow_ok →
  wpk (if decide (WorkflowID rec ≠ "") then call (OnJobFailed (WorkflowID rec) jid) ;; mret tt else mret tt)
    (λ m' r, r = Ok tt ∧ same_at (job_keys q jid) m m') m.
Proof.
  intros Hm Ht Hw. assert (Hsame : same_at (job_keys q jid) m m) by by apply Forall_true.
  case_decide; [|by apply wpk_ret]. destruct Hw as [?|(Hw & _)]; [done|].
  apply wpk_bind, wpk_call. eapply wp_mono; [by apply (wp_OnJobFailed_same q jid m)|].
  intros m' r Hs. cbv beta iota. by apply wpk_ret.
Qed.

Lemma wpk_settle_success rj m : fit m → workflow_ok →
  wpk (settle_success sv clk newID rec rj) done_job m.
Proof.
  intros [Hm Ht Hc _ _ _ _] Hw. unfold settle_success. apply wpk_bind, wpk_call.
  eapply wp_mono; [apply (wp_also texts); [apply texts_Ack|done|by apply wp_Ack_closed]|].
  cbv beta. intros m1 r ((-> & Hm1 & Hcl) & Ht1). cbv iota.
  apply wpk_bind. eapply wpk_mono; [by apply wpk_result|]. cbv beta. intros m2 r (-> & Hm2 & Ht2 & Hs2). cbv iota.
  apply wpk_bind. eapply wpk_mono; [by apply wpk_completed_event|]. cbv beta. intros m3 r (-> & Hs3). cbv iota.
  apply wpk_bind, wpk_fireHooks; [apply quiet_all|]. apply wpk_ret.
  unfold done_job, settled. rewrite decide_True by (by left). by do 2 (eapply closed_same; [eassumption|]).
Qed.

Lemma wpk_nack e (skip : bool) (b : Z) m (Q : keyspace → result string (result error string) → Prop) :
  fit m → - 2 ^ 52 ≤ b ≤ 2 ^ 52 →
  (∀ m' out, wf_store m' → texts m' → (skip = true → out = "dead") → out = "dead" ∨ out = "retry" →
     settled out q jid m' → Q m' (Ok (Ok out))) →
  wpk (call (Nack (clk 1%nat) q jid (workerID sv) e b skip)) Q m.
Proof.
  intros [Hm Ht _ Hf Hd Ha [mx Hmx]] Hb HQ. apply wpk_call. eapply wp_mono.
  { apply (wp_also texts); [apply texts_Nack|done|].
    by apply (wp_Nack_closed q jid (workerID sv) m Hm Hq Hid (clk 1%nat) e b skip mx (wf_clock_time _ (Hclk 1%nat))). }
  cbv beta. intros m' r ((out & -> & Hm' & Hs & Hout) & Ht'). apply HQ; [done|done|done|tauto|].
  unfold settled. destruct Hout as [(-> & Hcl & Hin)|(-> & Hcl & Hin)];
    rewrite decide_False by (by intros [?|?]); by rewrite ?decide_True, ?decide_False by done.
Qed.

Lemma wpk_reschedule d outcome m : fit m → in_int64 d → outcome = "rescheduled" ∨ outcome = "rate_limited" →
  wpk (call (RescheduleJob q jid (workerID sv) (clk 1%nat + d)) ;; mret outcome) done_job m.
Proof.
  intros Hfit Hd Hout. apply wpk_bind, wpk_call. eapply wp_mono.
  { apply wp_Resched_closed; [apply Hfit|done|done|eauto with winter]. }
  cbv beta. intros m' r (-> & _ & Hcl & Hin). cbv iota. apply wpk_ret. unfold done_job, settled.
  rewrite (decide_False (P := outcome = "completed" ∨ _)) by (by destruct Hout as [->| ->]; intros [?|?]).
  by rewrite !decide_False by (by destruct Hout as [->| ->]).
Qed.

Lemma wpk_settle_failure err m : fit m → workflow_ok → in_int64 (IsReschedule err).1 →
  wpk (settle_failure huge sv clk rec err) done_job m.
Proof.
  intros Hfit Hw Hd. unfold settle_failure. destruct (IsReschedule err) as [delay []].
  { apply wpk_reschedule; [done|done|by left]. }
  destruct (IsCancel err) as [reason []].
  { apply wpk_bind, wpk_call. eapply wp_mono; [apply wp_Cancel_closed; [apply Hfit|done|done]|].
    cbv beta. intros m' r (-> & _ & Hcl). cbv iota. apply wpk_ret.
    unfold done_job, settled. by rewrite decide_True by (by right). }
  apply wpk_bind, wpk_nack; [done|apply backoff_ms_range|]. intros m1 out Hm1 Ht1 _ Hout Hs. cbv iota.
  case_decide as Hdead; (apply wpk_bind, wpk_fireHooks; [apply quiet_all|]); [|by apply wpk_ret].
  subst out. apply wpk_bind. eapply wpk_mono; [by apply wpk_failed_event|]. cbv beta. intros m2 r (-> & Hs2).
  cbv iota. apply wpk_ret. unfold done_job, settled in *.
  rewrite decide_False in Hs |- * by (by intros [?|?]). rewrite decide_True in Hs |- * by done.
  destruct Hs as [Hcl Hin]. rewrite (dead_same _ _ _ _ Hs2). split; [by eapply closed_same|done].
Qed.

Lemma wpk_run_job handler m : fair (wrap_all (middleware sv) handler) → fit m → workflow_ok →
  wpk (run_job huge sv clk newID rec handler) done_job m.
Proof.
  intros Hfair Hfit Hw. unfold run_job. apply wpk_bind, wpk_fireHooks; [apply quiet_all|].
  apply wpk_defer, wpk_bind, wpk_inflight. cbv iota. apply wpk_bind, wpk_run_handler. intros s <-.
  destruct (Hfair (raw_job rec) s Hfit) as [Hfit' Hret].
  destruct (wrap_all _ _ _ _) as [s2 [rj' [[err|]|v]]]; cbn [fst snd] in *.
  - by apply wpk_settle_failure.
  - by apply wpk_settle_success.
  - done.
Qed.

(** *** A result *)

(** A job that returned a result is completed and the result is stored. *)
Definition completed_with (data : string) (m : keyspace) (r : result string string) : Prop :=
  r = Ok "completed" ∧ wf_store m ∧ closed "completed" q jid m ∧ str_at m (resultKey jid) = Some data.

Lemma wpk_settle_result rj m : wf_store m → WorkflowID rec = "" →
  can_incr m (statsKey q) "completed" → rResult rj ≠ "" →
  wpk (settle_success sv clk newID rec rj) (completed_with (rResult rj)) m.
Proof.
  intros Hm Hnowf Hc Hres. unfold settle_success. apply wpk_bind, wpk_call.
  eapply wp_mono; [by apply wp_Ack_closed|]. cbv beta. intros m1 r (-> & Hm1 & Hcl). cbv iota.
  apply wpk_bind. rewrite decide_True by (destruct (rResult rj); [done|cbn; lia]).
  apply wpk_bind, wpk_call. unfold SetResult. apply wp_bind, wp_plain, wp_Run, wp_SET.
  { unfold expiration. intros t. case_decide; [|done]. intros [= <-]. lia. }
  cbv beta iota. apply wp_ret, wpk_ret. cbv iota. apply wpk_bind.
  rewrite decide_False by (intros Hne; by apply Hne). apply wpk_ret. cbv iota.
  apply wpk_bind, wpk_fireHooks; [apply quiet_all|]. apply wpk_ret. destruct Hcl as (H1' & H2' & H3').
  unfold completed_with, closed. split_and!; [done|by apply (wf_store_put m1 (KResult jid))|by ks_simp..].
Qed.

Lemma wpk_process_result handler rj m : handlers sv !! Kind rec = Some handler →
  rateLimits sv !! Kind rec = None → wf_store m → WorkflowID rec = "" → can_incr m (statsKey q) "completed" →
  (∀ s, wrap_all (middleware sv) handler (raw_job rec) s = (s, (rj, Returned None))) → rResult rj ≠ "" →
  wpk (processJob huge sv clk newID rec) (completed_with (rResult rj)) m.
Proof.
  intros Hh Hr Hm Hnowf Hc Hret Hres. unfold processJob, rate_delay. rewrite Hh, Hr. apply wpk_bind, wpk_ret. cbv iota.
  unfold run_job. apply wpk_bind, wpk_fireHooks; [apply quiet_all|]. apply wpk_defer, wpk_bind, wpk_inflight.
  cbv iota. apply wpk_bind, wpk_run_handler. intros s <-. rewrite Hret. cbn [fst snd]. by apply wpk_settle_result.
Qed.

(** Saving a bucket changes nothing the job needs. *)
Lemma fit_bucket kind tokens last m : fit m → fit (refill_ks kind tokens last m).
Proof.
  intros [Hm Ht Hc Hf Hd Ha Hr]. split; [by apply wf_save_bucket|..|].
  - intros id t Hw E. apply (Ht id t Hw). rewrite <- E. unfold refill_ks.
    apply str_at_ext. symmetry. apply lookup_put_ne. by apply (render_ne (KRate kind) (KWorkflow id)).
  - by eapply can_incr_frame; [|exact Hc]; unfold refill_ks; ks_simp.
  - by eapply can_incr_frame; [|exact Hf]; unfold refill_ks; ks_simp.
  - by eapply can_incr_frame; [|exact Hd]; unfold refill_ks; ks_simp.
  - by eapply can_incr_frame; [|exact Ha]; unfold refill_ks; ks_simp.
  - unfold max_retries, refill_ks in *. by ks_simp.
Qed.

(** *** Panics under [Recover] *)

Definition returns (_ : world) (r : result string string) : Prop := ∃ out, r = Ok out.

Lemma returns_fireHooks kind hooks event Q (w : world) : Forall quiet hooks →
  (∀ w', Q w' (Ok tt)) → wpw (fireHooks kind hooks event) Q w.
Proof.
  intros Hh HQ. apply wpw_fireHooks. intros w' es p Hf _. destruct Hf as [|before fn after s v -> Hv]; [apply HQ|].
  rewrite Forall_app, Forall_cons in Hh. destruct Hh as (_ & Hfn & _). destruct (Hfn event s). congruence.
Qed.

Lemma returns_settle_success rj w : wpw (settle_success sv clk newID rec rj) returns w.
Proof.
  unfold settle_success. apply wpw_bind, wpw_call. intros w1 [ok|e] _; [|by eexists].
  do 2 (apply wpw_bind, wpw_maybe; intros ? _). apply wpw_bind, returns_fireHooks; [apply quiet_all|].
  intros w2. by eexists.
Qed.

Lemma returns_settle_failure err w : wpw (settle_failure huge sv clk rec err) returns w.
Proof.
  unfold settle_failure. destruct (IsReschedule err) as [delay []].
  { apply wpw_bind, wpw_call. intros w1 r _. by eexists. }
  destruct (IsCancel err) as [reason []].
  { apply wpw_bind, wpw_call. intros w1 r _. by eexists. }
  apply wpw_bind, wpw_call. intros w1 [result|e] _; [|by eexists].
  case_decide; (apply wpw_bind, returns_fireHooks; [apply quiet_all|]); intros w2; [|by eexists].
  apply wpw_bind, wpw_maybe. intros w3 _. by eexists.
Qed.

Lemma recovered_handler mw handler (w : world) : middleware sv = Recover :: mw →
  wpw (run_job huge sv clk newID rec handler) returns w.
Proof.
  intros Hmw. unfold run_job. apply wpw_bind, returns_fireHooks; [apply quiet_all|]. intros w1.
  match goal with |- context [defer_delete _ ?b] => set (body := b) end.
  assert (Hb : ∀ w, wpw body returns w).
  { intros w2. unfold body. apply wpw_bind. unfold wpw at 1. cbn [fst snd]. apply wpw_bind.
    unfold wpw at 1. unfold run_handler. cbv zeta. rewrite Hmw.
    change (wrap_all (Recover :: mw) handler) with (Recover (wrap_all mw handler)). unfold Recover.
    destruct (wrap_all mw handler _ _) as [s2 [rj [[err|]|v]]]; cbn [fst snd];
      first [apply returns_settle_failure|apply returns_settle_success]. }
  match goal with |- wpw _ _ ?w2 => specialize (Hb w2); unfold wpw, defer_delete in *; destruct (body w2) end.
  exact Hb.
Qed.

(** Under [Recover] as the first middleware no panic comes through. *)
Lemma recovered_returns mw (w : world) : middleware sv = Recover :: mw →
  returns (processJob huge sv clk newID rec w).1 (processJob huge sv clk newID rec w).2.
Proof.
  intros Hmw. change (wpw (processJob huge sv clk newID rec) returns w).
  assert (Hrun : ∀ handler w, wpw (run_job huge sv clk newID rec handler) returns w)
    by (intros; by apply (recovered_handler mw)).
  unfold processJob. destruct (handlers sv !! Kind rec) as [handler|].
  2: { apply wpw_bind, wpw_call. intros w' r _. by eexists. }
  apply wpw_bind. unfold rate_delay. destruct (rateLimits sv !! Kind rec) as [rl|]; [|apply Hrun].
  apply wpw_bind, wpw_call. intros w1 [res|e] _; [|apply Hrun].
  destruct (Allowed res); [apply Hrun|]. apply wpw_ret, wpw_bind, wpw_call. intros w2 r _. by eexists.
Qed.

(** C13: processing settles the job, a job of a workflow or not.  The network
    executes and answers every request, no other process does anything between
    the server's calls, the hooks neither panic nor touch Redis, and the handler,
    which may use Redis, leaves the counters able to count.  Then, unless the
    handler panics, the job ends in exactly one of six ways: completed or
    cancelled, and in no queue; dead, on the dead list; retried, rescheduled or
    over its rate, in the delayed set.  On each the worker's hold is over: the
    job is neither active nor leased.  With [Recover] as the first middleware no
    panic ends the processing. *)
Theorem processJob_settles (m : keyspace) : workflow_ok →
  (∀ rl, rateLimits sv !! Kind rec = Some rl → safe_int (Max rl) ∧ Millisecond ≤ Per rl ≤ int64_max) →
  (∀ handler, handlers sv !! Kind rec = Some handler → fair (wrap_all (middleware sv) handler)) →
  fit m → wpk (processJob huge sv clk newID rec) (λ m' r,
    done_job m' r ∧ (head (middleware sv) = Some Recover → ∃ out, r = Ok out)) m.
Proof.
  intros Hwf Hrate Hfair Hfit. enough (Hk : wpk (processJob huge sv clk newID rec) done_job m).
  { intros w Ho Hw. destruct (Hk w Ho Hw) as [Ho' Hd]. split_and!; [done|done|]. intros Hhead.
    destruct (middleware sv) as [|m0 mw] eqn:Hmw; [done|].
    injection Hhead as ->. by apply (recovered_returns mw). }
  unfold processJob. destruct (handlers sv !! Kind rec) as [handler|].
  2: { apply wpk_bind, wpk_nack; [done|lia|]. intros m' out _ _ Hout _ Hs. cbv iota. apply wpk_ret.
       by rewrite Hout in Hs by done. }
  specialize (Hfair handler eq_refl). apply wpk_bind. unfold rate_delay.
  destruct (rateLimits sv !! Kind rec) as [rl|].
  2: { apply wpk_ret. by apply wpk_run_job. }
  destruct (Hrate rl eq_refl) as [Hmax Hper]. apply wpk_bind, wpk_call. eapply wp_mono.
  { apply wp_Allow_frame; [apply Hfit|eauto with winter|done|done]. }
  cbv beta. intros m1 r (Hm1 & Hres). assert (Hfit1 : fit m1).
  { destruct Hm1 as [->|(tokens & last & ->)]; [done|by apply fit_bucket]. }
  destruct r as [res|e]; [|apply wpk_ret; by apply wpk_run_job].
  destruct (Allowed res); [apply wpk_ret; by apply wpk_run_job|]. apply wpk_ret.
  apply wpk_reschedule; [done| |by right]. specialize (Hres res eq_refl).
  unfold in_int64, int64_min, int64_max, Millisecond in *. case_decide; lia.
Qed.
End Settles.
