(* ===== verification/ServerExamples.v ===== *)
(** * ServerExamples: the theorems about the server at work *)
From S2P Require Import Prelude Float Keys Redis Lua MemRedis Keyspace Job Scripts Queue ScriptSpecs QueueSpecs Winter Client Json Workflow WorkflowSpecs RateLimit MemText Examples WorkflowExamples Moves Texts Lifecycle System Programs RacesExamples Cron Recovery Handler Server ServerSpecs SettleSpecs.

Open Scope string_scope.
Open Scope Z_scope.
Open Scope list_scope.

(** ** Sorting *)

Definition not_after (cmp : QueueWeight → QueueWeight → Z) : relation QueueWeight :=
  λ a b, 0 ≤ cmp b a.

#[export] Instance not_after_dec cmp : RelDecision (not_after cmp).
Proof. intros a b. unfold not_after. apply _. Defined.

#[export] Instance merge : SortFunc := λ cmp, merge_sort (not_after cmp).

#[export] Instance merge_laws : SortFuncLaws.
Proof.
  split.
  - intros cmp l. apply merge_sort_Permutation.
  - intros cmp key l Hkey.
    assert (HR : ∀ a b, not_after cmp a b ↔ key a ≤ key b).
    { intros a b. unfold not_after. specialize (Hkey b a). lia. }
    eapply StronglySorted_weaken; [|intros a b; apply (HR a b)].
    apply StronglySorted_merge_sort; [|intros a b; rewrite !HR; lia].
    intros a b c. rewrite !HR. lia.
Qed.

Definition shop : list QueueWeight :=
  Queues [AString "mail"; AInt 1; AString "orders"; AInt 3; AString "ignored"].

Example shop_weighted : buildWeightedQueues shop = ["mail"; "orders"; "orders"; "orders"].
Proof. reflexivity. Qed.

Lemma polling_order_witness : ∃ sorted, sorted ≡ₚ shop ∧ buildStrictQueues shop = Name <$> sorted.
Proof.
  destruct (polling_order shop) as [_ (sorted & Hp & _ & Hs)]. by exists sorted.
Defined.

(** ** One job *)

Definition succeed : HandlerFn (S := mem) := λ rj s, (s, (rj, Returned None)).

(** One worker that knows mails to new users only. *)
Definition mailer : Server (S := mem) :=
  Handle "email:welcome" None succeed
    (newServer {| Concurrency := 0; cfgQueues := shop; StrictPriority := true; cfgCron := [];
                  PollInterval := 0; ShutdownTimeout := 0 |} "w1").

(** Contents without a workflow. *)
Lemma texts_none m : map_Forall (λ k _, match unrender k with Some (KWorkflow _) => False | _ => True end) m →
  texts m.
Proof.
  intros Hm id t Hid Ht. unfold str_at in Ht. destruct (m !! workflowKey id) as [v|] eqn:E; [|done].
  specialize (Hm _ _ E). cbv beta in Hm. change (workflowKey id) with (render (KWorkflow id)) in Hm.
  by rewrite unrender_render in Hm.
Qed.

Lemma s_active_fit : fit welcome (ks s_active).
Proof.
  split; [apply check_store_wf; decide_now|apply texts_none|decide_now..].
  apply map_Forall_to_list. vm_compute. repeat constructor.
Qed.

(** One worker that resizes pictures, with a job of a group of two in hand. *)
Definition resizer : Server (S := mem) := Handle "image:resize" None succeed mailer.

Definition s_resizing : mem := after (Queue.Dequeue noon "images" "w1") s_pair.
Definition resizing : JobRecord :=
  match (Queue.Dequeue noon "images" "w1" s_pair).2 with Ok (Some rec) => rec | _ => welcome end.

Example resizing_step : ID resizing = "job-0" ∧ Kind resizing = sKind resize ∧ WorkflowID resizing = "wf-2".
Proof. vm_compute. by split_and!. Qed.

Lemma s_resizing_fit : fit resizing (ks s_resizing).
Proof.
  assert (Hr : reachable s_resizing).
  { eapply issues_reachable; [|exact s_pair_reachable]. apply issues_Dequeue; decide_now. }
  split; [by apply reachable_typed|apply (sound_texts _ (reachable_sound _ Hr))|decide_now..].
Qed.

Lemma processJob_settles_witness :
  wpk (S := mem) (processJob 0 resizer (λ _, noon) "next" resizing)
    (λ m' r, done_job resizing m' r ∧ (head (middleware resizer) = Some Recover → ∃ out, r = Ok out)) (ks s_resizing).
Proof.
  refine (processJob_settles (S := mem) 0 resizer (λ _, noon) "next" resizing _ _ _ _ (ks s_resizing) _ _ _
    s_resizing_fit).
  - decide_now.
  - decide_now.
  - intros n. decide_now.
  - constructor.
  - right. decide_now.
  - intros rl Hrl. vm_compute in Hrl. discriminate Hrl.
  - intros handler Hh. vm_compute in Hh. injection Hh as <-. intros rj s Hf. split; [exact Hf|exact I].
Defined.

(** The group has counted the job it ran. *)
Example resizing_counted :
  let w := (processJob 0 resizer (λ _, noon) "next" resizing (World s_resizing ∅ [] [])).1 in
  completions (ks (srv w)) "wf-2" = Some 1.
Proof. vm_compute. reflexivity. Qed.

(** ** Rounds *)

Lemma strict_round_first_witness :
  wp (S := mem) (strict_round (λ _, noon) 0 "w1" ["mail"; "default"]) (λ m' r,
    is_Some (zset_at m' (leaseKey "default") !! "job-1")) (ks s_queued).
Proof.
  eapply wp_mono; [apply (strict_round_first (S := mem) (λ _, noon) "w1" ["mail"; "default"])|].
  - apply check_store_wf. decide_now.
  - decide_now.
  - intros n. decide_now.
  - cbv beta. intros m' r [(_ & -> & Hn)|(before & q & after & jid & p & Hq & _ & Hne & Hin & _ & _ & Hl & _)].
    + exfalso. rewrite !Forall_cons in Hn. destruct Hn as (_ & Hn & _). revert Hn. decide_now.
    + assert (Hmem : q ∈ ["mail"; "default"]) by (rewrite Hq; apply elem_of_app; right; left).
      apply elem_of_cons in Hmem as [->|Hmem]; [exfalso; revert Hin; vm_compute; discriminate|].
      apply list_elem_of_singleton in Hmem as ->.
      assert (Hz : zset_at (ks s_queued) (readyKey "default") = {["job-1" := 5]}) by reflexivity.
      rewrite Hz, lookup_singleton_Some in Hin. destruct Hin as [Hj _]. rewrite Hj. exact Hl.
Defined.

Lemma heartbeat_protects_witness :
  wp (S := mem)
    (heartbeat_tick (λ _, noon) false "w1" [("job-1", "default")] ;; RecoverExpiredLeasesAt "default" 100 1700000030999)
    (λ m' r, ∃ ids, r = Ok ids ∧ "job-1" ∉ ids) (ks s_active).
Proof.
  eapply wp_mono;
    [apply (heartbeat_protects (S := mem) (λ _, noon) false "w1" [("job-1", "default")] "default" 100 1700000030999)|].
  - apply check_store_wf. decide_now.
  - decide_now.
  - decide_now.
  - decide_now.
  - decide_now.
  - intros n. decide_now.
  - cbv beta. intros m' r (ids & -> & Hids). exists ids. split; [done|]. apply Hids. by left.
Defined.
