(* ===== verification/Cli.v ===== *)
(** * Cli: the two commands, [cmd/server/main.go] and [cmd/winter/main.go]

    What the commands make of the configuration and of their flags, and what
    they ask of the queue.  The environment, the file and the order in which a
    map is visited are arguments; a command prints rows, which a tabwriter
    aligns.  Connecting, listening and exiting are left out. *)
From S2P Require Import Config Prelude Float Duration Keys Redis Lua Job Queue Json Cron Recovery Winter Client Workflow RateLimit Handler Server.

Open Scope string_scope.
Open Scope Z_scope.
Open Scope list_scope.

(** ** The standalone gRPC server *)

Definition envOr (getenv : string → string) (key fallback : string) : string :=
  if decide (getenv key ≠ "") then getenv key else fallback.

Definition defaultConfig (getenv : string → string) : Config.Config := {|
  Config.Redis := {| Addr := envOr getenv "REDIS_ADDR" "localhost:6379"; Password := ""; DB := 0 |};
  Config.Server := {| GRPCPort := envOr getenv "GRPC_PORT" "50051"; LogLevel := "info" |};
  Config.Queues := ∅;
  Workers := {| HeartbeatInterval := "15s"; StaleThreshold := "60s"; RecoveryInterval := "30s";
                Config.Concurrency := 10 |};
  Scheduler := {| Config.PollInterval := "500ms" |};
  Config.Cron := [] |}.

Inductive slog_level : Type := Debug_ | Info_ | Warn_ | Error_.

Definition log_level (name : string) : slog_level :=
  if decide (name = "debug") then Debug_
  else if decide (name = "warn") then Warn_
  else if decide (name = "error") then Error_
  else Info_.

(** [queues] are the entries of the map in the order of the [range]. *)
Definition queueNamesFromConfig (queues : list (string * QueueConfig)) : list string :=
  if decide (length queues = 0%nat) then ["default"] else queues.*1.

Definition cron_entry (c : CronConfig) : Entry := {|
  eName := ccName c; eSchedule := ccSchedule c; eQueue := ccQueue c; eKind := ccKind c;
  ePayload := ccPayload c |}.

(** What the server runs beside the service: a sweeper and, if there are
    entries, a schedule. *)
Definition main_setup `{CronLib} (queues : list (string * QueueConfig)) (cfg : Config.Config)
    : result error (RecoveryConfig * option Cron.Cron) :=
  let recovery := NewRecovery {|
    Recovery.Queues := queueNamesFromConfig queues;
    Recovery.Interval := Config.ParseDuration (RecoveryInterval (Workers cfg)) (30 * Second);
    Recovery.Limit := 0 |} in
  if decide (0 < length (Config.Cron cfg))%nat then
    match NewCron (cron_entry <$> Config.Cron cfg) 0 with
    | Err err => Err err
    | Ok c => Ok (recovery, Some c)
    end
  else Ok (recovery, None).

(** ** The command line *)

Definition getConfig (load : string → result error Config.Config) (cfgFile redisAddr : string)
    : result error Config.Config :=
  if decide (cfgFile ≠ "") then load cfgFile
  else Ok {|
    Config.Redis := {| Addr := redisAddr; Password := ""; DB := 0 |};
    Config.Server := {| GRPCPort := ""; LogLevel := "" |}; Config.Queues := ∅;
    Workers := {| HeartbeatInterval := ""; StaleThreshold := ""; RecoveryInterval := "";
                  Config.Concurrency := 0 |};
    Scheduler := {| Config.PollInterval := "" |}; Config.Cron := [] |}.

Definition serverCmd (queues : list (string * QueueConfig)) (cfg : Config.Config) : Server.ServerConfig := {|
  Concurrency := Config.Concurrency (Workers cfg);
  cfgQueues :=
    (if decide (0 < length queues)%nat
     then (λ q, {| Name := q.1; Weight := 1 |}) <$> queues
     else [{| Name := "default"; Weight := 1 |}]);
  StrictPriority := false;
  cfgCron := (λ c, {| cName := ccName c; cSchedule := ccSchedule c; cQueue := ccQueue c;
                      cKind := ccKind c; cPayload := ccPayload c |}) <$> Config.Cron cfg;
  PollInterval := Config.ParseDuration (Config.PollInterval (Scheduler cfg)) (500 * Millisecond);
  ShutdownTimeout := 30 * Second |}.

Section Commands.
Context {S : Type} `{Redis.Redis S}.

(** [clk] are the readings of the clock: for the id, for the creation time and
    for the delay. *)
Definition cli_job (clk : nat → Z) (kind queueName payload : string) (delay priority : Z) : JobRecord := {|
  ID := "cli-" +:+ dec (clk 0%nat); Kind := kind; Job.Queue := queueName; Job.Priority := priority;
  State := "pending"; Payload := payload; Attempt := 0; MaxRetries := 3;
  CreatedAt := UnixMilli (clk 1%nat);
  ScheduledAt := if decide (delay > 0) then UnixMilli (clk 2%nat + delay) else 0;
  StartedAt := 0; CompletedAt := 0; LastError := ""; UniqueKey := ""; WorkflowID := "" |}.

Definition enqueueCmd (clk : nat → Z) (kind queueName payload : string) (delay priority : Z)
    : M S error string :=
  if decide (kind = "") then throw (ErrText "--kind is required")
  else
    let job := cli_job clk kind queueName payload delay priority in
    Queue.Enqueue job "" 0 ;;
    mret ("enqueued " +:+ ID job +:+ " (kind=" +:+ kind +:+ " queue=" +:+ queueName +:+ ")").

Definition statusCmd (queueName : string) : M S error (list (string * string)) :=
  stats ← QueueStats queueName;
  let row label name := (label, dec (default 0 (stats !! name))) in
  mret [("Queue", queueName); row "Ready" "ready"; row "Active" "active"; row "Delayed" "delayed";
        row "Dead" "dead"; row "Completed" "completed"; row "Enqueued" "enqueued"].

(** [marshal] is [json.MarshalIndent] of a record. *)
Definition jobsCmd (marshal : JobRecord → string) (jobID : string) : M S error string :=
  rec ← GetJob jobID;
  match rec with
  | None => throw (ErrText ("job " +:+ jobID +:+ " not found"))
  | Some rec => mret (marshal rec)
  end.

(** [if len(errMsg) > 60 { errMsg = errMsg[:60] + "..." }], in bytes. *)
Definition shorten (errMsg : string) : string :=
  if decide (60 < String.length errMsg)%nat then String.substring 0 60 errMsg +:+ "..." else errMsg.

Definition listCmd (queueName : string) : M S error (list (list string)) :=
  records ← ListDead queueName 0 50;
  if decide (length records = 0%nat) then mret [["no dead jobs"]]
  else mret (["ID"; "Kind"; "Attempt"; "Error"] ::
    ((λ rec, [ID rec; Kind rec; dec (Attempt rec); shorten (LastError rec)]) <$> records)).

Definition purgeCmd (queueName : string) : M S error string :=
  purged ← PurgeDead queueName;
  mret ("purged " +:+ dec purged +:+ " dead jobs from " +:+ queueName).

Definition retryCmd (queueName jobID : string) : M S error string :=
  RetryDead queueName jobID ;;
  mret ("retried " +:+ jobID +:+ " from " +:+ queueName +:+ " dead queue").
End Commands.
