(* ===== verification/Connect.v ===== *)
(** * Connect: clients, servers and inspectors from a configuration

    The constructors of [client.go], [server.go], [inspector.go] and
    [internal/queue/queue.go], the client a handler finds in its context
    ([context.go]), and the start of the two commands.  A connection is opaque:
    the client library makes it from its options and pings the server over it,
    which changes nothing there. *)
From S2P Require Import Config Prelude Float Duration Keys Redis Lua Keyspace Job Scripts Queue ScriptSpecs QueueSpecs Places Winter Client Json Workflow Cron RateLimit Recovery Moves Texts Lifecycle System Programs Handler Server Cli.

Open Scope string_scope.
Open Scope Z_scope.
Open Scope list_scope.

(** [winter.RedisConfig], and the options the client library takes. *)
Record RedisConfig : Type := { cAddr : string; cPassword : string; cDB : Z }.
Record Options : Type := { oAddr : string; oPassword : string; oDB : Z }.

(** [context.Context]: the values it carries, the innermost first.  A key is
    compared with its type, so no other package has this one. *)
Inductive ctxKey : Type := clientKey.

#[export] Instance ctxKey_eq_dec : EqDecision ctxKey.
Proof. solve_decision. Defined.

Section Connect.
Context {S Conn : Type} `{Redis.Redis S} (redis_NewClient : Options → Conn).
(* [Close] of a connection that has one *)
Context (closer : Conn → option (result error unit)).

(** [queue.Queue] and [winter.Client] *)
Record QueueHandle : Type := { qRdb : Conn }.
Record Client : Type := { rdb : Conn; queue : QueueHandle }.

Definition New (rdb : Conn) : QueueHandle := {| qRdb := rdb |}.

(** PING: an answer and no effect. *)
Definition Ping : M S string unit := mret tt.

Definition NewClientFromRedis (rdb : Conn) : Client := {| rdb := rdb; queue := New rdb |}.

Definition NewClient (config : RedisConfig) : M S error Client :=
  let rdb := redis_NewClient {| oAddr := cAddr config; oPassword := cPassword config; oDB := cDB config |} in
  wrap "winter: redis ping" (Run Ping) ;;
  mret {| rdb := rdb; queue := New rdb |}.

Definition Close (c : Client) : result error unit :=
  match closer (rdb c) with Some r => r | None => Ok tt end.

(** [Queue] and [Redis] of a client *)
Definition client_queue (c : Client) : QueueHandle := queue c.
Definition client_redis (c : Client) : Conn := rdb c.

(** A server is its client and the record of Server.v. *)
Definition NewServer (redisCfg : RedisConfig) (config : ServerConfig) (worker : string)
    : M S error (Client * Server.Server (S := S)) :=
  client ← NewClient redisCfg;
  mret (client, newServer config worker).

Definition NewServerFromRedis (rdb : Conn) (config : ServerConfig) (worker : string)
    : Client * Server.Server (S := S) :=
  (NewClientFromRedis rdb, newServer config worker).

(** [Inspector]: its client *)
Definition NewInspector (config : RedisConfig) : M S error Client :=
  client ← NewClient config;
  mret client.

Definition NewInspectorFromRedis (rdb : Conn) : Client := NewClientFromRedis rdb.

Definition inspector_close (i : Client) : result error unit := Close i.

(** [wintertest.NewClient]: a client of a fresh in-memory server, which
    [miniredis.RunT] starts at an address. *)
Definition test_NewClient (RunT : string * S) : Client * S :=
  (NewClientFromRedis (redis_NewClient {| oAddr := RunT.1; oPassword := ""; oDB := 0 |}), RunT.2).

(** *** The context of a handler *)

Definition Context_ : Type := list (ctxKey * Client).

Definition withClient (ctx : Context_) (c : Client) : Context_ := (clientKey, c) :: ctx.

(** [ctx.Value(clientKey)]: nil when there is none. *)
Fixpoint ClientFromContext (ctx : Context_) : option Client :=
  match ctx with
  | [] => None
  | (k, c) :: ctx' => if decide (k = clientKey) then Some c else ClientFromContext ctx'
  end.

(** ** The start of the commands *)

Definition of_result {A} (r : result error A) : M S error A := λ s, (s, r).

(** A command that fails prints a message and exits with 1. *)
Definition exit_with {A} (message : string) (c : M S error A) : M S error A :=
  r ← try c;
  match r with
  | Ok a => mret a
  | Err e => throw (Errorf message (error_text e))
  end.

(** [main] of [cmd/server] up to the service: configuration, connection, port,
    sweeper and schedule.  [listen] is [net.Listen]. *)
Definition server_main `{CronLib} (getenv : string → string) (load : string → result error Config.Config)
    (range : gmap string QueueConfig → list (string * QueueConfig)) (listen : string → result error unit)
    (configPath : string) : M S error (slog_level * (RecoveryConfig * option Cron.Cron)) :=
  cfg ← exit_with "failed to load config"
    (if decide (configPath ≠ "") then of_result (load configPath) else mret (defaultConfig getenv));
  let level := log_level (LogLevel (Config.Server cfg)) in
  exit_with "redis connection failed" (plain (Run Ping)) ;;
  exit_with "failed to listen" (of_result (listen (":" +:+ GRPCPort (Config.Server cfg)))) ;;
  setup ← exit_with "cron setup failed" (of_result (main_setup (range (Config.Queues cfg)) cfg));
  mret (level, setup).

(** [connectRedis] of [cmd/winter]. *)
Definition connectRedis (load : string → result error Config.Config) (cfgFile redisAddr : string)
    : M S error (Conn * QueueHandle) :=
  cfg ← exit_with "error" (of_result (getConfig load cfgFile redisAddr));
  let rdb := redis_NewClient {| oAddr := Addr (Config.Redis cfg); oPassword := Password (Config.Redis cfg);
                                oDB := DB (Config.Redis cfg) |} in
  exit_with "redis connection failed" (plain (Run Ping)) ;;
  mret (rdb, New rdb).

(** The server command up to [Start]. *)
Definition serverCmd_server (load : string → result error Config.Config)
    (range : gmap string QueueConfig → list (string * QueueConfig)) (cfgFile redisAddr worker : string)
    : M S error (Client * Server.Server (S := S)) :=
  cfg ← exit_with "error" (of_result (getConfig load cfgFile redisAddr));
  exit_with "failed to create server"
    (NewServer {| cAddr := Addr (Config.Redis cfg); cPassword := Password (Config.Redis cfg);
                  cDB := DB (Config.Redis cfg) |} (serverCmd (range (Config.Queues cfg)) cfg) worker).
End Connect.

(** ** What connecting does *)

Section ConnectSpecs.
Context {S Conn : Type} `{RedisLaws S} (redis_NewClient : Options → Conn).

(** A program that only waits for the network. *)
Definition untouching {E A} (c : M S E A) : Prop :=
  ∀ s, ks (c s).1 = ks s ∧ expires (c s).1 = expires s ∧ clock (c s).1 = clock s.

Lemma untouching_ret {E A} (a : A) : untouching (mret a : M S E A).
Proof. done. Qed.

Lemma untouching_bind {E A B} (c : M S E A) (f : A → M S E B) :
  untouching c → (∀ a, untouching (f a)) → untouching (mbind f c).
Proof.
  intros Hc Hf s. specialize (Hc s). unfold mbind, M_bind. destruct (c s) as [s' [a|e]]; [|done].
  destruct (Hf a s') as (E1 & E2 & E3). cbn in Hc. by rewrite E1, E2, E3.
Qed.

Lemma untouching_try {E E' A} (c : M S E A) : untouching c → untouching (try c : M S E' (result E A)).
Proof. intros Hc s. specialize (Hc s). unfold try. by destruct (c s). Qed.

Lemma untouching_of_result {A} (r : result error A) : untouching (of_result r : M S error A).
Proof. done. Qed.

Lemma untouching_ping : untouching (Run Ping : M S string unit).
Proof.
  intros s. pose proof (law_transport s) as Ht. unfold Run. destruct (transport s) as [s1 d]. cbn in Ht.
  assert (Hiter : ∀ n, Nat.iter n (λ s, (Ping s).1) s1 = s1) by (intros n; by induction n).
  destruct d; cbn; by rewrite ?Hiter.
Qed.

Lemma untouching_NewClient config : untouching (NewClient redis_NewClient config).
Proof.
  unfold NewClient, wrap. apply untouching_bind; [|by intros].
  apply untouching_bind; [apply untouching_try, untouching_ping|]. by intros [].
Qed.

Lemma untouching_exit_with {A} message (c : M S error A) : untouching c → untouching (exit_with message c).
Proof.
  intros Hc. apply untouching_bind; [by apply untouching_try|]. by intros [].
Qed.

Lemma bind_Ok {E A B} (c : M S E A) (f : A → M S E B) (s : S) b :
  (mbind f c s).2 = Ok b ↔ ∃ a, (c s).2 = Ok a ∧ (f a (c s).1).2 = Ok b.
Proof.
  unfold mbind, M_bind. destruct (c s) as [s' [a|e]]; cbn; [|by split; [|intros (? & ? & _)]].
  split; [by eauto|]. by intros (? & [= <-] & ?).
Qed.

Lemma exit_with_Ok {A} message (c : M S error A) (s : S) a : (exit_with message c s).2 = Ok a ↔ (c s).2 = Ok a.
Proof. unfold exit_with, try, mbind, M_bind. destruct (c s) as [s' [a'|e]]; cbn; done. Qed.

Lemma ping_answered `{!Reliable S} (s : S) : (plain (Run Ping) s).2 = Ok tt.
Proof.
  unfold plain, mbind, M_bind, try, Run. pose proof (reliable s) as Hr.
  destruct (transport s) as [s1 d]. cbn in Hr. by subst d.
Qed.

(** Connecting changes nothing on the server, and gives a client over a
    connection to the configured address or the error of the ping. *)
Theorem NewClient_connects config (s : S) :
  ks (NewClient redis_NewClient config s).1 = ks s ∧
  let conn := redis_NewClient {| oAddr := cAddr config; oPassword := cPassword config; oDB := cDB config |} in
  ((NewClient redis_NewClient config s).2 = Ok (NewClientFromRedis conn) ∨
   ∃ msg, (NewClient redis_NewClient config s).2 = Err (Errorf "winter: redis ping" msg)).
Proof.
  split; [apply untouching_NewClient|]. unfold NewClient, wrap, mbind, M_bind, try.
  destruct (Run Ping s) as [s' [[]|msg]]; [by left|right; by exists msg].
Qed.

(** The handler finds the client it was given last. *)
Lemma ClientFromContext_with (ctx : Context_ (Conn := Conn)) c : ClientFromContext (withClient ctx c) = Some c.
Proof. done. Qed.

(** What a start that succeeds has found. *)
Lemma server_main_found `{CronLib} getenv load range listen path (s : S) level setup :
  (server_main getenv load range listen path s).2 = Ok (level, setup) →
  ∃ cfg, (if decide (path ≠ "") then load path else Ok (defaultConfig getenv)) = Ok cfg ∧
    level = log_level (LogLevel (Config.Server cfg)) ∧
    listen (":" +:+ GRPCPort (Config.Server cfg)) = Ok tt ∧
    main_setup (range (Config.Queues cfg)) cfg = Ok setup.
Proof.
  unfold server_main. rewrite bind_Ok. intros (cfg & Hc%exit_with_Ok & Hrest). exists cfg.
  split; [by revert Hc; case_decide|].
  apply bind_Ok in Hrest as ([] & _ & Hrest). apply bind_Ok in Hrest as ([] & Hl%exit_with_Ok & Hrest).
  apply bind_Ok in Hrest as (st & Hs%exit_with_Ok & [= <- <-]). done.
Qed.

(** The standalone server starts exactly when its configuration loads, the
    server answers, the port is free and the schedule parses; starting it
    changes nothing. *)
Theorem server_main_starts `{CronLib} `{!Reliable S} getenv load range listen path (s : S) :
  let config := if decide (path ≠ "") then load path else Ok (defaultConfig getenv) in
  ks (server_main getenv load range listen path s).1 = ks s ∧
  ∀ level setup, (server_main getenv load range listen path s).2 = Ok (level, setup) ↔
    ∃ cfg, config = Ok cfg ∧ level = log_level (LogLevel (Config.Server cfg)) ∧
      listen (":" +:+ GRPCPort (Config.Server cfg)) = Ok tt ∧
      main_setup (range (Config.Queues cfg)) cfg = Ok setup.
Proof.
  intros config. split.
  - unfold server_main. apply untouching_bind; [apply untouching_exit_with; by case_decide|]. intros cfg.
    apply untouching_bind; [|intros _; apply untouching_bind; [|intros _; apply untouching_bind]].
    + apply untouching_exit_with. unfold plain. apply untouching_bind; [apply untouching_try, untouching_ping|]. by intros [].
    + by apply untouching_exit_with.
    + by apply untouching_exit_with.
    + by intros setup.
  - intros level setup. split; [apply server_main_found|]. intros (cfg & Hc & -> & Hl & Hs).
    unfold server_main. rewrite bind_Ok. setoid_rewrite exit_with_Ok. exists cfg.
    split; [by revert Hc; unfold config; case_decide|].
    apply bind_Ok. exists tt. split; [apply exit_with_Ok, ping_answered|].
    apply bind_Ok. exists tt. split; [by apply exit_with_Ok|].
    apply bind_Ok. exists setup. split; [by apply exit_with_Ok|]. done.
Qed.
End ConnectSpecs.
