(* ===== verification/Commands.v ===== *)
(** * Commands: the command line from its arguments to its exit code, [cmd/winter/main.go]

    The commands with their flags, which cobra parses: a flag that is not given
    has its default.  The command [server] ends here where [Start] begins. *)
From S2P Require Import Config Prelude Float Duration Keys Redis Lua Keyspace Job Scripts Queue ScriptSpecs QueueSpecs FinishSpecs Winter Client Json Workflow Cron RateLimit Recovery Handler Server ServerSpecs SettleSpecs Cli Connect.

Open Scope string_scope.
Open Scope Z_scope.
Open Scope list_scope.

(** A command with the flags and arguments that were given. *)
Inductive invocation : Type :=
  | IServer
  | IEnqueue (queue kind payload : option string) (delay priority : option Z)
  | IStatus (queue : option string)
  | IJobs (args : list string)
  | IDeadList (queue : option string)
  | IDeadPurge (queue : option string)
  | IRetry (queue : option string) (args : list string).

(** The persistent flags. *)
Record root_flags : Type := { fConfig : option string; fRedis : option string }.

Definition queue_flag (f : option string) : string := default "default" f.

Section Commands.
Context {S Conn : Type} `{Redis.Redis S} (redis_NewClient : Options → Conn).
Context (load : string → result error Config.Config).
Context (range : gmap string QueueConfig → list (string * QueueConfig)).
Context (marshal_record : JobRecord → string) (worker : string).
Context (clk : nat → Z).

(** What a command leaves: rows it printed, or a server to start. *)
Inductive ran : Type :=
  | Rows (rows : list (list string))
  | Serves (client : Connect.Client (Conn := Conn)) (sv : Server.Server (S := S)).

(** [cobra.ExactArgs(1)] *)
Definition exact_arg (args : list string) : M S error string :=
  match args with
  | [arg] => mret arg
  | _ => throw (ErrText ("accepts 1 arg(s), received " +:+ dec (Z.of_nat (length args))))
  end.

Definition run_command (flags : root_flags) (inv : invocation) : M S error ran :=
  let cfgFile := default "" (fConfig flags) in
  let redisAddr := default "localhost:6379" (fRedis flags) in
  let connected {A} (c : M S error A) : M S error A :=
    connectRedis redis_NewClient load cfgFile redisAddr ;; c in
  match inv with
  | IServer =>
      '(client, sv) ← serverCmd_server redis_NewClient load range cfgFile redisAddr worker;
      mret (Serves client sv)
  | IEnqueue queue kind payload delay priority =>
      let kind := default "" kind in
      if decide (kind = "") then throw (ErrText "--kind is required")
      else
        line ← connected (enqueueCmd clk kind (queue_flag queue) (default "{}" payload)
          (default 0 delay) (default 5 priority));
        mret (Rows [[line]])
  | IStatus queue =>
      rows ← connected (statusCmd (queue_flag queue));
      mret (Rows ((λ r, [r.1; r.2]) <$> rows))
  | IJobs args =>
      jobID ← exact_arg args;
      text ← connected (jobsCmd marshal_record jobID);
      mret (Rows [[text]])
  | IDeadList queue =>
      rows ← connected (listCmd (queue_flag queue));
      mret (Rows rows)
  | IDeadPurge queue =>
      line ← connected (purgeCmd (queue_flag queue));
      mret (Rows [[line]])
  | IRetry queue args =>
      jobID ← exact_arg args;
      line ← connected (retryCmd (queue_flag queue) jobID);
      mret (Rows [[line]])
  end.

(** [main]: the exit code, with what the command left. *)
Definition main_winter (flags : root_flags) (inv : invocation) : M S error (Z * option ran) :=
  r ← try (run_command flags inv);
  mret (match r with Ok a => (0, Some a) | Err _ => (1, None) end).
End Commands.

Section CommandSpecs.
Context {S Conn : Type} `{RedisLaws S} `{!Reliable S} `{LuaFloatLaws} `{Json WfRecord} (redis_NewClient : Options → Conn).
Context (load : string → result error Config.Config).
Context (range : gmap string QueueConfig → list (string * QueueConfig)).
Context (marshal_record : JobRecord → string) (worker : string) (huge : Z).

Lemma run_server_found clk flags (s : S) client sv :
  (run_command redis_NewClient load range marshal_record worker clk flags IServer s).2 = Ok (Serves client sv) →
  ∃ config, sv = newServer config worker.
Proof.
  cbn [run_command]. intros E. apply bind_Ok in E as ([c sv'] & E & [= -> ->]).
  apply bind_Ok in E as (cfg & _ & E%exit_with_Ok). apply bind_Ok in E as (c' & _ & [= _ <-]). by eexists.
Qed.

(** C30: the server that [winter server] starts buries every job.  It has no
    handlers, so a job it takes, of whatever kind and however many attempts are
    left, is put on the dead letter list at once, for want of a handler. *)
Theorem winter_server_buries clk flags (s : S) client sv clk' newID rec m :
  (run_command redis_NewClient load range marshal_record worker clk flags IServer s).2 = Ok (Serves client sv) →
  wf_queue (Job.Queue rec) → wf_id (ID rec) → (∀ n, wf_clock (clk' n)) → fit rec m →
  wpk (S := S) (processJob huge sv clk' newID rec) (λ m' r,
    r = Ok "dead" ∧ closed "dead" (Job.Queue rec) (ID rec) m' ∧ ID rec ∈ list_at m' (deadKey (Job.Queue rec))) m.
Proof.
  intros [config ->]%run_server_found Hq Hid Hclk Hfit. unfold processJob. cbn [handlers newServer].
  rewrite lookup_empty. apply wpk_bind, wpk_nack; [done..|lia|].
  intros m' out _ _ Hout _ Hs. rewrite Hout in * by done. cbv iota. apply wpk_ret.
  unfold settled in Hs. rewrite decide_False in Hs by (by intros [?|?]).
  by rewrite decide_True in Hs.
Qed.
End CommandSpecs.
