(* ===== verification/ServerPrograms.v ===== *)
(** * ServerPrograms: the servers are requests too

    The worker, its loops, the sweeper, the schedule, the gRPC service and the
    commands, from connecting to the end; and the list of the entry points with
    the theorem that none of them leaves the reachable states. *)
From S2P Require Import Config Inspector Client Grpc Prelude Float Keys Redis Lua Keyspace Job Scripts Queue ScriptSpecs QueueSpecs FinishSpecs SweepSpecs Places Winter Json Workflow WorkflowSpecs RateLimit RateLimitSpecs Cron CronSpecs Recovery Handler Server ServerSpecs SettleSpecs Moves Texts Lifecycle System Programs Cli Connect Commands.

Open Scope string_scope.
Open Scope Z_scope.
Open Scope list_scope.

(** ** The schedule and the sweeper *)

Section Schedule.
Context {S : Type} `{RedisLaws S} `{LuaFloatLaws} `{JsonLaws WfRecord} `{CronLib} `{Json cronState}.

Lemma issues_seedNextRuns now c : issues (seedNextRuns now c) anything.
Proof.
  unfold seedNextRuns. apply issues_for_each. intros e _. cbv zeta.
  by issues_one (OSeed (eName (entry e)) (marshal {| NextRun := next_ms (Cron.Next (sched e) now) |})).
Qed.

Lemma issues_read_state name : issues (read_state name) anything.
Proof. unfold read_state. repeat issues_step. Qed.

Lemma issues_compareAndSwap name expected new : issues (compareAndSwap name expected new) anything.
Proof. unfold compareAndSwap. by issues_one (OSwap name expected new). Qed.

Lemma wf_cron_job now e state : wf_time now → wf_queue (eQueue e) → wf_record (cron_job now e state).
Proof.
  intros Hnow Hq. unfold wf_record, cron_job.
  cbn [ID Job.Queue Job.Priority MaxRetries ScheduledAt CreatedAt WorkflowID].
  assert (Hc : in_int64 (UnixMilli now)) by (by apply safe_int_in_int64, wf_time_safe).
  assert (Hn : safe_int 5 ∧ safe_int 3 ∧ safe_int 0) by decide_now. destruct Hn as (H5' & H3' & H0').
  assert (Hw : wf_wfid "") by decide_now.
  exact (conj (wf_cron_id _ _) (conj Hq (conj H5' (conj H3' (conj H0' (conj Hc Hw)))))).
Qed.

Lemma issues_tick_entry now e : wf_time now → wf_queue (eQueue (entry e)) →
  issues (tick_entry now e) anything.
Proof.
  intros Hnow Hq. unfold tick_entry. apply (issues_bind _ _ anything); [apply issues_read_state|].
  intros [[raw state]|] _; [|by issues_step]. case_decide; [by issues_step|]. cbv zeta.
  apply (issues_bind _ _ anything); [apply issues_try', issues_compareAndSwap|].
  intros [[]|e'] _; try by issues_step. apply (issues_bind _ _ anything); [|by intros; issues_step].
  apply issues_try', issues_Enqueue; [|done]. split; [by apply wf_cron_job|by left].
Qed.

(** The queues of the parsed entries. *)
Lemma wf_entries es ps : parse_entries es = Ok ps → Forall (λ e, eQueue e = "" ∨ wf_queue (eQueue e)) es →
  Forall (λ e, wf_queue (eQueue (entry e))) ps.
Proof.
  revert ps. induction es as [|e es IH]; cbn [parse_entries]; intros ps Hps Hes; [by injection Hps as <-|].
  apply Forall_cons in Hes as [He Hes]. destruct (Parse _); [|done].
  destruct (parse_entries es) as [ps'|]; [|done]. injection Hps as <-. constructor; [|by apply IH].
  cbn. unfold named_queue. case_decide as Hd; cbn; [decide_now|by destruct He].
Qed.

Lemma issues_tick now c : wf_time now → Forall (λ e, wf_queue (eQueue (entry e))) (entries c) →
  issues (tick now c) anything.
Proof.
  intros Hnow Hc. unfold tick. apply issues_for_each. intros e Hin. apply issues_tick_entry; [done|].
  rewrite Forall_forall in Hc. by apply Hc.
Qed.

Lemma issues_sweep clk stopped cfg : (∀ n, wf_time (clk n)) → Forall wf_queue (Recovery.Queues cfg) →
  safe_int (Recovery.Limit cfg) → issues (sweep clk stopped cfg) anything.
Proof.
  intros Hclk Hqs Hl. unfold sweep. generalize 0%nat.
  induction Hqs as [|q queues Hq _ IH]; intros i; cbn [sweep_queues]; [by issues_step|].
  apply (issues_bind _ _ anything); [by apply issues_try', issues_RecoverExpiredLeases|]. intros [ids|e] _.
  - apply (issues_bind _ _ anything); [apply IH|]. intros rest _. by issues_step.
  - destruct (stopped i); [by issues_step|apply IH].
Qed.

Lemma issues_recovery_Run ticks cfg : Forall (λ t, ∀ n, wf_time (t.1 n)) ticks → Forall wf_queue (Recovery.Queues cfg) →
  safe_int (Recovery.Limit cfg) → issues (recovery_Run ticks cfg) anything.
Proof.
  intros Ht Hq Hl. unfold recovery_Run. apply issues_for_each. intros t Hin.
  apply (issues_bind _ _ anything); [|by intros; issues_step].
  apply issues_sweep; [by apply (proj1 (Forall_forall _ _) Ht)|done|done].
Qed.

Lemma issues_cron_Run now ticks c : Forall wf_time ticks → Forall (λ e, wf_queue (eQueue (entry e))) (entries c) →
  issues (cron_Run now ticks c) anything.
Proof.
  intros Ht Hc. unfold cron_Run. apply (issues_bind _ _ anything); [apply issues_seedNextRuns|]. intros _ _.
  apply issues_for_each. intros t Hin. apply issues_tick; [by apply (proj1 (Forall_forall _ _) Ht)|done].
Qed.
End Schedule.

(** ** The worker *)

Section Worker.
Context {S : Type} `{RedisLaws S} `{LuaFloatLaws} `{JsonLaws WfRecord}.
Context (huge : Z).
#[local] Abbreviation world := (Server.world (S := S)).

(** What others do in between is requests as well. *)
Definition good_turns (w : world) : Prop := Forall (λ turn, ∀ s, reachable s → rtc step s (turn s)) (others w).

Definition wissues {A} (c : M world string A) (Q : A → Prop) : Prop := ∀ w, reachable (srv w) → good_turns w →
  rtc step (srv w) (srv (c w).1) ∧ good_turns (c w).1 ∧ match (c w).2 with Ok a => Q a | Err _ => True end.

Lemma wissues_ret {A} (a : A) (Q : A → Prop) : Q a → wissues (mret a) Q.
Proof. intros HQ w _ Hg. by split_and!. Qed.

Lemma wissues_bind {A B} (c : M world string A) (f : A → M world string B) (P : A → Prop) (Q : B → Prop) :
  wissues c P → (∀ a, P a → wissues (f a) Q) → wissues (mbind f c) Q.
Proof.
  intros Hc Hf w Hw Hg. destruct (Hc w Hw Hg) as (Hr & Hg' & Ha). unfold mbind, M_bind.
  destruct (c w) as [w' [a|e]]; cbn [fst snd] in *; [|done].
  destruct (Hf a Ha w') as (Hr' & Hg'' & Hb); [by eapply reachable_steps|done|].
  split_and!; [by etransitivity|done|done].
Qed.

Lemma meanwhile_steps (w : world) : reachable (srv w) → good_turns w →
  rtc step (srv w) (srv (meanwhile w)) ∧ good_turns (meanwhile w).
Proof.
  intros Hw Hg. unfold meanwhile, good_turns in *. destruct (others w) as [|turn os] eqn:E; [by rewrite E|].
  apply Forall_cons in Hg as [Ht Hg]. cbn. split; [by apply Ht|done].
Qed.

Lemma wissues_call {A} (c : M S error A) (P : A → Prop) :
  issues c P → wissues (call c) (λ r, match r with Ok a => P a | Err _ => True end).
Proof.
  intros Hc w Hw Hg. destruct (meanwhile_steps w Hw Hg) as [Hr Hg'].
  specialize (Hc (srv (meanwhile w)) (reachable_steps _ _ Hw Hr)) as [Hr' Ha]. unfold call. cbv zeta.
  destruct (c (srv (meanwhile w))) as [s' r]. split_and!; [by etransitivity|done|done].
Qed.

Lemma wissues_call' {A} (c : M S error A) : issues c anything → wissues (call c) anything.
Proof.
  intros Hc w Hw Hg. destruct (wissues_call c anything Hc w Hw Hg) as (Hr & Hg' & _).
  split_and!; [done|done|]. by destruct (call c w).2.
Qed.

Lemma wissues_maybe {A} (P : Prop) `{Decision P} (c : M S error A) : (P → issues c anything) →
  wissues (if decide P then call c ;; mret tt else mret tt) anything.
Proof.
  intros Hc. case_decide; [|by apply wissues_ret].
  apply (wissues_bind _ _ anything); [by apply wissues_call', Hc|]. intros _ _. by apply wissues_ret.
Qed.

Lemma wissues_defer {A} id (body : M world string A) Q : wissues body Q → wissues (defer_delete id body) Q.
Proof. intros Hb w Hw Hg. specialize (Hb w Hw Hg). unfold defer_delete. by destruct (body w). Qed.

(** Hooks and handlers that talk to the server through requests only. *)
Definition good_hook (fn : HookFunc (S := S)) : Prop := ∀ ev s, reachable s → rtc step s (fn ev s).1.

Definition good_handler (fn : HandlerFn (S := S)) : Prop := ∀ rj s, reachable s →
  rtc step s (fn rj s).1 ∧
  match (fn rj s).2.2 with Returned (Some err) => in_int64 (IsReschedule err).1 | _ => True end.

Definition good_middleware (mw : Middleware (S := S)) : Prop := ∀ fn, good_handler fn → good_handler (mw fn).

Lemma good_wrap_all mws fn : Forall good_middleware mws → good_handler fn → good_handler (wrap_all mws fn).
Proof. intros Hm Hf. induction Hm as [|mw mws Hmw _ IH]; [done|]. by apply Hmw. Qed.

(** The middleware of the package. *)
Lemma good_Recover : good_middleware Recover.
Proof.
  intros fn Hfn rj s Hs. specialize (Hfn rj s Hs). unfold Recover.
  destruct (fn rj s) as [s' [rj' [err|v]]]; [done|]. cbn. by split; [apply Hfn|].
Qed.

(** A typed handler is as good as the code it calls. *)
Lemma good_typed {T} kind (unmarshal : string → result string T) Work :
  (∀ job s, reachable s → rtc step s (Work job s).1 ∧
     match (Work job s).2.2 with Returned (Some err) => in_int64 (IsReschedule err).1 | _ => True end) →
  good_handler (typed_handler kind unmarshal Work).
Proof.
  intros HW rj s Hs. unfold typed_handler. destruct (unmarshal _); [by apply HW|]. by split.
Qed.

Lemma wissues_fireHooks kind hooks event : Forall good_hook hooks →
  wissues (fireHooks kind hooks event) anything.
Proof.
  intros Hh. unfold fireHooks. induction Hh as [|fn hooks Hfn _ IH]; cbn [for_each]; [by apply wissues_ret|].
  apply (wissues_bind _ _ anything); [|by intros _ _]. intros w Hw Hg. specialize (Hfn event (srv w) Hw).
  destruct (fn event (srv w)) as [s' [v|]]; by split_and!.
Qed.

Context (sv : Server (S := S)).

(** Rates of a millisecond or more, numbers a double holds. *)
Record good_server : Prop := {
  gs_handlers kind fn : handlers sv !! kind = Some fn → good_handler fn;
  gs_middleware : Forall good_middleware (middleware sv);
  gs_hooks : Forall good_hook (onStart sv ++ onComplete sv ++ onError sv ++ onDead sv);
  gs_rates kind rl : rateLimits sv !! kind = Some rl → safe_int (Max rl) ∧ Millisecond ≤ Per rl ≤ int64_max
}.

Context (Hsv : good_server) (clk : nat → Z) (Hclk : ∀ n, wf_clock (clk n)).
Context (newID : string) (HnewID : wf_id newID) (rec : JobRecord) (Hrec : wf_names rec).

Lemma hooks_good : Forall good_hook (onStart sv) ∧ Forall good_hook (onComplete sv) ∧
  Forall good_hook (onError sv) ∧ Forall good_hook (onDead sv).
Proof. pose proof (gs_hooks Hsv) as Hh. rewrite !Forall_app in Hh. tauto. Qed.

Ltac wbind := apply (wissues_bind _ _ anything); [|intros ? _].

Lemma wissues_reschedule d outcome : in_int64 d →
  wissues (A := string)
    (call (RescheduleJob (Job.Queue rec) (ID rec) (workerID sv) (clk 1%nat + d)) ;; mret outcome) anything.
Proof.
  intros Hd. destruct Hrec as (Hid & Hq & _). wbind; [|by apply wissues_ret].
  apply wissues_call', issues_RescheduleJob; [done..|]. by apply wf_clock_delay.
Qed.

Lemma wissues_settle_success rj : wissues (settle_success sv clk newID rec rj) anything.
Proof.
  destruct Hrec as (Hid & Hq & Hw). unfold settle_success. wbind; [by apply wissues_call', issues_Ack|].
  match goal with |- wissues (match ?r with _ => _ end) _ => destruct r end; [|by apply wissues_ret].
  wbind; [apply wissues_maybe; intros _; apply issues_SetResult|].
  wbind; [apply wissues_maybe; intros _; apply issues_OnJobCompleted; [by apply wf_clock_time|done|done]|].
  wbind; [apply wissues_fireHooks, hooks_good|]. by apply wissues_ret.
Qed.

Lemma issues_server_Nack msg (skip : bool) b : - 2 ^ 52 ≤ b ≤ 2 ^ 52 →
  wissues (call (Nack (clk 1%nat) (Job.Queue rec) (ID rec) (workerID sv) msg b skip)) anything.
Proof.
  intros Hb. destruct Hrec as (Hid & Hq & _). apply wissues_call', issues_Nack.
  exact (conj Hq (conj Hid (conj (wf_clock_time _ (Hclk 1%nat)) Hb))).
Qed.

Lemma wissues_settle_failure err : in_int64 (IsReschedule err).1 →
  wissues (settle_failure huge sv clk rec err) anything.
Proof.
  intros Hd. destruct Hrec as (Hid & Hq & Hw). unfold settle_failure.
  destruct (IsReschedule err) as [delay []]; [by apply wissues_reschedule|].
  destruct (IsCancel err) as [reason []].
  { wbind; [by apply wissues_call', issues_CancelJob|]. by apply wissues_ret. }
  cbv zeta. wbind; [by apply issues_server_Nack, backoff_ms_range|].
  match goal with |- wissues (match ?r with _ => _ end) _ => destruct r end; [|by apply wissues_ret].
  case_decide.
  - wbind; [apply wissues_fireHooks, hooks_good|].
    wbind; [apply wissues_maybe; intros _; by apply issues_OnJobFailed|]. by apply wissues_ret.
  - wbind; [apply wissues_fireHooks, hooks_good|]. by apply wissues_ret.
Qed.

Lemma wissues_run_job fn : good_handler fn → wissues (run_job huge sv clk newID rec fn) anything.
Proof.
  intros Hfn. unfold run_job. wbind; [apply wissues_fireHooks, hooks_good|]. apply wissues_defer.
  wbind; [by intros w Hw Hg|].
  apply (wissues_bind _ _ (λ r, match r.2 with Some err => in_int64 (IsReschedule err).1 | None => True end)).
  - intros w Hw Hg. destruct (meanwhile_steps w Hw Hg) as [Hm Hg']. unfold run_handler. cbv zeta.
    destruct (good_wrap_all _ _ (gs_middleware Hsv) Hfn (raw_job rec) (srv (meanwhile w))) as [Hr Hd];
      [by eapply reachable_steps|].
    destruct (wrap_all _ _ _ _) as [s2 [rj' [[err|]|v]]]; (split_and!; [by etransitivity|done|done]).
  - intros [rj [err|]] Hd; [by apply wissues_settle_failure|apply wissues_settle_success].
Qed.

Lemma wissues_processJob : wissues (processJob huge sv clk newID rec) anything.
Proof.
  unfold processJob. destruct (handlers sv !! Kind rec) as [fn|] eqn:Hh.
  2: { wbind; [by apply issues_server_Nack|]. by apply wissues_ret. }
  apply (wissues_bind _ _ (λ r, match r with Some d => in_int64 d | None => True end)).
  - unfold rate_delay. destruct (rateLimits sv !! Kind rec) as [rl|] eqn:Hl; [|by apply wissues_ret].
    destruct (gs_rates Hsv _ _ Hl) as [Hmax Hper].
    eapply wissues_bind; [apply wissues_call, issues_Allow; eauto using wf_clock_time, wf_time_safe|].
    intros [res|e] Hres; [|by apply wissues_ret]. destruct (Allowed res); [by apply wissues_ret|].
    apply wissues_ret. unfold in_int64, int64_min, int64_max, Millisecond in *. case_decide; lia.
  - intros [d|] Hd; [by apply wissues_reschedule|]. apply wissues_run_job. by eapply gs_handlers.
Qed.
End Worker.

(** ** The loops *)

Section Loops.
Context {S : Type} `{RedisLaws S} `{LuaFloatLaws} `{JsonLaws WfRecord}.

(** The jobs a round hands out have the names of jobs. *)
Lemma issues_weighted_round clk i w queues : (∀ n, wf_time (clk n)) → Forall wf_queue queues →
  issues (weighted_round clk i w queues) (Forall wf_names).
Proof.
  intros Hclk Hqs. revert i. induction Hqs as [|q queues Hq _ IH]; intros i; cbn [weighted_round].
  { by apply issues_ret. }
  apply (issues_bind _ _ (λ r, ∀ rec, r = Ok (Some rec) → wf_names rec)).
  { apply issues_try; [|by intros e rec [=]]. eapply issues_mono; [by apply issues_Dequeue|].
    cbv beta. intros r Hr rec [= ->]. by apply Hr. }
  intros r Hr. eapply issues_bind; [apply IH|]. intros rest Hrest. apply issues_ret.
  destruct r as [[rec|]|e]; [|done..]. constructor; [by apply Hr|done].
Qed.

Lemma issues_strict_round clk i w queues : (∀ n, wf_time (clk n)) → Forall wf_queue queues →
  issues (strict_round clk i w queues) (λ r, ∀ rec, r = Some rec → wf_names rec).
Proof.
  intros Hclk Hqs. revert i. induction Hqs as [|q queues Hq _ IH]; intros i; cbn [strict_round].
  { by apply issues_ret. }
  apply (issues_bind _ _ (λ r, ∀ rec, r = Ok (Some rec) → wf_names rec)).
  { apply issues_try; [|by intros e rec [=]]. eapply issues_mono; [by apply issues_Dequeue|].
    cbv beta. intros r Hr rec [= ->]. by apply Hr. }
  intros r Hr. destruct r as [[rec|]|e]; [|apply IH..]. apply issues_ret. intros rec' [= <-]. by apply Hr.
Qed.

Lemma issues_heartbeat_tick clk stopped w jobs : (∀ n, wf_time (clk n + DefaultLeaseDuration)) →
  Forall (λ job, wf_id job.1 ∧ wf_queue job.2) jobs → issues (heartbeat_tick clk stopped w jobs) anything.
Proof.
  intros Hclk Hjobs. unfold heartbeat_tick.
  apply (issues_bind _ _ anything); [apply issues_try', issues_Heartbeat|]. intros beat _.
  assert (Hext : issues (E := error) (for_each_i 1 jobs (λ i job,
    try (E := error) (ExtendLease (clk i) job.2 job.1 DefaultLeaseDuration) ;; mret tt)) anything);
    [|destruct beat, stopped; [exact Hext..|by issues_step|exact Hext]].
  apply issues_for_each_i. intros n job Hin. rewrite Forall_forall in Hjobs. destruct (Hjobs job Hin).
  apply (issues_bind _ _ anything); [by apply issues_try', issues_ExtendLease|]. intros. by issues_step.
Qed.

Lemma issues_promote_tick clk queues : (∀ n, wf_time (clk n)) → Forall (λ qw, wf_queue (Server.Name qw)) queues →
  issues (promote_tick clk queues) anything.
Proof.
  intros Hclk Hqs. unfold promote_tick. apply issues_for_each_i. intros n qw Hin.
  rewrite Forall_forall in Hqs. apply (issues_bind _ _ anything); [|by intros; issues_step].
  apply issues_try', issues_Promote; [by apply Hqs|done|decide_now].
Qed.

Lemma issues_Start_beat now (sv : Server (S := S)) : issues (Start_beat now sv) anything.
Proof.
  unfold Start_beat. apply (issues_bind _ _ anything); [apply issues_try', issues_Heartbeat|].
  intros. by issues_step.
Qed.

Lemma issues_Start_shutdown (sv : Server (S := S)) : issues (Start_shutdown sv) anything.
Proof.
  unfold Start_shutdown. apply (issues_bind _ _ anything); [apply issues_try', issues_DeregisterWorker|].
  intros. by issues_step.
Qed.
End Loops.

(** ** The gRPC service *)

Section Service.
Context {S : Type} `{RedisLaws S} `{LuaFloatLaws} `{JsonLaws WfRecord} (sha256_hex : string → string).

Lemma issues_internal {A} context (c : M S error A) (Q : A → Prop) : issues c Q → issues (internal context c) Q.
Proof.
  intros Hc. unfold internal. apply (issues_bind _ _ (λ r, match r with Ok a => Q a | Err _ => True end)).
  - by apply issues_try.
  - intros [a|e] Ha; [by apply issues_ret|apply issues_throw].
Qed.

Lemma issues_grpc_Enqueue id now req :
  wf_record (request_job id now req) →
  safe_int (unique_slot (request_unique sha256_hex req).1 (request_unique sha256_hex req).2).2 →
  issues (Grpc.Enqueue sha256_hex id now req) anything.
Proof.
  intros Hrec Httl. unfold Grpc.Enqueue. case_decide; [apply issues_throw|].
  destruct (request_unique sha256_hex req) as [u p]. apply (issues_bind _ _ anything).
  - apply issues_try', issues_Enqueue; [|done]. split; [done|by left].
  - intros [a|e] _; [by issues_step|]. case_decide; apply issues_throw.
Qed.

Lemma issues_poll rounds i clk cancelled deadline q w : wf_queue q → (∀ n, wf_time (clk n)) →
  issues (poll rounds i clk cancelled deadline q w) anything.
Proof.
  intros Hq Hclk. revert i. induction rounds as [|rounds IH]; intros i; cbn [poll]; [by issues_step|].
  eapply issues_bind; [by apply issues_internal, issues_Dequeue|]. intros [rec|] _; [by issues_step|].
  case_decide; [by issues_step|]. destruct (cancelled i); [apply issues_throw|apply IH].
Qed.

Lemma issues_grpc_Dequeue now clk cancelled q w t : wf_queue q → (∀ n, wf_time (clk n)) →
  issues (Grpc.Dequeue now clk cancelled q w t) anything.
Proof.
  intros Hq Hclk. unfold Grpc.Dequeue. do 2 (case_decide; [apply issues_throw|]). by apply issues_poll.
Qed.

Lemma issues_grpc_Ack now j q w : wf_queue q → wf_id j → issues (Grpc.Ack now j q w) anything.
Proof. intros. unfold Grpc.Ack. case_decide; [apply issues_throw|]. by apply issues_internal, issues_Ack. Qed.

Lemma issues_grpc_Nack now j q w e skip : wf_queue q → wf_id j → wf_time now →
  issues (Grpc.Nack now j q w e skip) anything.
Proof.
  intros Hq Hj Hnow. unfold Grpc.Nack. case_decide; [apply issues_throw|]. cbv zeta.
  apply issues_internal, issues_Nack. assert (Hb : - 2 ^ 52 ≤ Z.quot Second Millisecond ≤ 2 ^ 52) by decide_now.
  exact (conj Hq (conj Hj (conj Hnow Hb))).
Qed.

Lemma issues_grpc_Heartbeat now w : issues (Grpc.Heartbeat now w) anything.
Proof. unfold Grpc.Heartbeat. case_decide; [apply issues_throw|]. by apply issues_internal, issues_Heartbeat. Qed.

Lemma issues_grpc_GetJob j : issues (Grpc.GetJob j) anything.
Proof.
  unfold Grpc.GetJob. case_decide; [apply issues_throw|].
  eapply issues_bind; [apply issues_internal, issues_GetJob|]. intros [rec|] _; [by issues_step|apply issues_throw].
Qed.

Lemma issues_grpc_QueueStats q : issues (Grpc.QueueStats q) anything.
Proof.
  unfold Grpc.QueueStats. case_decide; [apply issues_throw|].
  eapply issues_bind; [apply issues_internal, issues_QueueStats|]. intros stats _. by issues_step.
Qed.
End Service.

(** ** The commands *)

Section Commands.
Context {S : Type} `{RedisLaws S} `{LuaFloatLaws} `{JsonLaws WfRecord}.

Lemma issues_enqueueCmd clk kind q payload delay priority : wf_queue q → safe_int priority →
  wf_time (clk 1%nat) → wf_time (clk 2%nat + delay) →
  issues (enqueueCmd clk kind q payload delay priority) anything.
Proof.
  intros Hq Hp Hnow Hat. unfold enqueueCmd. case_decide; [apply issues_throw|]. cbv zeta.
  apply (issues_bind _ _ anything); [|by intros; issues_step].
  assert (Hs : safe_int (ScheduledAt (cli_job clk kind q payload delay priority))).
  { cbn. case_decide; [by apply wf_time_safe|decide_now]. }
  assert (Hc : in_int64 (UnixMilli (clk 1%nat))) by (by apply safe_int_in_int64, wf_time_safe).
  assert (H3' : safe_int 3) by decide_now. assert (Hw : wf_wfid "") by decide_now.
  apply issues_Enqueue; [|decide_now]. split; [|by left].
  exact (conj (wf_id_number _ _) (conj Hq (conj Hp (conj H3' (conj Hs (conj Hc Hw)))))).
Qed.

Lemma issues_statusCmd q : issues (statusCmd q) anything.
Proof.
  unfold statusCmd. apply (issues_bind _ _ anything); [apply issues_QueueStats|]. intros. by issues_step.
Qed.

Lemma issues_jobsCmd marshal j : issues (jobsCmd marshal j) anything.
Proof.
  unfold jobsCmd. apply (issues_bind _ _ anything); [apply issues_GetJob|].
  intros [rec|] _; [by issues_step|apply issues_throw].
Qed.

Lemma issues_listCmd q : issues (listCmd q) anything.
Proof.
  unfold listCmd. apply (issues_bind _ _ anything); [apply issues_ListDead|].
  intros. case_decide; by issues_step.
Qed.

Lemma issues_purgeCmd q : wf_queue q → issues (purgeCmd q) anything.
Proof.
  intros. unfold purgeCmd. apply (issues_bind _ _ anything); [by apply issues_PurgeDead|]. intros. by issues_step.
Qed.

Lemma issues_retryCmd q j : wf_queue q → wf_id j → issues (retryCmd q j) anything.
Proof.
  intros. unfold retryCmd. apply (issues_bind _ _ anything); [by apply issues_RetryDead|]. intros. by issues_step.
Qed.

(** *** Connections and the processes of [cmd/] *)

Lemma issues_of_result {A} (r : result error A) : issues (of_result r : M S error A) anything.
Proof. destruct r as [a|e]; [by apply (issues_ret a)|by apply (issues_throw e)]. Qed.

Lemma issues_exit_with {A} message (c : M S error A) : issues c anything → issues (exit_with message c) anything.
Proof.
  intros Hc. unfold exit_with. apply (issues_bind _ _ anything); [by apply issues_try'|]. intros [a|e] _; issues_step.
Qed.

Context {Conn : Type} (redis_NewClient : Options → Conn) (load : string → result error Config.Config).
Context (range : gmap string QueueConfig → list (string * QueueConfig)).

Lemma issues_NewClient config : issues (NewClient (S := S) redis_NewClient config) anything.
Proof. unfold NewClient, Ping. by repeat issues_step. Qed.

Lemma issues_NewInspector config : issues (NewInspector (S := S) redis_NewClient config) anything.
Proof. unfold NewInspector, NewClient, Ping. by repeat issues_step. Qed.

Lemma issues_NewServer redisCfg config worker :
  issues (NewServer (S := S) redis_NewClient redisCfg config worker) anything.
Proof. unfold NewServer, NewClient, Ping. by repeat issues_step. Qed.

Lemma issues_connectRedis cfgFile redisAddr : issues (connectRedis (S := S) redis_NewClient load cfgFile redisAddr) anything.
Proof.
  unfold connectRedis, Ping. repeat first [issues_step|apply issues_exit_with|apply issues_of_result]; done.
Qed.

Lemma issues_serverCmd_server cfgFile redisAddr worker :
  issues (serverCmd_server (S := S) redis_NewClient load range cfgFile redisAddr worker) anything.
Proof.
  unfold serverCmd_server.
  repeat first [issues_step|apply issues_exit_with|apply issues_of_result|apply issues_NewServer].
Qed.

Lemma issues_server_main `{CronLib} getenv listen path :
  issues (server_main (S := S) getenv load range listen path) anything.
Proof.
  unfold server_main, Ping. repeat first [issues_step|case_decide|apply issues_exit_with|apply issues_of_result]; done.
Qed.

(** Flags and arguments that can name queues and jobs. *)
Definition wf_invocation (clk : nat → Z) (inv : invocation) : Prop :=
  match inv with
  | IEnqueue queue _ _ delay priority => wf_queue (queue_flag queue) ∧ safe_int (default 5 priority) ∧
      wf_time (clk 1%nat) ∧ wf_time (clk 2%nat + default 0 delay)
  | IDeadPurge queue => wf_queue (queue_flag queue)
  | IRetry queue args => wf_queue (queue_flag queue) ∧ Forall wf_id args
  | _ => True
  end.

Lemma issues_exact_arg args : issues (exact_arg args : M S error string) (λ arg, arg ∈ args).
Proof.
  destruct args as [|arg [|]]; cbn [exact_arg]; [apply issues_throw| |apply issues_throw].
  apply issues_ret. by left.
Qed.

Lemma issues_main_winter marshal worker clk flags inv : wf_invocation clk inv →
  issues (main_winter (S := S) redis_NewClient load range marshal worker clk flags inv) anything.
Proof.
  intros Hinv. unfold main_winter. issues_step; [issues_step|by issues_step].
  pose proof (issues_connectRedis (default "" (fConfig flags)) (default "localhost:6379" (fRedis flags))) as Hc.
  destruct inv as [|queue kind payload delay priority|queue|args|queue|queue|queue args]; cbn [run_command] in *.
  - repeat first [apply issues_serverCmd_server|issues_step].
  - case_decide; [issues_step|]. destruct Hinv as (? & ? & ? & ?).
    repeat first [exact Hc|by apply issues_enqueueCmd|issues_step].
  - repeat first [exact Hc|apply issues_statusCmd|issues_step].
  - repeat first [exact Hc|apply issues_jobsCmd|eapply issues_mono; [apply issues_exact_arg|done]|issues_step].
  - repeat first [exact Hc|apply issues_listCmd|issues_step].
  - repeat first [exact Hc|by apply issues_purgeCmd|issues_step].
  - destruct Hinv as [Hq Hargs]. eapply issues_bind; [apply issues_exact_arg|]. intros arg Harg.
    pose proof (proj1 (Forall_forall _ _) Hargs arg Harg).
    repeat first [exact Hc|by apply issues_retryCmd|issues_step].
Qed.
End Commands.

(** ** Every program *)

Section Programs.
Context {S : Type} `{RedisLaws S} `{LuaFloatLaws} `{JsonLaws WfRecord} `{CronLib} `{Json cronState}.
Context (sha256_hex : string → string) (huge : Z).

(** The entry points of the repository as what they do to the server, with names
    and numbers in range and user code that talks to the server in the same way. *)
Inductive program : (S → S) → Prop :=
  (* client.go, inspector.go *)
  | p_Enqueue now id args opts : wf_call sha256_hex now id args opts →
      program (λ s, (Client.Enqueue sha256_hex now id args opts s).1)
  | p_EnqueueMany now ids tasks opts :
      (∀ records, many_records 0 ids tasks (apply_opts opts defaultOpts) now = Ok records →
         Forall wf_record records) →
      program (λ s, (Client.EnqueueMany now ids tasks opts s).1)
  | p_WaitForResult R (unmarshal : string → result string R) ticks j :
      program (λ s, (WaitForResult unmarshal ticks j s).1)
  | p_NewClient {Conn} (redis_NewClient : Options → Conn) config :
      program (λ s, (NewClient redis_NewClient config s).1)
  | p_NewInspector {Conn} (redis_NewClient : Options → Conn) config :
      program (λ s, (NewInspector redis_NewClient config s).1)
  | p_Dead q offset limit : program (λ s, (DeadPage q offset limit s).1)
  | p_PeekDead q : program (λ s, (Inspector.PeekDead q s).1)
  | p_DeadCount q : program (λ s, (Inspector.DeadCount q s).1)
  | p_JobResult j : program (λ s, (JobResult j s).1)
  | p_Queue q : program (λ s, (Inspector.Queue q s).1)
  | p_Retry q j : wf_queue q → wf_id j → program (λ s, (Retry q j s).1)
  | p_PurgeDead q : wf_queue q → program (λ s, (Inspector.PurgeDead q s).1)
  | p_Pause q : wf_queue q → program (λ s, (Inspector.Pause q s).1)
  | p_Resume q : wf_queue q → program (λ s, (Inspector.Resume q s).1)
  (* workflow.go *)
  | p_Chain now id jobID tasks opts : wf_time now → wf_id jobID →
      (∀ specs, let o := apply_opts opts defaultOpts in tasksToSpecs 0 tasks o = Ok specs →
         wf_workflow (chain_record id (default_queue (Winter.queue o) <$> specs) (Winter.queue o))) →
      program (λ s, (Chain now id jobID tasks opts s).1)
  | p_Group clk id jobIDs tasks opts : (∀ i, wf_time (clk i)) → (∀ i, wf_id (jobIDs i)) →
      (∀ specs, let o := apply_opts opts defaultOpts in tasksToSpecs 0 tasks o = Ok specs →
         wf_workflow (group_record id (default_queue (Winter.queue o) <$> specs) (Winter.queue o))) →
      program (λ s, (Group clk id jobIDs tasks opts s).1)
  | p_Chord clk id jobIDs headers callback opts : (∀ i, wf_time (clk i)) → (∀ i, wf_id (jobIDs i)) →
      (∀ specs payload, let o := apply_opts opts defaultOpts in tasksToSpecs 0 headers o = Ok specs →
         tPayload callback = Ok payload →
         wf_workflow (chord_record id (default_queue (Winter.queue o) <$> specs)
           (default_queue (Winter.queue o) (callback_spec callback payload o)) (Winter.queue o))) →
      program (λ s, (Chord clk id jobIDs headers callback opts s).1)
  (* server.go *)
  | p_processJob sv clk newID rec w : good_server sv → (∀ n, wf_clock (clk n)) → wf_id newID → wf_names rec →
      good_turns w →
      program (λ s, srv (processJob huge sv clk newID rec (set_srv s w)).1)
  | p_weighted clk w queues : (∀ n, wf_time (clk n)) → Forall wf_queue queues →
      program (λ s, (weighted_round clk 0 w queues s).1)
  | p_strict clk w queues : (∀ n, wf_time (clk n)) → Forall wf_queue queues →
      program (λ s, (strict_round clk 0 w queues s).1)
  | p_heartbeat clk stopped w jobs : (∀ n, wf_time (clk n + DefaultLeaseDuration)) →
      Forall (λ job, wf_id job.1 ∧ wf_queue job.2) jobs → program (λ s, (heartbeat_tick clk stopped w jobs s).1)
  | p_promote clk queues : (∀ n, wf_time (clk n)) → Forall (λ qw, wf_queue (Server.Name qw)) queues →
      program (λ s, (promote_tick clk queues s).1)
  | p_beat now sv : program (λ s, (Start_beat now sv s).1)
  | p_shutdown sv : program (λ s, (Start_shutdown sv s).1)
  (* recovery.go, cron.go *)
  | p_sweep clk stopped cfg : (∀ n, wf_time (clk n)) → Forall wf_queue (Recovery.Queues cfg) →
      safe_int (Recovery.Limit cfg) → program (λ s, (sweep clk stopped cfg s).1)
  | p_seed now c : program (λ s, (seedNextRuns now c s).1)
  | p_recovery_Run ticks cfg : Forall (λ t, ∀ n, wf_time (t.1 n)) ticks → Forall wf_queue (Recovery.Queues cfg) →
      safe_int (Recovery.Limit cfg) → program (λ s, (recovery_Run ticks cfg s).1)
  | p_cron_Run now ticks c : Forall wf_time ticks → Forall (λ e, wf_queue (eQueue (entry e))) (entries c) →
      program (λ s, (cron_Run now ticks c s).1)
  | p_tick now c : wf_time now → Forall (λ e, wf_queue (eQueue (entry e))) (entries c) →
      program (λ s, (tick now c s).1)
  (* grpc.go *)
  | p_grpc_Enqueue id now req : wf_record (request_job id now req) →
      safe_int (unique_slot (request_unique sha256_hex req).1 (request_unique sha256_hex req).2).2 →
      program (λ s, (Grpc.Enqueue sha256_hex id now req s).1)
  | p_grpc_Dequeue now clk cancelled q w t : wf_queue q → (∀ n, wf_time (clk n)) →
      program (λ s, (Grpc.Dequeue now clk cancelled q w t s).1)
  | p_grpc_Ack now j q w : wf_queue q → wf_id j → program (λ s, (Grpc.Ack now j q w s).1)
  | p_grpc_Nack now j q w e skip : wf_queue q → wf_id j → wf_time now →
      program (λ s, (Grpc.Nack now j q w e skip s).1)
  | p_grpc_Heartbeat now w : program (λ s, (Grpc.Heartbeat now w s).1)
  | p_grpc_GetJob j : program (λ s, (Grpc.GetJob j s).1)
  | p_grpc_QueueStats q : program (λ s, (Grpc.QueueStats q s).1)
  (* cmd/winter *)
  | p_enqueueCmd clk kind q payload delay priority : wf_queue q → safe_int priority →
      wf_time (clk 1%nat) → wf_time (clk 2%nat + delay) →
      program (λ s, (enqueueCmd clk kind q payload delay priority s).1)
  | p_statusCmd q : program (λ s, (statusCmd q s).1)
  | p_jobsCmd marshal j : program (λ s, (jobsCmd marshal j s).1)
  | p_listCmd q : program (λ s, (listCmd q s).1)
  | p_purgeCmd q : wf_queue q → program (λ s, (purgeCmd q s).1)
  | p_retryCmd q j : wf_queue q → wf_id j → program (λ s, (retryCmd q j s).1)
  | p_NewServer {Conn} (redis_NewClient : Options → Conn) redisCfg config worker :
      program (λ s, (NewServer redis_NewClient redisCfg config worker s).1)
  | p_server_main getenv load range listen path : program (λ s, (server_main getenv load range listen path s).1)
  | p_main_winter {Conn} (redis_NewClient : Options → Conn) load range marshal worker clk flags inv :
      wf_invocation clk inv →
      program (λ s, (main_winter redis_NewClient load range marshal worker clk flags inv s).1).

Lemma issues_inspector_PeekDead q : issues (S := S) (Inspector.PeekDead q) anything.
Proof. eapply issues_bind; [apply issues_PeekDead|]. intros. by apply (issues_ret _ anything). Qed.

Lemma issues_Chain now id jobID tasks opts : wf_time now → wf_id jobID →
  (∀ specs, let o := apply_opts opts defaultOpts in tasksToSpecs 0 tasks o = Ok specs →
     wf_workflow (chain_record id (default_queue (Winter.queue o) <$> specs) (Winter.queue o))) →
  issues (S := S) (Chain now id jobID tasks opts) anything.
Proof.
  intros Hnow Hid Hrec. unfold Chain. case_decide; [apply issues_throw|]. cbv zeta.
  destruct (tasksToSpecs _ _ _) eqn:Hs; [|apply issues_throw]. apply issues_CreateChain; [done|done|by apply Hrec].
Qed.

Lemma issues_Group clk id jobIDs tasks opts : (∀ i, wf_time (clk i)) → (∀ i, wf_id (jobIDs i)) →
  (∀ specs, let o := apply_opts opts defaultOpts in tasksToSpecs 0 tasks o = Ok specs →
     wf_workflow (group_record id (default_queue (Winter.queue o) <$> specs) (Winter.queue o))) →
  issues (S := S) (Group clk id jobIDs tasks opts) anything.
Proof.
  intros Hnow Hid Hrec. unfold Group. case_decide; [apply issues_throw|]. cbv zeta.
  destruct (tasksToSpecs _ _ _) eqn:Hs; [|apply issues_throw]. apply issues_CreateGroup; [done|done|by apply Hrec].
Qed.

Lemma issues_Chord clk id jobIDs headers callback opts : (∀ i, wf_time (clk i)) → (∀ i, wf_id (jobIDs i)) →
  (∀ specs payload, let o := apply_opts opts defaultOpts in tasksToSpecs 0 headers o = Ok specs →
     tPayload callback = Ok payload →
     wf_workflow (chord_record id (default_queue (Winter.queue o) <$> specs)
       (default_queue (Winter.queue o) (callback_spec callback payload o)) (Winter.queue o))) →
  issues (S := S) (Chord clk id jobIDs headers callback opts) anything.
Proof.
  intros Hnow Hid Hrec. unfold Chord. case_decide; [apply issues_throw|]. cbv zeta.
  destruct (tasksToSpecs _ _ _) eqn:Hs; [|apply issues_throw].
  destruct (tPayload callback) eqn:Hp; [|apply issues_throw]. apply issues_CreateChord; [done|done|by apply Hrec].
Qed.

#[local] Hint Resolve issues_Chain issues_Group issues_Chord issues_inspector_PeekDead issues_GetResult issues_NewClient
  issues_NewInspector issues_client_Enqueue issues_client_EnqueueMany issues_WaitForResult issues_RetryDead
  issues_PurgeDead issues_Pause issues_Resume issues_CreateChain issues_CreateGroup issues_CreateChord
  issues_weighted_round issues_strict_round issues_heartbeat_tick issues_promote_tick issues_Start_beat
  issues_Start_shutdown issues_sweep issues_seedNextRuns issues_recovery_Run issues_cron_Run issues_tick
  issues_grpc_Enqueue issues_grpc_Dequeue issues_grpc_Ack issues_grpc_Nack issues_grpc_Heartbeat
  issues_grpc_GetJob issues_grpc_QueueStats issues_enqueueCmd issues_statusCmd issues_jobsCmd issues_listCmd
  issues_purgeCmd issues_retryCmd issues_NewServer issues_server_main issues_main_winter : issues.

(** Everything these entry points do is a sequence of requests.  From any reachable
    state, whatever the network does, the effect of an entry point on the server,
    or of a loop, or of a command, is a sequence of atomic steps of the
    transition system, so it ends in a reachable state again and the invariants
    hold at every step of it.  (The main function of the service is followed up to
    the point where it serves, and [winter server] up to Start, which is the
    system of [Process.v].) *)
Theorem programs_are_requests (f : S → S) s : program f → reachable s →
  rtc step s (f s) ∧ reachable (f s).
Proof.
  intros Hf Hs. assert (Hr : rtc step s (f s)); [|by split; [|by eapply reachable_steps]].
  assert (Hi : ∀ E A (c : M S E A) (Q : A → Prop), issues c Q → rtc step s (c s).1)
    by (intros E A c Q Hc; apply Hc, Hs).
  destruct Hf; try by eapply Hi; eauto 2 with issues.
  - eapply Hi, issues_bind; [apply issues_ListDead|]. intros. by apply (issues_ret _ anything).
  - eapply Hi, issues_bind; [apply issues_QueueStats|]. intros. by apply (issues_ret _ anything).
  - refine (proj1 (wissues_processJob huge sv _ clk _ newID _ rec _ (set_srv s w) Hs _)); assumption.
Qed.
End Programs.
