(* ===== verification/Typed.v ===== *)
(** * Typed: tasks and handlers as Go types

    A Go type that has a [Kind] is a [Task] ([winter.go]); [Handle] and
    [HandleFunc] ([server.go]) register a handler for such a type.  What a client
    enqueues is what the handler of its type gets, and what the handler returns
    is what the client that waits gets. *)
From S2P Require Import Prelude Float Keys Redis Lua Keyspace Job Scripts Queue ScriptSpecs QueueSpecs EnqueueSpecs FinishSpecs SweepSpecs Places Liveness Order Winter Client Json Workflow RateLimit Cron Recovery Handler Server ServerSpecs SettleSpecs.

Open Scope string_scope.
Open Scope Z_scope.
Open Scope list_scope.

(** [Task], and [TaskWithOptions] where the type has options. *)
Class TaskType (T : Type) `{Json T} : Type := {
  taskKind : string;
  taskOptions : option TaskOptions
}.
Arguments taskKind T {_ _}.
Arguments taskOptions T {_ _}.

Definition as_task {T} `{TaskType T} (args : T) : Task := {|
  tKind := taskKind T; tPayload := Ok (marshal args); tOptions := taskOptions T |}.

Section Typed.
Context {S : Type} `{Redis S} `{LuaFloats} `{Json WfRecord}.

(** [HandleFunc[T]]: the kind and the options are those of the type. *)
Definition HandleFunc {T} `{TaskType T} (fn : Handler.Job T → S → S * (rawJob * outcome)) (sv : Server (S := S))
    : Server (S := S) :=
  Handle (taskKind T) (taskOptions T) (typed_handler (taskKind T) unmarshal fn) sv.

(** A handler that sets a result and returns nil. *)
Definition computes {T R} `{Json R} (f : T → R) : Handler.Job T → S → S * (rawJob * outcome) := λ job s,
  match Handler.SetResult (Ok (marshal (f (hArgs job)))) (hRaw job) with
  | (rj, err) => (s, (rj, Returned err))
  end.
End Typed.

Section TypedSpecs.
Context {S : Type} `{RedisLaws S} `{!Reliable S} `{LuaFloatLaws} `{Json WfRecord}.
Context (sha256_hex : string → string) (huge : Z).
Context {T R : Type} `{TaskType T} `{!JsonLaws T} `{JsonLaws R}.

(** A client enqueues a task, a worker takes it and processes it, and the client
    reads the result: the client waits [ticks] ticks at most. *)
Definition round (sv : Server (S := S)) (clk : nat → Z) (id newID : string) (args : T) (opts : list Winter.Option)
    (q : string) (ticks : nat) : M (Server.world (S := S)) string (result error R) :=
  call (Client.Enqueue sha256_hex (clk 0%nat) id (as_task args) opts) ;;
  taken ← call (Queue.Dequeue (clk 1%nat) q (workerID sv));
  match taken with
  | Ok (Some rec) =>
      processJob huge sv (λ n, clk (2 + n)%nat) newID rec ;;
      call (WaitForResult unmarshal ticks id)
  | _ => mret (Err (ErrText "nothing to do"))
  end.

(** The job that the handler sees. *)
Definition seen_job (rec : JobRecord) (args : T) : Handler.Job T := {|
  hID := ID rec; hArgs := args; hKind := Kind rec; hQueue := Job.Queue rec; hPriority := Job.Priority rec;
  hState := "active"; hAttempt := 0; hMaxRetries := MaxRetries rec;
  hCreatedAt := CreatedAt rec * Millisecond; hScheduledAt := ScheduledAt rec * Millisecond;
  hStartedAt := StartedAt rec * Millisecond; hCompletedAt := None; hLastError := ""; hRaw := raw_job rec |}.

Lemma typed_handler_gets (fn : Handler.Job T → S → S * (rawJob * outcome)) call job args s :
  valid_text args → Payload job = marshal args →
  typed_handler (taskKind T) unmarshal fn (raw_job (taken_record call job)) s =
  fn (seen_job (taken_record call job) args) s.
Proof.
  intros Hv Hp. unfold typed_handler. cbn [rPayload raw_job Payload taken_record]. rewrite Hp.
  by rewrite unmarshal_marshal.
Qed.

Lemma wp_WaitForResult ticks id (v : R) m : wf_store m → valid_text v → str_at m (resultKey id) = Some (marshal v) →
  wp (S := S) (WaitForResult unmarshal ticks id) (λ m' r, m' = m ∧ r = Ok v) m.
Proof.
  intros Hm Hv Hs.
  assert (Hget : wp (S := S) (GetResult id) (λ m' r, m' = m ∧ r = Ok (Some (marshal v))) m).
  { unfold GetResult. apply wp_bind, wp_wrap, wp_Run, wp_GET; [by apply (wf_has_type m (KResult id))|].
    rewrite Hs. cbv iota. by apply wp_ret. }
  destruct ticks; cbn [WaitForResult]; (apply wp_bind; eapply wp_mono; [exact Hget|]); cbv beta;
    intros m' r (-> & ->); cbv iota; rewrite unmarshal_marshal by done; by apply wp_ret.
Qed.

Lemma Enqueue_no_unique job u p : u = "" → Queue.Enqueue (S := S) job u p = Queue.Enqueue job "" 0.
Proof. intros ->. done. Qed.

(** What a task becomes in its queue. *)
Definition task_record (now : Z) (id : string) (args : T) (opts : list Winter.Option) : JobRecord :=
  let o := enqueue_opts (as_task args) opts in new_record id (as_task args) (marshal args) (queue o) o now.

Lemma wp_enqueue_task now id args opts m Q : let o := enqueue_opts (as_task args) opts in
  let job := task_record now id args opts in uniquePeriod o ≤ 0 →
  wf_store m → wf_record job → can_incr m (statsKey (Job.Queue job)) "enqueued" →
  Q (enqueue_plain_ks m job) (Ok (client_job job now (scheduledAt o))) →
  wp (S := S) (Client.Enqueue sha256_hex now id (as_task args) opts) Q m.
Proof.
  intros o job Hu Hm Hj Hc HQ. unfold Client.Enqueue. cbn [tPayload as_task]. fold o.
  rewrite (decide_False (P := uniquePeriod o > 0)) by lia. rewrite Enqueue_no_unique by done.
  apply wp_bind, wp_Enqueue_plain; [done..|]. by apply wp_ret.
Qed.

Lemma immediate_task q now id args opts : let o := enqueue_opts (as_task args) opts in
  queue o = q → wf_id id → wf_time now → wf_queue q → safe_int (priority o) → safe_int (task_retries (as_task args)) →
  scheduled_ms o = 0 → immediate q (task_record now id args opts).
Proof.
  intros o <- Hid Hnow Hq Hp Hr Hs. assert (Hs0 : safe_int (scheduled_ms o)) by (rewrite Hs; decide_now).
  split; [by apply wf_new_record|done|done|]. cbn. fold o. lia.
Qed.

(** A loop of enqueues: the records it leaves, from the [i]th on. *)
Definition task_records (clk : nat → Z) (ids : nat → string) (i : nat) (tasks : list (T * list Winter.Option))
    : list JobRecord :=
  imap (λ n t, task_record (clk (i + n)%nat) (ids (i + n)%nat) t.1 t.2) tasks.

Lemma wp_enqueue_tasks clk ids tasks i m Q :
  Forall (λ t, uniquePeriod (enqueue_opts (as_task t.1) t.2) ≤ 0) tasks → wf_store m →
  Forall wf_record (task_records clk ids i tasks) → room (length tasks) (task_records clk ids i tasks) m →
  Q (foldl enqueue_plain_ks m (task_records clk ids i tasks)) (Ok tt) →
  wp (S := S) (for_each_i i tasks (λ i t, Client.Enqueue sha256_hex (clk i) (ids i) (as_task t.1) t.2 ;; mret tt)) Q m.
Proof.
  intros Hu. revert i m. induction Hu as [|t tasks Ht _ IH]; intros i m Hm Hw Hr HQ; cbn [for_each_i]; [by apply wp_ret|].
  unfold task_records in *. cbn [imap] in *. rewrite !Nat.add_0_r in *.
  assert (E : imap ((λ n t, task_record (clk (i + n)%nat) (ids (i + n)%nat) t.1 t.2) ∘ Datatypes.S) tasks =
    imap (λ n t, task_record (clk (Datatypes.S i + n)%nat) (ids (Datatypes.S i + n)%nat) t.1 t.2) tasks).
  { apply imap_ext. intros n t' _. cbn. by rewrite Nat.add_succ_r. }
  rewrite E in *. apply Forall_cons in Hw as [Hw Hws]. cbn [length foldl] in *.
  apply wp_bind, wp_bind, wp_enqueue_task; [done|done|done| |].
  { eapply room_can_incr; [exact Hr|by left]. }
  apply wp_ret, IH; [|done|by apply room_step|done].
  apply wf_plain; [done|done|]. eapply room_can_incr; [exact Hr|by left].
Qed.

(** The only ready job of its queue is taken, and the contents are then these. *)
Lemma wp_take_only q job now w m : wf_queue q → immediate q job → Inv m → m !! pausedKey q = None →
  zset_at m (readyKey q) = ∅ → can_incr m (statsKey q) "enqueued" → wf_time now →
  wp (S := S) (Queue.Dequeue now q w) (λ m' r, r = Ok (Some (taken_record (now, w) job)) ∧ wf_store m' ∧
    (can_incr m (statsKey q) "completed" → can_incr m' (statsKey q) "completed")) (enqueue_plain_ks m job).
Proof.
  intros Hq Hj HI Hp Hz Hc Hnow.
  assert (HI1 : Inv (enqueue_plain_ks m job)) by (by apply (Inv_plain q)).
  pose proof (plain_ready q Hq job Hj m) as Hr. rewrite Hz in Hr.
  apply wp_Dequeue; [by apply inv_wf|done..| |].
  { intros [[? Hn]|Hn]; [by rewrite (plain_paused q Hq job Hj), Hp in Hn|]. rewrite Hr in Hn.
    by apply insert_non_empty in Hn. }
  intros jid p rest _ Hz' Hid. cbv zeta. destruct (zsorted_head _ _ _ _ Hz') as [Hin _].
  rewrite Hr in Hin. apply lookup_insert_Some in Hin as [[<- _]|[_ Hin]]; [|by rewrite lookup_empty in Hin].
  destruct (taken q Hq w (ID job) p rest now _ HI1 Hid Hnow Hz') as (HI2 & _ & _ & _ & Hrec).
  split; [|split; [exact (inv_wf _ HI2)|]].
  - f_equal. etransitivity; [exact Hrec|]. unfold handed. rewrite (plain_hash q Hq job Hj). f_equal.
    by apply (parse_taken (now, w)); [apply Hj|].
  - intros Hcomp.
    assert (Hc1 : can_incr (enqueue_plain_ks m job) (statsKey q) "completed").
    { rewrite (plain_ks q job Hj). destruct Hcomp as (n & Hn & Hrng). exists n. split; [|done].
      rewrite counter_hincr_ne by done. unfold counter in *. ks_simp. exact Hn. }
    eapply can_incr_frame; [|exact Hc1]. unfold dequeue_ks. by ks_simp.
Qed.

(** C26: a task round trips through its type.  A task of a Go type that a client
    enqueues is taken by a worker with the handler of that type, which gets the
    very arguments and sets a result; the job is then completed, and the client
    that waits gets the very result, within the first tick. *)
Theorem request_response sv0 (f : T → R) clk id newID args opts q ticks m :
  let sv := HandleFunc (computes f) sv0 in
  let o := enqueue_opts (as_task args) opts in
  wf_queue q → queue o = q → scheduled_ms o ≤ 0 → uniquePeriod o ≤ 0 →
  wf_record (new_record id (as_task args) (marshal args) q o (clk 0%nat)) →
  (∀ n, wf_clock (clk n)) → valid_text args → valid_text (f args) → marshal (f args) ≠ "" →
  rateLimits sv !! taskKind T = None → middleware sv = [] ∨ middleware sv = [Recover] →
  Forall quiet (onStart sv ++ onComplete sv ++ onError sv ++ onDead sv) →
  Inv m → m !! pausedKey q = None → zset_at m (readyKey q) = ∅ →
  can_incr m (statsKey q) "enqueued" → can_incr m (statsKey q) "completed" →
  wpk (S := S) (round sv clk id newID args opts q ticks)
    (λ m' r, r = Ok (Ok (f args)) ∧ closed "completed" q id m') m.
Proof.
  intros sv o Hq Ho Hsched Huniq Hrec Hclk Hva Hvr Hne Hrl Hmw Hh HI Hp Hz Hce Hcc.
  unfold round. apply wpk_bind, wpk_call.
  set (job := task_record (clk 0%nat) id args opts).
  assert (Hjob : job = new_record id (as_task args) (marshal args) q o (clk 0%nat))
    by (unfold job, task_record; by rewrite <- Ho).
  rewrite <- Hjob in Hrec. assert (Hj : immediate q job) by by split.
  assert (Hqj : Job.Queue job = q) by done.
  apply wp_enqueue_task; [done|by apply inv_wf|done|by fold job; rewrite Hqj|]. fold job o.
  cbv iota. apply wpk_bind, wpk_call.
  eapply wp_mono; [apply (wp_take_only q job (clk 1%nat) (workerID sv) m); [done..|by apply wf_clock_time]|].
  cbv beta. intros m2 r (-> & Hm2 & Hc2). cbv iota. specialize (Hc2 Hcc).
  set (rec := taken_record (clk 1%nat, workerID sv) job).
  pose proof (typed_handler_gets (computes f) (clk 1%nat, workerID sv) job args) as Hget.
  set (rj := (Handler.SetResult (Ok (marshal (f args))) (raw_job rec)).1).
  assert (Hret : ∀ s, wrap_all (middleware sv) (typed_handler (taskKind T) unmarshal (computes f)) (raw_job rec) s =
    (s, (rj, Returned None))).
  { intros s. destruct Hmw as [-> | ->]; cbn [wrap_all foldr]; [by apply Hget|].
    unfold Recover. by rewrite Hget. }
  assert (Hqr : Job.Queue rec = q) by done. rewrite <- Hqr in Hq, Hc2 |- *.
  apply wpk_bind. eapply wpk_mono.
  { apply (wpk_process_result huge sv (λ n, clk (2 + n)%nat) newID rec Hq (proj1 Hrec)) with
      (handler := typed_handler (taskKind T) unmarshal (computes f)) (rj := rj); try done.
    apply lookup_insert_eq. }
  cbv beta. intros m' r (-> & Hm' & Hcl & Hres). cbv iota. apply wpk_call.
  eapply wp_mono; [by apply (wp_WaitForResult ticks id (f args) m')|]. cbv beta. by intros m'' r (-> & ->).
Qed.
End TypedSpecs.
