(* ===== verification/ExamplePrograms.v ===== *)
(** * ExamplePrograms: the programs of [examples/]

    Each program is its client part and the server it builds, up to [Start]
    (Process.v).  [log.Fatal] ends it, so an error ends the definition.  The
    lines the programs print are left out, as are the deferred [Close] and the
    handler of SIGINT: a handler that prints and returns nil is [prints]. *)
From S2P Require Import Config Prelude Float Keys Redis Lua Keyspace Job Scripts Queue ScriptSpecs QueueSpecs EnqueueSpecs FinishSpecs SweepSpecs Places Liveness Order Winter Client Json Workflow Cron RateLimit Recovery Handler Server ServerSpecs SettleSpecs Cli Moves Texts Lifecycle System Programs ServerPrograms Connect Typed.

Open Scope string_scope.
Open Scope Z_scope.
Open Scope list_scope.

(** ** The tasks *)

(* examples/basic *)
Record SendEmail : Type := { To : string; Subject : string; Body : string }.
(* examples/priority *)
Record PriorityTask : Type := { TaskName : string }.
(* examples/workflows *)
Record ProcessOrder : Type := { OrderID : string }.
Record GenerateInvoice : Type := { InvoiceOrderID : string }.
Record SendReceipt : Type := { ReceiptOrderID : string }.
Record Build : Type := { OS : string; Arch : string }.
Record Deploy : Type := { Version : string }.
(* examples/cron *)
Inductive CleanupExpiredSessions : Type := cleanup_expired_sessions.
Record GenerateDailyReport : Type := { DailyReportType : string }.
(* examples/graceful-shutdown *)
Record ProcessReport : Type := { ReportID : string }.
(* examples/multi-queue/tasks *)
Record ProcessPayment : Type := { PaymentID : string; Amount : Z }.
Record SendNotification : Type := { UserID : Z; NotificationMessage : string }.
Record GenerateReport : Type := { ReportType : string }.

Definition payment_options : TaskOptions := {|
  tQueue := "payments"; tMaxRetries := 10; tTimeout := 0;
  tBackoff := Some (exponentialBackoff (500 * Millisecond)); tRateLimit := {| Max := 0; Per := 0 |} |}.
Definition report_options : TaskOptions := {|
  tQueue := "low"; tMaxRetries := 3; tTimeout := 0; tBackoff := None; tRateLimit := {| Max := 0; Per := 0 |} |}.

#[export] Instance send_email `{Json SendEmail} : TaskType SendEmail := {|
  taskKind := "email.send"; taskOptions := None |}.
#[export] Instance priority_task `{Json PriorityTask} : TaskType PriorityTask := {|
  taskKind := "priority.task"; taskOptions := None |}.
#[export] Instance process_order `{Json ProcessOrder} : TaskType ProcessOrder := {|
  taskKind := "order.process"; taskOptions := None |}.
#[export] Instance generate_invoice `{Json GenerateInvoice} : TaskType GenerateInvoice := {|
  taskKind := "invoice.generate"; taskOptions := None |}.
#[export] Instance send_receipt `{Json SendReceipt} : TaskType SendReceipt := {|
  taskKind := "receipt.send"; taskOptions := None |}.
#[export] Instance build `{Json Build} : TaskType Build := {| taskKind := "build"; taskOptions := None |}.
#[export] Instance deploy `{Json Deploy} : TaskType Deploy := {| taskKind := "deploy"; taskOptions := None |}.
#[export] Instance cleanup_sessions `{Json CleanupExpiredSessions} : TaskType CleanupExpiredSessions := {|
  taskKind := "cleanup.sessions"; taskOptions := None |}.
#[export] Instance daily_report `{Json GenerateDailyReport} : TaskType GenerateDailyReport := {|
  taskKind := "report.daily"; taskOptions := None |}.
#[export] Instance process_report `{Json ProcessReport} : TaskType ProcessReport := {|
  taskKind := "report.process"; taskOptions := None |}.
#[export] Instance process_payment `{Json ProcessPayment} : TaskType ProcessPayment := {|
  taskKind := "payment.process"; taskOptions := Some payment_options |}.
#[export] Instance send_notification `{Json SendNotification} : TaskType SendNotification := {|
  taskKind := "notification.send"; taskOptions := None |}.
#[export] Instance generate_report `{Json GenerateReport} : TaskType GenerateReport := {|
  taskKind := "report.generate"; taskOptions := Some report_options |}.

Definition local_redis : RedisConfig := {| cAddr := "localhost:6379"; cPassword := ""; cDB := 0 |}.

(** [ServerConfig] with the fields a program sets. *)
Definition server_config (concurrency : Z) (queues : list QueueWeight) (cron : list CronEntry)
    : Server.ServerConfig := {|
  Concurrency := concurrency; cfgQueues := queues; StrictPriority := false; cfgCron := cron;
  PollInterval := 0; ShutdownTimeout := 0 |}.

(** ** The programs *)

Section Programs.
Context {S Conn : Type} `{Redis.Redis S} `{LuaFloats} `{Json WfRecord} (redis_NewClient : Options → Conn).
Context (sha256_hex : string → string).
Context `{Json SendEmail} `{Json PriorityTask} `{Json ProcessOrder} `{Json GenerateInvoice} `{Json SendReceipt}
  `{Json Build} `{Json Deploy} `{Json CleanupExpiredSessions} `{Json GenerateDailyReport} `{Json ProcessReport}
  `{Json ProcessPayment} `{Json SendNotification} `{Json GenerateReport}.

#[local] Abbreviation program_server := (M S error (Connect.Client (Conn := Conn) * Server.Server (S := S))).

(** A handler that prints a line and returns nil. *)
Definition prints {T} : Handler.Job T → S → S * (rawJob * outcome) := λ job s, (s, (hRaw job, Returned None)).

(** [NewServer], and what the program does to the server before it starts it. *)
Definition serve_with (config : Server.ServerConfig) (worker : string)
    (setup : Server.Server (S := S) → Server.Server (S := S)) : program_server :=
  '(client, sv) ← NewServer redis_NewClient local_redis config worker;
  mret (client, setup sv).

(** *** examples/basic *)

Definition basic_client (clk : nat → Z) (ids : nat → string) : M S error unit :=
  NewClient redis_NewClient local_redis ;;
  Client.Enqueue sha256_hex (clk 0%nat) (ids 0%nat) (as_task {|
    To := "user@example.com"; Subject := "Welcome to Winter"; Body := "Thanks for trying out Winter!" |}) [] ;;
  Client.Enqueue sha256_hex (clk 2%nat) (ids 1%nat) (as_task {|
    To := "user@example.com"; Subject := "Follow up"; Body := "How's it going?" |})
    [Winter.In (clk 1%nat) (10 * Second)] ;;
  mret tt.

Definition basic_server (worker : string) : program_server :=
  serve_with (server_config 5 (Queues [AString "default"; AInt 1]) []) worker
    (λ sv, Use [Recover] (HandleFunc (T := SendEmail) prints sv)).

(** *** examples/priority *)

Definition priority_tasks : list (string * Z) := [
  ("low priority task", 10); ("critical task", 0); ("normal task", 5);
  ("high priority task", 1); ("background task", 20)].

(** A loop of Enqueue, with the options of each task. *)
Definition enqueue_all {T} `{TaskType T} (clk : nat → Z) (ids : nat → string) (tasks : list (T * list Winter.Option))
    : M S error unit :=
  for_each_i 0 tasks (λ i t, Client.Enqueue sha256_hex (clk i) (ids i) (as_task t.1) t.2 ;; mret tt).

Definition priority_client (clk : nat → Z) (ids : nat → string) : M S error unit :=
  NewClient redis_NewClient local_redis ;;
  enqueue_all clk ids ((λ t, ({| TaskName := t.1 |}, [Winter.Priority t.2])) <$> priority_tasks).

Definition priority_server (worker : string) : program_server :=
  serve_with (server_config 1 (Queues [AString "default"; AInt 1]) []) worker
    (HandleFunc (T := PriorityTask) prints).

(** *** examples/workflows *)

(** The ids of the chain, the group and the chord, their jobs' ids and the clock
    readings of each. *)
Definition workflows_client (clk : nat → nat → Z) (wfs : nat → string) (ids : nat → nat → string) : M S error unit :=
  NewClient redis_NewClient local_redis ;;
  Chain (clk 0%nat 0%nat) (wfs 0%nat) (ids 0%nat 0%nat)
    [as_task {| OrderID := "ord-123" |}; as_task {| InvoiceOrderID := "ord-123" |};
     as_task {| ReceiptOrderID := "ord-123" |}] [] ;;
  Group (clk 1%nat) (wfs 1%nat) (ids 1%nat)
    [as_task {| OS := "linux"; Arch := "amd64" |}; as_task {| OS := "darwin"; Arch := "arm64" |};
     as_task {| OS := "windows"; Arch := "amd64" |}] [] ;;
  Chord (clk 2%nat) (wfs 2%nat) (ids 2%nat)
    [as_task {| OS := "linux"; Arch := "amd64" |}; as_task {| OS := "darwin"; Arch := "arm64" |}]
    (as_task {| Version := "1.4.0" |}) [] ;;
  mret tt.

Definition workflows_server (worker : string) : program_server :=
  serve_with (server_config 10 (Queues [AString "default"; AInt 1]) []) worker
    (λ sv, Use [Recover]
      (HandleFunc (T := Deploy) prints (HandleFunc (T := Build) prints (HandleFunc (T := SendReceipt) prints
        (HandleFunc (T := GenerateInvoice) prints (HandleFunc (T := ProcessOrder) prints sv)))))).

(** *** examples/cron *)

Definition cron_entries : list CronEntry := [
  {| cName := "session-cleanup"; cSchedule := "*/1 * * * *"; cKind := "cleanup.sessions";
     cQueue := "maintenance"; cPayload := "" |};
  {| cName := "daily-report"; cSchedule := "0 9 * * *"; cKind := "report.daily"; cQueue := "default";
     cPayload := "{" +:+ quote "report_type" +:+ ":" +:+ quote "daily-summary" +:+ "}" |}].

Definition cron_server (worker : string) : program_server :=
  serve_with (server_config 5 (Queues [AString "default"; AInt 1; AString "maintenance"; AInt 1]) cron_entries) worker
    (λ sv, Use [Recover]
      (HandleFunc (T := GenerateDailyReport) prints (HandleFunc (T := CleanupExpiredSessions) prints sv))).

(** *** examples/graceful-shutdown *)

Definition shutdown_client (now : Z) (id : string) : M S error unit :=
  NewClient redis_NewClient local_redis ;;
  Client.Enqueue sha256_hex now id (as_task {| ReportID := "rpt-001" |}) [] ;;
  mret tt.

(** Its handler takes three seconds, whatever happens to the context. *)
Definition shutdown_server (worker : string) : program_server :=
  serve_with (server_config 1 (Queues [AString "default"; AInt 1]) []) worker
    (λ sv, Use [Recover] (HandleFunc (T := ProcessReport) prints sv)).

(** *** examples/multi-queue *)

Definition producer_client (clk : nat → Z) (ids : nat → string) : M S error unit :=
  NewClient redis_NewClient local_redis ;;
  Client.Enqueue sha256_hex (clk 0%nat) (ids 0%nat) (as_task {| PaymentID := "pay-456"; Amount := 2999 |}) [] ;;
  Client.Enqueue sha256_hex (clk 1%nat) (ids 1%nat)
    (as_task {| UserID := 42; NotificationMessage := "Your order has shipped" |}) [] ;;
  Client.Enqueue sha256_hex (clk 2%nat) (ids 2%nat) (as_task {| ReportType := "monthly-summary" |}) [] ;;
  mret tt.

Definition worker_queues : list QueueWeight :=
  Queues [AString "payments"; AInt 6; AString "default"; AInt 3; AString "low"; AInt 1].

Definition worker_server (worker : string) : program_server :=
  serve_with (server_config 20 worker_queues []) worker
    (λ sv, Use [Recover]
      (HandleFunc (T := GenerateReport) prints (HandleFunc (T := SendNotification) prints
        (HandleFunc (T := ProcessPayment) prints sv)))).
End Programs.

(** ** What they do *)

Section Specs.
Context {S Conn : Type} `{RedisLaws S} `{!Reliable S} (redis_NewClient : Options → Conn).
Context (sha256_hex : string → string).

Lemma wp_NewClient config m Q :
  Q m (Ok (NewClientFromRedis (redis_NewClient {| oAddr := cAddr config; oPassword := cPassword config; oDB := cDB config |}))) →
  wp (S := S) (NewClient redis_NewClient config) Q m.
Proof. intros HQ. unfold NewClient, Ping. apply wp_bind, wp_wrap, wp_Run, wp_ret. cbv iota. by apply wp_ret. Qed.

(** *** examples/priority *)

Section Priority.
Context `{Json PriorityTask}.
Context (clk : nat → Z) (ids : nat → string).

Definition priority_opts : list (PriorityTask * list Winter.Option) :=
  (λ t, ({| TaskName := t.1 |}, [Winter.Priority t.2])) <$> priority_tasks.

Definition priority_records : list JobRecord := task_records clk ids 0 priority_opts.

(** A lower number is handed out earlier, as the program says. *)
Theorem priority_order calls m : (∀ i, wf_id (ids i)) → (∀ i j, ids i = ids j → i = j) → (∀ i, wf_time (clk i)) →
  Inv m → m !! pausedKey "default" = None → zset_at m (readyKey "default") = ∅ →
  room 5 priority_records m → Forall (λ call, wf_time call.1) calls → length calls = 5%nat →
  wp (S := S) (priority_client redis_NewClient sha256_hex clk ids ;;
      map_each calls (λ call, Queue.Dequeue call.1 "default" call.2)) (λ m' r,
    ∃ recs, r = Ok (Some <$> recs) ∧
      Job.Priority <$> recs = [0; 1; 5; 10; 20] ∧
      Payload <$> recs = (λ name, marshal {| TaskName := name |}) <$>
        ["critical task"; "high priority task"; "normal task"; "low priority task"; "background task"]) m.
Proof.
  intros Hid Hinj Hclk HI Hp Hz Hroom Hcalls Hlen.
  assert (Himm : ∀ i name p, safe_int p → immediate "default" (task_record (clk i) (ids i) {| TaskName := name |} [Winter.Priority p])).
  { intros i name p Hp'. apply (immediate_task "default" (clk i) (ids i) {| TaskName := name |} [Winter.Priority p]); try done; decide_now. }
  assert (Hjs : Forall (immediate "default") priority_records) by (repeat constructor; apply Himm; decide_now).
  pose (job i name p := task_record (clk i) (ids i) {| TaskName := name |} [Winter.Priority p]).
  assert (Hsort : merge_sort before priority_records = [job 1%nat "critical task" 0; job 3%nat "high priority task" 1;
    job 2%nat "normal task" 5; job 0%nat "low priority task" 10; job 4%nat "background task" 20]).
  { apply merge_sort_strict; [|by repeat constructor].
    change priority_records with [job 0%nat "low priority task" 10; job 1%nat "critical task" 0;
      job 2%nat "normal task" 5; job 3%nat "high priority task" 1; job 4%nat "background task" 20].
    solve_Permutation. }
  assert (Hnd : NoDup (ID <$> priority_records)).
  { change (NoDup (ids <$> [0; 1; 2; 3; 4]%nat)). apply NoDup_fmap_2; [intros i j; apply Hinj|]. decide_now. }
  unfold priority_client. apply wp_bind, wp_bind, wp_NewClient. cbv iota. unfold enqueue_all.
  apply wp_enqueue_tasks; [by repeat constructor|by apply inv_wf| |done|].
  { eapply Forall_impl; [exact Hjs|]. by intros ? []. }
  cbv iota. eapply wp_mono; [by apply (drain_batch "default" ltac:(decide_now) calls priority_records m)|].
  cbv beta. intros m' r (-> & _). rewrite Hsort.
  destruct calls as [|c1 [|c2 [|c3 [|c4 [|c5 [|]]]]]]; try done. cbn [zip_with].
  exists (zip_with taken_record [c1; c2; c3; c4; c5] [job 1%nat "critical task" 0; job 3%nat "high priority task" 1;
    job 2%nat "normal task" 5; job 0%nat "low priority task" 10; job 4%nat "background task" 20]).
  by split_and!.
Qed.
End Priority.

(** *** examples/multi-queue *)

(** The only ready job of a queue, if there is one. *)
Record stocked (q : string) (stock : option JobRecord) (m : keyspace) : Prop := {
  stocked_unpaused : m !! pausedKey q = None;
  stocked_ready : zset_at m (readyKey q) =
    match stock with Some job => {[ID job := Job.Priority job]} | None => ∅ end;
  stocked_record job : stock = Some job → ∃ h, hash_at m (jobKey (ID job)) = hset_all (enqueue_fields job "") h
}.

Lemma nothing_stocked q m : stocked q None m → nothing_ready m q.
Proof. intros [_ Hr _]. by right. Qed.

(** What keeps a queue as it is. *)
Lemma stocked_frame q stock m m' : m' !! pausedKey q = m !! pausedKey q →
  zset_at m' (readyKey q) = zset_at m (readyKey q) →
  (∀ job, stock = Some job → hash_at m' (jobKey (ID job)) = hash_at m (jobKey (ID job))) →
  stocked q stock m → stocked q stock m'.
Proof.
  intros Hp Hr Hh [Hp' Hr' Hh']. split; [congruence|congruence|].
  intros job Hj. rewrite (Hh job Hj). by apply Hh'.
Qed.

Lemma enqueue_stocks q job m : wf_queue q → immediate q job → stocked q None m →
  stocked q (Some job) (enqueue_plain_ks m job).
Proof.
  intros Hq Hj [Hp Hr _]. split.
  - by rewrite (plain_paused q Hq job Hj).
  - rewrite (plain_ready q Hq job Hj), Hr. apply insert_empty.
  - intros job' [= <-]. eexists. apply (plain_hash q Hq job Hj).
Qed.

Lemma enqueue_elsewhere q q' job stock m : wf_queue q → wf_queue q' → q' ≠ q → immediate q' job →
  (∀ job', stock = Some job' → wf_id (ID job') ∧ ID job' ≠ ID job) →
  stocked q stock m → stocked q stock (enqueue_plain_ks m job).
Proof.
  intros Hq Hq' Hne Hj Hid. apply stocked_frame.
  - rewrite (plain_ks q' job Hj), hincr_lookup by keys_ne. pose proof (proj1 (immediate_wf _ _ Hj)). by ks_simp.
  - rewrite (plain_ks q' job Hj). pose proof (proj1 (immediate_wf _ _ Hj)). by ks_simp.
  - intros job' Hj'. destruct (Hid job' Hj'). by apply (plain_hash_other q' Hq' job Hj).
Qed.

Lemma can_incr_elsewhere q job m : wf_record job → wf_queue q → q ≠ Job.Queue job →
  can_incr m (statsKey q) "enqueued" → can_incr (enqueue_plain_ks m job) (statsKey q) "enqueued".
Proof. intros Hj Hq Hne (n & Hn & Hr). exists n. split; [|done]. by rewrite plain_counter_other. Qed.

Lemma dequeue_elsewhere q q' w j now stock m : wf_queue q → wf_queue q' → q' ≠ q → wf_id j →
  (∀ job, stock = Some job → wf_id (ID job) ∧ ID job ≠ j) →
  stocked q stock m → stocked q stock (dequeue_ks q' w j now 30000 m).
Proof.
  intros Hq Hq' Hne Hj Hid. apply stocked_frame; unfold dequeue_ks.
  - by ks_simp.
  - by ks_simp.
  - intros job Hjob. destruct (Hid job Hjob) as [Hwf Hne'].
    assert (jobKey j ≠ jobKey (ID job)) by (change (render (KJob j) ≠ render (KJob (ID job))); apply render_ne; [done..|congruence]).
    by ks_simp.
Qed.

(** The poller asks a queue whose only job it takes, or that has none. *)
Lemma wp_round_none clk i w q rest m Q : wf_store m → wf_queue q → wf_time (clk i) → nothing_ready m q →
  wp (S := S) (weighted_round clk (Datatypes.S i) w rest) Q m →
  wp (S := S) (weighted_round clk i w (q :: rest)) Q m.
Proof.
  intros Hm Hq Hc Hn HQ. cbn [weighted_round]. apply wp_bind, wp_try, wp_Dequeue; [done..| |done].
  intros _. cbv beta iota. apply wp_bind. eapply wp_mono; [exact HQ|]. cbv beta.
  intros m' [recs|e] HQ'; [by apply wp_ret|exact HQ'].
Qed.

Lemma wp_round_idle n clk i w q rest m Q : wf_store m → wf_queue q → (∀ n, wf_time (clk n)) → nothing_ready m q →
  wp (S := S) (weighted_round clk (i + n) w rest) Q m →
  wp (S := S) (weighted_round clk i w (replicate n q ++ rest)) Q m.
Proof.
  intros Hm Hq Hc Hn. revert i. induction n as [|n IH]; intros i HQ; cbn; [by rewrite Nat.add_0_r in HQ|].
  apply wp_round_none; [done..|]. apply IH. by rewrite Nat.add_succ_r in HQ.
Qed.

Lemma wp_round_take n clk i w q job rest m (Q : keyspace → result error (list JobRecord) → Prop) :
  Inv m → wf_queue q → (∀ n, wf_time (clk n)) →
  immediate q job → stocked q (Some job) m →
  (let m' := dequeue_ks q w (ID job) (UnixMilli (clk i)) 30000 m in Inv m' →
   wp (S := S) (weighted_round clk (i + Datatypes.S n) w rest) (λ m'' r,
     match r with Ok recs => Q m'' (Ok (taken_record (clk i, w) job :: recs)) | Err e => Q m'' (Err e) end) m') →
  wp (S := S) (weighted_round clk i w (replicate (Datatypes.S n) q ++ rest)) Q m.
Proof.
  intros HI Hq Hc Hj [Hp Hr Hh] HQ. pose proof (proj1 (immediate_wf _ _ Hj)) as Hid.
  cbn [replicate app weighted_round]. apply wp_bind, wp_try, wp_Dequeue; [by apply inv_wf|done|done| |].
  { intros [[? Hn]|Hn]; [by rewrite Hp in Hn|]. rewrite Hr in Hn. by apply map_non_empty_singleton in Hn. }
  intros jid p rest' _ Hz' _. cbv zeta. destruct (zsorted_head _ _ _ _ Hz') as [Hin _].
  rewrite Hr in Hin. apply lookup_singleton_Some in Hin as [<- _].
  destruct (taken q Hq w (ID job) p rest' (clk i) m HI Hid (Hc i) Hz') as (HI2 & Hz2 & _ & _ & Hrec).
  cbv beta iota. apply wp_bind. eapply wp_mono.
  { apply wp_round_idle; [exact (inv_wf _ HI2)|done|done| |].
    - right. cbv zeta in Hz2. rewrite Hz2, Hr. apply delete_singleton_eq.
    - replace (Datatypes.S i + n)%nat with (i + Datatypes.S n)%nat by lia. exact (HQ HI2). }
  cbv beta. intros m' [recs|e] HQ'; [|exact HQ']. apply wp_ret.
  destruct (Hh job eq_refl) as [h Eh]. unfold handed in Hrec. rewrite Eh, (parse_taken (clk i, w)) in Hrec;
    [|apply Hj|apply Hc]. apply (inj Some) in Hrec. rewrite Hrec. exact HQ'.
Qed.

(** Queues with one more turn in a round than the number says, and a job for each. *)
Abbreviation shelf := (list (string * nat * JobRecord)).

Record wf_shelf (l : shelf) : Prop := {
  shelf_jobs : Forall (λ x, wf_queue x.1.1 ∧ immediate x.1.1 x.2) l;
  shelf_queues : NoDup ((λ x, x.1.1) <$> l);
  shelf_ids : NoDup ((λ x, ID x.2) <$> l)
}.

Lemma wf_shelf_cons x l : wf_shelf (x :: l) → wf_queue x.1.1 ∧ immediate x.1.1 x.2 ∧ wf_shelf l ∧
  Forall (λ y, y.1.1 ≠ x.1.1 ∧ ID y.2 ≠ ID x.2) l.
Proof.
  intros [[[Hq Hj] Hjs]%Forall_cons [Hnq Hqs]%NoDup_cons [Hni Hids]%NoDup_cons]. cbn in *.
  split_and!; [done|done|by split|]. apply Forall_forall. intros y Hy. split; intros E.
  - apply Hnq. rewrite <- E. by apply (list_elem_of_fmap_2 (λ x, x.1.1)).
  - apply Hni. rewrite <- E. by apply (list_elem_of_fmap_2 (λ x, ID x.2)).
Qed.

Lemma stocked_forall (f : keyspace → keyspace) l m :
  (∀ x : string * nat * JobRecord, x ∈ l → stocked x.1.1 (Some x.2) m → stocked x.1.1 (Some x.2) (f m)) →
  Forall (λ x, stocked x.1.1 (Some x.2) m) l → Forall (λ x, stocked x.1.1 (Some x.2) (f m)) l.
Proof. rewrite !Forall_forall. auto. Qed.

(** Filling the shelf. *)
Lemma fill_keeps l q stock m : wf_shelf l → wf_queue q →
  Forall (λ y, y.1.1 ≠ q ∧ ∀ job, stock = Some job → wf_id (ID job) ∧ ID job ≠ ID y.2) l →
  stocked q stock m → stocked q stock (foldl enqueue_plain_ks m l.*2).
Proof.
  intros Hl Hq. revert m. induction l as [|x l IH]; intros m Hne Hs; cbn; [done|].
  apply wf_shelf_cons in Hl as (Hqx & Hjx & Hl & _). apply Forall_cons in Hne as [[Hneq Hid] Hne].
  apply IH; [done|done|]. by apply (enqueue_elsewhere q x.1.1).
Qed.

Lemma fill_stocked l m : wf_shelf l → Forall (λ x, stocked x.1.1 None m) l →
  Forall (λ x, stocked x.1.1 (Some x.2) (foldl enqueue_plain_ks m l.*2)) l.
Proof.
  revert m. induction l as [|x l IH]; intros m Hl Hs; cbn; [done|].
  apply wf_shelf_cons in Hl as (Hqx & Hjx & Hl & Hne). apply Forall_cons in Hs as [Hx Hs]. constructor.
  - apply fill_keeps; [done|done| |by apply enqueue_stocks]. eapply Forall_impl; [exact Hne|].
    intros y [Hy Hi]. split; [done|]. intros job [= <-]. split; [apply (immediate_wf _ _ Hjx)|done].
  - apply IH; [done|]. apply Forall_forall. intros y Hy.
    pose proof (proj1 (Forall_forall _ _) Hne y Hy) as [Hyq _].
    apply (enqueue_elsewhere y.1.1 x.1.1); try done; [|by apply (proj1 (Forall_forall _ _) Hs)].
    by apply (proj1 (Forall_forall _ _) (shelf_jobs _ Hl)).
Qed.

(** What a round takes from it. *)
Fixpoint shelf_round (clk : nat → Z) (w : string) (i : nat) (l : shelf) : list JobRecord :=
  match l with
  | [] => []
  | (_, n, job) :: l' => taken_record (clk i, w) job :: shelf_round clk w (i + Datatypes.S n) l'
  end.

Lemma wp_round_shelf clk w l i m : (∀ n, wf_time (clk n)) → Inv m → wf_shelf l →
  Forall (λ x, stocked x.1.1 (Some x.2) m) l →
  wp (S := S) (weighted_round clk i w (l ≫= λ x, replicate (Datatypes.S x.1.2) x.1.1))
    (λ _ r, r = Ok (shelf_round clk w i l)) m.
Proof.
  intros Hclk. revert i m. induction l as [|[[q n] job] l IH]; intros i m HI Hl Hs.
  { by apply wp_ret. }
  apply wf_shelf_cons in Hl as (Hq & Hj & Hl & Hne). apply Forall_cons in Hs as [Hx Hs]. cbn [fst snd] in *.
  pose proof (proj1 (immediate_wf _ _ Hj)) as Hid.
  apply (wp_round_take n clk i w q job); [done..|]. intros m' HI'. eapply wp_mono.
  - apply IH; [done|done|]. apply Forall_forall. intros y Hy.
    pose proof (proj1 (Forall_forall _ _) Hne y Hy) as [Hyq Hyi].
    pose proof (proj1 (Forall_forall _ _) (shelf_jobs _ Hl) y Hy) as [Hyw Hyj].
    apply (dequeue_elsewhere y.1.1 q); try done; [|by apply (proj1 (Forall_forall _ _) Hs)].
    intros job' [= <-]. split; [apply (immediate_wf _ _ Hyj)|done].
  - cbv beta. intros m'' r ->. done.
Qed.
Section MultiQueue.
Context `{Json ProcessPayment} `{Json SendNotification} `{Json GenerateReport}.
Context (clk : nat → Z) (ids : nat → string).

Definition payment_record : JobRecord :=
  task_record (clk 0%nat) (ids 0%nat) {| PaymentID := "pay-456"; Amount := 2999 |} [].
Definition notification_record : JobRecord :=
  task_record (clk 1%nat) (ids 1%nat) {| UserID := 42; NotificationMessage := "Your order has shipped" |} [].
Definition report_record : JobRecord :=
  task_record (clk 2%nat) (ids 2%nat) {| ReportType := "monthly-summary" |} [].

(** The first round of the worker hands out what the producer enqueued: the
    payment first, with the retries of its type, the notification, the report. *)
Theorem producer_reaches_worker clk' w m : (∀ i, wf_id (ids i)) → (∀ i j, ids i = ids j → i = j) →
  (∀ i, wf_time (clk i)) → (∀ i, wf_time (clk' i)) → Inv m →
  Forall (λ q, stocked q None m ∧ can_incr m (statsKey q) "enqueued") ["payments"; "default"; "low"] →
  wp (S := S) (producer_client redis_NewClient sha256_hex clk ids ;;
      weighted_round clk' 0 w (buildWeightedQueues (cfgQueues (normal_config (server_config 20 worker_queues []))))) (λ m' r,
    r = Ok [taken_record (clk' 0%nat, w) payment_record; taken_record (clk' 6%nat, w) notification_record;
            taken_record (clk' 9%nat, w) report_record] ∧
    MaxRetries payment_record = 10 ∧ MaxRetries notification_record = 3 ∧ MaxRetries report_record = 3) m.
Proof.
  intros Hid Hinj Hclk Hclk' HI Hqs. apply Forall_cons in Hqs as [[Hp Hcp] Hqs].
  apply Forall_cons in Hqs as [[Hd Hcd] Hqs]. apply Forall_cons in Hqs as [[Hl Hcl] _].
  assert (Hqp : wf_queue "payments") by decide_now. assert (Hqd : wf_queue "default") by decide_now.
  assert (Hql : wf_queue "low") by decide_now.
  assert (Hjp : immediate "payments" payment_record) by (apply immediate_task; first [done|decide_now]).
  assert (Hjd : immediate "default" notification_record) by (apply immediate_task; first [done|decide_now]).
  assert (Hjl : immediate "low" report_record) by (apply immediate_task; first [done|decide_now]).
  pose (l := [("payments", 5%nat, payment_record); ("default", 2%nat, notification_record);
    ("low", 0%nat, report_record)] : shelf).
  assert (Hshelf : wf_shelf l).
  { split; [|decide_now|].
    - unfold l. repeat (apply Forall_cons_2; [by split|]). apply Forall_nil_2.
    - change (NoDup (ids <$> [0; 1; 2]%nat)). apply NoDup_fmap_2; [intros i j; apply Hinj|]. decide_now. }
  assert (Hnone : Forall (λ x, stocked x.1.1 None m) l)
    by (unfold l; repeat (apply Forall_cons_2; [done|]); apply Forall_nil_2).
  pose proof (fill_stocked l m Hshelf Hnone) as Hfull.
  unfold producer_client. apply wp_bind, wp_bind, wp_NewClient. cbv iota.
  apply wp_bind, wp_enqueue_task; [done|by apply inv_wf|apply Hjp|done|]. cbv iota. fold payment_record.
  pose proof (Inv_plain "payments" Hqp payment_record Hjp m HI Hcp) as HI1.
  apply (can_incr_elsewhere "default" payment_record) in Hcd; [|apply Hjp|done|done].
  apply (can_incr_elsewhere "low" payment_record) in Hcl; [|apply Hjp|done|done].
  apply wp_bind, wp_enqueue_task; [done|by apply inv_wf|apply Hjd|done|]. cbv iota. fold notification_record.
  pose proof (Inv_plain "default" Hqd notification_record Hjd _ HI1 Hcd) as HI2.
  apply (can_incr_elsewhere "low" notification_record) in Hcl; [|apply Hjd|done|done].
  apply wp_bind, wp_enqueue_task; [done|by apply inv_wf|apply Hjl|done|]. cbv iota. fold report_record.
  pose proof (Inv_plain "low" Hql report_record Hjl _ HI2 Hcl) as HI3.
  apply wp_ret. cbv iota. eapply wp_mono; [exact (wp_round_shelf clk' w l 0 _ Hclk' HI3 Hshelf Hfull)|].
  by intros m' r ->.
Qed.
End MultiQueue.
End Specs.

(** ** Every task has a handler *)

Section Served.
Context {S Conn : Type} `{RedisLaws S} `{LuaFloatLaws} `{JsonLaws WfRecord} (redis_NewClient : Options → Conn).
Context `{Json SendEmail} `{Json PriorityTask} `{Json ProcessOrder} `{Json GenerateInvoice} `{Json SendReceipt}
  `{Json Build} `{Json Deploy} `{Json CleanupExpiredSessions} `{Json GenerateDailyReport} `{Json ProcessReport}
  `{Json ProcessPayment} `{Json SendNotification} `{Json GenerateReport}.

Lemma good_new config worker : good_server (S := S) (newServer config worker).
Proof.
  split; cbn; [intros kind fn Hfn|apply Forall_nil_2|apply Forall_nil_2|intros kind rl Hrl];
    by rewrite lookup_empty in *.
Qed.

Lemma good_prints {T} `{TaskType T} (sv : Server.Server (S := S)) :
  match taskOptions T with Some o => Max (tRateLimit o) ≤ 0 | None => True end →
  good_server sv → good_server (HandleFunc (T := T) prints sv).
Proof.
  intros Ho [Hh Hm Hk Hr]. split; cbn; [|done|done|].
  - intros kind fn [[_ <-]|[_ Hfn]]%lookup_insert_Some; [|by eapply Hh]. apply good_typed. intros job s _. by split.
  - intros kind rl. destruct (taskOptions T) as [o|]; [|apply Hr]. rewrite decide_False by lia. apply Hr.
Qed.

Lemma good_recover (sv : Server.Server (S := S)) : good_server sv → good_server (Use [Recover] sv).
Proof.
  intros [Hh Hm Hk Hr]. split; cbn; [done| |done|done]. apply Forall_app. split; [done|].
  constructor; [exact good_Recover|constructor].
Qed.

(** A program serves tasks: its server is one the theorems of the system are
    about, polls the queues of the tasks and has handlers for their kinds. *)
Definition serves (prog : M S error (Connect.Client (Conn := Conn) * Server.Server (S := S)))
    (tasks : list (string * string)) : Prop := ∀ s client sv, (prog s).2 = Ok (client, sv) →
  good_server sv ∧ Forall (λ qw, wf_queue (Server.Name qw)) (cfgQueues (cfg sv)) ∧
  Forall (λ t, is_Some (handlers sv !! t.1) ∧ t.2 ∈ Server.Name <$> cfgQueues (cfg sv)) tasks.

Lemma serve_with_served config worker setup tasks :
  (let sv := setup (newServer config worker) in
   good_server sv ∧ Forall (λ qw, wf_queue (Server.Name qw)) (cfgQueues (cfg sv)) ∧
   Forall (λ t, is_Some (handlers sv !! t.1) ∧ t.2 ∈ Server.Name <$> cfgQueues (cfg sv)) tasks) →
  serves (serve_with redis_NewClient config worker setup) tasks.
Proof.
  intros Hsv s client sv E. unfold serve_with, NewServer in E.
  apply bind_Ok in E as ([c sv0] & E & [= _ <-]). by apply bind_Ok in E as (c' & _ & [= _ <-]).
Qed.

(** The kinds and the queues of what the programs enqueue and schedule. *)
Theorem examples_served worker :
  serves (basic_server redis_NewClient worker) [("email.send", "default")] ∧
  serves (priority_server redis_NewClient worker) [("priority.task", "default")] ∧
  serves (workflows_server redis_NewClient worker)
    ((λ k, (k, "default")) <$> ["order.process"; "invoice.generate"; "receipt.send"; "build"; "deploy"]) ∧
  serves (cron_server redis_NewClient worker) ((λ e, (cKind e, cQueue e)) <$> cron_entries) ∧
  serves (shutdown_server redis_NewClient worker) [("report.process", "default")] ∧
  serves (worker_server redis_NewClient worker)
    [("payment.process", "payments"); ("notification.send", "default"); ("report.generate", "low")].
Proof.
  split_and!; apply serve_with_served; (split;
    [repeat first [apply good_recover|apply good_prints; [done|]|apply good_new]|split; [decide_now|]]).
  all: repeat (apply Forall_cons_2; [split; [|decide_now]|]); try apply Forall_nil_2.
  all: cbn; repeat first [apply lookup_insert_is_Some'; by left|apply lookup_insert_is_Some'; right].
Qed.
End Served.
