(* ===== verification/Pool.v ===== *)
(** * Pool: the poller, its slots and its goroutines

    [Start] runs one poller and a goroutine per job, bounded by the slots of a
    channel, until the context is cancelled.  A state of the pool is what these
    goroutines share; a step is what one of them does until it may be
    interrupted.  A [select] with several ready cases may take any of them, so
    the poller may go on for a while after the cancellation. *)
From S2P Require Import Prelude Float Keys Redis Lua Keyspace Job Scripts Queue Client Winter Json Workflow Cron RateLimit Recovery Handler Server Lifecycle System SettleSpecs.

Open Scope string_scope.
Open Scope Z_scope.
Open Scope list_scope.

(** Where the poller is: before a round; in a round with queues left to ask;
    with a slot taken, asking a queue; asleep; returned. *)
Inductive phase : Type :=
  | Top
  | Round (rest : list string) (fetched : bool)
  | Asking (queue : string) (rest : list string) (fetched : bool)
  | Idle
  | Returned.

Section Pool.
Context {S : Type} `{Redis S} `{SortFunc}.
Context (sv : Server (S := S)) (world : S → S → Prop).

Record pool : Type := Pool {
  server : S;
  poller : phase;
  taken : nat;                 (* what is in the channel *)
  running : list JobRecord;    (* the goroutines *)
  cancelled : bool
}.

Definition queue_names : list string :=
  if StrictPriority (cfg sv) then buildStrictQueues (cfgQueues (cfg sv))
  else buildWeightedQueues (cfgQueues (cfg sv)).

(** A strict round ends with the first job. *)
Definition after_job (rest : list string) : list string := if StrictPriority (cfg sv) then [] else rest.

Definition start (s : S) : pool := Pool s Top 0 [] false.

(** [pollWeighted] and [pollStrict], from one blocking point to the next. *)
Inductive poll_step : pool → pool → Prop :=
  | top_returns s n jobs : poll_step (Pool s Top n jobs true) (Pool s Returned n jobs true)
  | top_goes s n jobs : poll_step (Pool s Top n jobs false) (Pool s (Round queue_names false) n jobs false)
  | round_returns s q rest f n jobs :
      poll_step (Pool s (Round (q :: rest) f) n jobs true) (Pool s Returned n jobs true)
  | round_takes s q rest f n jobs c : Z.of_nat n < Concurrency (cfg sv) →
      poll_step (Pool s (Round (q :: rest) f) n jobs c) (Pool s (Asking q rest f) (Datatypes.S n) jobs c)
  | asking_job s s' now q rest f n jobs c rec : wf_clock now →
      Dequeue now q (workerID sv) s = (s', Ok (Some rec)) →
      poll_step (Pool s (Asking q rest f) n jobs c) (Pool s' (Round (after_job rest) true) n (jobs ++ [rec]) c)
  | asking_none s s' now q rest f n jobs c r : wf_clock now →
      Dequeue now q (workerID sv) s = (s', r) → (∀ rec, r ≠ Ok (Some rec)) →
      poll_step (Pool s (Asking q rest f) (Datatypes.S n) jobs c) (Pool s' (Round rest f) n jobs c)
  | round_again s n jobs c : poll_step (Pool s (Round [] true) n jobs c) (Pool s Top n jobs c)
  | round_sleeps s n jobs c : poll_step (Pool s (Round [] false) n jobs c) (Pool s Idle n jobs c)
  | idle_returns s n jobs : poll_step (Pool s Idle n jobs true) (Pool s Returned n jobs true)
  | idle_wakes s n jobs c : poll_step (Pool s Idle n jobs c) (Pool s Top n jobs c).

(** A goroutine returns from [processJob] and gives its slot back. *)
Inductive job_step : pool → pool → Prop :=
  | job_ends s p n before rec rest c :
      job_step (Pool s p (Datatypes.S n) (before ++ rec :: rest) c) (Pool s p n (before ++ rest) c).

(** A step of the pool itself. *)
Definition own_step (p p' : pool) : Prop := poll_step p p' ∨ job_step p p'.

(** What the jobs at work and other processes do to the server, and the signal. *)
Inductive outer_step : pool → pool → Prop :=
  | others s s' p n jobs c : world s s' → outer_step (Pool s p n jobs c) (Pool s' p n jobs c)
  | signal s p n jobs c : outer_step (Pool s p n jobs c) (Pool s p n jobs true).

Definition pool_step (p p' : pool) : Prop := own_step p p' ∨ outer_step p p'.

(** *** The slots *)

Definition holding (p : phase) : nat := match p with Asking _ _ _ => 1 | _ => 0 end.

(** Every slot is in use. *)
Record slots (p : pool) : Prop := {
  slots_taken : taken p = (length (running p) + holding (poller p))%nat;
  slots_bound : Z.of_nat (taken p) ≤ Z.max 0 (Concurrency (cfg sv))
}.

Lemma slots_start s : slots (start s).
Proof. split; cbn; lia. Qed.

Lemma slots_step p p' : slots p → pool_step p p' → slots p'.
Proof.
  intros [Ht Hb] [[Hp|Hp]|Hp]; destruct Hp; cbn [server poller taken running holding] in *; split; cbn;
    rewrite ?length_app in *; cbn in *; lia.
Qed.

Lemma slots_steps p p' : rtc pool_step p p' → slots p → slots p'.
Proof. induction 1; eauto using slots_step. Qed.

(** C19: a server never works on more jobs than it is configured to.  In every state
    of the pool, whatever the goroutines and other processes do, every slot is
    used by a running job or by the poller while it asks, and no more slots are
    in use than the concurrency allows; a server of [newServer] has at least
    one. *)
Theorem concurrency_bounded s p : rtc pool_step (start s) p →
  taken p = (length (running p) + holding (poller p))%nat ∧
  Z.of_nat (length (running p)) ≤ Z.max 0 (Concurrency (cfg sv)).
Proof.
  intros Hp. destruct (slots_steps _ _ Hp (slots_start s)) as [Ht Hb]. split; [done|lia].
Qed.

(** *** The shutdown *)

(** How many steps the poller may still take, and the goroutines with it. *)
Definition weight (p : phase) : nat :=
  match p with
  | Returned => 0
  | Top => 1
  | Idle => 2
  | Round rest _ => 3 + 2 * length rest
  | Asking _ rest _ => 4 + 2 * length rest
  end.

Definition left_over (p : pool) : nat := (2 * weight (poller p) + length (running p))%nat.

Lemma own_step_stopped p p' : cancelled p = true → own_step p p' →
  cancelled p' = true ∧ (left_over p' < left_over p)%nat.
Proof.
  intros Hc [Hp|Hp]; destruct Hp; cbn in Hc; subst; try done; (split; [done|]);
    unfold left_over; cbn [poller running weight length]; rewrite ?length_app; cbn [length]; try lia.
  unfold after_job. destruct (StrictPriority _); cbn; lia.
Qed.

Lemma outer_step_stopped p p' : cancelled p = true → outer_step p p' →
  cancelled p' = true ∧ left_over p' = left_over p.
Proof. intros Hc Hs. by destruct Hs; cbn in *; subst. Qed.

(** A run of the pool with [n] steps of its own. *)
Inductive run : nat → pool → pool → Prop :=
  | run_nil p : run 0 p p
  | run_own n p p1 p' : own_step p p1 → run n p1 p' → run (Datatypes.S n) p p'
  | run_outer n p p1 p' : outer_step p p1 → run n p1 p' → run n p p'.

(** Nothing is left that could go on by itself. *)
Definition stuck (p : pool) : Prop := ∀ p', ¬ own_step p p'.

Lemma stopped_progress p : slots p → cancelled p = true → stuck p → poller p = Returned ∧ running p = [].
Proof.
  intros [Ht Hb] Hc Hstuck. destruct p as [s ph n jobs c]. cbn in *. subst c.
  assert (Hrun : jobs = []).
  { destruct jobs as [|rec jobs]; [done|]. exfalso. destruct n as [|n]; [cbn in Ht; lia|].
    apply (Hstuck (Pool s ph n ([] ++ jobs) true)). right. apply (job_ends s ph n [] rec jobs true). }
  split; [|done]. subst jobs. cbn in Ht. destruct ph as [|[|q rest] f|q rest f| |]; [..|done]; exfalso.
  - eapply Hstuck. left. apply top_returns.
  - destruct f; eapply Hstuck; left; constructor.
  - eapply Hstuck. left. apply round_returns.
  - cbn in Ht. subst n. destruct (Dequeue 0 q (workerID sv) s) as [s' r] eqn:E.
    assert (Hr : (∃ rec, r = Ok (Some rec)) ∨ ∀ rec, r ≠ Ok (Some rec)).
    { destruct r as [[rec|]|e]; [left; eauto|by right..]. }
    assert (H0c : wf_clock 0) by decide_now.
    destruct Hr as [[rec ->]|Hr]; eapply Hstuck; left; [by eapply asking_job|by eapply asking_none].
  - eapply Hstuck. left. apply idle_returns.
Qed.

(** A pool whose poller has not returned can go on. *)
Lemma pool_progress p : slots p → 0 < Concurrency (cfg sv) → poller p ≠ Returned → ∃ p', own_step p p'.
Proof.
  destruct p as [s ph n jobs c]. cbn [poller]. intros [Ht Hb] Hc Hr. cbn [taken running poller holding] in *.
  destruct ph as [|[|q rest] f|q rest f| |]; [..|done].
  - destruct c; eexists; left; [apply top_returns|apply top_goes].
  - destruct f; eexists; left; constructor.
  - destruct (decide (Z.of_nat n < Concurrency (cfg sv))) as [Hn|Hn]; [eexists; left; by apply round_takes|].
    destruct jobs as [|rec jobs]; [cbn in Ht; lia|]. destruct n as [|n]; [done|].
    eexists. right. apply (job_ends s _ n [] rec jobs).
  - destruct n as [|n]; [cbn in Ht; lia|].
    destruct (Dequeue 0 q (workerID sv) s) as [s' r] eqn:E. assert (H0c : wf_clock 0) by decide_now.
    destruct r as [[rec|]|e]; eexists; left; [by eapply asking_job|by eapply asking_none..].
  - eexists. left. apply idle_wakes.
Qed.

(** A server that is told to stop stops.  From the cancellation on the poller
    and the goroutines take at most a number of steps that the current round
    and the running jobs bound, whatever the server, the network and the other
    processes do meanwhile; and when they can take no more, the poller has
    returned and every job it started is finished. *)
Theorem shutdown_drains s p n p' : rtc pool_step (start s) p → cancelled p = true → run n p p' →
  (n ≤ 2 * weight (poller p) + length (running p))%nat ∧
  (stuck p' → poller p' = Returned ∧ running p' = []).
Proof.
  intros Hp Hc Hrun. apply slots_steps in Hp; [|apply slots_start].
  change (2 * weight (poller p) + length (running p))%nat with (left_over p).
  induction Hrun as [p|n p p1 p' Hstep _ IH|n p p1 p' Hstep _ IH].
  - split; [lia|]. by apply stopped_progress.
  - destruct (own_step_stopped p p1 Hc Hstep) as [Hc1 Hlt].
    destruct IH as [Hn Hend]; [by eapply slots_step; [|left]|done|]. split; [lia|done].
  - destruct (outer_step_stopped p p1 Hc Hstep) as [Hc1 Heq].
    destruct IH as [Hn Hend]; [by eapply slots_step; [|right]|done|]. split; [lia|done].
Qed.

(** *** A round that nothing interrupts *)

Lemma ask s q rest f n jobs c now : wf_clock now → Z.of_nat n < Concurrency (cfg sv) →
  rtc poll_step (Pool s (Round (q :: rest) f) n jobs c)
    (match Dequeue now q (workerID sv) s with
     | (s', Ok (Some rec)) => Pool s' (Round (after_job rest) true) (Datatypes.S n) (jobs ++ [rec]) c
     | (s', _) => Pool s' (Round rest f) n jobs c
     end).
Proof.
  intros Hnow Hn. eapply rtc_l; [by apply round_takes|]. apply rtc_once.
  destruct (Dequeue now q (workerID sv) s) as [s' [[rec|]|e]] eqn:E;
    [by eapply asking_job|by eapply asking_none..].
Qed.

Lemma weighted_round_steps clk rest : (∀ n, wf_clock (clk n)) → StrictPriority (cfg sv) = false → ∀ i s f n jobs c,
  Z.of_nat (n + length rest) ≤ Concurrency (cfg sv) →
  ∃ s' recs, weighted_round clk i (workerID sv) rest s = (s', Ok recs) ∧
    rtc poll_step (Pool s (Round rest f) n jobs c)
      (Pool s' (Round [] (f || bool_decide (recs ≠ []))) (n + length recs) (jobs ++ recs) c).
Proof.
  intros Hclk Hsp. induction rest as [|q rest IH]; intros i s f n jobs c Hn; cbn [weighted_round].
  { exists s, []. split; [done|]. rewrite orb_false_r, app_nil_r, Nat.add_0_r. constructor. }
  cbn [length] in Hn. pose proof (ask s q rest f n jobs c (clk i) (Hclk i) ltac:(lia)) as Hask.
  unfold mbind, M_bind, try, after_job in *. rewrite Hsp in Hask.
  destruct (Dequeue (clk i) q (workerID sv) s) as [s1 [[rec|]|e]]; cbn [fst snd].
  - destruct (IH (Datatypes.S i) s1 true (Datatypes.S n) (jobs ++ [rec]) c) as (s' & recs & E & Hr); [lia|].
    rewrite E. exists s', (rec :: recs). split; [done|]. etransitivity; [exact Hask|].
    rewrite bool_decide_eq_true_2, orb_true_r by done. cbn [length]. rewrite Nat.add_succ_r.
    by rewrite <- app_assoc in Hr.
  - destruct (IH (Datatypes.S i) s1 f n jobs c) as (s' & recs & E & Hr); [lia|].
    rewrite E. exists s', recs. split; [done|]. by etransitivity.
  - destruct (IH (Datatypes.S i) s1 f n jobs c) as (s' & recs & E & Hr); [lia|].
    rewrite E. exists s', recs. split; [done|]. by etransitivity.
Qed.

Lemma strict_round_steps clk rest : (∀ n, wf_clock (clk n)) → StrictPriority (cfg sv) = true → ∀ i s f n jobs c,
  Z.of_nat n < Concurrency (cfg sv) →
  ∃ s' r, strict_round clk i (workerID sv) rest s = (s', Ok r) ∧
    rtc poll_step (Pool s (Round rest f) n jobs c)
      match r with
      | Some rec => Pool s' (Round [] true) (Datatypes.S n) (jobs ++ [rec]) c
      | None => Pool s' (Round [] f) n jobs c
      end.
Proof.
  intros Hclk Hsp. induction rest as [|q rest IH]; intros i s f n jobs c Hn; cbn [strict_round].
  { exists s, None. split; [done|constructor]. }
  pose proof (ask s q rest f n jobs c (clk i) (Hclk i) Hn) as Hask.
  unfold mbind, M_bind, try, after_job in *. rewrite Hsp in Hask.
  destruct (Dequeue (clk i) q (workerID sv) s) as [s1 [[rec|]|e]]; cbn [fst snd].
  - exists s1, (Some rec). by split.
  - destruct (IH (Datatypes.S i) s1 f n jobs c Hn) as (s' & r & E & Hr).
    rewrite E. exists s', r. split; [done|]. by etransitivity.
  - destruct (IH (Datatypes.S i) s1 f n jobs c Hn) as (s' & r & E & Hr).
    rewrite E. exists s', r. split; [done|]. by etransitivity.
Qed.

(** The pollers poll as the rounds say.  While slots are free and nothing
    interrupts it, the poller of a weighted server does in one round to the
    server what [weighted_round] does and starts exactly the jobs it returns; a
    strict one does what [strict_round] does and starts at most one. *)
Theorem round_is_round clk i s f n jobs c : (∀ n, wf_clock (clk n)) →
  (StrictPriority (cfg sv) = false → Z.of_nat (n + length queue_names) ≤ Concurrency (cfg sv) →
   ∃ s' recs, weighted_round clk i (workerID sv) (buildWeightedQueues (cfgQueues (cfg sv))) s = (s', Ok recs) ∧
     rtc poll_step (Pool s (Round queue_names f) n jobs c)
       (Pool s' (Round [] (f || bool_decide (recs ≠ []))) (n + length recs) (jobs ++ recs) c)) ∧
  (StrictPriority (cfg sv) = true → Z.of_nat n < Concurrency (cfg sv) →
   ∃ s' r, strict_round clk i (workerID sv) (buildStrictQueues (cfgQueues (cfg sv))) s = (s', Ok r) ∧
     rtc poll_step (Pool s (Round queue_names f) n jobs c)
       match r with
       | Some rec => Pool s' (Round [] true) (Datatypes.S n) (jobs ++ [rec]) c
       | None => Pool s' (Round [] f) n jobs c
       end).
Proof.
  intros Hclk. unfold queue_names. split; intros Hsp Hn; rewrite Hsp in *.
  - by apply weighted_round_steps.
  - by apply strict_round_steps.
Qed.
End Pool.
