(* ===== verification/Fairness.v ===== *)
(** * Fairness: how the poller divides its questions among the queues

    The log of a run of the pool is the list of queues that the poller asked.
    A weighted poller goes round its rotation, whatever it finds and whatever
    the jobs and other processes do meanwhile, so every queue has its share; a
    strict one asks a queue only after it asked all queues before it, in the
    same round and in vain. *)
From S2P Require Import Prelude Float Keys Redis Lua Keyspace Job Scripts Queue Client Winter Json Workflow Cron RateLimit Recovery Handler Server Lifecycle System ServerSpecs SettleSpecs Pool.

Open Scope string_scope.
Open Scope Z_scope.
Open Scope list_scope.

Section Fairness.
Context {S : Type} `{Redis S} `{SortFuncLaws}.
Context (sv : Server (S := S)) (world : S → S → Prop).

(** The queue a step asks: its slot was the last thing the poller waited for. *)
Definition asked (p p' : pool (S := S)) : list string :=
  match poller p, poller p' with
  | Round (q :: _) _, Asking _ _ _ => [q]
  | _, _ => []
  end.

Lemma asked_same p p' : poller p = poller p' → asked p p' = [].
Proof. unfold asked. intros <-. by destruct (poller p) as [|[]| | |]. Qed.

(** A run from the start and the queues it asked. *)
Inductive polls : list string → pool → Prop :=
  | polls_start s : polls [] (start s)
  | polls_step log p p' : polls log p → pool_step sv world p p' → polls (log ++ asked p p') p'.

Abbreviation names := (queue_names sv).

(** What is left of the round. *)
Definition remaining (ph : phase) : list string :=
  match ph with
  | Round rest _ | Asking _ rest _ => rest
  | Top | Idle | Returned => []
  end.

Fixpoint rounds (k : nat) : list string :=
  match k with 0%nat => [] | Datatypes.S k' => rounds k' ++ names end.

(** *** Weighted *)

Lemma weighted_rotation log p : polls log p → StrictPriority (cfg sv) = false →
  ∃ k tail, log ++ tail = rounds k ∧ (k = 0%nat → tail = []) ∧ (length tail ≤ length names)%nat ∧
    (poller p ≠ Returned → tail = remaining (poller p)).
Proof.
  intros Hp Hw. induction Hp as [s|log p p' Hp IH Hstep]; [by exists 0%nat, []; cbn; split_and!; try lia|].
  destruct IH as (k & tail & Hlog & Hz & Hlen & Htail).
  destruct Hstep as [[Hstep|Hstep]|Hstep].
  - destruct Hstep; unfold asked; cbn [poller remaining] in *; rewrite ?app_nil_r.
    + exists k, tail. by split_and!.
    + exists (Datatypes.S k), names. rewrite Htail, app_nil_r in Hlog by done.
      split_and!; [cbn [rounds]; by rewrite Hlog|done|lia|done].
    + exists k, tail. split_and!; done.
    + specialize (Htail ltac:(done)). subst tail. exists k, rest. rewrite <- app_assoc. cbn [app].
      split_and!; [done|intros Hk; by specialize (Hz Hk)|cbn in Hlen; lia|done].
    + exists k, tail. unfold after_job. rewrite Hw. split_and!; try done. intros _. by apply Htail.
    + exists k, tail. split_and!; try done. intros _. by apply Htail.
    + exists k, tail. split_and!; try done. intros _. by apply Htail.
    + exists k, tail. split_and!; try done. intros _. by apply Htail.
    + exists k, tail. by split_and!.
    + exists k, tail. split_and!; try done. intros _. by apply Htail.
  - rewrite (asked_same p p') by (by destruct Hstep). rewrite app_nil_r. exists k, tail. by destruct Hstep.
  - rewrite (asked_same p p') by (by destruct Hstep). rewrite app_nil_r. exists k, tail. by destruct Hstep.
Qed.

Definition asks (q : string) (log : list string) : Z := Z.of_nat (length (filter (λ x, x = q) log)).

Lemma asks_app q log log' : asks q (log ++ log') = asks q log + asks q log'.
Proof. unfold asks. rewrite filter_app, length_app. lia. Qed.

Lemma asks_names q : StrictPriority (cfg sv) = false → asks q names = weight_of q (cfgQueues (cfg sv)).
Proof. intros Hw. unfold queue_names. rewrite Hw. apply (polling_order (cfgQueues (cfg sv))). Qed.

Lemma asks_rounds q k : StrictPriority (cfg sv) = false →
  asks q (rounds k) = Z.of_nat k * weight_of q (cfgQueues (cfg sv)).
Proof.
  intros Hw. induction k as [|k IH]; [done|]. cbn [rounds]. rewrite asks_app, IH, asks_names by done. lia.
Qed.

Lemma asks_suffix q log log' : log' `suffix_of` log → 0 ≤ asks q log' ≤ asks q log.
Proof. intros [l ->]. rewrite asks_app. unfold asks. lia. Qed.

Lemma length_rounds k : length (rounds k) = (k * length names)%nat.
Proof. induction k as [|k IH]; [done|]. cbn [rounds]. rewrite length_app, IH. lia. Qed.

(** The log is so many rounds, the last of which may be under way. *)
Lemma weighted_shares log p : polls log p → StrictPriority (cfg sv) = false →
  ∃ k, (length log ≤ k * length names ≤ length log + length names)%nat ∧
    ∀ q, (Z.of_nat k - 1) * weight_of q (cfgQueues (cfg sv)) ≤ asks q log ≤
         Z.of_nat k * weight_of q (cfgQueues (cfg sv)).
Proof.
  intros Hp Hw. destruct (weighted_rotation log p Hp Hw) as (k & tail & Hlog & Hz & Hlen & _).
  exists k. pose proof (f_equal length Hlog) as Hl. rewrite length_app, length_rounds in Hl. split; [lia|].
  intros q. pose proof (asks_rounds q k Hw) as Hk. rewrite <- Hlog, asks_app in Hk. destruct k as [|k].
  - rewrite (Hz eq_refl) in Hk. unfold asks in *. cbn [filter list_filter length] in Hk. split; [|lia].
    assert (0 ≤ weight_of q (cfgQueues (cfg sv))) by (rewrite <- asks_names by done; unfold asks; lia). lia.
  - assert (Hsuf : tail `suffix_of` names).
    { cbn [rounds] in Hlog. apply app_eq_inv in Hlog as [(l & _ & E)|(l & _ & E)].
      - by exists l.
      - rewrite E, length_app in Hlen. assert (l = []) as -> by (destruct l; [done|cbn in Hlen; lia]). by rewrite E. }
    pose proof (asks_suffix q names tail Hsuf) as Ht. rewrite asks_names in Ht by done. lia.
Qed.

(** *** Strict *)

(** The queues asked in the current round: all those before what is left. *)
Lemma strict_turn log p : polls log p → StrictPriority (cfg sv) = true →
  match poller p with
  | Asking q rest f => f = false ∧ ∃ before log', log = log' ++ before ++ [q] ∧ names = before ++ q :: rest
  | Round rest false => ∃ before log', log = log' ++ before ∧ names = before ++ rest
  | Round rest true => rest = []
  | _ => True
  end.
Proof.
  intros Hp Hs. induction Hp as [s|log p p' Hp IH Hstep]; [done|].
  destruct Hstep as [[Hstep|Hstep]|Hstep].
  - destruct Hstep; unfold asked; cbn [poller] in *; rewrite ?app_nil_r; try done.
    + exists [], log. by rewrite app_nil_r.
    + destruct f; [done|]. destruct IH as (before & log' & -> & Hn). split; [done|].
      exists before, log'. by rewrite app_assoc.
    + unfold after_job. by rewrite Hs.
    + destruct IH as (-> & before & log' & -> & Hn). exists (before ++ [q]), log'. by rewrite <- app_assoc.
  - rewrite (asked_same p p') by (by destruct Hstep). rewrite app_nil_r. by destruct Hstep.
  - rewrite (asked_same p p') by (by destruct Hstep). rewrite app_nil_r. by destruct Hstep.
Qed.

(** C20: polling is fair.  At any time of any run of a weighted poller there is a
    number of rounds such that every queue has been asked as often as its weight
    says in each of them, the last of which may be under way: no queue starves,
    and none gains more than a round's share over another.  A strict poller that
    asks a queue has just asked all queues before it in its order, and none of
    them gave it a job in this round. *)
Theorem polling_is_fair log p : polls log p →
  (StrictPriority (cfg sv) = false →
     ∃ k, 0 ≤ k ∧ ∀ q, (k - 1) * weight_of q (cfgQueues (cfg sv)) ≤ asks q log ≤ k * weight_of q (cfgQueues (cfg sv))) ∧
  (StrictPriority (cfg sv) = true → ∀ q rest f, poller p = Asking q rest f →
     f = false ∧ ∃ before log', log = log' ++ before ++ [q] ∧ names = before ++ q :: rest).
Proof.
  intros Hp. split; intros Hs.
  { destruct (weighted_shares log p Hp Hs) as (k & _ & Hk). exists (Z.of_nat k). split; [lia|exact Hk]. }
  intros q rest f E. pose proof (strict_turn log p Hp Hs) as Hr. by rewrite E in Hr.
Qed.
End Fairness.
