(* ===== verification/Process.v ===== *)
(** * Process: a server from [Start] to its end

    Next to the pool of [Pool.v], [Start] runs the loops of the upkeep, each a
    goroutine that waits for its ticker or the end of the context; the poller and
    the loops run while it sets up the schedule, and then it waits itself: for
    the signal, for its goroutines or for the timeout.  A round of a loop is one
    step here.  So is a job, from its first call to its last, with turns of the
    other goroutines and of other processes between its calls; a panic of the
    job that no middleware recovers ends the whole process.  What others do to
    Redis is the relation [world]. *)
From S2P Require Import Prelude Float Keys Redis Lua Keyspace Job Scripts Queue Client Winter Json Workflow Cron RateLimit Recovery Handler Server Lifecycle System SettleSpecs ServerPrograms QueueSpecs Pool.

Open Scope string_scope.
Open Scope Z_scope.
Open Scope list_scope.

Section Process.
Context {S : Type} `{Redis S} `{LuaFloats} `{Json WfRecord} `{SortFunc} `{CronLib} `{Json cronState}.
Context (huge : Z) (sv : Server (S := S)) (world : S → S → Prop).
#[local] Abbreviation the_pool := (pool (S := S)).

(** The goroutines beside the pool: [promoteLoop], [heartbeatLoop],
    [Recovery.Run], and [Cron.Run] before and after it has seeded its entries. *)
Inductive upkeep : Type :=
  | Promoting
  | Beating
  | Sweeping (cfg : RecoveryConfig)
  | Seeding (c : Cron)
  | Scheduling (c : Cron).

(** Where [Start] is: setting up the schedule; waiting for the signal; waiting for
    its goroutines; about to deregister the worker, the goroutines done or not;
    returned; returned with the error of the schedule.  Or a panic has ended the
    process. *)
Inductive stage : Type :=
  | Starting
  | Serving
  | Draining
  | Leaving (drained : bool)
  | Finished (drained : bool)
  | Failed (err : error)
  | Crashed (panic : string).

Record process : Type := Process { pl : the_pool; alive : list upkeep; at_stage : stage }.

Definition set_server (s : S) (p : the_pool) : the_pool := Pool.Pool s (poller p) (taken p) (running p) (cancelled p).
Definition cancel (p : the_pool) : the_pool := Pool.Pool (server p) (poller p) (taken p) (running p) true.

(** What [Start] begins with: a first heartbeat, and then the poller and three
    loops run. *)
Inductive begins (s : S) : process → Prop :=
  | begins_starting now :
      begins s (Process (start (Start_beat now sv s).1) [Promoting; Beating; Sweeping (recovery_config sv)] Starting).

(** The loop of [u] gets its tick; [jobs] is what the heartbeat finds in the
    in-flight table. *)
Definition upkeep_round (u : upkeep) (clk : nat → Z) (stopped : nat → bool) (jobs : list (string * string))
    (s : S) : S :=
  match u with
  | Promoting => (promote_tick clk (cfgQueues (cfg sv)) s).1
  | Beating => (heartbeat_tick clk (stopped 0%nat) (workerID sv) jobs s).1
  | Sweeping r => (sweep clk stopped r s).1
  | Scheduling c => (tick (clk 0%nat) c s).1
  | Seeding _ => s
  end.

(** A schedule that is not seeded yet has no loop. *)
Definition seeded (u : upkeep) : bool := match u with Seeding _ => false | _ => true end.

(** Only jobs at work are in the in-flight table. *)
Definition in_flight (p : the_pool) (jobs : list (string * string)) : Prop :=
  jobs ⊆ ((λ rec, (ID rec, Job.Queue rec)) <$> running p).

(** A round of a loop.  A [select] may take a tick although the context is done. *)
Inductive round_step : process → process → Prop :=
  | goes_round p before u after st clk stopped jobs : seeded u = true →
      (∀ n, wf_clock (clk n)) → (∀ i, stopped i = true → cancelled p = true) → in_flight p jobs →
      round_step (Process p (before ++ u :: after) st)
        (Process (set_server (upkeep_round u clk stopped jobs (server p)) p) (before ++ u :: after) st).

(** A job runs; [turns] is what others do before each of its calls. *)
Definition job_runs (rec : JobRecord) (s : S) (w : Server.world (S := S)) (r : result string string) : Prop :=
  ∃ clk newID turns, (∀ n, wf_clock (clk n)) ∧ wf_id newID ∧ Forall (λ turn, ∀ s, world s (turn s)) turns ∧
    processJob huge sv clk newID rec (World s ∅ [] turns) = (w, r).

(** What else the process does by itself. *)
Inductive end_step : process → process → Prop :=
  | poller_goes p p' us st : poll_step sv p p' → end_step (Process p us st) (Process p' us st)
  | job_goes s ph n before rec rest c us st w outcome : job_runs rec s w (Ok outcome) →
      end_step (Process (Pool.Pool s ph (Datatypes.S n) (before ++ rec :: rest) c) us st)
        (Process (Pool.Pool (srv w) ph n (before ++ rest) c) us st)
  | job_panics s ph n before rec rest c us st w v : job_runs rec s w (Err v) →
      end_step (Process (Pool.Pool s ph n (before ++ rec :: rest) c) us st)
        (Process (Pool.Pool (srv w) Returned 0 [] true) [] (Crashed v))
  | sets_up p us schedule : start_schedule sv = Ok schedule →
      end_step (Process p us Starting) (Process p (us ++ (Seeding <$> option_list schedule)) Serving)
  | sets_up_fails p us err : start_schedule sv = Err err →
      end_step (Process p us Starting) (Process (cancel p) us (Failed err))
  | seeds p before c after st now :
      end_step (Process p (before ++ Seeding c :: after) st)
        (Process (set_server (seedNextRuns now c (server p)).1 p) (before ++ Scheduling c :: after) st)
  | upkeep_ends p before u after st : cancelled p = true → seeded u = true →
      end_step (Process p (before ++ u :: after) st) (Process p (before ++ after) st)
  | stops p us : cancelled p = true → end_step (Process p us Serving) (Process p us Draining)
  | drained p : poller p = Returned → running p = [] →
      end_step (Process p [] Draining) (Process p [] (Leaving true))
  | times_out p us : end_step (Process p us Draining) (Process p us (Leaving false))
  | deregisters p us b :
      end_step (Process p us (Leaving b)) (Process (set_server (Start_shutdown sv (server p)).1 p) us (Finished b)).

(** The signal, [Stop], and the rest of the world. *)
Inductive outer : process → process → Prop :=
  | signalled p us : outer (Process p us Serving) (Process (cancel p) us Draining)
  | elsewhere p p' us st : outer_step world p p' → outer (Process p us st) (Process p' us st).

Definition own (p p' : process) : Prop := round_step p p' ∨ end_step p p'.
Definition process_step (p p' : process) : Prop := own p p' ∨ outer p p'.

(** *** The order of the shutdown *)

(** Nothing of the process is left but [Start] itself. *)
Definition quiet (p : process) : Prop :=
  poller (pl p) = Returned ∧ running (pl p) = [] ∧ alive p = [].

Record ordered (p : process) : Prop := {
  ordered_cancelled : at_stage p ≠ Starting → at_stage p ≠ Serving → cancelled (pl p) = true;
  ordered_quiet : at_stage p = Leaving true ∨ at_stage p = Finished true → quiet p
}.

Lemma ordered_begins s p : begins s p → ordered p.
Proof. intros Hp. destruct Hp. split; cbn; [done|by intros [?|?]]. Qed.

Lemma poll_cancelled p p' : cancelled p = true → poll_step sv p p' → cancelled p' = true.
Proof. intros Hc Hs. by apply (own_step_stopped sv p p' Hc (or_introl Hs)). Qed.

Lemma quiet_poll p p' : poller p = Returned → ¬ poll_step sv p p'.
Proof. intros Hr Hs. by destruct Hs. Qed.

Lemma ordered_step p p' : ordered p → process_step p p' → ordered p'.
Proof.
  intros [Hc Hq] [[Hs|Hs]|Hs]; destruct Hs; cbn [pl alive at_stage] in *; split; cbn [pl alive at_stage].
  all: try done; try exact Hc.
  all: try (intros Hst; apply Hq in Hst as (_ & _ & Hn); by destruct before).
  all: try (intros Hst; apply Hq in Hst as (_ & Hn & _); by destruct before).
  all: try (by intros [?|?]).
  all: try (by intros _ _; apply Hc).
  - intros Hst Hst'. eapply poll_cancelled; [by apply Hc|done].
  - intros Hst. exfalso. destruct (Hq Hst) as (Hr & _). by eapply quiet_poll.
  - intros [?|[= ->]]; [done|]. apply Hq. by left.
  - intros Hst Hst'. eapply outer_step_stopped; [by apply Hc|done].
  - intros Hst. destruct (Hq Hst) as (H1' & H2' & H3'). cbn in *.
    match goal with Ho : outer_step _ _ _ |- _ => destruct Ho end; by cbn in *.
Qed.

Lemma ordered_steps s p p' : begins s p → rtc process_step p p' → ordered p'.
Proof. intros Hb%ordered_begins Hs. induction Hs; eauto using ordered_step. Qed.

Lemma quiet_own p p'' : quiet p → at_stage p = Leaving true ∨ at_stage p = Finished true → own p p'' →
  at_stage p = Leaving true ∧ at_stage p'' = Finished true ∧
  server (pl p'') = (Start_shutdown sv (server (pl p))).1.
Proof.
  intros (Hr & Hj & Ha) Hst Hs.
  assert (Hno : ∀ {A} (before : list A) x after, before ++ x :: after ≠ []) by (by intros ? [] ? ?).
  destruct Hs as [Hs|Hs]; destruct Hs; cbn [pl alive at_stage running] in *; try (by edestruct @Hno).
  all: try (by destruct Hst).
  - exfalso. by eapply quiet_poll.
  - destruct Hst as [[= ->]|?]; [by split_and!|done].
Qed.

(** C17: the deregistration comes last.  When [Start] is about to return after
    its goroutines are done, the poller has returned, no job is running and no
    loop is alive; all the process can still do is to deregister the worker,
    and after that it does nothing to the server any more. *)
Theorem deregistration_last s p p' : begins s p → rtc process_step p p' →
  (at_stage p' = Leaving true ∨ at_stage p' = Finished true → quiet p') ∧
  (at_stage p' = Leaving true → ∀ p'', own p' p'' →
     at_stage p'' = Finished true ∧ server (pl p'') = (Start_shutdown sv (server (pl p'))).1) ∧
  (at_stage p' = Finished true → ∀ p'', ¬ own p' p'').
Proof.
  intros Hb Hs. pose proof (ordered_quiet _ (ordered_steps _ _ _ Hb Hs)) as Hq. split_and!; [done|..].
  - intros Hst p'' Ho. by eapply quiet_own; [apply Hq; left|left|].
  - intros Hst p'' Ho. destruct (quiet_own p' p'') as (Hst' & _); [by apply Hq; right|by right|done|].
    by rewrite Hst in Hst'.
Qed.

(** *** The end of the process *)

(** What a goroutine of the upkeep has left to do. *)
Definition upkeep_left (u : upkeep) : nat := if seeded u then 1 else 2.

Definition stage_left (st : stage) : nat :=
  match st with
  | Starting => 6 | Serving => 3 | Draining => 2 | Leaving _ => 1 | Finished _ | Failed _ | Crashed _ => 0
  end.

Definition process_left (p : process) : nat :=
  (left_over (pl p) + sum_list_with upkeep_left (alive p) + stage_left (at_stage p))%nat.

(** A run with [n] steps of the process towards its end; in between the loops may
    get their ticks. *)
Inductive runs : nat → process → process → Prop :=
  | runs_nil p : runs 0 p p
  | runs_end n p p1 p' : end_step p p1 → runs n p1 p' → runs (Datatypes.S n) p p'
  | runs_other n p p1 p' : round_step p p1 ∨ outer p p1 → runs n p1 p' → runs n p p'.

Lemma slots_process p p' : slots sv (pl p) → process_step p p' → slots sv (pl p').
Proof.
  intros Hp [[Hs|Hs]|Hs]; destruct Hs; cbn [pl] in *; try done; try (by split; apply Hp).
  - by eapply (slots_step sv world); [|left; left].
  - destruct Hp as [Ht Hb]. cbn in *. split; cbn; rewrite ?length_app in *; cbn in *; lia.
  - split; cbn; lia.
  - by eapply (slots_step sv world); [|right].
Qed.

Lemma sum_upkeep before u after :
  sum_list_with upkeep_left (before ++ u :: after) =
  (sum_list_with upkeep_left (before ++ after) + upkeep_left u)%nat.
Proof. rewrite !sum_list_with_app. cbn. lia. Qed.

Lemma end_step_left p p' : cancelled (pl p) = true → end_step p p' →
  cancelled (pl p') = true ∧ (process_left p' < process_left p)%nat.
Proof.
  intros Hc Hs. unfold process_left. destruct Hs; cbn [pl alive at_stage stage_left cancelled] in *;
    rewrite ?sum_upkeep; try (split; [done|unfold left_over; cbn; lia]).
  - match goal with Ho : poll_step _ _ _ |- _ => destruct (own_step_stopped sv _ _ Hc (or_introl Ho)) end.
    split; [done|lia].
  - split; [done|]. unfold left_over. cbn [running poller]. rewrite !length_app. cbn. lia.
  - split; [done|]. unfold left_over. cbn [running poller weight sum_list_with]. rewrite length_app. cbn. lia.
  - split; [done|]. rewrite sum_list_with_app. destruct schedule; cbn; lia.
  - split; [done|]. unfold upkeep_left. match goal with Hu : seeded _ = true |- _ => rewrite Hu end. lia.
Qed.

Lemma other_step_left p p' : cancelled (pl p) = true → round_step p p' ∨ outer p p' →
  cancelled (pl p') = true ∧ (process_left p' ≤ process_left p)%nat.
Proof.
  intros Hc [Hs|Hs]; unfold process_left; destruct Hs; cbn [pl alive at_stage stage_left] in *;
    rewrite ?sum_upkeep; try (split; [done|unfold left_over; cbn; lia]).
  match goal with Ho : outer_step _ _ _ |- _ => destruct (outer_step_stopped _ _ _ Hc Ho) as [? ->] end.
  by split.
Qed.

(** A job at work can be run to its end. *)
Lemma job_progress p us st : slots sv p → running p ≠ [] → ∃ p', end_step (Process p us st) p'.
Proof.
  destruct p as [s ph n [|rec jobs] c]; [done|]. intros [Ht _] _. cbn in Ht. destruct n as [|n]; [lia|].
  destruct (processJob huge sv (λ _, 0) "x" rec (World s ∅ [] [])) as [w r] eqn:E.
  assert (Hrun : job_runs rec s w r).
  { exists (λ _, 0), "x", []. split_and!; [intros _; decide_now|decide_now|constructor|exact E]. }
  destruct r as [outcome|v]; eexists; [by eapply (job_goes s ph n [])|by eapply (job_panics s ph _ [])].
Qed.

Lemma ended_progress p : slots sv (pl p) → cancelled (pl p) = true → (∀ p', ¬ end_step p p') →
  quiet p ∧ ((∃ b, at_stage p = Finished b) ∨ (∃ err, at_stage p = Failed err) ∨ ∃ v, at_stage p = Crashed v).
Proof.
  destruct p as [p us st]. cbn [pl]. intros Hp Hc Hend. split.
  - assert (Hj : running p = []).
    { destruct (running p) as [|rec jobs] eqn:E; [done|]. exfalso.
      destruct (job_progress p us st Hp ltac:(by rewrite E)) as [p' Hs]. by eapply Hend. }
    destruct (stopped_progress sv p Hp Hc) as [Hr _].
    { intros p' [Hs|Hs]; [eapply Hend; by apply poller_goes|]. destruct Hs; cbn in Hj. by destruct before. }
    split_and!; [done|done|]. cbn. destruct us as [|u us]; [done|]. exfalso.
    destruct u; try (by eapply Hend, (upkeep_ends p [])). by eapply Hend, (seeds p []).
  - destruct st; cbn; eauto; exfalso; try (by eapply Hend; constructor).
    destruct (start_schedule sv) as [schedule|err] eqn:E; eapply Hend; [by eapply sets_up|by eapply sets_up_fails].
  Unshelve. exact 0.
Qed.

(** C18: a server that is told to stop ends.  From the cancellation on, however the
    loops of the upkeep, the jobs, the server, the network and other processes
    interleave, the process takes no more steps towards its end than its state
    bounds; and when there is none left to take, [Start] has returned and so have
    all of its goroutines, or a panic of a job that nothing recovers has ended
    the process. *)
Theorem stop_returns s p0 p n p' : begins s p0 → rtc process_step p0 p → cancelled (pl p) = true →
  runs n p p' →
  (n ≤ process_left p)%nat ∧
  ((∀ p'', ¬ end_step p' p'') →
   quiet p' ∧ ((∃ b, at_stage p' = Finished b) ∨ (∃ err, at_stage p' = Failed err) ∨ ∃ v, at_stage p' = Crashed v)).
Proof.
  intros Hb Hs Hc Hrun. assert (Hp : slots sv (pl p)).
  { assert (H0' : slots sv (pl p0)) by (destruct Hb; split; cbn; lia).
    clear Hb Hrun Hc. induction Hs; eauto using slots_process. }
  clear Hb Hs. induction Hrun as [p|n p p1 p' Hstep _ IH|n p p1 p' Hstep _ IH].
  - split; [lia|]. by apply ended_progress.
  - destruct (end_step_left p p1 Hc Hstep) as [Hc1 Hlt].
    destruct IH as [Hn Hend]; [done|by eapply slots_process; [|left; right]|]. split; [lia|done].
  - destruct (other_step_left p p1 Hc Hstep) as [Hc1 Hle].
    destruct IH as [Hn Hend]; [done|eapply slots_process; [done|]|].
    { destruct Hstep; [left; by left|by right]. }
    split; [lia|done].
Qed.
End Process.

(** *** A process is requests *)

Section Requests.
Context {S : Type} `{RedisLaws S} `{LuaFloatLaws} `{JsonLaws WfRecord} `{SortFunc} `{CronLib} `{Json cronState}.
Context (huge : Z) (sv : Server (S := S)) (Hsv : good_server sv).
Context (Hqueues : Forall (λ qw, wf_queue (Server.Name qw)) (cfgQueues (cfg sv))).
Context (Hcron : Forall (λ ce, cQueue ce = "" ∨ wf_queue (cQueue ce)) (cfgCron (cfg sv))).

Definition wf_upkeep (u : upkeep) : Prop :=
  match u with
  | Sweeping r => Forall wf_queue (Recovery.Queues r) ∧ safe_int (Recovery.Limit r)
  | Seeding c | Scheduling c => Forall (λ e, wf_queue (eQueue (entry e))) (entries c)
  | _ => True
  end.

Definition wf_phase (p : phase) : Prop :=
  match p with
  | Round rest _ => Forall wf_queue rest
  | Asking q rest _ => wf_queue q ∧ Forall wf_queue rest
  | _ => True
  end.

Record lawful (p : process (S := S)) : Prop := {
  lawful_reachable : reachable (server (pl p));
  lawful_phase : wf_phase (poller (pl p));
  lawful_running : Forall wf_names (running (pl p));
  lawful_alive : Forall wf_upkeep (alive p)
}.

Lemma clock_time t : wf_clock t → wf_time t ∧ wf_time (t + DefaultLeaseDuration).
Proof.
  intros Ht. split; [|apply wf_clock_delay; [done|decide_now]].
  rewrite <- (Z.add_0_r t). apply wf_clock_delay; [done|decide_now].
Qed.

Lemma wf_rotation `{!SortFuncLaws} : Forall wf_queue (queue_names sv).
Proof.
  unfold queue_names. destruct (StrictPriority _).
  - unfold buildStrictQueues. apply Forall_fmap. by rewrite sort_perm.
  - unfold buildWeightedQueues. apply Forall_forall. intros q (qw & Hq & Hin)%list_elem_of_bind.
    apply elem_of_replicate in Hq as [-> _]. by apply (proj1 (Forall_forall _ _) Hqueues).
Qed.

Lemma upkeep_round_steps u clk stopped jobs s : reachable s → wf_upkeep u → (∀ n, wf_clock (clk n)) →
  Forall (λ job, wf_id job.1 ∧ wf_queue job.2) jobs →
  rtc step s (upkeep_round sv u clk stopped jobs s).
Proof.
  intros Hs Hu Hclk Hjobs.
  assert (Hc : ∀ n, wf_time (clk n) ∧ wf_time (clk n + DefaultLeaseDuration)) by (intros; by apply clock_time).
  destruct u; cbn in *.
  - apply (issues_promote_tick clk (cfgQueues (cfg sv)) ltac:(apply Hc) Hqueues s Hs).
  - apply (issues_heartbeat_tick clk _ _ jobs ltac:(apply Hc) Hjobs s Hs).
  - destruct Hu as [Hq Hl]. apply (issues_sweep clk stopped cfg ltac:(apply Hc) Hq Hl s Hs).
  - done.
  - apply (issues_tick (clk 0%nat) c ltac:(apply Hc) Hu s Hs).
Qed.

Lemma wf_recovery : wf_upkeep (Sweeping (recovery_config sv)).
Proof. split; [cbn; by apply Forall_fmap|decide_now]. Qed.

Lemma lawful_begins s p : reachable s → begins sv s p → rtc step s (server (pl p)) ∧ lawful p.
Proof.
  intros Hs Hp. destruct Hp as [now]. cbn [pl server start].
  assert (Hr : rtc step s (Start_beat now sv s).1) by (by apply issues_Start_beat).
  split; [done|]. split; cbn; [by eapply reachable_steps|done|done|].
  repeat constructor; apply wf_recovery.
Qed.

(** The schedule that is set up asks for queues it may use. *)
Lemma wf_start_schedule schedule : start_schedule sv = Ok schedule →
  Forall wf_upkeep (Seeding <$> option_list schedule).
Proof.
  unfold start_schedule. case_decide; [|by intros [= <-]]. cbv zeta. unfold NewCron.
  destruct (parse_entries _) as [ps|] eqn:Hps; [|done]. intros [= <-]. constructor; [|constructor]. cbn.
  eapply wf_entries; [done|]. apply Forall_fmap. exact Hcron.
Qed.

Lemma job_runs_steps rec s w r : reachable s → wf_names rec → job_runs huge sv (rtc step) rec s w r →
  rtc step s (srv w) ∧ reachable (srv w).
Proof.
  intros Hs Hrec (clk & newID & turns & Hclk & Hid & Hturns & E).
  assert (Hr : rtc step s (srv w)); [|split; [done|by eapply reachable_steps]].
  destruct (wissues_processJob huge sv Hsv clk Hclk newID Hid rec Hrec (World s ∅ [] turns) Hs) as [Hr _].
  - eapply Forall_impl; [exact Hturns|]. by intros turn Ht s' _.
  - by rewrite E in Hr.
Qed.

#[local] Abbreviation process_step := (process_step huge sv (rtc step)).

Lemma poll_step_lawful `{!SortFuncLaws} p p' us st : lawful (Process p us st) → poll_step sv p p' →
  rtc step (server p) (server p') ∧ lawful (Process p' us st).
Proof.
  intros [Hr Hp Hj Hu] Hs. cbn [pl alive] in *.
  destruct Hs as [| | | |s s' now q rest f n jobs c rec Hnow E|s s' now q rest f n jobs c r Hnow E Hnone| | | |];
    cbn [server poller running] in *;
    try (split; [done|split; cbn; try done; try apply Hp; try apply wf_rotation]).
  - exact (proj1 (Forall_cons _ _ _) Hp).
  - destruct Hp as [Hq Hrest]. destruct (clock_time now Hnow) as [Ht _].
    destruct (issues_Dequeue now q (workerID sv) Hq Ht s Hr) as [Hsteps Hrec]. rewrite E in Hsteps, Hrec. cbn in *.
    split; [done|]. split; cbn; [by eapply reachable_steps| | |done].
    + unfold after_job. destruct (StrictPriority _); [constructor|done].
    + apply Forall_app. split; [done|]. constructor; [by apply Hrec|constructor].
  - destruct Hp as [Hq Hrest]. destruct (clock_time now Hnow) as [Ht _].
    destruct (issues_Dequeue now q (workerID sv) Hq Ht s Hr) as [Hsteps _]. rewrite E in Hsteps. cbn in *.
    split; [done|]. split; cbn; [by eapply reachable_steps|done..].
Qed.

Lemma lawful_step `{!SortFuncLaws} p p' : lawful p → process_step p p' →
  rtc step (server (pl p)) (server (pl p')) ∧ lawful p'.
Proof.
  intros Hl Hs. pose proof Hl as [Hr Hp Hj Hu].
  assert (Hmid : ∀ before u after, alive p = before ++ u :: after →
    Forall wf_upkeep before ∧ wf_upkeep u ∧ Forall wf_upkeep after).
  { intros before u after E. rewrite E, Forall_app, Forall_cons in Hu. tauto. }
  destruct Hs as [[Hs|Hs]|Hs]; destruct Hs; cbn [pl alive] in *.
  - destruct (Hmid _ _ _ eq_refl) as (H1' & H2' & H3'). assert (Hsteps : rtc step (server p)
      (upkeep_round sv u clk stopped jobs (server p))).
    { apply upkeep_round_steps; [done..|]. apply Forall_forall. intros job Hin.
      match goal with Hf : in_flight _ _ |- _ => apply Hf in Hin end.
      apply list_elem_of_fmap in Hin as (rec & -> & Hin).
      destruct (proj1 (Forall_forall _ _) Hj rec Hin) as (? & ? & _). by split. }
    split; [done|]. split; cbn; [by eapply reachable_steps|done..].
  - by apply poll_step_lawful.
  - cbn in *. rewrite Forall_app, Forall_cons in Hj. destruct Hj as (Hb & Hrec & Ha).
    match goal with Hrun : job_runs _ _ _ _ _ _ _ |- _ =>
      destruct (job_runs_steps _ _ _ _ Hr Hrec Hrun) as [Hsteps Hr'] end.
    split; [done|]. split; cbn; [done..| |done]. by apply Forall_app.
  - cbn in *. rewrite Forall_app, Forall_cons in Hj. destruct Hj as (Hb & Hrec & Ha).
    match goal with Hrun : job_runs _ _ _ _ _ _ _ |- _ =>
      destruct (job_runs_steps _ _ _ _ Hr Hrec Hrun) as [Hsteps Hr'] end.
    split; [done|]. split; cbn; [done|exact I|constructor|constructor].
  - split; [done|]. split; cbn; [done..|]. apply Forall_app. split; [done|by apply wf_start_schedule].
  - split; [done|]. by split.
  - destruct (Hmid _ _ _ eq_refl) as (H1' & H2' & H3').
    assert (Hsteps : rtc step (server p) (seedNextRuns now c (server p)).1) by (by apply issues_seedNextRuns).
    split; [done|]. split; cbn; [by eapply reachable_steps|done..|].
    apply Forall_app. split; [done|]. by constructor.
  - destruct (Hmid _ _ _ eq_refl) as (H1' & H2' & H3').
    split; [done|]. split; cbn; [done..|]. apply Forall_app. by split.
  - split; [done|]. by split.
  - split; [done|]. by split.
  - split; [done|]. by split.
  - assert (Hsteps : rtc step (server p) (Start_shutdown sv (server p)).1) by (by apply issues_Start_shutdown).
    split; [done|]. split; cbn; [by eapply reachable_steps|done..].
  - split; [done|]. by split.
  - match goal with Ho : outer_step _ _ _ |- _ => destruct Ho end; cbn in *.
    + split; [done|]. split; cbn; [by eapply reachable_steps|done..].
    + split; [done|]. by split.
Qed.

(** C16: a whole server is requests.  From [Start] to its end, or to the panic
    that ends it, its poller, its loops, the jobs it runs from their first call
    to their last, the set-up of the schedule, which may fail while jobs are
    already at work, and the shutdown do nothing to Redis but atomic steps of the
    transition system, however they interleave with each other and with other
    processes that do the same; so the invariants hold at every moment of the
    server's life.  Its handlers, middleware and hooks are assumed to talk to
    Redis by requests only; the queues of the jobs at work are ones it may use. *)
Theorem server_is_requests `{!SortFuncLaws} s p p' : reachable s → begins sv s p → rtc process_step p p' →
  rtc step s (server (pl p')) ∧ reachable (server (pl p')) ∧ Forall wf_names (running (pl p')).
Proof.
  intros Hs Hb Hrun. destruct (lawful_begins s p Hs Hb) as [Hr Hl].
  assert (Hall : rtc step (server (pl p)) (server (pl p')) ∧ lawful p').
  { clear Hb Hr. induction Hrun as [p|p p1 p' Hstep _ IH]; [by split|].
    destruct (lawful_step _ _ Hl Hstep) as [Hr1 Hl1]. destruct (IH Hl1) as [Hr2 Hl2].
    split; [by etransitivity|done]. }
  destruct Hall as [Hr' Hl']. split_and!; [by etransitivity|apply Hl'..].
Qed.
End Requests.
