(* ===== verification/Waiting.v ===== *)
(** * Waiting: how long a ready job waits for a weighted poller

    A job in the ready set of a queue has so many jobs ahead of it.  As long as
    nobody pauses the queue or puts a job before it, every question the poller
    asks the queue takes one of those away, and a weighted poller asks every
    queue in every round; so the job is handed out after a number of questions
    that the jobs ahead of it bound. *)
From S2P Require Import Prelude Float Keys Redis Lua Keyspace Job Scripts Queue ScriptSpecs QueueSpecs Places Client Winter Json Workflow Cron RateLimit Recovery Handler Server Moves Texts Lifecycle System ServerSpecs SettleSpecs ServerPrograms Pool Fairness Process.

Open Scope string_scope.
Open Scope Z_scope.
Open Scope list_scope.

Section Waiting.
Context {S : Type} `{RedisLaws S} `{!Reliable S} `{LuaFloatLaws} `{JsonLaws WfRecord} `{SortFuncLaws}.
Context (sv : Server (S := S)) (world : S → S → Prop).
Context (Hqueues : Forall (λ qw, wf_queue (Server.Name qw)) (cfgQueues (cfg sv))).
Context (q j : string) (prio : Z) (Hq : wf_queue q).

Definition queued (s : S) : Prop := zset_at (ks s) (readyKey q) !! j = Some prio.

(** How many jobs are before it in the order of priority and id. *)
Definition ahead (s : S) : nat :=
  size (filter (λ e, zle e (j, prio) ∧ e.1 ≠ j) (zset_at (ks s) (readyKey q))).

Definition unpaused (s : S) : Prop := ks s !! pausedKey q = None.

(** What the jobs at work and other processes do to the server: requests, none of
    which pauses the queue or puts a job before the one that waits. *)
Record courteous : Prop := {
  world_requests s s' : world s s' → reachable s → rtc step s s';
  world_yields s s' : world s s' → reachable s → queued s → queued s' → unpaused s →
    unpaused s' ∧ (ahead s' ≤ ahead s)%nat
}.

(** A run of the pool in which the job waits, and the queues it asks. *)
Inductive waits (p0 : pool (S := S)) : list string → pool → Prop :=
  | waits_now : queued (server p0) → waits p0 [] p0
  | waits_step log p p' : waits p0 log p → pool_step sv world p p' → queued (server p') →
      waits p0 (log ++ asked p p') p'.

(** *** One question *)

Lemma ahead_delete (z : gmap string Z) x n : z !! x = Some n → x ≠ j → zle (x, n) (j, prio) →
  Datatypes.S (size (filter (λ e, zle e (j, prio) ∧ e.1 ≠ j) (delete x z))) =
  size (filter (λ e, zle e (j, prio) ∧ e.1 ≠ j) z).
Proof.
  intros Hx Hne Hle. rewrite map_filter_delete.
  assert (Hin : filter (λ e, zle e (j, prio) ∧ e.1 ≠ j) z !! x = Some n).
  { apply map_lookup_filter_Some. by split. }
  rewrite map_size_delete, Hin.
  assert (size (filter (λ e, zle e (j, prio) ∧ e.1 ≠ j) z) ≠ 0%nat); [|lia].
  intros E. apply map_size_empty_inv in E. rewrite E, lookup_empty in Hin. done.
Qed.

(** The queue of the job gives the first of those ahead of it, or the job. *)
Lemma ask_queue now s w : reachable s → wf_time now → unpaused s → queued s →
  ∃ rec, (Dequeue now q w s).2 = Ok (Some rec) ∧ unpaused (Dequeue now q w s).1 ∧
    (queued (Dequeue now q w s).1 → Datatypes.S (ahead (Dequeue now q w s).1) = ahead s).
Proof.
  intros Hs Hnow Hp Hj. unfold unpaused, queued, ahead in *.
  apply (wp_Dequeue now q w (ks s) (λ m' r, ∃ rec, r = Ok (Some rec) ∧ m' !! pausedKey q = None ∧
    (zset_at m' (readyKey q) !! j = Some prio →
     Datatypes.S (size (filter (λ e, zle e (j, prio) ∧ e.1 ≠ j) (zset_at m' (readyKey q)))) =
     size (filter (λ e, zle e (j, prio) ∧ e.1 ≠ j) (zset_at (ks s) (readyKey q)))))); [|done|done| | |done].
  - by apply inv_wf, sound_inv, reachable_sound.
  - intros [[? Hn]|Hn]; [by rewrite Hp in Hn|by rewrite Hn in Hj].
  - intros x n rest _ Hz Hx m'. destruct (zsorted_head _ _ _ _ Hz) as [Hin Hmin]. eexists. split; [done|].
    assert (E : zset_at m' (readyKey q) = delete x (zset_at (ks s) (readyKey q)))
      by (unfold m', dequeue_ks; by ks_simp).
    split; [unfold m', dequeue_ks; by ks_simp|]. rewrite E. intros Hq'.
    apply (ahead_delete _ x n); [done| |by apply Hmin]. intros ->. by rewrite lookup_delete_eq in Hq'.
Qed.

(** Another queue does not concern it. *)
Lemma ask_other now s w q' : reachable s → wf_time now → wf_queue q' → q' ≠ q →
  ks (Dequeue now q' w s).1 !! readyKey q = ks s !! readyKey q ∧
  ks (Dequeue now q' w s).1 !! pausedKey q = ks s !! pausedKey q.
Proof.
  intros Hs Hnow Hq' Hne.
  apply (wp_Dequeue now q' w (ks s) (λ m' r, m' !! readyKey q = ks s !! readyKey q ∧
    m' !! pausedKey q = ks s !! pausedKey q)); [|done|done|done| |done].
  - by apply inv_wf, sound_inv, reachable_sound.
  - intros x n rest _ _ Hx m'. unfold m', dequeue_ks. split; by ks_simp.
Qed.

(** *** Who gives way *)

Lemma ahead_frame s s' : ks s' !! readyKey q = ks s !! readyKey q → ahead s' = ahead s.
Proof. intros E. unfold ahead. by rewrite (zset_at_ext _ _ _ E). Qed.

(** Workers that take jobs of the queue, and requests that do not concern its
    ready set and its flag. *)
Inductive beside : S → S → Prop :=
  | beside_takes now w s : wf_clock now → beside s (Dequeue now q w s).1
  | beside_other s s' : step s s' → ks s' !! readyKey q = ks s !! readyKey q →
      ks s' !! pausedKey q = ks s !! pausedKey q → beside s s'.

Lemma beside_courteous : (∀ s s', world s s' → beside s s') → courteous.
Proof.
  intros Hb. split.
  - intros s s' Hstep%Hb Hs. destruct Hstep as [now w s Hnow|s s' Hstep _ _]; [|by apply rtc_once].
    apply (issues_Dequeue now q w Hq (proj1 (clock_time now Hnow)) s Hs).
  - intros s s' Hstep%Hb Hs Hj Hj' Hp. destruct Hstep as [now w s Hnow|s s' _ Er Ep].
    + destruct (ask_queue now s w Hs (proj1 (clock_time now Hnow)) Hp Hj) as (rec & _ & Hp' & Ha).
      specialize (Ha Hj'). split; [done|lia].
    + split; [by unfold unpaused; rewrite Ep|by rewrite (ahead_frame s s' Er)].
Qed.

(** *** All questions *)

(** The question that has no answer yet. *)
Definition pending (p : pool (S := S)) : nat :=
  match poller p with Asking q' _ _ => if decide (q' = q) then 1 else 0 | _ => 0 end.

Record waiting (p0 : pool (S := S)) (log : list string) (p : pool (S := S)) : Prop := {
  waiting_reachable : reachable (server p);
  waiting_phase : wf_phase (poller p);
  waiting_unpaused : unpaused (server p);
  waiting_queued : queued (server p);
  waiting_turns : asks q log + Z.of_nat (ahead (server p)) ≤ Z.of_nat (ahead (server p0) + pending p)
}.


Lemma asks_one log q' : asks q (log ++ [q']) = asks q log + (if decide (q' = q) then 1 else 0).
Proof. rewrite asks_app. unfold asks. rewrite filter_cons. by case_decide. Qed.

(** Where the server stays as it is. *)
Lemma waiting_same p0 log p log' p' : waiting p0 log p → server p' = server p → wf_phase (poller p') →
  asks q log' + Z.of_nat (pending p) ≤ asks q log + Z.of_nat (pending p') → waiting p0 log' p'.
Proof. intros [Hs Hph Hp Hj Ht] E Hph' Hle. split; rewrite ?E; try done. lia. Qed.

(** The answer to a question. *)
Lemma waiting_answer p0 log s q' rest f n jobs c now ph n' jobs' :
  waiting p0 log (Pool s (Asking q' rest f) n jobs c) → wf_clock now → wf_phase ph →
  (match ph with Asking _ _ _ => False | _ => True end) →
  queued (Dequeue now q' (workerID sv) s).1 →
  waiting p0 log (Pool (Dequeue now q' (workerID sv) s).1 ph n' jobs' c).
Proof.
  intros [Hs Hph Hp Hj Ht] Hnow Hph' Hna Hj'. cbn [server poller] in *. destruct Hph as [Hq' Hrest].
  destruct (clock_time now Hnow) as [Hn _].
  assert (Hs' : reachable (Dequeue now q' (workerID sv) s).1)
    by (by apply (issues_reachable _ _ s (issues_Dequeue now q' (workerID sv) Hq' Hn))).
  assert (Hpend : pending (Pool (Dequeue now q' (workerID sv) s).1 ph n' jobs' c) = 0%nat) by (by destruct ph).
  unfold pending in Ht. cbn [poller] in Ht. case_decide as E.
  - subst q'. destruct (ask_queue now s (workerID sv) Hs Hn Hp Hj) as (rec & _ & Hp' & Ha).
    specialize (Ha Hj'). split; cbn [server poller]; try done. rewrite Hpend. lia.
  - destruct (ask_other now s (workerID sv) q' Hs Hn Hq' E) as [Ea Ep].
    split; cbn [server poller]; try done.
    + unfold unpaused. by rewrite Ep.
    + rewrite Hpend, (ahead_frame _ _ Ea). exact Ht.
Qed.

(** What the pool itself does. *)
Lemma waiting_own p0 log p p' : waiting p0 log p → own_step sv p p' → queued (server p') →
  waiting p0 (log ++ asked p p') p'.
Proof.
  intros Hp [Hstep|Hstep] Hj'; pose proof (waiting_phase _ _ _ Hp) as Hph.
  - destruct Hstep as [| | | |s s' now q' rest f n jobs c rec Hnow E|s s' now q' rest f n jobs c r Hnow E _| | | |];
      unfold asked; cbn [server poller] in *; rewrite ?app_nil_r;
      try (by apply (waiting_same _ _ _ _ _ Hp); [done|first [exact I|exact Hph|by apply wf_rotation]|]).
    + apply (waiting_same _ _ _ _ _ Hp); [done|exact (proj1 (Forall_cons _ _ _) Hph)|].
      rewrite asks_one. unfold pending. cbn [poller]. case_decide; lia.
    + rewrite <- (f_equal fst E : (Dequeue now q' (workerID sv) s).1 = s') in *.
      eapply waiting_answer; [exact Hp|done| |done|done].
      destruct Hph as [_ Hrest]. cbn. unfold after_job. destruct (StrictPriority _); [constructor|done].
    + rewrite <- (f_equal fst E : (Dequeue now q' (workerID sv) s).1 = s') in *.
      eapply waiting_answer; [exact Hp|done|apply Hph|done|done].
  - rewrite asked_same by (by destruct Hstep). rewrite app_nil_r.
    destruct Hstep. by apply (waiting_same _ _ _ _ _ Hp).
Qed.

(** What the others do. *)
Lemma waiting_outer p0 log p p' : courteous → waiting p0 log p → outer_step world p p' →
  queued (server p') → waiting p0 (log ++ asked p p') p'.
Proof.
  intros Hw Hp Hstep Hj'. rewrite asked_same by (by destruct Hstep). rewrite app_nil_r.
  pose proof (waiting_phase _ _ _ Hp) as Hph'. destruct Hstep as [s s' ph n jobs c Hstep|s ph n jobs c]; [|by apply (waiting_same _ _ _ _ _ Hp)].
  destruct Hp as [Hs Hph Hp Hj Ht]. cbn [server poller] in *.
  destruct (world_yields Hw s s' Hstep Hs Hj Hj' Hp) as [Hp' Ha].
  split; cbn [server poller]; [|done..|].
  - eapply reachable_steps; [exact Hs|by apply (world_requests Hw)].
  - change (pending (Pool s' ph n jobs c)) with (pending (Pool s ph n jobs c)). lia.
Qed.

Lemma waits_waiting p0 log p : reachable (server p0) → wf_phase (poller p0) → unpaused (server p0) →
  courteous → waits p0 log p → waiting p0 log p.
Proof.
  intros Hs Hph Hp Hw Hrun. induction Hrun as [Hj|log p p' Hrun IH Hstep Hj'].
  - split; [done..|]. unfold asks. cbn. lia.
  - destruct Hstep; [by apply waiting_own|by apply waiting_outer].
Qed.

(** *** The rotation *)

(** The poller only asks queues of the configuration. *)
Lemma polls_phase log p : polls sv world log p → wf_phase (poller p).
Proof.
  induction 1 as [s|log p p' _ Hph [[Hstep|Hstep]|Hstep]]; [exact I| | |].
  - destruct Hstep; cbn in *; try done; try by apply wf_rotation.
    + by apply Forall_cons in Hph.
    + unfold after_job. destruct Hph, (StrictPriority _); [constructor|done].
    + apply Hph.
  - by destruct Hstep.
  - by destruct Hstep.
Qed.

Lemma waits_polls log0 p0 log p : polls sv world log0 p0 → waits p0 log p → polls sv world (log0 ++ log) p.
Proof.
  intros H0' Hrun. induction Hrun as [|log p p' _ IH Hstep _]; [by rewrite app_nil_r|].
  rewrite app_assoc. by apply polls_step.
Qed.

Lemma polls_steps log p : polls sv world log p → slots sv p.
Proof.
  intros Hp. induction Hp as [s|log p p' _ IH Hstep]; [apply slots_start|]. by eapply slots_step.
Qed.

(** C21: a ready job does not wait for ever.  While a job waits in a queue that
    nobody pauses, and nobody puts another job before it, a weighted poller can
    always go on as long as it has not returned, and asks at most so many
    questions as there are turns in as many rounds as jobs are ahead of it, and
    three more: by then the job has been handed out, whatever the other queues
    hold.  The network delivers every request once. *)
Theorem waiting_is_bounded log0 p0 log p : polls sv world log0 p0 → reachable (server p0) →
  unpaused (server p0) → courteous → StrictPriority (cfg sv) = false → 0 < Concurrency (cfg sv) →
  0 < weight_of q (cfgQueues (cfg sv)) → waits p0 log p →
  (length log ≤ (ahead (server p0) + 3) * length (queue_names sv))%nat ∧
  (poller p ≠ Returned → ∃ p', own_step sv p p').
Proof.
  intros Hp0 Hs0 Hu0 Hw Hsp Hc Hwt Hrun.
  pose proof (waits_polls _ _ _ _ Hp0 Hrun) as Hp.
  split; [|intros Hr; apply pool_progress; [by eapply polls_steps|done|done]].
  pose proof (waiting_turns _ _ _ (waits_waiting _ _ _ Hs0 (polls_phase _ _ Hp0) Hu0 Hw Hrun)) as Ht.
  assert (Hpend : (pending p ≤ 1)%nat) by (unfold pending; destruct (poller p); try case_decide; lia).
  destruct (weighted_shares sv world _ _ Hp0 Hsp) as (k0 & Hl0 & Hk0).
  destruct (weighted_shares sv world _ _ Hp Hsp) as (k & Hl & Hk).
  specialize (Hk0 q). specialize (Hk q). rewrite asks_app in Hk. rewrite length_app in Hl.
  set (w := weight_of q (cfgQueues (cfg sv))) in *. set (a := ahead (server p0)) in *.
  assert (Hkk : Z.of_nat k - 1 - Z.of_nat k0 ≤ Z.of_nat a + 1) by nia.
  set (names := length (queue_names sv)) in *. nia.
Qed.
End Waiting.
