(* ===== verification/Standalone.v ===== *)
(** * Standalone: the gRPC server from its start to its end, [cmd/server/main.go]

    Beside the service of Grpc.v the command runs the sweeper and the schedule.
    The gRPC library is an interface: which calls it accepts, which it answers,
    and when its [Serve] returns.  A call is served in one step here; how its
    requests interleave with others is the matter of [ServerPrograms.v]. *)
From S2P Require Import Config Client Grpc Prelude Float Keys Redis Lua Keyspace Job Scripts Queue ScriptSpecs QueueSpecs Places Winter Json Workflow Cron RateLimit Recovery Moves Texts Lifecycle System Programs Handler Server Cli ServerPrograms Connect Refines.

Open Scope string_scope.
Open Scope Z_scope.
Open Scope list_scope.

(** ** Programs that issue requests of one kind *)

Section Does.
Context {S : Type} `{RedisLaws S} `{LuaFloatLaws} `{JsonLaws WfRecord}.
Context (may : op → Prop).

(** The steps of [Lifecycle.v] with requests that [may] names. *)
Inductive does : S → S → Prop :=
  | does_op o s : wf_op o → may o → does s (run_op o s)
  | does_net s : does s (transport s).1
  | does_time d s : 0 ≤ d → does s (advance d s).

Lemma does_step s s' : rtc does s s' → rtc step s s'.
Proof.
  induction 1 as [|s s1 s' Hs _ IH]; [done|]. eapply rtc_l; [|exact IH]. destruct Hs; by constructor.
Qed.

Lemma moves_request {A} (o : op) (script : M S string A) : wf_op o → may o →
  (∀ s, (script s).1 = run_op o s) → moves (rtc does) script.
Proof. intros Ho Hm E s. rewrite E. by apply rtc_once, does_op. Qed.

Lemma moves_round_trip {A} (script : M S string A) : moves (rtc does) script → moves (rtc does) (Run script).
Proof. apply (moves_Run _). intros s. apply rtc_once, does_net. Qed.

Lemma moves_internal {A} context (c : M S error A) : moves (rtc does) c → moves (rtc does) (internal context c).
Proof. intros Hc. unfold internal. repeat moves_step. exact Hc. Qed.
End Does.

Lemma does_mono {S} `{RedisLaws S} `{LuaFloatLaws} `{JsonLaws WfRecord} (may may' : op → Prop) (s s' : S) :
  (∀ o, may o → may' o) → rtc (does may) s s' → rtc (does may') s s'.
Proof.
  intros Hm. induction 1 as [|s s1 s' Hs _ IH]; [done|]. eapply rtc_l; [|exact IH].
  destruct Hs; constructor; auto.
Qed.

(** Walks through a program of one request [o]. *)
Ltac does_step :=
  first [ lazymatch goal with |- moves _ (Run _) => apply moves_round_trip end
        | lazymatch goal with |- moves _ (internal _ _) => apply moves_internal end
        | moves_step ].
Ltac does_one o := repeat does_step; apply (moves_request _ o); [try done|try done|try done].

(** The requests of the standalone server. *)
Definition standalone_op (o : op) : Prop :=
  match o with
  | OEnqueue _ _ _ | ODequeue _ _ _ | OAck _ _ _ _ | ONack _ _ _ _ _ _ _ | OHeartbeat _ _ | ORead _
  | ORecover _ _ _ | OSeed _ _ | OSwap _ _ _ => True
  | _ => False
  end.

Section Requests.
Context {S : Type} `{RedisLaws S} `{LuaFloatLaws} `{JsonLaws WfRecord} `{CronLib} `{Json cronState}.
Context (sha256_hex : string → string).

(** *** The service *)

(** A call, with the clock readings and the id its handler takes. *)
Inductive call : Type :=
  | CEnqueue (id : string) (now : Z) (req : EnqueueRequest)
  | CDequeue (now : Z) (clk : nat → Z) (cancelled : nat → bool) (q w : string) (timeoutMs : Z)
  | CAck (now : Z) (j q w : string)
  | CNack (now : Z) (j q w errMsg : string) (skipRetry : bool)
  | CHeartbeat (now : Z) (w : string)
  | CGetJob (j : string)
  | CQueueStats (q : string).

Inductive response : Type :=
  | RId (id : string)
  | RPolled (job : option (option pbJob))
  | RDone
  | RState (state : string)
  | RJob (job : pbJob)
  | RStats (stats : QueueStatsResponse).

Definition reply_with {A} (f : A → response) (c : M S status A) : M S status response :=
  a ← c; mret (f a).

(** The methods [RegisterQueueServiceServer] registers. *)
Definition method (c : call) : M S status response :=
  match c with
  | CEnqueue id now req => reply_with RId (Grpc.Enqueue sha256_hex id now req)
  | CDequeue now clk cancelled q w t => reply_with RPolled (Grpc.Dequeue now clk cancelled q w t)
  | CAck now j q w => reply_with (λ _, RDone) (Grpc.Ack now j q w)
  | CNack now j q w e skip => reply_with RState (Grpc.Nack now j q w e skip)
  | CHeartbeat now w => reply_with (λ _, RDone) (Grpc.Heartbeat now w)
  | CGetJob j => reply_with RJob (Grpc.GetJob j)
  | CQueueStats q => reply_with RStats (Grpc.QueueStats q)
  end.

Definition method_name (c : call) : string :=
  "/winter.v1.QueueService/" +:+
  match c with
  | CEnqueue _ _ _ => "Enqueue" | CDequeue _ _ _ _ _ _ => "Dequeue" | CAck _ _ _ _ => "Ack"
  | CNack _ _ _ _ _ _ => "Nack" | CHeartbeat _ _ => "Heartbeat" | CGetJob _ => "GetJob"
  | CQueueStats _ => "QueueStats"
  end.

(** A call under the interceptors: what it does to the server and to the log, and
    its answer. *)
Definition serve_call (c : call) (sl : S * list logline) : (S * list logline) * rpc response :=
  chain (λ line sl, (sl.1, sl.2 ++ [line])) (method_name c)
    (λ c sl, let '(s', r) := method_handler method c sl.1 in ((s', sl.2), r)) c sl.

(** Names and numbers in range. *)
Definition wf_grpc (c : call) : Prop :=
  match c with
  | CEnqueue id now req => wf_record (request_job id now req) ∧
      safe_int (unique_slot (request_unique sha256_hex req).1 (request_unique sha256_hex req).2).2
  | CDequeue now clk cancelled q w t => wf_queue q ∧ ∀ n, wf_time (clk n)
  | CAck now j q w => wf_queue q ∧ wf_id j
  | CNack now j q w e skip => wf_queue q ∧ wf_id j ∧ wf_time now
  | _ => True
  end.

Abbreviation asks_only := (moves (rtc (does (S := S) standalone_op))).

Lemma asks_Enqueue job u p : wf_record job → State job = "pending" → safe_int (unique_slot u p).2 →
  asks_only (Queue.Enqueue job u p).
Proof.
  intros Hj Hst Httl. assert (Hop : wf_op (OEnqueue job u p)) by (split; [done|split; [rewrite Hst; by left|done]]).
  unfold Queue.Enqueue. destruct (unique_slot u p) as [uk ttl] eqn:Huk. does_one (OEnqueue job u p).
  intros s. cbn [run_op]. by rewrite Huk.
Qed.

Lemma asks_Dequeue now q w : wf_queue q → wf_time now → asks_only (Queue.Dequeue now q w).
Proof.
  intros Hq Hnow. unfold Queue.Dequeue. repeat does_step. by apply (moves_request _ (ODequeue now q w)).
Qed.

Lemma asks_Nack now q j w e skip b : wf_op (ONack now q j w e b skip) → asks_only (Queue.Nack now q j w e b skip).
Proof.
  intros Ho. unfold Queue.Nack. cbv zeta. replace (if skip then 1 else 0) with (b2z skip) by done.
  repeat does_step. by apply (moves_request _ (ONack now q j w e b skip)).
Qed.

Lemma asks_poll rounds i clk cancelled deadline q w : wf_queue q → (∀ n, wf_time (clk n)) →
  asks_only (poll rounds i clk cancelled deadline q w).
Proof.
  intros Hq Hclk. revert i. induction rounds as [|rounds IH]; intros i; cbn [poll]; repeat does_step.
  - by apply asks_Dequeue.
  - apply IH.
Qed.

Lemma asks_read c : is_read c → asks_only (redis_call c).
Proof. intros Hc. by apply (moves_request _ (ORead c)). Qed.

Lemma asks_QueueStats q : asks_only (Queue.QueueStats q).
Proof.
  unfold Queue.QueueStats, exec_pipeline. repeat does_step.
  match goal with Hin : _ ∈ _ |- _ => rewrite !elem_of_cons in Hin;
    destruct Hin as [->|[->|[->|[->|[->|[]%elem_of_nil]]]]] end; by apply asks_read.
Qed.

Lemma asks_method c : wf_grpc c → asks_only (method c).
Proof.
  intros Hc. destruct c; cbn [wf_grpc method] in *; unfold reply_with;
    (apply (moves_bind _); [|intros; apply (moves_ret _)]).
  - destruct Hc as [Hrec Httl]. unfold Grpc.Enqueue. case_decide; [apply (moves_throw _)|].
    destruct (request_unique sha256_hex req) as [u p]. repeat does_step. by apply asks_Enqueue.
  - destruct Hc as [Hq Hclk]. unfold Grpc.Dequeue. repeat (case_decide; [apply (moves_throw _)|]). by apply asks_poll.
  - destruct Hc as [Hq Hj]. unfold Grpc.Ack. case_decide; [apply (moves_throw _)|]. unfold Queue.Ack.
    repeat does_step. apply (moves_request _ (OAck now q j w)); [by split|done..].
  - destruct Hc as (Hq & Hj & Hnow). unfold Grpc.Nack. case_decide; [apply (moves_throw _)|].
    cbv zeta. apply moves_internal, asks_Nack. assert (Hb : - 2 ^ 52 ≤ Z.quot Second Millisecond ≤ 2 ^ 52) by decide_now.
    exact (conj Hq (conj Hj (conj Hnow Hb))).
  - unfold Grpc.Heartbeat, Queue.Heartbeat. repeat does_step. by apply (moves_request _ (OHeartbeat now w)).
  - unfold Grpc.GetJob, Queue.GetJob. repeat does_step; by apply asks_read.
  - unfold Grpc.QueueStats. repeat does_step. apply asks_QueueStats.
Qed.

Lemma asks_serve_call c s l : wf_grpc c → rtc (does standalone_op) s (serve_call c (s, l)).1.1.
Proof.
  intros Hc. unfold serve_call, chain, RecoveryInterceptor, LoggingInterceptor, method_handler. cbn [fst snd].
  pose proof (asks_method c Hc s) as Hs. by destruct (method c s) as [s' [r|st]].
Qed.

(** *** The sweeper and the schedule *)

Lemma asks_sweep clk stopped r : (∀ n, wf_time (clk n)) → Forall wf_queue (Recovery.Queues r) →
  safe_int (Recovery.Limit r) → asks_only (sweep clk stopped r).
Proof.
  intros Hclk Hqs Hl. unfold sweep. generalize 0%nat.
  induction Hqs as [|q queues Hq _ IH]; intros i; cbn [sweep_queues]; [apply (moves_ret _)|].
  repeat does_step; try apply IH. unfold RecoverExpiredLeases, RecoverExpiredLeasesAt. repeat does_step.
  apply (moves_request _ (ORecover q (Recovery.Limit r) (UnixMilli (clk i)))); [|done|done].
  split_and!; [done|done|by apply wf_time_safe].
Qed.

Lemma asks_seed now c : asks_only (seedNextRuns now c).
Proof.
  unfold seedNextRuns. repeat does_step.
  match goal with |- moves _ (redis_call (HSETNX _ ?name ?state)) => by apply (moves_request _ (OSeed name state)) end.
Qed.

Lemma asks_tick now c : wf_time now → Forall (λ e, wf_queue (eQueue (entry e))) (entries c) →
  asks_only (tick now c).
Proof.
  intros Hnow Hc. unfold tick. apply (moves_for_each _). intros e He.
  pose proof (proj1 (Forall_forall _ _) Hc e He) as Hq. unfold tick_entry, read_state, compareAndSwap.
  repeat does_step; [by apply asks_read|by apply (moves_request _ (OSwap (eName (entry e)) s
    (marshal {| NextRun := next_ms (Cron.Next (sched e) now) |})))|].
  apply asks_Enqueue; [by apply wf_cron_job|done|done].
Qed.
End Requests.

(** ** The gRPC library *)

(** What [main] relies on: a [grpc.Server] is somewhere with calls that arrived
    and have no answer yet.  [GracefulStop] refuses new calls, and [Serve], which
    waits for it, returns when there are none left. *)
Class GrpcLib (C G : Type) := {
  grpc_NewServer : G;
  open_calls : G → list C;
  stopping : G → bool;
  arrives : G → C → G → Prop;
  answered : G → C → G → Prop;
  GracefulStop : G → G;
  Serve_returns : G → bool
}.

Class GrpcLibLaws (C G : Type) `{GrpcLib C G} : Prop := {
  law_NewServer : open_calls (C := C) grpc_NewServer = [] ∧ stopping (C := C) grpc_NewServer = false;
  law_arrives g c g' : arrives g c g' →
    stopping (C := C) g = false ∧ stopping (C := C) g' = false ∧ open_calls g' ≡ₚ c :: open_calls g;
  law_answered g c g' : answered g c g' →
    stopping (C := C) g' = stopping (C := C) g ∧ open_calls g ≡ₚ c :: open_calls g';
  law_answerable g c : c ∈ open_calls g → ∃ g', answered g c g';
  law_GracefulStop g : stopping (C := C) (GracefulStop (C := C) g) = true ∧
    open_calls (C := C) (GracefulStop (C := C) g) = open_calls g;
  law_Serve g : Serve_returns (C := C) g = true ↔ stopping (C := C) g = true ∧ open_calls (C := C) g = []
}.

(** ** The process *)

(** What runs beside the service: the sweeper, and the schedule before and after
    it has seeded its entries. *)
Inductive loop `{CronLib} : Type :=
  | Sweeper (r : RecoveryConfig)
  | Seeder (c : Cron.Cron)
  | Ticker (c : Cron.Cron).

(** Where [main] is: serving; told to stop, the health service saying so; in
    [GracefulStop]; returned; exited because [Serve] failed. *)
Inductive main_stage : Type := Accepting | Unhealthy | Stopping | Exited | Broken.

Section Standalone.
Context {S G : Type} `{RedisLaws S} `{LuaFloatLaws} `{JsonLaws WfRecord} `{CronLib} `{Json cronState}.
Context `{GrpcLibLaws call G}.
Context (sha256_hex : string → string) (world : S → S → Prop).
Context (getenv : string → string) (load : string → result error Config.Config).
Context (range : gmap string QueueConfig → list (string * QueueConfig)) (listen : string → result error unit).

(** What the clients see. *)
Inductive event : Type :=
  | Accepted (c : call)
  | Replied (c : call) (r : rpc response).

Record standalone : Type := Standalone {
  redis : S;
  log : list logline;
  grpc : G;
  healthy : bool;
  loops : list loop;
  main_at : main_stage;
  history : list event
}.

(** [main] has started, with the health service saying SERVING. *)
Inductive started (path : string) (s : S) : standalone → Prop :=
  | main_started s' level recovery schedule :
      server_main getenv load range listen path s = (s', Ok (level, (recovery, schedule))) →
      started path s (Standalone s' [] (grpc_NewServer (C := call)) true
        (Sweeper recovery :: (Seeder <$> option_list schedule)) Accepting []).

(** A round of a loop that has started. *)
Definition loop_round (u : loop) (clk : nat → Z) (stopped : nat → bool) (s : S) : S :=
  match u with
  | Sweeper r => (sweep clk stopped r s).1
  | Ticker c => (tick (clk 0%nat) c s).1
  | Seeder _ => s
  end.

(** The process is there and [Serve] is running. *)
Definition serving (st : main_stage) : Prop := st = Accepting ∨ st = Unhealthy ∨ st = Stopping.

(** What the service does. *)
Inductive service_step : standalone → standalone → Prop :=
  | serves c s l g g' h us st hs s' l' r : serving st → answered g c g' →
      serve_call sha256_hex c (s, l) = ((s', l'), r) →
      service_step (Standalone s l g h us st hs) (Standalone s' l' g' h us st (hs ++ [Replied c r]))
  | stops_gracefully s l g h us hs :
      service_step (Standalone s l g h us Unhealthy hs) (Standalone s l (GracefulStop (C := call) g) h us Stopping hs)
  | main_returns s l g h us hs : Serve_returns (C := call) g = true →
      service_step (Standalone s l g h us Stopping hs) (Standalone s l g h [] Exited hs).

(** What the loops do.  The context ends after [GracefulStop]. *)
Inductive loop_step : standalone → standalone → Prop :=
  | seeds_entries s l g h before c after st hs now : serving st →
      loop_step (Standalone s l g h (before ++ Seeder c :: after) st hs)
        (Standalone (seedNextRuns now c s).1 l g h (before ++ Ticker c :: after) st hs)
  | loop_goes s l g h before u after st hs clk stopped : serving st → (∀ n, wf_time (clk n)) →
      (∀ i, stopped i = true → Serve_returns (C := call) g = true) →
      loop_step (Standalone s l g h (before ++ u :: after) st hs)
        (Standalone (loop_round u clk stopped s) l g h (before ++ u :: after) st hs).

(** Calls, the signal, a listener that fails, and other processes. *)
Inductive around_step : standalone → standalone → Prop :=
  | call_arrives c s l g g' h us st hs : serving st → wf_grpc sha256_hex c → arrives g c g' →
      around_step (Standalone s l g h us st hs) (Standalone s l g' h us st (hs ++ [Accepted c]))
  | sigterm s l g h us hs :
      around_step (Standalone s l g h us Accepting hs) (Standalone s l g false us Unhealthy hs)
  | listener_fails s l g h us st hs : st = Accepting ∨ st = Unhealthy →
      around_step (Standalone s l g h us st hs) (Standalone s l g h [] Broken hs)
  | elsewhere_step s s' l g h us st hs : world s s' →
      around_step (Standalone s l g h us st hs) (Standalone s' l g h us st hs).

Definition standalone_step (p p' : standalone) : Prop :=
  service_step p p' ∨ loop_step p p' ∨ around_step p p'.

(** *** What it asks of Redis *)

Definition wf_loop (u : loop) : Prop :=
  match u with
  | Sweeper r => Forall wf_queue (Recovery.Queues r) ∧ safe_int (Recovery.Limit r)
  | Seeder c | Ticker c => Forall (λ e, wf_queue (eQueue (entry e))) (entries c)
  end.

(** The names of queues in a configuration can be used as such. *)
Definition wf_config (cfg : Config.Config) : Prop :=
  map_Forall (λ q _, wf_queue q) (Config.Queues cfg) ∧
  Forall (λ ce, ccQueue ce = "" ∨ wf_queue (ccQueue ce)) (Config.Cron cfg).

Lemma wf_main_setup queues cfg recovery schedule : Forall wf_queue queues.*1 →
  Forall (λ ce, ccQueue ce = "" ∨ wf_queue (ccQueue ce)) (Config.Cron cfg) →
  main_setup queues cfg = Ok (recovery, schedule) →
  Forall wf_loop (Sweeper recovery :: (Seeder <$> option_list schedule)).
Proof.
  intros Hq Hc E.
  assert (Hr : wf_loop (Sweeper (NewRecovery {| Recovery.Queues := queueNamesFromConfig queues;
    Recovery.Interval := Config.ParseDuration (RecoveryInterval (Workers cfg)) (30 * Second); Recovery.Limit := 0 |}))).
  { split; [|decide_now]. cbn. unfold queueNamesFromConfig. case_decide; [|done]. constructor; [decide_now|done]. }
  revert E. unfold main_setup. case_decide; [|intros [= <- <-]; by constructor].
  unfold NewCron. destruct (parse_entries _) as [ps|] eqn:Hps; [|done]. intros [= <- <-].
  constructor; [done|]. constructor; [|done]. eapply wf_entries; [done|]. by apply Forall_fmap.
Qed.

Section Asks.
Context (Hrange : ∀ queues, range queues ≡ₚ map_to_list queues).
Context (path : string) (Hpath : ∀ cfg, load path = Ok cfg → wf_config cfg).
Context (may : op → Prop) (Hmay : ∀ o, standalone_op o → may o).
Context (Hworld : ∀ s s', world s s' → rtc (does may) s s').

Lemma moves_server_main : moves (rtc (does may)) (server_main (S := S) getenv load range listen path).
Proof.
  unfold server_main, exit_with, of_result, Ping. repeat does_step; try (intros s; done).
Qed.

Lemma started_lawful s p : started path s p → rtc (does may) s (redis p) ∧ Forall wf_loop (loops p) ∧
  Forall (wf_grpc sha256_hex) (open_calls (grpc p)).
Proof.
  intros [s' level recovery schedule E]. cbn.
  pose proof (moves_server_main s) as Hs. rewrite E in Hs. split; [done|].
  destruct (law_NewServer (C := call) (G := G)) as [-> _]. split; [|constructor].
  destruct (server_main_found getenv load range listen path s level (recovery, schedule)) as (cfg & Hcfg & _ & _ & Hset);
    [by rewrite E|].
  assert (Hwf : wf_config cfg).
  { revert Hcfg. case_decide; [apply Hpath|]. intros [= <-]. split; [apply map_Forall_empty|constructor]. }
  destruct Hwf as [Hq Hc]. eapply wf_main_setup; [|exact Hc|exact Hset].
  rewrite Hrange. apply Forall_fmap. apply map_Forall_to_list in Hq.
  by eapply Forall_impl; [exact Hq|]; intros [].
Qed.

Lemma asks_may {E A} (c : M S E A) s : moves (rtc (does standalone_op)) c → rtc (does may) s (c s).1.
Proof. intros Hc. by eapply does_mono; [apply Hmay|apply Hc]. Qed.

Lemma asks_round u clk stopped s : wf_loop u → (∀ n, wf_time (clk n)) →
  rtc (does may) s (loop_round u clk stopped s).
Proof.
  intros Hu Hclk. destruct u as [r|c|c]; cbn in *; [|done|].
  - destruct Hu as [Hq Hl]. apply asks_may. by apply asks_sweep.
  - apply asks_may. by apply asks_tick.
Qed.

Lemma step_lawful p p' : Forall wf_loop (loops p) → Forall (wf_grpc sha256_hex) (open_calls (grpc p)) →
  standalone_step p p' →
  rtc (does may) (redis p) (redis p') ∧ Forall wf_loop (loops p') ∧ Forall (wf_grpc sha256_hex) (open_calls (grpc p')).
Proof.
  intros Hl Hg [Hs|[Hs|Hs]]; destruct Hs; cbn [redis loops grpc] in *; try done.
  - match goal with Ha : answered _ _ _ |- _ => destruct (law_answered _ _ _ Ha) as [_ Hp] end.
    rewrite Hp in Hg. apply Forall_cons in Hg as [Hc Hg]. split_and!; [|done|done].
    match goal with E : serve_call _ _ _ = _ |- _ => pose proof (asks_serve_call sha256_hex c s l Hc) as Hs; rewrite E in Hs end.
    by eapply does_mono; [apply Hmay|].
  - destruct (law_GracefulStop (C := call) g) as [_ ->]. done.
  - apply Forall_app in Hl as [Hb Ha]. apply Forall_cons in Ha as [Hu Ha].
    split_and!; [by apply asks_may, asks_seed| |done]. apply Forall_app. split; [done|by constructor].
  - split_and!; [|done|done]. apply asks_round; [|done]. by apply Forall_app in Hl as [_ [? _]%Forall_cons].
  - match goal with Ha : arrives _ _ _ |- _ => destruct (law_arrives _ _ _ Ha) as (_ & _ & Hp) end.
    split_and!; [done|done|]. rewrite Hp. by constructor.
  - split_and!; [by apply Hworld|done|done].
Qed.

Lemma steps_lawful p p' : Forall wf_loop (loops p) → Forall (wf_grpc sha256_hex) (open_calls (grpc p)) →
  rtc standalone_step p p' → rtc (does may) (redis p) (redis p').
Proof.
  intros Hl Hg Hs. induction Hs as [p|p p1 p' Hstep _ IH]; [done|].
  destruct (step_lawful p p1 Hl Hg Hstep) as (Hr & Hl1 & Hg1). etransitivity; [exact Hr|by apply IH].
Qed.

Lemma standalone_asks s p p' : started path s p → rtc standalone_step p p' → rtc (does may) s (redis p').
Proof.
  intros Hp Hs. destruct (started_lawful s p Hp) as (Hr & Hl & Hg). etransitivity; [exact Hr|by apply steps_lawful].
Qed.
End Asks.

Lemma does_unpromoted q s s' : rtc (does (λ o, ∀ now limit, o ≠ OPromote now q limit)) s s' → rtc (unpromoted q) s s'.
Proof.
  induction 1 as [|s s1 s' Hs _ IH]; [done|]. eapply rtc_l; [|exact IH]. destruct Hs; by constructor.
Qed.

(** C28: the standalone server promotes nothing.  From its start on, however its
    calls, its sweeper, its schedule and the requests of other processes
    interleave over any network, what reaches Redis are requests, so the
    invariants hold at every moment; and unless another process promotes the
    queue, a job that is delayed in it stays delayed for ever. *)
Theorem standalone_never_promotes path s p p' q j :
  (∀ queues, range queues ≡ₚ map_to_list queues) → (∀ cfg, load path = Ok cfg → wf_config cfg) →
  (∀ s s', world s s' → rtc (does (λ o, ∀ now limit, o ≠ OPromote now q limit)) s s') →
  reachable s → wf_queue q → started path s p → rtc standalone_step p p' →
  reachable (redis p') ∧
  (is_Some (zset_at (ks s) (delayedKey q) !! j) → is_Some (zset_at (ks (redis p')) (delayedKey q) !! j)).
Proof.
  intros Hrange Hload Hworld Hs Hq Hp Hsteps.
  assert (Hr : rtc (does (λ o, ∀ now limit, o ≠ OPromote now q limit)) s (redis p')).
  { eapply standalone_asks; [done|exact Hload| |exact Hworld|exact Hp|exact Hsteps].
    intros o Ho now limit ->. done. }
  split; [by eapply reachable_steps, does_step|].
  apply delayed_until_promoted; [done|done|by apply does_unpromoted].
Qed.


(** *** The shutdown *)

Definition accepted (hs : list event) : list call := omap (λ e, match e with Accepted c => Some c | _ => None end) hs.
Definition replied (hs : list event) : list (call * rpc response) :=
  omap (λ e, match e with Replied c r => Some (c, r) | _ => None end) hs.

(** A reply of a handler that did not panic, or of the interceptor for one that did. *)
Definition proper (r : rpc response) : Prop := ∃ resp err, r = Grpc.Returned resp err.

Record orderly_service (p : standalone) : Prop := {
  calls_kept : accepted (history p) ≡ₚ (replied (history p)).*1 ++ open_calls (grpc p);
  replies_proper : Forall (λ cr, proper cr.2) (replied (history p));
  health_told : healthy p = true → main_at p = Accepting ∨ main_at p = Broken;
  stop_told : stopping (C := call) (grpc p) = true ↔ main_at p = Stopping ∨ main_at p = Exited;
  exit_empty : main_at p = Exited → open_calls (C := call) (grpc p) = []
}.

Lemma orderly_service_started path s p : started path s p → orderly_service p.
Proof.
  intros [s' level recovery schedule E]. destruct (law_NewServer (C := call) (G := G)) as [Ho Hst].
  split; cbn; rewrite ?Ho, ?Hst; try done.
  - by left.
  - split; [done|by intros [|]].
Qed.

Lemma omap_snoc {A B} (f : A → option B) l x : omap f (l ++ [x]) = omap f l ++ option_list (f x).
Proof. rewrite omap_app. cbn. by destruct (f x). Qed.

Lemma serve_call_proper c sl : proper (serve_call sha256_hex c sl).2.
Proof. destruct (chain_returns (λ line sl, (sl.1, sl.2 ++ [line])) (method_name c)
  (λ c sl, let '(s', r) := method_handler (method sha256_hex) c sl.1 in ((s', sl.2), r)) c sl) as (resp & err & E & _).
  by exists resp, err.
Qed.

Lemma orderly_service_step p p' : orderly_service p → standalone_step p p' → orderly_service p'.
Proof.
  intros [Hc Hr Hh Hs He] [Hstep|[Hstep|Hstep]];
    [destruct Hstep as [c s l g g' h us st hs s' l' r Hst Ha E|s l g h us hs|s l g h us hs E]
    |by destruct Hstep; split
    |destruct Hstep as [c s l g g' h us st hs Hst _ Ha|s l g h us hs|s l g h us st hs Hst|s s' l g h us st hs _]];
    cbn in *; try (by split).
  - destruct (law_answered _ _ _ Ha) as [Es Ep]. split; cbn; rewrite ?Es; try done.
    + unfold accepted, replied in *. rewrite !omap_snoc. cbn. rewrite app_nil_r, fmap_app, Hc, Ep. cbn.
      by rewrite <- app_assoc.
    + unfold replied. rewrite omap_snoc. apply Forall_app. split; [done|]. cbn. constructor; [|done].
      pose proof (serve_call_proper c (s, l)) as Hp. by rewrite E in Hp.
    + intros ->. by destruct Hst as [|[|]].
  - destruct (law_GracefulStop (C := call) g) as [Es Eo]. split; cbn; rewrite ?Eo, ?Es; try done.
    + intros Hh'. by destruct (Hh Hh').
    + split; [by left|done].
  - split; cbn; try done.
    + intros Hh'. by destruct (Hh Hh').
    + rewrite Hs. split; intros [|]; auto; done.
    + intros _. by apply law_Serve in E as [_ ?].
  - destruct (law_arrives _ _ _ Ha) as (Es & Es' & Ep). split; cbn; try done.
    + unfold accepted, replied in *. rewrite !omap_snoc. cbn. rewrite app_nil_r, Hc, Ep. solve_Permutation.
    + unfold replied. by rewrite omap_snoc, app_nil_r.
    + by rewrite Es', <- Hs, Es.
    + intros ->. by destruct Hst as [|[|]].
  - split; cbn; try done. rewrite Hs. split; intros [|]; done.
  - split; cbn; try done.
    + auto.
    + rewrite Hs. by destruct Hst as [-> | ->]; split; intros [|].
Qed.

Lemma orderly_service_steps path s p p' : started path s p → rtc standalone_step p p' → orderly_service p'.
Proof.
  intros Hp%orderly_service_started Hs. induction Hs as [|p p1 p' Hstep _ IH]; [done|].
  by apply IH; eapply orderly_service_step.
Qed.

(** From the stop on the service only answers what it has and returns. *)
Definition service_left (p : standalone) : nat :=
  match main_at p with Stopping => Datatypes.S (length (open_calls (C := call) (grpc p))) | _ => 0 end.

Inductive service_runs : nat → standalone → standalone → Prop :=
  | service_runs_nil p : service_runs 0 p p
  | service_runs_own n p p1 p' : service_step p p1 → service_runs n p1 p' → service_runs (Datatypes.S n) p p'
  | service_runs_other n p p1 p' : loop_step p p1 ∨ around_step p p1 → service_runs n p1 p' → service_runs n p p'.

Definition stopped (p : standalone) : Prop := main_at p = Stopping ∨ main_at p = Exited.

Lemma service_step_left p p' : orderly_service p → stopped p → service_step p p' →
  stopped p' ∧ (service_left p' < service_left p)%nat ∧ accepted (history p') = accepted (history p).
Proof.
  intros Ho Hst Hs. unfold stopped, service_left, accepted in *. destruct Hs as [c s l g g' h us st hs s' l' r Hsv Ha E
    |s l g h us hs|s l g h us hs E]; cbn in *.
  - destruct Hst as [-> | ->]; [|by destruct Hsv as [|[|]]]. destruct (law_answered _ _ _ Ha) as [_ Hp].
    apply Permutation_length in Hp. cbn in Hp. split_and!; [by left|lia|]. by rewrite omap_snoc, app_nil_r.
  - by destruct Hst.
  - split_and!; [by right|lia|done].
Qed.

Lemma other_step_stays p p' : orderly_service p → stopped p → loop_step p p' ∨ around_step p p' →
  stopped p' ∧ service_left p' = service_left p ∧ accepted (history p') = accepted (history p).
Proof.
  intros Ho Hst Hs. pose proof (proj2 (stop_told _ Ho) Hst) as Hg. unfold stopped, service_left in *.
  destruct Hs as [Hs|Hs]; [by destruct Hs|].
  destruct Hs as [c s l g g' h us st hs Hsv _ Ha|s l g h us hs|s l g h us st hs Hsv|s s' l g h us st hs _];
    cbn in *; try done.
  - destruct (law_arrives _ _ _ Ha) as (Es & _ & _). by rewrite Es in Hg.
  - by destruct Hst.
  - by destruct Hst as [-> | ->], Hsv.
Qed.

Lemma service_progress p : orderly_service p → main_at p = Stopping → ∃ p', service_step p p'.
Proof.
  intros Ho Hst. pose proof (proj2 (stop_told _ Ho) (or_introl Hst)) as Hg. destruct p as [s l g h us st hs].
  cbn in *. subst st. destruct (open_calls (C := call) g) as [|c cs] eqn:E.
  - eexists. apply main_returns. by apply law_Serve.
  - destruct (law_answerable g c) as [g' Ha]; [rewrite E; by left|].
    destruct (serve_call sha256_hex c (s, l)) as [[s' l'] r] eqn:Er. eexists.
    eapply serves; [by right; right|exact Ha|exact Er].
Qed.

(** C29: the standalone server loses no call that it accepted.  Every call that has
    arrived is answered or still open, with a response or a status and never with
    a panic, and the health service has stopped saying SERVING before calls are
    refused.  After the signal nothing keeps [main] from calling [GracefulStop],
    though calls may arrive until it does; from [GracefulStop] on no call is
    accepted, and the service takes at most one step per open call and one more,
    whatever its loops, other processes and the network do, until [main] returns
    with every call answered. *)
Theorem graceful_stop path s p0 p n p' : started path s p0 → rtc standalone_step p0 p →
  (accepted (history p) ≡ₚ (replied (history p)).*1 ++ open_calls (grpc p) ∧
   Forall (λ cr, proper cr.2) (replied (history p)) ∧
   (stopping (C := call) (grpc p) = true → healthy p = false)) ∧
  (main_at p = Unhealthy → ∃ p1, service_step p p1 ∧ main_at p1 = Stopping ∧ history p1 = history p ∧
     open_calls (C := call) (grpc p1) = open_calls (grpc p)) ∧
  (main_at p = Stopping → service_runs n p p' →
   (n ≤ Datatypes.S (length (open_calls (C := call) (grpc p))))%nat ∧
   accepted (history p') = accepted (history p) ∧
   ((∀ p'', ¬ service_step p' p'') →
    main_at p' = Exited ∧ accepted (history p') ≡ₚ (replied (history p')).*1)).
Proof.
  intros Hp0 Hp. pose proof (orderly_service_steps _ _ _ _ Hp0 Hp) as Ho. split_and!.
  { apply Ho. }
  { apply Ho. }
  { intros Hg%(stop_told _ Ho). destruct (healthy p) eqn:Hh; [|done].
    destruct (health_told _ Ho Hh) as [E|E], Hg as [E'|E']; congruence. }
  { destruct p as [s1 l g h us st hs]. cbn. intros ->. eexists. split; [apply stops_gracefully|].
    split_and!; [done|done|]. cbn. by destruct (law_GracefulStop (C := call) g) as [_ ->]. }
  intros Hst Hrun. assert (Hleft : service_left p = Datatypes.S (length (open_calls (C := call) (grpc p))))
    by (unfold service_left; by rewrite Hst).
  rewrite <- Hleft. assert (Hs : stopped p) by by left. clear Hst Hleft Hp.
  induction Hrun as [p|n p p1 p' Hstep _ IH|n p p1 p' Hstep _ IH].
  - split_and!; [lia|done|]. intros Hno. destruct Hs as [Hst|Hst].
    + destruct (service_progress p Ho Hst) as [p'' Hs]. by destruct (Hno p'').
    + split; [done|]. rewrite (calls_kept _ Ho), (exit_empty _ Ho Hst). by rewrite app_nil_r.
  - destruct (service_step_left _ _ Ho Hs Hstep) as (Hs1 & Hlt & Hacc).
    destruct IH as (Hn & Hacc' & Hend); [by eapply orderly_service_step; [|left]|done|].
    split_and!; [lia|congruence|done].
  - destruct (other_step_stays _ _ Ho Hs Hstep) as (Hs1 & Heq & Hacc).
    destruct IH as (Hn & Hacc' & Hend); [by eapply orderly_service_step; [|right]|done|].
    split_and!; [lia|congruence|done].
Qed.
End Standalone.
