(* ===== verification/SystemExamples.v ===== *)
(** * SystemExamples: the theorems about the whole system at work *)
From S2P Require Import Liveness Failures Board Client Grpc Prelude Float Keys Redis Lua MemRedis Keyspace Job Scripts Queue ScriptSpecs QueueSpecs EnqueueSpecs Places Winter Json Workflow RateLimit MemText Examples Cron CronExamples Recovery Handler Server ServerSpecs ServerExamples Moves Texts Lifecycle Unique Refines Tended System Programs ServerPrograms Pool Fairness Process Waiting GrpcSpecs WinterTest.

Open Scope string_scope.
Open Scope Z_scope.
Open Scope list_scope.

(** ** Counters that have not started *)

Lemma sound_stats_none m :
  map_Forall (λ _ v, match v with
                     | RHash h => h !! "failed" = None ∧ h !! "dead_total" = None
                     | _ => True
                     end) m → sound_stats m.
Proof.
  intros Hm q Hq. specialize (Hm (statsKey q)). unfold can_incr, counter, hash_at.
  destruct (m !! statsKey q) as [[]|]; try (split; exists 0; done).
  destruct (Hm _ eq_refl) as [-> ->]. split; exists 0; done.
Qed.

#[local] Instance stats_none_dec (v : rval) : Decision (match v with
                     | RHash h => h !! "failed" = None ∧ h !! "dead_total" = None
                     | _ => True
                     end).
Proof. destruct v; apply _. Defined.

(** ** A network that repeats and drops

    The job is enqueued; the dequeue of the first worker is executed twice by a
    retrying client, that of the second is executed and its reply lost. *)

Section Lossy.
Definition lossy : nat → delivery := λ n,
  match n with 1%nat => Replied 1 | 2%nat => Dropped 1 "i/o timeout" | _ => Replied 0 end.

#[local] Instance lossy_redis : Redis mem := mem_redis lossy.
#[local] Instance lossy_laws : RedisLaws mem := mem_laws lossy.

Definition s_lossy : mem :=
  after (Dequeue noon "default" "w2") (after (Dequeue noon "default" "w1")
    (after (Queue.Enqueue welcome "" 0) empty_mem)).

Lemma s_lossy_reachable : reachable s_lossy.
Proof.
  eapply issues_reachable; [apply issues_Dequeue; decide_now|].
  eapply issues_reachable; [apply issues_Dequeue; decide_now|].
  eapply issues_reachable; [|by apply reachable_init].
  apply issues_Enqueue; [split; decide_now|decide_now].
Qed.

Lemma reachable_typed_witness : wf_store (ks s_lossy).
Proof. apply (reachable_typed s_lossy s_lossy_reachable). Defined.

(** The job whose dequeue was answered to nobody is under a lease. *)
Lemma reachable_leased_witness : is_Some (zset_at (ks s_lossy) (leaseKey "default") !! "job-1").
Proof.
  apply (reachable_leased s_lossy "default" "job-1" s_lossy_reachable); decide_now.
Defined.

Lemma reachable_placed_witness : place_of "active" "job-1" (ks s_lossy).
Proof.
  apply (reachable_placed s_lossy "job-1" "active" s_lossy_reachable).
  - apply sound_stats_none. decide_now.
  - decide_now.
  - split; [decide_now|]. decide_now.
  - vm_compute. reflexivity.
Defined.
End Lossy.

(** ** A worker at its job *)

Lemma s_active_reachable : reachable s_active.
Proof.
  eapply issues_reachable; [apply issues_Dequeue; decide_now|].
  eapply issues_reachable; [apply issues_Enqueue; [split; decide_now|decide_now]|].
  eapply issues_reachable; [apply issues_Enqueue; [split; decide_now|decide_now]|].
  by apply reachable_init.
Qed.

Lemma mailer_good : good_server mailer.
Proof.
  split.
  - intros kind fn Hfn. cbn in Hfn. apply lookup_insert_Some in Hfn as [[_ <-]|[_ Hfn]].
    + intros rj s _. by split.
    + by rewrite lookup_empty in Hfn.
  - constructor.
  - constructor.
  - intros kind rl Hrl. cbn in Hrl. by rewrite lookup_empty in Hrl.
Qed.

Definition idle : world (S := mem) := World empty_mem ∅ [] [].

(** The worker executes the job it was given. *)
Definition at_work (s : mem) : mem :=
  srv (processJob 0 mailer (λ _, noon) "next" welcome (set_srv s idle)).1.

Lemma programs_are_requests_witness : reachable (at_work s_active).
Proof.
  refine (proj2 (programs_are_requests (S := mem) (λ s, s) 0 at_work s_active _ s_active_reachable)).
  unfold at_work. apply (p_processJob (λ s, s) 0 mailer (λ _, noon) "next" welcome idle);
    [exact mailer_good|intros n; decide_now|decide_now| |constructor].
  split; [decide_now|split; decide_now].
Defined.

(** ** The board of a queue *)

(** The server executes the acknowledgement of [welcome]. *)
Lemma ack_step : step s_active (run_op (OAck noon "default" "job-1" "w1") s_active).
Proof. apply step_op. decide_now. Qed.

Lemma steps_refine_witness :
  happens [Release "job-1"] (board_of "default" (ks s_active))
    (board_of "default" (ks (run_op (OAck noon "default" "job-1" "w1") s_active))).
Proof.
  destruct (proj1 (steps_refine s_active "default" s_active_reachable ltac:(decide_now))
    (OAck noon "default" "job-1" "w1") ltac:(decide_now)) as (es & Hp & Hh).
  unfold promised in Hp. rewrite decide_True in Hp by reflexivity. by rewrite Hp in Hh.
Defined.

(** A job that is acknowledged leaves the other one alone. *)
Lemma leaves_only_settled_witness :
  on_board "job-2" (board_of "default" (ks (run_op (OAck noon "default" "job-1" "w1") s_active))) ∨
  ∃ o, settles "default" "job-2" o ∧
    run_op (OAck noon "default" "job-1" "w1") s_active = run_op o s_active.
Proof.
  apply (leaves_only_settled s_active _ "default" "job-2" s_active_reachable ack_step).
  - decide_now.
  - apply sound_stats_none. decide_now.
  - split; decide_now.
  - right; left. decide_now.
Defined.

Lemma delayed_until_promoted_witness :
  is_Some (zset_at (ks (run_op (OAck noon "default" "job-1" "w1") s_active)) (delayedKey "default") !! "job-2").
Proof.
  apply (delayed_until_promoted "default" "job-2" s_active _ s_active_reachable).
  - decide_now.
  - apply rtc_once, unpromoted_op; [decide_now|by intros ??].
  - decide_now.
Defined.

Definition s_taken : mem :=
  run_op (ODequeue noon "default" "w1") (run_op (OEnqueue welcome "" 0) empty_mem).

Lemma s_taken_orderly : orderly s_taken.
Proof.
  apply orderly_op; [|decide_now|exact I]. apply orderly_op; [by apply orderly_init|decide_now|].
  apply not_on_board'. decide_now.
Qed.

Lemma held_nowhere_else_witness :
  zset_at (ks s_taken) (readyKey "default") !! "job-1" = None ∧
  zset_at (ks s_taken) (delayedKey "default") !! "job-1" = None ∧
  "job-1" ∉ list_at (ks s_taken) (deadKey "default").
Proof. apply (held_nowhere_else s_taken "default" "job-1" s_taken_orderly); decide_now. Defined.

(** A heartbeat twenty seconds after the dequeue, and a sweep nearly thirty seconds
    after that. *)
Definition s_beaten : mem :=
  run_op (OExtendLease (noon + 20 * Second) "default" "job-1" DefaultLeaseDuration) s_taken.
Definition s_swept : mem := run_op (ORecover "default" 100 1700000049999) s_beaten.

Definition w1_hand : hand := Hand "w1" "default" "job-1" (noon + 20 * Second).

Lemma s_swept_tended : rtc working ([], empty_mem) ([w1_hand], s_swept).
Proof.
  eapply rtc_l; [apply (working_other [] empty_mem (OEnqueue welcome "" 0)); [decide_now|apply not_on_board'; decide_now|done]|].
  eapply rtc_l; [eapply (working_take [] _ noon "default" "w1"); [decide_now|vm_compute; reflexivity|vm_compute; reflexivity]|].
  apply (rtc_l _ _ ([w1_hand], s_beaten)).
  - refine (working_beat [Hand "w1" "default" "job-1" noon] s_taken (noon + 20 * Second) "default" "job-1" _). decide_now.
  - apply rtc_once. refine (working_sweep [w1_hand] s_beaten "default" 100 1700000049999 _ _); [decide_now|].
    intros h ->%list_elem_of_singleton _. decide_now.
Qed.

Lemma tended_job_kept_witness : "job-1" ∈ set_at (ks s_swept) (activeKey "default").
Proof.
  refine (proj1 (proj2 (tended_job_kept empty_mem [w1_hand] s_swept _ s_swept_tended) w1_hand _)).
  - by apply orderly_init.
  - by left.
Defined.

(** *** A unique job in its window

    The job is at work and its five seconds are nearly over when the same payload
    is enqueued again. *)
Definition s_unique : mem := run_op (OEnqueue welcome "mail:bob" (5 * Second)) empty_mem.
Definition s_late : mem := advance 4999 (run_op (ODequeue noon "default" "w1") s_unique).

Lemma s_late_window : rtc (in_window "job-1" 5000) s_unique s_late.
Proof.
  apply (rtc_l _ _ (run_op (ODequeue noon "default" "w1") s_unique)).
  - refine (window_op "job-1" 5000 (ODequeue noon "default" "w1") s_unique _ _); [decide_now|intros []].
  - apply rtc_once. refine (window_time "job-1" 5000 4999 (run_op (ODequeue noon "default" "w1") s_unique) _ _); decide_now.
Qed.

Lemma unique_window_witness : ks (run_op (OEnqueue digest "mail:bob" (9 * Second)) s_late) = ks s_late.
Proof.
  refine (proj2 (proj2 (unique_window welcome "mail:bob" (5 * Second) empty_mem s_late digest (9 * Second)
    _ _ _ _ _ s_late_window _ _))).
  - by apply reachable_init.
  - decide_now.
  - done.
  - decide_now.
  - reflexivity.
  - decide_now.
  - decide_now.
Defined.

(** The client repeats its request after the dequeue. *)
Lemma enqueue_repeated_witness :
  let s' := run_op (OEnqueue welcome "" 0) s_taken in
  "job-1" ∈ set_at (ks s') (activeKey "default") ∧ is_Some (zset_at (ks s') (readyKey "default") !! "job-1").
Proof.
  apply (enqueue_repeated welcome s_taken (orderly_reachable _ s_taken_orderly)); decide_now.
Defined.

(** ** Jobs that wait and jobs that fail *)

Lemma s_queued_reachable : reachable s_queued.
Proof.
  eapply issues_reachable; [apply issues_Enqueue; [split; decide_now|decide_now]|].
  eapply issues_reachable; [apply issues_Enqueue; [split; decide_now|decide_now]|].
  by apply reachable_init.
Qed.

Lemma ready_jobs_drain_witness :
  wp (S := mem) (map_each [(noon, "w1")] (λ call, Queue.Dequeue call.1 "default" call.2))
    (λ m' r, zset_at m' (readyKey "default") = ∅) (ks s_queued).
Proof.
  eapply wp_mono; [apply (ready_jobs_drain (S := mem) "default" ltac:(decide_now) [(noon, "w1")] (ks s_queued))|].
  - exact (sound_inv _ (reachable_sound s_queued s_queued_reachable)).
  - decide_now.
  - decide_now.
  - vm_compute. reflexivity.
  - by intros m' r (_ & ? & _).
Defined.

(** The worker that took "job-1" dies; thirty seconds later another one gets it. *)
Lemma crashed_job_returns_witness :
  wp (S := mem) (RecoverExpiredLeasesAt "default" 100 1700000031000 ;;
      map_each [(noon, "w2")] (λ call, Queue.Dequeue call.1 "default" call.2))
    (λ m' r, "job-1" ∈ set_at m' (activeKey "default")) (ks s_active).
Proof.
  eapply wp_mono; [apply (crashed_job_returns (S := mem) "default" ltac:(decide_now) "job-1" 1700000031000
    1700000031000 100 [(noon, "w2")] (ks s_active))|].
  - exact (sound_inv _ (reachable_sound s_active s_active_reachable)).
  - decide_now.
  - decide_now.
  - decide_now.
  - decide_now.
  - decide_now.
  - vm_compute. reflexivity.
  - decide_now.
  - right. vm_compute. discriminate.
  - vm_compute. reflexivity.
  - decide_now.
  - vm_compute. reflexivity.
  - by intros m' r [? _].
Defined.

(** Three rounds: "job-1" fails at once, two seconds later, and five seconds later. *)
Definition bad_round (t backoff : Z) : bout := Bout t [(t, "w1"); (t, "w2")] (Failure t "w1" "boom" backoff).
Definition bad_rounds : list bout :=
  [bad_round noon 1000; bad_round (noon + 2 * Second) 2000; bad_round (noon + 5 * Second) 4000].

Lemma job_1_going : going "default" "job-1" 0 3 0 (ks s_queued).
Proof.
  split.
  - exact (sound_inv _ (reachable_sound s_queued s_queued_reachable)).
  - vm_compute. reflexivity.
  - split; [apply check_store_wf; decide_now|vm_compute; reflexivity..|decide_now].
  - vm_compute. reflexivity.
  - decide_now.
Qed.

Lemma failing_job_dies_witness :
  wp (S := mem) (map_each bad_rounds (live "default" "job-1" (-1)))
    (λ m' r, laid_to_rest "default" "job-1" m') (ks s_queued).
Proof.
  eapply wp_mono; [apply (failing_job_dies (S := mem) "default" "job-1" ltac:(decide_now) ltac:(decide_now)
    (-1) bad_rounds 0 3 0 0 2 (ks s_queued))|].
  - exact job_1_going.
  - split; [left; split; decide_now|decide_now].
  - decide_now.
  - split_and!; decide_now.
  - decide_now.
  - decide_now.
  - by left.
  - decide_now.
  - decide_now.
  - decide_now.
  - decide_now.
  - done.
  - done.
  - by intros m' r (rs & _ & _ & _ & ?).
Defined.

(** ** The pool of a server *)

Definition calm : mem → mem → Prop := λ _ _, False.

(** The poller takes a slot and asks the first of its queues; then the signal arrives. *)
Definition p_asking (c : bool) : pool (S := mem) := Pool s_queued (Asking "orders" ["mail"] false) 1 [] c.

Lemma p_asking_reached : rtc (pool_step mailer calm) (start s_queued) (p_asking true).
Proof.
  eapply rtc_l; [left; left; apply top_goes|].
  assert (queue_names mailer = ["orders"; "mail"]) as -> by (vm_compute; reflexivity).
  eapply rtc_l; [left; left; apply round_takes; vm_compute; reflexivity|].
  apply rtc_once. right. apply signal.
Qed.

Lemma concurrency_bounded_witness : (length (running (p_asking true)) + 1)%nat = taken (p_asking true).
Proof.
  destruct (concurrency_bounded mailer calm s_queued (p_asking true) p_asking_reached) as [Ht _].
  symmetry. exact Ht.
Defined.

Lemma p_asking_polls : polls mailer calm ["orders"] (p_asking false).
Proof.
  assert (E : queue_names mailer = ["orders"; "mail"]) by (vm_compute; reflexivity).
  assert (H1 : polls mailer calm [] (Pool s_queued (Round ["orders"; "mail"] false) 0 [] false)).
  { rewrite <- E. apply (polls_step mailer calm [] (start s_queued)); [apply polls_start|]. left; left. apply top_goes. }
  apply (polls_step mailer calm [] _ (p_asking false) H1). left; left. apply round_takes. vm_compute. reflexivity.
Qed.

(** The poller asks the heavier queue first. *)
Lemma polling_is_fair_witness : ∃ before log', ["orders"] = log' ++ before ++ ["orders"] ∧
  queue_names mailer = before ++ ["orders"; "mail"].
Proof.
  destruct (polling_is_fair mailer calm ["orders"] (p_asking false) p_asking_polls) as [_ Hs].
  destruct (Hs ltac:(vm_compute; reflexivity) "orders" ["mail"] false eq_refl) as [_ Hb]. exact Hb.
Defined.

(** Nothing is in that queue, so the slot is given back, and the poller returns. *)
Lemma shutdown_drains_witness : (2 ≤ 2 * weight (poller (p_asking true)) + 0)%nat.
Proof.
  apply (shutdown_drains mailer calm s_queued (p_asking true) 2
    (Pool (Queue.Dequeue noon "orders" "w1" s_queued).1 Returned 0 [] true) p_asking_reached);
    [reflexivity|].
  eapply run_own; [left; eapply (asking_none mailer s_queued _ noon "orders")|].
  - decide_now.
  - apply surjective_pairing.
  - intros rec E. revert E. vm_compute. discriminate.
  - eapply run_own; [left; apply round_returns|apply run_nil].
Defined.

Lemma round_is_round_witness : ∃ s' r,
  strict_round (λ _, noon) 0 "w1" (buildStrictQueues (cfgQueues (cfg mailer))) s_queued = (s', Ok r) ∧
  rtc (poll_step mailer) (Pool s_queued (Round (queue_names mailer) false) 0 [] false)
    match r with
    | Some rec => Pool s' (Round [] true) 1 [rec] false
    | None => Pool s' (Round [] false) 0 [] false
    end.
Proof.
  refine (proj2 (round_is_round mailer (λ _, noon) 0 s_queued false 0 [] false _) _ _).
  - intros n. decide_now.
  - reflexivity.
  - vm_compute. reflexivity.
Defined.

(** *** A job that waits

    Two workers share a queue in which nothing is before [welcome]; the poller of
    the first takes a slot for the other queue of its configuration first. *)
Definition sharing : Server (S := mem) := newServer {|
  Concurrency := 2; StrictPriority := false; cfgCron := []; PollInterval := 0; ShutdownTimeout := 0;
  cfgQueues := [ {| Server.Name := "mail"; Weight := 2 |}; {| Server.Name := "default"; Weight := 1 |} ] |} "w1".

Definition p_round : pool (S := mem) := Pool s_queued (Round ["mail"; "mail"; "default"] false) 0 [] false.
Definition p_mail : pool (S := mem) := Pool s_queued (Asking "mail" ["mail"; "default"] false) 1 [] false.

Lemma p_round_step world : pool_step sharing world (start s_queued) p_round.
Proof.
  assert (E : queue_names sharing = ["mail"; "mail"; "default"]) by (vm_compute; reflexivity).
  unfold p_round. rewrite <- E. left; left. apply top_goes.
Qed.

Lemma waiting_is_bounded_witness : (length (["mail"] : list string) ≤ (0 + 3) * 3)%nat.
Proof.
  refine (proj1 (waiting_is_bounded (S := mem) sharing (beside "default") _ "default" "job-1" 5 _
    [] (start s_queued) ["mail"] p_mail _ _ _ _ _ _ _ _)).
  - decide_now.
  - decide_now.
  - apply polls_start.
  - exact s_queued_reachable.
  - vm_compute. reflexivity.
  - apply beside_courteous; [decide_now|done].
  - reflexivity.
  - vm_compute. reflexivity.
  - vm_compute. reflexivity.
  - apply (waits_step sharing (beside "default") "default" "job-1" 5 (start s_queued) [] p_round p_mail).
    + apply (waits_step sharing (beside "default") "default" "job-1" 5 (start s_queued) [] (start s_queued) p_round).
      * apply waits_now. vm_compute. reflexivity.
      * apply p_round_step.
      * vm_compute. reflexivity.
    + left; left. apply round_takes. vm_compute. reflexivity.
    + vm_compute. reflexivity.
Defined.

(** *** From [Start] to the end *)

Definition s_started : mem := (Start_beat noon mailer s_queued).1.

Definition loops : list upkeep := [Promoting; Beating; Sweeping (recovery_config mailer)].

Definition p_started : process (S := mem) := Process (start s_started) loops Starting.

Lemma p_started_begins : begins mailer s_queued p_started.
Proof. apply (begins_starting mailer s_queued noon). Qed.

(** The signal comes before the first round. *)
Definition p_signalled : process (S := mem) := Process (cancel (start s_started)) loops Draining.

Lemma p_signalled_reached world : rtc (process_step 0 mailer world) p_started p_signalled.
Proof.
  apply (rtc_l _ _ (Process (start s_started) (loops ++ []) Serving)).
  - left; right. apply (sets_up 0 mailer world (start s_started) loops None). vm_compute. reflexivity.
  - apply rtc_once. right. apply signalled.
Qed.

Lemma stop_returns_witness : (1 ≤ process_left p_signalled)%nat.
Proof.
  refine (proj1 (stop_returns 0 mailer calm s_queued p_started p_signalled 1
    (Process (cancel (start s_started)) loops (Leaving false)) p_started_begins (p_signalled_reached calm) _ _)).
  - reflexivity.
  - eapply runs_end; [apply times_out|apply runs_nil].
Defined.

Definition p_leaving : process (S := mem) := Process (Pool s_started Returned 0 [] true) [] (Leaving true).

Lemma p_leaving_reached : rtc (process_step 0 mailer calm) p_started p_leaving.
Proof.
  etransitivity; [apply p_signalled_reached|].
  eapply rtc_l; [left; right; apply poller_goes; apply top_returns|].
  do 3 (eapply rtc_l; [left; right; by apply (upkeep_ends _ _ _ _ [])|]).
  apply rtc_once. left. right. by apply drained.
Qed.

Lemma deregistration_last_witness : quiet p_leaving.
Proof.
  apply (deregistration_last 0 mailer calm s_queued p_started p_leaving p_started_begins p_leaving_reached).
  left. reflexivity.
Defined.

(** A server whose schedule cannot be parsed.  Its poller has taken a job, and the
    job has run, before [Start] gives up. *)
Definition courier : Server (S := mem) := Handle "email:welcome" None succeed (newServer {|
  Concurrency := 2; StrictPriority := false; PollInterval := 0; ShutdownTimeout := 0; cfgQueues := [];
  cfgCron := [ {| cName := "report"; cSchedule := "daily"; cQueue := ""; cKind := "report"; cPayload := "" |} ]
  |} "w1").

Lemma courier_good : good_server courier.
Proof.
  split.
  - intros kind fn Hfn. cbn in Hfn. apply lookup_insert_Some in Hfn as [[_ <-]|[_ Hfn]].
    + intros rj s _. by split.
    + by rewrite lookup_empty in Hfn.
  - constructor.
  - constructor.
  - intros kind rl Hrl. cbn in Hrl. by rewrite lookup_empty in Hrl.
Qed.

Definition s_up : mem := (Start_beat noon courier s_queued).1.
Definition s_handed : mem := (Queue.Dequeue noon "default" "w1" s_up).1.
Definition in_hand : JobRecord :=
  match (Queue.Dequeue noon "default" "w1" s_up).2 with Ok (Some rec) => rec | _ => digest end.
Definition w_delivered : Server.world (S := mem) :=
  (processJob 0 courier (λ _, noon) "next" in_hand (World s_handed ∅ [] [])).1.

Definition courier_loops : list upkeep := [Promoting; Beating; Sweeping (recovery_config courier)].

Lemma p_gave_up_reached world : ∃ err,
  rtc (process_step 0 courier world) (Process (start s_up) courier_loops Starting)
    (Process (Pool (srv w_delivered) (Round [] true) 0 [] true) courier_loops (Failed err)).
Proof.
  destruct (start_schedule courier) as [schedule|err] eqn:E; [vm_compute in E; discriminate E|]. exists err.
  assert (Hq : queue_names courier = ["default"]) by (vm_compute; reflexivity).
  eapply rtc_l; [left; right; apply poller_goes; apply top_goes|]. rewrite Hq.
  eapply rtc_l; [left; right; apply poller_goes, round_takes; vm_compute; reflexivity|].
  eapply rtc_l; [left; right; apply poller_goes; eapply (asking_job courier _ s_handed noon _ _ _ _ _ _ in_hand)|].
  { decide_now. }
  { vm_compute. reflexivity. }
  eapply rtc_l; [left; right; eapply (job_goes 0 courier world s_handed _ 0 [] in_hand [] false _ _ w_delivered "completed")|].
  { exists (λ _, noon), "next", []. split_and!; [intros n; decide_now|decide_now|constructor|].
    vm_compute. reflexivity. }
  apply rtc_once. left; right. by apply (sets_up_fails 0 courier world (Pool (srv w_delivered) (Round [] true) 0 [] false)).
Qed.

Lemma server_is_requests_witness : ∃ err,
  let p := Process (Pool (srv w_delivered) (Round [] true) 0 [] true) courier_loops (Failed err) in
  reachable (server (pl p)).
Proof.
  destruct (p_gave_up_reached (rtc step)) as [err Hrun]. exists err.
  refine (proj1 (proj2 (server_is_requests 0 courier courier_good _ _ s_queued
    (Process (start s_up) courier_loops Starting) _ s_queued_reachable (begins_starting courier s_queued noon) Hrun))).
  - decide_now.
  - decide_now.
Defined.

(** ** The service *)

Definition every_second (i : nat) : Z := noon + Z.of_nat i * Second.

Lemma Dequeue_answers_witness :
  (Grpc.Dequeue noon every_second (λ _, false) "default" "w1" 2500 s_active).2 ≠ Ok None.
Proof.
  apply (Dequeue_answers noon every_second (λ _, false) "default" "w1" 2500 s_active).
  - decide_now.
  - intros i. unfold every_second, min_pause, Second, Millisecond. lia.
Defined.

Definition mail_request : EnqueueRequest := {|
  reqKind := "email:welcome"; reqPayload := "{}"; reqQueue := ""; reqPriority := 0;
  reqScheduledAt := 0; reqMaxRetries := 0; UniquePeriodMs := 5000 |}.

Lemma grpc_roundtrip_witness :
  wp (S := mem) (id ← Grpc.Enqueue (λ s, s) "job-9" noon mail_request; Grpc.GetJob id)
    (λ _ r, ∃ job, r = Ok job ∧ pbState job = "pending" ∧ pbQueue job = "default") (ks s_active).
Proof.
  eapply wp_mono; [apply (grpc_roundtrip (S := mem) (λ s, s) "job-9" noon mail_request)|].
  - apply check_store_wf. decide_now.
  - decide_now.
  - decide_now.
  - decide_now.
  - decide_now.
  - decide_now.
  - decide_now.
  - decide_now.
  - decide_now.
  - intros Hs. exfalso. revert Hs. decide_now.
  - decide_now.
  - cbv beta. intros m' r ->. by eexists.
Defined.

(** ** The assertions of a test *)

Example enqueued_is_required :
  (RequireEnqueued [Ok ["winter:job:job-1"]; Ok []] "email:welcome" (Ok (Payload welcome)) s_active).2 = Ok tt ∧
  (RequireEnqueuedN [Ok ["winter:job:job-1"]; Ok ["winter:job:job-1"]] "email:welcome" 1 s_active).2 =
    Err ("wintertest: expected 1 job(s) with kind " +:+ quote "email:welcome" +:+ ", got 2").
Proof. split; vm_compute; reflexivity. Qed.
