(* ===== verification/StandaloneExamples.v ===== *)
(** * StandaloneExamples: the standalone server at work *)
From S2P Require Import Config Client Grpc Prelude Float Keys Redis Lua MemRedis Keyspace Job Scripts Queue ScriptSpecs QueueSpecs Places Winter Json Workflow Cron RateLimit MemText Examples CronExamples Recovery Moves Texts Lifecycle System Programs Handler Server Cli ServerPrograms Connect Refines Standalone SystemExamples.

Open Scope string_scope.
Open Scope Z_scope.
Open Scope list_scope.

(** ** A gRPC library

    The open calls and whether it is stopping; it answers in any order. *)
Definition simple_grpc : Type := list call * bool.

#[local] Instance simple_lib : GrpcLib call simple_grpc := {
  grpc_NewServer := ([], false);
  open_calls := fst;
  stopping := snd;
  arrives g c g' := g.2 = false ∧ g' = (c :: g.1, false);
  answered g c g' := ∃ before after, g.1 = before ++ c :: after ∧ g' = (before ++ after, g.2);
  GracefulStop g := (g.1, true);
  Serve_returns g := g.2 && bool_decide (length g.1 = 0%nat)
}.

#[local] Instance simple_laws : GrpcLibLaws call simple_grpc.
Proof.
  split.
  - done.
  - intros [cs []] c g' [? ->]; [done|]. by split_and!.
  - intros [cs b] c g' (before & after & E & ->). cbn in *. subst cs. split; [done|]. by rewrite Permutation_middle.
  - intros [cs b] c Hc. cbn in *. apply list_elem_of_split in Hc as (before & after & ->).
    eexists. by exists before, after.
  - by intros [cs b].
  - intros [cs b]. cbn. rewrite andb_true_iff, bool_decide_eq_true, length_zero_iff_nil. tauto.
Qed.

Definition no_env : string → string := λ _, "".
Definition no_file : string → result error Config.Config := λ _, Err (ErrText "no such file").
Definition in_order : gmap string QueueConfig → list (string * QueueConfig) := map_to_list.
Definition free_port : string → result error unit := λ _, Ok tt.

Definition poll_call : call := CDequeue noon (λ _, noon) (λ _, false) "default" "w1" 2500.
Lemma noon_time : wf_time noon.
Proof. decide_now. Qed.

Definition stats_call : call := CQueueStats "default".

Definition sweeper : loop := Sweeper (NewRecovery {| Recovery.Queues := ["default"]; Recovery.Interval := 30 * Second; Recovery.Limit := 0 |}).

(** The server after the ping. *)
Definition s_up : mem := (server_main no_env no_file in_order free_port "" s_queued).1.

Definition b_started : standalone (S := mem) (G := simple_grpc) :=
  Standalone s_up [] ([], false) true [sweeper] Accepting [].

Lemma b_begins : started no_env no_file in_order free_port "" s_queued b_started.
Proof.
  refine (main_started (G := simple_grpc) no_env no_file in_order free_port "" s_queued s_up Info_
    (NewRecovery {| Recovery.Queues := ["default"]; Recovery.Interval := 30 * Second; Recovery.Limit := 0 |}) None _).
  vm_compute. reflexivity.
Qed.

(** Another worker takes jobs of the queue meanwhile. *)
Inductive takers : mem → mem → Prop :=
  | taker s : takers s (run_op (ODequeue noon "default" "w2") s).

Lemma takers_do (may : op → Prop) s s' : may (ODequeue noon "default" "w2") → takers s s' → rtc (does may) s s'.
Proof. intros Hm []. apply rtc_once, does_op; [decide_now|done]. Qed.

#[local] Abbreviation steps := (standalone_step (G := simple_grpc) (λ s : string, s) takers).

(** Two calls arrive and the signal comes; the server waits for both. *)
Definition b_polled : standalone (S := mem) (G := simple_grpc) :=
  Standalone s_up [] ([poll_call], false) true [sweeper] Accepting [Accepted poll_call].
Definition b_both (healthy : bool) (st : main_stage) (g : simple_grpc) : standalone (S := mem) (G := simple_grpc) :=
  Standalone s_up [] g healthy [sweeper] st [Accepted poll_call; Accepted stats_call].
Definition b_stopping : standalone (S := mem) (G := simple_grpc) :=
  b_both false Stopping ([stats_call; poll_call], true).

Lemma b_stopping_reached : rtc steps b_started b_stopping.
Proof.
  eapply (rtc_l _ _ b_polled).
  { right; right. apply (call_arrives (λ s, s) takers poll_call s_up [] ([], false) ([poll_call], false) true [sweeper] Accepting []);
      [by left| |by split]. split; [decide_now|]. intros n. apply noon_time. }
  eapply (rtc_l _ _ (b_both true Accepting ([stats_call; poll_call], false))).
  { right; right. by apply (call_arrives (λ s, s) takers stats_call s_up [] ([poll_call], false) ([stats_call; poll_call], false)
      true [sweeper] Accepting [Accepted poll_call]); [left| |split]. }
  eapply (rtc_l _ _ (b_both false Unhealthy ([stats_call; poll_call], false))); [right; right; apply sigterm|].
  apply rtc_once. left. refine (stops_gracefully (G := simple_grpc) (λ s, s) s_up []
    ([stats_call; poll_call], false) false [sweeper] [Accepted poll_call; Accepted stats_call]).
Qed.

Lemma standalone_never_promotes_witness : is_Some (zset_at (ks (redis b_stopping)) (delayedKey "default") !! "job-2").
Proof.
  refine (proj2 (standalone_never_promotes (λ s, s) takers no_env no_file in_order free_port
    "" s_queued b_started b_stopping "default" "job-2" _ _ _ s_queued_reachable _ b_begins b_stopping_reached) _).
  - done.
  - done.
  - intros s s' Hs. by apply takers_do.
  - decide_now.
  - decide_now.
Defined.

(** The statistics are answered; the long poll is still open. *)
Lemma graceful_stop_witness : healthy b_stopping = false ∧ (1 ≤ 3)%nat.
Proof.
  destruct (graceful_stop (λ s, s) takers no_env no_file in_order free_port "" s_queued b_started b_stopping 1
    (Standalone (serve_call (λ s, s) stats_call (s_up, [])).1.1 (serve_call (λ s, s) stats_call (s_up, [])).1.2
      ([poll_call], true) false [sweeper] Stopping
      ([Accepted poll_call; Accepted stats_call] ++ [Replied stats_call (serve_call (λ s, s) stats_call (s_up, [])).2]))
    b_begins b_stopping_reached) as [(_ & _ & Hh) [_ Hend]].
  split; [by apply Hh|]. apply Hend; [done|].
  eapply service_runs_own; [|apply service_runs_nil].
  apply (serves (λ s, s) stats_call s_up [] ([stats_call; poll_call], true)).
  - right; by right.
  - by exists [], [poll_call].
  - by destruct (serve_call (λ s, s) stats_call (s_up, [])) as [[] ?].
Defined.
