(* ===== verification/TypedExamples.v ===== *)
(** * TypedExamples: tasks, batches and commands at work *)
From S2P Require Import Config Client Prelude Float Keys Redis Lua MemRedis Keyspace Job Scripts Queue ScriptSpecs QueueSpecs EnqueueSpecs Places Liveness Order Winter Json Workflow Cron RateLimit MemText Examples Recovery Handler Server ServerSpecs SettleSpecs ServerExamples Moves Texts Lifecycle System Cli Connect Commands Typed.

Open Scope string_scope.
Open Scope Z_scope.
Open Scope list_scope.

(** ** A batch

    Three jobs in the order in which a client thought of them. *)
Definition note (id : string) (p : Z) : JobRecord := {|
  ID := id; Kind := "note"; Job.Queue := "notes"; Job.Priority := p; State := "pending"; Payload := id;
  Attempt := 0; MaxRetries := 3; CreatedAt := 0; ScheduledAt := 0; StartedAt := 0; CompletedAt := 0;
  LastError := ""; UniqueKey := ""; WorkflowID := "" |}.
Definition notes : list JobRecord := [note "b" 5; note "c" 0; note "a" 5].

Definition three_calls : list (Z * string) := [(noon, "w1"); (noon, "w2"); (noon, "w1")].

Lemma notes_immediate : Forall (immediate "notes") notes.
Proof.
  unfold notes. repeat (apply Forall_cons_2; [split; first [reflexivity|decide_now]|]). apply Forall_nil_2.
Qed.

Lemma empty_reachable : reachable empty_mem.
Proof. by apply reachable_init. Qed.

Lemma empty_Inv : Inv (ks empty_mem).
Proof. exact (sound_inv _ (reachable_sound _ empty_reachable)). Qed.

Lemma empty_room jobs : room (length notes) jobs (ks empty_mem).
Proof. intros job _. exists 0. split; [reflexivity|decide_now]. Qed.

Lemma queue_sorts_witness :
  merge_sort before notes = [note "c" 0; note "a" 5; note "b" 5] ∧
  wp (S := mem) (EnqueueMany notes ;; map_each three_calls (λ call, Queue.Dequeue call.1 "notes" call.2))
    (λ m' r, r = Ok [Some (taken_record (noon, "w1") (note "c" 0)); Some (taken_record (noon, "w2") (note "a" 5));
                     Some (taken_record (noon, "w1") (note "b" 5))]) (ks empty_mem).
Proof.
  assert (E : merge_sort before notes = [note "c" 0; note "a" 5; note "b" 5]) by (vm_compute; reflexivity).
  split; [exact E|]. eapply wp_mono.
  { refine (proj2 (proj2 (proj2 (queue_sorts (S := mem) "notes" _ three_calls notes (ks empty_mem)
      empty_Inv _ _ notes_immediate _ (empty_room notes) _ _)))).
    - decide_now.
    - vm_compute. reflexivity.
    - vm_compute. reflexivity.
    - decide_now.
    - decide_now.
    - reflexivity. }
  cbv beta. intros m' r (-> & _). rewrite E. reflexivity.
Defined.

(** ** A task and its answer

    A greeting is computed from a name; both are texts as they are. *)
Record Greet : Type := { Whom : string }.

#[local] Instance greet_text : Json Greet := {|
  marshal g := Whom g; unmarshal s := Ok {| Whom := s |}; valid_text _ := True |}.
#[local] Instance greet_laws : JsonLaws Greet.
Proof. by intros [w] _. Qed.
#[local] Instance greet_type : TaskType Greet := {| taskKind := "greet"; taskOptions := None |}.
#[local] Instance answer_text : Json string := {|
  marshal s := s; unmarshal s := Ok s; valid_text _ := True |}.
#[local] Instance answer_laws : JsonLaws string.
Proof. by intros s _. Qed.

Definition greeting (g : Greet) : string := "hello " +:+ Whom g.

Definition bare_server : Server (S := mem) := Use [Recover] (newServer {|
  Concurrency := 1; cfgQueues := []; StrictPriority := false; cfgCron := []; PollInterval := 0;
  ShutdownTimeout := 0 |} "w1").

Definition greeter : Server (S := mem) := HandleFunc (computes greeting) bare_server.

Lemma request_response_witness :
  wpk (S := mem) (round (λ s, s) 0 greeter (λ _, noon) "g-1" "next" {| Whom := "bob" |} [] "default" 3)
    (λ m' r, r = Ok (Ok "hello bob") ∧ closed "completed" "default" "g-1" m') (ks empty_mem).
Proof.
  refine (request_response (S := mem) (λ s, s) 0 bare_server greeting (λ _, noon) "g-1" "next"
    {| Whom := "bob" |} [] "default" 3 (ks empty_mem) _ _ _ _ _ _ _ _ _ _ _ _ empty_Inv _ _ _ _).
  - decide_now.
  - reflexivity.
  - decide_now.
  - decide_now.
  - decide_now.
  - intros n. decide_now.
  - exact I.
  - exact I.
  - discriminate.
  - reflexivity.
  - right. reflexivity.
  - apply Forall_nil_2.
  - vm_compute. reflexivity.
  - vm_compute. reflexivity.
  - decide_now.
  - decide_now.
Defined.

(** ** The server of the command line *)

Definition connect_to : Options → string := oAddr.
Definition no_config : string → result error Config.Config := λ _, Err (ErrText "no such file").
Definition print_record : JobRecord → string := ID.
Definition map_order : gmap string QueueConfig → list (string * QueueConfig) := map_to_list.

Definition plain_flags : root_flags := {| fConfig := None; fRedis := None |}.

Definition command_server : Server (S := mem) :=
  newServer (serverCmd [] {|
    Config.Redis := {| Addr := "localhost:6379"; Password := ""; DB := 0 |};
    Config.Server := {| GRPCPort := ""; LogLevel := "" |}; Config.Queues := ∅;
    Workers := {| HeartbeatInterval := ""; StaleThreshold := ""; RecoveryInterval := ""; Config.Concurrency := 0 |};
    Scheduler := {| Config.PollInterval := "" |}; Config.Cron := [] |}) "w1".

Lemma command_server_found :
  (run_command (S := mem) connect_to no_config map_order print_record "w1" (λ _, noon) plain_flags IServer s_active).2 =
  Ok (Serves (NewClientFromRedis "localhost:6379") command_server).
Proof. vm_compute. reflexivity. Qed.

(** A mail that any other worker would send. *)
Lemma winter_server_buries_witness :
  wpk (S := mem) (processJob 0 command_server (λ _, noon) "next" welcome)
    (λ m' r, r = Ok "dead" ∧ "job-1" ∈ list_at m' (deadKey "default")) (ks s_active).
Proof.
  eapply wpk_mono.
  { refine (winter_server_buries (S := mem) connect_to no_config map_order print_record "w1" 0 (λ _, noon) plain_flags
      s_active (NewClientFromRedis "localhost:6379") command_server (λ _, noon) "next" welcome (ks s_active)
      command_server_found _ _ _ s_active_fit).
    - decide_now.
    - decide_now.
    - intros n. decide_now. }
  cbv beta. by intros m' r (-> & _ & Hin).
Defined.
